(* ===== verification/_CoqProject ===== *)
-Q . S2P
Prelude.v
GoStd.v
Runes.v
Numerals.v
GoTime.v
Json.v
Query.v
Queue.v
Api.v
Snapshot.v
Claim.v
Fixture.v
Bind.v
Backends.v
Conditions.v
Status.v
Net.v
Upstreams.v
Admission.v
Logging.v
ServerConfig.v
Translate.v
Controller.v
Determinism.v
Triggers.v
Erasure.v
Convergence.v
ParseIP.v
Relay.v
Watcher.v
Closing.v
Accounting.v
Buffers.v
Dataplane.v
Lifecycle.v
Metrics.v
Http.v
Pages.v
Proxy.v
Lifetime.v
Cli.v
Serving.v
EndToEnd.v
Memory.v
DeepCopy.v
