(* ===== verification/Prelude.v ===== *)
(** * rsync-gateway: verification library

    rsync-gateway serves rsync modules of a Kubernetes cluster.  A controller watches
    Gateway API objects and two resources of its own (GatewayConfig, RsyncRoute),
    decides which routes are bound to which Gateways, translates them to a routing table
    and writes statuses back.  An embedded data plane (also usable alone, as rsync-proxy)
    accepts rsync clients, reads the module a client asks for, picks an upstream, makes
    the client wait in the admission queue of that upstream and relays bytes.

    ** Files and what they model

    - [Prelude]: results, panics and blocking as values, shared tactics, hints, lemmas.
    - [GoStd]: what the sources use of Go and its library: wrapping integers, strings,
      sorting, FNV hashing, host:port splitting, number and duration parsing (with the
      float arithmetic of [time.ParseDuration]).  More of the library, a file each:
      [Runes] (UTF-8, and [strings.Fields] over it), [Numerals] (decimal text), [GoTime] (dates and the text of a time), [Json]
      ([encoding/json], from bytes to values and back), [Query] ([net/url] queries).
    - [Queue]: [pkg/queue/queue.go].  The state ([World]) is the queue with the store of
      channels its handles share; [Acquire], [Release], [SetMax] run in a monad with
      panics (closed channels) and blocking (full channels under the mutex).
    - [Api]: [api/v1alpha1]: specs, identity constants, [Validate].
    - [Snapshot], [Claim], [Bind], [Backends], [Conditions], [Status]:
      the files of the same names in [internal/gateway]: the snapshot of the cluster, class claims,
      binding of routes and module conflicts, backend references and grants, condition
      merging, status building.  [Fixture] is a small cluster for examples.
    - [Net], [Upstreams], [ParseIP]: [pkg/server/utils.go] and the parts of
      [pkg/server/server.go] on addresses, lines, module tables, listing, discovery and
      the choice of a target.  A connection is what it will deliver and what was written.
    - [Admission]: the interface (a class) between server and queue; [Queue] implements it.
    - [Logging]: [pkg/logging/file.go] over a table of open files.
    - [ServerConfig]: [loadConfig]/[ApplyConfig]: checks, queues, timings, tables.
    - [Translate]: [internal/translate].
    - [Controller]: [internal/controller/reconciler.go], [Reconcile] with its table and
      status writes; [Triggers]: [SetupWithManager] and [rebuildHandler], the controller as
      steps over a cache that changes and a work queue.
    - [Relay]: [relay] as one executable definition, in a monad with early returns.
    - [Watcher]: the goroutine that closes idle, long or slow relays.
    - [Closing]: the end of [relay]: the two copying goroutines, the watcher and the call
      that closes the connections and reads the totals, as interleaved steps.
    - [Buffers]: the pool of read buffers that all calls of [relay] share, over a heap.
    - [Accounting]: [handleConn], [relay] and [Drain] as a step relation of many
      goroutines over the shared counters, with their deferred calls.
    - [Dataplane]: [internal/dataplane], [Server.Listen] and [Server.Close].
    - [Lifecycle]: [Server.Run], [Dataplane.Start] and the main function of
      [cmd/rsync-gateway], with the way an error takes through their goroutines.
    - [Metrics]: [pkg/server/metrics.go], the text of the Prometheus page.
    - [Http]: the admin endpoints of [runHTTPServer], requests to responses; [Pages]: the
      JSON they write ([connInfoSnapshot] and the structs of the handlers) and the structs
      the commands decode it into.
    - [Proxy]: the start of the stand-alone proxy (the root command of [cmd/cmd.go] and
      [main.go]) and the refusing server of [contrib/rsync-403].
    - [Memory], [DeepCopy]: pointers, slices and copies over a heap, and with them the deep
      copies of the API objects ([zz_generated.deepcopy.go]).
    - [Cli]: the commands of [cmd/cmd.go], from the request they send to what they print and
      the exit status of [main.go], and the repeatable flag of the gateway.

    Compositions of components, without code of their own:

    - [Serving]: the queue of an upstream with all the connections that hold a handle.
    - [Lifetime]: a server with the loads, admin requests and clients it sees, in any order.
    - [Determinism]: the controller's table in whatever order Go ranges over its maps.
    - [Erasure], [Convergence]: the reconciler with the API server that stores its
      status writes.
    - [EndToEnd]: controller, data plane and relay, from a backendRef to a connection.

    ** What the theorems show

    - Queue: it never panics or blocks with its mutex held ([queue_never_stuck]), refines
      a two-list specification ([queue_refines_reference]), keeps its limits, leaves no
      slot free while someone waits, wakes each promoted connection exactly once, in
      order, and announces correct positions ([queue_position_accurate]).
    - Relay: bytes pass unchanged in both directions after the documented prologue
      ([relay_transparent]); an upstream is contacted only for an admitted request
      ([relay_contacts_only_admitted]); every call returns or reaches its copy phase, without
      a panic ([relay_prologue_ends]); unknown modules are refused as rsyncd does; the watcher closes
      only with a reason and misses no limit.  The goroutines of the copy phase refine its
      sequential description ([copies_refine_copyPhase]); a limit ends the relay whatever
      the peers do ([limit_ends_relay]) and so does the end of a direction, but for a peer
      that takes no bytes ([relay_winds_down]), to whom no limit applies any more
      ([limits_lapse]).
    - Accounting: in every interleaving the per-address cap holds ([per_ip_cap_holds]),
      counters are exact ([counters_exact]), and draining to zero means everything was
      given back ([Drain_zero_means_free]).
    - Shared memory: connections that take turns with a read buffer never see each other's
      bytes, so that [Relay] may treat them as values ([pool_isolates], [buffer_readLine]);
      a deep copy means the same as its original and neither sees writes to the other
      ([deepcopy_isolates]).
    - Configuration: a load is all or nothing for what clients are served by
      ([loadConfig_atomic]), keeps queues and admitted clients across reloads
      ([loadConfig_keeps_queues]), and serves exactly the configured targets
      ([loadConfig_routes]); applying to several servers is all or nothing
      ([Apply_all_or_nothing]); starting up leaks no listener ([New_dataplane]), nor does
      any way the gateway ends ([run_closes_listeners]); a failure of the data plane stops
      it ([failure_stops_gateway]).  The stand-alone proxy ends with an error or serves its
      configuration at its addresses ([proxy_starts]).
    - Gateway: per Gateway a module is served by one route ([BindRoutes_module_exclusive]),
      the older route wins, independently of the order of Go's map iteration
      ([BindRoutes_deterministic]), on which the whole table does not depend either
      ([table_deterministic]): replicas agree; binding, backend resolution, claims and validation
      are characterised by equivalences; statuses are stable and keep foreign entries;
      the table serves only accepted routes and resolved backends
      ([buildTable_serves_only_accepted]).
    - Compositions: a client is only ever connected to a backend that the cluster lets
      serve its module ([gateway_serves_only_accepted]), and the addresses served are
      exactly those ([gateway_targets_exact]); the data plane accepts every table
      ([gateway_table_applied]); each queue has at most the configured number of clients
      relayed, also across reloads ([serving_bounded]; an upstream that was dropped and came
      back has a second queue, [readded_exceeds_limit]), and nobody waits for nothing
      ([serving_progress]); a server stays
      well formed and its clients can always leave ([server_lifetime]); reconciling
      converges ([reconcile_converges]); no change of the cluster is lost, however it
      interleaves with listing and failures ([no_change_lost]), and the controller comes
      to rest ([controller_settles]).
    - Administration: only a reload changes the server ([admin_only_reload_changes]); the
      commands, through the bytes of query and page, show what the server has
      ([connections_command], [modules_command]) or what another gateway serves
      ([discover_command]), and the reload command exits with 0 exactly when the
      configuration was loaded ([reload_command]); the metrics page repeats no series
      ([metrics_no_duplicates]).
    - Round trips: the pages of the admin endpoints are read as they were written
      ([pages_read_back]), so is the version ([version_read]); both rest on the decoder
      inverting the encoder on every value, in every layout ([parse_encode]), and on times
      ([time_read_back]).  A listing is read back by discovery ([listing_roundtrip];
      a message of the day that does not end in a blank line is read as modules,
      [motd_taken_for_module]), a query by the endpoint ([query_roundtrip]); the address of a client survives its way
      through text ([choice_by_text]).

    ** Conventions, fuel and bounds

    Integers are [Z]; where the sources can overflow (durations, counters, hashes) the
    wrap-around is written out.  Errors are their texts.  A Go map whose order of
    iteration matters is ranged over in an arbitrary order that is a parameter.  Loops that
    are not structural take fuel, with a lemma that the fuel given suffices: reading a
    line ([readLineFuel], a chunk per turn), discovery ([discoverFuel], a byte per line),
    durations (a character per item), promotion (one waiting connection per turn), the
    groups of an IPv6 address (eight), runes and JSON values (a byte each).

    Parameters, for code outside the repository: the API server and event recorder of the
    reconciler, label selectors, key-pair loading, name resolution, dialing, listening,
    chmod and opening files (listening sees the sockets that are open, so that it may refuse
    an address in use); the work queue of controller-runtime (class [Workqueue], with
    what its documentation promises) and the copies of foreign structs (class [Copyable]);
    the table and colour libraries of the commands; the zone of the server and [url.Parse],
    whose rules for hosts differ between releases of Go;
    [sync.Pool], which may hand out any buffer given back.  What other goroutines do is a
    parameter of [Relay] and is explicit in [Accounting], [Buffers] and [Closing].

    ** What is not modelled

    The TOML text of the configuration file (a third-party decoder), the layout of the
    connection table, how flags and arguments are parsed, log texts, TLS, the fakes of the
    tests, and deadlines as such (an expired one is an error of the read or write).  The
    decoder of [Json] has no limit of depth, and what it says of a bad page is one error.
    Before the copy phase a failed write counts as having sent nothing.  Paths of admin
    requests are in canonical form (the mux of [net/http] redirects others), and the listeners
    that the controller manager opens itself are not tracked. *)
From stdpp Require Export base tactics gmap strings list sorting numbers pretty.
From Stdlib Require Export ZArith Lia.
#[export] Set Warnings "-clear-no-such-hyp".

(** ** Results of fallible Go code

    A Go function returning [(T, error)] becomes a function into [result T];
    an [error] value is modelled by the text its [Error] method returns. *)
Abbreviation error := string (only parsing).

Inductive result (A : Type) : Type :=
  | Ret (a : A)
  | Err (e : error).
Arguments Ret {A} a.
Arguments Err {A} e.

#[export] Instance result_ret : MRet result := fun _ a => Ret a.
#[export] Instance result_bind : MBind result := fun _ _ f r =>
  match r with Ret a => f a | Err e => Err e end.
#[export] Instance result_fmap : FMap result := fun _ _ f r =>
  match r with Ret a => Ret (f a) | Err e => Err e end.

(** Outcome of a piece of code that may panic, or block for ever on a channel
    while it holds a mutex. *)
Inductive outcome (A : Type) : Type :=
  | Done (a : A)
  | Panic (msg : string)
  | Blocked.
Arguments Done {A} a.
Arguments Panic {A} msg.
Arguments Blocked {A}.

#[export] Instance outcome_ret : MRet outcome := fun _ a => Done a.
#[export] Instance outcome_bind : MBind outcome := fun _ _ f r =>
  match r with Done a => f a | Panic m => Panic m | Blocked => Blocked end.

(** [fmt.Errorf("name: %w", err)] around a fallible call. *)
Definition wrapErr {A} (name : string) (r : result A) : result A :=
  match r with Ret a => Ret a | Err e => Err (name +:+ ": " +:+ e) end.

Declare Scope go_scope.
Delimit Scope go_scope with go.
Notation "r <?> name" := (wrapErr name r) (at level 66, left associativity) : go_scope.

(** ** Automation *)

(** A member of the empty list is a contradiction. *)
Ltac elem_nil :=
  exfalso;
  match goal with
  | H : _ ∈ [] |- _ => exact (not_elem_of_nil _ H)
  | H : _ ∈ _ |- _ => solve [apply not_elem_of_nil in H; exact H]
  end.

(** Membership and uniqueness facts that proofs leave to [auto with go]. *)
Create HintDb go.
#[export] Hint Resolve list_elem_of_here list_elem_of_further list_elem_of_lookup_2 : go.
#[export] Hint Resolve NoDup_singleton NoDup_nil_2 Forall_nil_2 : go.

(** ** Lists *)

Section filters.
Context {A : Type} (P : A → Prop) `{∀ x, Decision (P x)}.

Lemma filter_none (l : list A) : (∀ x, x ∈ l → ¬ P x) → filter P l = [].
Proof.
  intros Hn. destruct (filter P l) as [|x k] eqn:E; [done|].
  assert (x ∈ filter P l) as [Hp Hx]%list_elem_of_filter by (rewrite E; by left).
  by destruct (Hn x Hx).
Qed.

Lemma filter_all (l : list A) : (∀ x, x ∈ l → P x) → filter P l = l.
Proof.
  induction l as [|x l IH]; intros Hall; [done|]. rewrite filter_cons, decide_True.
  - f_equal. apply IH. intros y Hy. apply Hall. by right.
  - apply Hall. by left.
Qed.
End filters.

Lemma existsb_iff {A} (f : A → bool) l : existsb f l = true ↔ ∃ x, x ∈ l ∧ f x = true.
Proof.
  rewrite existsb_exists. split; intros (x & H & ?); exists x; split; auto;
    by apply list_elem_of_In in H || apply list_elem_of_In.
Qed.

(** [Forall2] with the membership of the elements at hand. *)
Lemma Forall2_impl_elem {A B} (P Q : A → B → Prop) l k :
  Forall2 P l k → (∀ x y, x ∈ l → y ∈ k → P x y → Q x y) → Forall2 Q l k.
Proof.
  induction 1 as [|x y l k Hxy _ IH]; intros Himp; [constructor|]. constructor.
  - apply Himp; [by left|by left|done].
  - apply IH. intros x' y' Hx' Hy'. apply Himp; by right.
Qed.
