(* ===== verification/GoStd.v ===== *)
(** * The parts of Go and its standard library that the sources use

    Strings are byte strings, as in Go.  Text routines are modelled on ASCII
    text, which is what Kubernetes names, module names and addresses are. *)
From S2P Require Import Prelude.
From Stdlib Require Export Ascii.
From Stdlib Require Import SpecFloat.
Open Scope Z_scope.

(** ** Machine integers *)

(** Two's complement wrap-around of a [w]-bit integer. *)
Definition wrap (w x : Z) : Z := (x + 2 ^ (w - 1)) mod 2 ^ w - 2 ^ (w - 1).
Definition int64 (x : Z) : Z := wrap 64 x.
Definition uint32 (x : Z) : Z := x mod 2 ^ 32.
Definition uint64 (x : Z) : Z := x mod 2 ^ 64.

Definition inInt64 (x : Z) : Prop := - 2 ^ 63 ≤ x < 2 ^ 63.

Ltac pow_consts :=
  change (2 ^ (64 - 1)) with 9223372036854775808 in *;
  change (2 ^ 63) with 9223372036854775808 in *;
  change (2 ^ 64) with 18446744073709551616 in *;
  change (2 ^ 32) with 4294967296 in *.

Lemma int64_id x : inInt64 x → int64 x = x.
Proof. unfold inInt64, int64, wrap. pow_consts. intros H. rewrite Z.mod_small; lia. Qed.

Lemma int64_range x : inInt64 (int64 x).
Proof.
  unfold inInt64, int64, wrap. pow_consts.
  pose proof (Z.mod_pos_bound (x + 9223372036854775808) 18446744073709551616). lia.
Qed.

Lemma int64_add a b : int64 (int64 a + b) = int64 (a + b).
Proof.
  unfold int64, wrap. pow_consts. f_equal.
  replace (a + b + 9223372036854775808) with (a + 9223372036854775808 + b) by lia.
  rewrite <- (Z.add_mod_idemp_l (a + 9223372036854775808)) by lia. f_equal. lia.
Qed.

(** ** Characters and strings *)

Definition byte (c : ascii) : Z := Z.of_N (N_of_ascii c).
Definition chr (n : nat) : ascii := ascii_of_nat n.
Definition chars (s : string) : list ascii := String.list_ascii_of_string s.
Definition text (l : list ascii) : string := String.string_of_list_ascii l.

Definition LF : string := text [chr 10].
Definition CRLF : string := text [chr 13; chr 10].
Definition DQ : string := text [chr 34].

Lemma text_chars s : text (chars s) = s.
Proof. apply String.string_of_list_ascii_of_string. Qed.
Lemma chars_text l : chars (text l) = l.
Proof. apply String.list_ascii_of_string_of_list_ascii. Qed.

#[export] Instance chars_inj : Inj (=) (=) chars.
Proof. intros a b H. by rewrite <- (text_chars a), H, text_chars. Qed.

Lemma length_chars s : length (chars s) = String.length s.
Proof. unfold chars. induction s as [|c s IH]; simpl; [done|]. by rewrite IH. Qed.
Lemma chars_app a b : chars (a +:+ b) = chars a ++ chars b.
Proof. induction a as [|c a IH]; [done|]. simpl. by rewrite <- IH. Qed.

Definition inRange (lo hi : Z) (c : ascii) : bool := (lo <=? byte c) && (byte c <=? hi).
Definition isDigit : ascii → bool := inRange 48 57.
Definition isLower : ascii → bool := inRange 97 122.
Definition isUpper : ascii → bool := inRange 65 90.

(** [strings.HasPrefix] *)
Definition hasPrefix (s p : string) : bool := String.prefix p s.

(** [len(s)] *)
Definition len (s : string) : Z := Z.of_nat (String.length s).

(** [strconv.Itoa] and the verb [%d] *)
Definition itoa (n : Z) : string := pretty n.

(** [strings.Join] *)
Fixpoint join (sep : string) (l : list string) : string :=
  match l with
  | [] => ""
  | [x] => x
  | x :: l' => x +:+ sep +:+ join sep l'
  end.

(** [strings.ToLower] *)
Definition toLowerChar (c : ascii) : ascii :=
  if isUpper c then ascii_of_N (N_of_ascii c + 32) else c.
Definition toLower (s : string) : string := text (map toLowerChar (chars s)).

Definition hexDigit (n : Z) : ascii :=
  if n <? 10 then ascii_of_N (48 + Z.to_N n)%N else ascii_of_N (87 + Z.to_N n)%N.
Definition escapeHex (c : ascii) : list ascii :=
  [chr 92; "x"%char; hexDigit (byte c / 16); hexDigit (byte c mod 16)].

(** The verb [%q] on ASCII text (strconv.Quote). *)
Definition quoteChar (c : ascii) : list ascii :=
  let b := byte c in
  if (b =? 34) || (b =? 92) then [chr 92; c]
  else if inRange 32 126 c then [c]
  else if b =? 7 then [chr 92; "a"%char]
  else if b =? 8 then [chr 92; "b"%char]
  else if b =? 12 then [chr 92; "f"%char]
  else if b =? 10 then [chr 92; "n"%char]
  else if b =? 13 then [chr 92; "r"%char]
  else if b =? 9 then [chr 92; "t"%char]
  else if b =? 11 then [chr 92; "v"%char]
  else escapeHex c.
Definition quote (s : string) : string :=
  DQ +:+ text (flat_map quoteChar (chars s)) +:+ DQ.

(** ** Sorting: [sort.Strings] *)

Definition sortStrings (l : list string) : list string := merge_sort String.le l.

Lemma sortStrings_perm l : sortStrings l ≡ₚ l.
Proof. apply merge_sort_Permutation. Qed.

Lemma sortStrings_sorted l : Sorted String.le (sortStrings l).
Proof. apply Sorted_merge_sort, _. Qed.

(** Sorting forgets the order in which a map was ranged over. *)
Lemma sortStrings_order_irrelevant l k : l ≡ₚ k → sortStrings l = sortStrings k.
Proof.
  intros H. apply (Sorted_unique String.le); try apply sortStrings_sorted.
  by rewrite !sortStrings_perm.
Qed.

Lemma sortStrings_idemp l : sortStrings (sortStrings l) = sortStrings l.
Proof. apply sortStrings_order_irrelevant, sortStrings_perm. Qed.

(** ** [hash/fnv]: New32a, Write, Sum32 *)

Definition fnv32a (bs : list Z) : Z :=
  fold_left (fun h b => uint32 (Z.lxor h b * 16777619)) bs 2166136261.

Lemma fnv32a_range bs : 0 ≤ fnv32a bs < 2 ^ 32.
Proof.
  unfold fnv32a.
  assert (∀ h, 0 ≤ h < 2 ^ 32 →
    0 ≤ fold_left (fun h b => uint32 (Z.lxor h b * 16777619)) bs h < 2 ^ 32) as H.
  { induction bs as [|b bs IH]; intros h Hh; [done|]. apply IH.
    unfold uint32. apply Z.mod_pos_bound. lia. }
  apply H. lia.
Qed.

(** ** Searching bytes *)

(** [bytes.IndexByte], [strings.IndexByte]; [None] is -1. *)
Fixpoint indexByte (c : ascii) (l : list ascii) : option nat :=
  match l with
  | [] => None
  | d :: l' => if Ascii.eqb d c then Some O else S <$> indexByte c l'
  end.

(** The index of the last occurrence. *)
Fixpoint lastIndexByte (c : ascii) (l : list ascii) : option nat :=
  match l with
  | [] => None
  | d :: l' =>
      match lastIndexByte c l' with
      | Some i => Some (S i)
      | None => if Ascii.eqb d c then Some O else None
      end
  end.

(** [strings.TrimSuffix(s, "\n")] *)
Definition trimSuffixLF (s : string) : string :=
  match rev (chars s) with
  | c :: r => if byte c =? 10 then text (rev r) else s
  | [] => s
  end.

(** [unicode.IsSpace], of an ASCII character. *)
Definition isSpace (c : ascii) : bool :=
  let b := byte c in ((9 <=? b) && (b <=? 13)) || (b =? 32).

(** ** [net.SplitHostPort] and [net.JoinHostPort] *)

Definition missingPort : string := "missing port in address".
Definition tooManyColons : string := "too many colons in address".

(** The error is the [Err] field of the [*net.AddrError]. *)
Definition splitHostPort (hostport : string) : result (string * string) :=
  let l := chars hostport in
  match lastIndexByte ":" l with
  | None => Err missingPort
  | Some i =>
      let finish (host : list ascii) (j k : nat) :=
        match indexByte "[" (drop j l), indexByte "]" (drop k l) with
        | Some _, _ => Err "unexpected '[' in address"
        | None, Some _ => Err "unexpected ']' in address"
        | None, None => Ret (text host, text (drop (S i) l))
        end in
      if decide (head l = Some "["%char) then
        match indexByte "]" l with
        | None => Err "missing ']' in address"
        | Some e =>
            if (S e =? length l)%nat then Err missingPort
            else if (S e =? i)%nat then finish (take (e - 1) (drop 1 l)) 1%nat (S e)
            else if decide (l !! S e = Some ":"%char) then Err tooManyColons
            else Err missingPort
        end
      else
        let host := take i l in
        match indexByte ":" host with
        | Some _ => Err tooManyColons
        | None => finish host O O
        end
  end.

Definition joinHostPort (host port : string) : string :=
  match indexByte ":" (chars host) with
  | Some _ => "[" +:+ host +:+ "]:" +:+ port
  | None => host +:+ ":" +:+ port
  end.

(** ** [strconv.ParseUint(s, 10, bits)]; [None] is an error. *)

Fixpoint parseDigits (acc : Z) (l : list ascii) : option Z :=
  match l with
  | [] => Some acc
  | c :: l' => if isDigit c then parseDigits (acc * 10 + (byte c - 48)) l' else None
  end.

Definition parseUint (bits : Z) (s : string) : option Z :=
  match chars s with
  | [] => None
  | l => match parseDigits 0 l with
         | Some v => if v <? 2 ^ bits then Some v else None
         | None => None
         end
  end.

Lemma parseUint_range bits s v : parseUint bits s = Some v → 0 ≤ v < 2 ^ bits.
Proof.
  assert (∀ l acc v, 0 ≤ acc → parseDigits acc l = Some v → 0 ≤ v) as Hnn.
  { induction l as [|c l IH]; simpl; intros acc v' Ha H; [by simplify_eq|].
    destruct (isDigit c) eqn:Hd; [|done]. eapply IH; [|done].
    unfold isDigit, inRange in Hd. lia. }
  unfold parseUint. destruct (chars s) as [|c l] eqn:E; [done|].
  destruct (parseDigits 0 (c :: l)) as [v'|] eqn:Hp; [|done].
  destruct (Z.ltb_spec v' (2 ^ bits)); [|done]. intros [= <-]. split; [|done].
  eapply Hnn; [|exact Hp]. lia.
Qed.

Example split_port : splitHostPort ":873" = Ret ("", "873").
Proof. reflexivity. Qed.
Example split_v6 : splitHostPort "[::1]:873" = Ret ("::1", "873").
Proof. reflexivity. Qed.
Example split_noport : splitHostPort "[::1]" = Err missingPort.
Proof. reflexivity. Qed.
Example split_bare_v6 : splitHostPort "::1" = Err tooManyColons.
Proof. reflexivity. Qed.
Example parse_port : parseUint 16 "65535" = Some 65535 ∧ parseUint 16 "65536" = None.
Proof. split; reflexivity. Qed.

(** ** [time.ParseDuration]

    Durations are nanoseconds in an [int64].  Fractions go through [float64],
    as in Go; [spec_float] is the IEEE 754 specification of the Standard
    Library, at binary64. *)

Definition second : Z := 1000000000.

Definition f64mul := SFmul 53 1024.
Definition f64div := SFdiv 53 1024.
Definition f64OfZ (n : Z) : spec_float := binary_normalize 53 1024 n 0 false.
Definition f64Trunc (x : spec_float) : Z :=
  match x with
  | S754_finite false m e => Z.shiftl (Zpos m) e
  | _ => 0
  end.

(** [leadingInt]: the value and the rest, [None] on overflow. *)
Fixpoint leadingInt (x : Z) (l : list ascii) : option (Z * list ascii) :=
  match l with
  | c :: l' =>
      if isDigit c then
        if 2 ^ 63 / 10 <? x then None
        else let y := x * 10 + (byte c - 48) in
             if 2 ^ 63 <? y then None else leadingInt y l'
      else Some (x, l)
  | [] => Some (x, l)
  end.

(** [leadingFraction] *)
Fixpoint leadingFraction (x : Z) (scale : spec_float) (overflow : bool) (l : list ascii)
    : Z * spec_float * list ascii :=
  match l with
  | c :: l' =>
      if isDigit c then
        if overflow || ((2 ^ 63 - 1) / 10 <? x) then leadingFraction x scale true l'
        else let y := x * 10 + (byte c - 48) in
             if 2 ^ 63 <? y then leadingFraction x scale true l'
             else leadingFraction y (f64mul scale (f64OfZ 10)) false l'
      else (x, scale, l)
  | [] => (x, scale, l)
  end.

Definition unitMap (u : string) : option Z :=
  if decide (u = "ns") then Some 1
  else if decide (u = "us") then Some 1000
  else if decide (u = text [chr 194; chr 181; "s"%char]) then Some 1000
  else if decide (u = text [chr 206; chr 188; "s"%char]) then Some 1000
  else if decide (u = "ms") then Some 1000000
  else if decide (u = "s") then Some second
  else if decide (u = "m") then Some (60 * second)
  else if decide (u = "h") then Some (3600 * second)
  else None.

(** The unit: everything up to the next digit or dot. *)
Fixpoint spanUnit (l : list ascii) : list ascii * list ascii :=
  match l with
  | c :: l' =>
      if Ascii.eqb c "." || isDigit c then ([], l)
      else let '(u, r) := spanUnit l' in (c :: u, r)
  | [] => ([], [])
  end.

(** The [quote] of package time. *)
Definition timeQuote (s : string) : string :=
  DQ +:+ text (flat_map (fun c =>
    if (128 <=? byte c) || (byte c <? 32) then escapeHex c
    else if (byte c =? 34) || (byte c =? 92) then [chr 92; c] else [c]) (chars s)) +:+ DQ.

Definition invalidDuration (orig : string) : error := "time: invalid duration " +:+ timeQuote orig.

(** One number with its unit, [v + f/scale] units: the nanoseconds and the rest. *)
Definition durationItem (orig : string) (s : list ascii) : result (Z * list ascii) :=
  match s with
  | [] => Err (invalidDuration orig)
  | c :: _ =>
      if negb (Ascii.eqb c "." || isDigit c) then Err (invalidDuration orig)
      else match leadingInt 0 s with
      | None => Err (invalidDuration orig)
      | Some (v, s1) =>
          let pre := negb (length s1 =? length s)%nat in
          let '(f, scale, s2, post) :=
            match s1 with
            | c1 :: r1 =>
                if Ascii.eqb c1 "." then
                  let '(f, scale, r2) := leadingFraction 0 (f64OfZ 1) false r1 in
                  (f, scale, r2, negb (length r2 =? length r1)%nat)
                else (0, f64OfZ 1, s1, false)
            | [] => (0, f64OfZ 1, s1, false)
            end in
          if negb pre && negb post then Err (invalidDuration orig)
          else
            let '(u, s3) := spanUnit s2 in
            if decide (u = []) then
              Err ("time: missing unit in duration " +:+ timeQuote orig)
            else match unitMap (text u) with
            | None =>
                Err ("time: unknown unit " +:+ timeQuote (text u) +:+ " in duration "
                       +:+ timeQuote orig)
            | Some unit =>
                if 2 ^ 63 / unit <? v then Err (invalidDuration orig)
                else
                  let v1 := v * unit in
                  let v2 := if 0 <? f
                            then uint64 (v1 + f64Trunc (f64mul (f64OfZ f) (f64div (f64OfZ unit) scale)))
                            else v1 in
                  if (0 <? f) && (2 ^ 63 <? v2) then Err (invalidDuration orig)
                  else Ret (v2, s3)
            end
      end
  end.

(** The loop; every item consumes at least one character, so the length of the
    text bounds the iterations. *)
Fixpoint durationItems (fuel : nat) (orig : string) (d : Z) (s : list ascii) : result Z :=
  match s with
  | [] => Ret d
  | _ =>
      match fuel with
      | O => Err (invalidDuration orig)
      | S n =>
          '(v, rest) ← durationItem orig s;
          let d' := uint64 (d + v) in
          if 2 ^ 63 <? d' then Err (invalidDuration orig)
          else durationItems n orig d' rest
      end
  end.

Definition parseDuration (orig : string) : result Z :=
  let '(neg, s) :=
    match chars orig with
    | c :: r => if Ascii.eqb c "-" then (true, r) else if Ascii.eqb c "+" then (false, r)
                else (false, c :: r)
    | [] => (false, [])
    end in
  if decide (s = ["0"%char]) then Ret 0
  else if decide (s = []) then Err (invalidDuration orig)
  else
    d ← durationItems (length s) orig 0 s;
    if neg then Ret (- d)
    else if 2 ^ 63 - 1 <? d then Err (invalidDuration orig)
    else Ret d.

Example parse_600s : parseDuration "600s" = Ret (600 * second).
Proof. vm_compute. reflexivity. Qed.
Example parse_1h30m : parseDuration "1h30m" = Ret (5400 * second).
Proof. vm_compute. reflexivity. Qed.
Example parse_frac : parseDuration "1.5h" = Ret (5400 * second) ∧ parseDuration "0.5s" = Ret 500000000.
Proof. split; vm_compute; reflexivity. Qed.
Example parse_neg : parseDuration "-1s" = Ret (- second).
Proof. vm_compute. reflexivity. Qed.
Example parse_soon : parseDuration "soon" = Err (invalidDuration "soon").
Proof. vm_compute. reflexivity. Qed.
Example parse_nounit : parseDuration "3" = Err ("time: missing unit in duration " +:+ timeQuote "3").
Proof. vm_compute. reflexivity. Qed.

Lemma leadingInt_length l x v r : leadingInt x l = Some (v, r) → (length r ≤ length l)%nat.
Proof.
  revert x. induction l as [|c l IH]; simpl; intros x H; [by simplify_eq|].
  repeat case_match; simplify_eq/=; try lia. apply IH in H. lia.
Qed.

Lemma leadingFraction_length l x sc o v sc' r :
  leadingFraction x sc o l = (v, sc', r) → (length r ≤ length l)%nat.
Proof.
  revert x sc o. induction l as [|c l IH]; simpl; intros x sc o H; [by simplify_eq|].
  repeat case_match; simplify_eq/=; try lia; apply IH in H; lia.
Qed.

Lemma spanUnit_length l u r : spanUnit l = (u, r) → length l = (length u + length r)%nat.
Proof.
  revert u. induction l as [|c l IH]; simpl; intros u H; [by simplify_eq|].
  destruct (_ || _); [by simplify_eq|]. destruct (spanUnit l) as [u' r'].
  simplify_eq/=. by rewrite (IH u').
Qed.

(** Every item consumes text. *)
Lemma durationItem_length orig s v r :
  durationItem orig s = Ret (v, r) → (length r < length s)%nat.
Proof.
  unfold durationItem. destruct s as [|c s']; [done|]. set (s := c :: s') in *.
  destruct (negb _); [done|].
  destruct (leadingInt 0 s) as [[v1 s1]|] eqn:H1; [|done].
  apply leadingInt_length in H1.
  match goal with |- context [match s1 with _ => _ end] =>
    destruct (match s1 with
      | c1 :: r1 => if Ascii.eqb c1 "." then
          let '(f, scale, r2) := leadingFraction 0 (f64OfZ 1) false r1 in
          (f, scale, r2, negb (length r2 =? length r1)%nat)
        else (0, f64OfZ 1, s1, false)
      | [] => (0, f64OfZ 1, s1, false) end) as [[[f sc] s2] post] eqn:H2 end.
  assert (length s2 ≤ length s1)%nat as H2'.
  { destruct s1 as [|c1 r1]; [by simplify_eq|]. case_match; [|by simplify_eq].
    destruct (leadingFraction 0 (f64OfZ 1) false r1) as [[f' sc'] r2] eqn:H3.
    apply leadingFraction_length in H3. simplify_eq/=. lia. }
  clear H2. destruct (_ && _); [done|].
  destruct (spanUnit s2) as [u s3] eqn:H4. apply spanUnit_length in H4.
  case_decide as Hu; [done|]. assert (0 < length u)%nat by (destruct u; simpl; [done|lia]).
  repeat case_match; intros; simplify_eq; lia.
Qed.

(** The fuel never runs out: more of it changes nothing. *)
Lemma durationItems_fuel n k orig d s :
  (length s ≤ n)%nat → (length s ≤ k)%nat →
  durationItems n orig d s = durationItems k orig d s.
Proof.
  revert k d s. induction n as [|n IH]; intros k d s Hn Hk.
  { destruct s; simpl in *; [|lia]. by destruct k. }
  destruct s as [|c s]; [by destruct k|]. destruct k as [|k]; simpl in Hk; [lia|].
  unfold durationItems at 1 2; fold durationItems.
  destruct (durationItem orig (c :: s)) as [[v r]|e] eqn:Hi; [|done].
  apply durationItem_length in Hi. simpl in Hi, Hn. unfold mbind, result_bind.
  case_match; [done|]. apply IH; lia.
Qed.

Lemma durationItems_range n orig d s d' :
  0 ≤ d ≤ 2 ^ 63 → durationItems n orig d s = Ret d' → 0 ≤ d' ≤ 2 ^ 63.
Proof.
  revert d s. induction n as [|n IH]; intros d s Hd H; destruct s as [|c s];
    try (simpl in H; by simplify_eq).
  unfold durationItems in H; fold durationItems in H.
  destruct (durationItem orig (c :: s)) as [[v r]|e]; [|done].
  unfold mbind, result_bind in H. destruct (Z.ltb_spec (2 ^ 63) (uint64 (d + v))); [done|].
  eapply IH; [|done]. unfold uint64 in *. pow_consts.
  pose proof (Z.mod_pos_bound (d + v) 18446744073709551616). lia.
Qed.

Lemma parseDuration_range s d : parseDuration s = Ret d → inInt64 d.
Proof.
  unfold parseDuration.
  destruct (match chars s with
    | [] => (false, [])
    | c :: r => if Ascii.eqb c "-" then (true, r) else if Ascii.eqb c "+" then (false, r)
                else (false, c :: r)
    end) as [neg l].
  case_decide; [intros [= <-]; unfold inInt64; lia|]. case_decide; [done|].
  destruct (durationItems (length l) s 0 l) as [d'|e] eqn:H1; [|done].
  apply durationItems_range in H1; [|lia]. unfold mbind, result_bind, inInt64.
  destruct neg; [intros [= <-]; lia|].
  destruct (Z.ltb_spec (2 ^ 63 - 1) d'); [done|]. intros [= <-]. lia.
Qed.
