(* ===== verification/Runes.v ===== *)
(** * Runes: [unicode/utf8], and the functions of [strings] that go by them

    A string is bytes; a rune is a UTF-8 sequence at its front, or a byte that starts none. *)
From S2P Require Import Prelude GoStd.
Open Scope Z_scope.

(** ** Decoding *)

(** The length of the UTF-8 sequence at the front, if there is one. *)
Definition runeLen (l : list ascii) : option nat :=
  let cont := inRange 128 191 in
  match l with
  | [] => None
  | a :: r =>
      if byte a <? 128 then Some 1%nat
      else match r with
      | [] => None
      | x :: r =>
          if inRange 194 223 a then if cont x then Some 2%nat else None
          else match r with
          | [] => None
          | y :: r =>
              if inRange 224 239 a then
                if (if byte a =? 224 then inRange 160 191 x
                    else if byte a =? 237 then inRange 128 159 x else cont x) && cont y
                then Some 3%nat else None
              else match r with
              | [] => None
              | z :: _ =>
                  if inRange 240 244 a then
                    if (if byte a =? 240 then inRange 144 191 x
                        else if byte a =? 244 then inRange 128 143 x else cont x) && cont y && cont z
                    then Some 4%nat else None
                  else None
              end
          end
      end
  end.

Inductive Rune := Valid (bs : list ascii) | Invalid (b : ascii).

Fixpoint runesFrom (fuel : nat) (l : list ascii) : list Rune :=
  match fuel, l with
  | O, _ | _, [] => []
  | S fuel, c :: r =>
      match runeLen l with
      | Some n => Valid (take n l) :: runesFrom fuel (drop n l)
      | None => Invalid c :: runesFrom fuel r
      end
  end.
(** A rune takes at least a byte. *)
Definition runes (l : list ascii) : list Rune := runesFrom (length l) l.

(** U+FFFD *)
Definition replacement : list ascii := [chr 239; chr 191; chr 189].

(** The text with every byte that is not UTF-8 replaced. *)
Definition cleanRune (r : Rune) : list ascii := match r with Valid bs => bs | Invalid _ => replacement end.
Definition sanitizeUTF8 (l : list ascii) : list ascii := concat (map cleanRune (runes l)).

Definition utf8Encode (u : Z) : list ascii :=
  let b := fun n => chr (Z.to_nat n) in
  if u <? 128 then [b u]
  else if u <? 2048 then [b (192 + u / 64); b (128 + u mod 64)]
  else if u <? 65536 then [b (224 + u / 4096); b (128 + u / 64 mod 64); b (128 + u mod 64)]
  else [b (240 + u / 262144); b (128 + u / 4096 mod 64); b (128 + u / 64 mod 64); b (128 + u mod 64)].

(** ** [strings.Fields] *)

Definition runeBytes (r : Rune) : list ascii := match r with Valid bs => bs | Invalid b => [b] end.

(** [unicode.IsSpace]: the ASCII spaces, U+0085, U+00A0, U+1680, U+2000 to U+200A, U+2028,
    U+2029, U+202F, U+205F and U+3000; a byte that is not UTF-8 is none. *)
Definition spaceRune (r : Rune) : bool :=
  match map byte (runeBytes r), r with
  | [_], Valid [c] => isSpace c
  | [194; b], Valid _ => (b =? 133) || (b =? 160)
  | [225; 154; 128], Valid _ => true
  | [226; 128; b], Valid _ => ((128 <=? b) && (b <=? 138)) || (b =? 168) || (b =? 169) || (b =? 175)
  | [226; 129; 159], Valid _ => true
  | [227; 128; 128], Valid _ => true
  | _, _ => false
  end.

(** The maximal runs of runes that are not spaces. *)
Fixpoint fieldsAux (cur : list ascii) (l : list Rune) : list string :=
  match l with
  | [] => if decide (cur = []) then [] else [text cur]
  | r :: l =>
      if spaceRune r
      then (if decide (cur = []) then [] else [text cur]) ++ fieldsAux [] l
      else fieldsAux (cur ++ runeBytes r) l
  end.
Definition fields (s : string) : list string := fieldsAux [] (runes (chars s)).

Example fields_ex : fields "  debian   the mirror" = ["debian"; "the"; "mirror"].
Proof. reflexivity. Qed.
Example fields_unicode :
  fields (text (chars "a" ++ [chr 194; chr 160] ++ chars "b" ++ [chr 227; chr 128; chr 128] ++ chars "c" ++ [chr 160])) =
  ["a"; "b"; text (chars "c" ++ [chr 160])].
Proof. reflexivity. Qed.

(** ** Runes and their bytes *)

Definition wfRune (r : Rune) : Prop := match r with Valid l => runeLen l = Some (length l) | Invalid _ => True end.

Lemma runeLen_spec l n :
  runeLen l = Some n → (0 < n ≤ length l)%nat ∧ ∀ rest, runeLen (take n l ++ rest) = Some n.
Proof.
  destruct l as [|a [|x [|y [|z l]]]]; simpl; [done|..];
    repeat case_match; intros [= <-]; split; try lia; intros rest; simpl; repeat case_match; congruence.
Qed.

Lemma ascii_rune c l : byte c < 128 → runeLen (c :: l) = Some 1%nat.
Proof. intros Hc. simpl. by rewrite (proj2 (Z.ltb_lt _ _) Hc). Qed.

#[local] Arguments runeLen : simpl never.

Lemma runesFrom_wf fuel l : Forall wfRune (runesFrom fuel l).
Proof.
  revert l. induction fuel as [|fuel IH]; intros [|c r]; simpl; [constructor..|].
  destruct (runeLen (c :: r)) as [n|] eqn:E; constructor; try apply IH; [|done].
  apply runeLen_spec in E as [Hn Hp]. specialize (Hp []). rewrite app_nil_r in Hp. unfold wfRune.
  rewrite Hp, length_take. f_equal. lia.
Qed.

Definition validRune (r : Rune) : Prop := match r with Valid _ => True | Invalid _ => False end.

Lemma runes_concat l : Forall validRune (runes l) → sanitizeUTF8 l = l.
Proof.
  unfold sanitizeUTF8, runes. assert (length l ≤ length l)%nat as Hf by lia. revert Hf.
  generalize (length l) at 2 3 4 as fuel. intros fuel. revert l.
  induction fuel as [|fuel IH]; intros [|c r] Hf; simpl in *; try (done || lia).
  destruct (runeLen (c :: r)) as [n|] eqn:E; intros Hall; apply Forall_cons in Hall as [H1 H2]; [|done].
  apply runeLen_spec in E as [Hn _]. simpl. rewrite IH; [apply take_drop| |done].
  rewrite length_drop. simpl. simpl in Hn. lia.
Qed.

(** ASCII text is left alone. *)
Lemma sanitize_ascii l : Forall (fun c => byte c < 128) l → sanitizeUTF8 l = l.
Proof.
  intros Hl. apply runes_concat. unfold runes. assert (length l ≤ length l)%nat as Hf by lia. revert Hf.
  generalize (length l) at 2 3 as fuel. intros fuel. revert fuel.
  induction Hl as [|c l Hc _ IH]; intros [|fuel] Hf; simpl in *; try constructor; try lia.
  rewrite ascii_rune by done. constructor; [done|]. simpl. apply IH. lia.
Qed.

(** The runes of a string are its bytes. *)
Lemma runes_bytes l : concat (map runeBytes (runes l)) = l.
Proof.
  unfold runes. assert (length l ≤ length l)%nat as Hf by lia. revert Hf.
  generalize (length l) at 2 3 as fuel. intros fuel. revert l.
  induction fuel as [|fuel IH]; intros [|c r] Hf; simpl in *; try (done || lia).
  destruct (runeLen (c :: r)) as [n|] eqn:E; simpl.
  - apply runeLen_spec in E as [Hn _]. rewrite IH; [apply take_drop|]. rewrite length_drop. simpl in *. lia.
  - rewrite IH by lia. done.
Qed.

Lemma fieldsAux_plain cur l :
  Forall (fun r => spaceRune r = false) l → cur ++ concat (map runeBytes l) ≠ [] →
  fieldsAux cur l = [text (cur ++ concat (map runeBytes l))].
Proof.
  intros H. revert cur. induction H as [|r l Hr _ IH]; intros cur Hne; simpl in *.
  - rewrite app_nil_r in *. by rewrite decide_False.
  - rewrite Hr, IH by (by rewrite <- app_assoc). by rewrite <- app_assoc.
Qed.

(** A word is its only field. *)
Lemma fields_word s : s ≠ "" → Forall (fun r => spaceRune r = false) (runes (chars s)) → fields s = [s].
Proof.
  intros Hne Hs. assert (chars s ≠ []) as Hc.
  { intros He. apply Hne. by rewrite <- (text_chars s), He. }
  unfold fields. rewrite fieldsAux_plain by (done || by simpl; rewrite runes_bytes). simpl.
  by rewrite runes_bytes, text_chars.
Qed.
