(* ===== verification/Numerals.v ===== *)
(** * Decimal numerals

    What is written with [%d] and [%0<w>d], read back. *)
From S2P Require Import Prelude GoStd.
Open Scope Z_scope.

(** [%0<w>d] of a number that is not negative. *)
Definition padded (w : nat) (n : Z) : string :=
  let d := itoa n in text (replicate (w - String.length d) "0"%char) +:+ d.

(** The longest run of digits at the front. *)
Fixpoint spanDigits (l : list ascii) : list ascii * list ascii :=
  match l with
  | c :: r => if isDigit c then let '(ds, r) := spanDigits r in (c :: ds, r) else ([], l)
  | [] => ([], [])
  end.

(** A hexadecimal digit. *)
Definition unhex (c : ascii) : option Z :=
  if isDigit c then Some (byte c - 48)
  else if inRange 97 102 c then Some (byte c - 87)
  else if inRange 65 70 c then Some (byte c - 55)
  else None.

(** The number a text of decimal digits stands for. *)
Definition digitsFrom (v : Z) (s : string) : Z := foldl (fun v c => 10 * v + (byte c - 48)) v (chars s).
Definition digitsValue : string → Z := digitsFrom 0.

Lemma digitsFrom_app v a b : digitsFrom v (a +:+ b) = digitsFrom (digitsFrom v a) b.
Proof. unfold digitsFrom. by rewrite chars_app, foldl_app. Qed.

Lemma digitsFrom_shift v s : digitsFrom v s = v * 10 ^ Z.of_nat (String.length s) + digitsValue s.
Proof.
  unfold digitsValue. revert v. induction s as [|c s IH]; intros v.
  - change (v = v * 10 ^ 0 + 0). lia.
  - change (digitsFrom v (String c s)) with (digitsFrom (10 * v + (byte c - 48)) s).
    change (digitsFrom 0 (String c s)) with (digitsFrom (10 * 0 + (byte c - 48)) s).
    cbn [String.length]. rewrite IH, (IH (10 * 0 + _)), Nat2Z.inj_succ, Z.pow_succ_r by lia. lia.
Qed.

Lemma byte_pretty_N_char x : (x < 10)%N → byte (pretty_N_char x) - 48 = Z.of_N x.
Proof.
  intros. assert (x = 0 ∨ x = 1 ∨ x = 2 ∨ x = 3 ∨ x = 4 ∨ x = 5 ∨ x = 6 ∨ x = 7 ∨ x = 8 ∨ x = 9)%N
    as Hx by lia. by repeat destruct Hx as [->|Hx]; [..|subst].
Qed.

Lemma pretty_N_go_value x t :
  digitsValue (pretty_N_go x t) = Z.of_N x * 10 ^ Z.of_nat (String.length t) + digitsValue t.
Proof.
  revert t. induction (N.lt_wf_0 x) as [x _ IH]; intros t.
  assert (x = 0 ∨ 0 < x)%N as [->|Hx] by lia; [by rewrite pretty_N_go_0|].
  rewrite pretty_N_go_step, IH by (done || by apply N.div_lt).
  change (digitsValue (String ?c t)) with (digitsFrom (10 * 0 + (byte c - 48)) t).
  rewrite digitsFrom_shift, byte_pretty_N_char by (by apply N.mod_lt).
  cbn [String.length]. rewrite Nat2Z.inj_succ, Z.pow_succ_r by lia.
  rewrite N2Z.inj_div, N2Z.inj_mod. pose proof (Z.div_mod (Z.of_N x) 10). nia.
Qed.

Lemma pretty_N_go_length w x t :
  (x < 10 ^ N.of_nat w)%N → (String.length (pretty_N_go x t) ≤ w + String.length t)%nat.
Proof.
  revert x t. induction w as [|w IH]; intros x t Hx.
  - assert (x = 0)%N as -> by (simpl in Hx; lia). by rewrite pretty_N_go_0.
  - assert (x = 0 ∨ 0 < x)%N as [->|H0] by lia; [rewrite pretty_N_go_0; lia|].
    rewrite pretty_N_go_step by done. etrans; [apply IH|simpl; lia].
    apply N.Div0.div_lt_upper_bound. rewrite Nat2N.inj_succ, N.pow_succ_r in Hx by lia. lia.
Qed.

Lemma itoa_go n : 0 < n → itoa n = pretty_N_go (Z.to_N n) "".
Proof. intros. by destruct n. Qed.

Lemma itoa_value n : 0 ≤ n → digitsValue (itoa n) = n.
Proof.
  intros Hn. destruct (decide (n = 0)) as [->|]; [done|].
  rewrite itoa_go, pretty_N_go_value by lia. change (digitsValue "") with 0. simpl. lia.
Qed.

Lemma itoa_length w n :
  (0 < w)%nat → 0 ≤ n < 10 ^ Z.of_nat w → (String.length (itoa n) ≤ w)%nat.
Proof.
  intros Hw Hn. destruct (decide (n = 0)) as [->|]; [simpl; lia|].
  rewrite itoa_go by lia. pose proof (pretty_N_go_length w (Z.to_N n) "") as H. simpl in H.
  rewrite Nat.add_0_r in H. apply H. lia.
Qed.

Lemma digits_zeros k : digitsValue (text (replicate k "0"%char)) = 0.
Proof.
  unfold digitsValue, digitsFrom. rewrite chars_text. by induction k as [|k IH].
Qed.

Lemma padded_from v w n :
  (0 < w)%nat → 0 ≤ n < 10 ^ Z.of_nat w → digitsFrom v (padded w n) = v * 10 ^ Z.of_nat w + n.
Proof.
  intros Hw Hn. pose proof (itoa_length w n Hw Hn). unfold padded.
  rewrite digitsFrom_shift, <- length_chars, chars_app, length_app, chars_text, length_replicate, length_chars.
  replace (w - _ + _)%nat with w by lia. f_equal. unfold digitsValue.
  rewrite digitsFrom_app. change (digitsFrom 0 (text ?l)) with (digitsValue (text l)).
  rewrite digits_zeros. apply itoa_value. lia.
Qed.

(** ** Digits and how they are read *)

Abbreviation digits l := (Forall (fun c => isDigit c = true) l).

Lemma pretty_N_char_digit x : (x < 10)%N → isDigit (pretty_N_char x) = true.
Proof.
  intros. assert (x = 0 ∨ x = 1 ∨ x = 2 ∨ x = 3 ∨ x = 4 ∨ x = 5 ∨ x = 6 ∨ x = 7 ∨ x = 8 ∨ x = 9)%N
    as Hx by lia. by repeat destruct Hx as [->|Hx]; [..|subst].
Qed.

Lemma pretty_N_go_digits x t : digits (chars t) → digits (chars (pretty_N_go x t)).
Proof.
  revert t. induction (N.lt_wf_0 x) as [x _ IH]; intros t Ht.
  assert (x = 0 ∨ 0 < x)%N as [->|Hx] by lia; [by rewrite pretty_N_go_0|].
  rewrite pretty_N_go_step by done. apply IH; [by apply N.div_lt|]. constructor; [|done].
  apply pretty_N_char_digit, N.mod_lt. done.
Qed.

Lemma itoa_digits n : 0 ≤ n → digits (chars (itoa n)).
Proof.
  intros Hn. destruct (decide (n = 0)) as [->|]; [by repeat constructor|].
  rewrite itoa_go by lia. apply pretty_N_go_digits. constructor.
Qed.

Lemma padded_digits w n : 0 ≤ n → digits (chars (padded w n)).
Proof.
  intros Hn. unfold padded. rewrite chars_app, chars_text. apply Forall_app. split; [|by apply itoa_digits].
  by apply Forall_replicate.
Qed.

Lemma padded_length w n :
  (0 < w)%nat → 0 ≤ n < 10 ^ Z.of_nat w → length (chars (padded w n)) = w.
Proof.
  intros Hw Hn. pose proof (itoa_length w n Hw Hn). unfold padded.
  rewrite chars_app, length_app, chars_text, length_replicate, length_chars. lia.
Qed.

Lemma padded_value w n : (0 < w)%nat → 0 ≤ n < 10 ^ Z.of_nat w → digitsValue (padded w n) = n.
Proof. intros Hw Hn. unfold digitsValue. rewrite padded_from by done. lia. Qed.

Lemma parseDigits_value acc l : digits l → parseDigits acc l = Some (digitsFrom acc (text l)).
Proof.
  intros Hl. unfold digitsFrom. rewrite chars_text. revert acc. induction Hl as [|c l Hc _ IH]; intros acc; [done|].
  simpl. rewrite Hc, IH. f_equal. f_equal. lia.
Qed.

Lemma itoa_neg n : n < 0 → itoa n = "-" +:+ itoa (- n).
Proof. intros. by destruct n. Qed.

(** A number does not start with a zero, but for zero itself. *)
Lemma pretty_N_go_head x t : (0 < x)%N → ∃ c l, chars (pretty_N_go x t) = c :: l ∧ isDigit c = true ∧ byte c ≠ 48.
Proof.
  revert t. induction (N.lt_wf_0 x) as [x _ IH]; intros t Hx. rewrite pretty_N_go_step by done.
  destruct (N.eq_0_gt_0_cases (x / 10)) as [E|Hd].
  - rewrite E, pretty_N_go_0. eexists _, _. split; [done|]. split; [apply pretty_N_char_digit, N.mod_lt; done|].
    assert (x < 10)%N by (by apply N.div_small_iff). rewrite N.mod_small by done.
    pose proof (byte_pretty_N_char x). lia.
  - apply IH; [by apply N.div_lt|done].
Qed.

Lemma itoa_head n : 0 < n → ∃ c l, chars (itoa n) = c :: l ∧ isDigit c = true ∧ byte c ≠ 48.
Proof. intros. rewrite itoa_go by lia. apply pretty_N_go_head. lia. Qed.

Lemma spanDigits_app ds rest :
  digits ds → match rest with c :: _ => isDigit c | [] => false end = false → spanDigits (ds ++ rest) = (ds, rest).
Proof.
  intros Hd Hr. induction Hd as [|c ds Hc _ IH]; simpl; [|by rewrite Hc, IH].
  destruct rest as [|c rest]; [done|]. simpl. by rewrite Hr.
Qed.
