(* ===== verification/GoTime.v ===== *)
(** * Dates: what the sources use of Go's [time]

    A time is a number of Unix nanoseconds, shown in a zone that is so many seconds east of
    UTC.  The status page writes the time a client connected as RFC 3339 does, and the
    command line reads it back. *)
From S2P Require Import Prelude GoStd Numerals.
Open Scope Z_scope.

(** ** The calendar *)

(** Years start in March here, so that the leap day is the last; 400 years are an era. *)
Definition yearOfEra (doe : Z) : Z := (doe - doe / 1460 + doe / 36524 - doe / 146096) / 365.
Definition yearStart (yoe : Z) : Z := 365 * yoe + yoe / 4 - yoe / 100.

(** [Time.Date] of a number of days since 1970: the year, the month and the day. *)
Definition civil (days : Z) : Z * Z * Z :=
  let z := days + 719468 in
  let era := z / 146097 in
  let doe := z mod 146097 in
  let yoe := yearOfEra doe in
  let doy := doe - yearStart yoe in
  let mp := (5 * doy + 2) / 153 in
  let day := doy - (153 * mp + 2) / 5 + 1 in
  let month := if mp <? 10 then mp + 3 else mp - 9 in
  (yoe + era * 400 + (if month <=? 2 then 1 else 0), month, day).

Definition daysOf (year month day : Z) : Z :=
  let y := if month <=? 2 then year - 1 else year in
  let doy := (153 * ((month + 9) mod 12) + 2) / 5 + day - 1 in
  y / 400 * 146097 + yearStart (y mod 400) + doy - 719468.

Definition isLeap (year : Z) : bool := (year mod 4 =? 0) && (negb (year mod 100 =? 0) || (year mod 400 =? 0)).
Definition daysIn (month year : Z) : Z :=
  if month =? 2 then if isLeap year then 29 else 28
  else if bool_decide (month ∈ [4; 6; 9; 11]) then 30 else 31.

(** ** Writing *)

(** The parts of a time in its zone: seconds since 1970 there. *)
Definition localSeconds (t offset : Z) : Z := t / second + offset.

Definition dateText (local : Z) : string :=
  let '(y, m, d) := civil (local / 86400) in
  padded 4 y +:+ "-" +:+ padded 2 m +:+ "-" +:+ padded 2 d.
Definition clockText (local : Z) : string :=
  let s := local mod 86400 in
  padded 2 (s / 3600) +:+ ":" +:+ padded 2 (s / 60 mod 60) +:+ ":" +:+ padded 2 (s mod 60).

(** [Format(time.DateTime)] *)
Definition dateTime (t offset : Z) : string :=
  dateText (localSeconds t offset) +:+ " " +:+ clockText (localSeconds t offset).

(** The fraction of a second, without trailing zeros. *)
Fixpoint trimZeros (l : list ascii) : list ascii :=
  match l with
  | [] => []
  | c :: l => match trimZeros l with
              | [] => if Ascii.eqb c "0" then [] else [c]
              | r => c :: r
              end
  end.
Definition fractionText (nanos : Z) : string :=
  if nanos =? 0 then "" else "." +:+ text (trimZeros (chars (padded 9 nanos))).

Definition zoneText (offset : Z) : string :=
  if offset =? 0 then "Z"
  else
    let zone := Z.quot offset 60 in
    let a := Z.abs zone in
    (if zone <? 0 then "-" else "+") +:+ padded 2 (a / 60) +:+ ":" +:+ padded 2 (a mod 60).

(** [Time.MarshalJSON] without its quotes. *)
Definition marshalTime (t offset : Z) : result string :=
  let local := localSeconds t offset in
  let '(y, _, _) := civil (local / 86400) in
  if (y <? 0) || (9999 <? y) then Err "Time.MarshalJSON: year outside of range [0,9999]"
  else if 24 <=? Z.abs (Z.quot offset 60) / 60 then Err "Time.MarshalJSON: timezone hour outside of range [0,23]"
  else Ret (dateText local +:+ "T" +:+ clockText local +:+ fractionText (t mod second) +:+ zoneText offset).

(** ** Reading *)

Definition number (w : nat) (l : list ascii) : option (Z * list ascii) :=
  let ds := take w l in
  if (length ds =? w)%nat && forallb isDigit ds then Some (digitsValue (text ds), drop w l) else None.
Definition expect (c : ascii) (l : list ascii) : option (list ascii) :=
  match l with d :: l => if Ascii.eqb d c then Some l else None | [] => None end.

(** The fraction, in nanoseconds: the first nine digits count. *)
Definition readFraction (l : list ascii) : option (Z * list ascii) :=
  match l with
  | c :: r =>
      if Ascii.eqb c "." then
        let '(ds, r) := spanDigits r in
        match ds with
        | [] => None
        | _ => Some (digitsValue (text (take 9 (ds ++ replicate 9 "0"%char))), r)
        end
      else Some (0, l)
  | [] => Some (0, l)
  end.

Definition readZone (l : list ascii) : option Z :=
  match l with
  | [] => None
  | c :: r =>
      if Ascii.eqb c "Z" then match r with [] => Some 0 | _ => None end
      else
        sign ← (if Ascii.eqb c "+" then Some 1 else if Ascii.eqb c "-" then Some (-1) else None);
        '(hh, r) ← number 2 r; r ← expect ":" r; '(mm, r) ← number 2 r;
        match r with
        | [] => if (hh <=? 23) && (mm <=? 59) then Some (sign * (hh * 60 + mm) * 60) else None
        | _ => None
        end
  end.

(** [Time.UnmarshalJSON] of a text between quotes: the time and the zone it was written in. *)
Definition unmarshalTime (l : list ascii) : option (Z * Z) :=
  '(y, l) ← number 4 l; l ← expect "-" l; '(m, l) ← number 2 l; l ← expect "-" l; '(d, l) ← number 2 l;
  l ← expect "T" l;
  '(hh, l) ← number 2 l; l ← expect ":" l; '(mm, l) ← number 2 l; l ← expect ":" l; '(ss, l) ← number 2 l;
  '(nanos, l) ← readFraction l;
  offset ← readZone l;
  if (1 <=? m) && (m <=? 12) && (1 <=? d) && (d <=? daysIn m y) && (hh <=? 23) && (mm <=? 59) && (ss <=? 59) then
    Some ((daysOf y m d * 86400 + hh * 3600 + mm * 60 + ss - offset) * second + nanos, offset)
  else None.

Example time_text : marshalTime 1709210096000000000 28800 = Ret "2024-02-29T20:34:56+08:00".
Proof. reflexivity. Qed.
Example time_read : unmarshalTime (chars "2024-02-29T20:34:56+08:00") = Some (1709210096000000000, 28800).
Proof. reflexivity. Qed.
Example time_fraction : marshalTime 1500000000 0 = Ret "1970-01-01T00:00:01.5Z" ∧
  unmarshalTime (chars "1970-01-01T00:00:01.5Z") = Some (1500000000, 0).
Proof. split; reflexivity. Qed.
Example time_no_such_day : unmarshalTime (chars "2023-02-29T00:00:00Z") = None.
Proof. reflexivity. Qed.

(** ** The calendar goes both ways *)

Local Ltac divs := Z.div_mod_to_equations; lia.

Lemma era_year doe :
  0 ≤ doe < 146097 →
  0 ≤ yearOfEra doe < 400 ∧ yearStart (yearOfEra doe) ≤ doe ∧
  (yearOfEra doe = 399 ∨ doe < yearStart (yearOfEra doe + 1)).
Proof.
  intros H. unfold yearOfEra, yearStart.
  assert (doe / 146096 = 0 ∨ doe / 146096 = 1) as Hc by divs.
  assert (doe / 36524 = 0 ∨ doe / 36524 = 1 ∨ doe / 36524 = 2 ∨ doe / 36524 = 3 ∨ doe / 36524 = 4) as Hb by divs.
  destruct Hc as [Hc|Hc], Hb as [E|[E|[E|[E|E]]]]; rewrite Hc, E; divs.
Qed.

(** The months of a year that starts in March: the month and the day of a day of the year. *)
Lemma month_day doy :
  0 ≤ doy ≤ 365 →
  let mp := (5 * doy + 2) / 153 in
  let day := doy - (153 * mp + 2) / 5 + 1 in
  0 ≤ mp ≤ 11 ∧ 1 ≤ day ∧
  day ≤ (if bool_decide (mp ∈ [1; 3; 6; 8]) then 30 else if mp =? 11 then 29 else 31) ∧ (mp = 11 → day = 29 → doy = 365).
Proof.
  intros H.
  assert (forallb (fun doy =>
    let mp := (5 * doy + 2) / 153 in
    let day := doy - (153 * mp + 2) / 5 + 1 in
    bool_decide (0 ≤ mp ≤ 11 ∧ 1 ≤ day ∧
      day ≤ (if bool_decide (mp ∈ [1; 3; 6; 8]) then 30 else if mp =? 11 then 29 else 31) ∧
      (mp = 11 → day = 29 → doy = 365))) (seqZ 0 366) = true) as Hall by by vm_compute.
  assert (In doy (seqZ 0 366)) as Hin by (apply list_elem_of_In, elem_of_seqZ; lia).
  rewrite forallb_forall in Hall. exact (bool_decide_eq_true_1 _ (Hall doy Hin)).
Qed.

(** The leap day is in leap years. *)
Lemma leap_day era yoe doe :
  0 ≤ yoe < 400 → yoe = 399 ∨ doe < yearStart (yoe + 1) → doe - yearStart yoe = 365 →
  isLeap (yoe + era * 400 + 1) = true.
Proof.
  intros Hy He Hd. unfold isLeap, yearStart in *. destruct He as [->|He].
  - rewrite (proj2 (Z.eqb_eq ((399 + era * 400 + 1) mod 4) 0)) by divs.
    rewrite (proj2 (Z.eqb_eq ((399 + era * 400 + 1) mod 400) 0)) by divs. by rewrite orb_true_r.
  - rewrite (proj2 (Z.eqb_eq ((yoe + era * 400 + 1) mod 4) 0)) by divs.
    rewrite (proj2 (Z.eqb_neq ((yoe + era * 400 + 1) mod 100) 0)) by divs. done.
Qed.

(** The date of a day exists, and it is the date of that day. *)
Lemma civil_spec days y m d :
  civil days = (y, m, d) → 1 ≤ m ≤ 12 ∧ 1 ≤ d ≤ daysIn m y ∧ daysOf y m d = days.
Proof.
  unfold civil. set (z := days + 719468). set (era := z / 146097). set (doe := z mod 146097).
  assert (0 ≤ doe < 146097) as Hd by (apply Z.mod_pos_bound; lia).
  destruct (era_year doe Hd) as (Hy & Hs & He). set (yoe := yearOfEra doe) in *.
  assert (0 ≤ doe - yearStart yoe ≤ 365) as Hdoy.
  { split; [lia|]. destruct He as [->|He]; [unfold yearStart; divs|]. unfold yearStart in *. divs. }
  pose proof (month_day _ Hdoy) as Hm. cbv zeta in Hm. pose proof (leap_day era yoe doe Hy He) as Hleap.
  set (doy := doe - yearStart yoe) in *.
  set (mp := (5 * doy + 2) / 153) in *. intros [= <- <- <-]. destruct Hm as (Hmp & Hd1 & Hd2 & Hd3).
  set (day := doy - (153 * mp + 2) / 5 + 1) in *.
  assert (days = era * 146097 + doe - 719468) as Edays by (subst z era doe; divs).
  assert ((yoe + era * 400) / 400 = era ∧ (yoe + era * 400) mod 400 = yoe) as [Eera Eyoe] by (split; divs).
  assert (daysOf (yoe + era * 400 + (if (if mp <? 10 then mp + 3 else mp - 9) <=? 2 then 1 else 0))
    (if mp <? 10 then mp + 3 else mp - 9) day = days) as Edof.
  { unfold daysOf. destruct (Z.ltb_spec mp 10).
    - rewrite (proj2 (Z.leb_gt (mp + 3) 2)) by lia. rewrite Z.add_0_r, Eera, Eyoe.
      replace ((mp + 3 + 9) mod 12) with mp by divs. subst day doy. lia.
    - rewrite (proj2 (Z.leb_le (mp - 9) 2)) by lia. rewrite Z.add_simpl_r, Eera, Eyoe.
      replace ((mp - 9 + 9) mod 12) with mp by divs. subst day doy. lia. }
  split; [destruct (Z.ltb_spec mp 10); lia|]. split; [|done]. split; [done|].
  clearbody doy mp day. clear -Hmp Hd2 Hd3 Hleap.
  assert (mp = 0 ∨ mp = 1 ∨ mp = 2 ∨ mp = 3 ∨ mp = 4 ∨ mp = 5 ∨ mp = 6 ∨ mp = 7 ∨ mp = 8 ∨ mp = 9 ∨ mp = 10 ∨ mp = 11)
    as Hc by lia.
  repeat destruct Hc as [-> |Hc]; try exact Hd2. subst mp. unfold daysIn. simpl in *.
  destruct (isLeap _); [done|]. destruct (decide (day = 29)) as [E|]; [|lia].
  specialize (Hleap (Hd3 eq_refl E)). done.
Qed.

(** ** A time survives its text *)

Lemma number_padded w n rest :
  (0 < w)%nat → 0 ≤ n < 10 ^ Z.of_nat w → number w (chars (padded w n) ++ rest) = Some (n, rest).
Proof.
  intros Hw Hn. pose proof (padded_length w n Hw Hn) as Hl. unfold number.
  rewrite take_app_length', drop_app_length' by done. rewrite Hl, Nat.eqb_refl, text_chars, padded_value by done.
  rewrite (proj2 (forallb_forall isDigit (chars (padded w n)))); [done|].
  apply List.Forall_forall, padded_digits. lia.
Qed.

Lemma expect_eq c l : expect c (c :: l) = Some l.
Proof. simpl. by rewrite Ascii.eqb_refl. Qed.

Lemma zone_read offset :
  offset mod 60 = 0 → Z.abs (Z.quot offset 60) / 60 < 24 → readZone (chars (zoneText offset)) = Some offset.
Proof.
  intros Hm Ha. unfold zoneText. destruct (Z.eqb_spec offset 0) as [->|Hz]; [done|].
  set (zone := Z.quot offset 60) in *. assert (offset = 60 * zone) as E.
  { subst zone. pose proof (Z.quot_rem' offset 60). assert (Z.rem offset 60 = 0); [|lia].
    apply Z.rem_divide; [lia|]. by apply Z.mod_divide. }
  clearbody zone. assert (0 ≤ Z.abs zone / 60) by divs. assert (0 ≤ Z.abs zone mod 60 < 60) by divs.
  rewrite !chars_app. change (chars ":" ++ chars ?p) with (":"%char :: chars p).
  assert (∀ c r, chars (if zone <? 0 then "-" else "+") = [c] →
    (if Ascii.eqb c "Z" then False else True) ∧
    (if Ascii.eqb c "+" then Some 1 else if Ascii.eqb c "-" then Some (-1) else None) = Some (if zone <? 0 then -1 else 1) →
    readZone (c :: chars (padded 2 (Z.abs zone / 60)) ++ ":"%char :: chars (padded 2 (Z.abs zone mod 60)) ++ r) =
    match r with [] => Some offset | _ => None end) as Hread.
  { intros c r _ [Hc Hs]. unfold readZone. destruct (Ascii.eqb c "Z"); [done|]. rewrite Hs. simpl.
    rewrite number_padded by (simpl; lia). simpl. rewrite number_padded by (simpl; lia). simpl.
    destruct r; [|done]. rewrite (proj2 (Z.leb_le _ 23)), (proj2 (Z.leb_le _ 59)) by lia. simpl. f_equal.
    destruct (Z.ltb_spec zone 0); divs. }
  specialize (fun c => Hread c []). setoid_rewrite app_nil_r in Hread.
  destruct (zone <? 0); by apply Hread.
Qed.

Lemma time_read_back t offset s :
  t mod second = 0 → offset mod 60 = 0 → marshalTime t offset = Ret s → unmarshalTime (chars s) = Some (t, offset).
Proof.
  intros Ht Ho. unfold marshalTime, dateText, clockText. set (local := localSeconds t offset).
  destruct (civil (local / 86400)) as [[y m] d] eqn:Ec. apply civil_spec in Ec as (Hm & Hd & Edays).
  destruct ((y <? 0) || (9999 <? y)) eqn:Ey; [done|]. apply orb_false_iff in Ey as [E1%Z.ltb_ge E2%Z.ltb_ge].
  destruct (Z.leb_spec 24 (Z.abs (Z.quot offset 60) / 60)); [done|]. intros [= <-].
  rewrite Ht. change (fractionText 0) with "".
  assert (0 ≤ local mod 86400 < 86400) as Hs by (apply Z.mod_pos_bound; lia).
  set (sec := local mod 86400) in *.
  assert (daysIn m y ≤ 31) by (unfold daysIn; repeat case_match; lia).
  assert (0 ≤ sec / 3600 ≤ 23 ∧ 0 ≤ sec / 60 mod 60 ≤ 59 ∧ 0 ≤ sec mod 60 ≤ 59) as (H1 & H2 & H3) by divs.
  unfold unmarshalTime. rewrite !chars_app, <- !app_assoc.
  repeat (rewrite number_padded by (simpl; lia); simpl; rewrite ?expect_eq; simpl).
  assert (∀ l, (match l with c :: _ => Ascii.eqb c "." | [] => false end) = false → readFraction l = Some (0, l)) as Hf.
  { intros [|c l]; simpl; [done|]. by intros ->. }
  rewrite Hf. 2:{ unfold zoneText. destruct (offset =? 0); [done|]. by destruct (_ <? 0). }
  simpl. rewrite zone_read by done. simpl.
  rewrite (proj2 (Z.leb_le 1 m)), (proj2 (Z.leb_le m 12)), (proj2 (Z.leb_le 1 d)), (proj2 (Z.leb_le d _)),
    (proj2 (Z.leb_le _ 23)), !(proj2 (Z.leb_le _ 59)) by lia. simpl.
  rewrite Edays. do 2 f_equal.
  replace (local / 86400 * 86400 + sec / 3600 * 3600 + sec / 60 mod 60 * 60 + sec mod 60 - offset) with (t / second).
  - unfold second in *. divs.
  - assert (sec / 3600 * 3600 + sec / 60 mod 60 * 60 + sec mod 60 = sec) by (clearbody sec; divs).
    assert (local / 86400 * 86400 + sec = local) by (subst sec; clearbody local; divs).
    unfold localSeconds in local. subst local. lia.
Qed.

(** The text of a time is ASCII. *)
Lemma digits_ascii l : digits l → Forall (fun c => byte c < 128) l.
Proof.
  intros Hl. eapply Forall_impl; [exact Hl|]. intros c Hc. cbn beta in Hc. unfold isDigit, inRange in Hc. apply andb_true_iff in Hc as [_ Hc%Z.leb_le]. lia.
Qed.

Lemma marshalTime_ascii t offset s :
  t mod second = 0 → marshalTime t offset = Ret s → Forall (fun c => byte c < 128) (chars s).
Proof.
  intros Ht. unfold marshalTime, dateText, clockText. destruct (civil _) as [[y m] d] eqn:Ec.
  apply civil_spec in Ec as (Hm & Hd & _).
  destruct ((y <? 0) || (9999 <? y)) eqn:Ey; [done|]. apply orb_false_iff in Ey as [E1%Z.ltb_ge E2%Z.ltb_ge].
  case_match; [done|]. intros [= <-]. rewrite Ht.
  assert (0 ≤ localSeconds t offset mod 86400) by (apply Z.mod_pos_bound; lia).
  assert (∀ w n, 0 ≤ n → Forall (fun c => byte c < 128) (chars (padded w n))) as Hp.
  { intros w n Hn. by apply digits_ascii, padded_digits. }
  set (sec := localSeconds t offset mod 86400) in *.
  assert (0 ≤ sec / 3600 ∧ 0 ≤ sec / 60 mod 60 ∧ 0 ≤ sec mod 60) as (? & ? & ?) by (clearbody sec; divs).
  unfold zoneText. rewrite !chars_app. rewrite !Forall_app. split_and!; try (apply Hp; lia); try by repeat constructor.
  destruct (offset =? 0); [by repeat constructor|]. rewrite !chars_app. rewrite !Forall_app.
  split_and!; try (apply Hp; divs); try (case_match); by repeat constructor.
Qed.
