(* ===== verification/Json.v ===== *)
(** * JSON, as [encoding/json] writes and reads it

    The admin endpoints answer in JSON and the commands read it.  [print] is the encoder with
    its escapes (HTML characters, line separators, bytes that are not UTF-8), [parse] the
    decoder; between the two lies a tree of values. *)
From S2P Require Import Prelude GoStd Numerals Runes.
Open Scope Z_scope.

(** ** Values *)

(** A number is kept as it is written.  The induction principle goes through the lists. *)
Local Unset Elimination Schemes.
Inductive Json :=
  | JNull
  | JBool (b : bool)
  | JNum (lit : list ascii)
  | JStr (s : list ascii)
  | JArr (vs : list Json)
  | JObj (fields : list (list ascii * Json)).

Local Set Elimination Schemes.

Section induction.
Context (P : Json → Prop).
Context (Pnull : P JNull) (Pbool : ∀ b, P (JBool b)) (Pnum : ∀ l, P (JNum l)) (Pstr : ∀ s, P (JStr s)).
Context (Parr : ∀ vs, Forall P vs → P (JArr vs)) (Pobj : ∀ fs, Forall (fun f => P f.2) fs → P (JObj fs)).

Fixpoint json_tree_ind (v : Json) : P v :=
  match v with
  | JNull => Pnull
  | JBool b => Pbool b
  | JNum l => Pnum l
  | JStr s => Pstr s
  | JArr vs =>
      Parr vs ((fix go vs : Forall P vs :=
        match vs with [] => Forall_nil_2 _ | v :: vs => Forall_cons_2 _ v vs (json_tree_ind v) (go vs) end) vs)
  | JObj fs =>
      Pobj fs ((fix go fs : Forall (fun f => P f.2) fs :=
        match fs with [] => Forall_nil_2 _ | f :: fs => Forall_cons_2 _ f fs (json_tree_ind f.2) (go fs) end) fs)
  end.
End induction.

(** What is left of a value after its strings were written and read. *)
Fixpoint clean (v : Json) : Json :=
  match v with
  | JStr s => JStr (sanitizeUTF8 s)
  | JArr vs => JArr (map clean vs)
  | JObj fs => JObj (map (fun f => (sanitizeUTF8 f.1, clean f.2)) fs)
  | v => v
  end.

(** ** Writing *)

Definition bs : ascii := chr 92.
Definition dq : ascii := chr 34.

(** The character of a byte below 128; [<], [>] and [&] are written as escapes too. *)
Definition escapeChar (c : ascii) : list ascii :=
  let b := byte c in
  if (b =? 34) || (b =? 92) then [bs; c]
  else if b =? 8 then [bs; "b"%char]
  else if b =? 12 then [bs; "f"%char]
  else if b =? 10 then [bs; "n"%char]
  else if b =? 13 then [bs; "r"%char]
  else if b =? 9 then [bs; "t"%char]
  else if (b <? 32) || (b =? 60) || (b =? 62) || (b =? 38) then
    [bs; "u"%char; "0"%char; "0"%char; hexDigit (b / 16); hexDigit (b mod 16)]
  else [c].

(** U+2028 and U+2029 are written as escapes. *)
Definition lineSeparator (l : list ascii) : option (list ascii) :=
  if bool_decide (l = [chr 226; chr 128; chr 168]) then Some (bs :: chars "u2028")
  else if bool_decide (l = [chr 226; chr 128; chr 169]) then Some (bs :: chars "u2029")
  else None.

Definition encodeRune (r : Rune) : list ascii :=
  match r with
  | Valid [c] => escapeChar c
  | Valid l => default l (lineSeparator l)
  | Invalid _ => bs :: chars "ufffd"
  end.
Definition encodeString (s : list ascii) : list ascii := concat (map encodeRune (runes s)).
Definition quoted (s : list ascii) : list ascii := dq :: encodeString s ++ [dq].

(** The white space of a layout: after brackets and commas at a depth, and after a colon. *)
Record Layout := mkLayout { newline : nat → list ascii; afterColon : list ascii }.
Definition compact : Layout := mkLayout (fun _ => []) [].
(** [SetIndent("", "  ")] *)
Definition indented : Layout := mkLayout (fun d => chr 10 :: replicate (2 * d) " "%char) [" "%char].

Fixpoint commaSep (ls : list (list ascii)) : list ascii :=
  match ls with [] => [] | [l] => l | l :: ls => l ++ ","%char :: commaSep ls end.

Fixpoint print (L : Layout) (d : nat) (v : Json) : list ascii :=
  match v with
  | JNull => chars "null"
  | JBool true => chars "true"
  | JBool false => chars "false"
  | JNum lit => lit
  | JStr s => quoted s
  | JArr [] => chars "[]"
  | JArr vs =>
      "["%char :: commaSep (map (fun v => newline L (S d) ++ print L (S d) v) vs) ++ newline L d ++ ["]"%char]
  | JObj [] => chars "{}"
  | JObj fs =>
      "{"%char ::
      commaSep (map (fun f => newline L (S d) ++ quoted f.1 ++ ":"%char :: afterColon L ++ print L (S d) f.2) fs)
      ++ newline L d ++ ["}"%char]
  end.

(** [json.NewEncoder(w).Encode(v)] *)
Definition encode (L : Layout) (v : Json) : list ascii := print L 0 v ++ [chr 10].

(** ** Reading *)

Definition isWs (c : ascii) : bool := (byte c =? 32) || (byte c =? 9) || (byte c =? 10) || (byte c =? 13).
Fixpoint skipWs (l : list ascii) : list ascii :=
  match l with c :: r => if isWs c then skipWs r else l | [] => [] end.

Definition hex4 (l : list ascii) : option (Z * list ascii) :=
  match l with
  | a :: b :: c :: d :: r =>
      x ← unhex a; y ← unhex b; z ← unhex c; w ← unhex d; Some (((x * 16 + y) * 16 + z) * 16 + w, r)
  | _ => None
  end.

Definition simpleEscape (c : ascii) : option ascii :=
  let b := byte c in
  if (b =? 34) || (b =? 92) || (b =? 47) then Some c
  else if b =? 98 then Some (chr 8)
  else if b =? 102 then Some (chr 12)
  else if b =? 110 then Some (chr 10)
  else if b =? 114 then Some (chr 13)
  else if b =? 116 then Some (chr 9)
  else None.

(** What [\uXXXX] stands for: half a pair of surrogates alone is replaced. *)
Definition escapedRune (u : Z) (r : list ascii) : list ascii * list ascii :=
  if (55296 <=? u) && (u <? 57344) then
    match r with
    | a :: b :: r' =>
        if Ascii.eqb a bs && Ascii.eqb b "u" then
          match hex4 r' with
          | Some (u2, r'') =>
              if (u <? 56320) && (56320 <=? u2) && (u2 <? 57344)
              then (utf8Encode ((u - 55296) * 1024 + (u2 - 56320) + 65536), r'')
              else (replacement, r)
          | None => (replacement, r)
          end
        else (replacement, r)
    | _ => (replacement, r)
    end
  else (utf8Encode u, r).

(** The piece of a string at the front: its bytes and what is left. *)
Definition stringPiece (l : list ascii) : option (list ascii * list ascii) :=
  match l with
  | [] => None
  | c :: r =>
      if byte c =? 92 then
        match r with
        | [] => None
        | e :: r =>
            if Ascii.eqb e "u" then '(u, r) ← hex4 r; Some (escapedRune u r)
            else b ← simpleEscape e; Some ([b], r)
        end
      else if byte c <? 32 then None
      else match runeLen l with
           | Some n => Some (take n l, drop n l)
           | None => Some (replacement, r)
           end
  end.

(** A string after its opening quote. *)
Fixpoint unquote (fuel : nat) (l : list ascii) : option (list ascii * list ascii) :=
  match fuel with
  | O => None
  | S fuel =>
      match l with
      | [] => None
      | c :: r =>
          if byte c =? 34 then Some ([], r)
          else '(piece, r) ← stringPiece l; '(s, r) ← unquote fuel r; Some (piece ++ s, r)
      end
  end.

Definition digitsAfter (l : list ascii) : option (list ascii * list ascii) :=
  match spanDigits l with ([], _) => None | p => Some p end.

Definition scanInt (l : list ascii) : option (list ascii * list ascii) :=
  match l with
  | [] => None
  | c :: r => if byte c =? 48 then Some ([c], r)
              else if isDigit c then let '(ds, r) := spanDigits r in Some (c :: ds, r) else None
  end.
Definition scanFraction (l : list ascii) : option (list ascii * list ascii) :=
  match l with
  | c :: r => if Ascii.eqb c "." then '(ds, r) ← digitsAfter r; Some (c :: ds, r) else Some ([], l)
  | [] => Some ([], [])
  end.
Definition scanExponent (l : list ascii) : option (list ascii * list ascii) :=
  match l with
  | c :: r =>
      if Ascii.eqb c "e" || Ascii.eqb c "E" then
        match r with
        | s :: r' =>
            if Ascii.eqb s "+" || Ascii.eqb s "-" then '(ds, r) ← digitsAfter r'; Some (c :: s :: ds, r)
            else '(ds, r) ← digitsAfter r; Some (c :: ds, r)
        | [] => None
        end
      else Some ([], l)
  | [] => Some ([], [])
  end.
Definition scanNumber (l : list ascii) : option (list ascii * list ascii) :=
  let '(sign, l) := match l with
                    | c :: r => if Ascii.eqb c "-" then ([c], r) else ([], l)
                    | [] => ([], []) end in
  '(int, l) ← scanInt l; '(fraction, l) ← scanFraction l; '(exponent, l) ← scanExponent l;
  Some (sign ++ int ++ fraction ++ exponent, l).

Fixpoint literal (word l : list ascii) : option (list ascii) :=
  match word, l with
  | [], _ => Some l
  | a :: word, b :: l => if Ascii.eqb a b then literal word l else None
  | _ :: _, [] => None
  end.

(** The elements of an array that is not empty, and the fields of an object, [value] reading
    what they consist of. *)
Section nested.
Context (value : list ascii → option (Json * list ascii)).

Fixpoint elements (n : nat) (l : list ascii) : option (list Json * list ascii) :=
  match n with
  | O => None
  | S n =>
      '(v, l) ← value l;
      match skipWs l with
      | c :: l =>
          if Ascii.eqb c "," then '(vs, l) ← elements n l; Some (v :: vs, l)
          else if Ascii.eqb c "]" then Some ([v], l) else None
      | [] => None
      end
  end.

Definition member (l : list ascii) : option ((list ascii * Json) * list ascii) :=
  match skipWs l with
  | c :: l =>
      if byte c =? 34 then
        '(key, l) ← unquote (S (length l)) l;
        match skipWs l with
        | c :: l => if Ascii.eqb c ":" then '(v, l) ← value l; Some ((key, v), l) else None
        | [] => None
        end
      else None
  | [] => None
  end.

Fixpoint members (n : nat) (l : list ascii) : option (list (list ascii * Json) * list ascii) :=
  match n with
  | O => None
  | S n =>
      '(f, l) ← member l;
      match skipWs l with
      | c :: l =>
          if Ascii.eqb c "," then '(fs, l) ← members n l; Some (f :: fs, l)
          else if Ascii.eqb c "}" then Some ([f], l) else None
      | [] => None
      end
  end.
End nested.

Fixpoint value (fuel : nat) (l : list ascii) : option (Json * list ascii) :=
  match fuel with
  | O => None
  | S fuel =>
      match skipWs l with
      | [] => None
      | c :: r =>
          if byte c =? 34 then '(s, r) ← unquote (S (length r)) r; Some (JStr s, r)
          else if Ascii.eqb c "[" then
            match skipWs r with
            | c' :: r' => if Ascii.eqb c' "]" then Some (JArr [], r')
                          else '(vs, r) ← elements (value fuel) fuel r; Some (JArr vs, r)
            | [] => None
            end
          else if Ascii.eqb c "{" then
            match skipWs r with
            | c' :: r' => if Ascii.eqb c' "}" then Some (JObj [], r')
                          else '(fs, r) ← members (value fuel) fuel r; Some (JObj fs, r)
            | [] => None
            end
          else if Ascii.eqb c "n" then r ← literal (chars "null") (c :: r); Some (JNull, r)
          else if Ascii.eqb c "t" then r ← literal (chars "true") (c :: r); Some (JBool true, r)
          else if Ascii.eqb c "f" then r ← literal (chars "false") (c :: r); Some (JBool false, r)
          else '(lit, r) ← scanNumber (c :: r); Some (JNum lit, r)
      end
  end.

(** The first value of a text; every value takes at least a byte. *)
Definition parse (l : list ascii) : option Json := fst <$> value (S (length l)) l.

Example print_compact : text (encode compact (JObj [(chars "m", JArr [JStr (chars "a<b"); JNull])])) =
  "{" +:+ DQ +:+ "m" +:+ DQ +:+ ":[" +:+ DQ +:+ "a\u003cb" +:+ DQ +:+ ",null]}" +:+ LF.
Proof. reflexivity. Qed.
Example parse_spaced : parse (chars (" [ 1 , -2.5e3 ] " +:+ LF)) = Some (JArr [JNum (chars "1"); JNum (chars "-2.5e3")]).
Proof. reflexivity. Qed.
Example parse_trailing_comma : parse (chars "[1,]") = None.
Proof. reflexivity. Qed.
Example parse_surrogates : parse (chars (DQ +:+ "\ud83d\ude00\ud83d" +:+ DQ)) =
  Some (JStr ([chr 240; chr 159; chr 152; chr 128] ++ replacement)).
Proof. reflexivity. Qed.

(** ** A string survives its text *)

#[local] Arguments runeLen : simpl never.

(** The first byte of the text of a rune is not a quote, and the piece read is the rune. *)
Lemma escapeChar_read c rest :
  byte c < 128 →
  ∃ c0 r, escapeChar c ++ rest = c0 :: r ∧ byte c0 ≠ 34 ∧ stringPiece (c0 :: r) = Some ([c], rest).
Proof.
  intros Hc. destruct c as [[] [] [] [] [] [] [] []]; try (exfalso; vm_compute in Hc; discriminate Hc);
    (eexists _, _; split; [reflexivity|]; split; [by vm_compute|reflexivity]).
Qed.

Lemma copied_read l rest :
  runeLen l = Some (length l) → (1 < length l)%nat →
  ∃ c0 r, l ++ rest = c0 :: r ∧ byte c0 ≠ 34 ∧ stringPiece (c0 :: r) = Some (l, rest).
Proof.
  intros Hl H1. destruct l as [|c l]; [done|]. exists c, (l ++ rest). split; [done|].
  assert (128 ≤ byte c) as Hc.
  { destruct (Z.lt_ge_cases (byte c) 128) as [Hlt|]; [|done]. rewrite (ascii_rune c l Hlt) in Hl. injection Hl as Hl. simpl in *. lia. }
  split; [lia|]. unfold stringPiece. rewrite (proj2 (Z.eqb_neq _ 92)), (proj2 (Z.ltb_ge _ 32)) by lia.
  apply runeLen_spec in Hl as [_ Hp]. specialize (Hp rest). rewrite firstn_all in Hp.
  change (c :: l ++ rest) with ((c :: l) ++ rest). rewrite Hp.
  by rewrite take_app_length, drop_app_length.
Qed.

Lemma encodeRune_read r rest :
  wfRune r →
  ∃ c0 l, encodeRune r ++ rest = c0 :: l ∧ byte c0 ≠ 34 ∧ stringPiece (c0 :: l) = Some (cleanRune r, rest).
Proof.
  destruct r as [l|b]; [|by eexists _, _]. intros Hwf. destruct l as [|c [|x l]]; [done| |].
  - apply escapeChar_read. destruct (Z.lt_ge_cases (byte c) 128) as [|Hge]; [done|].
    exfalso. unfold wfRune, runeLen in Hwf. by rewrite (proj2 (Z.ltb_ge _ _) Hge) in Hwf.
  - cbn [encodeRune cleanRune]. unfold lineSeparator.
    case_bool_decide as E1; [rewrite E1; by eexists _, _|].
    case_bool_decide as E2; [rewrite E2; by eexists _, _|].
    apply copied_read; [done|]. simpl. lia.
Qed.

Lemma unquote_runes rs fuel rest :
  Forall wfRune rs → (length rs < fuel)%nat →
  unquote fuel (concat (map encodeRune rs) ++ dq :: rest) = Some (concat (map cleanRune rs), rest).
Proof.
  intros Hrs. revert fuel. induction Hrs as [|r rs Hr _ IH]; intros [|fuel] Hf; try (simpl in Hf; lia); [done|].
  simpl concat. rewrite <- app_assoc.
  destruct (encodeRune_read r (concat (map encodeRune rs) ++ dq :: rest) Hr) as (c & l & E & Hc & Hp).
  rewrite E. cbn [unquote]. rewrite (proj2 (Z.eqb_neq _ _) Hc), Hp. cbn [mbind option_bind].
  rewrite IH by (simpl in Hf; lia). done.
Qed.

Lemma runes_length_le fuel l : (length (runesFrom fuel l) ≤ length (concat (map encodeRune (runesFrom fuel l))))%nat.
Proof.
  pose proof (runesFrom_wf fuel l) as Hwf. induction Hwf as [|r rs Hr _ IH]; simpl; [lia|].
  destruct (encodeRune_read r [] Hr) as (c & l' & E & _). rewrite app_nil_r in E. rewrite length_app, E. simpl. lia.
Qed.

Lemma quoted_read s rest :
  unquote (S (length (encodeString s ++ dq :: rest))) (encodeString s ++ dq :: rest) = Some (sanitizeUTF8 s, rest).
Proof.
  unfold encodeString. apply unquote_runes; [apply runesFrom_wf|].
  pose proof (runes_length_le (length s) s). unfold runes. rewrite length_app. lia.
Qed.

(** ** A number survives its text *)

(** What cannot go on a number. *)
Definition delimits (rest : list ascii) : Prop :=
  match rest with
  | [] => True
  | c :: _ => isDigit c = false ∧ c ≠ "."%char ∧ c ≠ "e"%char ∧ c ≠ "E"%char
  end.

Lemma scan_tail rest :
  delimits rest → scanFraction rest = Some ([], rest) ∧ scanExponent rest = Some ([], rest).
Proof.
  destruct rest as [|c rest]; [done|]. intros (_ & H1 & H2 & H3). simpl.
  rewrite (proj2 (Ascii.eqb_neq c ".")), (proj2 (Ascii.eqb_neq c "e")), (proj2 (Ascii.eqb_neq c "E")) by done. done.
Qed.

Lemma scanInt_itoa n rest :
  0 ≤ n → delimits rest → scanInt (chars (itoa n) ++ rest) = Some (chars (itoa n), rest).
Proof.
  intros Hn Hr. destruct (decide (n = 0)) as [->|Hne]; [done|].
  destruct (itoa_head n) as (c & l & E & Hc & H0); [lia|]. pose proof (itoa_digits n Hn) as Hd. rewrite E in *.
  apply Forall_cons in Hd as [_ Hd]. simpl. rewrite (proj2 (Z.eqb_neq _ _) H0), Hc, spanDigits_app; [done|done|].
  destruct rest; [done|apply Hr].
Qed.

Lemma scanNumber_itoa z rest : delimits rest → scanNumber (chars (itoa z) ++ rest) = Some (chars (itoa z), rest).
Proof.
  intros Hr. destruct (scan_tail rest Hr) as [Hf He]. unfold scanNumber. destruct (Z.lt_ge_cases z 0) as [Hz|Hz].
  - rewrite itoa_neg, chars_app by done. simpl. rewrite scanInt_itoa by (done || lia). simpl.
    rewrite Hf. simpl. rewrite He. simpl. by rewrite !app_nil_r.
  - assert (∃ c l, chars (itoa z) ++ rest = c :: l ∧ Ascii.eqb c "-" = false) as (c & l & E & Hc).
    { destruct (decide (z = 0)) as [->|]; [by eexists _, _|].
      destruct (itoa_head z) as (c & l & -> & Hd & _); [lia|]. eexists _, _. split; [done|].
      apply Ascii.eqb_neq. by intros ->. }
    rewrite E, Hc, <- E, scanInt_itoa by done. simpl. rewrite Hf. simpl. rewrite He. simpl. by rewrite !app_nil_r.
Qed.

(** ** A value survives its text *)

(** Values whose numbers are integers. *)
Fixpoint sane (v : Json) : Prop :=
  match v with
  | JNum l => ∃ z, l = chars (itoa z)
  | JArr vs => (fix go vs := match vs with [] => True | v :: vs => sane v ∧ go vs end) vs
  | JObj fs => (fix go fs := match fs with [] => True | f :: fs => sane f.2 ∧ go fs end) fs
  | _ => True
  end.

Lemma sane_arr vs : sane (JArr vs) ↔ Forall sane vs.
Proof. induction vs as [|v vs IH]; [done|]. rewrite Forall_cons, <- IH. done. Qed.
Lemma sane_obj fs : sane (JObj fs) ↔ Forall (fun f => sane f.2) fs.
Proof. induction fs as [|f fs IH]; [done|]. rewrite Forall_cons, <- IH. done. Qed.

Fixpoint treeSize (v : Json) : nat :=
  match v with
  | JArr vs => S (sum_list_with treeSize vs)
  | JObj fs => S (sum_list_with (fun f => treeSize f.2) fs)
  | _ => 1
  end.

Lemma size_pos v : (0 < treeSize v)%nat.
Proof. destruct v; simpl; lia. Qed.

(** A layout of white space. *)
Record blank (L : Layout) : Prop := {
  blank_newline d : Forall (fun c => isWs c = true) (newline L d);
  blank_colon : Forall (fun c => isWs c = true) (afterColon L) }.

Lemma blank_compact : blank compact.
Proof. split; intros; constructor. Qed.
Lemma blank_indented : blank indented.
Proof. split; intros; [|by repeat constructor]. constructor; [done|]. by apply Forall_replicate. Qed.

Lemma commaSep_cons l ls : ls ≠ [] → commaSep (l :: ls) = l ++ ","%char :: commaSep ls.
Proof. by destruct ls. Qed.

Lemma skipWs_app ws l : Forall (fun c => isWs c = true) ws → skipWs (ws ++ l) = skipWs l.
Proof. induction 1 as [|c ws Hc _ IH]; simpl; [done|]. by rewrite Hc. Qed.

Lemma skipWs_solid c l : isWs c = false → skipWs (c :: l) = c :: l.
Proof. intros Hc. simpl. by rewrite Hc. Qed.

Lemma value_skip fuel ws l : Forall (fun c => isWs c = true) ws → value fuel (ws ++ l) = value fuel l.
Proof. intros Hws. destruct fuel; [done|]. cbn [value]. by rewrite skipWs_app. Qed.

Lemma delimits_ws ws c l :
  Forall (fun c => isWs c = true) ws → delimits (c :: l) → delimits (ws ++ c :: l).
Proof.
  intros Hws Hc. destruct Hws as [|x ws Hx _]; [done|]. simpl.
  destruct x as [[] [] [] [] [] [] [] []]; done.
Qed.

Section layout.
Context (L : Layout) (HL : blank L).

(** Where a value starts. *)
Lemma print_head d v : sane v → ∃ c l, print L d v = c :: l ∧ isWs c = false ∧ c ≠ "]"%char ∧ c ≠ "}"%char.
Proof.
  destruct v as [|[]|l|s|[|v vs]|[|f fs]]; simpl; try (intros _; by eexists _, _).
  intros [z ->]. destruct (Z.lt_ge_cases z 0); [rewrite itoa_neg by done; by eexists _, _|].
  destruct (decide (z = 0)) as [->|]; [by eexists _, _|].
  destruct (itoa_head z) as (c & l & -> & Hd & _); [lia|]. eexists _, _. split; [done|].
  split; [|by split; intros ->]. destruct c as [[] [] [] [] [] [] [] []]; done.
Qed.

(** What reading the text of [v] has to give. *)
Definition readsBack (v : Json) : Prop :=
  sane v → ∀ fuel d rest, (treeSize v ≤ fuel)%nat → delimits rest → value fuel (print L d v ++ rest) = Some (clean v, rest).

Lemma elements_read fuel n d nl' vs rest :
  vs ≠ [] → Forall readsBack vs → Forall sane vs → (sum_list_with treeSize vs ≤ fuel)%nat → (sum_list_with treeSize vs ≤ n)%nat →
  Forall (fun c => isWs c = true) nl' →
  elements (value fuel) n (commaSep (map (fun v => newline L d ++ print L d v) vs) ++ nl' ++ "]"%char :: rest) =
    Some (map clean vs, rest).
Proof.
  intros Hne Hrb. revert n Hne. induction Hrb as [|v vs Hv Hvs IH]; intros n Hne Hs Hf Hn Hnl; [done|].
  apply Forall_cons in Hs as [Hsv Hs]. simpl in Hf, Hn. pose proof (size_pos v).
  destruct n as [|n]; [lia|]. cbn [elements]. destruct vs as [|v' vs].
  - cbn [map commaSep]. rewrite <- app_assoc, value_skip by apply HL.
    rewrite Hv by (try done; try lia; by apply delimits_ws). cbn [mbind option_bind].
    by rewrite skipWs_app, skipWs_solid.
  - rewrite map_cons, commaSep_cons by done. rewrite <- !app_assoc, value_skip by apply HL. cbn [app].
    rewrite Hv by (try done; lia). cbn [mbind option_bind]. rewrite skipWs_solid by done.
    rewrite Ascii.eqb_refl, (IH n) by (done || lia). done.
Qed.

Lemma members_read fuel n d nl' fs rest :
  fs ≠ [] → Forall (fun f => readsBack f.2) fs → Forall (fun f => sane f.2) fs →
  (sum_list_with (fun f => treeSize f.2) fs ≤ fuel)%nat → (sum_list_with (fun f => treeSize f.2) fs ≤ n)%nat →
  Forall (fun c => isWs c = true) nl' →
  members (value fuel) n
    (commaSep (map (fun f => newline L d ++ quoted f.1 ++ ":"%char :: afterColon L ++ print L d f.2) fs)
       ++ nl' ++ "}"%char :: rest) =
    Some (map (fun f => (sanitizeUTF8 f.1, clean f.2)) fs, rest).
Proof.
  intros Hne Hrb. revert n Hne. induction Hrb as [|[k v] fs Hv Hvs IH]; intros n Hne Hs Hf Hn Hnl; [done|].
  apply Forall_cons in Hs as [Hsv Hs]. simpl in Hf, Hn, Hsv, Hv. pose proof (size_pos v).
  destruct n as [|n]; [lia|]. cbn [members].
  assert (∀ rest, delimits rest →
    member (value fuel) ((newline L d ++ quoted k ++ ":"%char :: afterColon L ++ print L d v) ++ rest) =
      Some ((sanitizeUTF8 k, clean v), rest)) as Hm.
  { intros r Hr. unfold member, quoted. rewrite <- app_assoc, skipWs_app by apply HL. cbn [app].
    rewrite skipWs_solid by done. change (byte dq =? 34) with true. cbv iota.
    rewrite <- !app_assoc. cbn [app]. rewrite quoted_read. cbn [mbind option_bind].
    rewrite skipWs_solid by done. rewrite Ascii.eqb_refl, <- app_assoc, value_skip by apply HL.
    by rewrite Hv by (done || lia). }
  destruct fs as [|f fs].
  - cbn [map commaSep fst snd]. rewrite Hm by (by apply delimits_ws). cbn [mbind option_bind].
    by rewrite skipWs_app, skipWs_solid.
  - rewrite map_cons, commaSep_cons by done. cbn [fst snd]. rewrite <- (app_assoc (_ ++ _)). cbn [app].
    rewrite Hm by done. cbn [mbind option_bind]. rewrite skipWs_solid by done.
    rewrite Ascii.eqb_refl, (IH n) by (done || lia). done.
Qed.

Lemma commaSep_first l ls : ∃ r, commaSep (l :: ls) = l ++ r.
Proof. destruct ls as [|l' ls]; [exists []; by rewrite app_nil_r|by eexists]. Qed.

Lemma number_first z : ∃ c l, chars (itoa z) = c :: l ∧ (c = "-"%char ∨ isDigit c = true).
Proof.
  destruct (Z.lt_ge_cases z 0); [rewrite itoa_neg by done; eexists _, _; by split; [|left]|].
  destruct (decide (z = 0)) as [->|]; [eexists _, _; by split; [|right]|].
  destruct (itoa_head z) as (c & l & -> & Hd & _); [lia|]. eexists _, _. by split; [|right].
Qed.

Lemma value_number fuel z rest :
  delimits rest → value (S fuel) (chars (itoa z) ++ rest) = Some (JNum (chars (itoa z)), rest).
Proof.
  intros Hr. pose proof (scanNumber_itoa z rest Hr) as Hscan.
  destruct (number_first z) as (c & l & E & Hc). rewrite E in *. cbn [app] in *. cbn [value].
  assert (isWs c = false ∧ byte c ≠ 34 ∧ c ≠ "["%char ∧ c ≠ "{"%char ∧ c ≠ "n"%char ∧ c ≠ "t"%char ∧ c ≠ "f"%char)
    as (Hw & H1 & H2 & H3 & H4 & H5 & H6).
  { destruct Hc as [->|Hc]; [done|]. by destruct c as [[] [] [] [] [] [] [] []]. }
  rewrite skipWs_solid by done. rewrite (proj2 (Z.eqb_neq _ _) H1).
  rewrite !(proj2 (Ascii.eqb_neq c _)) by done. by rewrite Hscan.
Qed.

Lemma readsBack_all v : readsBack v.
Proof.
  induction v as [|b|l|s|vs IH|fs IH] using json_tree_ind; intros Hs [|fuel] d rest Hf Hr; try (simpl in Hf; lia).
  - done.
  - by destruct b.
  - destruct Hs as [z ->]. by apply value_number.
  - cbn [print clean]. unfold quoted. cbn [app value]. rewrite skipWs_solid by done.
    change (byte dq =? 34) with true. cbv iota. rewrite <- app_assoc. cbn [app]. by rewrite quoted_read.
  - apply sane_arr in Hs. destruct vs as [|v vs]; [done|]. cbn [print]. cbn [app value]. rewrite skipWs_solid by done.
    change (byte "[" =? 34) with false. rewrite Ascii.eqb_refl. cbv iota.
    rewrite <- !app_assoc. cbn [app].
    assert (∃ c r, skipWs (commaSep (map (fun v => newline L (S d) ++ print L (S d) v) (v :: vs)) ++ newline L d ++ "]"%char :: rest)
      = c :: r ∧ c ≠ "]"%char) as (c & r & -> & Hc).
    { rewrite map_cons. destruct (commaSep_first (newline L (S d) ++ print L (S d) v)
        (map (fun v => newline L (S d) ++ print L (S d) v) vs)) as [r ->].
      apply Forall_cons in Hs as [Hv _]. destruct (print_head (S d) v Hv) as (c & l & -> & Hw & Hc & _).
      rewrite <- !app_assoc, skipWs_app by apply HL. cbn [app]. rewrite skipWs_solid by done. by eexists _, _. }
    rewrite (proj2 (Ascii.eqb_neq c "]")) by done.
    rewrite elements_read; try done; try (simpl in Hf |- *; lia). apply HL.
  - apply sane_obj in Hs. destruct fs as [|f fs]; [done|]. cbn [print]. cbn [app value]. rewrite skipWs_solid by done.
    change (byte "{" =? 34) with false. rewrite (proj2 (Ascii.eqb_neq "{" "[")), Ascii.eqb_refl by done. cbv iota.
    rewrite <- !app_assoc. cbn [app].
    assert (∃ c r, skipWs (commaSep (map (fun f => newline L (S d) ++ quoted f.1 ++ ":"%char :: afterColon L ++ print L (S d) f.2)
        (f :: fs)) ++ newline L d ++ "}"%char :: rest) = c :: r ∧ c ≠ "}"%char) as (c & r & -> & Hc).
    { rewrite map_cons. destruct (commaSep_first (newline L (S d) ++ quoted f.1 ++ ":"%char :: afterColon L ++ print L (S d) f.2)
        (map (fun f => newline L (S d) ++ quoted f.1 ++ ":"%char :: afterColon L ++ print L (S d) f.2) fs)) as [r ->].
      rewrite <- !app_assoc, skipWs_app by apply HL. unfold quoted. cbn [app]. rewrite skipWs_solid by done. by eexists _, _. }
    rewrite (proj2 (Ascii.eqb_neq c "}")) by done.
    rewrite members_read; try done; try (simpl in Hf |- *; lia). apply HL.
Qed.

(** A text is longer than the value has parts, so that [parse] never runs out of fuel on it. *)
Lemma commaSep_length ls : (sum_list_with length ls ≤ length (commaSep ls))%nat.
Proof.
  induction ls as [|l ls IH]; [done|]. destruct ls as [|l' ls]; [simpl; lia|].
  rewrite commaSep_cons, length_app by done. cbn [length]. simpl in *. lia.
Qed.

Lemma sum_le {A B} (f : A → nat) (g : B → nat) (h : A → B) l :
  Forall (fun x => (f x ≤ g (h x))%nat) l → (sum_list_with f l ≤ sum_list_with g (map h l))%nat.
Proof. induction 1; simpl; lia. Qed.

Lemma treeSize_print v d : sane v → (treeSize v ≤ length (print L d v))%nat.
Proof.
  revert d. induction v as [|b|l|s|vs IH|fs IH] using json_tree_ind; intros d Hs; try (simpl; lia).
  - destruct b; simpl; lia.
  - destruct Hs as [z ->]. destruct (number_first z) as (c & l & E & _). simpl. rewrite E. simpl. lia.
  - apply sane_arr in Hs. destruct vs as [|v vs]; [simpl; lia|].
    pose proof (sum_le treeSize length (fun v => newline L (S d) ++ print L (S d) v) (v :: vs)) as Hle.
    pose proof (commaSep_length (map (fun v => newline L (S d) ++ print L (S d) v) (v :: vs))).
    cbn [print treeSize]. cbn [length]. rewrite length_app.
    assert (sum_list_with treeSize (v :: vs) ≤ length (commaSep (map (fun v => newline L (S d) ++ print L (S d) v) (v :: vs))))%nat;
      [|lia]. etrans; [apply Hle|done].
    apply Forall_forall. intros x Hx. rewrite Forall_forall in IH, Hs. rewrite length_app.
    pose proof (IH x Hx (S d) (Hs x Hx)). lia.
  - apply sane_obj in Hs. destruct fs as [|f fs]; [simpl; lia|].
    pose proof (sum_le (fun f => treeSize f.2) length
      (fun f => newline L (S d) ++ quoted f.1 ++ ":"%char :: afterColon L ++ print L (S d) f.2) (f :: fs)) as Hle.
    pose proof (commaSep_length (map (fun f => newline L (S d) ++ quoted f.1 ++ ":"%char :: afterColon L ++ print L (S d) f.2) (f :: fs))).
    cbn [print treeSize]. cbn [length]. rewrite length_app.
    assert (sum_list_with (fun f => treeSize f.2) (f :: fs) ≤ length (commaSep
      (map (fun f => newline L (S d) ++ quoted f.1 ++ ":"%char :: afterColon L ++ print L (S d) f.2) (f :: fs))))%nat; [|lia].
    etrans; [apply Hle|done]. apply Forall_forall. intros x Hx. rewrite Forall_forall in IH, Hs.
    repeat (rewrite length_app || cbn [length]). pose proof (IH x Hx (S d) (Hs x Hx)). lia.
Qed.

(** What is written is read back, in any layout, with invalid UTF-8 replaced. *)
Lemma parse_encode v : sane v → parse (encode L v) = Some (clean v).
Proof.
  intros Hs. unfold parse, encode. rewrite readsBack_all; [done|done| |done].
  pose proof (treeSize_print v 0 Hs). rewrite length_app. lia.
Qed.
End layout.
