(* ===== verification/Query.v ===== *)
(** * Queries: [net/url]

    The commands write the query of a request as [url.Values.Encode] does, the admin endpoints
    read it with [r.URL.Query()]: percent encoding, separators and the items that are skipped. *)
From S2P Require Import Prelude GoStd Numerals.
Open Scope Z_scope.

(** ** Writing and reading *)

(** Characters [url.QueryEscape] leaves alone. *)
Definition unreserved (c : ascii) : bool :=
  isDigit c || isLower c || isUpper c
  || bool_decide (c = "-"%char) || bool_decide (c = "_"%char)
  || bool_decide (c = "."%char) || bool_decide (c = "~"%char).

Definition upperHex (n : Z) : ascii :=
  if n <? 10 then chr (48 + Z.to_nat n) else chr (55 + Z.to_nat n).

Definition queryEscapeChar (c : ascii) : list ascii :=
  if unreserved c then [c]
  else if decide (c = " "%char) then ["+"%char]
  else ["%"%char; upperHex (byte c / 16); upperHex (byte c mod 16)].
Definition queryEscape (l : list ascii) : list ascii := concat (map queryEscapeChar l).

(** [url.QueryUnescape] *)
Fixpoint queryUnescape (l : list ascii) : option (list ascii) :=
  match l with
  | [] => Some []
  | c :: rest =>
      if decide (c = "%"%char) then
        match rest with
        | h :: l' :: rest' =>
            a ← unhex h; b ← unhex l';
            r ← queryUnescape rest';
            Some (ascii_of_N (Z.to_N (a * 16 + b)) :: r)
        | _ => None
        end
      else r ← queryUnescape rest;
           Some ((if decide (c = "+"%char) then " "%char else c) :: r)
  end.

(** [url.Values.Encode], of pairs sorted by key. *)
Definition encodePair (p : string * string) : list ascii :=
  queryEscape (chars p.1) ++ "="%char :: queryEscape (chars p.2).
Fixpoint joinWith (sep : ascii) (ls : list (list ascii)) : list ascii :=
  match ls with
  | [] => []
  | [l] => l
  | l :: rest => l ++ sep :: joinWith sep rest
  end.
Definition encodeQuery (ps : list (string * string)) : list ascii :=
  joinWith "&"%char (map encodePair ps).

(** [strings.Split] at a character. *)
Fixpoint splitAt (sep : ascii) (cur l : list ascii) : list (list ascii) :=
  match l with
  | [] => [rev cur]
  | c :: rest => if decide (c = sep) then rev cur :: splitAt sep [] rest else splitAt sep (c :: cur) rest
  end.

(** [strings.Cut] at the first [=]. *)
Fixpoint cutEq (acc l : list ascii) : list ascii * list ascii :=
  match l with
  | [] => (rev acc, [])
  | c :: rest => if decide (c = "="%char) then (rev acc, rest) else cutEq (c :: acc) rest
  end.

(** One item of [url.ParseQuery]; items that do not decode, that hold a semicolon or are
    empty are skipped. *)
Definition parsePair (item : list ascii) : option (string * string) :=
  if bool_decide (";"%char ∈ item) then None
  else match item with
       | [] => None
       | _ =>
           let '(k, v) := cutEq [] item in
           k ← queryUnescape k; v ← queryUnescape v;
           Some (text k, text v)
       end.
(** [r.URL.Query()] *)
Definition parseQuery (l : list ascii) : list (string * string) := omap parsePair (splitAt "&"%char [] l).

(** ** Queries arrive as they were sent *)

Lemma queryUnescape_char c rest :
  queryUnescape (queryEscapeChar c ++ rest) = (fun r => c :: r) <$> queryUnescape rest.
Proof.
  destruct c as [[] [] [] [] [] [] [] []]; vm_compute queryEscapeChar; simpl;
    by destruct (queryUnescape rest).
Qed.

Lemma queryUnescape_escape l : queryUnescape (queryEscape l) = Some l.
Proof.
  induction l as [|c l IH]; [done|]. unfold queryEscape in *. cbn [map concat].
  by rewrite queryUnescape_char, IH.
Qed.

(** Escaped text holds none of the separators. *)
Definition separator (c : ascii) : bool :=
  bool_decide (c = "&"%char) || bool_decide (c = "="%char) || bool_decide (c = ";"%char).

Lemma queryEscapeChar_plain c : Forall (fun d => separator d = false) (queryEscapeChar c).
Proof. destruct c as [[] [] [] [] [] [] [] []]; vm_compute queryEscapeChar; by repeat constructor. Qed.

Lemma queryEscape_plain l : Forall (fun d => separator d = false) (queryEscape l).
Proof.
  unfold queryEscape. induction l as [|c l IH]; [constructor|]. cbn [map concat].
  apply Forall_app. split; [apply queryEscapeChar_plain|done].
Qed.

Lemma plain_no c l : separator c = true → Forall (fun d => separator d = false) l → c ∉ l.
Proof. intros Hc Hl Hin. rewrite Forall_forall in Hl. apply Hl in Hin. congruence. Qed.

Lemma splitAt_none sep cur l : sep ∉ l → splitAt sep cur l = [rev cur ++ l].
Proof.
  revert cur. induction l as [|c l IH]; intros cur Hn; simpl; [by rewrite app_nil_r|].
  apply not_elem_of_cons in Hn as [Hc Hn]. rewrite decide_False by done. rewrite IH by done.
  simpl. by rewrite <- app_assoc.
Qed.

Lemma splitAt_app sep cur l rest :
  sep ∉ l → splitAt sep cur (l ++ sep :: rest) = (rev cur ++ l) :: splitAt sep [] rest.
Proof.
  revert cur. induction l as [|c l IH]; intros cur Hn; simpl.
  - by rewrite decide_True, app_nil_r.
  - apply not_elem_of_cons in Hn as [Hc Hn]. rewrite decide_False by done. rewrite IH by done.
    simpl. by rewrite <- app_assoc.
Qed.

Lemma splitAt_joinWith sep ls :
  ls ≠ [] → Forall (fun l => sep ∉ l) ls → splitAt sep [] (joinWith sep ls) = ls.
Proof.
  induction ls as [|l ls IH]; [done|]. rewrite Forall_cons. intros _ [Hl Hls].
  destruct ls as [|k ls]; [by apply splitAt_none|].
  change (joinWith sep (l :: k :: ls)) with (l ++ sep :: joinWith sep (k :: ls)).
  rewrite splitAt_app by done. by rewrite IH.
Qed.

Lemma cutEq_app acc k v : "="%char ∉ k → cutEq acc (k ++ "="%char :: v) = (rev acc ++ k, v).
Proof.
  revert acc. induction k as [|c k IH]; intros acc Hn; simpl.
  - by rewrite app_nil_r.
  - apply not_elem_of_cons in Hn as [Hc Hn]. rewrite decide_False by done. rewrite IH by done.
    simpl. by rewrite <- app_assoc.
Qed.

Lemma encodePair_no c p : separator c = true → c ≠ "="%char → c ∉ encodePair p.
Proof.
  intros Hs Hc. unfold encodePair. rewrite elem_of_app, elem_of_cons.
  pose proof (plain_no c _ Hs (queryEscape_plain (chars p.1))).
  pose proof (plain_no c _ Hs (queryEscape_plain (chars p.2))). naive_solver.
Qed.

Lemma parsePair_encode p : parsePair (encodePair p) = Some p.
Proof.
  unfold parsePair. rewrite bool_decide_false by by apply encodePair_no.
  destruct (encodePair p) as [|c l] eqn:E.
  { unfold encodePair in E. by destruct (queryEscape (chars p.1)). }
  rewrite <- E. unfold encodePair.
  rewrite cutEq_app by (by apply plain_no, queryEscape_plain). simpl.
  rewrite !queryUnescape_escape. simpl. rewrite !text_chars. by destruct p.
Qed.

Lemma parseQuery_encode ps : parseQuery (encodeQuery ps) = ps.
Proof.
  unfold parseQuery, encodeQuery. destruct ps as [|p ps]; [done|].
  rewrite splitAt_joinWith; [|done|].
  - generalize (p :: ps). induction l as [|x l IH]; [done|]. simpl. rewrite parsePair_encode.
    f_equal. apply IH.
  - apply Forall_map, Forall_forall. intros x _. by apply encodePair_no.
Qed.

(** A query written by a command is read back by an endpoint as it was, whatever
    bytes the names and values hold. *)
Theorem query_roundtrip ps : parseQuery (encodeQuery ps) = ps.
Proof. apply parseQuery_encode. Qed.
