(* ===== verification/Queue.v ===== *)
(** * The admission queue: [pkg/queue/queue.go]

    One [World] is one Go [*Queue] together with the channels it created and
    the handles it gave out.  Channels are shared between the queue (which
    sends) and the connection goroutine holding the handle (which receives),
    so they live in a store of their own and the lists of the queue hold
    their addresses. *)
From S2P Require Import Prelude.
Open Scope Z_scope.

Module AdmissionQueue.

(** ** Data *)

Record Status := mkStatus { Index : Z; Max : Z; Ok : bool; Full : bool }.

#[export] Instance Status_eq_dec : EqDecision Status.
Proof. solve_decision. Defined.

Definition zeroStatus : Status := mkStatus 0 0 false false.
Definition okStatus : Status := mkStatus 0 0 true false.
Definition fullStatus : Status := mkStatus 0 0 false true.
Definition queuedStatus (index total : Z) : Status := mkStatus index total false false.

(** A [chan Status] of capacity 1. *)
Record chan := mkChan { buf : option Status; closed : bool }.

(** A [queueItem] is its channel's address. *)
Abbreviation queueItem := nat (only parsing).

Record Queue := mkQueue {
  max : Z;
  active : list queueItem;
  queued : list queueItem;
  maxQueued : Z }.

(** The back pointer [q] of the Go struct is the [World] the handle lives in. *)
Record internalHandle := mkHandle { ch : nat; released : bool }.

#[export] Instance internalHandle_eq_dec : EqDecision internalHandle.
Proof. solve_decision. Defined.

Record World := mkWorld {
  q : Queue;
  chans : gmap nat chan;
  handles : gmap nat internalHandle;
  next : nat (* allocator of channel addresses *) }.

Definition set_q (f : Queue → Queue) (w : World) : World :=
  mkWorld (f (q w)) (chans w) (handles w) (next w).
Definition set_chans (f : gmap nat chan → gmap nat chan) (w : World) : World :=
  mkWorld (q w) (f (chans w)) (handles w) (next w).

(** ** The monad of code that runs with [q.mu] held *)

Definition M (A : Type) : Type := World → outcome (A * World).
#[export] Instance M_ret : MRet M := fun A a w => Done (a, w).
#[export] Instance M_bind : MBind M := fun A B f m w =>
  match m w with
  | Done (a, w') => f a w'
  | Panic e => Panic e
  | Blocked => Blocked
  end.
Definition modify (f : World → World) : M unit := fun w => Done (tt, f w).
Definition get : M World := fun w => Done (w, w).
Definition panic {A} (msg : string) : M A := fun _ => Panic msg.

(** [ch <- v]: panics on a closed channel, blocks on a full one (and, as on a
    nil channel, when there is no such channel). *)
Definition send (c : nat) (s : Status) : M unit := fun w =>
  match chans w !! c with
  | None => Blocked
  | Some k =>
      if closed k then Panic "send on closed channel"
      else match buf k with
           | Some _ => Blocked
           | None => Done (tt, set_chans <[c := mkChan (Some s) false]> w)
           end
  end.

(** [close(ch)]. *)
Definition close (c : nat) : M unit := fun w =>
  match chans w !! c with
  | None => Panic "close of nil channel"
  | Some k =>
      if closed k then Panic "close of closed channel"
      else Done (tt, set_chans <[c := mkChan (buf k) true]> w)
  end.

(** [<-ch]: a buffered value first, the zero value once closed, else block. *)
Definition recv (c : nat) : M Status := fun w =>
  match chans w !! c with
  | None => Blocked
  | Some k =>
      match buf k with
      | Some s => Done (s, set_chans <[c := mkChan None (closed k)]> w)
      | None => if closed k then Done (zeroStatus, w) else Blocked
      end
  end.

(** [select { case <-ch: default: }] *)
Definition tryRecv (c : nat) : M unit := fun w =>
  match recv c w with
  | Done (_, w') => Done (tt, w')
  | Panic e => Panic e
  | Blocked => Done (tt, w)
  end.

(** [make(chan Status, 1)] *)
Definition makeChan : M nat := fun w =>
  let c := next w in
  Done (c, mkWorld (q w) (<[c := mkChan None false]> (chans w)) (handles w) (S c)).

(** ** Operations of [Queue] *)

Definition New (m mq : Z) : World :=
  mkWorld (mkQueue m [] [] mq) ∅ ∅ 0.

Definition GetMax : M Z := w ← get; mret (max (q w)).
Definition GetMaxQueued : M Z := w ← get; mret (maxQueued (q w)).
Definition ActiveLen : M Z := w ← get; mret (Z.of_nat (length (active (q w)))).
Definition QueuedLen : M Z := w ← get; mret (Z.of_nat (length (queued (q w)))).

Definition trySend (c : nat) (s : Status) : M unit :=
  tryRecv c;; send c s.

Definition set_active (l : list queueItem) (x : Queue) : Queue :=
  mkQueue (max x) l (queued x) (maxQueued x).
Definition set_queued (l : list queueItem) (x : Queue) : Queue :=
  mkQueue (max x) (active x) l (maxQueued x).
Definition set_limits (m mq : Z) (x : Queue) : Queue :=
  mkQueue m (active x) (queued x) mq.

(** [len(q.active) < q.max || q.max == 0] *)
Definition hasSlot (x : Queue) : bool :=
  (Z.of_nat (length (active x)) <? max x) || (max x =? 0).

Definition popHead : M unit :=
  w ← get;
  match queued (q w) with
  | [] => panic "index out of range [0] with length 0"
  | head :: rest =>
      trySend head okStatus;;
      close head;;
      modify (set_q (fun x => set_active (active x ++ [head]) x));;
      modify (set_q (set_queued rest))
  end.

(** The loop [for len(q.queued) > 0 && hasSlot { q.popHead() }] of [SetMax]
    and [releaseFromHandle]; [fuel] bounds its iterations. *)
Fixpoint promote (fuel : nat) : M unit :=
  match fuel with
  | O => mret tt
  | S n =>
      w ← get;
      if (0 <? Z.of_nat (length (queued (q w)))) && hasSlot (q w)
      then popHead;; promote n
      else mret tt
  end.

(** The number of iterations is at most the number of queued items. *)
Definition promoteAll : M unit := w ← get; promote (length (queued (q w))).

Fixpoint broadcastFrom (surplus total : Z) (i : Z) (l : list queueItem) : M unit :=
  match l with
  | [] => mret tt
  | c :: l' =>
      trySend c (queuedStatus (surplus + i) (surplus + total));;
      broadcastFrom surplus total (i + 1) l'
  end.

Definition surplus (x : Queue) : Z := Z.of_nat (length (active x)) - max x.

Definition broadcastStatus : M unit :=
  w ← get;
  broadcastFrom (surplus (q w)) (Z.of_nat (length (queued (q w)))) 0 (queued (q w)).

Definition SetMax (m mq : Z) : M unit :=
  modify (set_q (set_limits m mq));;
  promoteAll;;
  broadcastStatus.

Definition makeHandle (c : nat) : M nat := fun w =>
  Done (c, mkWorld (q w) (chans w) (<[c := mkHandle c false]> (handles w)) (next w)).

Definition Acquire : M nat :=
  c ← makeChan;
  w ← get;
  (if hasSlot (q w) then
     modify (set_q (fun x => set_active (active x ++ [c]) x));;
     send c okStatus;;
     close c
   else if (0 <? maxQueued (q w))
           && (maxQueued (q w) <=? Z.of_nat (length (queued (q w)))) then
     send c fullStatus;;
     close c
   else
     modify (set_q (fun x => set_queued (queued x ++ [c]) x));;
     w' ← get;
     let s := surplus (q w') in
     let n := Z.of_nat (length (queued (q w'))) in
     send c (queuedStatus (s + n - 1) (s + n)));;
  makeHandle c.

(** The loops that copy a list without the items equal to [c]. *)
Definition without (c : nat) (l : list queueItem) : list queueItem :=
  filter (fun x => x ≠ c) l.

Definition releaseFromHandle (c : nat) : M unit :=
  w ← get;
  let newList := without c (queued (q w)) in
  if negb (length newList =? length (queued (q w)))%nat then
    modify (set_q (set_queued newList));;
    broadcastStatus
  else
    modify (set_q (set_active (without c (active (q w)))));;
    promoteAll;;
    broadcastStatus.

(** [Handle.Release], i.e. [internalHandle.release]; [h] is a handle this
    queue returned. *)
Definition Release (h : nat) : M unit := fun w =>
  match handles w !! h with
  | None => Panic "nil handle"
  | Some ih =>
      if released ih then Done (tt, w)
      else
        (modify (fun w => mkWorld (q w) (chans w)
                   (<[h := mkHandle (ch ih) true]> (handles w)) (next w));;
         releaseFromHandle (ch ih)) w
  end.

(** ** Reference behaviour

    What the operations do to the lists, without channels: a waiting list that
    is served in order of arrival.  [settle] moves to the active list as many
    waiting items as there are free slots, in one step. *)

Definition freeSlots (x : Queue) : nat :=
  if max x =? 0 then length (queued x)
  else Z.to_nat (max x - Z.of_nat (length (active x))).

Definition settle (x : Queue) : Queue :=
  mkQueue (max x) (active x ++ take (freeSlots x) (queued x))
    (drop (freeSlots x) (queued x)) (maxQueued x).

Definition queueFull (x : Queue) : bool :=
  (0 <? maxQueued x) && (maxQueued x <=? Z.of_nat (length (queued x))).

Definition specAcquire (c : nat) (x : Queue) : Queue :=
  if hasSlot x then set_active (active x ++ [c]) x
  else if queueFull x then x
  else set_queued (queued x ++ [c]) x.

Definition specRelease (c : nat) (x : Queue) : Queue :=
  if decide (c ∈ queued x) then set_queued (without c (queued x)) x
  else settle (set_active (without c (active x)) x).

Definition specSetMax (m mq : Z) (x : Queue) : Queue :=
  settle (set_limits m mq x).

(** The channels after a promotion of [l] and after a broadcast to [l]. *)
Definition promoteChans (l : list nat) (m : gmap nat chan) : gmap nat chan :=
  foldl (fun m c => <[c := mkChan (Some okStatus) true]> m) m l.

Fixpoint announceChans (surplus total i : Z) (l : list nat) (m : gmap nat chan)
    : gmap nat chan :=
  match l with
  | [] => m
  | c :: l' =>
      announceChans surplus total (i + 1) l'
        (<[c := mkChan (Some (queuedStatus (surplus + i) (surplus + total))) false]> m)
  end.

(** ** Running the channel operations *)

Definition isOpen (m : gmap nat chan) (c : nat) : Prop :=
  ∃ b, m !! c = Some (mkChan b false).

Lemma trySend_open c s w :
  isOpen (chans w) c →
  trySend c s w = Done (tt, set_chans <[c := mkChan (Some s) false]> w).
Proof.
  intros [b Hc]. destruct w as [x m hs n]; simpl in *.
  unfold trySend, tryRecv, recv, send, mbind, M_bind; simpl. rewrite Hc; simpl.
  destruct b as [s'|]; simpl.
  - rewrite lookup_insert_eq; simpl. unfold set_chans; simpl. by rewrite insert_insert_eq.
  - by rewrite Hc.
Qed.

Lemma popHead_open w head rest :
  queued (q w) = head :: rest →
  isOpen (chans w) head →
  popHead w = Done (tt, mkWorld
    (mkQueue (max (q w)) (active (q w) ++ [head]) rest (maxQueued (q w)))
    (<[head := mkChan (Some okStatus) true]> (chans w)) (handles w) (next w)).
Proof.
  intros Hq Hopen. unfold popHead, get, mbind, M_bind. rewrite Hq.
  rewrite (trySend_open _ _ _ Hopen). unfold close; simpl.
  rewrite lookup_insert_eq; simpl. unfold modify, set_q, set_chans; simpl.
  by rewrite insert_insert_eq.
Qed.

Lemma isOpen_insert m c d b :
  isOpen m c → isOpen (<[d := mkChan b false]> m) c.
Proof.
  intros [b' Hc]. destruct (decide (d = c)) as [->|Hne].
  - exists b. by rewrite lookup_insert_eq.
  - exists b'. by rewrite lookup_insert_ne.
Qed.

Lemma broadcastFrom_open s t i l w :
  Forall (isOpen (chans w)) l →
  broadcastFrom s t i l w = Done (tt, set_chans (announceChans s t i l) w).
Proof.
  revert i w. induction l as [|c l IH]; intros i w Hl; simpl.
  - by destruct w.
  - apply Forall_cons in Hl as [Hc Hl]. unfold mbind, M_bind.
    rewrite (trySend_open _ _ _ Hc). apply (IH (i + 1)); simpl.
    eapply Forall_impl; [exact Hl|]. intros d. apply isOpen_insert.
Qed.

Lemma promoteChans_ne l m c : c ∉ l → promoteChans l m !! c = m !! c.
Proof.
  unfold promoteChans. revert m. induction l as [|d l IH]; intros m Hc; simpl; [done|].
  apply not_elem_of_cons in Hc as [Hne Hc]. rewrite (IH _ Hc). by rewrite lookup_insert_ne.
Qed.

Lemma promoteChans_eq l m c :
  c ∈ l → promoteChans l m !! c = Some (mkChan (Some okStatus) true).
Proof.
  unfold promoteChans. revert m. induction l as [|d l IH]; intros m Hc; simpl.
  - elem_nil.
  - destruct (decide (c ∈ l)) as [Hin|Hnin]; [by apply IH|].
    apply elem_of_cons in Hc as [->|]; [|done].
    etransitivity; [exact (promoteChans_ne l _ d Hnin)|]. by rewrite lookup_insert_eq.
Qed.

Lemma announceChans_ne s t i l m c :
  c ∉ l → announceChans s t i l m !! c = m !! c.
Proof.
  revert i m. induction l as [|d l IH]; intros i m Hc; simpl; [done|].
  apply not_elem_of_cons in Hc as [Hne Hc]. rewrite (IH _ _ Hc). by rewrite lookup_insert_ne.
Qed.

Lemma announceChans_eq s t i l m j c :
  NoDup l → l !! j = Some c →
  announceChans s t i l m !! c =
    Some (mkChan (Some (queuedStatus (s + i + Z.of_nat j) (s + t))) false).
Proof.
  revert i m j. induction l as [|d l IH]; intros i m j Hnd Hj; simpl; [done|].
  apply NoDup_cons in Hnd as [Hd Hnd]. destruct j as [|j]; simplify_eq/=.
  - rewrite announceChans_ne; [|done]. rewrite lookup_insert_eq. by rewrite Z.add_0_r.
  - rewrite (IH _ _ _ Hnd Hj). do 3 f_equal. unfold queuedStatus. f_equal. lia.
Qed.

(** ** The promotion loop is [settle] *)

Lemma hasSlot_freeSlots x :
  queued x ≠ [] → hasSlot x = true ↔ (0 < freeSlots x)%nat.
Proof.
  unfold hasSlot, freeSlots. intros Hq. destruct (queued x); [done|].
  rewrite orb_true_iff, Z.ltb_lt, Z.eqb_eq.
  destruct (Z.eqb_spec (max x) 0) as [E|E]; simpl; lia.
Qed.

Lemma hasSlot_settle x : queued (settle x) = [] ∨ hasSlot (settle x) = false.
Proof.
  destruct (queued (settle x)) as [|c l] eqn:Hq; [by left|right].
  unfold settle in Hq; simpl in Hq. apply (f_equal length) in Hq.
  rewrite length_drop in Hq. simpl in Hq. unfold hasSlot, settle; simpl.
  rewrite length_app, length_take. unfold freeSlots in *.
  destruct (max x =? 0) eqn:E; [lia|]. rewrite orb_false_r, Z.ltb_ge. lia.
Qed.

Lemma settle_idle x : queued x = [] ∨ hasSlot x = false → settle x = x.
Proof.
  intros H. assert (take (freeSlots x) (queued x) = [] ∧
                    drop (freeSlots x) (queued x) = queued x) as [Ht Hd].
  { destruct H as [->|H]; [by rewrite take_nil, drop_nil|].
    destruct (queued x) as [|c l] eqn:E; [by rewrite take_nil, drop_nil|].
    assert (¬ (0 < freeSlots x)%nat) as Hf.
    { rewrite <- hasSlot_freeSlots; [congruence|]. by rewrite E. }
    by replace (freeSlots x) with 0%nat by lia. }
  unfold settle. rewrite Ht, Hd, app_nil_r. by destruct x.
Qed.

Lemma settle_step x head rest :
  queued x = head :: rest → hasSlot x = true →
  settle x = settle (mkQueue (max x) (active x ++ [head]) rest (maxQueued x)) ∧
  take (freeSlots x) (queued x) =
    head :: take (freeSlots (mkQueue (max x) (active x ++ [head]) rest (maxQueued x))) rest.
Proof.
  intros Hq Hs.
  assert (freeSlots x =
    S (freeSlots (mkQueue (max x) (active x ++ [head]) rest (maxQueued x)))) as Hf.
  { unfold freeSlots, hasSlot in *; simpl. rewrite Hq, length_app; simpl.
    destruct (max x =? 0) eqn:E; simpl; [done|]. lia. }
  unfold settle; simpl. rewrite Hf, Hq. simpl. rewrite <- app_assoc. done.
Qed.

Definition settleWorld (w : World) : World :=
  mkWorld (settle (q w))
    (promoteChans (take (freeSlots (q w)) (queued (q w))) (chans w))
    (handles w) (next w).

Lemma promote_settle fuel w :
  (length (queued (q w)) ≤ fuel)%nat →
  NoDup (queued (q w)) →
  Forall (isOpen (chans w)) (queued (q w)) →
  promote fuel w = Done (tt, settleWorld w).
Proof.
  assert (∀ w : World, queued (q w) = [] ∨ hasSlot (q w) = false → settleWorld w = w)
    as Hidle.
  { intros [x m hs n] H; unfold settleWorld; simpl in *. rewrite (settle_idle _ H).
    assert (take (freeSlots x) (queued x) = []) as ->; [|done].
    pose proof (f_equal (fun y => length (queued y)) (settle_idle _ H)) as Hl.
    simpl in Hl. rewrite length_drop in Hl. apply length_zero_iff_nil.
    rewrite length_take. lia. }
  revert w. induction fuel as [|fuel IH]; intros w Hlen Hnd Hop; simpl.
  - rewrite Hidle; [done|]. left. by apply length_zero_iff_nil; lia.
  - unfold get, mbind, M_bind.
    destruct (queued (q w)) as [|head rest] eqn:Hq; simpl.
    { rewrite Hidle; [done|]. by left. }
    destruct (hasSlot (q w)) eqn:Hs; simpl; [|by rewrite Hidle; [|right]].
    apply Forall_cons in Hop as [Hh Hop]. apply NoDup_cons in Hnd as [Hnin Hnd].
    rewrite (popHead_open _ _ _ Hq Hh). rewrite IH; simpl in *; [|lia|done|].
    + destruct (settle_step _ _ _ Hq Hs) as [Hse Htk].
      unfold settleWorld; simpl. rewrite Hse. rewrite Htk. done.
    + apply Forall_forall. intros c Hc. rewrite Forall_forall in Hop.
      destruct (Hop c Hc) as [b Hb]. exists b.
      rewrite lookup_insert_ne; [done|]. by intros ->.
Qed.

(** ** The invariant *)

(** Status [s] tells the item at place [i] of the waiting list its position. *)
Definition pendingAt (x : Queue) (i : nat) (s : Status) : Prop :=
  Index s = surplus x + Z.of_nat i ∧
  Index s < Max s ≤ surplus x + Z.of_nat (length (queued x)) ∧
  Ok s = false ∧ Full s = false.

Record core (w : World) : Prop := mkCore {
  core_nodup : NoDup (active (q w) ++ queued (q w));
  core_open : Forall (isOpen (chans w)) (queued (q w));
  core_active c : c ∈ active (q w) →
    ∃ b, chans w !! c = Some (mkChan b true) ∧ (b = None ∨ b = Some okStatus);
  core_next c : is_Some (chans w !! c) → (c < next w)%nat;
  core_handles h ih : handles w !! h = Some ih → ch ih = h ∧ is_Some (chans w !! h);
  core_listed c : c ∈ active (q w) ++ queued (q w) →
    handles w !! c = Some (mkHandle c false) }.

Record wf (w : World) : Prop := mkWf {
  wf_core : core w;
  wf_work : queued (q w) = [] ∨ hasSlot (q w) = false;
  wf_pending i c s : queued (q w) !! i = Some c →
    chans w !! c = Some (mkChan (Some s) false) → pendingAt (q w) i s }.

Lemma wf_New m mq : wf (New m mq).
Proof.
  split; [split|by left|done]; simpl.
  - by apply NoDup_nil.
  - by apply Forall_nil.
  - intros c Hc. elem_nil.
  - intros c [k Hk]. by rewrite lookup_empty in Hk.
  - intros h ih Hh. by rewrite lookup_empty in Hh.
  - intros c Hc. elem_nil.
Qed.

Definition announceWorld (w : World) : World :=
  set_chans (announceChans (surplus (q w)) (Z.of_nat (length (queued (q w)))) 0
               (queued (q w))) w.

Lemma announceChans_is_Some s t i l m c :
  is_Some (announceChans s t i l m !! c) → c ∈ l ∨ is_Some (m !! c).
Proof.
  intros H. destruct (decide (c ∈ l)); [by left|right].
  by rewrite announceChans_ne in H.
Qed.

Lemma announceChans_mono s t i l m c :
  is_Some (m !! c) → is_Some (announceChans s t i l m !! c).
Proof.
  revert i m. induction l as [|d l IH]; intros i m H; simpl; [done|].
  apply IH. destruct (decide (d = c)) as [->|]; simplify_map_eq; eauto.
Qed.

Lemma broadcastStatus_wf w :
  core w → queued (q w) = [] ∨ hasSlot (q w) = false →
  broadcastStatus w = Done (tt, announceWorld w) ∧ wf (announceWorld w).
Proof.
  intros Hc Hwork. split.
  { unfold broadcastStatus, get, mbind, M_bind.
    by rewrite (broadcastFrom_open _ _ _ _ _ (core_open _ Hc)). }
  destruct Hc as [Hnd Hop Hact Hnx Hh Hl].
  pose proof Hnd as (_ & Hdisj & Hndq)%NoDup_app.
  assert (∀ j c, queued (q w) !! j = Some c →
    announceChans (surplus (q w)) (Z.of_nat (length (queued (q w)))) 0 (queued (q w))
      (chans w) !! c = Some (mkChan (Some (queuedStatus (surplus (q w) + 0 + Z.of_nat j)
        (surplus (q w) + Z.of_nat (length (queued (q w)))))) false)) as Hann.
  { intros j c Hj. by apply announceChans_eq. }
  split; [split|..]; simpl; try done.
  - apply Forall_lookup. intros j c Hj. eexists. by apply Hann.
  - intros c Hin. rewrite announceChans_ne; [by apply Hact|]. by apply Hdisj.
  - intros c [Hin|Hs]%announceChans_is_Some; [|by apply Hnx].
    rewrite Forall_forall in Hop. destruct (Hop c Hin) as [b Hb]. apply Hnx. by eexists.
  - intros h ih [-> Hs]%Hh. split; [done|]. by apply announceChans_mono.
  - intros i c s Hi Hs. rewrite (Hann _ _ Hi) in Hs. simplify_eq.
    apply lookup_lt_Some in Hi. unfold pendingAt; simpl. repeat split; lia.
Qed.

Lemma promoteChans_mono l m c :
  is_Some (m !! c) → is_Some (promoteChans l m !! c).
Proof.
  intros H. destruct (decide (c ∈ l)).
  - rewrite promoteChans_eq; eauto.
  - by rewrite promoteChans_ne.
Qed.

Lemma promoteAll_core w :
  core w → promoteAll w = Done (tt, settleWorld w) ∧ core (settleWorld w).
Proof.
  intros [Hnd Hop Hact Hnx Hh Hl].
  pose proof Hnd as (Hnda & Hdisj & Hndq)%NoDup_app. split.
  { unfold promoteAll, get, mbind, M_bind. by apply promote_settle. }
  set (k := freeSlots (q w)). set (l := queued (q w)) in *.
  assert ((active (q w) ++ take k l) ++ drop k l = active (q w) ++ l) as Heq.
  { by rewrite <- app_assoc, take_drop. }
  rewrite <- (take_drop k l) in Hndq. apply NoDup_app in Hndq as (_ & Hd2 & _).
  rewrite Forall_forall in Hop.
  split; simpl; fold k l; try (rewrite Heq); try done.
  - apply Forall_forall. intros c Hc. destruct (Hop c) as [b Hb].
    { rewrite <- (take_drop k l). apply elem_of_app. by right. }
    exists b. rewrite promoteChans_ne; [done|]. intros Hin. by apply (Hd2 c).
  - intros c [Hin|Hin]%elem_of_app.
    + destruct (decide (c ∈ take k l)) as [Ht|Ht].
      * rewrite promoteChans_eq by done. eauto.
      * rewrite promoteChans_ne by done. by apply Hact.
    + rewrite promoteChans_eq by done. eauto.
  - intros c Hs. apply Hnx. destruct (decide (c ∈ take k l)) as [Ht|Ht].
    + destruct (Hop c) as [b Hb]; [|by eexists].
      rewrite <- (take_drop k l). apply elem_of_app. by left.
    + by rewrite promoteChans_ne in Hs.
  - intros h ih [-> Hs]%Hh. split; [done|]. by apply promoteChans_mono.
Qed.

(** A channel the queue may still send on: open, or not made yet. *)
Definition sendable (w : World) (c : nat) : Prop := chans w !! c = None ∨ isOpen (chans w) c.

(** How an operation touches channels: an item stays active with its channel
    as it was, or becomes active with a fresh [Ok] in its channel; nothing but
    new items joins the waiting list; a closed channel is left alone, and one that
    stays open holds no [Ok]. *)
Definition wakes (w w' : World) : Prop :=
  (∀ c, c ∈ active (q w') →
     c ∈ active (q w) ∧ chans w' !! c = chans w !! c ∨
     (c ∈ queued (q w) ∨ (next w ≤ c)%nat) ∧
     chans w' !! c = Some (mkChan (Some okStatus) true)) ∧
  (∀ c, c ∈ queued (q w') → c ∈ queued (q w) ∨ (next w ≤ c)%nat) ∧
  (next w ≤ next w')%nat ∧
  (∀ c, chans w' !! c = chans w !! c ∨
     sendable w c ∧ ∃ st b, chans w' !! c = Some (mkChan (Some st) b) ∧ (b = false → Ok st = false)).

Lemma wakes_announce w w' : core w' → wakes w w' → wakes w (announceWorld w').
Proof.
  intros Hc (Ha & Hq & Hn & Hs).
  destruct (proj1 (NoDup_app _ _) (core_nodup _ Hc)) as (_ & Hdisj & Hndq).
  split; [|split; [done|split; [done|]]]; intros c.
  - intros Hin. destruct (Ha c Hin) as [[? <-]|[? <-]]; [left|right];
      (split; [done|]); by apply announceChans_ne, Hdisj.
  - unfold announceWorld, set_chans; cbn [chans].
    destruct (decide (c ∈ queued (q w'))) as [Hin|Hin]; [|rewrite announceChans_ne by done; apply Hs].
    right. pose proof (core_open _ Hc) as Hop. rewrite Forall_forall in Hop. split.
    + destruct (Hop c Hin) as [b Hb]. destruct (Hs c) as [E|[? _]]; [|done]. right. exists b. congruence.
    + apply list_elem_of_lookup in Hin as [j Hj]. eexists _, _.
      split; [by apply announceChans_eq|done].
Qed.

Lemma wakes_settle w : core w → wakes w (settleWorld w).
Proof.
  intros Hc. split; [|split; [|split; [done|]]]; simpl; intros c; [intros Hin..|].
  - set (l := queued (q w)) in *. set (k := freeSlots (q w)) in *.
    destruct (proj1 (NoDup_app _ _) (core_nodup _ Hc)) as (_ & Hdisj & _).
    assert (∀ d, d ∈ take k l → d ∈ l) as Hsub.
    { intros d Hd. rewrite <- (take_drop k l). apply elem_of_app. by left. }
    apply elem_of_app in Hin as [Hin|Hin].
    + left. split; [done|]. apply promoteChans_ne. intros Ht%Hsub. by apply (Hdisj c).
    + right. rewrite promoteChans_eq; auto.
  - left. rewrite <- (take_drop (freeSlots (q w)) (queued (q w))).
    apply elem_of_app. by right.
  - destruct (decide (c ∈ take (freeSlots (q w)) (queued (q w)))) as [Ht|Ht];
      [|left; by apply promoteChans_ne].
    right. split; [|eexists _, _; split; [by apply promoteChans_eq|done]].
    right. pose proof (core_open _ Hc) as Hop. rewrite Forall_forall in Hop. apply Hop.
    rewrite <- (take_drop (freeSlots (q w)) (queued (q w))). apply elem_of_app. by left.
Qed.

(** Promotion followed by a broadcast re-establishes the invariant. *)
Lemma promote_broadcast_wf w :
  core w →
  ∃ w', (promoteAll;; broadcastStatus) w = Done (tt, w') ∧ wf w' ∧ wakes w w' ∧
        q w' = settle (q w) ∧ handles w' = handles w ∧ next w' = next w.
Proof.
  intros Hc. destruct (promoteAll_core _ Hc) as [Hrun Hcore].
  destruct (broadcastStatus_wf (settleWorld w)) as [Hb Hwf]; [done|apply hasSlot_settle|].
  exists (announceWorld (settleWorld w)). split.
  - unfold mbind, M_bind. rewrite Hrun. done.
  - split; [done|]. split; [|done]. by apply wakes_announce, wakes_settle.
Qed.

(** ** The operations keep the invariant and follow the reference *)

Lemma SetMax_run m mq w :
  wf w →
  ∃ w', SetMax m mq w = Done (tt, w') ∧ wf w' ∧ wakes w w' ∧
        q w' = specSetMax m mq (q w) ∧ handles w' = handles w ∧ next w' = next w.
Proof.
  intros [Hc _ _]. apply (promote_broadcast_wf (set_q (set_limits m mq) w)).
  by destruct Hc; split.
Qed.

Lemma elem_of_without c d l : d ∈ without c l ↔ d ≠ c ∧ d ∈ l.
Proof. unfold without. by rewrite list_elem_of_filter. Qed.

Lemma without_notin c l : c ∉ l → without c l = l.
Proof.
  intros H. unfold without. induction l as [|d l IH]; [done|].
  apply not_elem_of_cons in H as [Hne H]. rewrite filter_cons_True; [|done].
  by rewrite IH.
Qed.

Lemma length_without c l :
  (length (without c l) =? length l)%nat = bool_decide (c ∉ l).
Proof.
  case_bool_decide as H; [by rewrite without_notin, Nat.eqb_refl|].
  apply Nat.eqb_neq.
  apply list_elem_of_split in H as (l1 & l2 & ->). unfold without.
  rewrite filter_app, filter_cons_False by (intros Hn; by apply Hn).
  rewrite !length_app; simpl.
  pose proof (length_filter (fun x => x ≠ c) l1).
  pose proof (length_filter (fun x => x ≠ c) l2). lia.
Qed.

Lemma length_without_lt c l : c ∈ l → (length (without c l) < length l)%nat.
Proof.
  intros H. pose proof (length_without c l) as Hl. rewrite bool_decide_false in Hl by tauto.
  apply Nat.eqb_neq in Hl. pose proof (length_filter (fun x => x ≠ c) l).
  unfold without in *. lia.
Qed.

Lemma NoDup_without c l1 l2 :
  NoDup (l1 ++ l2) → NoDup (without c l1 ++ l2) ∧ NoDup (l1 ++ without c l2).
Proof.
  rewrite !NoDup_app. setoid_rewrite elem_of_without. intros (H1 & Hd & H2).
  split; (split; [|split]); try done; try (by apply NoDup_filter); naive_solver.
Qed.

(** The world in which handle [c] is marked released and taken off both lists. *)
Definition dropped (c : nat) (w : World) : World :=
  mkWorld (set_active (without c (active (q w)))
             (set_queued (without c (queued (q w))) (q w)))
    (chans w) (<[c := mkHandle c true]> (handles w)) (next w).

Lemma wakes_dropped c w w' : wakes (dropped c w) w' → wakes w w'.
Proof.
  unfold wakes, sendable, dropped; simpl. setoid_rewrite elem_of_without. intros (? & ? & ? & ?). naive_solver.
Qed.

Lemma wakes_refl w : wakes w w.
Proof. unfold wakes. auto. Qed.

Lemma core_dropped c w :
  core w → is_Some (handles w !! c) → core (dropped c w).
Proof.
  intros [Hnd Hop Hact Hnx Hh Hl] [ih Hih]. split; simpl; try done.
  - apply (NoDup_without c), proj2 in Hnd. by apply (NoDup_without c), proj1 in Hnd.
  - rewrite Forall_forall in Hop |- *. intros d [_ Hd]%elem_of_without. by apply Hop.
  - intros d [_ Hd]%elem_of_without. by apply Hact.
  - intros h ih'. destruct (decide (h = c)) as [->|Hne].
    + rewrite lookup_insert_eq. intros [= <-]. split; [done|]. by apply (Hh c ih).
    + rewrite lookup_insert_ne by done. apply Hh.
  - intros d Hd. assert (d ≠ c ∧ d ∈ active (q w) ++ queued (q w)) as [Hne Hin].
    { rewrite elem_of_app, !elem_of_without in Hd. rewrite elem_of_app. tauto. }
    rewrite lookup_insert_ne by done. by apply Hl.
Qed.

Lemma Release_run h w :
  wf w → is_Some (handles w !! h) →
  ∃ w', Release h w = Done (tt, w') ∧ wf w' ∧ wakes w w' ∧
        q w' = (if decide (handles w !! h = Some (mkHandle h false))
                then specRelease h (q w) else q w) ∧
        handles w' = <[h := mkHandle h true]> (handles w) ∧ next w' = next w.
Proof.
  intros Hwf [[c r] Hih]. pose proof (wf_core _ Hwf) as Hc.
  destruct (core_handles _ Hc _ _ Hih) as [Heq Hs]; simpl in Heq; subst c.
  pose proof (core_dropped h w Hc (mk_is_Some _ _ Hih)) as Hcd.
  unfold Release. rewrite Hih; simpl. destruct r.
  { exists w. rewrite decide_False by congruence. rewrite insert_id by done.
    split_and!; try done. apply wakes_refl. }
  rewrite decide_True by done. unfold specRelease.
  destruct (proj1 (NoDup_app _ _) (core_nodup _ Hc)) as (_ & Hdisj & _).
  unfold releaseFromHandle, modify, get, mbind, M_bind; simpl.
  rewrite length_without. case_bool_decide as Hq; simpl.
  - rewrite decide_False by done. pose proof (wakes_dropped h w) as Hwk.
    unfold dropped in Hcd, Hwk.
    rewrite (without_notin h (queued (q w))) in Hcd, Hwk by done.
    destruct (promote_broadcast_wf _ Hcd) as (w' & ? & ? & Hw%Hwk & ?). eauto 10.
  - rewrite decide_True by done. pose proof (wakes_dropped h w) as Hwk.
    unfold dropped in Hcd, Hwk. rewrite (without_notin h (active (q w))) in Hcd, Hwk
      by (intros Ha; by apply (Hdisj h)).
    destruct (broadcastStatus_wf _ Hcd) as [Hb Hwf'].
    { simpl. destruct (wf_work _ Hwf) as [Hnil|Hslot]; [|by right].
      rewrite Hnil in Hq. elem_nil. }
    eexists. split; [exact Hb|]. split; [exact Hwf'|]. split; [|by destruct (q w)].
    apply Hwk, wakes_announce; [done|apply wakes_refl].
Qed.

(** The status a new handle finds in its channel. *)
Definition firstStatus (x : Queue) : Status :=
  if hasSlot x then okStatus
  else if queueFull x then fullStatus
  else queuedStatus (surplus x + Z.of_nat (length (queued x)))
         (surplus x + Z.of_nat (length (queued x)) + 1).

Definition firstChan (x : Queue) : chan :=
  mkChan (Some (firstStatus x)) (hasSlot x || queueFull x).

(** The world after [Acquire], in one piece. *)
Definition acquired (w : World) : World :=
  mkWorld (specAcquire (next w) (q w))
    (<[next w := firstChan (q w)]> (chans w))
    (<[next w := mkHandle (next w) false]> (handles w)) (S (next w)).

Lemma Acquire_eq w : Acquire w = Done (next w, acquired w).
Proof.
  destruct w as [x m hs n]. unfold Acquire, acquired, specAcquire, firstChan, firstStatus.
  unfold makeChan, get, modify, send, close, makeHandle, mbind, M_bind, set_q, set_chans; simpl.
  fold (queueFull x).
  destruct (hasSlot x) eqn:Hs; [|destruct (queueFull x) eqn:Hf]; simpl.
  - rewrite lookup_insert_eq; simpl. rewrite lookup_insert_eq; simpl.
    by rewrite !insert_insert_eq.
  - rewrite lookup_insert_eq; simpl. rewrite lookup_insert_eq; simpl.
    by rewrite !insert_insert_eq.
  - rewrite lookup_insert_eq; simpl. rewrite insert_insert_eq. do 4 f_equal.
    unfold queuedStatus, surplus; simpl. rewrite length_app; simpl.
    do 3 f_equal; lia.
Qed.

Lemma core_fresh w :
  core w → chans w !! next w = None ∧ next w ∉ active (q w) ++ queued (q w).
Proof.
  intros Hc. assert (chans w !! next w = None) as Hn.
  { apply eq_None_not_Some. intros Hs%(core_next _ Hc). lia. }
  split; [done|]. intros Hin%(core_listed _ Hc).
  apply (core_handles _ Hc) in Hin as [_ [k Hk]]. congruence.
Qed.

(** Adding a fresh channel, listed or not. *)
Lemma core_extend w k x :
  core w →
  NoDup (active x ++ queued x) →
  (∀ d, d ∈ queued x → d ∈ queued (q w) ∨ d = next w ∧ closed k = false) →
  (∀ d, d ∈ active x → d ∈ active (q w) ∨ d = next w ∧ k = mkChan (Some okStatus) true) →
  core (mkWorld x (<[next w := k]> (chans w))
          (<[next w := mkHandle (next w) false]> (handles w)) (S (next w))).
Proof.
  intros Hc Hnd Hq Ha. destruct (core_fresh _ Hc) as [Hnone Hnin].
  rewrite elem_of_app in Hnin. pose proof (core_open _ Hc) as Hop.
  rewrite Forall_forall in Hop. split; simpl; try done.
  - apply Forall_forall. intros d [Hd|[-> Hk]]%Hq.
    + destruct (Hop d Hd) as [b Hb]. exists b. rewrite lookup_insert_ne; [done|].
      intros <-. by apply Hnin; right.
    + exists (buf k). rewrite lookup_insert_eq. destruct k; simpl in *; congruence.
  - intros d [Hd|[-> ->]]%Ha.
    + rewrite lookup_insert_ne; [by apply (core_active _ Hc)|].
      intros <-. by apply Hnin; left.
    + rewrite lookup_insert_eq. eauto.
  - intros d. destruct (decide (next w = d)) as [<-|Hne]; [lia|].
    rewrite lookup_insert_ne by done. intros Hs%(core_next _ Hc). lia.
  - intros h ih. destruct (decide (next w = h)) as [<-|Hne].
    + rewrite !lookup_insert_eq. intros [= <-]. eauto.
    + rewrite !lookup_insert_ne by done. apply (core_handles _ Hc).
  - intros d Hd. destruct (decide (next w = d)) as [<-|Hne].
    + by rewrite lookup_insert_eq.
    + rewrite lookup_insert_ne by done. apply (core_listed _ Hc).
      rewrite elem_of_app in Hd |- *. naive_solver.
Qed.

Lemma acquired_core w : core w → core (acquired w).
Proof.
  intros Hc. destruct (core_fresh _ Hc) as [_ Hnin]. pose proof (core_nodup _ Hc) as Hnd.
  unfold acquired, specAcquire, firstChan, firstStatus.
  destruct (hasSlot (q w)) eqn:Hs; [|destruct (queueFull (q w)) eqn:Hf];
    apply core_extend; simpl; try done; try (by left).
  - rewrite <- app_assoc; simpl. rewrite <- Permutation_middle. by apply NoDup_cons.
  - intros d [Hd| ->%list_elem_of_singleton]%elem_of_app; auto.
  - rewrite app_assoc. rewrite Permutation_app_comm. simpl. by apply NoDup_cons.
  - intros d [Hd| ->%list_elem_of_singleton]%elem_of_app; auto.
Qed.

Lemma acquired_wf w : wf w → wf (acquired w).
Proof.
  intros [Hc Hwork Hpend]. split; [by apply acquired_core|..].
  - unfold acquired, specAcquire; simpl.
    destruct (hasSlot (q w)) eqn:Hs; [|destruct (queueFull (q w)) eqn:Hf]; simpl.
    + destruct Hwork as [->|]; [by left|congruence].
    + by right.
    + by right.
  - destruct (core_fresh _ Hc) as [_ Hnin]. rewrite elem_of_app in Hnin.
    assert (∀ i c s, queued (q w) !! i = Some c →
      <[next w := firstChan (q w)]> (chans w) !! c = Some (mkChan (Some s) false) →
      pendingAt (q w) i s) as Hold.
    { intros i c s Hi. rewrite lookup_insert_ne; [by apply Hpend|].
      intros <-. apply Hnin. right. by eapply list_elem_of_lookup_2. }
    unfold acquired, specAcquire; simpl.
    destruct (hasSlot (q w)) eqn:Hs; [|destruct (queueFull (q w)) eqn:Hf]; simpl;
      [|done|].
    + destruct Hwork as [->|]; [done|congruence].
    + intros i c s [Hi|[Hi Hc']]%lookup_app_Some Hk.
      * destruct (Hold i c s Hi Hk) as (HI & HM & HO). unfold pendingAt; simpl.
        rewrite length_app; simpl. unfold surplus in *; simpl. repeat split; try tauto; lia.
      * apply list_lookup_singleton_Some in Hc' as [Hi' <-].
        rewrite lookup_insert_eq in Hk. unfold firstChan, firstStatus in Hk.
        rewrite Hs, Hf in Hk. simplify_eq/=. unfold pendingAt, surplus; simpl.
        rewrite length_app; simpl. repeat split; lia.
Qed.

Lemma acquired_wakes w : core w → wakes w (acquired w).
Proof.
  intros Hc. destruct (core_fresh _ Hc) as [Hfresh Hnin]. rewrite elem_of_app in Hnin.
  assert (∀ k st b, k = mkChan (Some st) b → (b = false → Ok st = false) → ∀ c,
    <[next w := k]> (chans w) !! c = chans w !! c ∨
    sendable w c ∧ ∃ st b, <[next w := k]> (chans w) !! c = Some (mkChan (Some st) b) ∧ (b = false → Ok st = false)) as Hnew.
  { intros k st b -> Hok c. destruct (decide (next w = c)) as [<-|Hne]; [|left; by rewrite lookup_insert_ne].
    right. split; [by left|]. exists st, b. by rewrite lookup_insert_eq. }
  assert (∀ c k, c ∈ active (q w) → <[next w := k]> (chans w) !! c = chans w !! c) as Hold.
  { intros c k Hin. apply lookup_insert_ne. intros <-. by apply Hnin; left. }
  unfold wakes, acquired, specAcquire, firstChan, firstStatus; simpl.
  destruct (hasSlot (q w)) eqn:Hs; [|destruct (queueFull (q w)) eqn:Hf]; simpl;
    (split; [|split; [|split; [lia|by eapply Hnew]]]); auto.
  - intros c [Hc'| ->%list_elem_of_singleton]%elem_of_app; [by auto|].
    right. rewrite lookup_insert_eq. auto.
  - intros c [Hc'| ->%list_elem_of_singleton]%elem_of_app; auto.
Qed.

(** ** Interleavings

    Every operation runs with the mutex held, so an execution is a sequence of
    whole operations; receives of the connection goroutines come in between.
    (A receive that overtakes the [select] of [trySend] only leaves the buffer
    empty, as a receive just before the operation would.)  [log] records which
    status each handle received, latest first. *)

Inductive op : Type :=
  | OpAcquire
  | OpRelease (h : nat)
  | OpSetMax (m mq : Z)
  | OpRecv (h : nat).

Record Sys := mkSys { world : World; log : list (nat * Status) }.

Inductive step : Sys → op → Sys → Prop :=
  | StepAcquire w l h w' :
      Acquire w = Done (h, w') → step (mkSys w l) OpAcquire (mkSys w' l)
  | StepRelease w l h w' :
      is_Some (handles w !! h) → Release h w = Done (tt, w') →
      step (mkSys w l) (OpRelease h) (mkSys w' l)
  | StepSetMax w l m mq w' :
      SetMax m mq w = Done (tt, w') → step (mkSys w l) (OpSetMax m mq) (mkSys w' l)
  | StepRecv w l h s w' :
      is_Some (handles w !! h) → recv h w = Done (s, w') →
      step (mkSys w l) (OpRecv h) (mkSys w' ((h, s) :: l)).

(** States reachable from [New m mq] by operations that satisfy [P]. *)
Inductive reachable (P : op → Prop) (m mq : Z) : Sys → Prop :=
  | ReachInit : reachable P m mq (mkSys (New m mq) [])
  | ReachStep s o s' :
      reachable P m mq s → P o → step s o s' → reachable P m mq s'.

Definition anyOp (o : op) : Prop := True.
Definition fixedLimits (o : op) : Prop :=
  match o with OpSetMax _ _ => False | _ => True end.

(** The reference semantics of the operations on the lists. *)
Inductive specStep : Queue → op → Queue → Prop :=
  | SpecAcquire x c :
      c ∉ active x ++ queued x → specStep x OpAcquire (specAcquire c x)
  | SpecRelease x h : specStep x (OpRelease h) (specRelease h x)
  | SpecReleased x h : h ∉ active x ++ queued x → specStep x (OpRelease h) x
  | SpecSetMax x m mq : specStep x (OpSetMax m mq) (specSetMax m mq x)
  | SpecRecv x h : specStep x (OpRecv h) x.

Lemma recv_run h w s w' :
  wf w → recv h w = Done (s, w') →
  wf w' ∧ q w' = q w ∧ next w' = next w ∧ handles w' = handles w.
Proof.
  intros [Hc Hwork Hpend]. unfold recv.
  destruct (chans w !! h) as [[b cl]|] eqn:Hh; [|done]. simpl.
  destruct b as [s'|]; [|by destruct cl; intros [= <- <-]].
  intros [= <- <-]. split; [|done].
  destruct Hc as [Hnd Hop Hact Hnx Hhd Hl]. split; [split|..]; simpl; try done.
  - rewrite Forall_forall in Hop |- *. intros c Hin. destruct (Hop c Hin) as [b Hb].
    destruct (decide (h = c)) as [<-|Hne].
    + exists None. rewrite lookup_insert_eq. congruence.
    + exists b. by rewrite lookup_insert_ne.
  - intros c Hin. destruct (Hact c Hin) as (b & Hb & Hb').
    destruct (decide (h = c)) as [<-|Hne].
    + exists None. rewrite lookup_insert_eq. split; [congruence|by left].
    + exists b. by rewrite lookup_insert_ne.
  - intros c. destruct (decide (h = c)) as [<-|Hne].
    + intros _. apply Hnx. by rewrite Hh.
    + rewrite lookup_insert_ne by done. apply Hnx.
  - intros c ih [-> Hs]%Hhd. split; [done|]. destruct (decide (h = c)) as [<-|Hne].
    + by rewrite lookup_insert_eq.
    + by rewrite lookup_insert_ne.
  - intros i c s Hi. destruct (decide (h = c)) as [<-|Hne].
    + rewrite lookup_insert_eq. congruence.
    + rewrite lookup_insert_ne by done. by apply Hpend.
Qed.

Lemma step_wf s o s' : wf (world s) → step s o s' → wf (world s').
Proof.
  intros Hwf Hst. destruct Hst as [w l h w' H|w l h w' Hh H|w l m mq w' H|w l h st w' Hh H];
    simpl in *.
  - rewrite Acquire_eq in H. simplify_eq. by apply acquired_wf.
  - destruct (Release_run h w Hwf Hh) as (w2 & H2 & ? & _).
    rewrite H in H2. by simplify_eq.
  - destruct (SetMax_run m mq w Hwf) as (w2 & H2 & ? & _).
    rewrite H in H2. by simplify_eq.
  - by eapply recv_run.
Qed.

Lemma reachable_wf P m mq s : reachable P m mq s → wf (world s).
Proof. induction 1; [apply wf_New|]. by eapply step_wf. Qed.

Lemma step_spec s o s' :
  wf (world s) → step s o s' → specStep (q (world s)) o (q (world s')).
Proof.
  intros Hwf Hst. destruct Hst as [w l h w' H|w l h w' Hh H|w l m mq w' H|w l h st w' Hh H];
    simpl in *.
  - rewrite Acquire_eq in H. simplify_eq; simpl. constructor.
    by apply core_fresh, wf_core.
  - destruct (Release_run h w Hwf Hh) as (w2 & H2 & _ & _ & Hq & _).
    rewrite H in H2. simplify_eq.
    rewrite Hq. case_decide as Hd; [constructor|]. apply SpecReleased.
    intros Hin. by apply Hd, (core_listed _ (wf_core _ Hwf)).
  - destruct (SetMax_run m mq w Hwf) as (w2 & H2 & _ & _ & Hq & _).
    rewrite H in H2. simplify_eq. rewrite Hq. constructor.
  - destruct (recv_run _ _ _ _ Hwf H) as (_ & -> & _). constructor.
Qed.

Lemma reachable_ind_spec P m mq (I : Queue → Prop) s :
  I (mkQueue m [] [] mq) →
  (∀ x o x', I x → P o → specStep x o x' → I x') →
  reachable P m mq s → I (q (world s)).
Proof.
  intros H0 Hs Hr. induction Hr as [|s o s' Hr IH Ho Hst]; [done|].
  eapply Hs; [exact IH|exact Ho|]. apply step_spec; [by eapply reachable_wf|done].
Qed.

(** ** Lengths *)

Lemma length_settle x :
  0 < max x → Z.of_nat (length (active x)) ≤ max x →
  Z.of_nat (length (active (settle x))) ≤ max x.
Proof.
  intros H0 H. unfold settle, freeSlots; simpl. rewrite length_app, length_take.
  destruct (Z.eqb_spec (max x) 0); lia.
Qed.

Lemma length_queued_settle x : (length (queued (settle x)) ≤ length (queued x))%nat.
Proof. unfold settle; simpl. rewrite length_drop. lia. Qed.

Lemma length_without_le c l : (length (without c l) ≤ length l)%nat.
Proof. apply length_filter. Qed.

(** The limits are respected: at most [max] active and [maxQueued] waiting. *)
Definition bounded (x : Queue) : Prop :=
  (0 < max x → Z.of_nat (length (active x)) ≤ max x) ∧
  (0 < maxQueued x → Z.of_nat (length (queued x)) ≤ maxQueued x).

Lemma specAcquire_bounded c x : bounded x → bounded (specAcquire c x).
Proof.
  intros [Ha Hq]. unfold specAcquire, hasSlot, queueFull.
  destruct ((_ <? max x) || _) eqn:E1; [|destruct (_ && _) eqn:E2];
    unfold bounded; simpl; [|done|]; rewrite length_app; simpl.
  - apply orb_true_iff in E1 as [E1|E1]; [apply Z.ltb_lt in E1|apply Z.eqb_eq in E1]; lia.
  - apply andb_false_iff in E2 as [E2|E2]; [apply Z.ltb_ge in E2|apply Z.leb_gt in E2]; lia.
Qed.

Lemma settle_bounded x : bounded x → bounded (settle x).
Proof.
  intros [Ha Hq]. split; simpl; intros H.
  - by apply length_settle; auto.
  - pose proof (length_queued_settle x). simpl in *. specialize (Hq H). lia.
Qed.

Lemma specRelease_bounded c x : bounded x → bounded (specRelease c x).
Proof.
  intros [Ha Hq]. unfold specRelease.
  case_decide as Hd; [|apply settle_bounded]; unfold bounded; simpl.
  - pose proof (length_without_le c (queued x)). split; [done|]. intros Hp. specialize (Hq Hp). lia.
  - pose proof (length_without_le c (active x)). split; [|done]. intros Hp. specialize (Ha Hp). lia.
Qed.

Lemma specStep_limits x o x' :
  fixedLimits o → specStep x o x' → max x' = max x ∧ maxQueued x' = maxQueued x.
Proof.
  intros Hf Hs. revert Hf. destruct Hs; simpl; intros Hf; try done;
    unfold specAcquire, specRelease; repeat case_match; done.
Qed.

Lemma specStep_bounded x o x' : bounded x → fixedLimits o → specStep x o x' → bounded x'.
Proof.
  intros Hb Hf Hs. revert Hb Hf. destruct Hs; simpl; intros Hb Hf;
    auto using specAcquire_bounded, specRelease_bounded. done.
Qed.

Lemma reachable_limits m mq s :
  reachable fixedLimits m mq s → max (q (world s)) = m ∧ maxQueued (q (world s)) = mq.
Proof.
  apply (reachable_ind_spec _ m mq (fun x => max x = m ∧ maxQueued x = mq)); [done|].
  intros x o x' [<- <-] Hf Hs. by apply (specStep_limits x o x').
Qed.

Lemma reachable_bounded m mq s : reachable fixedLimits m mq s → bounded (q (world s)).
Proof.
  apply (reachable_ind_spec fixedLimits m mq bounded); [split; simpl; lia|].
  intros x o x' Hb Hf Hs. by eapply specStep_bounded.
Qed.

Lemma specStep_negative x o x' :
  max x < 0 → active x = [] → fixedLimits o → specStep x o x' → active x' = [].
Proof.
  assert (∀ y, max y < 0 → active y = [] → active (settle y) = []) as Hset.
  { intros y Hm Ha. unfold settle, freeSlots; simpl. rewrite Ha.
    destruct (Z.eqb_spec (max y) 0); [lia|]. by rewrite Z2Nat.nonpos by (simpl; lia). }
  intros Hm Ha Hf Hs. revert Hm Ha Hf. destruct Hs as [x c _|x h|x h _|x m' mq'|x h];
    simpl; intros Hm Ha Hf; try done.
  - unfold specAcquire, hasSlot. rewrite Ha; simpl.
    replace (Z.of_nat 0 <? max x) with false by (symmetry; apply Z.ltb_ge; lia).
    replace (max x =? 0) with false by (symmetry; apply Z.eqb_neq; lia).
    simpl. destruct (queueFull x); simpl; congruence.
  - unfold specRelease. case_decide; [done|]. apply Hset; [done|]. simpl. unfold without.
    by rewrite Ha, filter_nil.
Qed.

(** ** Wake-ups *)

Definition okCount (c : nat) (l : list (nat * Status)) : nat :=
  length (filter (fun p => p.1 = c ∧ Ok p.2 = true) l).

(** Every active item has its [Ok] either waiting in its channel or received
    exactly once; a waiting item has received none. *)
Definition wokenOnce (s : Sys) : Prop :=
  (∀ c, c ∈ active (q (world s)) →
     chans (world s) !! c = Some (mkChan (Some okStatus) true) ∧ okCount c (log s) = 0%nat ∨
     chans (world s) !! c = Some (mkChan None true) ∧ okCount c (log s) = 1%nat) ∧
  (∀ c, c ∈ queued (q (world s)) → okCount c (log s) = 0%nat) ∧
  (∀ c, (next (world s) ≤ c)%nat → okCount c (log s) = 0%nat).

Lemma wokenOnce_wakes w w' l : wakes w w' → wokenOnce (mkSys w l) → wokenOnce (mkSys w' l).
Proof.
  intros (Ha & Hq & Hn & _) (Ia & Iq & In). split; [|split]; simpl in *.
  - intros c [[Hc ->]|[Hc ->]]%Ha; [by apply Ia|]. left. naive_solver.
  - intros c [Hc|Hc]%Hq; auto.
  - intros c Hc. apply In. lia.
Qed.

Lemma okCount_cons c d s l :
  okCount c ((d, s) :: l) =
    ((if decide (d = c ∧ Ok s = true) then 1 else 0) + okCount c l)%nat.
Proof.
  unfold okCount. rewrite filter_cons. repeat case_decide; simpl in *; tauto || lia.
Qed.

Lemma recv_wokenOnce h w l s w' :
  wf w → is_Some (handles w !! h) → recv h w = Done (s, w') →
  wokenOnce (mkSys w l) → wokenOnce (mkSys w' ((h, s) :: l)).
Proof.
  intros Hwf [ih Hih] Hr (Ia & Iq & In). pose proof (wf_core _ Hwf) as Hc.
  destruct (recv_run _ _ _ _ Hwf Hr) as (_ & Hq & Hn & _).
  destruct (core_handles _ Hc _ _ Hih) as [_ Hs%(core_next _ Hc)].
  destruct (proj1 (NoDup_app _ _) (core_nodup _ Hc)) as (_ & Hdisj & _).
  assert (∀ c, c ≠ h → chans w' !! c = chans w !! c) as Hne.
  { intros c Hc'. unfold recv in Hr. repeat case_match; simplify_eq; [|done].
    simpl. by rewrite lookup_insert_ne. }
  unfold wokenOnce; simpl in *. rewrite Hq, Hn. setoid_rewrite okCount_cons.
  split; [|split]; intros c Hin.
  - destruct (decide (c = h)) as [->|Hch].
    + unfold recv in Hr. destruct (Ia h Hin) as [[Hk Hz]|[Hk Hz]]; rewrite Hk in Hr;
        simplify_eq/=; rewrite Hz.
      * right. rewrite lookup_insert_eq. by case_decide; naive_solver.
      * right. split; [done|]. rewrite decide_False; naive_solver.
    + rewrite (Hne c Hch). rewrite decide_False by naive_solver. by apply Ia.
  - rewrite (Iq c Hin). rewrite decide_False; [done|]. intros [<- Hok].
    apply list_elem_of_lookup in Hin as [i Hi]. pose proof (core_open _ Hc) as Hop.
    rewrite Forall_lookup in Hop. destruct (Hop i h Hi) as [b Hb].
    unfold recv in Hr. rewrite Hb in Hr. destruct b as [s'|]; simplify_eq/=.
    destruct (wf_pending _ Hwf i h s Hi Hb) as (_ & _ & HO & _). congruence.
  - rewrite (In c Hin). rewrite decide_False; [done|]. intros [<- _]. lia.
Qed.

Lemma reachable_wokenOnce P m mq s : reachable P m mq s → wokenOnce s.
Proof.
  induction 1 as [|s o s' Hr IH Ho Hst].
  { split; [|split]; simpl; try done; intros c Hc; elem_nil. }
  apply reachable_wf in Hr.
  destruct Hst as [w l h w' H|w l h w' Hh H|w l lm lmq w' H|w l h st w' Hh H]; simpl in *.
  - rewrite Acquire_eq in H. simplify_eq. eapply wokenOnce_wakes; [|done].
    apply acquired_wakes. by destruct Hr.
  - destruct (Release_run h w Hr Hh) as (w2 & H2 & _ & Hw & _).
    rewrite H in H2. simplify_eq. by eapply wokenOnce_wakes.
  - destruct (SetMax_run lm lmq w Hr) as (w2 & H2 & _ & Hw & _).
    rewrite H in H2. simplify_eq. by eapply wokenOnce_wakes.
  - by eapply recv_wokenOnce.
Qed.

(** The ledger of a handle, listed or not: the [Ok]s it received and the one that may
    still be in its channel are one at most, and none while its channel is open. *)
Definition inBuffer (w : World) (c : nat) : nat :=
  match chans w !! c with
  | Some (mkChan (Some st) _) => if Ok st then 1 else 0
  | _ => 0
  end.
Definition ledger (s : Sys) : Prop := ∀ c,
  (okCount c (log s) + inBuffer (world s) c ≤ 1)%nat ∧
  (sendable (world s) c → okCount c (log s) + inBuffer (world s) c = 0)%nat.

Lemma ledger_wakes w w' l : wakes w w' → ledger (mkSys w l) → ledger (mkSys w' l).
Proof.
  intros (_ & _ & _ & Hs) HL c. destruct (HL c) as [H1 H2]. unfold ledger, sendable, isOpen, inBuffer in *; simpl in *.
  destruct (Hs c) as [->|(Hsend & st & b & -> & Hok)]; [done|].
  specialize (H2 Hsend). split; [destruct (Ok st); lia|].
  intros [?|[b' [= _ ->]]]; [done|]. rewrite Hok by done. lia.
Qed.

Lemma ledger_recv h w l s w' : recv h w = Done (s, w') → ledger (mkSys w l) → ledger (mkSys w' ((h, s) :: l)).
Proof.
  intros Hr HL c. destruct (HL c) as [H1 H2].
  unfold ledger, sendable, isOpen, inBuffer, recv in *; simpl in *. rewrite okCount_cons.
  destruct (decide (h = c)) as [->|Hne].
  - destruct (chans w !! c) as [[[st|] cl]|] eqn:E; simpl in Hr; [| |done].
    + injection Hr as <- <-. simpl. rewrite lookup_insert_eq. split.
      * case_decide as Hd; [destruct Hd as [_ Hok]; rewrite Hok in H1; lia|].
        destruct (Ok st); [by destruct Hd|lia].
      * intros [?|[b [= _ ->]]]; [done|]. specialize (H2 ltac:(right; by eexists)).
        case_decide as Hd; [destruct Hd as [_ Hok]; rewrite Hok in H2; lia|lia].
    + destruct cl; [|done]. injection Hr as <- <-. rewrite E. rewrite decide_False by (intros [_ ?]; done). done.
  - rewrite decide_False by (intros [? _]; done).
    assert (chans w' !! c = chans w !! c) as ->; [|done]. clear -Hr Hne.
    repeat case_match; simplify_eq; [|done]. simpl. by rewrite lookup_insert_ne.
Qed.

Lemma reachable_ledger P m mq s : reachable P m mq s → ledger s.
Proof.
  induction 1 as [|s o s' Hr IH Ho Hst].
  { intros c. unfold inBuffer, okCount; simpl. rewrite lookup_empty. split; [simpl; lia|done]. }
  apply reachable_wf in Hr.
  destruct Hst as [w l h w' H|w l h w' Hh H|w l lm lmq w' H|w l h st w' Hh H]; simpl in *.
  - rewrite Acquire_eq in H. simplify_eq. eapply ledger_wakes; [|done].
    apply acquired_wakes. by destruct Hr.
  - destruct (Release_run h w Hr Hh) as (w2 & H2 & _ & Hw & _).
    rewrite H in H2. simplify_eq. by eapply ledger_wakes.
  - destruct (SetMax_run lm lmq w Hr) as (w2 & H2 & _ & Hw & _).
    rewrite H in H2. simplify_eq. by eapply ledger_wakes.
  - by eapply ledger_recv.
Qed.

(** ** Releasing several handles *)

Fixpoint releaseEach (hs : list nat) : M unit :=
  match hs with
  | [] => mret tt
  | h :: hs' => Release h;; releaseEach hs'
  end.

Lemma specRelease_active c x :
  c ∈ active x → c ∉ queued x → NoDup (active x) →
  0 < max x → Z.of_nat (length (active x)) ≤ max x →
  queued x = [] ∨ hasSlot x = false →
  specRelease c x =
    mkQueue (max x) (without c (active x) ++ take 1 (queued x)) (drop 1 (queued x)) (maxQueued x).
Proof.
  intros Hin Hnq Hnd Hm Hle Hwork. unfold specRelease. rewrite decide_False by done.
  unfold settle; simpl.
  assert (length (without c (active x)) = (length (active x) - 1)%nat) as Hlen.
  { apply list_elem_of_split in Hin as (l1 & l2 & Heq). rewrite Heq in *.
    apply NoDup_app in Hnd as (_ & Hd1 & Hd2). apply NoDup_cons in Hd2 as [Hd2 _].
    unfold without. rewrite filter_app, filter_cons_False by (intros Hn; by apply Hn).
    fold (without c l1) (without c l2). rewrite (without_notin c l2) by done.
    rewrite (without_notin c l1); [|intros Hl; apply (Hd1 c Hl); by left].
    rewrite !length_app; simpl. lia. }
  unfold freeSlots; simpl. destruct (Z.eqb_spec (max x) 0); [lia|]. rewrite Hlen.
  destruct Hwork as [->|Hs]; [by rewrite !take_nil, !drop_nil|].
  unfold hasSlot in Hs. apply orb_false_iff in Hs as [Hs _]. apply Z.ltb_ge in Hs.
  assert (0 < length (active x))%nat by lia.
  by replace (Z.to_nat (max x - Z.of_nat (length (active x) - 1))) with 1%nat by lia.
Qed.

Lemma releaseEach_run hs w :
  wf w → NoDup hs → (∀ h, h ∈ hs → h ∈ active (q w)) →
  0 < max (q w) → Z.of_nat (length (active (q w))) ≤ max (q w) →
  ∃ w', releaseEach hs w = Done (tt, w') ∧ wf w' ∧
    queued (q w') = drop (length hs) (queued (q w)) ∧
    (∀ c, c ∈ active (q w) → c ∉ hs → c ∈ active (q w')) ∧
    (∀ c, c ∈ take (length hs) (queued (q w)) → c ∈ active (q w')).
Proof.
  revert w. induction hs as [|h hs IH]; intros w Hwf Hnd Hin Hm Hle.
  { exists w. by split_and!. }
  apply NoDup_cons in Hnd as [Hnh Hnd]. assert (h ∈ active (q w)) as Hh by (apply Hin; by left).
  pose proof (wf_core _ Hwf) as Hc.
  assert (handles w !! h = Some (mkHandle h false)) as Hih.
  { apply (core_listed _ Hc), elem_of_app. by left. }
  destruct (Release_run h w Hwf (mk_is_Some _ _ Hih)) as (w1 & Hr & Hwf1 & _ & Hq & _).
  rewrite decide_True in Hq by done.
  destruct (proj1 (NoDup_app _ _) (core_nodup _ Hc)) as (Hnda & Hdisj & Hndq).
  rewrite specRelease_active in Hq; try done; [|by apply Hdisj|apply Hwf].
  destruct (IH w1 Hwf1 Hnd) as (w2 & Hr2 & Hwf2 & Hq2 & Hk2 & Ht2).
  { intros d Hd. rewrite Hq; simpl. apply elem_of_app. left. apply elem_of_without.
    split; [by intros ->|]. apply Hin. by right. }
  { by rewrite Hq. }
  { rewrite Hq; simpl. rewrite length_app, length_take.
    pose proof (length_without_lt _ _ Hh). lia. }
  exists w2. rewrite Hq in Hq2, Hk2, Ht2; simpl in *. split.
  { unfold mbind, M_bind. by rewrite Hr. }
  split; [done|]. rewrite Hq2, drop_drop. split; [done|].
  assert (∀ c, c ∈ active (q w) → c ∉ h :: hs → c ∈ active (q w2)) as Hkeep.
  { intros c Hc' [Hch Hchs]%not_elem_of_cons. apply Hk2; [|done].
    apply elem_of_app. left. by apply elem_of_without. }
  split; [done|]. intros c Hc'.
  destruct (queued (q w)) as [|d rest] eqn:Hqu; simpl in *; [elem_nil|].
  rewrite take_0, drop_0 in *. apply elem_of_cons in Hc' as [->|Hc']; [|by apply Ht2].
  apply Hk2; [apply elem_of_app; right; by left|].
  intros Hd. apply (Hdisj d); [apply Hin; by right|by left].
Qed.

(** What is promoted was not told anything in that step. *)
Lemma promoted_unheard s o s' c :
  wf (world s) → step s o s' → c ∈ queued (q (world s)) → c ∈ active (q (world s')) →
  okCount c (log s') = okCount c (log s).
Proof.
  intros Hwf Hst Hq Ha. destruct Hst as [| | |w l h st w' Hh H]; simpl in *; try done.
  destruct (recv_run _ _ _ _ Hwf H) as (_ & Eq & _). rewrite Eq in Ha.
  destruct (proj1 (NoDup_app _ _) (core_nodup _ (wf_core _ Hwf))) as (_ & Hdisj & _). by destruct (Hdisj c).
Qed.

(** ** Running a schedule *)

Definition initSys (m mq : Z) : Sys := mkSys (New m mq) [].

Definition exec (s : Sys) (o : op) : option Sys :=
  let w := world s in
  match o with
  | OpAcquire =>
      match Acquire w with Done (_, w') => Some (mkSys w' (log s)) | _ => None end
  | OpRelease h =>
      match handles w !! h, Release h w with
      | Some _, Done (_, w') => Some (mkSys w' (log s))
      | _, _ => None
      end
  | OpSetMax m mq =>
      match SetMax m mq w with Done (_, w') => Some (mkSys w' (log s)) | _ => None end
  | OpRecv h =>
      match handles w !! h, recv h w with
      | Some _, Done (st, w') => Some (mkSys w' ((h, st) :: log s))
      | _, _ => None
      end
  end.

Fixpoint execAll (s : Sys) (os : list op) : option Sys :=
  match os with
  | [] => Some s
  | o :: os' => match exec s o with Some s' => execAll s' os' | None => None end
  end.

Lemma exec_step s o s' : exec s o = Some s' → step s o s'.
Proof.
  destruct s as [w l], o as [|h|m mq|h]; simpl; intros H; repeat case_match; simplify_eq;
    try match goal with u : () |- _ => destruct u end; econstructor; eauto.
Qed.

Lemma execAll_reachable P m mq s os s' :
  reachable P m mq s → Forall P os → execAll s os = Some s' → reachable P m mq s'.
Proof.
  revert s. induction os as [|o os IH]; simpl; intros s Hr Hp He; [by simplify_eq|].
  apply Forall_cons in Hp as [Ho Hp]. destruct (exec s o) as [s1|] eqn:E; [|done].
  eapply IH; [|done|done]. eapply ReachStep; [done|done|by apply exec_step].
Qed.

(** One slot, two waiting places; three connections, the first has been told
    [Ok] and the second its position. *)
Definition demoOps : list op :=
  [OpAcquire; OpAcquire; OpRecv 0%nat; OpRecv 1%nat; OpAcquire].
Definition demo : Sys := default (initSys 1 2) (execAll (initSys 1 2) demoOps).

Lemma demo_reachable : reachable fixedLimits 1 2 demo.
Proof.
  apply (execAll_reachable _ _ _ (initSys 1 2) demoOps); [constructor| |vm_compute; reflexivity].
  by repeat constructor.
Defined.

(** ** Properties *)

(** C1: In every reachable state no operation of the queue panics (no send on
    or close of a closed channel, no empty head) and none blocks while the
    mutex is held: [Acquire], [SetMax] and [Release] of a handle all return,
    and no receive panics. *)
Theorem queue_never_stuck P m mq s :
  reachable P m mq s →
  (∃ h w', Acquire (world s) = Done (h, w')) ∧
  (∀ m' mq', ∃ w', SetMax m' mq' (world s) = Done (tt, w')) ∧
  (∀ h, is_Some (handles (world s) !! h) → ∃ w', Release h (world s) = Done (tt, w')) ∧
  (∀ h e, recv h (world s) ≠ Panic e).
Proof.
  intros Hwf%reachable_wf. split_and!.
  - rewrite Acquire_eq. eauto.
  - intros m' mq'. destruct (SetMax_run m' mq' _ Hwf) as (w' & -> & _). eauto.
  - intros h Hh. destruct (Release_run h _ Hwf Hh) as (w' & -> & _). eauto.
  - intros h e. unfold recv. repeat case_match; congruence.
Qed.

Lemma queue_never_stuck_witness :
  is_Some (handles (world demo) !! 1%nat) ∧ ∃ w', Release 1 (world demo) = Done (tt, w').
Proof.
  assert (is_Some (handles (world demo) !! 1%nat)) as H by (vm_compute; eauto).
  split; [exact H|]. exact (proj1 (proj2 (proj2 (queue_never_stuck _ _ _ _ demo_reachable))) 1%nat H).
Defined.

(** C2: Refinement. Whatever channels, handles and loops the code uses, each
    step changes the active and waiting lists as the reference semantics
    [specStep] says: a new item goes to the active list, to the end of the
    waiting list or nowhere; a release takes the item out and moves the head of
    the waiting list over in order, as far as there are slots. *)
Theorem queue_refines_reference P m mq s o s' :
  reachable P m mq s → step s o s' → specStep (q (world s)) o (q (world s')).
Proof. intros Hwf%reachable_wf. by apply step_spec. Qed.

Lemma queue_refines_reference_witness :
  ∃ s', exec demo (OpRelease 0%nat) = Some s' ∧
        specStep (q (world demo)) (OpRelease 0%nat) (q (world s')).
Proof.
  eexists. split; [vm_compute; reflexivity|].
  apply (queue_refines_reference _ _ _ _ _ _ demo_reachable), exec_step.
  vm_compute; reflexivity.
Defined.

(** C3: With limits fixed at creation the number of active items never exceeds
    a positive [max] and the number of waiting items never exceeds a positive
    [maxQueued], in every interleaving. *)
Theorem queue_respects_limits m mq s :
  reachable fixedLimits m mq s →
  (0 < m → Z.of_nat (length (active (q (world s)))) ≤ m) ∧
  (0 < mq → Z.of_nat (length (queued (q (world s)))) ≤ mq).
Proof.
  intros Hr. destruct (reachable_limits _ _ _ Hr) as [Hm Hmq].
  destruct (reachable_bounded _ _ _ Hr) as [Ha Hq]. rewrite Hm in Ha. by rewrite Hmq in Hq.
Qed.

Lemma queue_respects_limits_witness :
  Z.of_nat (length (active (q (world demo)))) ≤ 1 ∧
  Z.of_nat (length (queued (q (world demo)))) = 2.
Proof.
  split; [|vm_compute; reflexivity].
  apply (queue_respects_limits 1 2 demo demo_reachable). lia.
Defined.

(** Work conservation, through any change of the limits: somebody waits
    only if there is a limit and all its slots are taken. *)
Theorem queue_work_conserving P m mq s :
  reachable P m mq s → queued (q (world s)) ≠ [] →
  max (q (world s)) ≠ 0 ∧ max (q (world s)) ≤ Z.of_nat (length (active (q (world s)))).
Proof.
  intros Hwf%reachable_wf Hne. destruct (wf_work _ Hwf) as [|Hs]; [done|].
  unfold hasSlot in Hs. apply orb_false_iff in Hs as [H1%Z.ltb_ge H2%Z.eqb_neq]. done.
Qed.

Lemma queue_work_conserving_witness :
  max (q (world demo)) ≠ 0 ∧
  max (q (world demo)) ≤ Z.of_nat (length (active (q (world demo)))).
Proof.
  apply (queue_work_conserving _ _ _ _ demo_reachable). vm_compute. discriminate.
Defined.

(** The notice waiting in the channel of a queued connection always shows
    its current position (counted from the surplus of active connections), and
    a total that is past this position and not above the current one. *)
Theorem queue_position_accurate P m mq s i c st :
  reachable P m mq s →
  queued (q (world s)) !! i = Some c →
  chans (world s) !! c = Some (mkChan (Some st) false) →
  Index st = Z.of_nat (length (active (q (world s)))) - max (q (world s)) + Z.of_nat i ∧
  Index st < Max st ≤ Z.of_nat (length (active (q (world s)))) - max (q (world s))
                      + Z.of_nat (length (queued (q (world s)))) ∧
  Ok st = false ∧ Full st = false.
Proof. intros Hwf%reachable_wf. apply (wf_pending _ Hwf). Qed.

Lemma queue_position_accurate_witness :
  queued (q (world demo)) !! 1%nat = Some 2%nat ∧
  Index (queuedStatus 1 2) = Z.of_nat (length (active (q (world demo))))
                             - max (q (world demo)) + Z.of_nat 1.
Proof.
  split; [vm_compute; reflexivity|].
  apply (queue_position_accurate _ _ _ demo 1 2 (queuedStatus 1 2) demo_reachable);
    vm_compute; reflexivity.
Defined.

(** C19: No lost and no double wake-up, for every handle there ever was, released ones
    included.  No handle ever receives [Ok] more than once.  The [Ok] of an active handle is
    either still in its (closed) channel and was not received, or the channel is empty and it
    was received exactly once; a queued handle has never received [Ok].  A step that takes a
    handle from the waiting to the active list leaves [Ok] in its channel, still to be
    received. *)
Theorem queue_wakeup_exactly_once P m mq s :
  reachable P m mq s →
  (∀ c, (okCount c (log s) ≤ 1)%nat) ∧
  (∀ c, c ∈ active (q (world s)) →
     chans (world s) !! c = Some (mkChan (Some okStatus) true) ∧ okCount c (log s) = 0%nat ∨
     chans (world s) !! c = Some (mkChan None true) ∧ okCount c (log s) = 1%nat) ∧
  (∀ c, c ∈ queued (q (world s)) → okCount c (log s) = 0%nat) ∧
  (∀ o s' c, P o → step s o s' → c ∈ queued (q (world s)) → c ∈ active (q (world s')) →
     chans (world s') !! c = Some (mkChan (Some okStatus) true) ∧ okCount c (log s') = 0%nat).
Proof.
  intros Hr. destruct (reachable_wokenOnce _ _ _ _ Hr) as (Ha & Hq & _). split_and!; [|done|done|].
  - intros c. destruct (reachable_ledger _ _ _ _ Hr c). lia.
  - intros o s' c Ho Hst Hqc Hac.
    destruct (reachable_wokenOnce _ _ _ _ (ReachStep _ _ _ _ _ _ Hr Ho Hst)) as (Ha' & _).
    destruct (Ha' c Hac) as [?|[_ H1]]; [done|]. exfalso. specialize (Hq c Hqc).
    apply (promoted_unheard s o s' c) in Hac; [|by eapply reachable_wf|done|done]. lia.
Qed.

(** The second connection waits, is promoted when the first leaves, hears of it and leaves. *)
Definition demoWoken : Sys :=
  default (initSys 1 2) (execAll (initSys 1 2) (demoOps ++ [OpRelease 0%nat; OpRecv 1%nat; OpRelease 1%nat])).

Lemma demoWoken_reachable : reachable fixedLimits 1 2 demoWoken.
Proof.
  apply (execAll_reachable _ _ _ (initSys 1 2) (demoOps ++ [OpRelease 0%nat; OpRecv 1%nat; OpRelease 1%nat]));
    [constructor| |vm_compute; reflexivity].
  by repeat constructor.
Defined.

Lemma queue_wakeup_exactly_once_witness :
  (okCount 1 (log demoWoken) ≤ 1)%nat ∧ okCount 1 (log demoWoken) ≠ 0%nat ∧
  ∃ s', step demo (OpRelease 0%nat) s' ∧ chans (world s') !! 1%nat = Some (mkChan (Some okStatus) true).
Proof.
  split; [exact (proj1 (queue_wakeup_exactly_once _ _ _ _ demoWoken_reachable) 1%nat)|].
  split; [vm_compute; discriminate|].
  destruct (exec demo (OpRelease 0%nat)) as [s'|] eqn:E; [|vm_compute in E; discriminate].
  exists s'. split; [by apply exec_step|].
  destruct (queue_wakeup_exactly_once _ _ _ _ demo_reachable) as (_ & _ & _ & Hp).
  apply (Hp (OpRelease 0%nat) s' 1%nat); [exact I|by apply exec_step|vm_compute; left|].
  assert (match exec demo (OpRelease 0%nat) with Some s' => active (q (world s')) | None => [] end = [1%nat]) as Ea
    by (vm_compute; reflexivity).
  rewrite E in Ea. rewrite Ea. left.
Defined.

(** [Release] is idempotent: releasing a handle again changes nothing. *)
Theorem queue_release_idempotent P m mq s h w' :
  reachable P m mq s → Release h (world s) = Done (tt, w') →
  Release h w' = Done (tt, w').
Proof.
  intros Hwf%reachable_wf Hr.
  assert (is_Some (handles (world s) !! h)) as Hh.
  { unfold Release in Hr. destruct (handles (world s) !! h); [eauto|done]. }
  destruct (Release_run h _ Hwf Hh) as (w2 & H2 & _ & _ & _ & Hhs & _).
  rewrite Hr in H2. simplify_eq. unfold Release. by rewrite Hhs, lookup_insert_eq.
Qed.

Lemma queue_release_idempotent_witness :
  ∃ w', Release 0 (world demo) = Done (tt, w') ∧ Release 0 w' = Done (tt, w').
Proof.
  eexists. split; [vm_compute; reflexivity|].
  apply (queue_release_idempotent _ _ _ _ 0 _ demo_reachable). vm_compute; reflexivity.
Defined.

(** Progress in order of arrival. Releasing [n] of the active handles of a
    full queue returns, and the first [n] waiting items (those that arrived
    first) have become active; exactly the others still wait. *)
Theorem queue_releases_admit_in_order m mq s hs :
  reachable fixedLimits m mq s → 0 < m →
  NoDup hs → (∀ h, h ∈ hs → h ∈ active (q (world s))) →
  ∃ w', releaseEach hs (world s) = Done (tt, w') ∧
    queued (q w') = drop (length hs) (queued (q (world s))) ∧
    (∀ c, c ∈ take (length hs) (queued (q (world s))) → c ∈ active (q w')).
Proof.
  intros Hr Hm Hnd Hin. destruct (reachable_limits _ _ _ Hr) as [Hmax _].
  destruct (reachable_bounded _ _ _ Hr) as [Hb _].
  destruct (releaseEach_run hs (world s)) as (w' & ? & _ & ? & _ & ?); eauto;
    [by eapply reachable_wf| |apply Hb]; by rewrite Hmax.
Qed.

Lemma queue_releases_admit_in_order_witness :
  ∃ w', releaseEach [0%nat] (world demo) = Done (tt, w') ∧
    queued (q w') = drop 1 (queued (q (world demo))) ∧
    (∀ c, c ∈ take 1 (queued (q (world demo))) → c ∈ active (q w')).
Proof.
  apply (queue_releases_admit_in_order 1 2 demo [0%nat] demo_reachable); [lia| |].
  - apply NoDup_singleton.
  - intros h ->%list_elem_of_singleton. vm_compute. left.
Defined.

(** A negative limit is not treated as "no limit": with [max < 0] nobody
    ever becomes active, every connection waits for ever. *)
Theorem queue_negative_max_starves m mq s :
  reachable fixedLimits m mq s → m < 0 → active (q (world s)) = [].
Proof.
  intros Hr Hm.
  apply (reachable_ind_spec fixedLimits m mq (fun x => max x < 0 ∧ active x = [])) in Hr;
    [tauto|done|].
  intros x o x' [Hx Ha] Hf Hs. destruct (specStep_limits _ _ _ Hf Hs) as [Hm' _].
  split; [lia|]. by eapply specStep_negative.
Qed.

Definition demoNegative : Sys :=
  default (initSys (-1) 0) (execAll (initSys (-1) 0) [OpAcquire; OpAcquire]).

Lemma queue_negative_max_starves_witness :
  active (q (world demoNegative)) = [] ∧ length (queued (q (world demoNegative))) = 2%nat.
Proof.
  split; [|vm_compute; reflexivity].
  apply (queue_negative_max_starves (-1) 0); [|lia].
  apply (execAll_reachable _ _ _ (initSys (-1) 0) [OpAcquire; OpAcquire]);
    [constructor|by repeat constructor|vm_compute; reflexivity].
Defined.

(** A [maxQueued] of 0 means "no bound": a connection that finds no free
    slot is then always queued, at the end, and never refused. *)
Theorem queue_zero_maxQueued_never_refuses m s :
  reachable fixedLimits m 0 s → hasSlot (q (world s)) = false →
  ∃ w', Acquire (world s) = Done (next (world s), w') ∧
        queued (q w') = queued (q (world s)) ++ [next (world s)].
Proof.
  intros Hr Hs. destruct (reachable_limits _ _ _ Hr) as [_ Hmq].
  exists (acquired (world s)). split; [apply Acquire_eq|].
  unfold acquired, specAcquire, queueFull; simpl. by rewrite Hs, Hmq.
Qed.

Definition demoUnbounded : Sys :=
  default (initSys 1 0) (execAll (initSys 1 0) [OpAcquire; OpAcquire]).

Lemma queue_zero_maxQueued_never_refuses_witness :
  ∃ w', Acquire (world demoUnbounded) = Done (next (world demoUnbounded), w') ∧
        queued (q w') = queued (q (world demoUnbounded)) ++ [next (world demoUnbounded)].
Proof.
  apply (queue_zero_maxQueued_never_refuses 1); [|vm_compute; reflexivity].
  apply (execAll_reachable _ _ _ (initSys 1 0) [OpAcquire; OpAcquire]);
    [constructor|by repeat constructor|vm_compute; reflexivity].
Defined.

End AdmissionQueue.
