(* ===== verification/Api.v ===== *)
(** * API objects: [api/v1alpha1] and the Gateway API types it builds on

    A Go pointer to a scalar is an [option].  The Gateway API and Kubernetes
    types are records with the fields the sources read or write. *)
From S2P Require Import Prelude GoStd.
Open Scope Z_scope.

(** ** Kubernetes and Gateway API objects *)

(** [types.NamespacedName] *)
Record NamespacedName := mkNN { nn_Namespace : string; nn_Name : string }.

#[export] Instance NamespacedName_eq_dec : EqDecision NamespacedName.
Proof. solve_decision. Defined.
#[export] Instance NamespacedName_countable : Countable NamespacedName.
Proof.
  apply (inj_countable' (fun k => (nn_Namespace k, nn_Name k)) (fun p => mkNN p.1 p.2)).
  by intros [].
Defined.

(** Its [String] method. *)
Definition nnString (k : NamespacedName) : string :=
  nn_Namespace k +:+ "/" +:+ nn_Name k.

Record ObjectMeta := mkMeta {
  om_Namespace : string;
  om_Name : string;
  om_Generation : Z;
  om_CreationTimestamp : Z;
  om_Labels : gmap string string }.

(** [metav1.Condition]; times are Unix nanoseconds. *)
Record Condition := mkCondition {
  c_Type : string;
  c_Status : string;
  c_ObservedGeneration : Z;
  c_LastTransitionTime : Z;
  c_Reason : string;
  c_Message : string }.

#[export] Instance Condition_eq_dec : EqDecision Condition.
Proof. solve_decision. Defined.

Definition ConditionTrue : string := "True".
Definition ConditionFalse : string := "False".

Record ParentReference := mkParentRef {
  pr_Group : option string;
  pr_Kind : option string;
  pr_Namespace : option string;
  pr_Name : string;
  pr_SectionName : option string;
  pr_Port : option Z }.

(** [gatewayv1.RouteGroupKind] *)
Record GroupKind := mkGroupKind { gk_Group : option string; gk_Kind : string }.

Record LabelSelectorRequirement := mkRequirement {
  lr_Key : string; lr_Operator : string; lr_Values : list string }.
Record LabelSelector := mkSelector {
  ls_MatchLabels : gmap string string;
  ls_MatchExpressions : list LabelSelectorRequirement }.

Record RouteNamespaces := mkRouteNamespaces {
  rn_From : option string; rn_Selector : option LabelSelector }.
Record AllowedRoutes := mkAllowedRoutes {
  ar_Namespaces : option RouteNamespaces; ar_Kinds : list GroupKind }.

Record Listener := mkListener {
  l_Name : string;
  l_Port : Z;
  l_Protocol : string;
  l_TLS : bool; (* the pointer is set *)
  l_AllowedRoutes : option AllowedRoutes }.

Record ListenerStatus := mkListenerStatus {
  lst_Name : string;
  lst_SupportedKinds : list GroupKind;
  lst_AttachedRoutes : Z;
  lst_Conditions : list Condition }.

Record Gateway := mkGateway {
  gw_Meta : ObjectMeta;
  gw_GatewayClassName : string;
  gw_Listeners : list Listener;
  gw_StatusConditions : list Condition;
  gw_StatusListeners : list ListenerStatus }.

Record ParametersReference := mkParametersRef {
  ref_Group : string; ref_Kind : string; ref_Name : string; ref_Namespace : option string }.
Record GatewayClass := mkGatewayClass {
  gc_Meta : ObjectMeta;
  gc_ControllerName : string;
  gc_ParametersRef : option ParametersReference;
  gc_StatusConditions : list Condition }.

Record BackendRef := mkBackendRef {
  br_Group : option string;
  br_Kind : option string;
  br_Name : string;
  br_Namespace : option string;
  br_Port : option Z;
  br_Weight : option Z }.

Record ReferenceGrantFrom := mkGrantFrom {
  gf_Group : string; gf_Kind : string; gf_Namespace : string }.
Record ReferenceGrantTo := mkGrantTo {
  gt_Group : string; gt_Kind : string; gt_Name : option string }.
Record ReferenceGrant := mkGrant {
  rg_Namespace : string;
  rg_From : list ReferenceGrantFrom;
  rg_To : list ReferenceGrantTo }.

Record Service := mkService { svc_Namespace : string; svc_Name : string }.

Record RouteParentStatus := mkParentStatus {
  ps_ParentRef : ParentReference;
  ps_ControllerName : string;
  ps_Conditions : list Condition }.

(** Reasons and condition types of the Gateway API. *)
Definition RouteReasonAccepted : string := "Accepted".
Definition RouteReasonNoMatchingParent : string := "NoMatchingParent".
Definition RouteReasonNotAllowedByListeners : string := "NotAllowedByListeners".
Definition RouteReasonResolvedRefs : string := "ResolvedRefs".
Definition RouteReasonInvalidKind : string := "InvalidKind".
Definition RouteReasonBackendNotFound : string := "BackendNotFound".
Definition RouteReasonRefNotPermitted : string := "RefNotPermitted".
Definition GatewayReasonAccepted : string := "Accepted".
Definition GatewayReasonProgrammed : string := "Programmed".
Definition GatewayReasonInvalid : string := "Invalid".
Definition GatewayReasonInvalidParameters : string := "InvalidParameters".
Definition ListenerReasonAccepted : string := "Accepted".
Definition ListenerReasonProgrammed : string := "Programmed".
Definition ListenerReasonUnsupportedValue : string := "UnsupportedValue".
Definition ConditionAccepted : string := "Accepted".
Definition ConditionProgrammed : string := "Programmed".
Definition ConditionResolvedRefs : string := "ResolvedRefs".
Definition NamespacesFromAll : string := "All".
Definition NamespacesFromSame : string := "Same".
Definition NamespacesFromSelector : string := "Selector".

(** ** Identity constants: [api/v1alpha1/identity.go], [groupversion_info.go] *)

Definition GroupVersionGroup : string := "gateway.rsync.zjusct.io".
Definition ProtocolRsync : string := "rsync.zjusct.io/rsync".
Definition ControllerName : string := "gateway.rsync.zjusct.io/rsync-gateway".
Definition RouteKind : string := "RsyncRoute".
Definition CoreGroup : string := "".
Definition RouteGroupKind : GroupKind := mkGroupKind (Some GroupVersionGroup) RouteKind.

(** ** [GatewayConfig]: [api/v1alpha1/gatewayconfig_types.go] *)

Record ThroughputFloorSpec := mkThroughputFloor {
  tf_MinBytes : option Z;
  tf_Window : option string;
  tf_Grace : option string }.

Record GatewayConfigSpec := mkGatewayConfigSpec {
  Motd : option string;
  RelayIdleTimeout : option string;
  RelayMaxDuration : option string;
  TCPKeepAlive : option string;
  DialTimeout : option string;
  PerIPMaxActiveConnections : option Z;
  MaxActiveConnections : option Z;
  MaxQueuedConnections : option Z;
  ThroughputFloor : option ThroughputFloorSpec }.

Record GatewayConfig := mkGatewayConfig {
  cfg_Meta : ObjectMeta;
  cfg_Spec : GatewayConfigSpec;
  cfg_StatusConditions : list Condition }.

(** ** [RsyncRoute]: [api/v1alpha1/rsyncroute_types.go] *)

Record RsyncRouteSpec := mkRouteSpec {
  ParentRefs : list ParentReference;
  ModuleNames : list string;
  BackendRefs : list BackendRef }.

Record RsyncRoute := mkRoute {
  r_Meta : ObjectMeta;
  r_Spec : RsyncRouteSpec;
  r_StatusParents : list RouteParentStatus }.

(** ** [Validate]: [api/v1alpha1/gatewayconfig_validation.go] *)

Definition ThroughputFloorWindow (s : GatewayConfigSpec) : option string :=
  f ← ThroughputFloor s; tf_Window f.
Definition ThroughputFloorGrace (s : GatewayConfigSpec) : option string :=
  f ← ThroughputFloor s; tf_Grace f.

Definition validateInt (name : string) (val : option Z) : result unit :=
  match val with
  | Some v => if v <? 0 then Err (name +:+ " must be non-negative, got " +:+ itoa v)
              else Ret tt
  | None => Ret tt
  end.

Definition validateDuration (name : string) (val : option string) : result unit :=
  match val with
  | None => Ret tt
  | Some d =>
      match parseDuration d with
      | Err e => Err (name +:+ ": invalid duration " +:+ quote d +:+ ": " +:+ e)
      | Ret dur => if dur <? 0 then Err (name +:+ " must be non-negative, got " +:+ d)
                   else Ret tt
      end
  end.

Definition Validate (s : GatewayConfigSpec) : result unit :=
  validateInt "perIPMaxActiveConnections" (PerIPMaxActiveConnections s) ;;
  validateInt "maxActiveConnections" (MaxActiveConnections s) ;;
  validateInt "maxQueuedConnections" (MaxQueuedConnections s) ;;
  validateDuration "relayIdleTimeout" (RelayIdleTimeout s) ;;
  validateDuration "relayMaxDuration" (RelayMaxDuration s) ;;
  validateDuration "tcpKeepAlive" (TCPKeepAlive s) ;;
  validateDuration "dialTimeout" (DialTimeout s) ;;
  validateDuration "throughputFloor.window" (ThroughputFloorWindow s) ;;
  validateDuration "throughputFloor.grace" (ThroughputFloorGrace s) ;;
  validateInt "throughputFloor.minBytes" (f ← ThroughputFloor s; tf_MinBytes f).

(** ** What [Validate] accepts *)

Definition nonNegative (o : option Z) : Prop :=
  match o with Some v => 0 ≤ v | None => True end.
Definition goodDuration (o : option string) : Prop :=
  match o with
  | Some d => ∃ n, parseDuration d = Ret n ∧ 0 ≤ n
  | None => True
  end.

Record validSpec (s : GatewayConfigSpec) : Prop := mkValidSpec {
  vs_perIP : nonNegative (PerIPMaxActiveConnections s);
  vs_maxActive : nonNegative (MaxActiveConnections s);
  vs_maxQueued : nonNegative (MaxQueuedConnections s);
  vs_idle : goodDuration (RelayIdleTimeout s);
  vs_maxDuration : goodDuration (RelayMaxDuration s);
  vs_keepAlive : goodDuration (TCPKeepAlive s);
  vs_dial : goodDuration (DialTimeout s);
  vs_window : goodDuration (ThroughputFloorWindow s);
  vs_grace : goodDuration (ThroughputFloorGrace s);
  vs_minBytes : nonNegative (f ← ThroughputFloor s; tf_MinBytes f) }.

Lemma validateInt_iff name o : validateInt name o = Ret tt ↔ nonNegative o.
Proof.
  destruct o as [v|]; simpl; [|done]. destruct (Z.ltb_spec v 0); split; try done; lia.
Qed.

Lemma validateDuration_iff name o : validateDuration name o = Ret tt ↔ goodDuration o.
Proof.
  destruct o as [d|]; simpl; [|done]. destruct (parseDuration d) as [n|e].
  - destruct (Z.ltb_spec n 0); split; try done; [|eauto]. intros (m & [= <-] & ?). lia.
  - split; [done|]. by intros (m & ? & ?).
Qed.

Lemma seq_Ret (r : result unit) (k : result unit) :
  (r ;; k) = Ret tt ↔ r = Ret tt ∧ k = Ret tt.
Proof. destruct r as [[]|]; simpl; naive_solver. Qed.

Lemma Validate_iff s : Validate s = Ret tt ↔ validSpec s.
Proof.
  unfold Validate. rewrite !seq_Ret, !validateInt_iff, !validateDuration_iff.
  split; [naive_solver eauto using mkValidSpec|]. intros []. tauto.
Qed.

(** [Validate] accepts a GatewayConfig spec exactly when every connection
    limit and the throughput floor are non-negative (or unset) and every
    duration parses to a non-negative value (or is unset). *)
Theorem Validate_accepts_iff s : Validate s = Ret tt ↔ validSpec s.
Proof. apply Validate_iff. Qed.
