(* ===== verification/Snapshot.v ===== *)
(** * The cluster snapshot: [internal/gateway/snapshot.go]

    A Go map becomes a [gmap]; the flat lists hold pointers that may be nil. *)
From S2P Require Import Prelude GoStd Api.

Record Snapshot := mkSnapshot {
  GatewayClasses : gmap string GatewayClass;
  GatewayConfigs : gmap string GatewayConfig;
  Gateways : gmap NamespacedName Gateway;
  RsyncRoutes : gmap NamespacedName RsyncRoute;
  Services : gmap NamespacedName Service;
  ReferenceGrants : gmap string (list ReferenceGrant) }.

Definition metaKey (m : ObjectMeta) : NamespacedName := mkNN (om_Namespace m) (om_Name m).

(** [for _, x := range xs { if x != nil { m[key(x)] = x } }] *)
Definition indexBy {K A} `{Countable K} (key : A → K) (l : list (option A)) : gmap K A :=
  foldl (fun m o => match o with Some x => <[key x := x]> m | None => m end) ∅ l.

Definition NewSnapshot
    (gatewayClasses : list (option GatewayClass))
    (gatewayConfigs : list (option GatewayConfig))
    (gateways : list (option Gateway))
    (routes : list (option RsyncRoute))
    (services : list (option Service))
    (referenceGrants : list (option ReferenceGrant)) : Snapshot :=
  mkSnapshot
    (indexBy (fun gc => om_Name (gc_Meta gc)) gatewayClasses)
    (indexBy (fun gc => om_Name (cfg_Meta gc)) gatewayConfigs)
    (indexBy (fun gw => metaKey (gw_Meta gw)) gateways)
    (indexBy (fun r => metaKey (r_Meta r)) routes)
    (indexBy (fun svc => mkNN (svc_Namespace svc) (svc_Name svc)) services)
    (foldl (fun m o =>
       match o with
       | Some g => <[rg_Namespace g := default [] (m !! rg_Namespace g) ++ [g]]> m
       | None => m
       end) ∅ referenceGrants).

(** Every object is filed under its own name. *)
Record wfSnapshot (snap : Snapshot) : Prop := mkWfSnapshot {
  ws_classes n gc : GatewayClasses snap !! n = Some gc → om_Name (gc_Meta gc) = n;
  ws_configs n gc : GatewayConfigs snap !! n = Some gc → om_Name (cfg_Meta gc) = n;
  ws_gateways k gw : Gateways snap !! k = Some gw → metaKey (gw_Meta gw) = k;
  ws_routes k r : RsyncRoutes snap !! k = Some r → metaKey (r_Meta r) = k;
  ws_services k s : Services snap !! k = Some s → mkNN (svc_Namespace s) (svc_Name s) = k;
  ws_grants n gs : ReferenceGrants snap !! n = Some gs →
    gs ≠ [] ∧ Forall (fun g => rg_Namespace g = n) gs }.

Section index.
Context {K A : Type} `{Countable K} (key : A → K).

Lemma indexBy_snoc l o :
  indexBy key (l ++ [o]) =
    match o with Some x => <[key x := x]> (indexBy key l) | None => indexBy key l end.
Proof. unfold indexBy. by rewrite foldl_app. Qed.

Lemma indexBy_keyed l k x : indexBy key l !! k = Some x → key x = k ∧ Some x ∈ l.
Proof.
  induction l as [|o l IH] using rev_ind; [done|]. rewrite indexBy_snoc, elem_of_app.
  destruct o as [y|]; [|naive_solver].
  destruct (decide (key y = k)) as [<-|Hne].
  - rewrite lookup_insert_eq. intros [= <-]. split; [done|]. right. by left.
  - rewrite lookup_insert_ne by done. naive_solver.
Qed.

(** With unique names nothing listed is lost. *)
Lemma indexBy_complete l x :
  Some x ∈ l →
  (∀ y, Some y ∈ l → key y = key x → y = x) →
  indexBy key l !! key x = Some x.
Proof.
  induction l as [|o l IH] using rev_ind; intros Hin Huniq.
  { elem_nil. }
  setoid_rewrite elem_of_app in Huniq. rewrite indexBy_snoc.
  destruct o as [y|].
  - destruct (decide (key y = key x)) as [Hk|Hne].
    + rewrite Hk, lookup_insert_eq. f_equal. apply Huniq; [|done]. right. by left.
    + rewrite lookup_insert_ne by done. apply elem_of_app in Hin as [Hin|Hin].
      * apply IH; [done|]. intros z Hz. apply Huniq. by left.
      * apply list_elem_of_singleton in Hin. naive_solver.
  - apply elem_of_app in Hin as [Hin|Hin]; [|by apply list_elem_of_singleton in Hin].
    apply IH; [done|]. intros z Hz. apply Huniq. by left.
Qed.
End index.

(** The non-nil elements of a list of pointers. *)
Definition present {A} (l : list (option A)) : list A := omap id l.

Definition groupGrants (l : list (option ReferenceGrant)) : gmap string (list ReferenceGrant) :=
  foldl (fun m o =>
    match o with
    | Some g => <[rg_Namespace g := default [] (m !! rg_Namespace g) ++ [g]]> m
    | None => m
    end) ∅ l.

Lemma present_snoc {A} (l : list (option A)) o :
  present (l ++ [o]) = present l ++ match o with Some x => [x] | None => [] end.
Proof. unfold present. rewrite omap_app. by destruct o. Qed.

(** Grants are grouped by namespace in the order of the list. *)
Lemma groupGrants_lookup l n :
  groupGrants l !! n =
    match filter (fun g => rg_Namespace g = n) (present l) with
    | [] => None
    | gs => Some gs
    end.
Proof.
  induction l as [|o l IH] using rev_ind; [done|].
  assert (groupGrants (l ++ [o]) =
    match o with
    | Some g => <[rg_Namespace g := default [] (groupGrants l !! rg_Namespace g) ++ [g]]> (groupGrants l)
    | None => groupGrants l
    end) as -> by (unfold groupGrants; by rewrite foldl_app).
  rewrite present_snoc, filter_app. destruct o as [g|]; [|by rewrite app_nil_r].
  rewrite filter_cons, filter_nil.
  destruct (decide (rg_Namespace g = n)) as [->|Hne].
  - rewrite lookup_insert_eq, IH.
    destruct (filter (fun g => rg_Namespace g = n) (present l)); by simplify_option_eq.
  - rewrite lookup_insert_ne by done. by rewrite IH, app_nil_r.
Qed.

(** A snapshot built from flat lists files every object under its own
    name, and no group of ReferenceGrants is empty or mixes namespaces. *)
Theorem NewSnapshot_wf classes configs gateways routes services grants :
  wfSnapshot (NewSnapshot classes configs gateways routes services grants).
Proof.
  split; simpl.
  - by intros n gc [? _]%indexBy_keyed.
  - by intros n gc [? _]%indexBy_keyed.
  - by intros k gw [? _]%indexBy_keyed.
  - by intros k r [? _]%indexBy_keyed.
  - by intros k s [? _]%indexBy_keyed.
  - intros n gs. fold (groupGrants grants). rewrite groupGrants_lookup.
    destruct (filter (fun g => rg_Namespace g = n) (present grants)) as [|g gs'] eqn:E;
      [done|].
    intros [= <-]. split; [done|]. rewrite <- E. apply Forall_forall.
    by intros x [? _]%list_elem_of_filter.
Qed.
