(* ===== verification/Claim.v ===== *)
(** * Claiming GatewayClasses: [internal/gateway/claim.go] *)
From S2P Require Import Prelude GoStd Api Snapshot.

(** Implementation-specific reasons. *)
Definition ReasonTLSNotSupported : string := "TLSNotSupported".
Definition ReasonRestartRequired : string := "RestartRequired".
Definition ReasonModuleConflicted : string := "ModuleConflicted".

Record ClassClaim := mkClaim {
  cl_Name : string;
  cl_Claimed : bool;
  cl_Accepted : bool;
  cl_Reason : string;
  cl_Message : string;
  cl_Config : option GatewayConfig }.

(** The zero value of the struct, what a missing key of a map yields. *)
Definition zeroClaim : ClassClaim := mkClaim "" false false "" "" None.

Definition invalidClass (msg : string) : option GatewayConfig * string * string :=
  (None, GatewayReasonInvalidParameters, msg).

Definition resolveClassConfig (gc : GatewayClass) (snap : Snapshot)
    : option GatewayConfig * string * string :=
  match gc_ParametersRef gc with
  | None =>
      invalidClass ("GatewayClass " +:+ om_Name (gc_Meta gc)
        +:+ " must set spec.parametersRef to a GatewayConfig")
  | Some ref =>
      if negb (bool_decide (ref_Group ref = GroupVersionGroup)
               && bool_decide (ref_Kind ref = "GatewayConfig")) then
        invalidClass ("unsupported parametersRef group/kind " +:+ ref_Group ref +:+ "/"
          +:+ ref_Kind ref +:+ "; want " +:+ GroupVersionGroup +:+ "/GatewayConfig")
      else if match ref_Namespace ref with
              | Some ns => bool_decide (ns ≠ "") | None => false end then
        invalidClass "parametersRef.namespace must be empty; GatewayConfig is cluster-scoped"
      else
        match GatewayConfigs snap !! ref_Name ref with
        | None => invalidClass ("GatewayConfig " +:+ quote (ref_Name ref) +:+ " not found")
        | Some config =>
            match Validate (cfg_Spec config) with
            | Err e =>
                invalidClass ("GatewayConfig " +:+ quote (ref_Name ref) +:+ " is invalid: " +:+ e)
            | Ret _ =>
                (Some config, GatewayReasonAccepted,
                 "GatewayConfig " +:+ quote (ref_Name ref) +:+ " is valid")
            end
        end
  end.

(** The loop body of [ClaimClasses]. *)
Definition claimClass (snap : Snapshot) (name : string) (gc : GatewayClass) : ClassClaim :=
  if negb (bool_decide (gc_ControllerName gc = ControllerName)) then
    mkClaim name false false "" "" None
  else
    let '(config, reason, message) := resolveClassConfig gc snap in
    mkClaim name true (bool_decide (reason = GatewayReasonAccepted)) reason message config.

Definition ClaimClasses (snap : Snapshot) : gmap string ClassClaim :=
  map_imap (fun name gc => Some (claimClass snap name gc)) (GatewayClasses snap).

(** A Gateway is managed when its class is claimed and accepted. *)
Definition managed (claims : gmap string ClassClaim) (gw : Gateway) : bool :=
  match claims !! gw_GatewayClassName gw with
  | Some claim => cl_Claimed claim && cl_Accepted claim
  | None => false
  end.

(** ** What a claim means *)

Lemma ClaimClasses_lookup snap name :
  ClaimClasses snap !! name = claimClass snap name <$> GatewayClasses snap !! name.
Proof.
  unfold ClaimClasses. rewrite map_lookup_imap.
  by destruct (GatewayClasses snap !! name).
Qed.

(** The parameters reference names [config] the way the API asks for. *)
Definition refersTo (gc : GatewayClass) (name : string) : Prop :=
  ∃ ref, gc_ParametersRef gc = Some ref ∧ ref_Group ref = GroupVersionGroup ∧
    ref_Kind ref = "GatewayConfig" ∧ ref_Name ref = name ∧
    (ref_Namespace ref = None ∨ ref_Namespace ref = Some "").

Lemma resolveClassConfig_accepted gc snap :
  let '(config, reason, _) := resolveClassConfig gc snap in
  (reason = GatewayReasonAccepted ∨ reason = GatewayReasonInvalidParameters) ∧
  ∀ c, (reason = GatewayReasonAccepted ∧ config = Some c) ↔
       ∃ name, refersTo gc name ∧ GatewayConfigs snap !! name = Some c ∧
               validSpec (cfg_Spec c).
Proof.
  unfold resolveClassConfig, refersTo. destruct (gc_ParametersRef gc) as [ref|]; simpl.
  2: { split; [by right|]. intros c. split; [by intros []|naive_solver]. }
  repeat case_bool_decide; simpl.
  2,3,4: (split; [by right|]; intros c; split; [by intros []|naive_solver]).
  destruct (ref_Namespace ref) as [ns|] eqn:Hns; [case_bool_decide|]; simpl.
  1: { split; [by right|]. intros c. split; [by intros []|naive_solver]. }
  all: destruct (GatewayConfigs snap !! ref_Name ref) as [cfg|] eqn:Hcfg; simpl;
    [|split; [by right|]; intros c; split; [by intros []|naive_solver]];
    pose proof (Validate_iff (cfg_Spec cfg)) as Hv;
    destruct (Validate (cfg_Spec cfg)) as [[]|e]; simpl;
    [split; [by left|]|split; [by right|]]; intros c; naive_solver.
Qed.

Lemma claimClass_accepted snap name gc c :
  (let claim := claimClass snap name gc in
   cl_Claimed claim = true ∧ cl_Accepted claim = true ∧ cl_Config claim = Some c) ↔
  gc_ControllerName gc = ControllerName ∧
  ∃ n, refersTo gc n ∧ GatewayConfigs snap !! n = Some c ∧ validSpec (cfg_Spec c).
Proof.
  unfold claimClass. pose proof (resolveClassConfig_accepted gc snap) as H.
  destruct (resolveClassConfig gc snap) as [[config reason] message].
  destruct H as [_ H]. specialize (H c). rewrite <- H.
  case_bool_decide; simpl; [|naive_solver]. rewrite bool_decide_eq_true. naive_solver.
Qed.

(** An accepted claim always carries a valid configuration. *)
Lemma claim_accepted_config snap name claim :
  ClaimClasses snap !! name = Some claim → cl_Accepted claim = true →
  cl_Claimed claim = true ∧
  ∃ c, cl_Config claim = Some c ∧ validSpec (cfg_Spec c).
Proof.
  rewrite ClaimClasses_lookup.
  destruct (GatewayClasses snap !! name) as [gc|]; [|done]. simpl. intros [= <-].
  unfold claimClass. pose proof (resolveClassConfig_accepted gc snap) as H.
  destruct (resolveClassConfig gc snap) as [[config reason] message] eqn:E.
  case_bool_decide; simpl; [|done]. rewrite bool_decide_eq_true. intros ->.
  split; [done|]. destruct H as [_ H]. destruct config as [c|].
  - exists c. split; [done|]. destruct (proj1 (H c)) as (? & ? & ? & ?); done.
  - exfalso. clear H. revert E. unfold resolveClassConfig, invalidClass.
    repeat case_match; intros E; simplify_eq.
Qed.

(** So does every claim that carries one. *)
Lemma claim_config_valid snap name claim c :
  ClaimClasses snap !! name = Some claim → cl_Config claim = Some c → validSpec (cfg_Spec c).
Proof.
  rewrite ClaimClasses_lookup.
  destruct (GatewayClasses snap !! name) as [gc|]; [|done]. simpl. intros [= <-].
  unfold claimClass. pose proof (resolveClassConfig_accepted gc snap) as H.
  destruct (resolveClassConfig gc snap) as [[config reason] message] eqn:E.
  case_bool_decide; simpl; [|done]. intros ->. destruct H as [_ H].
  destruct (proj1 (H c)) as (? & ? & ? & ?); [|done]. split; [|done].
  revert E. unfold resolveClassConfig, invalidClass. repeat case_match; intros E; by simplify_eq.
Qed.

(** A GatewayClass is claimed and accepted with configuration [c] exactly
    when its controller name is this gateway's and its parametersRef (right
    group and kind, no namespace) names an existing GatewayConfig [c] that
    validates. *)
Theorem class_accepted_iff snap name c :
  (∃ claim, ClaimClasses snap !! name = Some claim ∧ cl_Claimed claim = true ∧
            cl_Accepted claim = true ∧ cl_Config claim = Some c) ↔
  ∃ gc n, GatewayClasses snap !! name = Some gc ∧ gc_ControllerName gc = ControllerName ∧
          refersTo gc n ∧ GatewayConfigs snap !! n = Some c ∧ validSpec (cfg_Spec c).
Proof.
  rewrite ClaimClasses_lookup. split.
  - intros (claim & (gc & Hgc & ->)%fmap_Some & H).
    destruct (proj1 (claimClass_accepted snap name gc c) H) as (? & n & ?).
    exists gc, n. naive_solver.
  - intros (gc & n & -> & Hc & Hr). exists (claimClass snap name gc).
    split; [done|]. apply claimClass_accepted. eauto.
Qed.
