(* ===== verification/Fixture.v ===== *)
(** * A small cluster on which the theorems are instantiated

    One GatewayClass with its GatewayConfig, one Gateway with an rsync listener
    (and one listener of another protocol), an older and a younger route that
    both claim the module [debian], a Service in the namespace of the routes and
    one in another namespace reachable through a ReferenceGrant. *)
From S2P Require Import Prelude GoStd Api Snapshot Claim.
Open Scope Z_scope.

Module Fixture.
Definition meta (ns name : string) (t : Z) : ObjectMeta := mkMeta ns name 1 t ∅.

Definition class : GatewayClass :=
  mkGatewayClass (meta "" "rsync" 0) ControllerName
    (Some (mkParametersRef GroupVersionGroup "GatewayConfig" "main" None)) [].

Definition config : GatewayConfig :=
  mkGatewayConfig (meta "" "main" 0)
    (mkGatewayConfigSpec (Some "welcome") (Some "5m") None None (Some "5s")
       (Some 4) (Some 10) (Some 20) None) [].

Definition gateway : Gateway :=
  mkGateway (meta "infra" "mirror" 0) "rsync"
    [ mkListener "rsync" 873 ProtocolRsync false
        (Some (mkAllowedRoutes (Some (mkRouteNamespaces (Some NamespacesFromAll) None)) []));
      mkListener "web" 80 "HTTP" false None ] [] [].

Definition parent : ParentReference :=
  mkParentRef None None (Some "infra") "mirror" None None.

Definition backend (name : string) (ns : option string) : BackendRef :=
  mkBackendRef None None name ns (Some 873) None.

Definition oldRoute : RsyncRoute :=
  mkRoute (meta "apps" "debian" 100)
    (mkRouteSpec [parent] [] [backend "deb" None; backend "deb" (Some "shared")]) [].

Definition youngRoute : RsyncRoute :=
  mkRoute (meta "apps" "extra" 200)
    (mkRouteSpec [parent] ["ubuntu"; "debian"] [backend "ubu" None]) [].

Definition grant : ReferenceGrant :=
  mkGrant "shared" [mkGrantFrom GroupVersionGroup RouteKind "apps"]
    [mkGrantTo CoreGroup "Service" None].

Definition snap : Snapshot :=
  NewSnapshot [Some class] [Some config] [Some gateway] [Some youngRoute; None; Some oldRoute]
    [Some (mkService "apps" "deb"); Some (mkService "shared" "deb")] [Some grant].

Definition claims : gmap string ClassClaim := ClaimClasses snap.

(** Selectors play no part in the fixture. *)
Definition noSelector (_ : LabelSelector) (_ : gmap string string) : result bool := Ret false.

Definition oldKey : NamespacedName := mkNN "apps" "debian".
Definition youngKey : NamespacedName := mkNN "apps" "extra".
Definition gwKey : NamespacedName := mkNN "infra" "mirror".

Example class_accepted : managed claims gateway = true.
Proof. by vm_compute. Qed.
End Fixture.
