(* ===== verification/Bind.v ===== *)
(** * Binding RsyncRoutes to Gateways: [internal/gateway/bind.go]

    The first part binds each parentRef on its own ([bindParent]); the second
    resolves conflicts between routes that claim the same module on the same
    Gateway ([resolveModuleConflicts]).  Go ranges over maps in an unspecified
    order: a loop over a map is a fold over a list that enumerates it, and the
    theorems quantify over every enumeration. *)
From S2P Require Import Prelude GoStd Api Snapshot Claim Fixture.

Record ParentResult := mkParentResult {
  res_ParentRef : ParentReference;
  res_Gateway : NamespacedName;
  res_Listener : option Listener;
  res_Accepted : bool;
  res_Reason : string;
  res_Message : string }.

Definition gatewayAPIGroup : string := "gateway.networking.k8s.io".

(** ** Listener admission *)

Definition rsyncListeners (gw : Gateway) : list Listener :=
  filter (fun l => l_Protocol l = ProtocolRsync) (gw_Listeners gw).

Definition kindsAllow (l : Listener) : bool :=
  match l_AllowedRoutes l with
  | None => true
  | Some ar =>
      match ar_Kinds ar with
      | [] => true
      | ks =>
          existsb (fun k =>
            bool_decide (default gatewayAPIGroup (gk_Group k) = GroupVersionGroup)
            && bool_decide (gk_Kind k = RouteKind)) ks
      end
  end.

Definition sameNamespaceAllow (gatewayNS : string) (routeKey : NamespacedName) : string :=
  if decide (gatewayNS ≠ nn_Namespace routeKey) then
    "route namespace differs from the Gateway namespace (allowedRoutes.namespaces.from=Same)"
  else "".

Section bind.
(** [metav1.LabelSelectorAsSelector] followed by [Selector.Matches], of the
    Kubernetes API machinery: whether the selector matches a label set, or why
    it is malformed. *)
Context (selectorMatches : LabelSelector → gmap string string → result bool).

Definition namespacesAllow (l : Listener) (gatewayNS : string) (routeKey : NamespacedName)
    (route : RsyncRoute) : string :=
  match l_AllowedRoutes l with
  | None => sameNamespaceAllow gatewayNS routeKey
  | Some ar =>
      match ar_Namespaces ar with
      | None => sameNamespaceAllow gatewayNS routeKey
      | Some ns =>
          match rn_From ns with
          | None => sameNamespaceAllow gatewayNS routeKey
          | Some from =>
              if decide (from = NamespacesFromAll) then ""
              else if decide (from = NamespacesFromSame) then
                sameNamespaceAllow gatewayNS routeKey
              else if decide (from = NamespacesFromSelector) then
                match rn_Selector ns with
                | None => "allowedRoutes.namespaces.from=Selector requires a selector"
                | Some sel =>
                    match selectorMatches sel (om_Labels (r_Meta route)) with
                    | Err e => "invalid allowedRoutes.namespaces.selector: " +:+ e
                    | Ret false =>
                        "route namespace labels do not match allowedRoutes.namespaces.selector"
                    | Ret true => ""
                    end
                end
              else "allowedRoutes.namespaces.from=" +:+ from +:+ " is not supported"
          end
      end
  end.

Definition listenerAllows (l : Listener) (gatewayNS : string) (routeKey : NamespacedName)
    (route : RsyncRoute) : string :=
  if negb (kindsAllow l) then
    "route kind " +:+ GroupVersionGroup +:+ "/" +:+ RouteKind
      +:+ " is not allowed by allowedRoutes.kinds"
  else namespacesAllow l gatewayNS routeKey route.

(** The loop over the candidate listeners: the first that allows the route,
    or the rejections of all of them. *)
Fixpoint firstAllowing (gatewayNS : string) (routeKey : NamespacedName) (route : RsyncRoute)
    (rejections : list string) (candidates : list Listener) : Listener + list string :=
  match candidates with
  | [] => inr rejections
  | l :: rest =>
      let why := listenerAllows l gatewayNS routeKey route in
      if decide (why = "") then inl l
      else firstAllowing gatewayNS routeKey route
             (rejections ++ ["listener " +:+ quote (l_Name l) +:+ ": " +:+ why]) rest
  end.

Definition rejected (parentRef : ParentReference) (gw : NamespacedName) (reason msg : string)
    : ParentResult :=
  mkParentResult parentRef gw None false reason msg.

Definition parentGroup (p : ParentReference) : string := default gatewayAPIGroup (pr_Group p).
Definition parentKind (p : ParentReference) : string := default "Gateway" (pr_Kind p).

(** The Gateway a parentRef names. *)
Definition parentGateway (routeKey : NamespacedName) (p : ParentReference) : NamespacedName :=
  let ns := match pr_Namespace p with
            | Some ns => if decide (ns ≠ "") then ns else nn_Namespace routeKey
            | None => nn_Namespace routeKey
            end in
  mkNN ns (pr_Name p).

(** The section a parentRef names, if any. *)
Definition parentSection (p : ParentReference) : option string :=
  match pr_SectionName p with
  | Some s => if decide (s ≠ "") then Some s else None
  | None => None
  end.

Definition bindParent (snap : Snapshot) (claims : gmap string ClassClaim)
    (routeKey : NamespacedName) (route : RsyncRoute) (parentRef : ParentReference)
    : ParentResult :=
  if negb (bool_decide (parentGroup parentRef = gatewayAPIGroup)
           && bool_decide (parentKind parentRef = "Gateway")) then
    rejected parentRef (mkNN "" "") RouteReasonNoMatchingParent
      ("unsupported parent group/kind " +:+ parentGroup parentRef +:+ "/" +:+ parentKind parentRef
         +:+ "; only " +:+ gatewayAPIGroup +:+ "/Gateway is supported")
  else
    let gatewayKey := parentGateway routeKey parentRef in
    let reject reason msg := rejected parentRef gatewayKey reason msg in
    match Gateways snap !! gatewayKey with
    | None =>
        reject RouteReasonNoMatchingParent ("Gateway " +:+ nnString gatewayKey +:+ " not found")
    | Some gw =>
        let className := gw_GatewayClassName gw in
        let claim := default zeroClaim (claims !! className) in
        if negb (cl_Claimed claim) then
          reject RouteReasonNoMatchingParent
            ("GatewayClass " +:+ quote className +:+ " of Gateway " +:+ nnString gatewayKey
               +:+ " is not managed by " +:+ ControllerName)
        else if negb (cl_Accepted claim) then
          reject RouteReasonNoMatchingParent
            ("GatewayClass " +:+ quote className +:+ " is not accepted: " +:+ cl_Message claim)
        else
          let listeners := rsyncListeners gw in
          if decide (listeners = []) then
            reject RouteReasonNoMatchingParent
              ("Gateway " +:+ nnString gatewayKey +:+ " has no listener with protocol "
                 +:+ ProtocolRsync)
          else
            let bindTo candidates :=
              match firstAllowing (nn_Namespace gatewayKey) routeKey route [] candidates with
              | inl l => mkParentResult parentRef gatewayKey (Some l) true RouteReasonAccepted ""
              | inr rejections =>
                  reject RouteReasonNotAllowedByListeners
                    ("no listener of Gateway " +:+ nnString gatewayKey +:+ " allows this route: "
                       +:+ join "; " rejections)
              end in
            match parentSection parentRef with
            | None => bindTo listeners
            | Some want =>
                match filter (fun l => l_Name l = want) listeners with
                | [] =>
                    reject RouteReasonNoMatchingParent
                      ("Gateway " +:+ nnString gatewayKey +:+ " has no listener named "
                         +:+ quote want +:+ " with protocol " +:+ ProtocolRsync)
                | l :: _ => bindTo [l]
                end
            end
    end.
End bind.

(** ** Modules of a route *)

Definition EffectiveModules (route : RsyncRoute) : list string :=
  match ModuleNames (r_Spec route) with
  | [] => [om_Name (r_Meta route)]
  | ms => ms
  end.

(** ** Module conflicts *)

(** The gateways a route is accepted at, each once, in the order of the
    results (the loop with the [seen] map). *)
Fixpoint acceptedAt (seen : gset NamespacedName) (perParent : list ParentResult)
    : list NamespacedName :=
  match perParent with
  | [] => []
  | res :: rest =>
      if negb (res_Accepted res) || bool_decide (res_Gateway res ∈ seen)
      then acceptedAt seen rest
      else res_Gateway res :: acceptedAt ({[res_Gateway res]} ∪ seen) rest
  end.

Definition addBound (routeKey : NamespacedName)
    (bound : gmap NamespacedName (list NamespacedName)) (gw : NamespacedName)
    : gmap NamespacedName (list NamespacedName) :=
  <[gw := default [] (bound !! gw) ++ [routeKey]]> bound.

(** gateway key -> routes bound to it; [ord] enumerates the results map. *)
Definition collectBound (ord : list (NamespacedName * list ParentResult))
    : gmap NamespacedName (list NamespacedName) :=
  foldl (fun bound p => foldl (addBound p.1) bound (acceptedAt ∅ p.2)) ∅ ord.

Definition creationTime (snap : Snapshot) (k : NamespacedName) : Z :=
  match RsyncRoutes snap !! k with
  | Some r => om_CreationTimestamp (r_Meta r)
  | None => 0%Z
  end.

(** The comparison function of the sort. *)
Definition routeBefore (snap : Snapshot) (a b : NamespacedName) : bool :=
  if decide (creationTime snap a ≠ creationTime snap b)
  then (creationTime snap a <? creationTime snap b)%Z
  else String.ltb (nnString a) (nnString b).

Definition notYounger (snap : Snapshot) (a b : NamespacedName) : Prop :=
  routeBefore snap b a = false.

#[export] Instance notYounger_dec snap : RelDecision (notYounger snap).
Proof. intros a b. unfold notYounger. apply _. Defined.

Definition sortRoutes (snap : Snapshot) (l : list NamespacedName) : list NamespacedName :=
  merge_sort (notYounger snap) l.

Definition routeModules (snap : Snapshot) (k : NamespacedName) : list string :=
  match RsyncRoutes snap !! k with
  | Some r => EffectiveModules r
  | None => []
  end.

(** The first of the modules that has an owner. *)
Fixpoint findOwner (owner : gmap string NamespacedName) (modules : list string)
    : option (NamespacedName * string) :=
  match modules with
  | [] => None
  | m :: rest =>
      match owner !! m with
      | Some prev => Some (prev, m)
      | None => findOwner owner rest
      end
  end.

Definition claimModules (routeKey : NamespacedName) (owner : gmap string NamespacedName)
    (modules : list string) : gmap string NamespacedName :=
  foldl (fun o m => <[m := routeKey]> o) owner modules.

Definition markConflicted (gatewayKey winner : NamespacedName) (winnerModule : string)
    (res : ParentResult) : ParentResult :=
  if res_Accepted res && bool_decide (res_Gateway res = gatewayKey) then
    mkParentResult (res_ParentRef res) (res_Gateway res) (res_Listener res) false
      ReasonModuleConflicted
      ("module " +:+ quote winnerModule +:+ " is already claimed by route "
         +:+ quote (nnString winner) +:+ " on Gateway " +:+ nnString gatewayKey
         +:+ "; older routes win")
  else res.

(** The loop over the routes of one gateway, oldest first. *)
Fixpoint conflictLoop (snap : Snapshot) (gatewayKey : NamespacedName)
    (routeKeys : list NamespacedName) (owner : gmap string NamespacedName)
    (results : gmap NamespacedName (list ParentResult))
    : gmap NamespacedName (list ParentResult) :=
  match routeKeys with
  | [] => results
  | routeKey :: rest =>
      let modules := routeModules snap routeKey in
      match findOwner owner modules with
      | Some (winner, winnerModule) =>
          conflictLoop snap gatewayKey rest owner
            (alter (map (markConflicted gatewayKey winner winnerModule)) routeKey results)
      | None =>
          conflictLoop snap gatewayKey rest (claimModules routeKey owner modules) results
      end
  end.

(** [gwOrd] enumerates the [bound] map. *)
Definition resolveModuleConflicts (snap : Snapshot)
    (gwOrd : list (NamespacedName * list NamespacedName))
    (results : gmap NamespacedName (list ParentResult))
    : gmap NamespacedName (list ParentResult) :=
  foldl (fun res p => conflictLoop snap p.1 (sortRoutes snap p.2) ∅ res) results gwOrd.

Section bind_routes.
Context (selectorMatches : LabelSelector → gmap string string → result bool).

(** The results before conflicts are resolved. *)
Definition bindAll (snap : Snapshot) (claims : gmap string ClassClaim)
    : gmap NamespacedName (list ParentResult) :=
  map_imap (fun key route =>
    Some (map (bindParent selectorMatches snap claims key route) (ParentRefs (r_Spec route))))
    (RsyncRoutes snap).

(** [BindRoutes], for one order of ranging over its two maps. *)
Definition BindRoutesIn (snap : Snapshot) (claims : gmap string ClassClaim)
    (gwOrd : list (NamespacedName * list NamespacedName))
    : gmap NamespacedName (list ParentResult) :=
  resolveModuleConflicts snap gwOrd (bindAll snap claims).

(** The orders Go may choose. *)
Definition rangeOrders (snap : Snapshot) (claims : gmap string ClassClaim)
    (gwOrd : list (NamespacedName * list NamespacedName)) : Prop :=
  ∃ ord, ord ≡ₚ map_to_list (bindAll snap claims) ∧ gwOrd ≡ₚ map_to_list (collectBound ord).

(** [BindRoutes] in the order of [map_to_list]. *)
Definition BindRoutes (snap : Snapshot) (claims : gmap string ClassClaim)
    : gmap NamespacedName (list ParentResult) :=
  BindRoutesIn snap claims
    (map_to_list (collectBound (map_to_list (bindAll snap claims)))).
End bind_routes.

(** ** The order of the routes *)

Lemma string_ltb_leb a b : String.ltb a b = negb (String.leb b a).
Proof.
  unfold String.ltb, String.leb. rewrite (String.compare_antisym b a).
  by destruct (String.compare a b).
Qed.

Lemma notYounger_iff snap a b :
  notYounger snap a b ↔
  (creationTime snap a < creationTime snap b)%Z ∨
  creationTime snap a = creationTime snap b ∧ String.le (nnString a) (nnString b).
Proof.
  unfold notYounger, routeBefore, String.le. rewrite string_ltb_leb.
  case_decide as Ht.
  - rewrite Z.ltb_ge. split; [lia|]. intros [?|[? _]]; [lia|congruence].
  - rewrite negb_false_iff, Is_true_true. split; [|intros [?|[_ ?]]; [lia|done]].
    intros ?. right. split; [|done]. destruct (decide (creationTime snap a = creationTime snap b)); [done|lia].
Qed.

#[export] Instance notYounger_total snap : Total (notYounger snap).
Proof.
  intros a b. rewrite !notYounger_iff.
  destruct (Z.lt_trichotomy (creationTime snap a) (creationTime snap b)) as [?|[?|?]];
    [by auto| |by auto].
  destruct (total String.le (nnString a) (nnString b)); [left|right]; auto.
Qed.

#[export] Instance notYounger_trans snap : Transitive (notYounger snap).
Proof.
  intros a b c. rewrite !notYounger_iff. intros [H1|[H1 H1']] [H2|[H2 H2']]; try (left; lia).
  right. split; [congruence|]. by etransitivity.
Qed.

Lemma sortRoutes_perm snap l : sortRoutes snap l ≡ₚ l.
Proof. apply merge_sort_Permutation. Qed.

Lemma sortRoutes_sorted snap l : StronglySorted (notYounger snap) (sortRoutes snap l).
Proof. apply StronglySorted_merge_sort; apply _. Qed.

(** Kubernetes namespaces contain no slash, so the printed names of two keys
    differ whenever the keys do. *)
Definition slashFree (s : string) : Prop := "/"%char ∉ chars s.

Lemma nnString_inj a b :
  slashFree (nn_Namespace a) → slashFree (nn_Namespace b) → nnString a = nnString b → a = b.
Proof.
  destruct a as [n1 x1], b as [n2 x2]; unfold nnString, slashFree; simpl.
  intros H1 H2 Heq. apply (f_equal chars) in Heq. rewrite !chars_app in Heq.
  simpl in Heq. assert (chars n1 = chars n2 ∧ chars x1 = chars x2) as [->%chars_inj ->%chars_inj];
    [|done].
  revert H2 Heq. generalize (chars n2). induction (chars n1) as [|c l IH]; intros [|d k] H2 Heq;
    simplify_eq/=; try done.
  - by apply not_elem_of_cons in H2 as [? _].
  - by apply not_elem_of_cons in H1 as [? _].
  - apply not_elem_of_cons in H1 as [_ H1], H2 as [_ H2].
    destruct (IH H1 k H2) as [-> ->]; done.
Qed.

(** The sorted list does not depend on the order in which routes were met. *)
Lemma sortRoutes_order_irrelevant snap l k :
  l ≡ₚ k → Forall (fun a => slashFree (nn_Namespace a)) l →
  sortRoutes snap l = sortRoutes snap k.
Proof.
  intros Hp Hs. rewrite Forall_forall in Hs.
  apply (StronglySorted_unique_strong (notYounger snap)); try apply sortRoutes_sorted.
  - intros a b. rewrite !sortRoutes_perm, !notYounger_iff. rewrite <- Hp. intros Ha Hb H1 H2.
    apply nnString_inj; auto. destruct H1 as [?|[? ?]], H2 as [?|[? ?]]; try lia.
    by apply (anti_symm String.le).
  - by rewrite !sortRoutes_perm.
Qed.

(** ** The routes bound to a gateway *)

Lemma elem_of_acceptedAt g seen pp :
  g ∈ acceptedAt seen pp ↔
  (g ∉ seen) ∧ ∃ res, res ∈ pp ∧ res_Accepted res = true ∧ res_Gateway res = g.
Proof.
  revert seen. induction pp as [|res pp IH]; intros seen; simpl.
  { split; [intros H; elem_nil|].
    intros (_ & r & H & _). elem_nil. }
  assert (∀ r, r ∈ res :: pp ↔ r = res ∨ r ∈ pp) as Hc by (intros; apply elem_of_cons).
  setoid_rewrite Hc. clear Hc.
  destruct (res_Accepted res) eqn:Ha; simpl.
  2: { rewrite IH. split; intros (Hs & r & Hr); (split; [done|]); [naive_solver|].
       destruct Hr as ([->|Hr] & Hr' & <-); [congruence|eauto]. }
  case_bool_decide as Hs; rewrite ?elem_of_cons, IH.
  - split; intros (Hg & r & Hr); (split; [done|]); [naive_solver|].
    destruct Hr as ([->|Hr] & Hr' & <-); [done|eauto].
  - rewrite not_elem_of_union, not_elem_of_singleton.
    destruct (decide (g = res_Gateway res)) as [->|Hne]; [naive_solver|].
    split; [naive_solver|]. intros (Hg & r & [->|Hr] & Hr' & <-); [done|]. naive_solver.
Qed.

Lemma NoDup_acceptedAt seen pp : NoDup (acceptedAt seen pp).
Proof.
  revert seen. induction pp as [|res pp IH]; intros seen; simpl; [constructor|].
  case_match; [done|]. apply NoDup_cons. split; [|done].
  rewrite elem_of_acceptedAt. set_solver.
Qed.

Definition boundTo (g : NamespacedName) (pp : list ParentResult) : Prop :=
  g ∈ acceptedAt ∅ pp.

#[export] Instance boundTo_dec g pp : Decision (boundTo g pp).
Proof. unfold boundTo. apply _. Defined.

Lemma boundTo_iff g pp :
  boundTo g pp ↔ ∃ res, res ∈ pp ∧ res_Accepted res = true ∧ res_Gateway res = g.
Proof. unfold boundTo. rewrite elem_of_acceptedAt. set_solver. Qed.

Lemma foldl_addBound rk b gs g :
  NoDup gs →
  foldl (addBound rk) b gs !! g =
    if decide (g ∈ gs) then Some (default [] (b !! g) ++ [rk]) else b !! g.
Proof.
  revert b. induction gs as [|g' gs IH]; intros b Hnd; simpl.
  { done. }
  apply NoDup_cons in Hnd as [Hnin Hnd]. rewrite (IH _ Hnd). unfold addBound.
  destruct (decide (g ∈ gs)) as [Hin|Hn], (decide (g ∈ g' :: gs)) as [Hin'|Hn'].
  - rewrite lookup_insert_ne; [done|]. by intros ->.
  - by destruct Hn'; right.
  - apply elem_of_cons in Hin' as [->|]; [|done]. by rewrite lookup_insert_eq.
  - rewrite lookup_insert_ne; [done|]. intros ->. by destruct Hn'; left.
Qed.

Lemma collectBound_lookup ord g :
  collectBound ord !! g =
    match filter (fun p => boundTo g p.2) ord with
    | [] => None
    | ps => Some (map fst ps)
    end.
Proof.
  induction ord as [|[rk pp] ord IH] using rev_ind; [done|].
  unfold collectBound in *. rewrite foldl_app. simpl.
  rewrite foldl_addBound by apply NoDup_acceptedAt. rewrite IH.
  rewrite filter_app, filter_cons, filter_nil; simpl.
  destruct (decide (g ∈ acceptedAt ∅ pp)) as [Hin|Hin];
    destruct (decide (boundTo g pp)) as [Hb|Hb]; try done.
  - destruct (filter _ ord); simpl; [done|]. by rewrite map_app.
  - by rewrite app_nil_r.
Qed.

(** ** The conflicts of one gateway, without the results map *)

Fixpoint conflicts (snap : Snapshot) (owner : gmap string NamespacedName)
    (routeKeys : list NamespacedName) : gmap NamespacedName (NamespacedName * string) :=
  match routeKeys with
  | [] => ∅
  | rk :: rest =>
      match findOwner owner (routeModules snap rk) with
      | Some v => <[rk := v]> (conflicts snap owner rest)
      | None => conflicts snap (claimModules rk owner (routeModules snap rk)) rest
      end
  end.

Definition applyVerdict (g : NamespacedName) (v : option (NamespacedName * string))
    (e : ParentResult) : ParentResult :=
  match v with Some (w, m) => markConflicted g w m e | None => e end.

Lemma conflicts_dom snap owner rks rk v :
  conflicts snap owner rks !! rk = Some v → rk ∈ rks.
Proof.
  revert owner. induction rks as [|r rks IH]; intros owner; simpl; [done|].
  rewrite elem_of_cons. destruct (findOwner owner _) as [v'|]; [|naive_solver].
  destruct (decide (r = rk)) as [->|Hne]; [by left|].
  rewrite lookup_insert_ne by done. naive_solver.
Qed.

Lemma conflicts_notin snap owner rks rk :
  rk ∉ rks → conflicts snap owner rks !! rk = None.
Proof.
  intros Hn. destruct (conflicts snap owner rks !! rk) eqn:E; [|done].
  by apply conflicts_dom in E.
Qed.

Lemma conflictLoop_lookup snap g rks owner results rk :
  NoDup rks →
  conflictLoop snap g rks owner results !! rk =
    map (applyVerdict g (conflicts snap owner rks !! rk)) <$> results !! rk.
Proof.
  revert owner results. induction rks as [|r rks IH]; intros owner results Hnd; simpl.
  { rewrite lookup_empty. destruct (results !! rk) as [pp|]; simpl; [|done].
    f_equal. symmetry. apply map_id. }
  apply NoDup_cons in Hnd as [Hnin Hnd].
  destruct (findOwner owner (routeModules snap r)) as [[w m]|]; [|by apply IH].
  rewrite (IH _ _ Hnd). destruct (decide (r = rk)) as [->|Hne].
  - rewrite lookup_alter_eq, lookup_insert_eq, conflicts_notin by done.
    destruct (results !! rk) as [pp|]; simpl; [|done]. f_equal. by rewrite map_id.
  - by rewrite lookup_alter_ne, lookup_insert_ne by done.
Qed.

(** The final form of one result of route [rk]. *)
Definition resolveEntry (snap : Snapshot)
    (bound : gmap NamespacedName (list NamespacedName)) (rk : NamespacedName)
    (e : ParentResult) : ParentResult :=
  match bound !! res_Gateway e with
  | Some rks => applyVerdict (res_Gateway e) (conflicts snap ∅ (sortRoutes snap rks) !! rk) e
  | None => e
  end.

Lemma applyVerdict_gateway g v e : res_Gateway (applyVerdict g v e) = res_Gateway e.
Proof. destruct v as [[w m]|]; simpl; [|done]. unfold markConflicted. by case_match. Qed.

Lemma applyVerdict_other g v e : res_Gateway e ≠ g → applyVerdict g v e = e.
Proof.
  intros Hne. destruct v as [[w m]|]; simpl; [|done]. unfold markConflicted.
  by rewrite bool_decide_false, andb_false_r.
Qed.

Lemma resolve_lookup snap gwOrd results rk :
  NoDup (map fst gwOrd) → Forall (fun p => NoDup p.2) gwOrd →
  resolveModuleConflicts snap gwOrd results !! rk =
    map (resolveEntry snap (list_to_map gwOrd) rk) <$> results !! rk.
Proof.
  unfold resolveModuleConflicts. revert results.
  induction gwOrd as [|[g rks] gwOrd IH]; intros results Hnd Hall; simpl.
  { destruct (results !! rk) as [pp|]; simpl; [|done]. f_equal. symmetry. apply map_id. }
  apply NoDup_cons in Hnd as [Hnin Hnd]. apply Forall_cons in Hall as [Hrks Hall].
  rewrite (IH _ Hnd Hall). simpl in Hrks.
  rewrite conflictLoop_lookup by (by rewrite sortRoutes_perm).
  destruct (results !! rk) as [pp|]; simpl; [|done]. f_equal. rewrite map_map.
  apply map_ext. intros e. unfold resolveEntry. rewrite applyVerdict_gateway.
  destruct (decide (res_Gateway e = g)) as [<-|Hne].
  - rewrite lookup_insert_eq.
    destruct (list_to_map gwOrd !! res_Gateway e) as [rks'|] eqn:E; [|done].
    apply (elem_of_list_to_map_2 (M := gmap NamespacedName)) in E. destruct Hnin.
    apply list_elem_of_fmap. by exists (res_Gateway e, rks').
  - rewrite lookup_insert_ne by done. by rewrite applyVerdict_other.
Qed.

(** ** Who wins *)

Lemma findOwner_Some owner ms w m :
  findOwner owner ms = Some (w, m) → m ∈ ms ∧ owner !! m = Some w.
Proof.
  induction ms as [|m' ms IH]; simpl; [done|]. rewrite elem_of_cons.
  destruct (owner !! m') as [w'|] eqn:E; [|naive_solver]. intros [= -> ->]. auto.
Qed.

Lemma findOwner_None owner ms m : findOwner owner ms = None → m ∈ ms → owner !! m = None.
Proof.
  induction ms as [|m' ms IH]; simpl; [intros _ H; elem_nil|].
  rewrite elem_of_cons. destruct (owner !! m') as [w'|] eqn:E; [done|]. naive_solver.
Qed.

Lemma claimModules_lookup rk owner ms m :
  claimModules rk owner ms !! m = if decide (m ∈ ms) then Some rk else owner !! m.
Proof.
  unfold claimModules. induction ms as [|m' ms IH] using rev_ind; [done|].
  rewrite foldl_app; simpl. destruct (decide (m' = m)) as [->|Hne].
  - rewrite lookup_insert_eq, decide_True; [done|]. apply elem_of_app. right. by left.
  - rewrite lookup_insert_ne by done. rewrite IH.
    destruct (decide (m ∈ ms)) as [H|H], (decide (m ∈ ms ++ [m'])) as [H'|H']; try done.
    + destruct H'. apply elem_of_app. by left.
    + apply elem_of_app in H' as [?|H'%list_elem_of_singleton]; [done|congruence].
Qed.

(** [owner] holds the modules of the routes [acc] that kept their binding. *)
Definition owns (snap : Snapshot) (acc : list NamespacedName)
    (owner : gmap string NamespacedName) : Prop :=
  (∀ m w, owner !! m = Some w → w ∈ acc ∧ m ∈ routeModules snap w) ∧
  (∀ m w, w ∈ acc → m ∈ routeModules snap w → owner !! m = Some w).

Lemma owns_claim snap acc owner rk :
  owns snap acc owner → findOwner owner (routeModules snap rk) = None →
  owns snap (rk :: acc) (claimModules rk owner (routeModules snap rk)).
Proof.
  intros [H1 H2] Hn. split; intros m w; rewrite claimModules_lookup, elem_of_cons.
  - case_decide as Hm; [intros [= <-]; auto|]. naive_solver.
  - intros [->|Hw] Hm; [by rewrite decide_True|].
    specialize (H2 _ _ Hw Hm). rewrite decide_False; [done|].
    intros Hin. rewrite (findOwner_None _ _ _ Hn Hin) in H2. done.
Qed.

Lemma conflicts_winner snap rks acc owner rk w m :
  owns snap acc owner → NoDup rks →
  StronglySorted (notYounger snap) rks →
  (∀ a b, a ∈ acc → b ∈ rks → notYounger snap a b) →
  conflicts snap owner rks !! rk = Some (w, m) →
  m ∈ routeModules snap rk ∧ m ∈ routeModules snap w ∧ notYounger snap w rk ∧
  (w ∈ acc ∨ w ∈ rks ∧ conflicts snap owner rks !! w = None).
Proof.
  revert acc owner. induction rks as [|r rks IH]; intros acc owner Hown Hnd Hsort Hacc;
    simpl; [done|].
  apply NoDup_cons in Hnd as [Hnin Hnd]. apply StronglySorted_inv in Hsort as [Hsort Hr].
  rewrite Forall_forall in Hr.
  destruct (findOwner owner (routeModules snap r)) as [[w' m']|] eqn:Hf.
  - apply findOwner_Some in Hf as [Hm' Hw'].
    destruct (decide (r = rk)) as [->|Hne].
    + rewrite lookup_insert_eq. intros [= -> ->]. apply (proj1 Hown) in Hw' as [? ?].
      split_and!; auto. apply Hacc; [done|by left].
    + rewrite lookup_insert_ne by done. intros Hv.
      destruct (IH acc owner) as (? & ? & ? & Hcase); auto.
      { intros a b Ha Hb. apply Hacc; [done|by right]. }
      split_and!; auto. destruct Hcase as [?|[Hin ?]]; [by left|right].
      split; [by right|]. rewrite lookup_insert_ne; [done|]. by intros ->.
  - intros Hv.
    destruct (IH (r :: acc) _ (owns_claim _ _ _ _ Hown Hf)) as (? & ? & ? & Hcase); auto.
    { intros a b [->|Ha]%elem_of_cons Hb; [by apply Hr|]. apply Hacc; [done|by right]. }
    split_and!; auto. destruct Hcase as [[->|?]%elem_of_cons|[Hin ?]].
    + right. split; [by left|]. by apply conflicts_notin.
    + by left.
    + right. split; [by right|done].
Qed.

Lemma conflicts_disjoint snap rks acc owner a b m :
  owns snap acc owner → NoDup rks →
  a ∈ acc ++ rks → b ∈ acc ++ rks →
  conflicts snap owner rks !! a = None → conflicts snap owner rks !! b = None →
  m ∈ routeModules snap a → m ∈ routeModules snap b → a = b.
Proof.
  revert acc owner. induction rks as [|r rks IH]; intros acc owner Hown Hnd Ha Hb; simpl.
  { rewrite app_nil_r in *. intros _ _ Hma Hmb.
    pose proof (proj2 Hown _ _ Ha Hma). pose proof (proj2 Hown _ _ Hb Hmb). congruence. }
  apply NoDup_cons in Hnd as [Hnin Hnd].
  destruct (findOwner owner (routeModules snap r)) as [v|] eqn:Hf.
  - destruct (decide (r = a)) as [->|Hra]; [by rewrite lookup_insert_eq|].
    destruct (decide (r = b)) as [->|Hrb]; [by rewrite lookup_insert_eq; intros _|].
    rewrite !lookup_insert_ne by done.
    rewrite elem_of_app, elem_of_cons in Ha, Hb.
    apply IH with acc; try done; rewrite elem_of_app; naive_solver.
  - rewrite elem_of_app, elem_of_cons in Ha, Hb.
    apply IH with (r :: acc); try done; [by apply owns_claim|..];
      rewrite elem_of_app, elem_of_cons; naive_solver.
Qed.

Lemma owns_empty snap : owns snap [] ∅.
Proof. split; intros m w; [done|]. intros H. elem_nil. Qed.

(** ** The whole of [BindRoutes] *)

(** Route [rk] is accepted on Gateway [g] in [results]. *)
Definition acceptedOn (results : gmap NamespacedName (list ParentResult))
    (g rk : NamespacedName) : Prop :=
  ∃ pp, results !! rk = Some pp ∧ boundTo g pp.

Section bind_routes_props.
Context (selectorMatches : LabelSelector → gmap string string → result bool).
Context (snap : Snapshot) (claims : gmap string ClassClaim).

Abbreviation before := (bindAll selectorMatches snap claims).
Abbreviation after := (BindRoutesIn selectorMatches snap claims).

Lemma collectBound_routes ord g rk :
  ord ≡ₚ map_to_list before →
  rk ∈ default [] (collectBound ord !! g) ↔ acceptedOn before g rk.
Proof.
  intros Hord. rewrite collectBound_lookup. unfold acceptedOn.
  transitivity (rk ∈ map fst (filter (fun p : _ * list ParentResult => boundTo g p.2) ord)).
  { by destruct (filter _ ord). }
  rewrite Hord. change (@map) with (@fmap list list_fmap).
  rewrite list_elem_of_fmap. split.
  - intros ([rk' pp] & -> & [Hb Hin]%list_elem_of_filter). simpl in *.
    exists pp. by rewrite elem_of_map_to_list in Hin.
  - intros (pp & Hpp & Hb). exists (rk, pp). split; [done|].
    apply list_elem_of_filter. by rewrite elem_of_map_to_list.
Qed.

Lemma collectBound_NoDup ord g rks :
  ord ≡ₚ map_to_list before → collectBound ord !! g = Some rks → NoDup rks.
Proof.
  intros Hord. rewrite collectBound_lookup. intros E.
  assert (rks = map fst (filter (fun p : _ * list ParentResult => boundTo g p.2) ord)) as ->
    by (destruct (filter _ ord); by simplify_eq).
  apply (sublist_NoDup _ (ord.*1)); [rewrite Hord; apply NoDup_fst_map_to_list|].
  apply (fmap_sublist fst), sublist_filter.
Qed.

(** The map an admissible order enumerates. *)
Lemma rangeOrders_bound gwOrd :
  rangeOrders selectorMatches snap claims gwOrd →
  ∃ ord, ord ≡ₚ map_to_list before ∧ list_to_map gwOrd = collectBound ord ∧
    NoDup (map fst gwOrd) ∧ Forall (fun p => NoDup p.2) gwOrd.
Proof.
  intros (ord & Hord & Hgw). exists ord.
  assert (NoDup (gwOrd.*1)) as Hnd by (rewrite Hgw; apply NoDup_fst_map_to_list).
  split_and!; try done.
  - rewrite (list_to_map_proper _ _ Hnd Hgw). apply list_to_map_to_list.
  - apply Forall_forall. intros [g rks]. rewrite Hgw, elem_of_map_to_list. simpl.
    by apply collectBound_NoDup.
Qed.

Lemma after_lookup gwOrd ord rk :
  list_to_map gwOrd = collectBound ord →
  NoDup (map fst gwOrd) → Forall (fun p => NoDup p.2) gwOrd →
  after gwOrd !! rk = map (resolveEntry snap (collectBound ord) rk) <$> before !! rk.
Proof. intros <- Hnd Hall. unfold BindRoutesIn. by apply resolve_lookup. Qed.

Lemma applyVerdict_accepted g v e :
  res_Accepted (applyVerdict g v e) = true → res_Gateway e = g →
  v = None ∧ res_Accepted e = true.
Proof.
  intros Ha Hg. destruct v as [[w m]|]; [|done]. simpl in Ha. unfold markConflicted in Ha.
  rewrite (bool_decide_true _ Hg) in Ha. destruct (res_Accepted e) eqn:E; simpl in Ha; congruence.
Qed.

(** Which routes a gateway keeps. *)
Lemma after_acceptedOn gwOrd ord g rk :
  ord ≡ₚ map_to_list before → list_to_map gwOrd = collectBound ord →
  NoDup (map fst gwOrd) → Forall (fun p => NoDup p.2) gwOrd →
  acceptedOn (after gwOrd) g rk ↔
  acceptedOn before g rk ∧
  conflicts snap ∅ (sortRoutes snap (default [] (collectBound ord !! g))) !! rk = None.
Proof.
  intros Hord Hmap Hnd Hall. unfold acceptedOn at 1.
  rewrite (after_lookup _ _ _ Hmap Hnd Hall). split.
  - intros (pp & Hpp & Hb). destruct (before !! rk) as [pp0|] eqn:E; simplify_eq/=.
    apply boundTo_iff in Hb as (e' & Hin & Ha & Hg).
    change (@map) with (@fmap list list_fmap) in Hin.
    apply list_elem_of_fmap in Hin as (e & -> & Hin).
    unfold resolveEntry in Ha, Hg.
    destruct (collectBound ord !! res_Gateway e) as [rks|] eqn:Eb.
    + rewrite applyVerdict_gateway in Hg. subst g. rewrite Eb. simpl.
      apply applyVerdict_accepted in Ha as [? ?]; [|done]. split; [|done].
      exists pp0. split; [done|]. apply boundTo_iff. eauto.
    + subst g. rewrite Eb. split; [|done].
      exists pp0. split; [done|]. apply boundTo_iff. eauto.
  - intros ((pp0 & E & Hb) & Hc). rewrite E. simpl. eexists; split; [done|].
    apply boundTo_iff in Hb as (e & Hin & Ha & <-). apply boundTo_iff.
    exists (resolveEntry snap (collectBound ord) rk e).
    assert (resolveEntry snap (collectBound ord) rk e = e) as Heq.
    { unfold resolveEntry. destruct (collectBound ord !! res_Gateway e) as [rks|]; [|done].
      simpl in Hc. by rewrite Hc. }
    split; [|by rewrite Heq].
    change (@map) with (@fmap list list_fmap). apply list_elem_of_fmap. by exists e.
Qed.

(** Conflict resolution accepts nothing new. *)
Lemma after_before gwOrd g rk :
  rangeOrders selectorMatches snap claims gwOrd →
  acceptedOn (after gwOrd) g rk → acceptedOn before g rk.
Proof.
  intros (ord & Hord & Hmap & Hnd & Hall)%rangeOrders_bound H.
  by apply (after_acceptedOn gwOrd ord) in H as [H _].
Qed.

Lemma resolveEntry_cases gwOrd ord rk pp e :
  ord ≡ₚ map_to_list before → list_to_map gwOrd = collectBound ord →
  NoDup (map fst gwOrd) → Forall (fun p => NoDup p.2) gwOrd →
  before !! rk = Some pp → e ∈ pp →
  resolveEntry snap (collectBound ord) rk e = e ∨
  res_Accepted e = true ∧
  ∃ w m, resolveEntry snap (collectBound ord) rk e = markConflicted (res_Gateway e) w m e ∧
    m ∈ routeModules snap rk ∧ m ∈ routeModules snap w ∧ w ≠ rk ∧ notYounger snap w rk ∧
    acceptedOn (after gwOrd) (res_Gateway e) w.
Proof.
  intros Hord Hmap Hnd Hall Hpp He. unfold resolveEntry.
  destruct (collectBound ord !! res_Gateway e) as [rks|] eqn:Eb; [|by left].
  destruct (conflicts snap ∅ (sortRoutes snap rks) !! rk) as [[w m]|] eqn:Ec; [|by left].
  destruct (res_Accepted e) eqn:Ea; [right; split; [done|]|].
  2: { left. simpl. unfold markConflicted. by rewrite Ea. }
  assert (NoDup (sortRoutes snap rks)) as Hnds
    by (rewrite sortRoutes_perm; by apply (collectBound_NoDup ord (res_Gateway e))).
  destruct (conflicts_winner snap (sortRoutes snap rks) [] ∅ rk w m)
    as (Hm & Hmw & Hle & [Hw|[Hw Hnone]]);
    eauto using owns_empty, sortRoutes_sorted.
  { intros a b Hin. elem_nil. }
  { elem_nil. }
  exists w, m. split_and!; auto; [by intros ->; rewrite Hnone in Ec|].
  apply (after_acceptedOn gwOrd ord); try done. rewrite Eb. simpl. split; [|done].
  apply (collectBound_routes ord); [done|]. rewrite Eb. simpl. by rewrite <- sortRoutes_perm.
Qed.

(** C8: After [BindRoutes], whatever order Go ranges over its maps in, no two
    routes accepted on the same Gateway serve the same module. *)
Theorem BindRoutes_module_exclusive gwOrd g a b m :
  rangeOrders selectorMatches snap claims gwOrd →
  acceptedOn (after gwOrd) g a → acceptedOn (after gwOrd) g b →
  m ∈ routeModules snap a → m ∈ routeModules snap b → a = b.
Proof.
  intros (ord & Hord & Hmap & Hnd & Hall)%rangeOrders_bound Ha Hb.
  rewrite (after_acceptedOn _ ord) in Ha, Hb by done.
  destruct Ha as [Ha Hca], Hb as [Hb Hcb].
  rewrite <- (collectBound_routes ord) in Ha, Hb by done.
  destruct (collectBound ord !! g) as [rks|] eqn:Eb; simpl in *;
    [|elem_nil].
  apply (conflicts_disjoint snap (sortRoutes snap rks) [] ∅); simpl;
    rewrite ?sortRoutes_perm; eauto using owns_empty, collectBound_NoDup.
Qed.

Lemma before_route rk pp : before !! rk = Some pp → ∃ route, RsyncRoutes snap !! rk = Some route.
Proof.
  unfold bindAll. rewrite map_lookup_imap. destruct (RsyncRoutes snap !! rk) as [route|]; [by exists route|done].
Qed.

(** Created earlier, or at the same time with a name that comes first. *)
Definition createdBefore (wk : NamespacedName) (winner : RsyncRoute) (rk : NamespacedName) (route : RsyncRoute) : Prop :=
  (om_CreationTimestamp (r_Meta winner) < om_CreationTimestamp (r_Meta route))%Z ∨
  om_CreationTimestamp (r_Meta winner) = om_CreationTimestamp (r_Meta route) ∧
    String.le (nnString wk) (nnString rk).

(** C36: Conflict resolution only ever takes an accepted binding away, and only
    for cause: every result of [BindRoutes] is the result [bindParent] gave, at
    the same position, unless it was accepted and is now refused as
    [ModuleConflicted] in favour of another route that was created earlier (or at the
    same time, its namespace/name coming first), claims one of the same modules and is
    itself accepted on that Gateway in the end. *)
Theorem BindRoutes_older_wins gwOrd rk pp i e :
  rangeOrders selectorMatches snap claims gwOrd →
  before !! rk = Some pp → pp !! i = Some e →
  ∃ pp' e', after gwOrd !! rk = Some pp' ∧ length pp' = length pp ∧ pp' !! i = Some e' ∧
    (e' = e ∨
     res_Accepted e = true ∧ res_Accepted e' = false ∧
     res_Reason e' = ReasonModuleConflicted ∧ res_Gateway e' = res_Gateway e ∧
     ∃ w m route winner, RsyncRoutes snap !! rk = Some route ∧ RsyncRoutes snap !! w = Some winner ∧
       m ∈ EffectiveModules route ∧ m ∈ EffectiveModules winner ∧ w ≠ rk ∧
       createdBefore w winner rk route ∧ acceptedOn (after gwOrd) (res_Gateway e) w).
Proof.
  intros (ord & Hord & Hmap & Hnd & Hall)%rangeOrders_bound Hpp He.
  rewrite (after_lookup gwOrd ord) by done. rewrite Hpp. simpl.
  eexists _, (resolveEntry snap (collectBound ord) rk e). split; [done|].
  rewrite length_map. split; [done|]. change (@map) with (@fmap list list_fmap).
  rewrite list_lookup_fmap, He. split; [done|].
  destruct (resolveEntry_cases gwOrd ord rk pp e) as [Heq|(Ha & w & m & Heq & Hm & Hmw & Hne & Hold & Hacc)];
    eauto using list_elem_of_lookup_2.
  right. rewrite Heq. unfold markConflicted.
  rewrite Ha, bool_decide_true by done. simpl. split_and!; try done.
  destruct (before_route rk pp Hpp) as [route Er].
  assert (∃ winner, RsyncRoutes snap !! w = Some winner) as [winner Ew].
  { destruct Hacc as (ppw & Hw & _). rewrite (after_lookup gwOrd ord) in Hw by done.
    destruct (before !! w) as [ppw0|] eqn:E; [|done]. by apply before_route in E. }
  exists w, m, route, winner. unfold routeModules in Hm, Hmw. rewrite Er in Hm. rewrite Ew in Hmw.
  split_and!; try done. apply notYounger_iff in Hold. unfold creationTime in Hold. by rewrite Er, Ew in Hold.
Qed.

Lemma order_irrelevant gwOrd :
  rangeOrders selectorMatches snap claims gwOrd →
  (∀ k r, RsyncRoutes snap !! k = Some r → slashFree (nn_Namespace k)) →
  after gwOrd = BindRoutes selectorMatches snap claims.
Proof.
  intros Hr Hs. unfold BindRoutes. apply map_eq. intros rk.
  destruct (rangeOrders_bound _ Hr) as (ord & Hord & Hmap & Hnd & Hall).
  destruct (rangeOrders_bound (map_to_list (collectBound (map_to_list before))))
    as (ord' & Hord' & Hmap' & Hnd' & Hall'); [by exists (map_to_list before)|].
  rewrite (after_lookup gwOrd ord), (after_lookup _ ord') by done.
  destruct (before !! rk) as [pp|]; simpl; [|done]. f_equal. apply map_ext. intros e.
  unfold resolveEntry.
  assert (∀ g, filter (fun p : _ * list ParentResult => boundTo g p.2) ord ≡ₚ
               filter (fun p : _ * list ParentResult => boundTo g p.2) ord') as Hf
    by (intros g; by rewrite Hord, Hord').
  specialize (Hf (res_Gateway e)). rewrite !collectBound_lookup.
  destruct (filter _ ord) as [|p ps] eqn:E1, (filter _ ord') as [|p' ps'] eqn:E2;
    [done|by apply Permutation_nil_cons in Hf|by symmetry in Hf; apply Permutation_nil_cons in Hf|].
  rewrite (sortRoutes_order_irrelevant snap (map fst (p :: ps)) (map fst (p' :: ps'))); [done|..].
  - by rewrite Hf.
  - rewrite <- E1. apply Forall_map, Forall_forall. intros [k pk] [_ Hin]%list_elem_of_filter.
    simpl. rewrite Hord, elem_of_map_to_list in Hin. unfold bindAll in Hin.
    rewrite map_lookup_imap in Hin. destruct (RsyncRoutes snap !! k) eqn:Ek; [|done]. eauto.
Qed.

(** The result of [BindRoutes] does not depend on the order in which Go
    ranges over its maps, as Kubernetes namespaces contain no slash. *)
Theorem BindRoutes_deterministic gwOrd :
  rangeOrders selectorMatches snap claims gwOrd →
  (∀ k r, RsyncRoutes snap !! k = Some r → slashFree (nn_Namespace k)) →
  after gwOrd = BindRoutes selectorMatches snap claims.
Proof. apply order_irrelevant. Qed.

End bind_routes_props.

(** ** When a parentRef is accepted *)

Section bind_parent_props.
Context (selectorMatches : LabelSelector → gmap string string → result bool).

(** The rsync listeners a parentRef may attach to: the first of the section it
    names, or all of them. *)
Definition candidateListeners (gw : Gateway) (p : ParentReference) : list Listener :=
  match parentSection p with
  | None => rsyncListeners gw
  | Some want => take 1 (filter (fun l => l_Name l = want) (rsyncListeners gw))
  end.

Lemma firstAllowing_inl gns rk route rej cands l :
  firstAllowing selectorMatches gns rk route rej cands = inl l →
  l ∈ cands ∧ listenerAllows selectorMatches l gns rk route = "".
Proof.
  revert rej. induction cands as [|c cands IH]; intros rej; simpl; [done|].
  rewrite elem_of_cons. case_decide; [intros [= ->]; auto|]. naive_solver.
Qed.

Lemma firstAllowing_inr gns rk route rej cands rej' l :
  firstAllowing selectorMatches gns rk route rej cands = inr rej' →
  l ∈ cands → listenerAllows selectorMatches l gns rk route ≠ "".
Proof.
  revert rej. induction cands as [|c cands IH]; intros rej; simpl.
  { intros _ H. elem_nil. }
  rewrite elem_of_cons. case_decide; [done|]. intros E [->|Hl]; eauto.
Qed.

#[local] Arguments firstAllowing : simpl never.
#[local] Arguments parentGateway : simpl never.

(** What a result says of the parentRef it is for. *)
Definition parentSpec (snap : Snapshot) (claims : gmap string ClassClaim)
    (rk : NamespacedName) (route : RsyncRoute) (p : ParentReference) (res : ParentResult) : Prop :=
  res_ParentRef res = p ∧
  (res_Accepted res = true ↔
    parentGroup p = gatewayAPIGroup ∧ parentKind p = "Gateway" ∧
    ∃ gw claim l, Gateways snap !! parentGateway rk p = Some gw ∧
      claims !! gw_GatewayClassName gw = Some claim ∧
      cl_Claimed claim = true ∧ cl_Accepted claim = true ∧
      l ∈ candidateListeners gw p ∧
      listenerAllows selectorMatches l (nn_Namespace (parentGateway rk p)) rk route = "") ∧
  (res_Accepted res = true →
    res_Gateway res = parentGateway rk p ∧ res_Reason res = RouteReasonAccepted ∧
    res_Message res = "" ∧
    ∃ gw l, Gateways snap !! parentGateway rk p = Some gw ∧ res_Listener res = Some l ∧
      l ∈ candidateListeners gw p ∧
      listenerAllows selectorMatches l (nn_Namespace (parentGateway rk p)) rk route = "") ∧
  (res_Accepted res = false →
    res_Listener res = None ∧
    (res_Reason res = RouteReasonNoMatchingParent ∨
     res_Reason res = RouteReasonNotAllowedByListeners)).

Lemma tail_spec snap claims rk route p gw cl cands f :
  parentGroup p = gatewayAPIGroup → parentKind p = "Gateway" →
  Gateways snap !! parentGateway rk p = Some gw →
  claims !! gw_GatewayClassName gw = Some cl →
  cl_Claimed cl = true → cl_Accepted cl = true →
  candidateListeners gw p = cands →
  parentSpec snap claims rk route p
    match firstAllowing selectorMatches (nn_Namespace (parentGateway rk p)) rk route [] cands with
    | inl l => mkParentResult p (parentGateway rk p) (Some l) true RouteReasonAccepted ""
    | inr rejections =>
        rejected p (parentGateway rk p) RouteReasonNotAllowedByListeners (f rejections)
    end.
Proof.
  intros Hg Hk Hgw Hcl H1 H2 <-. unfold parentSpec.
  destruct (firstAllowing _ _ _ _ _ _) as [l|rej] eqn:E; simpl.
  - apply firstAllowing_inl in E as [Hin Hal]. split_and!; try done; [|by eauto 10].
    split; [|done]. intros _. split_and!; eauto 10.
  - split_and!; try done; [|by auto]. split; [done|].
    intros (_ & _ & gw' & cl' & l & ? & _ & _ & _ & Hin & Hal). simplify_eq.
    by eapply firstAllowing_inr in E.
Qed.

Lemma bindParent_sound snap claims rk route p :
  parentSpec snap claims rk route p (bindParent selectorMatches snap claims rk route p).
Proof.
  simpl. unfold bindParent.
  case_bool_decide as Hg; simpl; [|unfold parentSpec; naive_solver].
  case_bool_decide as Hk; simpl; [|unfold parentSpec; naive_solver].
  destruct (Gateways snap !! _) as [gw|] eqn:Egw; [|unfold parentSpec; naive_solver].
  destruct (claims !! gw_GatewayClassName gw) as [cl|] eqn:Ecl; simpl; [|unfold parentSpec; naive_solver].
  destruct (cl_Claimed cl) eqn:E1; simpl; [|unfold parentSpec; naive_solver].
  destruct (cl_Accepted cl) eqn:E2; simpl; [|unfold parentSpec; naive_solver].
  assert (∀ msg, candidateListeners gw p = [] → parentSpec snap claims rk route p
            (rejected p (parentGateway rk p) RouteReasonNoMatchingParent msg)) as Hnone.
  { intros msg Hc. unfold parentSpec. simpl. split_and!; try done; [|by auto].
    split; [done|]. intros (_ & _ & gw' & cl' & l & ? & _ & _ & _ & Hin & _). simplify_eq.
    rewrite Hc in Hin. elem_nil. }
  case_decide as El.
  { apply Hnone. unfold candidateListeners. rewrite El. by destruct (parentSection p). }
  destruct (parentSection p) as [want|] eqn:Ep; [destruct (filter _ _) as [|l0 ls] eqn:Ef|].
  - apply Hnone. unfold candidateListeners. by rewrite Ep, Ef.
  - eapply tail_spec; eauto. unfold candidateListeners. by rewrite Ep, Ef.
  - eapply tail_spec; eauto. unfold candidateListeners. by rewrite Ep.
Qed.

(** A route accepted on a Gateway exists, and the Gateway is managed. *)
Lemma accepted_managed snap claims g rk :
  acceptedOn (bindAll selectorMatches snap claims) g rk →
  ∃ route gw claim, RsyncRoutes snap !! rk = Some route ∧ Gateways snap !! g = Some gw ∧
    claims !! gw_GatewayClassName gw = Some claim ∧
    cl_Claimed claim = true ∧ cl_Accepted claim = true.
Proof.
  intros (pp & Hpp & Hb). unfold bindAll in Hpp. rewrite map_lookup_imap in Hpp.
  destruct (RsyncRoutes snap !! rk) as [route|] eqn:Er; [|done]. simpl in Hpp.
  injection Hpp as <-. apply boundTo_iff in Hb as (res & Hin & Ha & Hg).
  apply list_elem_of_fmap in Hin as (p & -> & _).
  destruct (bindParent_sound snap claims rk route p) as (_ & Hiff & Hacc & _).
  apply Hacc in Ha as Ha'. destruct Ha' as (Hg' & _).
  apply Hiff in Ha as (_ & _ & gw & claim & l & Hgw & Hcl & H1 & H2 & _).
  exists route, gw, claim. by rewrite <- Hg, Hg'.
Qed.

(** A parentRef is accepted exactly when it names a Gateway (group and kind
    of the gateway API) that exists, whose class this controller manages and
    accepts, and one of whose candidate rsync listeners allows the route; an
    accepted result carries such a listener and no message, and a refused one
    carries no listener and one of the two documented reasons. *)
Theorem bindParent_spec snap claims rk route p :
  parentSpec snap claims rk route p (bindParent selectorMatches snap claims rk route p).
Proof. apply bindParent_sound. Qed.

End bind_parent_props.

(** ** Instances on the fixture *)

Section instances.
Import Fixture.

(** Ranging over the results in the opposite order. *)
Definition fixtureOrder : list (NamespacedName * list NamespacedName) :=
  map_to_list (collectBound (reverse (map_to_list (bindAll noSelector snap claims)))).

Lemma fixtureOrder_ok : rangeOrders noSelector snap claims fixtureOrder.
Proof. eexists. split; [apply reverse_Permutation|done]. Qed.

Example fixture_conflict :
  map (fun res => (res_Accepted res, res_Reason res)) <$>
    BindRoutesIn noSelector snap claims fixtureOrder !! youngKey =
  Some [(false, ReasonModuleConflicted)].
Proof. by vm_compute. Qed.

Lemma BindRoutes_module_exclusive_witness :
  acceptedOn (BindRoutesIn noSelector snap claims fixtureOrder) gwKey oldKey ∧ oldKey = oldKey.
Proof.
  assert (acceptedOn (BindRoutesIn noSelector snap claims fixtureOrder) gwKey oldKey) as Ha.
  { eexists. split; [by vm_compute|]. by apply (bool_decide_unpack _); vm_compute. }
  split; [exact Ha|].
  apply (BindRoutes_module_exclusive noSelector snap claims fixtureOrder gwKey oldKey oldKey "debian"
           fixtureOrder_ok Ha Ha); vm_compute; left.
Defined.

Lemma BindRoutes_older_wins_witness :
  ∃ w winner, RsyncRoutes snap !! w = Some winner ∧ createdBefore w winner youngKey youngRoute ∧
    acceptedOn (BindRoutesIn noSelector snap claims fixtureOrder) gwKey w.
Proof.
  destruct (BindRoutes_older_wins noSelector snap claims fixtureOrder youngKey
    (map (bindParent noSelector snap claims youngKey youngRoute) [parent]) 0
    (bindParent noSelector snap claims youngKey youngRoute parent))
    as (pp' & e' & H1 & _ & H2 & Hcase).
  - exact fixtureOrder_ok.
  - by vm_compute.
  - done.
  - assert (res_Accepted <$> (BindRoutesIn noSelector snap claims fixtureOrder !! youngKey ≫= fun pp => pp !! 0%nat) = Some false) as Ef
      by (vm_compute; reflexivity).
    rewrite H1 in Ef. simpl in Ef. rewrite H2 in Ef. simpl in Ef.
    destruct Hcase as [->|(_ & _ & _ & _ & w & m & route & winner & Er & Ew & _ & _ & _ & Hc & Ha)].
    { exfalso. vm_compute in Ef. discriminate Ef. }
    exists w, winner. assert (route = youngRoute) as ->.
    { assert (RsyncRoutes snap !! youngKey = Some youngRoute) as Ey by (vm_compute; reflexivity). congruence. }
    split_and!; [exact Ew|exact Hc|].
    assert (res_Gateway (bindParent noSelector snap claims youngKey youngRoute parent) = gwKey) as <- by (vm_compute; reflexivity).
    exact Ha.
Defined.

Lemma BindRoutes_deterministic_witness :
  BindRoutesIn noSelector snap claims fixtureOrder = BindRoutes noSelector snap claims.
Proof.
  apply (BindRoutes_deterministic noSelector snap claims fixtureOrder fixtureOrder_ok).
  intros k r Hk.
  assert (map_Forall (fun k _ => nn_Namespace k = "apps") (RsyncRoutes snap)) as Hall
    by (apply (bool_decide_unpack _); by vm_compute).
  rewrite (Hall _ _ Hk). apply (bool_decide_unpack _). by vm_compute.
Defined.
End instances.
