(* ===== verification/Backends.v ===== *)
(** * Resolving the backendRefs of a route: [internal/gateway/backends.go] *)
From S2P Require Import Prelude GoStd Api Snapshot Claim Fixture.
Open Scope Z_scope.

Record BackendStatus := mkBackendStatus {
  bs_Resolved : bool; bs_Reason : string; bs_Message : string }.

Record ResolvedBackend := mkResolved { rb_Service : NamespacedName; rb_Port : Z }.

Definition referenceGrantPermits (snap : Snapshot)
    (fromNamespace backendNamespace serviceName : string) : bool :=
  existsb (fun grant =>
    existsb (fun from =>
      if bool_decide (gf_Group from ≠ GroupVersionGroup)
         || bool_decide (gf_Kind from ≠ RouteKind)
         || bool_decide (gf_Namespace from ≠ fromNamespace)
      then false
      else
        existsb (fun to =>
          if bool_decide (gt_Group to ≠ CoreGroup) || bool_decide (gt_Kind to ≠ "Service")
          then false
          else match gt_Name to with
               | None => true
               | Some n => bool_decide (n = "") || bool_decide (n = serviceName)
               end) (rg_To grant)) (rg_From grant))
    (default [] (ReferenceGrants snap !! backendNamespace)).

(** The closure [fail]: only the first failure is recorded. *)
Definition fail (status : BackendStatus) (reason msg : string) : BackendStatus :=
  if bs_Resolved status then mkBackendStatus false reason msg else status.

Definition backendGroup (ref : BackendRef) : string := default "" (br_Group ref).
Definition backendKind (ref : BackendRef) : string := default "Service" (br_Kind ref).
Definition backendNamespace (routeKey : NamespacedName) (ref : BackendRef) : string :=
  match br_Namespace ref with
  | Some ns => if decide (ns ≠ "") then ns else nn_Namespace routeKey
  | None => nn_Namespace routeKey
  end.
Definition excluded (ref : BackendRef) : bool :=
  match br_Weight ref with Some w => w =? 0 | None => false end.

(** One iteration of the loop over the backendRefs. *)
Definition resolveRef (snap : Snapshot) (routeKey : NamespacedName)
    (acc : list ResolvedBackend * BackendStatus) (ref : BackendRef)
    : list ResolvedBackend * BackendStatus :=
  let '(usable, status) := acc in
  if bool_decide (backendGroup ref ≠ CoreGroup) || bool_decide (backendKind ref ≠ "Service") then
    (usable, fail status RouteReasonInvalidKind
       ("unsupported backend group/kind " +:+ backendGroup ref +:+ "/" +:+ backendKind ref
          +:+ "; only core Services are supported"))
  else
    match br_Port ref with
    | None =>
        (usable, fail status RouteReasonBackendNotFound
           ("backendRef " +:+ quote (br_Name ref)
              +:+ " has no port; port is required by rsync-gateway"))
    | Some port =>
        let ns := backendNamespace routeKey ref in
        let svcKey := mkNN ns (br_Name ref) in
        match Services snap !! svcKey with
        | None =>
            (usable, fail status RouteReasonBackendNotFound
               ("Service " +:+ nnString svcKey +:+ " not found"))
        | Some _ =>
            if bool_decide (ns ≠ nn_Namespace routeKey)
               && negb (referenceGrantPermits snap (nn_Namespace routeKey) ns (br_Name ref)) then
              (usable, fail status RouteReasonRefNotPermitted
                 ("cross-namespace reference from " +:+ nnString routeKey +:+ " to Service "
                    +:+ nnString svcKey +:+ " is not permitted by a ReferenceGrant"))
            else if negb (excluded ref) then (usable ++ [mkResolved svcKey port], status)
            else (usable, status)
        end
    end.

Definition ResolveBackends (snap : Snapshot) (routeKey : NamespacedName) (route : RsyncRoute)
    : list ResolvedBackend * BackendStatus :=
  foldl (resolveRef snap routeKey) ([], mkBackendStatus true RouteReasonResolvedRefs "")
    (BackendRefs (r_Spec route)).

(** ** What the API asks of a backendRef *)

(** A ReferenceGrant in namespace [ns] lets RsyncRoutes of [from] refer to the
    Service [name]. *)
Definition granted (snap : Snapshot) (from ns name : string) : Prop :=
  ∃ gs grant f t, ReferenceGrants snap !! ns = Some gs ∧ grant ∈ gs ∧
    f ∈ rg_From grant ∧ gf_Group f = GroupVersionGroup ∧ gf_Kind f = RouteKind ∧
    gf_Namespace f = from ∧
    t ∈ rg_To grant ∧ gt_Group t = CoreGroup ∧ gt_Kind t = "Service" ∧
    (gt_Name t = None ∨ gt_Name t = Some "" ∨ gt_Name t = Some name).

(** [ref], in route [rk], refers to backend [b]. *)
Definition refersToBackend (snap : Snapshot) (rk : NamespacedName) (ref : BackendRef)
    (b : ResolvedBackend) : Prop :=
  backendGroup ref = CoreGroup ∧ backendKind ref = "Service" ∧
  br_Port ref = Some (rb_Port b) ∧
  rb_Service b = mkNN (backendNamespace rk ref) (br_Name ref) ∧
  is_Some (Services snap !! rb_Service b) ∧
  (nn_Namespace (rb_Service b) = nn_Namespace rk ∨
   granted snap (nn_Namespace rk) (nn_Namespace (rb_Service b)) (br_Name ref)).

Lemma referenceGrantPermits_iff snap from ns name :
  referenceGrantPermits snap from ns name = true ↔ granted snap from ns name.
Proof.
  unfold referenceGrantPermits, granted. rewrite existsb_iff.
  setoid_rewrite existsb_iff. split.
  - intros (grant & Hg & f & Hf & Hc).
    destruct (ReferenceGrants snap !! ns) as [gs|] eqn:E; simpl in Hg;
      [|elem_nil].
    repeat case_bool_decide; simpl in Hc; try done.
    apply existsb_iff in Hc as (t & Ht & Hc). exists gs, grant, f, t.
    repeat case_bool_decide; simpl in Hc; try done.
    split_and!; try done; try by apply dec_stable.
    destruct (gt_Name t) as [n|]; [|by auto]. right.
    apply orb_true_iff in Hc as [Hc%bool_decide_eq_true|Hc%bool_decide_eq_true]; subst; auto.
  - intros (gs & grant & f & t & Hgs & Hg & Hf & H1 & H2 & H3 & Ht & H4 & H5 & H6).
    rewrite Hgs. simpl. exists grant. split; [done|]. exists f. split; [done|].
    rewrite H1, H2, H3, !bool_decide_false by (intros Hn; by apply Hn). simpl.
    apply existsb_iff. exists t. split; [done|].
    rewrite H4, H5, !bool_decide_false by (intros Hn; by apply Hn). simpl.
    destruct H6 as [->|[->| ->]]; [done|done|]. by rewrite (bool_decide_true (name = name)), orb_true_r.
Qed.

(** The reason a backendRef is refused for, [None] when it resolves. *)
Definition refusal (snap : Snapshot) (rk : NamespacedName) (ref : BackendRef) : option string :=
  if decide (backendGroup ref = CoreGroup ∧ backendKind ref = "Service") then
    match br_Port ref with
    | None => Some RouteReasonBackendNotFound
    | Some _ =>
        match Services snap !! mkNN (backendNamespace rk ref) (br_Name ref) with
        | None => Some RouteReasonBackendNotFound
        | Some _ =>
            if decide (backendNamespace rk ref = nn_Namespace rk) then None
            else if referenceGrantPermits snap (nn_Namespace rk) (backendNamespace rk ref)
                      (br_Name ref)
            then None else Some RouteReasonRefNotPermitted
        end
    end
  else Some RouteReasonInvalidKind.

Lemma refusal_None snap rk ref :
  refusal snap rk ref = None ↔ ∃ b, refersToBackend snap rk ref b.
Proof.
  unfold refusal, refersToBackend. split.
  - repeat case_decide; repeat case_match; try done; intros _; destruct_and!;
      (eexists (mkResolved (mkNN _ _) _); simpl; split_and!; eauto);
      right; by apply referenceGrantPermits_iff.
  - intros ([svc port] & Hg & Hk & Hp & Hs & [s Hsvc] & Hperm); simpl in *. subst svc.
    rewrite decide_True, Hp, Hsvc by done. case_decide; [done|].
    destruct Hperm as [?|Hperm%referenceGrantPermits_iff]; [done|]. simpl in Hperm.
    by rewrite Hperm.
Qed.

Lemma resolveRef_refused snap rk usable status ref reason :
  refusal snap rk ref = Some reason →
  ∃ msg, resolveRef snap rk (usable, status) ref = (usable, fail status reason msg).
Proof.
  unfold refusal, resolveRef. intros H.
  destruct (decide (_ ∧ _)) as [[Hg Hk]|Hn].
  - rewrite Hg, Hk, !bool_decide_false by (intros Hx; by apply Hx). simpl.
    destruct (br_Port ref); [|simplify_eq; by eexists].
    destruct (Services snap !! _); [|simplify_eq; by eexists].
    case_decide as Hns; [done|]. rewrite bool_decide_true by done.
    destruct (referenceGrantPermits _ _ _ _); simplify_eq. by eexists.
  - simplify_eq. eexists.
    assert (bool_decide (backendGroup ref ≠ CoreGroup)
            || bool_decide (backendKind ref ≠ "Service") = true) as ->; [|done].
    apply orb_true_iff. rewrite !bool_decide_eq_true. by apply not_and_l in Hn.
Qed.

Lemma resolveRef_resolved snap rk usable status ref b :
  refersToBackend snap rk ref b →
  resolveRef snap rk (usable, status) ref =
    (if excluded ref then usable else usable ++ [b], status).
Proof.
  destruct b as [svc port]. intros (Hg & Hk & Hp & Hs & [s Hsvc] & Hperm). simpl in *. subst svc.
  unfold resolveRef.
  rewrite Hg, Hk, !bool_decide_false by (intros Hx; by apply Hx). simpl.
  rewrite Hp, Hsvc. simpl in Hperm.
  assert (bool_decide (backendNamespace rk ref ≠ nn_Namespace rk)
     && negb (referenceGrantPermits snap (nn_Namespace rk) (backendNamespace rk ref) (br_Name ref))
     = false) as ->; [|by destruct (excluded ref)].
  destruct Hperm as [Heq|Hgr%referenceGrantPermits_iff].
  - rewrite bool_decide_false; [done|]. intros Hx. by apply Hx.
  - by rewrite Hgr, andb_false_r.
Qed.

Lemma refersToBackend_unique snap rk ref b1 b2 :
  refersToBackend snap rk ref b1 → refersToBackend snap rk ref b2 → b1 = b2.
Proof.
  destruct b1, b2. unfold refersToBackend. simpl. intros (_ & _ & ? & ? & _) (_ & _ & ? & ? & _).
  by simplify_eq.
Qed.

Lemma usable_iff snap rk route b :
  b ∈ (ResolveBackends snap rk route).1 ↔
  ∃ ref, ref ∈ BackendRefs (r_Spec route) ∧ br_Weight ref ≠ Some 0 ∧
    refersToBackend snap rk ref b.
Proof.
  unfold ResolveBackends. induction (BackendRefs (r_Spec route)) as [|ref refs IH] using rev_ind.
  { simpl. split; [intros H; elem_nil|].
    intros (r & H & _). elem_nil. }
  rewrite foldl_app. simpl. setoid_rewrite elem_of_app.
  destruct (foldl _ _ refs) as [usable status] eqn:E. simpl in IH.
  setoid_rewrite list_elem_of_singleton.
  destruct (refusal snap rk ref) as [reason|] eqn:Hr.
  - destruct (resolveRef_refused _ _ usable status _ _ Hr) as [msg ->]. simpl. rewrite IH.
    split; [naive_solver|]. intros (r & [Hin| ->] & Hw & Hb); [eauto|].
    assert (refusal snap rk ref = None) by (apply refusal_None; eauto). congruence.
  - apply refusal_None in Hr as [b0 Hb0]. rewrite (resolveRef_resolved _ _ _ _ _ _ Hb0). simpl.
    assert (excluded ref = true ↔ br_Weight ref = Some 0) as Hex.
    { unfold excluded. destruct (br_Weight ref) as [w|]; [|done]. rewrite Z.eqb_eq. naive_solver. }
    destruct (excluded ref).
    + rewrite IH. naive_solver.
    + rewrite elem_of_app, list_elem_of_singleton, IH. split.
      * intros [(r & ? & ?)| ->]; [eauto|]. exists ref. naive_solver.
      * intros (r & [?| ->] & ? & Hb); [eauto|]. right.
        by eapply refersToBackend_unique.
Qed.

(** The data plane gets exactly the backends it may use: those a backendRef
    with a nonzero (or absent) weight refers to as a core Service with a port,
    which exists, and which is in the namespace of the route or opened to it by
    a ReferenceGrant of its own namespace. *)
Theorem ResolveBackends_usable_iff snap rk route b :
  b ∈ (ResolveBackends snap rk route).1 ↔
  ∃ ref, ref ∈ BackendRefs (r_Spec route) ∧ br_Weight ref ≠ Some 0 ∧
    refersToBackend snap rk ref b.
Proof. apply usable_iff. Qed.

Lemma resolveRef_status snap rk acc ref :
  (resolveRef snap rk acc ref).2 =
    match refusal snap rk ref with
    | Some reason => fail acc.2 reason (bs_Message (resolveRef snap rk acc ref).2)
    | None => acc.2
    end.
Proof.
  destruct acc as [usable status]. destruct (refusal snap rk ref) as [reason|] eqn:Hr.
  - destruct (resolveRef_refused _ _ usable status _ _ Hr) as [msg ->]. simpl.
    unfold fail. by destruct (bs_Resolved status).
  - apply refusal_None in Hr as [b Hb]. by rewrite (resolveRef_resolved _ _ _ _ _ _ Hb).
Qed.

(** The ResolvedRefs outcome is true exactly when every backendRef resolves,
    and otherwise reports the reason of the first one that does not. *)
Theorem ResolveBackends_status snap rk route :
  let refs := BackendRefs (r_Spec route) in
  let status := (ResolveBackends snap rk route).2 in
  (bs_Resolved status = true ∧ bs_Reason status = RouteReasonResolvedRefs ∧
   bs_Message status = "" ∧ ∀ ref, ref ∈ refs → ∃ b, refersToBackend snap rk ref b) ∨
  (bs_Resolved status = false ∧
   ∃ l1 ref l2, refs = l1 ++ ref :: l2 ∧
     (∀ r, r ∈ l1 → ∃ b, refersToBackend snap rk r b) ∧
     refusal snap rk ref = Some (bs_Reason status) ∧
     ¬ ∃ b, refersToBackend snap rk ref b).
Proof.
  cbv zeta. unfold ResolveBackends.
  setoid_rewrite <- refusal_None.
  induction (BackendRefs (r_Spec route)) as [|ref refs IH] using rev_ind.
  { left. split_and!; try done. intros r H. elem_nil. }
  rewrite foldl_app. simpl. destruct (foldl _ _ refs) as [usable status] eqn:E. simpl in IH.
  pose proof (resolveRef_status snap rk (usable, status) ref) as Hst.
  destruct (resolveRef snap rk (usable, status) ref) as [usable' status']. simpl in *.
  destruct IH as [(Hres & Hreason & Hmsg & Hall)|(Hres & l1 & r & l2 & Hrefs & Hl1 & Hr & Hnr)].
  - destruct (refusal snap rk ref) as [reason|] eqn:Hr.
    + right. unfold fail in Hst. rewrite Hres in Hst.
      destruct status' as [rs rn ms]. simpl in *. injection Hst as -> ->. split; [done|].
      exists refs, ref, []. by rewrite Hr.
    + left. subst status'. split_and!; try done. intros r [?|Hs]%elem_of_app; [by apply Hall|].
      by apply list_elem_of_singleton in Hs as ->.
  - right. assert (status' = status) as -> by
      (rewrite Hst; destruct (refusal snap rk ref); [|done]; unfold fail; by rewrite Hres).
    split; [done|]. exists l1, r, (l2 ++ [ref]). rewrite Hrefs. by rewrite <- app_assoc.
Qed.

Example fixture_backends :
  ResolveBackends Fixture.snap Fixture.oldKey Fixture.oldRoute =
    ([mkResolved (mkNN "apps" "deb") 873; mkResolved (mkNN "shared" "deb") 873],
     mkBackendStatus true RouteReasonResolvedRefs "").
Proof. by vm_compute. Qed.

Example fixture_missing_backend :
  bs_Reason (ResolveBackends Fixture.snap Fixture.youngKey Fixture.youngRoute).2
  = RouteReasonBackendNotFound.
Proof. by vm_compute. Qed.
