(* ===== verification/Conditions.v ===== *)
(** * Status conditions: [internal/gateway/conditions.go]

    [metav1.Now] reads the clock: an operation that calls it threads the clock
    through ([Clocked]), so that "this run reads no time" can be stated. *)
From S2P Require Import Prelude GoStd Api Snapshot Claim Bind.
Open Scope Z_scope.

(** ** The clock *)

(** Successive readings of the clock. *)
Definition Clock := list Z.

(** The next reading; a clock that has run out keeps returning the zero time. *)
Definition Now (clk : Clock) : Z * Clock :=
  match clk with [] => (0, []) | t :: rest => (t, rest) end.

Definition Clocked (A : Type) := Clock → A * Clock.

#[export] Instance Clocked_ret : MRet Clocked := fun A x clk => (x, clk).
#[export] Instance Clocked_bind : MBind Clocked :=
  fun A B f m clk => let '(x, clk') := m clk in f x clk'.

Fixpoint clockedMap {A B} (f : A → Clocked B) (l : list A) : Clocked (list B) :=
  match l with
  | [] => mret []
  | x :: rest => y ← f x; ys ← clockedMap f rest; mret (y :: ys)
  end.

(** The operation returns [x] without reading the clock. *)
Definition timeless {A} (m : Clocked A) (x : A) : Prop := ∀ clk, m clk = (x, clk).

(** ** Stable timestamps *)

Definition withTime (cond : Condition) (t : Z) : Condition :=
  mkCondition (c_Type cond) (c_Status cond) (c_ObservedGeneration cond) t
    (c_Reason cond) (c_Message cond).

Fixpoint StableCondition (existing : list Condition) (cond : Condition) : Clocked Condition :=
  match existing with
  | [] => fun clk => let '(t, clk') := Now clk in (withTime cond t, clk')
  | c :: rest =>
      if bool_decide (c_Type c = c_Type cond) && bool_decide (c_Status c = c_Status cond)
      then mret (withTime cond (c_LastTransitionTime c))
      else StableCondition rest cond
  end.

(** ** Merging *)

(** The first condition of a type. *)
Fixpoint findType (t : string) (l : list Condition) : option Condition :=
  match l with
  | [] => None
  | c :: rest => if decide (c_Type c = t) then Some c else findType t rest
  end.

Definition MergeConditions (cur want : list Condition) : list Condition :=
  let replaced :=
    map (fun c => match findType (c_Type c) want with Some w => w | None => c end) cur in
  foldl (fun out w =>
    if existsb (fun c => bool_decide (c_Type c = c_Type w)) out then out else out ++ [w])
    replaced want.

(** ** Comparisons that ignore timestamps *)

Definition conditionContentEqual (a b : Condition) : bool :=
  bool_decide (c_Type a = c_Type b) && bool_decide (c_Status a = c_Status b) &&
  bool_decide (c_Reason a = c_Reason b) && bool_decide (c_Message a = c_Message b) &&
  (c_ObservedGeneration a =? c_ObservedGeneration b).

(** Equal lengths, and [eq] at every index. *)
Fixpoint listEqual {A} (eq : A → A → bool) (cur want : list A) : bool :=
  match cur, want with
  | [], [] => true
  | c :: cur', w :: want' => eq c w && listEqual eq cur' want'
  | _, _ => false
  end.

Definition ConditionsEqual : list Condition → list Condition → bool :=
  listEqual conditionContentEqual.

Definition routeGroupKindsEqual : list GroupKind → list GroupKind → bool :=
  listEqual (fun c w =>
    bool_decide (default "" (gk_Group c) = default "" (gk_Group w)) &&
    bool_decide (gk_Kind c = gk_Kind w)).

Definition ListenerStatusesEqual : list ListenerStatus → list ListenerStatus → bool :=
  listEqual (fun c w =>
    bool_decide (lst_Name c = lst_Name w) && (lst_AttachedRoutes c =? lst_AttachedRoutes w) &&
    routeGroupKindsEqual (lst_SupportedKinds c) (lst_SupportedKinds w) &&
    ConditionsEqual (lst_Conditions c) (lst_Conditions w)).

Definition fmtParentRef (group kind : string) (ref : ParentReference) : string :=
  let prefix := kind +:+ "." +:+ group +:+ "/" in
  match pr_Namespace ref with
  | Some ns => if decide (ns ≠ "") then prefix +:+ ns +:+ "/" +:+ pr_Name ref
               else prefix +:+ pr_Name ref
  | None => prefix +:+ pr_Name ref
  end.

Definition ParentRefString (ref : ParentReference) : string :=
  fmtParentRef (default "gateway.networking.k8s.io" (pr_Group ref))
    (default "Gateway" (pr_Kind ref)) ref.

Definition parentRefsEqual (a b : ParentReference) : bool :=
  bool_decide (ParentRefString a = ParentRefString b).

Definition ParentStatusesEqual : list RouteParentStatus → list RouteParentStatus → bool :=
  listEqual (fun c w =>
    bool_decide (ps_ControllerName c = ps_ControllerName w) &&
    parentRefsEqual (ps_ParentRef c) (ps_ParentRef w) &&
    ConditionsEqual (ps_Conditions c) (ps_Conditions w)).

(** Our own previous entry for a parentRef: the first that matches. *)
Definition ownEntry (existing : list RouteParentStatus) (ref : ParentReference)
    : option RouteParentStatus :=
  head (filter (fun p => ps_ControllerName p = ControllerName ∧
                         parentRefsEqual (ps_ParentRef p) ref = true) existing).

(** The last Accepted condition of an entry, as the inner loop overwrites. *)
Definition lastAccepted (conds : list Condition) : option Condition :=
  last (filter (fun c => c_Type c = ConditionAccepted) conds).

(** The previously written Accepted conditions, by index of the result. *)
Definition FindParentConditions (existing : list RouteParentStatus) (results : list ParentResult)
    : gmap nat Condition :=
  list_to_map (omap (fun '(i, res) =>
      p ← ownEntry existing (res_ParentRef res); c ← lastAccepted (ps_Conditions p); Some (i, c))
    (imap pair results)).

(** ** Clocked loops *)

Lemma timeless_ret {A} (x : A) : timeless (mret x) x.
Proof. by intros clk. Qed.

Lemma timeless_bind {A B} (m : Clocked A) (f : A → Clocked B) x y :
  timeless m x → timeless (f x) y → timeless (m ≫= f) y.
Proof. intros Hm Hf clk. unfold mbind, Clocked_bind. by rewrite Hm, Hf. Qed.

Lemma clockedMap_timeless {A B} (f : A → Clocked B) l ys :
  Forall2 (fun x y => timeless (f x) y) l ys → timeless (clockedMap f l) ys.
Proof.
  induction 1 as [|x y l ys Hx _ IH]; simpl; [by apply timeless_ret|].
  eapply timeless_bind; [done|]. eapply timeless_bind; [done|]. apply timeless_ret.
Qed.

Lemma clockedMap_results {A B} (f : A → Clocked B) (R : A → B → Prop) l clk :
  (∀ x c, R x (f x c).1) → Forall2 R l (clockedMap f l clk).1.
Proof.
  intros Hf. revert clk. induction l as [|x l IH]; intros clk; simpl; [constructor|].
  unfold mbind, Clocked_bind. specialize (Hf x clk). destruct (f x clk) as [y clk'].
  specialize (IH clk'). destruct (clockedMap f l clk') as [ys clk'']. by constructor.
Qed.

(** ** Comparison lemmas *)

Section list_equal.
Context {A : Type} (eq : A → A → bool).

Lemma listEqual_Forall2 l k : listEqual eq l k = true ↔ Forall2 (fun a b => eq a b = true) l k.
Proof.
  revert k. induction l as [|a l IH]; intros [|b k]; simpl; split; intros H; try done;
    try by inversion H.
  - apply andb_true_iff in H as [? ?]. constructor; [done|]. by apply IH.
  - inversion H; subst. apply andb_true_iff. split; [done|]. by apply IH.
Qed.

Lemma listEqual_refl l : (∀ a, eq a a = true) → listEqual eq l l = true.
Proof. intros Hr. apply listEqual_Forall2. by apply Forall_Forall2_diag, Forall_true. Qed.

Lemma listEqual_app l k l' k' :
  listEqual eq l l' = true → listEqual eq k k' = true → listEqual eq (l ++ k) (l' ++ k') = true.
Proof. rewrite !listEqual_Forall2. apply Forall2_app. Qed.
End list_equal.

(** Equality up to timestamps. *)
Definition sameContent (a b : Condition) : Prop := withTime a 0 = withTime b 0.

Lemma conditionContentEqual_iff a b : conditionContentEqual a b = true ↔ sameContent a b.
Proof.
  unfold conditionContentEqual, sameContent, withTime.
  rewrite !andb_true_iff, !bool_decide_eq_true, Z.eqb_eq.
  split; [intros [[[[-> ->] ->] ->] ->]; done|]. intros [=]. by split_and!.
Qed.

#[export] Instance sameContent_equiv : Equivalence sameContent.
Proof. unfold sameContent. split; repeat intro; congruence. Qed.

#[export] Instance c_Type_proper : Proper (sameContent ==> (=)) c_Type.
Proof. intros a b H. by apply (f_equal c_Type) in H. Qed.

Definition condsEquiv : relation (list Condition) := Forall2 sameContent.

#[export] Instance condsEquiv_equiv : Equivalence condsEquiv.
Proof. unfold condsEquiv. apply _. Qed.

Lemma ConditionsEqual_iff a b : ConditionsEqual a b = true ↔ condsEquiv a b.
Proof.
  unfold ConditionsEqual, condsEquiv. rewrite listEqual_Forall2.
  split; intros H; eapply Forall2_impl; eauto; intros ?? ?; by apply conditionContentEqual_iff.
Qed.

Lemma ConditionsEqual_refl l : ConditionsEqual l l = true.
Proof. by apply ConditionsEqual_iff. Qed.

(** ** [StableCondition] *)

Lemma StableCondition_content existing cond clk :
  ∃ t, (StableCondition existing cond clk).1 = withTime cond t.
Proof.
  induction existing as [|c rest IH]; simpl.
  - destruct (Now clk) as [t clk']. by exists t.
  - case_match; [|done]. by eexists.
Qed.

(** A condition of the same type and status keeps its timestamp. *)
Lemma StableCondition_timeless existing cond t :
  (∃ c, c ∈ existing ∧ c_Type c = c_Type cond ∧ c_Status c = c_Status cond) →
  (∀ c, c ∈ existing → c_Type c = c_Type cond → c_Status c = c_Status cond →
        c_LastTransitionTime c = t) →
  timeless (StableCondition existing cond) (withTime cond t).
Proof.
  induction existing as [|d rest IH]; intros (c & Hin & Ht & Hs) Hall clk.
  { elem_nil. }
  simpl. destruct (bool_decide (c_Type d = _) && _) eqn:E.
  - apply andb_true_iff in E as [Ed%bool_decide_eq_true Es%bool_decide_eq_true].
    by rewrite (Hall d (list_elem_of_here _ _) Ed Es).
  - apply IH; [|intros c' Hc'; apply Hall; by right].
    apply elem_of_cons in Hin as [->|Hin]; [|by exists c].
    by rewrite Ht, Hs, !bool_decide_true in E.
Qed.

Lemma withTime_self c : withTime c (c_LastTransitionTime c) = c.
Proof. by destruct c. Qed.

Lemma withTime_withTime c t u : withTime (withTime c t) u = withTime c u.
Proof. done. Qed.

(** ** [MergeConditions] *)

Lemma findType_Some t l w : findType t l = Some w → w ∈ l ∧ c_Type w = t.
Proof.
  induction l as [|c l IH]; simpl; [done|]. rewrite elem_of_cons.
  case_decide; [intros [= ->]; auto|]. naive_solver.
Qed.

Lemma findType_None t l : findType t l = None ↔ t ∉ map c_Type l.
Proof.
  induction l as [|c l IH]; simpl.
  - split; [intros _; apply not_elem_of_nil|done].
  - rewrite not_elem_of_cons. case_decide; [naive_solver|]. rewrite IH. naive_solver.
Qed.

Lemma findType_elem l w : NoDup (map c_Type l) → w ∈ l → findType (c_Type w) l = Some w.
Proof.
  induction l as [|c l IH]; simpl; [intros _ H; elem_nil|].
  intros [Hn Hnd]%NoDup_cons [->|Hin]%elem_of_cons; [by rewrite decide_True|].
  rewrite decide_False; [by apply IH|]. intros Heq. destruct Hn. rewrite Heq.
  apply list_elem_of_fmap. by exists w.
Qed.

Definition replaceIn (want : list Condition) (c : Condition) : Condition :=
  match findType (c_Type c) want with Some w => w | None => c end.

Lemma replaceIn_type want c : c_Type (replaceIn want c) = c_Type c.
Proof.
  unfold replaceIn. destruct (findType _ want) eqn:E; [|done]. by apply findType_Some in E as [_ ?].
Qed.

Lemma existsb_type out t :
  existsb (fun c => bool_decide (c_Type c = t)) out = bool_decide (t ∈ map c_Type out).
Proof.
  induction out as [|c out IH]; simpl.
  - done.
  - rewrite IH. rewrite (bool_decide_ext (t ∈ c_Type c :: map c_Type out)
      (c_Type c = t ∨ t ∈ map c_Type out)) by (rewrite elem_of_cons; naive_solver).
    by rewrite bool_decide_or.
Qed.

(** What is merged, in order: the current conditions with those of a wanted type
    replaced, then the wanted ones of a new type. *)
Lemma MergeConditions_eq cur want :
  NoDup (map c_Type want) →
  MergeConditions cur want =
    map (replaceIn want) cur ++ filter (fun w => c_Type w ∉ map c_Type cur) want.
Proof.
  intros Hnd. unfold MergeConditions. fold (replaceIn want).
  change (map (fun c => match findType (c_Type c) want with Some w => w | None => c end) cur)
    with (map (replaceIn want) cur).
  assert (map c_Type (map (replaceIn want) cur) = map c_Type cur) as Hty
    by (rewrite map_map; apply map_ext; intros; apply replaceIn_type).
  revert Hty. generalize (map (replaceIn want) cur). intros base Hty.
  induction want as [|w want IH] using rev_ind; [by rewrite filter_nil, app_nil_r|].
  rewrite map_app in Hnd. apply NoDup_app in Hnd as (Hnd & Hdisj & _).
  rewrite foldl_app, (IH Hnd). simpl. rewrite existsb_type, map_app, Hty, filter_app, app_assoc.
  assert (c_Type w ∉ map c_Type (filter (fun w => c_Type w ∉ map c_Type cur) want)) as Hnew.
  { intros Hin. apply list_elem_of_fmap in Hin as (w' & Heq & [_ Hin]%list_elem_of_filter).
    apply (Hdisj (c_Type w')); [apply list_elem_of_fmap; by exists w'|]. rewrite <- Heq. by left. }
  rewrite filter_cons, filter_nil. case_bool_decide as Hb; case_decide as Hd; try done.
  - by rewrite elem_of_app in Hb; destruct Hb.
  - by rewrite app_nil_r.
  - destruct Hb. apply elem_of_app. left. destruct (decide (c_Type w ∈ map c_Type cur)); done.
Qed.

Lemma elem_of_replaceIn cur want c :
  c ∈ map (replaceIn want) cur ↔ ∃ d, d ∈ cur ∧ c = replaceIn want d.
Proof. rewrite list_elem_of_fmap. naive_solver. Qed.

(** Every wanted condition is there, and alone of its type. *)
Lemma merge_wanted cur want w :
  NoDup (map c_Type want) → w ∈ want →
  w ∈ MergeConditions cur want ∧
  ∀ c, c ∈ MergeConditions cur want → c_Type c = c_Type w → c = w.
Proof.
  intros Hnd Hw. rewrite MergeConditions_eq by done.
  assert (∀ c, c_Type c = c_Type w → replaceIn want c = w) as Hrep.
  { intros c Hc. unfold replaceIn. by rewrite Hc, findType_elem. }
  split.
  - rewrite elem_of_app, elem_of_replaceIn, list_elem_of_filter.
    destruct (decide (c_Type w ∈ map c_Type cur)) as [Hin|Hn]; [left|by right].
    apply list_elem_of_fmap in Hin as (d & Ht & Hd). exists d. split; [done|].
    symmetry. by apply Hrep.
  - intros c Hc Ht. apply elem_of_app in Hc as [(d & Hd & ->)%elem_of_replaceIn|[_ Hc]%list_elem_of_filter].
    + rewrite replaceIn_type in Ht. by apply Hrep.
    + pose proof (findType_elem want c Hnd Hc). pose proof (findType_elem want w Hnd Hw). congruence.
Qed.

Lemma replaceIn_foreign want c : c_Type c ∉ map c_Type want → replaceIn want c = c.
Proof. intros H. unfold replaceIn. apply findType_None in H. by rewrite H. Qed.

Lemma merge_foreign cur want c :
  NoDup (map c_Type want) → c_Type c ∉ map c_Type want →
  c ∈ MergeConditions cur want ↔ c ∈ cur.
Proof.
  intros Hnd Hc. rewrite MergeConditions_eq, elem_of_app, elem_of_replaceIn, list_elem_of_filter
    by done. split.
  - intros [(d & Hd & ->)|[_ Hin]].
    + rewrite replaceIn_type in Hc. by rewrite replaceIn_foreign.
    + destruct Hc. apply list_elem_of_fmap. by exists c.
  - intros Hin. left. exists c. by rewrite replaceIn_foreign.
Qed.

Lemma merge_types cur want :
  NoDup (map c_Type want) →
  map c_Type (MergeConditions cur want) =
    map c_Type cur ++ map c_Type (filter (fun w => c_Type w ∉ map c_Type cur) want).
Proof.
  intros Hnd. rewrite MergeConditions_eq, map_app, map_map by done. f_equal.
  apply map_ext. intros. apply replaceIn_type.
Qed.

Lemma merge_idem cur want :
  NoDup (map c_Type want) →
  MergeConditions (MergeConditions cur want) want = MergeConditions cur want.
Proof.
  intros Hnd. rewrite (MergeConditions_eq (MergeConditions cur want)) by done.
  assert (filter (fun w => c_Type w ∉ map c_Type (MergeConditions cur want)) want = []) as ->.
  { apply filter_none. intros w Hw Hn. apply Hn.
    apply list_elem_of_fmap. exists w. split; [done|]. by apply merge_wanted. }
  rewrite app_nil_r. rewrite <- (map_id (MergeConditions cur want)) at 2.
  apply map_ext_in. intros c Hc%list_elem_of_In.
  destruct (decide (c_Type c ∈ map c_Type want)) as [Hin|Hn]; [|by apply replaceIn_foreign].
  apply list_elem_of_fmap in Hin as (w & Ht & Hw).
  rewrite (proj2 (merge_wanted cur want w Hnd Hw) c Hc Ht).
  unfold replaceIn. by rewrite findType_elem.
Qed.

(** Conditions that are already there, each alone of its type,
    are given their old timestamps. *)
Lemma stable_again existing conds ds :
  Forall2 (fun c d => ∃ t, d = withTime c t) conds ds →
  (∀ d, d ∈ ds → d ∈ existing ∧ ∀ e, e ∈ existing → c_Type e = c_Type d → e = d) →
  timeless (clockedMap (StableCondition existing) conds) ds.
Proof.
  intros Hall Hex. apply clockedMap_timeless.
  induction Hall as [|c d conds ds [t ->] _ IH]; [constructor|]. constructor.
  - destruct (Hex (withTime c t)) as [Hin Huniq]; [by left|].
    apply StableCondition_timeless; [by exists (withTime c t)|].
    intros e He Ht _. by rewrite (Huniq e He Ht).
  - apply IH. intros d' Hd'. apply Hex. by right.
Qed.

Lemma stamped_types conds ds :
  Forall2 (fun c d => ∃ t, d = withTime c t) conds ds → map c_Type ds = map c_Type conds.
Proof. induction 1 as [|c d conds ds [t ->] _ IH]; simpl; [done|]. by rewrite IH. Qed.

Lemma alone_of_type ds d e :
  NoDup (map c_Type ds) → d ∈ ds → e ∈ ds → c_Type e = c_Type d → e = d.
Proof.
  intros Hnd Hd He Ht. pose proof (findType_elem ds d Hnd Hd).
  pose proof (findType_elem ds e Hnd He). congruence.
Qed.

Lemma stamp_all existing conds clk :
  Forall2 (fun c d => ∃ t, d = withTime c t) conds
    (clockedMap (StableCondition existing) conds clk).1.
Proof. apply clockedMap_results. intros. apply StableCondition_content. Qed.

Lemma stamped_content conds ds ds' :
  Forall2 (fun c d => ∃ t, d = withTime c t) conds ds →
  Forall2 (fun c d => ∃ t, d = withTime c t) conds ds' → condsEquiv ds ds'.
Proof.
  intros H1. revert ds'. induction H1 as [|c d conds ds [t ->] _ IH]; intros ds' H2;
    inversion H2 as [|? ? ? ? [t' ->]]; subst; constructor; [done|by apply IH].
Qed.

(** Merging conditions of distinct types makes every one of them the only
    condition of its type, neither drops nor adds any condition of another type,
    keeps types unique, and is idempotent. *)
Theorem MergeConditions_spec cur want :
  NoDup (map c_Type want) →
  (∀ w, w ∈ want → w ∈ MergeConditions cur want ∧
        ∀ c, c ∈ MergeConditions cur want → c_Type c = c_Type w → c = w) ∧
  (∀ c, c_Type c ∉ map c_Type want → c ∈ MergeConditions cur want ↔ c ∈ cur) ∧
  (NoDup (map c_Type cur) → NoDup (map c_Type (MergeConditions cur want))) ∧
  MergeConditions (MergeConditions cur want) want = MergeConditions cur want.
Proof.
  intros Hnd. split_and!; eauto using merge_wanted, merge_foreign, merge_idem.
  intros Hc. rewrite merge_types by done. apply NoDup_app. split_and!; [done|..].
  - intros t Ht Hin. apply list_elem_of_fmap in Hin as (w & -> & [? _]%list_elem_of_filter). done.
  - apply (sublist_NoDup _ _ Hnd), (fmap_sublist c_Type), sublist_filter.
Qed.

Lemma MergeConditions_spec_witness :
  MergeConditions (MergeConditions [mkCondition "Ready" "True" 1 7 "" ""; mkCondition "Accepted" "False" 1 7 "" ""]
    [mkCondition "Accepted" "True" 2 9 "" ""]) [mkCondition "Accepted" "True" 2 9 "" ""] =
  [mkCondition "Ready" "True" 1 7 "" ""; mkCondition "Accepted" "True" 2 9 "" ""].
Proof.
  destruct (MergeConditions_spec
    [mkCondition "Ready" "True" 1 7 "" ""; mkCondition "Accepted" "False" 1 7 "" ""]
    [mkCondition "Accepted" "True" 2 9 "" ""]) as (_ & _ & _ & ->); [apply NoDup_singleton|done].
Defined.
