(* ===== verification/Status.v ===== *)
(** * Statuses of Gateways and routes: [internal/gateway/status.go] *)
From S2P Require Import Prelude GoStd Api Snapshot Claim Fixture Bind Backends Conditions.
Open Scope Z_scope.

Definition conditionStatus (b : bool) : string := if b then ConditionTrue else ConditionFalse.

(** A condition before [StableCondition] gives it a timestamp. *)
Definition mkCond (type status reason msg : string) (generation : Z) : Condition :=
  mkCondition type status generation 0 reason msg.

(** [gc] is never nil where the function is called. *)
Definition ClassCondition (gc : GatewayClass) (claim : ClassClaim) : option Condition :=
  if negb (cl_Claimed claim) then None
  else Some (mkCond ConditionAccepted (if cl_Accepted claim then ConditionTrue else ConditionFalse)
               (cl_Reason claim) (cl_Message claim) (om_Generation (gc_Meta gc))).

(** ** Listeners *)

Definition allowedRoutesParseError (l : Listener) : string :=
  match l_AllowedRoutes l with
  | None => ""
  | Some ar =>
      match ar_Namespaces ar with
      | None => ""
      | Some ns =>
          match rn_From ns with
          | None => ""
          | Some from =>
              if decide (from = NamespacesFromAll ∨ from = NamespacesFromSame) then ""
              else if decide (from = NamespacesFromSelector) then
                match rn_Selector ns with
                | None => "allowedRoutes.namespaces.from=Selector requires a selector"
                | Some _ => ""
                end
              else "allowedRoutes.namespaces.from=" +:+ quote from +:+ " is not supported"
          end
      end
  end.

Definition listenerAcceptedCondition (gw : Gateway) (l : Listener) : Condition :=
  let gen := om_Generation (gw_Meta gw) in
  if l_TLS l then
    mkCond ConditionAccepted ConditionFalse ReasonTLSNotSupported
      "rsync-gateway v0 does not terminate TLS on rsync listeners" gen
  else
    let why := allowedRoutesParseError l in
    if decide (why ≠ "") then
      mkCond ConditionAccepted ConditionFalse ListenerReasonUnsupportedValue why gen
    else mkCond ConditionAccepted ConditionTrue ListenerReasonAccepted "listener is accepted" gen.

Definition listenerProgrammedCondition (gw : Gateway) (l : Listener) (servedPorts : list Z)
    : Condition :=
  let gen := om_Generation (gw_Meta gw) in
  if existsb (fun p => p =? l_Port l) servedPorts then
    mkCond ConditionProgrammed ConditionTrue ListenerReasonProgrammed
      "listener port is served by the data plane" gen
  else
    mkCond ConditionProgrammed ConditionFalse ReasonRestartRequired
      "listener port is not in the static bind set; restart the gateway to pick it up (v0 limitation)"
      gen.

(** Whether the first listener of that name is an rsync listener. *)
Fixpoint isManagedName (ls : list Listener) (name : string) : bool :=
  match ls with
  | [] => false
  | l :: rest =>
      if decide (l_Name l = name) then bool_decide (l_Protocol l = ProtocolRsync)
      else isManagedName rest name
  end.
Definition isManagedListener (gw : Gateway) (name : string) : bool :=
  isManagedName (gw_Listeners gw) name.

(** The conditions of the first status entry of a listener. *)
Fixpoint existingListener (sts : list ListenerStatus) (name : string) : list Condition :=
  match sts with
  | [] => []
  | ls :: rest => if decide (lst_Name ls = name) then lst_Conditions ls
                  else existingListener rest name
  end.

Definition listenerConditions (gw : Gateway) (servedPorts : list Z) (l : Listener)
    : list Condition :=
  [listenerAcceptedCondition gw l; listenerProgrammedCondition gw l servedPorts].

Definition listenerStatuses (gw : Gateway) (servedPorts : list Z)
    : Clocked (list ListenerStatus) :=
  clockedMap (fun l =>
    let existingConds := existingListener (gw_StatusListeners gw) (l_Name l) in
    conds ← clockedMap (StableCondition existingConds) (listenerConditions gw servedPorts l);
    mret (mkListenerStatus (l_Name l) [RouteGroupKind] 0 conds))
    (filter (fun l => l_Protocol l = ProtocolRsync) (gw_Listeners gw)).

(** ** Gateways *)

Record GatewayStatus := mkGatewayStatus {
  gs_Conditions : list Condition; gs_Listeners : list ListenerStatus }.

Definition gatewayConditions (gw : Gateway) : list Condition :=
  [ mkCond ConditionAccepted ConditionTrue GatewayReasonAccepted
      ("GatewayClass " +:+ quote (gw_GatewayClassName gw) +:+ " is claimed and accepted")
      (om_Generation (gw_Meta gw));
    mkCond ConditionProgrammed ConditionTrue GatewayReasonProgrammed
      ("routes bound to " +:+ om_Namespace (gw_Meta gw) +:+ "/" +:+ om_Name (gw_Meta gw)
         +:+ " are programmed into the data plane") (om_Generation (gw_Meta gw)) ].

Definition BuildGatewayStatus (gw : Gateway) (servedPorts : list Z) : Clocked GatewayStatus :=
  let foreign :=
    filter (fun ls => isManagedListener gw (lst_Name ls) = false) (gw_StatusListeners gw) in
  ours ← listenerStatuses gw servedPorts;
  conditions ← clockedMap (StableCondition (gw_StatusConditions gw)) (gatewayConditions gw);
  mret (mkGatewayStatus (MergeConditions (gw_StatusConditions gw) conditions) (foreign ++ ours)).

(** ** Routes *)

Definition findExistingConditions (route : RsyncRoute) (parentRef : ParentReference)
    : list Condition :=
  match ownEntry (r_StatusParents route) parentRef with
  | Some p => ps_Conditions p
  | None => []
  end.

Definition routeConditions (route : RsyncRoute) (backends : BackendStatus) (res : ParentResult)
    : list Condition :=
  let gen := om_Generation (r_Meta route) in
  mkCond ConditionAccepted (conditionStatus (res_Accepted res)) (res_Reason res)
    (res_Message res) gen ::
  (if res_Accepted res then
     [mkCond ConditionResolvedRefs (conditionStatus (bs_Resolved backends)) (bs_Reason backends)
        (bs_Message backends) gen]
   else []).

Definition BuildRouteStatus (route : RsyncRoute) (results : list ParentResult)
    (backends : BackendStatus) : Clocked (list RouteParentStatus) :=
  let foreign := filter (fun p => ps_ControllerName p ≠ ControllerName) (r_StatusParents route) in
  ours ← clockedMap (fun res =>
      let existingConds := findExistingConditions route (res_ParentRef res) in
      conds ← clockedMap (StableCondition existingConds) (routeConditions route backends res);
      mret (mkParentStatus (res_ParentRef res) ControllerName conds)) results;
  mret (foreign ++ ours).

(** ** Bound ports *)

(** The port of one listen address. *)
Definition portOf (addr : string) : option Z :=
  match splitHostPort addr with
  | Err _ => None
  | Ret (_, portStr) => parseUint 16 portStr
  end.

Definition ServedPorts (addrs : list string) : list Z :=
  foldl (fun ports addr =>
    match portOf addr with
    | None => ports
    | Some p => if decide (p ∈ ports) then ports else ports ++ [p]
    end) [] addrs.

Example ServedPorts_example :
  ServedPorts [":873"; "[::]:873"; "localhost"; "0.0.0.0:8873"; "h:70000"] = [873; 8873].
Proof. by vm_compute. Qed.

(** ** Rebuilding a status changes nothing *)

Definition withGatewayStatus (gw : Gateway) (st : GatewayStatus) : Gateway :=
  mkGateway (gw_Meta gw) (gw_GatewayClassName gw) (gw_Listeners gw)
    (gs_Conditions st) (gs_Listeners st).

(** What [listenerStatuses] makes of a listener, up to timestamps. *)
Definition statusOf (gw : Gateway) (ports : list Z) (l : Listener) (ls : ListenerStatus) : Prop :=
  lst_Name ls = l_Name l ∧ lst_SupportedKinds ls = [RouteGroupKind] ∧ lst_AttachedRoutes ls = 0 ∧
  Forall2 (fun c d => ∃ t, d = withTime c t) (listenerConditions gw ports l) (lst_Conditions ls).

Lemma listenerStatuses_spec gw ports clk :
  Forall2 (statusOf gw ports) (rsyncListeners gw) (listenerStatuses gw ports clk).1.
Proof.
  unfold listenerStatuses. apply clockedMap_results. intros l c.
  unfold mbind, Clocked_bind.
  pose proof (stamp_all (existingListener (gw_StatusListeners gw) (l_Name l))
    (listenerConditions gw ports l) c) as Hc.
  destruct (clockedMap _ _ c) as [conds c']. done.
Qed.

Lemma listenerConditions_types gw ports l :
  map c_Type (listenerConditions gw ports l) = [ConditionAccepted; ConditionProgrammed].
Proof.
  unfold listenerConditions, listenerAcceptedCondition, listenerProgrammedCondition.
  repeat case_match; done.
Qed.

Lemma twoTypes_NoDup : NoDup [ConditionAccepted; ConditionProgrammed].
Proof. apply (bool_decide_unpack _). by vm_compute. Qed.

Lemma isManagedName_rsync ls l :
  NoDup (map l_Name ls) → l ∈ ls → isManagedName ls (l_Name l) = bool_decide (l_Protocol l = ProtocolRsync).
Proof.
  induction ls as [|l' ls IH]; simpl; [intros _ H; elem_nil|].
  intros [Hn Hnd]%NoDup_cons [->|Hin]%elem_of_cons; [by rewrite decide_True|].
  rewrite decide_False; [by apply IH|]. intros Heq. destruct Hn. rewrite Heq.
  apply list_elem_of_fmap. by exists l.
Qed.

Lemma rsync_managed gw l :
  NoDup (map l_Name (gw_Listeners gw)) → l ∈ rsyncListeners gw →
  isManagedListener gw (l_Name l) = true.
Proof.
  intros Hnd [Hp Hin]%list_elem_of_filter. unfold isManagedListener.
  rewrite isManagedName_rsync by done. by apply bool_decide_eq_true.
Qed.

Lemma existingListener_app sts sts' name :
  (∀ ls, ls ∈ sts → lst_Name ls ≠ name) →
  existingListener (sts ++ sts') name = existingListener sts' name.
Proof.
  induction sts as [|ls sts IH]; intros Hn; simpl; [done|].
  rewrite decide_False by (apply Hn; by left). apply IH. intros ls' H. apply Hn. by right.
Qed.

Lemma existingListener_elem sts ls :
  NoDup (map lst_Name sts) → ls ∈ sts → existingListener sts (lst_Name ls) = lst_Conditions ls.
Proof.
  induction sts as [|ls' sts IH]; simpl; [intros _ H; elem_nil|].
  intros [Hn Hnd]%NoDup_cons [->|Hin]%elem_of_cons; [by rewrite decide_True|].
  rewrite decide_False; [by apply IH|]. intros Heq. destruct Hn. rewrite Heq.
  apply list_elem_of_fmap. by exists ls.
Qed.

Lemma statusOf_names gw ports ls sts :
  Forall2 (statusOf gw ports) ls sts → map lst_Name sts = map l_Name ls.
Proof. induction 1 as [|l st ls sts [Hn _] _ IH]; simpl; [done|]. by rewrite Hn, IH. Qed.

Lemma rsyncNames_NoDup gw : NoDup (map l_Name (gw_Listeners gw)) → NoDup (map l_Name (rsyncListeners gw)).
Proof. intros H. apply (sublist_NoDup _ _ H), (fmap_sublist l_Name), sublist_filter. Qed.

Lemma listenerStatuses_again gw ports st foreign ours :
  NoDup (map l_Name (gw_Listeners gw)) →
  Forall2 (statusOf gw ports) (rsyncListeners gw) ours →
  (∀ ls, ls ∈ foreign → isManagedListener gw (lst_Name ls) = false) →
  timeless (listenerStatuses (withGatewayStatus gw (mkGatewayStatus st (foreign ++ ours))) ports)
    ours.
Proof.
  intros Hnd Hours Hfor. pose proof (statusOf_names _ _ _ _ Hours) as Hnames.
  apply clockedMap_timeless. simpl. apply (Forall2_impl_elem _ _ _ _ Hours).
  intros l ls Hl Hls (Hname & Hk & Ha & Hc).
  rewrite existingListener_app.
  2: { intros ls' Hin Heq. apply Hfor in Hin. rewrite Heq, rsync_managed in Hin; done. }
  rewrite <- Hname, existingListener_elem; [|rewrite Hnames; by apply rsyncNames_NoDup|done].
  eapply timeless_bind.
  - apply (stable_again _ (listenerConditions gw ports l)); [exact Hc|].
    intros d Hd. split; [done|]. intros e He Ht. apply (alone_of_type (lst_Conditions ls)); try done.
    rewrite (stamped_types _ _ Hc), listenerConditions_types. apply twoTypes_NoDup.
  - destruct ls as [n k a c]. simpl in *. subst. apply timeless_ret.
Qed.

Lemma BuildGatewayStatus_eq gw ports clk :
  ∃ ours conds,
    (BuildGatewayStatus gw ports clk).1 =
      mkGatewayStatus (MergeConditions (gw_StatusConditions gw) conds)
        (filter (fun ls => isManagedListener gw (lst_Name ls) = false) (gw_StatusListeners gw)
           ++ ours) ∧
    Forall2 (statusOf gw ports) (rsyncListeners gw) ours ∧
    Forall2 (fun c d => ∃ t, d = withTime c t) (gatewayConditions gw) conds.
Proof.
  unfold BuildGatewayStatus, mbind, Clocked_bind.
  pose proof (listenerStatuses_spec gw ports clk) as H1.
  destruct (listenerStatuses gw ports clk) as [ours clk']. simpl in H1.
  pose proof (stamp_all (gw_StatusConditions gw) (gatewayConditions gw) clk') as H2.
  destruct (clockedMap _ (gatewayConditions gw) clk') as [conds clk'']. by exists ours, conds.
Qed.

Lemma gatewayStatus_again gw ports clk :
  NoDup (map l_Name (gw_Listeners gw)) →
  let st := (BuildGatewayStatus gw ports clk).1 in
  timeless (BuildGatewayStatus (withGatewayStatus gw st) ports) st.
Proof.
  intros Hnd st. destruct (BuildGatewayStatus_eq gw ports clk) as (ours & conds & Hst & H1 & H2).
  fold st in Hst. rewrite Hst. unfold BuildGatewayStatus.
  set (foreign := filter _ (gw_StatusListeners gw)) in *.
  assert (NoDup (map c_Type conds)) as Hct.
  { rewrite (stamped_types _ _ H2). apply twoTypes_NoDup. }
  eapply timeless_bind.
  { apply listenerStatuses_again; [done|done|]. by intros ls [? _]%list_elem_of_filter. }
  eapply timeless_bind.
  { apply (stable_again _ (gatewayConditions gw)); [exact H2|]. simpl.
    intros d Hd. by apply merge_wanted. }
  simpl. rewrite merge_idem, filter_app by done.
  assert (filter (fun ls => isManagedListener
    (withGatewayStatus gw (mkGatewayStatus (MergeConditions (gw_StatusConditions gw) conds)
       (foreign ++ ours))) (lst_Name ls) = false) foreign = foreign) as ->.
  { apply filter_all. by intros ls [? _]%list_elem_of_filter. }
  rewrite (filter_none _ ours), app_nil_r; [apply timeless_ret|].
  intros ls Hls. change (¬ isManagedListener gw (lst_Name ls) = false).
  assert (lst_Name ls ∈ map l_Name (rsyncListeners gw)) as Hin.
  { rewrite <- (statusOf_names _ _ _ _ H1). apply list_elem_of_fmap. by exists ls. }
  apply list_elem_of_fmap in Hin as (l & -> & Hl). by rewrite rsync_managed.
Qed.

(** A Gateway status is stable: rebuilding the status of a Gateway that
    carries the status last built returns that same status, timestamps included,
    and reads no clock (the API makes the listener names of a Gateway unique). *)
Theorem BuildGatewayStatus_stable gw ports clk :
  NoDup (map l_Name (gw_Listeners gw)) →
  let st := (BuildGatewayStatus gw ports clk).1 in
  timeless (BuildGatewayStatus (withGatewayStatus gw st) ports) st.
Proof. apply gatewayStatus_again. Qed.

Lemma BuildGatewayStatus_stable_witness :
  let st := (BuildGatewayStatus Fixture.gateway [873] [5; 6; 7; 8]).1 in
  timeless (BuildGatewayStatus (withGatewayStatus Fixture.gateway st) [873]) st.
Proof.
  apply (BuildGatewayStatus_stable Fixture.gateway [873] [5; 6; 7; 8]).
  apply (bool_decide_unpack _). by vm_compute.
Defined.

(** ** What a Gateway status says *)

Definition hasCondition (conds : list Condition) (type status : string) : Prop :=
  ∃ c, c ∈ conds ∧ c_Type c = type ∧ c_Status c = status.

(** Which allowedRoutes are meaningful: [from], if there is one, is one of the three values
    of the Gateway API, and a selector comes with the third.  (Whether a selector parses is
    not looked at.) *)
Definition understood (l : Listener) : Prop :=
  ∀ ar ns from, l_AllowedRoutes l = Some ar → ar_Namespaces ar = Some ns → rn_From ns = Some from →
    from = "All" ∨ from = "Same" ∨ from = "Selector" ∧ is_Some (rn_Selector ns).

Lemma quote_not_empty a b : a ≠ "" → a +:+ b ≠ "".
Proof. by destruct a. Qed.

Lemma understood_iff l : understood l ↔ allowedRoutesParseError l = "".
Proof.
  unfold understood, allowedRoutesParseError. split.
  - intros Hu. destruct (l_AllowedRoutes l) as [ar|]; [|done]. destruct (ar_Namespaces ar) as [ns|] eqn:En; [|done].
    destruct (rn_From ns) as [from|] eqn:Ef; [|done].
    destruct (Hu ar ns from eq_refl En Ef) as [->|[->|[-> [sel ->]]]]; by vm_compute.
  - intros E ar ns from Ea En Ef. rewrite Ea, En, Ef in E.
    case_decide as H1; [by destruct H1; auto|]. case_decide as H2; [|by apply quote_not_empty in E].
    right. right. split; [done|]. by destruct (rn_Selector ns).
Qed.

(** A name of which the spec has no listener, or whose first listener is not one of ours. *)
Definition unmanaged (gw : Gateway) (name : string) : Prop :=
  match list_find (fun l => l_Name l = name) (gw_Listeners gw) with
  | Some (_, l) => l_Protocol l ≠ ProtocolRsync
  | None => True
  end.

#[export] Instance unmanaged_dec gw name : Decision (unmanaged gw name).
Proof. unfold unmanaged. destruct (list_find _ _) as [[]|]; apply _. Defined.

Lemma unmanaged_iff gw name : unmanaged gw name ↔ isManagedListener gw name = false.
Proof.
  unfold unmanaged, isManagedListener. induction (gw_Listeners gw) as [|l ls IH]; [done|]. simpl.
  case_decide; [by rewrite bool_decide_eq_false|]. rewrite <- IH.
  by destruct (list_find _ ls) as [[]|].
Qed.

Lemma hasCondition_stamped conds ds type status :
  Forall2 (fun c d => ∃ t, d = withTime c t) conds ds →
  hasCondition ds type status ↔ hasCondition conds type status.
Proof.
  unfold hasCondition. induction 1 as [|c d conds ds [t ->] _ IH].
  - split; intros (c & H & _); elem_nil.
  - setoid_rewrite elem_of_cons. split.
    + intros (e & [->|He] & ? & ?); [by exists c; auto|].
      destruct (proj1 IH) as (c' & ? & ?); [by exists e|]. exists c'. auto.
    + intros (e & [->|He] & ? & ?); [by exists (withTime c t); auto|].
      destruct (proj2 IH) as (c' & ? & ?); [by exists e|]. exists c'. auto.
Qed.

Lemma listenerConditions_spec gw ports l :
  (hasCondition (listenerConditions gw ports l) ConditionAccepted ConditionTrue ↔
     l_TLS l = false ∧ understood l) ∧
  (hasCondition (listenerConditions gw ports l) ConditionProgrammed ConditionTrue ↔
     l_Port l ∈ ports).
Proof.
  assert (l_Port l ∈ ports ↔ existsb (fun p => p =? l_Port l) ports = true) as Hp.
  { rewrite existsb_iff. setoid_rewrite Z.eqb_eq. naive_solver. }
  unfold hasCondition, listenerConditions. rewrite Hp.
  rewrite understood_iff.
  setoid_rewrite elem_of_cons. setoid_rewrite list_elem_of_singleton. split; split.
  - intros (c & [->| ->] & Ht & Hs); revert Ht Hs;
      unfold listenerAcceptedCondition, listenerProgrammedCondition;
      repeat case_match; simpl; try done. intros _ _. split; [done|]. by apply dec_stable.
  - intros [Htls Hu]. eexists. split; [by left|]. unfold listenerAcceptedCondition.
    by rewrite Htls, Hu.
  - intros (c & [->| ->] & Ht & Hs); revert Ht Hs;
      unfold listenerAcceptedCondition, listenerProgrammedCondition; repeat case_match; done.
  - intros Hx. eexists. split; [by right|]. unfold listenerProgrammedCondition. by rewrite Hx.
Qed.

(** C39: The Gateway status keeps every status entry of a listener we do not
    manage (of a name whose first listener in the spec has another protocol, or there is
    none), in order and unchanged, and every condition of another type; after
    them it has one entry per rsync listener, in the order of the spec, which is
    Accepted exactly when the listener asks for no TLS and its allowedRoutes are
    meaningful ([from] absent, All, Same, or Selector with a selector), and Programmed
    exactly when its port is one the data plane is bound to; the Gateway itself is Accepted
    and Programmed. *)
Theorem BuildGatewayStatus_content gw ports clk :
  let st := (BuildGatewayStatus gw ports clk).1 in
  (∃ ours, gs_Listeners st =
     filter (fun ls => unmanaged gw (lst_Name ls)) (gw_StatusListeners gw) ++ ours ∧
   Forall2 (fun l ls => lst_Name ls = l_Name l ∧ lst_SupportedKinds ls = [RouteGroupKind] ∧
     (hasCondition (lst_Conditions ls) ConditionAccepted ConditionTrue ↔
        l_TLS l = false ∧ understood l) ∧
     (hasCondition (lst_Conditions ls) ConditionProgrammed ConditionTrue ↔ l_Port l ∈ ports))
     (filter (fun l => l_Protocol l = ProtocolRsync) (gw_Listeners gw)) ours) ∧
  (∀ c, c_Type c ≠ ConditionAccepted → c_Type c ≠ ConditionProgrammed →
     c ∈ gs_Conditions st ↔ c ∈ gw_StatusConditions gw) ∧
  (∀ c, c ∈ gs_Conditions st → c_Type c = ConditionAccepted ∨ c_Type c = ConditionProgrammed →
     c_Status c = ConditionTrue ∧ c_ObservedGeneration c = om_Generation (gw_Meta gw)) ∧
  hasCondition (gs_Conditions st) ConditionAccepted ConditionTrue ∧
  hasCondition (gs_Conditions st) ConditionProgrammed ConditionTrue.
Proof.
  intros st. destruct (BuildGatewayStatus_eq gw ports clk) as (ours & conds & Hst & H1 & H2).
  fold st in Hst. rewrite Hst. simpl.
  assert (map c_Type conds = [ConditionAccepted; ConditionProgrammed]) as Hty
    by by rewrite (stamped_types _ _ H2).
  assert (NoDup (map c_Type conds)) as Hnd by (rewrite Hty; apply twoTypes_NoDup).
  inversion H2 as [|c0 a ? k0 [t1 Ha] H2' E1 E2]; subst.
  inversion H2' as [|c1 b ? k1 [t2 Hb] H2'' E1 E2]; subst. inversion H2''; subst.
  pose proof (merge_wanted (gw_StatusConditions gw) _ _ Hnd (list_elem_of_here _ _)) as [Ia Ua].
  pose proof (merge_wanted (gw_StatusConditions gw) _ _ Hnd
    (list_elem_of_further _ _ _ (list_elem_of_here _ _))) as [Ib Ub].
  split_and!.
  - exists ours. split; [f_equal; apply list_filter_iff; intros ls; symmetry; apply unmanaged_iff|].
    apply (Forall2_impl _ _ _ _ H1).
    intros l ls (Hn & Hk & _ & Hc). rewrite !(hasCondition_stamped _ _ _ _ Hc).
    pose proof (listenerConditions_spec gw ports l). naive_solver.
  - intros c Hc1 Hc2. apply merge_foreign; [done|]. rewrite Hty, !not_elem_of_cons.
    split_and!; [done|done|apply not_elem_of_nil].
  - intros c Hc [Ht|Ht]; [rewrite (Ua c Hc Ht)|rewrite (Ub c Hc Ht)]; done.
  - eexists. split; [exact Ia|done].
  - eexists. split; [exact Ib|done].
Qed.

(** ** Route statuses *)

Definition withParents (route : RsyncRoute) (parents : list RouteParentStatus) : RsyncRoute :=
  mkRoute (r_Meta route) (r_Spec route) parents.

(** What [BuildRouteStatus] makes of a result, up to timestamps. *)
Definition entryOf (route : RsyncRoute) (backends : BackendStatus) (res : ParentResult)
    (p : RouteParentStatus) : Prop :=
  ps_ParentRef p = res_ParentRef res ∧ ps_ControllerName p = ControllerName ∧
  Forall2 (fun c d => ∃ t, d = withTime c t) (routeConditions route backends res)
    (ps_Conditions p).

Definition foreignParents (parents : list RouteParentStatus) : list RouteParentStatus :=
  filter (fun p => ps_ControllerName p ≠ ControllerName) parents.

Lemma BuildRouteStatus_eq route results backends clk :
  ∃ ours, (BuildRouteStatus route results backends clk).1 =
            foreignParents (r_StatusParents route) ++ ours ∧
    Forall2 (entryOf route backends) results ours.
Proof.
  unfold BuildRouteStatus, mbind, Clocked_bind. fold (foreignParents (r_StatusParents route)).
  match goal with |- context [clockedMap ?f results clk] => set (step := f) end.
  assert (Forall2 (entryOf route backends) results (clockedMap step results clk).1) as H.
  { apply clockedMap_results. intros res c. unfold step.
    pose proof (stamp_all (findExistingConditions route (res_ParentRef res))
      (routeConditions route backends res) c) as Hc.
    by destruct (clockedMap _ (routeConditions route backends res) c). }
  destruct (clockedMap step results clk) as [ours clk']. by exists ours.
Qed.

Lemma foreign_again route backends results ours :
  Forall2 (entryOf route backends) results ours →
  foreignParents (foreignParents (r_StatusParents route) ++ ours) =
    foreignParents (r_StatusParents route).
Proof.
  intros H. unfold foreignParents. rewrite filter_app, (filter_none _ ours), app_nil_r.
  - apply filter_all. by intros p [? _]%list_elem_of_filter.
  - intros p Hp Hn. destruct Hn. apply list_elem_of_lookup in Hp as [i Hi].
    destruct (Forall2_lookup_r _ _ _ _ _ H Hi) as (res & _ & _ & Hc & _). done.
Qed.

(** A route status keeps the entries of other controllers, in order and
    unchanged, and then has one entry of ours per result, in the order of the
    parentRefs: Accepted as the binding decided, and ResolvedRefs as the backends
    resolved on an accepted parent only. *)
Theorem BuildRouteStatus_content route results backends clk :
  ∃ ours, (BuildRouteStatus route results backends clk).1 =
            foreignParents (r_StatusParents route) ++ ours ∧
    Forall2 (fun res p =>
      ps_ParentRef p = res_ParentRef res ∧ ps_ControllerName p = ControllerName ∧
      (∀ s, hasCondition (ps_Conditions p) ConditionAccepted s ↔
            s = conditionStatus (res_Accepted res)) ∧
      (∀ s, hasCondition (ps_Conditions p) ConditionResolvedRefs s ↔
            res_Accepted res = true ∧ s = conditionStatus (bs_Resolved backends)) ∧
      Forall (fun c => c_ObservedGeneration c = om_Generation (r_Meta route)) (ps_Conditions p))
      results ours.
Proof.
  destruct (BuildRouteStatus_eq route results backends clk) as (ours & -> & H).
  exists ours. split; [done|]. apply (Forall2_impl _ _ _ _ H).
  intros res p (H1 & H2 & Hc). split_and!; try done.
  1,2: intros s; rewrite (hasCondition_stamped _ _ _ _ Hc); unfold hasCondition, routeConditions;
    setoid_rewrite elem_of_cons; split.
  - intros (c & [->|Hc'] & Ht & Hs); [done|]. destruct (res_Accepted res);
      [apply list_elem_of_singleton in Hc' as ->; done|elem_nil].
  - intros ->. eexists. split; [by left|done].
  - intros (c & [->|Hc'] & Ht & Hs); [done|]. destruct (res_Accepted res);
      [apply list_elem_of_singleton in Hc' as ->; done|elem_nil].
  - intros [-> ->]. eexists. split; [right; by left|done].
  - clear -Hc. assert (Forall (fun c => c_ObservedGeneration c = om_Generation (r_Meta route))
      (routeConditions route backends res)) as Hg.
    { unfold routeConditions. constructor; [done|]. destruct (res_Accepted res); by repeat constructor. }
    revert Hg. induction Hc as [|c d k ds [t ->] _ IH]; [constructor|].
    intros [? ?]%Forall_cons. constructor; [done|by apply IH].
Qed.

Lemma routeStatus_again route results backends clk clk' :
  let st := (BuildRouteStatus route results backends clk).1 in
  ParentStatusesEqual st (BuildRouteStatus (withParents route st) results backends clk').1 = true.
Proof.
  intros st. destruct (BuildRouteStatus_eq route results backends clk) as (ours & Hst & H).
  fold st in Hst.
  destruct (BuildRouteStatus_eq (withParents route st) results backends clk') as (ours' & -> & H').
  simpl. rewrite Hst, (foreign_again _ _ _ _ H). apply listEqual_app.
  - apply listEqual_refl. intros p. rewrite !andb_true_iff. unfold parentRefsEqual.
    rewrite !bool_decide_true by done. by rewrite ConditionsEqual_refl.
  - clear Hst. apply listEqual_Forall2.
    change (entryOf (withParents route st) backends) with (entryOf route backends) in H'.
    clear st. revert ours' H'.
    induction H as [|res p results ours (E1 & E2 & E3) _ IH]; intros ours' H';
      inversion H' as [|? p' ? ? (F1 & F2 & F3)]; subst; constructor; [|by apply IH].
    rewrite !andb_true_iff. unfold parentRefsEqual. rewrite E1, E2, F1, F2.
    rewrite !bool_decide_true by done. split; [done|]. apply ConditionsEqual_iff.
    by eapply stamped_content.
Qed.

(** Route statuses do not flap: the status built for a route that carries
    the status last built for the same results has the same content, so the
    controller does not write it again. *)
Theorem BuildRouteStatus_no_rewrite route results backends clk clk' :
  let st := (BuildRouteStatus route results backends clk).1 in
  ParentStatusesEqual st (BuildRouteStatus (withParents route st) results backends clk').1 = true.
Proof. apply routeStatus_again. Qed.

Lemma ownEntry_elem foreign ours p :
  (∀ q, q ∈ foreign → ps_ControllerName q ≠ ControllerName) →
  NoDup (map (fun q => ParentRefString (ps_ParentRef q)) ours) →
  p ∈ ours → ps_ControllerName p = ControllerName →
  ownEntry (foreign ++ ours) (ps_ParentRef p) = Some p.
Proof.
  intros Hf Hnd Hp Hc. unfold ownEntry. rewrite filter_app, filter_none.
  2: { intros q Hq [? _]. by destruct (Hf q Hq). }
  simpl. induction ours as [|q ours IH]; [elem_nil|].
  simpl in Hnd. apply NoDup_cons in Hnd as [Hn Hnd]. rewrite filter_cons.
  apply elem_of_cons in Hp as [->|Hp].
  - rewrite decide_True; [done|]. split; [done|]. by apply bool_decide_eq_true.
  - rewrite decide_False; [by apply IH|]. intros [_ Heq%bool_decide_eq_true].
    destruct Hn. rewrite Heq. apply list_elem_of_fmap. by exists p.
Qed.

Lemma routeConditions_types route backends res : NoDup (map c_Type (routeConditions route backends res)).
Proof.
  unfold routeConditions. destruct (res_Accepted res); simpl;
    [apply (bool_decide_unpack _); by vm_compute|apply NoDup_singleton].
Qed.

(** When the parentRefs of a route differ in the Gateway they name, its
    status is stable, timestamps included, and rebuilding it reads no clock. *)
Theorem BuildRouteStatus_stable route results backends clk :
  NoDup (map (fun res => ParentRefString (res_ParentRef res)) results) →
  let st := (BuildRouteStatus route results backends clk).1 in
  timeless (BuildRouteStatus (withParents route st) results backends) st.
Proof.
  intros Hnd st. destruct (BuildRouteStatus_eq route results backends clk) as (ours & Hst & H).
  fold st in Hst. rewrite Hst. unfold BuildRouteStatus.
  assert (map (fun q => ParentRefString (ps_ParentRef q)) ours =
          map (fun res => ParentRefString (res_ParentRef res)) results) as Hrefs.
  { clear -H. induction H as [|res p results ours (E & _) _ IH]; simpl; [done|].
    by rewrite E, IH. }
  eapply timeless_bind.
  - apply clockedMap_timeless, (Forall2_impl_elem _ _ _ _ H). intros res p _ Hp (E1 & E2 & E3).
    unfold findExistingConditions. simpl. rewrite <- E1, ownEntry_elem; try done.
    2: { by intros q [? _]%list_elem_of_filter. }
    2: { by rewrite Hrefs. }
    eapply timeless_bind.
    + apply (stable_again _ (routeConditions route backends res)); [exact E3|].
      intros d Hd. split; [done|]. intros e He Ht. apply (alone_of_type (ps_Conditions p)); try done.
      rewrite (stamped_types _ _ E3). apply routeConditions_types.
    + destruct p as [r c k]. simpl in *. subst. apply timeless_ret.
  - simpl. fold (foreignParents (foreignParents (r_StatusParents route) ++ ours)).
    rewrite (foreign_again _ _ _ _ H). apply timeless_ret.
Qed.

Lemma BuildRouteStatus_stable_witness :
  let results := map (bindParent Fixture.noSelector Fixture.snap Fixture.claims
                        Fixture.oldKey Fixture.oldRoute) [Fixture.parent] in
  let backends := (ResolveBackends Fixture.snap Fixture.oldKey Fixture.oldRoute).2 in
  let st := (BuildRouteStatus Fixture.oldRoute results backends [1; 2]).1 in
  timeless (BuildRouteStatus (withParents Fixture.oldRoute st) results backends) st.
Proof.
  intros results backends. apply (BuildRouteStatus_stable Fixture.oldRoute results backends [1; 2]).
  apply NoDup_singleton.
Defined.

(** ** Bound ports *)

(** [ServedPorts] lists each port the listen addresses name exactly once,
    and every port it lists is a 16-bit number. *)
Theorem ServedPorts_spec addrs :
  NoDup (ServedPorts addrs) ∧
  ∀ p, p ∈ ServedPorts addrs ↔ 0 ≤ p < 65536 ∧ ∃ addr, addr ∈ addrs ∧ portOf addr = Some p.
Proof.
  unfold ServedPorts. induction addrs as [|addr addrs [IH1 IH2]] using rev_ind.
  { split; [constructor|]. intros p. split; [intros H; elem_nil|].
    intros (_ & a & H & _). elem_nil. }
  rewrite foldl_app. simpl. setoid_rewrite elem_of_app. setoid_rewrite list_elem_of_singleton.
  destruct (portOf addr) as [q|] eqn:E; [|naive_solver].
  assert (0 ≤ q < 65536) as Hq.
  { unfold portOf in E. repeat case_match; try done. by apply parseUint_range in E. }
  case_decide as Hin; (split; [|]).
  - done.
  - naive_solver.
  - apply NoDup_app. split_and!; [done| |apply NoDup_singleton].
    intros x Hx ->%list_elem_of_singleton. done.
  - intros p. rewrite elem_of_app, list_elem_of_singleton. naive_solver.
Qed.
