(* ===== verification/Net.v ===== *)
(** * Connections and addresses: [pkg/server/utils.go]

    A [Conn] is the part of a [net.Conn] this code can observe: the chunks that
    successive reads will deliver, the error after them (end of file, an expired
    deadline, a reset), the outcomes of the writes to come and the bytes written
    so far.  Deadlines have no representation of their own: one that expires is
    an error of the read or write. *)
From S2P Require Import Prelude GoStd.
Open Scope Z_scope.

(** ** Addresses *)

(** [net.IP]: 4 or 16 bytes, empty for nil. *)
Abbreviation IP := (list Z) (only parsing).

Inductive Addr :=
  | TCPAddr (ip : IP) (port : Z)
  | UnixAddr (name : string)
  | OtherAddr (type str : string).

Definition v4InV6Prefix : list Z := [0; 0; 0; 0; 0; 0; 0; 0; 0; 0; 255; 255].

(** [net.IP.To4]; [None] is nil. *)
Definition To4 (ip : IP) : option IP :=
  if (length ip =? 4)%nat then Some ip
  else if (length ip =? 16)%nat && bool_decide (take 12 ip = v4InV6Prefix) then Some (drop 12 ip)
  else None.

(** [net.IP.To16] *)
Definition To16 (ip : IP) : option IP :=
  if (length ip =? 4)%nat then Some (v4InV6Prefix ++ ip)
  else if (length ip =? 16)%nat then Some ip
  else None.

(** *** [net.IP.String] *)

Definition hexByte (b : Z) : string := text [hexDigit (b / 16); hexDigit (b mod 16)].

(** A 16-bit group in hexadecimal, without leading zeros. *)
Definition hexGroup (g : Z) : string :=
  let ds := [g / 4096; g / 256 mod 16; g / 16 mod 16] in
  let fix strip l := match l with 0 :: r => strip r | r => r end in
  text (map hexDigit (strip ds ++ [g mod 16])).

Fixpoint groups (ip : list Z) : list Z :=
  match ip with
  | hi :: lo :: rest => (hi * 256 + lo) :: groups rest
  | _ => []
  end.

Fixpoint zeroRun (gs : list Z) : nat :=
  match gs with 0 :: r => S (zeroRun r) | _ => O end.

(** The first longest run of zero groups: its start and its length. *)
Fixpoint longestRun (i : nat) (best : nat * nat) (gs : list Z) : nat * nat :=
  match gs with
  | [] => best
  | g :: rest =>
      let n := zeroRun (g :: rest) in
      longestRun (S i) (if (best.2 <? n)%nat then (i, n) else best) rest
  end.

Definition ip6String (ip : IP) : string :=
  let gs := groups ip in
  let '(start, n) := longestRun 0 (O, O) gs in
  if (2 <=? n)%nat then
    join ":" (map hexGroup (take start gs)) +:+ "::" +:+ join ":" (map hexGroup (drop (start + n) gs))
  else join ":" (map hexGroup gs).

Definition ipString (ip : IP) : string :=
  match ip with
  | [] => "<nil>"
  | _ =>
      match To4 ip with
      | Some v4 => join "." (map itoa v4)
      | None =>
          if (length ip =? 16)%nat then ip6String ip
          else "?" +:+ String.concat "" (map hexByte ip)
      end
  end.

Example ip_v4 : ipString [192; 0; 2; 1] = "192.0.2.1".
Proof. reflexivity. Qed.
Example ip_v6 : ipString [32; 1; 13; 184; 0; 0; 0; 0; 0; 1; 0; 0; 0; 0; 0; 1] = "2001:db8::1:0:0:1".
Proof. reflexivity. Qed.
Example ip_v6_any : ipString (replicate 16 0) = "::".
Proof. reflexivity. Qed.

Definition loopback : IP := v4InV6Prefix ++ [127; 0; 0; 1].

Definition netAddrToString (addr : Addr) : string :=
  match addr with
  | TCPAddr ip _ => ipString ip
  | UnixAddr name => name
  | OtherAddr _ str => str
  end.

(** The address and port a PROXY header names; Unix sockets count as loopback. *)
Definition proxyEndpoint (what : string) (addr : Addr) : result (IP * Z) :=
  match addr with
  | TCPAddr ip port => Ret (ip, port)
  | UnixAddr _ => Ret (loopback, 1)
  | OtherAddr type _ => Err ("invalid " +:+ what +:+ " address type " +:+ type)
  end.

Definition generateProxyProtocolHeader (sourceAddr destAddr : Addr) : result string :=
  '(sourceIP, sourcePort) ← proxyEndpoint "source" sourceAddr;
  '(destIP, destPort) ← proxyEndpoint "destination" destAddr;
  let ipVersion := match To4 sourceIP with None => "TCP6" | Some _ => "TCP4" end in
  mret ("PROXY " +:+ ipVersion +:+ " " +:+ ipString sourceIP +:+ " " +:+ ipString destIP +:+ " "
          +:+ itoa sourcePort +:+ " " +:+ itoa destPort +:+ CRLF).

(** ** Configured addresses *)

Definition isUnixPath (addr : string) : bool := hasPrefix addr "/".

Definition addDefaultTCPPort (addr defaultPort : string) : string :=
  if isUnixPath addr then addr
  else match splitHostPort addr with
       | Err e => if decide (e = missingPort) then joinHostPort addr defaultPort else addr
       | Ret _ => addr
       end.

Section validate.
(** [net.ResolveTCPAddr], which may ask the resolver of the host: the error, if any. *)
Context (resolveTCPAddr : string → option error).

(** [net.ResolveUnixAddr] of the network "unix" never fails. *)
Definition validateTCPOrUnixAddr (addr : string) : option error :=
  if isUnixPath addr then None else resolveTCPAddr addr.
End validate.

(** ** Connections *)

Record Conn := mkConn {
  rx : list (list ascii);          (* chunks still to be read *)
  rxErr : error;                   (* the error after the last chunk *)
  txErrs : list (option error);    (* outcomes of the writes to come *)
  tx : list (list ascii);          (* what was written, oldest first *)
  localAddr : Addr;
  remoteAddr : Addr }.

(** The bytes the peer will have sent. *)
Definition stream (c : Conn) : list ascii := concat (rx c).
(** The bytes written to the peer. *)
Definition written (c : Conn) : list ascii := concat (tx c).

Definition set_rx (l : list (list ascii)) (c : Conn) : Conn :=
  mkConn l (rxErr c) (txErrs c) (tx c) (localAddr c) (remoteAddr c).

(** [conn.Read(p)] with [len(p) = k]. *)
Definition Read (k : nat) (c : Conn) : (list ascii * option error) * Conn :=
  match rx c with
  | [] => (([], Some (rxErr c)), c)
  | chunk :: rest =>
      if (length chunk <=? k)%nat then ((chunk, None), set_rx rest c)
      else ((take k chunk, None), set_rx (drop k chunk :: rest) c)
  end.

(** [writeWithTimeout]: a write that fails is taken to have sent nothing. *)
Definition writeWithTimeout (data : list ascii) (c : Conn) : option error * Conn :=
  match txErrs c with
  | Some e :: rest => (Some e, mkConn (rx c) (rxErr c) rest (tx c) (localAddr c) (remoteAddr c))
  | None :: rest =>
      (None, mkConn (rx c) (rxErr c) rest (tx c ++ [data]) (localAddr c) (remoteAddr c))
  | [] => (None, mkConn (rx c) (rxErr c) [] (tx c ++ [data]) (localAddr c) (remoteAddr c))
  end.

(** [dialContextTCPOrUnix], over [dialer.DialContext] of a network and an address. *)
Definition dialContextTCPOrUnix (dialContext : string → string → result Conn) (addr : string) : result Conn :=
  if isUnixPath addr then dialContext "unix" addr else dialContext "tcp" addr.

Definition writeProxyProtocolHeader (sourceAddr destAddr : Addr) (c : Conn)
    : option error * Conn :=
  match generateProxyProtocolHeader sourceAddr destAddr with
  | Err e => (Some e, c)
  | Ret h => writeWithTimeout (chars h) c
  end.

(** One iteration of the loop of [readLine], on a buffer of [max] bytes of which
    [got] are filled: the data read in the end, or the state to go on with. *)
Definition readLineStep (max : nat) (got : list ascii) (c : Conn)
    : (list ascii * option error * Conn) + (list ascii * Conn) :=
  let '((data, err), c') := Read (max - length got) c in
  let got' := got ++ data in
  if bool_decide (last got' = Some (chr 10)) then inl (got', None, c')
  else if (length got' =? max)%nat then inl (got', None, c')
  else match err with
       | Some e => inl (got', Some e, c')
       | None => inr (got', c')
       end.

Fixpoint readLineLoop (fuel : nat) (max : nat) (got : list ascii) (c : Conn)
    : option (list ascii * option error * Conn) :=
  match fuel with
  | O => None
  | S fuel' =>
      match readLineStep max got c with
      | inl res => Some res
      | inr (got', c') => readLineLoop fuel' max got' c'
      end
  end.

(** Each iteration that goes on consumes a chunk. *)
Definition readLineFuel (c : Conn) : nat := S (length (rx c)).

Definition readLine (max : nat) (c : Conn) : option (list ascii * option error * Conn) :=
  readLineLoop (readLineFuel c) max [] c.

(** ** Keepalive *)

(** What a [net.Conn] is made of: a TCP connection with its options (the period when keepalive is
    on), a Unix connection, or a connection such as [*tls.Conn] that shows the one it wraps. *)
Inductive NetConn :=
  | TCPConn (keepAlive : option Z)
  | UnixConn
  | Wrapped (inner : NetConn).

Definition setKeepAlive (period : Z) (c : NetConn) : NetConn :=
  match c with TCPConn _ => TCPConn (Some period) | _ => c end.

Definition applyTCPKeepAlive (period : Z) (c : NetConn) : NetConn :=
  if period <=? 0 then c
  else match c with
       | Wrapped inner => Wrapped (setKeepAlive period inner)
       | _ => setKeepAlive period c
       end.

(** The TCP connection below, if any. *)
Fixpoint transport (c : NetConn) : option (option Z) :=
  match c with TCPConn k => Some k | UnixConn => None | Wrapped inner => transport inner end.

(** With a period, keepalive is on for a TCP connection, also under TLS; without one it is as the
    system has it; a Unix connection never changes. *)
Lemma applyTCPKeepAlive_reaches period c :
  match c with Wrapped (Wrapped _) => False | _ => True end →
  transport (applyTCPKeepAlive period c) =
    (fun k => if period <=? 0 then k else Some period) <$> transport c.
Proof.
  intros Hc. unfold applyTCPKeepAlive. destruct (period <=? 0); [by destruct (transport c)|].
  by destruct c as [| |[]].
Qed.

(** ** [readLine] *)

Lemma Read_spec k c data err c' :
  Read k c = ((data, err), c') →
  data ++ stream c' = stream c ∧ (length data ≤ k)%nat ∧
  rxErr c' = rxErr c ∧ tx c' = tx c ∧
  match err with
  | Some e => e = rxErr c ∧ data = [] ∧ stream c = []
  | None => (length (rx c') < length (rx c))%nat ∨ length data = k
  end.
Proof.
  unfold Read, stream. destruct (rx c) as [|chunk rest] eqn:E.
  { intros [= <- <- <-]. rewrite E. split_and!; simpl; try done. lia. }
  destruct (Nat.leb_spec (length chunk) k); intros [= <- <- <-]; simpl;
    split_and!; try done; try (simpl; lia).
  - by rewrite app_assoc, take_drop.
  - rewrite length_take. lia.
  - right. rewrite length_take. lia.
Qed.

Lemma readLineLoop_spec fuel max got c :
  (length (rx c) < fuel)%nat → (length got ≤ max)%nat →
  ∃ data err c', readLineLoop fuel max got c = Some (got ++ data, err, c') ∧
    data ++ stream c' = stream c ∧ (length (got ++ data) ≤ max)%nat ∧
    rxErr c' = rxErr c ∧ tx c' = tx c ∧
    match err with
    | None => last (got ++ data) = Some (chr 10) ∨ length (got ++ data) = max
    | Some e => e = rxErr c ∧ stream c' = [] ∧ last (got ++ data) ≠ Some (chr 10) ∧
        (length (got ++ data) < max)%nat
    end.
Proof.
  revert got c. induction fuel as [|fuel IH]; intros got c Hf Hg; [lia|].
  simpl. unfold readLineStep. destruct (Read (max - length got) c) as [[data err] c1] eqn:E.
  apply Read_spec in E as (Hs & Hl & He & Ht & Herr).
  assert (length (got ++ data) ≤ max)%nat as Hle by (rewrite length_app; lia).
  case_bool_decide as Hlf; [by exists data, None, c1; eauto 10|].
  destruct (Nat.eqb_spec (length (got ++ data)) max) as [Hm|Hm];
    [by exists data, None, c1; eauto 10|].
  destruct err as [e|].
  - destruct Herr as (-> & -> & Hst). exists [], (Some (rxErr c)), c1.
    simpl in Hs. split_and!; try done; [congruence|lia].
  - destruct Herr as [Hr|Hk]; [|rewrite length_app in Hm; lia].
    destruct (IH (got ++ data) c1) as (d' & e' & c' & Hrun & Hs' & Hl' & He' & Ht' & Herr');
      [lia|done|].
    rewrite <- app_assoc in *. exists (data ++ d'), e', c'. split_and!; try done.
    + by rewrite <- app_assoc, Hs', Hs.
    + by rewrite He', He.
    + by rewrite Ht', Ht.
    + by rewrite <- He.
Qed.

(** [readLine] always returns; it returns no more bytes than the buffer
    holds, loses none (what it returned and what is left to read are what was
    there), and without an error the line it read ends in a newline or fills the
    buffer; an error is the one of the connection, after all of its bytes. *)
Theorem readLine_spec max c :
  ∃ data err c', readLine max c = Some (data, err, c') ∧
    data ++ stream c' = stream c ∧ (length data ≤ max)%nat ∧ tx c' = tx c ∧
    match err with
    | None => last data = Some (chr 10) ∨ length data = max
    | Some e => e = rxErr c ∧ stream c' = [] ∧ last data ≠ Some (chr 10) ∧
        (length data < max)%nat
    end.
Proof.
  destruct (readLineLoop_spec (readLineFuel c) max [] c)
    as (data & err & c' & Hrun & Hs & Hl & He & Ht & Herr); [unfold readLineFuel; lia|simpl; lia|].
  by exists data, err, c'.
Qed.

(** ** Default ports *)

Example addDefault_host : addDefaultTCPPort "mirror.example" "873" = "mirror.example:873".
Proof. reflexivity. Qed.
Example addDefault_kept : addDefaultTCPPort "mirror.example:8730" "873" = "mirror.example:8730".
Proof. reflexivity. Qed.
Example addDefault_unix : addDefaultTCPPort "/run/rsyncd.sock" "873" = "/run/rsyncd.sock".
Proof. reflexivity. Qed.

(** A bracketed IPv6 address without a port gets a second pair of brackets, which
    no address parser accepts. *)
Example addDefault_bracketed : addDefaultTCPPort "[::1]" "873" = "[[::1]]:873".
Proof. reflexivity. Qed.

(** The family of a PROXY header is that of the source alone: a client over IPv4 and an upstream
    reached over IPv6 give a TCP4 header with an IPv6 address in it. *)
Example proxy_header_mixed :
  generateProxyProtocolHeader (TCPAddr [192; 0; 2; 1] 5000)
    (TCPAddr [32; 1; 13; 184; 0; 0; 0; 0; 0; 0; 0; 0; 0; 0; 0; 1] 873) =
  Ret ("PROXY TCP4 192.0.2.1 2001:db8::1 5000 873" +:+ CRLF).
Proof. reflexivity. Qed.
