(* ===== verification/Upstreams.v ===== *)
(** * Upstreams, modules and discovery: [pkg/server/config.go], [server.go]

    The upstream table, the module table built from it, the choice of a target by
    client address, the listing of modules to a client and the discovery of the
    modules an upstream lists. *)
From S2P Require Import Prelude GoStd Runes Net.
Open Scope Z_scope.

Definition RsyncdVersionPrefix : string := "@RSYNCD:".
Definition RsyncdServerVersion : string := "@RSYNCD: 32.0 sha512 sha256 sha1 md5 md4" +:+ LF.
Definition RsyncdExit : string := "@RSYNCD: EXIT" +:+ LF.
Definition ReadBufferSize : nat := 256.
Definition defaultRsyncPortString : string := "873".

(** ** Configuration: [config.go] *)

Record Upstream := mkUpstream {
  u_Address : string;
  u_Modules : list string;
  u_DiscoverModules : bool;
  u_UseProxyProtocol : bool;
  u_MaxActiveConns : Z;
  u_MaxQueuedConns : Z;
  u_PerIPMaxActiveConns : Z }.

Record ProxySettings := mkProxySettings {
  p_Listen : string;
  p_ListenTLS : string;
  p_ListenHTTP : string;
  p_Motd : string;
  p_AccessLog : string;
  p_ErrorLog : string;
  p_TLSCertFile : string;
  p_TLSKeyFile : string;
  p_RelayIdleTimeoutSecs : Z;
  p_RelayMaxDurationSecs : Z;
  p_TCPKeepAliveSecs : Z;
  p_PerIPMaxActiveConns : Z;
  p_DialTimeoutSecs : Z;
  p_MinThroughputBytes : Z;
  p_MinThroughputWindowSecs : Z;
  p_MinThroughputGraceSecs : Z }.

Record Config := mkConfig {
  cf_Proxy : ProxySettings;
  cf_Upstreams : gmap string Upstream }.

(** ** Upstreams as the server keeps them: [server.go] *)

Record Target := mkTarget { t_Upstream : string; t_Addr : string; t_UseProxyProtocol : bool }.

#[export] Instance Target_eq_dec : EqDecision Target.
Proof. solve_decision. Defined.

Record upstreamConfig := mkUpstreamConfig {
  uc_Name : string;
  uc_Target : Target;
  uc_Modules : list string;
  uc_DiscoverModules : bool;
  uc_MaxActiveConns : Z;
  uc_MaxQueuedConns : Z;
  uc_PerIPMaxActiveConns : Z }.

Definition withModules (u : upstreamConfig) (modules : list string) : upstreamConfig :=
  mkUpstreamConfig (uc_Name u) (uc_Target u) modules (uc_DiscoverModules u)
    (uc_MaxActiveConns u) (uc_MaxQueuedConns u) (uc_PerIPMaxActiveConns u).

Definition resolveUpstreams (upstreams : list upstreamConfig)
    (discovered : gmap string (list string)) : list upstreamConfig :=
  map (fun u =>
    withModules u (if uc_DiscoverModules u then default [] (discovered !! uc_Name u)
                   else uc_Modules u)) upstreams.

(** One append of the inner loop. *)
Definition addTarget (t : Target) (modules : gmap string (list Target)) (m : string)
    : gmap string (list Target) :=
  <[m := default [] (modules !! m) ++ [t]]> modules.

Definition buildModuleTargets (upstreams : list upstreamConfig) : gmap string (list Target) :=
  foldl (fun modules u => foldl (addTarget (uc_Target u)) modules (uc_Modules u)) ∅ upstreams.

Definition chooseTargetByClientIP (ip : IP) (targetCount : Z) : Z :=
  if targetCount <=? 1 then 0
  else
    let hash normalized := fnv32a normalized mod uint32 targetCount in
    match To4 ip with
    | Some v4 => hash v4
    | None => match To16 ip with Some v6 => hash v6 | None => 0 end
    end.

(** ** Listing and discovering modules *)

(** What [listAllModules] writes; [modules] in any order. *)
Definition moduleListing (modules : list string) : list ascii :=
  concat (map (fun name => chars name ++ [chr 10]) (sortStrings modules)) ++ chars RsyncdExit.

Definition listAllModules (modules : gmap string (list Target)) (downConn : Conn)
    : option error * Conn :=
  writeWithTimeout (moduleListing (map fst (map_to_list modules))) downConn.

(** [bufio.Reader.ReadString('\n')]: the line with its newline and what is left,
    or [None] when the input ends before one. *)
Fixpoint readString (l : list ascii) : option (list ascii * list ascii) :=
  match l with
  | [] => None
  | c :: rest =>
      if decide (c = chr 10) then Some ([c], rest)
      else '(line, rest') ← readString rest; Some (c :: line, rest')
  end.

(** The loop that reads the module list. *)
Fixpoint discoverLoop (fuel : nat) (readErr : error) (modules : list string) (input : list ascii)
    : option (result (list string)) :=
  match fuel with
  | O => None
  | S fuel' =>
      match readString input with
      | None => Some (Err ("read module list: " +:+ readErr))
      | Some (raw, rest) =>
          let line := trimSuffixLF (text raw) in
          if hasPrefix line RsyncdVersionPrefix then Some (Ret (sortStrings modules))
          else match fields line with
               | [] => discoverLoop fuel' readErr [] rest
               | name :: _ => discoverLoop fuel' readErr (modules ++ [name]) rest
               end
      end
  end.

(** Each line takes at least a byte. *)
Definition discoverFuel (input : list ascii) : nat := S (length input).

Section discovery.
(** [dialContextTCPOrUnix]: the connection to an address, or why there is none. *)
Context (dial : string → result Conn).

Definition discoverModulesFromUpstream (upstream : upstreamConfig)
    : option (result (list string)) :=
  let addr := addDefaultTCPPort (t_Addr (uc_Target upstream)) defaultRsyncPortString in
  match dial addr with
  | Err e => Some (Err ("dial: " +:+ e))
  | Ret conn =>
      let '(err, conn) :=
        if t_UseProxyProtocol (uc_Target upstream)
        then writeProxyProtocolHeader (localAddr conn) (remoteAddr conn) conn
        else (None, conn) in
      match err with
      | Some e => Some (Err ("send proxy protocol header: " +:+ e))
      | None =>
          let '(err, conn) := writeWithTimeout (chars RsyncdServerVersion) conn in
          match err with
          | Some e => Some (Err ("send version: " +:+ e))
          | None =>
              match readString (stream conn) with
              | None => Some (Err ("read version: " +:+ rxErr conn))
              | Some (line, rest) =>
                  if negb (hasPrefix (text line) RsyncdVersionPrefix) then
                    Some (Err ("unexpected version response: " +:+ quote (text line)))
                  else
                    let '(err, conn) := writeWithTimeout [chr 10] conn in
                    match err with
                    | Some e => Some (Err ("request module list: " +:+ e))
                    | None => discoverLoop (discoverFuel rest) (rxErr conn) [] rest
                    end
              end
          end
      end
  end.

Fixpoint discoverConfigured (discovered : gmap string (list string))
    (upstreams : list upstreamConfig) : option (result (gmap string (list string))) :=
  match upstreams with
  | [] => Some (Ret discovered)
  | u :: rest =>
      if negb (uc_DiscoverModules u) then discoverConfigured discovered rest
      else
        res ← discoverModulesFromUpstream u;
        match res with
        | Err e =>
            Some (Err ("discover modules from upstream " +:+ uc_Name u +:+ " ("
                         +:+ t_Addr (uc_Target u) +:+ "): " +:+ e))
        | Ret modules => discoverConfigured (<[uc_Name u := modules]> discovered) rest
        end
  end.

Definition discoverConfiguredModules (upstreams : list upstreamConfig)
    : option (result (gmap string (list string))) :=
  discoverConfigured ∅ upstreams.

Definition DiscoverModulesWithProxyProtocol (addr : string) (useProxyProtocol : bool)
    : option (result (list string)) :=
  discoverModulesFromUpstream
    (mkUpstreamConfig addr (mkTarget addr addr useProxyProtocol) [] false 0 0 0).

Definition DiscoverModules (addr : string) : option (result (list string)) :=
  DiscoverModulesWithProxyProtocol addr false.

Fixpoint ListUpstreamModules (upstreams : list upstreamConfig) (name : string)
    (forceDiscover : bool) : option (result (list string)) :=
  match upstreams with
  | [] => Some (Err ("unknown upstream: " +:+ name))
  | u :: rest =>
      if decide (uc_Name u ≠ name) then ListUpstreamModules rest name forceDiscover
      else if forceDiscover then
        res ← discoverModulesFromUpstream u;
        match res with
        | Err e =>
            Some (Err ("discover modules from upstream " +:+ uc_Name u +:+ " ("
                         +:+ t_Addr (uc_Target u) +:+ "): " +:+ e))
        | Ret modules => Some (Ret modules)
        end
      else Some (Ret (sortStrings (uc_Modules u)))
  end.
End discovery.

(** ** The module table *)

Lemma addTarget_fold t ms modules m :
  foldl (addTarget t) modules ms !! m =
    match filter (m =.) ms with
    | [] => modules !! m
    | _ => Some (default [] (modules !! m) ++ map (fun _ => t) (filter (m =.) ms))
    end.
Proof.
  induction ms as [|x ms IH] using rev_ind; [done|].
  rewrite foldl_app, filter_app, filter_cons, filter_nil. simpl. unfold addTarget at 1.
  destruct (decide (m = x)) as [<-|Hne].
  - rewrite lookup_insert_eq, IH. destruct (filter (m =.) ms) as [|y ys]; simpl; [done|].
    rewrite map_app. simpl. by rewrite <- app_assoc.
  - rewrite lookup_insert_ne by done. by rewrite IH, app_nil_r.
Qed.

(** The targets an upstream contributes to a module, one per time it lists it. *)
Definition targetsOf (m : string) (u : upstreamConfig) : list Target :=
  map (fun _ => uc_Target u) (filter (m =.) (uc_Modules u)).

(** The targets of a module, in the order of the upstreams. *)
Lemma buildModuleTargets_lookup upstreams m :
  buildModuleTargets upstreams !! m =
    match concat (map (targetsOf m) upstreams) with [] => None | ts => Some ts end.
Proof.
  unfold buildModuleTargets. induction upstreams as [|u upstreams IH] using rev_ind; [done|].
  rewrite foldl_app, map_app, concat_app. simpl. rewrite app_nil_r, addTarget_fold, IH.
  assert (targetsOf m u = map (fun _ => uc_Target u) (filter (m =.) (uc_Modules u))) as -> by done.
  destruct (filter (m =.) (uc_Modules u)) as [|x xs]; simpl; [by rewrite app_nil_r|].
  by destruct (concat (map (targetsOf m) upstreams)).
Qed.

Lemma elem_of_buildModuleTargets upstreams m t :
  t ∈ default [] (buildModuleTargets upstreams !! m) ↔
  ∃ u, u ∈ upstreams ∧ m ∈ uc_Modules u ∧ uc_Target u = t.
Proof.
  rewrite buildModuleTargets_lookup.
  transitivity (t ∈ concat (map (targetsOf m) upstreams)); [by destruct (concat _)|].
  rewrite list_elem_of_In, in_concat. split.
  - intros (ts & Hts & Ht). apply in_map_iff in Hts as (u & <- & Hu).
    unfold targetsOf in Ht. apply in_map_iff in Ht as (x & <- & Hx).
    apply list_elem_of_In, list_elem_of_filter in Hx as [<- Hx]. exists u.
    by rewrite list_elem_of_In.
  - intros (u & Hu & Hm & <-). exists (targetsOf m u). split.
    + apply in_map_iff. exists u. by rewrite <- list_elem_of_In.
    + apply in_map_iff. exists m. split; [done|].
      by apply list_elem_of_In, list_elem_of_filter.
Qed.

(** ** The choice of a target *)

Lemma mapped_v4 ip : length ip = 4%nat → To4 (v4InV6Prefix ++ ip) = To4 ip.
Proof. intros H. unfold To4. rewrite length_app, H. done. Qed.

Lemma chooseTarget_bound ip n : 0 < n < 2 ^ 32 → 0 ≤ chooseTargetByClientIP ip n < n.
Proof.
  intros Hn. unfold chooseTargetByClientIP.
  assert (∀ bs, 0 ≤ fnv32a bs mod uint32 n < n) as Hmod.
  { intros bs. unfold uint32. rewrite (Z.mod_small n) by lia. apply Z.mod_pos_bound. lia. }
  destruct (Z.leb_spec n 1); [lia|]. destruct (To4 ip); [apply Hmod|].
  destruct (To16 ip); [apply Hmod|lia].
Qed.

(** A client is always sent to an existing target, and to the same one
    whether its IPv4 address is given in 4 bytes or mapped into IPv6. *)
Theorem chooseTarget_in_range ip n :
  0 < n < 2 ^ 32 →
  0 ≤ chooseTargetByClientIP ip n < n ∧
  (length ip = 4%nat →
   chooseTargetByClientIP (v4InV6Prefix ++ ip) n = chooseTargetByClientIP ip n).
Proof.
  intros Hn. split; [by apply chooseTarget_bound|]. intros Hl.
  unfold chooseTargetByClientIP. rewrite mapped_v4 by done. unfold To4. by rewrite Hl.
Qed.

Lemma chooseTarget_in_range_witness : 0 ≤ chooseTargetByClientIP [192; 0; 2; 7] 3 < 3.
Proof. destruct (chooseTarget_in_range [192; 0; 2; 7] 3) as [H _]; [lia|exact H]. Defined.

(** ** Discovery *)

Definition unlines (ls : list string) : list ascii :=
  concat (map (fun s => chars s ++ [chr 10]) ls).

Definition lineFree (s : string) : Prop := chr 10 ∉ chars s.

Lemma readString_line s rest :
  lineFree s → readString (chars s ++ chr 10 :: rest) = Some (chars s ++ [chr 10], rest).
Proof.
  unfold lineFree. induction (chars s) as [|c l IH]; intros Hn; cbn [app readString].
  { by rewrite decide_True. }
  apply not_elem_of_cons in Hn as [Hc Hn]. rewrite decide_False by done.
  rewrite (IH Hn). done.
Qed.

Lemma readString_shorter l line rest :
  readString l = Some (line, rest) → (length rest < length l)%nat.
Proof.
  revert line. induction l as [|c l IH]; intros line; cbn [readString]; [done|].
  case_decide; [intros [= _ <-]; simpl; lia|].
  destruct (readString l) as [[line' rest']|]; simpl; [|done].
  intros [= _ <-]. specialize (IH _ eq_refl). lia.
Qed.

Lemma trimSuffixLF_line s : trimSuffixLF (text (chars s ++ [chr 10])) = s.
Proof.
  unfold trimSuffixLF. rewrite chars_text, rev_app_distr. simpl rev at 1. cbn [app].
  change (byte (chr 10) =? 10) with true. cbv iota. by rewrite rev_involutive, text_chars.
Qed.

(** More fuel than lines changes nothing. *)
Lemma discoverLoop_total fuel e modules input :
  (length input < fuel)%nat → is_Some (discoverLoop fuel e modules input).
Proof.
  revert modules input. induction fuel as [|fuel IH]; intros modules input Hf; [lia|].
  cbn [discoverLoop]. destruct (readString input) as [[raw rest]|] eqn:E; [|by eexists].
  apply readString_shorter in E. cbv zeta. case_match; [by eexists|].
  case_match; apply IH; lia.
Qed.

(** Discovery always ends. *)
Lemma discoverModules_total dial u : is_Some (discoverModulesFromUpstream dial u).
Proof.
  unfold discoverModulesFromUpstream.
  repeat first [by eexists | apply discoverLoop_total; unfold discoverFuel; lia | case_match].
Qed.

(** The modules read so far, after the given lines. *)
Definition readLines (modules lines : list string) : list string :=
  foldl (fun acc line => match fields line with [] => [] | name :: _ => acc ++ [name] end)
    modules lines.

Definition listLine (s : string) : Prop :=
  lineFree s ∧ hasPrefix s RsyncdVersionPrefix = false.

Lemma length_unlines_cons s ls :
  length (unlines (s :: ls)) = (length (chars s) + 1 + length (unlines ls))%nat.
Proof. unfold unlines. simpl. rewrite !length_app. simpl. lia. Qed.

Lemma discoverLoop_lines fuel e modules lines term junk :
  Forall listLine lines → lineFree term → hasPrefix term RsyncdVersionPrefix = true →
  (length (unlines lines) + S (length (chars term)) < fuel)%nat →
  discoverLoop fuel e modules (unlines lines ++ chars term ++ chr 10 :: junk) =
    Some (Ret (sortStrings (readLines modules lines))).
Proof.
  intros Hl Ht Hp. revert fuel modules.
  induction Hl as [|s lines [Hs Hsp] _ IH]; intros [|fuel] modules Hf; try lia;
    cbn [discoverLoop].
  - change (unlines [] ++ chars term ++ chr 10 :: junk) with (chars term ++ chr 10 :: junk).
    rewrite readString_line by done. cbv zeta beta iota. by rewrite trimSuffixLF_line, Hp.
  - rewrite length_unlines_cons in Hf.
    assert (unlines (s :: lines) ++ chars term ++ chr 10 :: junk =
            chars s ++ chr 10 :: (unlines lines ++ chars term ++ chr 10 :: junk)) as ->.
    { unfold unlines. simpl. by rewrite <- !app_assoc. }
    rewrite readString_line by done. cbv zeta beta iota. rewrite trimSuffixLF_line, Hsp.
    unfold readLines. simpl. destruct (fields s) as [|name fs]; apply IH; lia.
Qed.

(** Lines before a blank one do not count. *)
Lemma readLines_banner banner blank lines :
  fields blank = [] →
  readLines [] (banner ++ blank :: lines) = readLines [] lines.
Proof. intros Hb. unfold readLines. rewrite foldl_app. simpl. by rewrite Hb. Qed.

Lemma readLines_entries acc lines :
  Forall (fun s => fields s ≠ []) lines →
  readLines acc lines = acc ++ omap (fun s => head (fields s)) lines.
Proof.
  intros H. revert acc. induction H as [|s lines Hs _ IH]; intros acc; simpl;
    [by rewrite app_nil_r|].
  unfold readLines in *. simpl. destruct (fields s) as [|name fs]; [done|].
  by rewrite IH, <- app_assoc.
Qed.

(** An upstream that speaks first: its version line, then what follows. *)
Definition speaks (conn : Conn) (version : string) (rest : list ascii) : Prop :=
  stream conn = chars version ++ chr 10 :: rest ∧ lineFree version ∧
  hasPrefix (version +:+ LF) RsyncdVersionPrefix = true ∧ txErrs conn = [].

(** A PROXY header can be written for the connection, if the upstream is to have one. *)
Definition presentable (u : upstreamConfig) (conn : Conn) : Prop :=
  t_UseProxyProtocol (uc_Target u) = true →
  ∃ h, generateProxyProtocolHeader (localAddr conn) (remoteAddr conn) = Ret h.

Lemma discover_speaks dial u conn version rest :
  dial (addDefaultTCPPort (t_Addr (uc_Target u)) defaultRsyncPortString) = Ret conn →
  presentable u conn → speaks conn version rest →
  discoverModulesFromUpstream dial u = discoverLoop (discoverFuel rest) (rxErr conn) [] rest.
Proof.
  intros Hd Hp (Hs & Hv & Hpre & Htx). unfold discoverModulesFromUpstream. rewrite Hd.
  assert (∃ conn', (if t_UseProxyProtocol (uc_Target u)
      then writeProxyProtocolHeader (localAddr conn) (remoteAddr conn) conn else (None, conn)) = (None, conn') ∧
      rx conn' = rx conn ∧ rxErr conn' = rxErr conn ∧ txErrs conn' = []) as (conn' & -> & Hrx & Herr & Htx').
  { destruct (t_UseProxyProtocol (uc_Target u)) eqn:Eu; [|by exists conn].
    destruct (Hp Eu) as [h Hh]. unfold writeProxyProtocolHeader, writeWithTimeout. rewrite Hh, Htx.
    by eexists. }
  cbv beta iota zeta. unfold writeWithTimeout at 1. rewrite Htx'.
  unfold stream in *. cbn [rx rxErr]. rewrite Hrx, Herr, Hs, readString_line by done.
  assert (text (chars version ++ [chr 10]) = version +:+ LF) as ->.
  { apply chars_inj. rewrite chars_text, chars_app. done. }
  rewrite Hpre. done.
Qed.

(** Discovery returns the sorted first words of the lines an upstream lists
    before its closing line, ignoring a banner that ends in a blank line. *)
Theorem discovery_reads_listing dial u conn version banner blank lines term junk :
  dial (addDefaultTCPPort (t_Addr (uc_Target u)) defaultRsyncPortString) = Ret conn →
  presentable u conn →
  speaks conn version (unlines (banner ++ blank :: lines) ++ chars term ++ chr 10 :: junk) →
  Forall listLine (banner ++ blank :: lines) → fields blank = [] →
  Forall (fun s => fields s ≠ []) lines →
  lineFree term → hasPrefix term RsyncdVersionPrefix = true →
  discoverModulesFromUpstream dial u =
    Some (Ret (sortStrings (omap (fun s => head (fields s)) lines))).
Proof.
  intros Hd Hp Hs Hl Hb Hne Ht Hpre. rewrite (discover_speaks _ _ _ _ _ Hd Hp Hs).
  rewrite discoverLoop_lines; try done.
  - by rewrite readLines_banner, readLines_entries.
  - unfold discoverFuel. rewrite !length_app. simpl. lia.
Qed.

(** Module names that can be listed: no spaces, and not the closing line. *)
Definition plainName (name : string) : Prop :=
  name ≠ "" ∧ Forall (fun c => isSpace c = false) (chars name) ∧
  Forall (fun r => spaceRune r = false) (runes (chars name)) ∧
  hasPrefix name RsyncdVersionPrefix = false.

Lemma fields_plain name : plainName name → fields name = [name].
Proof. intros (Hne & _ & Hs & _). by apply fields_word. Qed.

Lemma plainName_lineFree name : plainName name → lineFree name.
Proof.
  intros (_ & Hs & _) Hin. rewrite Forall_forall in Hs. by specialize (Hs _ Hin).
Qed.

Lemma moduleListing_unlines names :
  moduleListing names = unlines (sortStrings names) ++ chars "@RSYNCD: EXIT" ++ [chr 10].
Proof. unfold moduleListing, unlines, RsyncdExit. by rewrite chars_app. Qed.

(** A message of the day that discovery can tell from the listing: none, or one that ends in
    a blank line. *)
Definition motdOk (motd : list string) : Prop :=
  motd = [] ∨ ∃ lines blank, motd = lines ++ [blank] ∧ fields blank = [].

Lemma readLines_motd motd lines : motdOk motd → readLines [] (motd ++ lines) = readLines [] lines.
Proof.
  intros [->|(ls & blank & -> & Hb)]; [done|]. rewrite <- app_assoc. by apply readLines_banner.
Qed.

Lemma readLines_plain names : Forall plainName names → readLines [] names = names.
Proof.
  intros Hn. rewrite readLines_entries.
  - cbn [app]. induction Hn as [|x l Hx _ IH]; csimpl; [done|]. rewrite (fields_plain x Hx). csimpl. by rewrite IH.
  - eapply Forall_impl; [done|]. intros x Hx. by rewrite (fields_plain x Hx).
Qed.

Lemma listing_read dial u conn version motd names junk :
  dial (addDefaultTCPPort (t_Addr (uc_Target u)) defaultRsyncPortString) = Ret conn →
  presentable u conn → Forall listLine motd → motdOk motd →
  speaks conn version (unlines motd ++ moduleListing names ++ junk) →
  Forall plainName names →
  discoverModulesFromUpstream dial u = Some (Ret (sortStrings names)).
Proof.
  intros Hd Hp Hml Hm Hs Hn. rewrite (discover_speaks _ _ _ _ _ Hd Hp Hs).
  assert (Forall plainName (sortStrings names)) as Hn' by by rewrite sortStrings_perm.
  assert (unlines motd ++ moduleListing names ++ junk =
          unlines (motd ++ sortStrings names) ++ chars "@RSYNCD: EXIT" ++ chr 10 :: junk) as ->.
  { rewrite moduleListing_unlines. unfold unlines. by rewrite map_app, concat_app, <- !app_assoc. }
  rewrite discoverLoop_lines.
  - rewrite readLines_motd, readLines_plain by done.
    by rewrite (sortStrings_order_irrelevant _ names) by apply sortStrings_perm.
  - apply Forall_app. split; [done|]. eapply Forall_impl; [done|]. intros x Hx.
    split; [by apply plainName_lineFree|apply Hx].
  - apply (bool_decide_unpack _). by vm_compute.
  - by vm_compute.
  - unfold discoverFuel. rewrite !length_app. simpl. lia.
Qed.


Section discovery_instances.
Definition demoUpstream : upstreamConfig :=
  mkUpstreamConfig "a" (mkTarget "a" "peer" false) [] true 0 0 0.

Definition demoConn (bytes : list ascii) : Conn :=
  mkConn [bytes] "EOF" [] [] (UnixAddr "") (UnixAddr "").

Definition demoListing : list ascii :=
  chars "@RSYNCD: 31.0" ++ chr 10 :: unlines (["Welcome to our mirror"] ++ "" ::
    ["ubuntu          Ubuntu"; "debian"]) ++ chars "@RSYNCD: EXIT" ++ chr 10 :: [].

Lemma discovery_reads_listing_witness :
  discoverModulesFromUpstream (fun _ => Ret (demoConn demoListing)) demoUpstream =
    Some (Ret ["debian"; "ubuntu"]).
Proof.
  rewrite (discovery_reads_listing (fun _ => Ret (demoConn demoListing)) demoUpstream
    (demoConn demoListing) "@RSYNCD: 31.0" ["Welcome to our mirror"] ""
    ["ubuntu          Ubuntu"; "debian"] "@RSYNCD: EXIT" []); try done.
  - split_and!; [by vm_compute|by apply (bool_decide_unpack _); vm_compute|by vm_compute|done].
  - repeat constructor; try done; by apply (bool_decide_unpack _); vm_compute.
  - repeat constructor; by vm_compute.
  - by apply (bool_decide_unpack _); vm_compute.
Defined.

Definition demoGatewayListing (motd : list string) : list ascii :=
  chars "@RSYNCD: 32.0" ++ chr 10 :: unlines motd ++ moduleListing ["ubuntu"; "debian"] ++ [].

Definition demoProxied : upstreamConfig :=
  mkUpstreamConfig "a" (mkTarget "a" "peer" true) [] true 0 0 0.
Definition demoMotd : list string := ["Welcome to our mirror"; ""].


(** A message of the day without a blank line at its end is taken for a module. *)
Example motd_taken_for_module :
  discoverModulesFromUpstream (fun _ => Ret (demoConn (demoGatewayListing ["Welcome to our mirror"]))) demoUpstream =
    Some (Ret ["Welcome"; "debian"; "ubuntu"]).
Proof. by vm_compute. Qed.
End discovery_instances.
