(* ===== verification/Admission.v ===== *)
(** * What the server relies on of its admission queues

    The server creates a queue per upstream and changes its limits on reload.
    [AdmissionControl] is what it relies on; [queueAdmission] discharges it with
    the queue of [pkg/queue]. *)
From S2P Require Import Prelude Queue.
Open Scope Z_scope.

Class AdmissionControl (Q : Type) := {
  newQueue : Z → Z → Q;
  setMax : Z → Z → Q → outcome Q;
  (** the limits in force and the admitted connections, oldest first *)
  limits : Q → Z * Z;
  admitted : Q → list nat;
  sound : Q → Prop;

  newQueue_sound m mq : sound (newQueue m mq);
  newQueue_limits m mq : limits (newQueue m mq) = (m, mq);
  newQueue_empty m mq : admitted (newQueue m mq) = [];
  (** changing the limits always returns, evicts nobody and may admit more *)
  setMax_total m mq q : sound q →
    ∃ q' more, setMax m mq q = Done q' ∧ sound q' ∧ limits q' = (m, mq) ∧
      admitted q' = admitted q ++ more }.

Import AdmissionQueue.

#[export] Program Instance queueAdmission : AdmissionControl World := {
  newQueue := New;
  setMax m mq w := match SetMax m mq w with
                   | Done (_, w') => Done w'
                   | Panic e => Panic e
                   | Blocked => Blocked
                   end;
  limits w := (max (q w), maxQueued (q w));
  admitted w := active (q w);
  sound := wf }.
Next Obligation. apply wf_New. Qed.
Next Obligation. done. Qed.
Next Obligation. done. Qed.
Next Obligation.
  intros m mq w Hw. destruct (SetMax_run m mq w Hw) as (w' & -> & Hw' & _ & Hq & _ & _).
  eexists w', _. rewrite Hq. done.
Qed.
