(* ===== verification/Logging.v ===== *)
(** * File loggers: [pkg/logging/file.go]

    [os.MkdirAll] followed by [os.OpenFile] is an oracle of the file system; an
    open file is a number, and the set of open files is part of the state, so
    that leaks and writes to closed files are visible. *)
From S2P Require Import Prelude GoStd.
Open Scope nat_scope.

Record FileLogger := mkLogger {
  filename : string;
  f : option nat;         (* the open file, nil at first *)
  out : option nat }.     (* where [l.l] writes; [None] is [io.Discard] *)

Record Files := mkFiles { openFiles : gset nat; nextFile : nat }.

Section logging.
(** Creating the directory and opening the file for appending: the error, if any. *)
Context (openLogFile : string → option error).

Definition closeFile (o : option nat) (fs : Files) : Files :=
  match o with
  | Some h => mkFiles (openFiles fs ∖ {[h]}) (nextFile fs)
  | None => fs
  end.

Definition reopen (l : FileLogger) (fs : Files) : option error * FileLogger * Files :=
  if decide (filename l = "") then
    (None, mkLogger (filename l) None None, closeFile (f l) fs)
  else
    match openLogFile (filename l) with
    | Some e => (Some e, l, fs)
    | None =>
        let h := nextFile fs in
        let fs := mkFiles ({[h]} ∪ openFiles fs) (S h) in
        (None, mkLogger (filename l) (Some h) (Some h), closeFile (f l) fs)
    end.

Definition Reopen := reopen.

Definition SetFile (name : string) (l : FileLogger) (fs : Files)
    : option error * FileLogger * Files :=
  reopen (mkLogger name (f l) (out l)) fs.

Definition Close (l : FileLogger) (fs : Files) : FileLogger * Files :=
  match f l with
  | Some h => (mkLogger (filename l) None (out l), closeFile (Some h) fs)
  | None => (l, fs)
  end.

(** The logger (nil on failure) and the returned error: the [err] of the inner
    [if] is another variable, so the error returned is always nil. *)
Definition NewFileLogger (name : string) (fs : Files)
    : option FileLogger * option error * Files :=
  let l := mkLogger name None None in
  if decide (name ≠ "") then
    let '(err, l, fs) := reopen l fs in
    match err with
    | Some _ => (None, None, fs)
    | None => (Some l, None, fs)
    end
  else (Some l, None, fs).

(** Where a line logged with [F] goes: the file, or nowhere; [None] when the
    file it would go to is closed. *)
Definition F (l : FileLogger) (fs : Files) : option (option nat) :=
  match out l with
  | None => Some None
  | Some h => if decide (h ∈ openFiles fs) then Some (Some h) else None
  end.

(** ** The logger and the open files agree *)

Record wfLogger (l : FileLogger) (fs : Files) : Prop := mkWfLogger {
  wl_out : out l = f l;
  wl_open h : f l = Some h → h ∈ openFiles fs;
  wl_fresh h : h ∈ openFiles fs → (h < nextFile fs)%nat }.

Lemma reopen_wf l fs err l' fs' :
  wfLogger l fs → reopen l fs = (err, l', fs') →
  wfLogger l' fs' ∧
  match err with
  | Some _ => l' = l ∧ fs' = fs
  | None => (filename l = "" ↔ f l' = None) ∧
      openFiles fs' = (openFiles fs ∖ from_option singleton ∅ (f l)) ∪ from_option singleton ∅ (f l')
  end.
Proof.
  intros [Ho Hop Hfr] E. unfold reopen in E. case_decide as Hn.
  - simplify_eq. destruct (f l) as [h|] eqn:Ef; simpl; (split; [|split; [done|set_solver]]);
      split; simpl; try done; set_solver.
  - destruct (openLogFile (filename l)) as [e|]; simplify_eq; [done|].
    assert (nextFile fs ∉ openFiles fs) as Hnew by (intros Hin; apply Hfr in Hin; lia).
    destruct (f l) as [h|] eqn:Ef; simpl.
    + assert (h ≠ nextFile fs) by (specialize (Hop h eq_refl); set_solver).
      split; [|split; [done|set_solver]]. split; simpl; [done|set_solver|].
      intros x Hx. assert (x = nextFile fs ∨ x ∈ openFiles fs) as [->|Hx'] by set_solver; [lia|].
      apply Hfr in Hx'. lia.
    + split; [|split; [done|set_solver]]. split; simpl; [done|set_solver|].
      intros x Hx. assert (x = nextFile fs ∨ x ∈ openFiles fs) as [->|Hx'] by set_solver; [lia|].
      apply Hfr in Hx'. lia.
Qed.

(** Changing the file of a logger (a config reload) never leaves it writing
    to a closed file and leaks none: on success exactly the old file is closed and
    the new one open, and on failure the logger keeps writing where it did. *)
Theorem SetFile_switches name l fs err l' fs' :
  wfLogger l fs → SetFile name l fs = (err, l', fs') →
  wfLogger l' fs' ∧ is_Some (F l' fs') ∧ filename l' = name ∧
  match err with
  | Some _ => out l' = out l ∧ fs' = fs
  | None => (name = "" ↔ out l' = None) ∧
      openFiles fs' = (openFiles fs ∖ from_option singleton ∅ (f l)) ∪ from_option singleton ∅ (f l')
  end.
Proof.
  intros Hw E. assert (wfLogger (mkLogger name (f l) (out l)) fs) as Hw' by by destruct Hw.
  destruct (reopen_wf _ _ _ _ _ Hw' E) as [Hwf Hcase]. pose proof Hwf as [Ho Hop _].
  split; [done|]. split.
  { unfold F. rewrite Ho. destruct (f l') as [h|] eqn:Ef; [|by eexists].
    rewrite decide_True by by apply Hop. by eexists. }
  assert (filename l' = name) as Hname.
  { unfold SetFile, reopen in E. repeat case_match; by simplify_eq. }
  split; [done|]. destruct err as [e|]; simpl in Hcase.
  - by destruct Hcase as [-> ->].
  - rewrite Ho. naive_solver.
Qed.

(** The constructor swallows the error of opening its file: when that fails it
    returns a nil logger together with a nil error. *)
Theorem NewFileLogger_swallows_error name fs e :
  name ≠ "" → openLogFile name = Some e → NewFileLogger name fs = (None, None, fs).
Proof.
  intros Hn Ho. unfold NewFileLogger, reopen. simpl.
  rewrite decide_True, decide_False, Ho by done. done.
Qed.
End logging.

Lemma SetFile_switches_witness :
  is_Some (F (mkLogger "b.log" (Some 4) (Some 4)) (mkFiles {[4]} 5)).
Proof.
  apply (SetFile_switches (fun _ => None) "b.log" (mkLogger "a.log" (Some 3) (Some 3))
    (mkFiles {[3]} 4) None (mkLogger "b.log" (Some 4) (Some 4)) (mkFiles {[4]} 5)).
  - split; simpl; [done|set_solver|]. intros h ->%elem_of_singleton. lia.
  - reflexivity.
Defined.

Lemma NewFileLogger_swallows_error_witness :
  NewFileLogger (fun _ => Some "permission denied") "/var/log/x" (mkFiles ∅ 0) =
    (None, None, mkFiles ∅ 0).
Proof.
  by apply (NewFileLogger_swallows_error (fun _ => Some "permission denied") "/var/log/x"
    (mkFiles ∅ 0) "permission denied").
Defined.
