(* ===== verification/ServerConfig.v ===== *)
(** * Loading a configuration: [pkg/server/server.go], [loadConfig] and around

    The queues are shared: the server holds references to them, and so does every
    connection that was given one, so that they live in a store ([s_queues]) and
    the server holds their addresses.  The queues are used through the interface
    [AdmissionControl]. *)
From S2P Require Import Prelude GoStd Net Upstreams Admission Logging.
Open Scope Z_scope.

Record relayTimings := mkTimings {
  idle : Z;
  maxDuration : Z;
  tcpKeepAlive : Z;
  minBytes : Z;
  minWindow : Z;
  minGrace : Z }.

(** The fields of [net.Dialer] the server sets. *)
Record Dialer := mkDialer { d_KeepAlive : Z; d_Timeout : Z }.

(** A loaded key pair. *)
Abbreviation Certificate := string (only parsing).

(** The part of the [Server] struct that configuration loading reads or writes;
    the read and write timeouts, the counters and the connection table are not
    touched by it. *)
Record Server (Q : Type) := mkServer {
  s_ListenAddr : string;
  s_TLSListenAddr : string;
  s_HTTPListenAddr : string;
  s_timings : relayTimings; (* RelayIdleTimeout ... MinThroughputGrace *)
  s_Motd : string;
  s_accessLog : FileLogger;
  s_errorLog : FileLogger;
  s_files : Files;
  s_dialer : Dialer;
  s_modules : gmap string (list Target);
  s_upstreams : list upstreamConfig;
  s_tlsCertificate : option Certificate;
  s_upstreamQueues : gmap string nat;
  s_queues : gmap nat Q;
  s_nextQueue : nat;
  s_TCPListener : bool; (* the listener is not nil *)
  s_TLSListener : bool;
  s_HTTPListener : bool }.
Arguments mkServer {Q}.
Arguments s_ListenAddr {Q}.
Arguments s_TLSListenAddr {Q}.
Arguments s_HTTPListenAddr {Q}.
Arguments s_timings {Q}.
Arguments s_Motd {Q}.
Arguments s_accessLog {Q}.
Arguments s_errorLog {Q}.
Arguments s_files {Q}.
Arguments s_dialer {Q}.
Arguments s_modules {Q}.
Arguments s_upstreams {Q}.
Arguments s_tlsCertificate {Q}.
Arguments s_upstreamQueues {Q}.
Arguments s_queues {Q}.
Arguments s_nextQueue {Q}.
Arguments s_TCPListener {Q}.
Arguments s_TLSListener {Q}.
Arguments s_HTTPListener {Q}.

Section server.
Context {Q : Type} `{AdmissionControl Q}.

Definition New : Server Q :=
  mkServer "" "" "" (mkTimings 0 0 0 0 0 0) "" (mkLogger "" None None) (mkLogger "" None None)
    (mkFiles ∅ 0) (mkDialer 0 0) ∅ [] None ∅ ∅ 0 false false false.

(** ** Getters *)

Definition getTargetsForModule (s : Server Q) (m : string) : option (list Target) :=
  s_modules s !! m.
Definition getQueueForUpstream (s : Server Q) (name : string) : option nat :=
  s_upstreamQueues s !! name.
Definition getDialer (s : Server Q) : Dialer := s_dialer s.
Definition getRelayTimings (s : Server Q) : relayTimings := s_timings s.
Definition getTCPKeepAlive (s : Server Q) : Z := tcpKeepAlive (s_timings s).

Fixpoint perIPLimit (upstreams : list upstreamConfig) (name : string) : Z :=
  match upstreams with
  | [] => 0
  | u :: rest => if decide (uc_Name u = name) then uc_PerIPMaxActiveConns u
                 else perIPLimit rest name
  end.
Definition getPerIPLimitForUpstream (s : Server Q) (name : string) : Z :=
  perIPLimit (s_upstreams s) name.

Definition getTLSCertificate (s : Server Q) : result Certificate :=
  match s_tlsCertificate s with
  | None => Err "tls certificate is not configured"
  | Some cert => Ret cert
  end.

(** ** The environment of a load *)

(** [tls.LoadX509KeyPair], the resolver, the network and the file system. *)
Context (loadX509KeyPair : string → string → result Certificate).
Context (resolveTCPAddr : string → option error).
Context (dial : Dialer → string → result Conn).
Context (openLogFile : string → option error).

(** ** Checks *)

Definition checkTLS (s : Server Q) (p : ProxySettings) : result (option Certificate) :=
  let serverStarted := s_TCPListener s || s_HTTPListener s || s_TLSListener s in
  if serverStarted && negb (s_TLSListener s) && bool_decide (p_ListenTLS p ≠ "") then
    Err "listen_tls cannot be enabled on reload; restart required"
  else if serverStarted && s_TLSListener s && bool_decide (p_ListenTLS p = "") then
    Err "listen_tls cannot be disabled on reload; restart required"
  else if decide (p_ListenTLS p = "") then Ret None
  else if bool_decide (p_TLSCertFile p = "") || bool_decide (p_TLSKeyFile p = "") then
    Err "listen_tls requires tls_cert_file and tls_key_file"
  else
    match loadX509KeyPair (p_TLSCertFile p) (p_TLSKeyFile p) with
    | Err e => Err ("load tls certificate: " +:+ e)
    | Ret cert => Ret (Some cert)
    end.

Definition requireNonNegative (name : string) (v : Z) : result unit :=
  if v <? 0 then Err (name +:+ " must be non-negative, got " +:+ itoa v) else Ret tt.

Definition checkProxy (p : ProxySettings) : result unit :=
  _ ← requireNonNegative "relay_max_duration" (p_RelayMaxDurationSecs p);
  _ ← requireNonNegative "tcp_keepalive" (p_TCPKeepAliveSecs p);
  _ ← requireNonNegative "per_ip_max_active_connections" (p_PerIPMaxActiveConns p);
  _ ← requireNonNegative "dial_timeout" (p_DialTimeoutSecs p);
  _ ← requireNonNegative "min_throughput_bytes" (p_MinThroughputBytes p);
  _ ← requireNonNegative "min_throughput_window" (p_MinThroughputWindowSecs p);
  requireNonNegative "min_throughput_grace" (p_MinThroughputGraceSecs p).

(** The body of the loop over the upstream names. *)
Definition buildUpstream (p : ProxySettings) (name : string) (v : Upstream)
    : result upstreamConfig :=
  if bool_decide (u_Modules v = []) && negb (u_DiscoverModules v) then
    Err ("upstream=" +:+ name +:+ " must set modules or discover_modules")
  else if u_PerIPMaxActiveConns v <? 0 then
    Err ("upstream=" +:+ name +:+ ": per_ip_max_active_connections must be non-negative, got "
           +:+ itoa (u_PerIPMaxActiveConns v))
  else
    match validateTCPOrUnixAddr resolveTCPAddr (u_Address v) with
    | Some e => Err ("resolve address: " +:+ e +:+ ", upstream=" +:+ name +:+ ", address="
                       +:+ u_Address v)
    | None =>
        let effectivePerIP := if u_PerIPMaxActiveConns v =? 0 then p_PerIPMaxActiveConns p
                              else u_PerIPMaxActiveConns v in
        Ret (mkUpstreamConfig name (mkTarget name (u_Address v) (u_UseProxyProtocol v))
               (u_Modules v) (u_DiscoverModules v) (u_MaxActiveConns v) (u_MaxQueuedConns v)
               effectivePerIP)
    end.

Fixpoint buildUpstreams (c : Config) (names : list string) : result (list upstreamConfig) :=
  match names with
  | [] => Ret []
  | name :: rest =>
      match cf_Upstreams c !! name with
      | None => buildUpstreams c rest
      | Some v => u ← buildUpstream (cf_Proxy c) name v; us ← buildUpstreams c rest; mret (u :: us)
      end
  end.

(** The names in the order the loop visits them. *)
Definition upstreamNames (c : Config) : list string :=
  sortStrings (map fst (map_to_list (cf_Upstreams c))).

(** ** Queues *)

Fixpoint updateQueues (old : gmap string nat) (upstreams : list upstreamConfig)
    (queues : gmap string nat) (store : gmap nat Q) (next : nat)
    : outcome (gmap string nat * gmap nat Q * nat) :=
  match upstreams with
  | [] => Done (queues, store, next)
  | u :: rest =>
      match old !! uc_Name u with
      | None =>
          updateQueues old rest (<[uc_Name u := next]> queues)
            (<[next := newQueue (uc_MaxActiveConns u) (uc_MaxQueuedConns u)]> store) (S next)
      | Some ref =>
          match store !! ref with
          | None => Panic "nil queue"
          | Some qu =>
              qu' ← setMax (uc_MaxActiveConns u) (uc_MaxQueuedConns u) qu;
              updateQueues old rest (<[uc_Name u := ref]> queues) (<[ref := qu']> store) next
          end
      end
  end.

Definition updateUpstreamQueuesLocked (s : Server Q) (upstreams : list upstreamConfig)
    : outcome (gmap string nat * gmap nat Q * nat) :=
  updateQueues (s_upstreamQueues s) upstreams ∅ (s_queues s) (s_nextQueue s).

(** ** [loadConfig] *)

Definition orElse (a b : string) : string := if decide (a = "") then b else a.

(** [time.Duration(secs) * time.Second], in 64 bits. *)
Definition seconds (secs : Z) : Z := int64 (secs * second).

Definition timingsOf (p : ProxySettings) : relayTimings :=
  let windowSecs := if p_MinThroughputWindowSecs p =? 0 then 60
                    else p_MinThroughputWindowSecs p in
  let graceSecs := if p_MinThroughputGraceSecs p =? 0 then windowSecs
                   else p_MinThroughputGraceSecs p in
  mkTimings (seconds (p_RelayIdleTimeoutSecs p)) (seconds (p_RelayMaxDurationSecs p))
    (seconds (p_TCPKeepAliveSecs p)) (p_MinThroughputBytes p)
    (seconds windowSecs) (seconds graceSecs).

(** The addresses not set yet are taken from the configuration. *)
Definition setAddrs (p : ProxySettings) (s : Server Q) : Server Q :=
  mkServer (orElse (s_ListenAddr s) (p_Listen p)) (orElse (s_TLSListenAddr s) (p_ListenTLS p))
    (orElse (s_HTTPListenAddr s) (p_ListenHTTP p)) (s_timings s) (s_Motd s)
    (s_accessLog s) (s_errorLog s) (s_files s) (s_dialer s) (s_modules s) (s_upstreams s)
    (s_tlsCertificate s) (s_upstreamQueues s) (s_queues s) (s_nextQueue s)
    (s_TCPListener s) (s_TLSListener s) (s_HTTPListener s).

Definition setLogs (access errorL : FileLogger) (fs : Files) (s : Server Q) : Server Q :=
  mkServer (s_ListenAddr s) (s_TLSListenAddr s) (s_HTTPListenAddr s) (s_timings s) (s_Motd s)
    access errorL fs (s_dialer s) (s_modules s) (s_upstreams s)
    (s_tlsCertificate s) (s_upstreamQueues s) (s_queues s) (s_nextQueue s)
    (s_TCPListener s) (s_TLSListener s) (s_HTTPListener s).

Definition setMotd (motd : string) (s : Server Q) : Server Q :=
  mkServer (s_ListenAddr s) (s_TLSListenAddr s) (s_HTTPListenAddr s) (s_timings s) motd
    (s_accessLog s) (s_errorLog s) (s_files s) (s_dialer s) (s_modules s) (s_upstreams s)
    (s_tlsCertificate s) (s_upstreamQueues s) (s_queues s) (s_nextQueue s)
    (s_TCPListener s) (s_TLSListener s) (s_HTTPListener s).

(** The log files are switched one after the other. *)
Definition switchLogs (openLog : bool) (p : ProxySettings) (s : Server Q)
    : option error * Server Q :=
  if negb openLog then (None, s)
  else
    let '(err, access, fs) := SetFile openLogFile (p_AccessLog p) (s_accessLog s) (s_files s) in
    let s := setLogs access (s_errorLog s) fs s in
    match err with
    | Some e => (Some e, s)
    | None =>
        let '(err, errorL, fs) := SetFile openLogFile (p_ErrorLog p) (s_errorLog s) (s_files s) in
        (err, setLogs access errorL fs s)
    end.

(** The settings and tables in force once everything was checked. *)
Definition commit (p : ProxySettings) (resolved : list upstreamConfig)
    (cert : option Certificate) (s : Server Q) : outcome (Server Q) :=
  '(queues, store, next) ← updateUpstreamQueuesLocked s resolved;
  mret (mkServer (s_ListenAddr s) (s_TLSListenAddr s) (s_HTTPListenAddr s) (timingsOf p)
    (s_Motd s) (s_accessLog s) (s_errorLog s) (s_files s)
    (mkDialer (tcpKeepAlive (timingsOf p)) (seconds (p_DialTimeoutSecs p)))
    (buildModuleTargets resolved) resolved cert queues store next
    (s_TCPListener s) (s_TLSListener s) (s_HTTPListener s)).

Definition checkConfig (s : Server Q) (c : Config) : result (option Certificate * list upstreamConfig) :=
  cert ← checkTLS s (cf_Proxy c);
  _ ← checkProxy (cf_Proxy c);
  upstreams ← buildUpstreams c (upstreamNames c);
  mret (cert, upstreams).

Definition loadConfig (c : Config) (openLog : bool) (s : Server Q)
    : outcome (result unit * Server Q) :=
  let p := cf_Proxy c in
  match checkConfig s c with
  | Err e => Done (Err e, s)
  | Ret (cert, upstreams) =>
      match (if openLog then discoverConfiguredModules (dial (s_dialer s)) upstreams
             else Some (Ret ∅)) with
      | None => Blocked
      | Some (Err e) => Done (Err e, s)
      | Some (Ret discovered) =>
          let resolved := resolveUpstreams upstreams discovered in
          let s := setAddrs p s in
          let '(err, s) := switchLogs openLog p s in
          match err with
          | Some e => Done (Err e, s)
          | None =>
              let s := setMotd (p_Motd p) s in
              if p_RelayIdleTimeoutSecs p <? 0 then
                Done (Err ("relay_idle_timeout must be non-negative, got "
                             +:+ itoa (p_RelayIdleTimeoutSecs p)), s)
              else
                s' ← commit p resolved cert s; mret (Ret tt, s')
          end
      end
  end.

Definition ApplyConfig := loadConfig.
End server.

(** ** The queues across reloads *)

Section queues.
Context {Q : Type} `{AdmissionControl Q}.

(** [name] has its own live queue in [queues]. *)
Record liveQueues (queues : gmap string nat) (store : gmap nat Q) (next : nat) : Prop := {
  lq_sound name ref : queues !! name = Some ref → ∃ qu, store !! ref = Some qu ∧ sound qu;
  lq_inj n1 n2 ref : queues !! n1 = Some ref → queues !! n2 = Some ref → n1 = n2;
  lq_fresh ref qu : store !! ref = Some qu → (ref < next)%nat }.

(** What a reload does to the queue of one upstream. *)
Definition queueUpdated (old : gmap string nat) (store : gmap nat Q)
    (queues' : gmap string nat) (store' : gmap nat Q) (u : upstreamConfig) : Prop :=
  ∃ ref qu', queues' !! uc_Name u = Some ref ∧ store' !! ref = Some qu' ∧
    limits qu' = (uc_MaxActiveConns u, uc_MaxQueuedConns u) ∧
    match old !! uc_Name u with
    | Some ref0 => ref = ref0 ∧
        ∃ qu more, store !! ref0 = Some qu ∧ admitted qu' = admitted qu ++ more
    | None => store !! ref = None ∧ admitted qu' = []
    end.

(** An update can be seen from an earlier store. *)
Lemma queueUpdated_earlier old store store1 queues' store' u :
  (∀ r y, old !! uc_Name u = Some r → store1 !! r = Some y →
     ∃ qu more, store !! r = Some qu ∧ admitted y = admitted qu ++ more) →
  (∀ r, store1 !! r = None → store !! r = None) →
  queueUpdated old store1 queues' store' u → queueUpdated old store queues' store' u.
Proof.
  intros H1 H2 (r & x & Hr & Hx & Hl & Hcase). exists r, x. split_and!; try done.
  destruct (old !! uc_Name u) as [r0|].
  - destruct Hcase as (-> & y & more' & Hy & Hm). split; [done|].
    destruct (H1 r0 y) as (qu & more & Hqu & Hadm); [done|done|].
    exists qu, (more ++ more'). by rewrite Hm, Hadm, app_assoc.
  - destruct Hcase as [Hn ?]. auto.
Qed.

(** The two tables agree on the names they share. *)
Definition compatible (old queues : gmap string nat) : Prop :=
  ∀ n1 n2 ref, old !! n1 = Some ref → queues !! n2 = Some ref → n1 = n2.

Lemma liveQueues_update old queues store next name ref qu qu' :
  liveQueues old store next → liveQueues queues store next → compatible old queues →
  old !! name = Some ref → store !! ref = Some qu → sound qu' →
  liveQueues old (<[ref := qu']> store) next ∧
  liveQueues (<[name := ref]> queues) (<[ref := qu']> store) next ∧
  compatible old (<[name := ref]> queues).
Proof.
  intros [O1 O2 O3] [N1 N2 N3] Hc Ho Hs Hq.
  assert (∀ r, (∃ x, store !! r = Some x ∧ sound x) →
    ∃ x, <[ref := qu']> store !! r = Some x ∧ sound x) as Hup.
  { intros r Hr. destruct (decide (r = ref)) as [->|Hne]; [rewrite lookup_insert_eq; eauto|].
    by rewrite lookup_insert_ne. }
  assert (∀ r x, <[ref := qu']> store !! r = Some x → (r < next)%nat) as Hfr.
  { intros r x. destruct (decide (r = ref)) as [->|Hne]; [intros _; by apply (O3 ref qu)|].
    rewrite lookup_insert_ne by done. apply O3. }
  split_and!; [split; eauto|split; eauto|].
  - intros n r. destruct (decide (n = name)) as [->|Hne].
    + rewrite lookup_insert_eq. intros [= <-]. rewrite lookup_insert_eq. eauto.
    + rewrite lookup_insert_ne by done. eauto.
  - intros n1 n2 r. rewrite !lookup_insert_Some.
    intros [[<- <-]|[? ?]] [[<- E]|[? ?]]; eauto; subst; naive_solver.
  - intros n1 n2 r. rewrite lookup_insert_Some. intros ? [[<- <-]|[? ?]]; eauto.
Qed.

Lemma liveQueues_new old queues store next name qu' :
  liveQueues old store next → liveQueues queues store next → compatible old queues →
  sound qu' →
  liveQueues old (<[next := qu']> store) (S next) ∧
  liveQueues (<[name := next]> queues) (<[next := qu']> store) (S next) ∧
  compatible old (<[name := next]> queues).
Proof.
  intros [O1 O2 O3] [N1 N2 N3] Hc Hq.
  assert (∀ r, (∃ x, store !! r = Some x ∧ sound x) → r ≠ next) as Hne.
  { intros r (x & Hx & _) ->. apply O3 in Hx. lia. }
  assert (∀ r, (∃ x, store !! r = Some x ∧ sound x) →
    ∃ x, <[next := qu']> store !! r = Some x ∧ sound x) as Hup.
  { intros r Hr. rewrite lookup_insert_ne; [done|]. intros <-. by apply (Hne next). }
  assert (∀ r x, <[next := qu']> store !! r = Some x → (r < S next)%nat) as Hfr.
  { intros r x. destruct (decide (r = next)) as [->|Hn]; [intros _; lia|].
    rewrite lookup_insert_ne by done. intros Hx. apply O3 in Hx. lia. }
  split_and!; [split; eauto|split; eauto|].
  - intros n r. destruct (decide (n = name)) as [->|Hn].
    + rewrite lookup_insert_eq. intros [= <-]. rewrite lookup_insert_eq. eauto.
    + rewrite lookup_insert_ne by done. eauto.
  - intros n1 n2 r. rewrite !lookup_insert_Some.
    intros [[? ?]|[? Hr]] [[? ?]|[? Hr']]; subst; eauto.
    + by destruct (Hne _ (N1 _ _ Hr')).
    + by destruct (Hne _ (N1 _ _ Hr)).
  - intros n1 n2 r Ho. rewrite lookup_insert_Some. intros [[? ?]|[? ?]]; subst; [|by eauto].
    by destruct (Hne _ (O1 _ _ Ho)).
Qed.

(** What it does to the tables. *)
Definition queuesUpdated (old : gmap string nat) (ups : list upstreamConfig)
    (queues : gmap string nat) (store : gmap nat Q) (queues' : gmap string nat) (store' : gmap nat Q) : Prop :=
  dom queues' = dom queues ∪ list_to_set (map uc_Name ups) ∧
  (∀ n, n ∉ map uc_Name ups → queues' !! n = queues !! n) ∧
  (∀ ref qu, store !! ref = Some qu → (∀ u, u ∈ ups → old !! uc_Name u ≠ Some ref) →
     store' !! ref = Some qu) ∧
  Forall (queueUpdated old store queues' store') ups.

(** The first upstream, kept or new, before the others. *)
Lemma queuesUpdated_cons old u ups queues store ref qu' queues' store' :
  uc_Name u ∉ map uc_Name ups → limits qu' = (uc_MaxActiveConns u, uc_MaxQueuedConns u) →
  match old !! uc_Name u with
  | Some ref0 => ref = ref0 ∧ ∃ qu more, store !! ref0 = Some qu ∧ admitted qu' = admitted qu ++ more
  | None => store !! ref = None ∧ admitted qu' = []
  end →
  (∀ v, v ∈ ups → old !! uc_Name v ≠ Some ref) →
  queuesUpdated old ups (<[uc_Name u := ref]> queues) (<[ref := qu']> store) queues' store' →
  queuesUpdated old (u :: ups) queues store queues' store'.
Proof.
  intros Hnin Hlim Hu Hother (Hdom & Hkeep & Hframe & Hall). split_and!.
  - rewrite Hdom, dom_insert_L. set_solver.
  - intros n [Hn Hn']%not_elem_of_cons. rewrite Hkeep by done. by rewrite lookup_insert_ne by done.
  - intros r x Hx Hr. apply Hframe; [|intros v Hv; apply Hr; by right].
    rewrite lookup_insert_ne; [done|]. intros <-. specialize (Hr u ltac:(by left)).
    destruct (old !! uc_Name u) as [ref0|]; [|destruct Hu; congruence]. destruct Hu. congruence.
  - constructor.
    + exists ref, qu'. rewrite Hkeep, lookup_insert_eq by done. split_and!; try done.
      apply Hframe; [by rewrite lookup_insert_eq|done].
    + rewrite Forall_forall in Hall |- *. intros v Hv. eapply queueUpdated_earlier; [..|by apply Hall].
      * intros r y Ev Hy. rewrite lookup_insert_ne in Hy by (intros <-; by apply (Hother v)).
        exists y, []. by rewrite app_nil_r.
      * by intros r [? ?]%lookup_insert_None.
Qed.

Lemma updateQueues_run old ups queues store next :
  NoDup (map uc_Name ups) → (∀ u, u ∈ ups → queues !! uc_Name u = None) →
  liveQueues old store next → liveQueues queues store next → compatible old queues →
  ∃ queues' store' next', updateQueues old ups queues store next = Done (queues', store', next') ∧
    liveQueues queues' store' next' ∧ queuesUpdated old ups queues store queues' store'.
Proof.
  revert queues store next. induction ups as [|u ups IH]; intros queues store next Hnd Hnew Ho Hq Hc.
  { exists queues, store, next. unfold queuesUpdated. simpl. split_and!; try done. set_solver. }
  simpl in Hnd. apply NoDup_cons in Hnd as [Hnin Hnd]. simpl.
  assert (∀ v, v ∈ ups → uc_Name v ≠ uc_Name u) as Hdiff.
  { intros v Hv Heq. destruct Hnin. apply list_elem_of_fmap. by exists v. }
  assert (∀ v r, v ∈ ups → <[uc_Name u := r]> queues !! uc_Name v = None) as Hnew'.
  { intros v r Hv. rewrite lookup_insert_ne by (by apply not_eq_sym, Hdiff).
    apply Hnew. by right. }
  destruct (old !! uc_Name u) as [ref|] eqn:Eo.
  - destruct (lq_sound _ _ _ Ho _ _ Eo) as (qu & Es & Hs). rewrite Es.
    destruct (setMax_total (uc_MaxActiveConns u) (uc_MaxQueuedConns u) qu Hs)
      as (qu' & more & -> & Hs' & Hlim & Hadm).
    destruct (liveQueues_update _ _ _ _ _ _ _ _ Ho Hq Hc Eo Es Hs') as (Ho' & Hq' & Hc').
    destruct (IH _ _ _ Hnd (fun v => Hnew' v ref) Ho' Hq' Hc') as (queues' & store' & next' & Hrun & Hlive & Hup).
    exists queues', store', next'. split_and!; try done.
    eapply (queuesUpdated_cons old u ups queues store ref qu'); [done|done|rewrite Eo; eauto| |done].
    intros v Hv E. by apply (Hdiff v Hv), (lq_inj _ _ _ Ho _ _ ref).
  - pose proof (newQueue_sound (uc_MaxActiveConns u) (uc_MaxQueuedConns u)) as Hs'.
    destruct (liveQueues_new _ _ _ _ (uc_Name u) _ Ho Hq Hc Hs') as (Ho' & Hq' & Hc').
    destruct (IH _ _ _ Hnd (fun v => Hnew' v next) Ho' Hq' Hc') as (queues' & store' & next' & Hrun & Hlive & Hup).
    assert (store !! next = None) as Hfresh.
    { destruct (store !! next) eqn:E; [|done]. apply (lq_fresh _ _ _ Ho) in E. lia. }
    exists queues', store', next'. split_and!; try done.
    eapply (queuesUpdated_cons old u ups queues store next); [done|apply newQueue_limits| | |done].
    + rewrite Eo. auto using newQueue_empty.
    + intros v Hv E. apply (lq_sound _ _ _ Ho) in E as (x & Hx & _). by rewrite Hx in Hfresh.
Qed.
End queues.

(** ** Theorems on [loadConfig] *)

Section load.
Context {Q : Type} `{AdmissionControl Q}.
Context (loadX509KeyPair : string → string → result Certificate).
Context (resolveTCPAddr : string → option error).
Context (dial : Dialer → string → result Conn).
Context (openLogFile : string → option error).

Abbreviation load := (loadConfig loadX509KeyPair resolveTCPAddr dial openLogFile).

(** Every upstream has a live queue of its own, and the module table is the one
    of the upstreams. *)
Record wfServer (s : Server Q) : Prop := {
  wsv_live : liveQueues (s_upstreamQueues s) (s_queues s) (s_nextQueue s);
  wsv_names : dom (s_upstreamQueues s) = list_to_set (map uc_Name (s_upstreams s));
  wsv_targets : Forall (fun u => t_Upstream (uc_Target u) = uc_Name u) (s_upstreams s);
  wsv_modules : s_modules s = buildModuleTargets (s_upstreams s) }.

Lemma New_wf : wfServer New.
Proof. by split. Qed.

(** How an upstream of the table comes from the configuration. *)
Definition configured (p : ProxySettings) (name : string) (v : Upstream) (u : upstreamConfig)
    : Prop :=
  u = mkUpstreamConfig name (mkTarget name (u_Address v) (u_UseProxyProtocol v))
        (u_Modules v) (u_DiscoverModules v) (u_MaxActiveConns v) (u_MaxQueuedConns v)
        (if u_PerIPMaxActiveConns v =? 0 then p_PerIPMaxActiveConns p
         else u_PerIPMaxActiveConns v) ∧
  (u_Modules v ≠ [] ∨ u_DiscoverModules v = true) ∧ 0 ≤ u_PerIPMaxActiveConns v ∧
  validateTCPOrUnixAddr resolveTCPAddr (u_Address v) = None.

Lemma buildUpstream_Ret p name v u :
  buildUpstream resolveTCPAddr p name v = Ret u → configured p name v u.
Proof.
  unfold buildUpstream, configured. destruct (_ && _) eqn:E1; [done|].
  destruct (Z.ltb_spec (u_PerIPMaxActiveConns v) 0); [done|].
  destruct (validateTCPOrUnixAddr _ _) eqn:E2; [done|]. intros [= <-].
  split_and!; try done. apply andb_false_iff in E1 as [E1|E1].
  - left. by apply bool_decide_eq_false in E1.
  - right. by apply negb_false_iff in E1.
Qed.

Lemma buildUpstreams_Ret c names ups :
  (∀ n, n ∈ names → is_Some (cf_Upstreams c !! n)) →
  buildUpstreams resolveTCPAddr c names = Ret ups →
  Forall2 (fun n u => ∃ v, cf_Upstreams c !! n = Some v ∧ configured (cf_Proxy c) n v u) names ups.
Proof.
  revert ups. induction names as [|n names IH]; intros ups Hin; simpl.
  { intros [= <-]. constructor. }
  destruct (Hin n) as [v Hv]; [by left|]. rewrite Hv.
  destruct (buildUpstream resolveTCPAddr (cf_Proxy c) n v) as [u|e] eqn:Eu; simpl; [|done].
  destruct (buildUpstreams resolveTCPAddr c names) as [us|e] eqn:Es; simpl; [|done].
  intros [= <-]. constructor; [|apply IH; [|done]; intros m Hm; apply Hin; by right].
  exists v. split; [done|]. by apply buildUpstream_Ret.
Qed.

Lemma upstreamNames_spec c n : n ∈ upstreamNames c ↔ is_Some (cf_Upstreams c !! n).
Proof.
  unfold upstreamNames. rewrite sortStrings_perm.
  change (@map) with (@fmap list list_fmap). rewrite list_elem_of_fmap. split.
  - intros ([k v] & -> & Hk). apply elem_of_map_to_list in Hk. eauto.
  - intros [v Hv]. exists (n, v). by rewrite elem_of_map_to_list.
Qed.

Lemma upstreamNames_NoDup c : NoDup (upstreamNames c).
Proof. unfold upstreamNames. rewrite sortStrings_perm. apply NoDup_fst_map_to_list. Qed.

Lemma checkConfig_Ret (s : Server Q) c cert ups :
  checkConfig loadX509KeyPair resolveTCPAddr s c = Ret (cert, ups) →
  checkTLS loadX509KeyPair s (cf_Proxy c) = Ret cert ∧ checkProxy (cf_Proxy c) = Ret tt ∧
  map uc_Name ups = upstreamNames c ∧
  Forall2 (fun n u => ∃ v, cf_Upstreams c !! n = Some v ∧ configured (cf_Proxy c) n v u)
    (upstreamNames c) ups.
Proof.
  unfold checkConfig. destruct (checkTLS _ s _) as [cert'|]; simpl; [|done].
  destruct (checkProxy _) as [[]|] eqn:Ep; simpl; [|done].
  destruct (buildUpstreams _ c _) as [us|] eqn:Eu; simpl; [|done]. intros [= <- <-].
  apply buildUpstreams_Ret in Eu; [|intros n; by rewrite upstreamNames_spec].
  split_and!; try done. clear -Eu.
  induction Eu as [|n u names us (v & _ & -> & _) _ IH]; simpl; [done|]. by rewrite IH.
Qed.

Lemma discoverConfigured_total d acc ups : is_Some (discoverConfigured d acc ups).
Proof.
  revert acc. induction ups as [|u ups IH]; intros acc; simpl; [by eexists|].
  case_match; [done|]. destruct (discoverModules_total d u) as [res ->]. simpl.
  destruct res; [done|]. by eexists.
Qed.

Lemma resolveUpstreams_names ups d : map uc_Name (resolveUpstreams ups d) = map uc_Name ups.
Proof. unfold resolveUpstreams. rewrite map_map. by apply map_ext. Qed.

Lemma resolveUpstreams_elem u ups d :
  u ∈ ups →
  withModules u (if uc_DiscoverModules u then default [] (d !! uc_Name u) else uc_Modules u)
    ∈ resolveUpstreams ups d.
Proof. intros Hu. apply list_elem_of_fmap. by exists u. Qed.

(** Committing the upstreams of a checked configuration. *)
Lemma commit_run p cert ups (s : Server Q) :
  liveQueues (s_upstreamQueues s) (s_queues s) (s_nextQueue s) →
  NoDup (map uc_Name ups) → Forall (fun u => t_Upstream (uc_Target u) = uc_Name u) ups →
  ∃ s', commit p ups cert s = Done s' ∧ wfServer s' ∧
    s_upstreams s' = ups ∧ s_tlsCertificate s' = cert ∧ s_timings s' = timingsOf p ∧
    Forall (queueUpdated (s_upstreamQueues s) (s_queues s) (s_upstreamQueues s') (s_queues s')) ups ∧
    (∀ ref qu, s_queues s !! ref = Some qu →
       (∀ u, u ∈ ups → s_upstreamQueues s !! uc_Name u ≠ Some ref) → s_queues s' !! ref = Some qu).
Proof.
  intros Hl Hnd Ht. unfold commit, updateUpstreamQueuesLocked.
  destruct (updateQueues_run (s_upstreamQueues s) ups ∅ (s_queues s) (s_nextQueue s))
    as (queues' & store' & next' & -> & Hlive & Hdom & _ & Hframe & Hall); try done.
  { split; try done. apply Hl. }
  eexists. split; [reflexivity|]. simpl. split_and!; try done. split; simpl; try done.
  rewrite Hdom, dom_empty_L. set_solver.
Qed.

(** Everything a connection is served by. *)
Definition sameTables (s s' : Server Q) : Prop :=
  s_modules s' = s_modules s ∧ s_upstreams s' = s_upstreams s ∧
  s_upstreamQueues s' = s_upstreamQueues s ∧ s_queues s' = s_queues s ∧
  s_nextQueue s' = s_nextQueue s ∧ s_tlsCertificate s' = s_tlsCertificate s ∧
  s_timings s' = s_timings s ∧ s_dialer s' = s_dialer s.

Lemma sameTables_refl s : sameTables s s.
Proof. by unfold sameTables. Qed.

Lemma sameTables_wf s s' : sameTables s s' → wfServer s → wfServer s'.
Proof.
  intros (Hm & Hu & Hq & Hs & Hn & _) [W1 W2 W3 W4].
  split; rewrite ?Hm, ?Hu, ?Hq, ?Hs, ?Hn; done.
Qed.

Lemma switchLogs_tables openLog p (s : Server Q) :
  sameTables s (switchLogs openLogFile openLog p s).2.
Proof.
  unfold switchLogs. destruct openLog; simpl; [|done].
  destruct (SetFile _ _ _ _) as [[[e|] l] fs]; simpl; [done|].
  by destruct (SetFile _ _ _ _) as [[err l'] fs'].
Qed.

(** The modules discovery found. *)
Definition discoveredBy (openLog : bool) (s : Server Q) (ups : list upstreamConfig)
    (discovered : gmap string (list string)) : Prop :=
  if openLog then discoverConfiguredModules (dial (s_dialer s)) ups = Some (Ret discovered)
  else discovered = ∅.

Lemma load_cases c openLog s :
  liveQueues (s_upstreamQueues s) (s_queues s) (s_nextQueue s) →
  ∃ r s', load c openLog s = Done (r, s') ∧
    match r with
    | Err _ => sameTables s s'
    | Ret _ => ∃ cert ups discovered,
        checkConfig loadX509KeyPair resolveTCPAddr s c = Ret (cert, ups) ∧
        discoveredBy openLog s ups discovered ∧
        wfServer s' ∧ s_upstreams s' = resolveUpstreams ups discovered ∧
        s_tlsCertificate s' = cert ∧ s_timings s' = timingsOf (cf_Proxy c) ∧
        0 ≤ p_RelayIdleTimeoutSecs (cf_Proxy c) ∧
        Forall (queueUpdated (s_upstreamQueues s) (s_queues s)
                  (s_upstreamQueues s') (s_queues s')) (resolveUpstreams ups discovered) ∧
        (∀ ref qu, s_queues s !! ref = Some qu →
           (∀ n, is_Some (cf_Upstreams c !! n) → s_upstreamQueues s !! n ≠ Some ref) →
           s_queues s' !! ref = Some qu)
    end.
Proof.
  intros Hl. unfold loadConfig.
  destruct (checkConfig _ _ s c) as [[cert ups]|e] eqn:Ec; [|by eexists _, _].
  pose proof (checkConfig_Ret _ _ _ _ Ec) as (_ & _ & Hnames & Hconf).
  destruct (if openLog then _ else _) as [[disc|e]|] eqn:Ed; [|by eexists _, _|].
  2: { destruct openLog; [|done].
       by destruct (discoverConfigured_total (dial (s_dialer s)) ∅ ups) as [? E];
         unfold discoverConfiguredModules in Ed; rewrite E in Ed. }
  pose proof (switchLogs_tables openLog (cf_Proxy c) (setAddrs (cf_Proxy c) s)) as Hlogs.
  destruct (switchLogs _ _ _ _) as [err s1]. simpl in Hlogs.
  destruct err as [e|]; [by eexists _, _|].
  destruct (Z.ltb_spec (p_RelayIdleTimeoutSecs (cf_Proxy c)) 0); [by eexists _, _|].
  assert (s_upstreamQueues s1 = s_upstreamQueues s ∧ s_queues s1 = s_queues s ∧
          s_nextQueue s1 = s_nextQueue s) as (E1 & E2 & E3) by (unfold sameTables in Hlogs; naive_solver).
  destruct (commit_run (cf_Proxy c) cert (resolveUpstreams ups disc) (setMotd (p_Motd (cf_Proxy c)) s1))
    as (s' & -> & Hwf & Hups & Hcert & Htim & Hall & Hframe).
  { simpl. by rewrite E1, E2, E3. }
  { rewrite resolveUpstreams_names, Hnames. apply upstreamNames_NoDup. }
  { unfold resolveUpstreams. apply Forall_map. clear -Hconf.
    induction Hconf as [|n u ns us (v & _ & -> & _) _ IH]; by constructor. }
  simpl in Hall, Hframe. rewrite E1, E2 in Hall. rewrite E2 in Hframe.
  eexists (Ret tt), s'. split; [done|]. exists cert, ups, disc.
  split_and!; try done. { unfold discoveredBy. destruct openLog; [done|]. by injection Ed. }
  intros ref qu Hq Hn. apply Hframe; [done|]. intros u Hu. rewrite E1. apply Hn.
  apply upstreamNames_spec. rewrite <- Hnames, <- (resolveUpstreams_names ups disc).
  apply list_elem_of_fmap. by exists u.
Qed.

(** C12: Loading a configuration always returns (it neither panics nor blocks on
    a queue), keeps the server well formed, and is all or nothing for what
    connections are served by: a load that fails leaves the module table, the
    upstreams, their queues, the certificate and the timings as they were. *)
Theorem loadConfig_atomic c openLog s :
  wfServer s →
  ∃ r s', load c openLog s = Done (r, s') ∧ wfServer s' ∧
    (∀ e, r = Err e → sameTables s s').
Proof.
  intros Hwf. destruct (load_cases c openLog s) as (r & s' & -> & Hr); [apply Hwf|].
  exists r, s'. split; [done|]. destruct r as [[]|e].
  - destruct Hr as (cert & ups & disc & _ & _ & Hwf' & _). done.
  - split; [by apply (sameTables_wf s)|done].
Qed.

Lemma load_routes c openLog s s' :
  wfServer s → load c openLog s = Done (Ret tt, s') →
  ∃ cert ups discovered,
    checkConfig loadX509KeyPair resolveTCPAddr s c = Ret (cert, ups) ∧
    discoveredBy openLog s ups discovered ∧
    (∀ m t, t ∈ default [] (getTargetsForModule s' m) ↔
       ∃ name v, cf_Upstreams c !! name = Some v ∧
         t = mkTarget name (u_Address v) (u_UseProxyProtocol v) ∧
         m ∈ (if u_DiscoverModules v then default [] (discovered !! name) else u_Modules v)) ∧
    (∀ name v, cf_Upstreams c !! name = Some v →
       getPerIPLimitForUpstream s' name =
         if u_PerIPMaxActiveConns v =? 0 then p_PerIPMaxActiveConns (cf_Proxy c)
         else u_PerIPMaxActiveConns v).
Proof.
  intros Hwf Hrun. destruct (load_cases c openLog s) as (r & s1 & E & Hr); [apply Hwf|].
  rewrite E in Hrun. injection Hrun as -> ->.
  destruct Hr as (cert & ups & disc & Hc & Hd & Hwf' & Hups & _).
  pose proof (checkConfig_Ret _ _ _ _ Hc) as (_ & _ & _ & Hconf).
  exists cert, ups, disc. split_and!; try done.
  - intros m t. unfold getTargetsForModule.
    rewrite (wsv_modules _ Hwf'), elem_of_buildModuleTargets, Hups.
    unfold resolveUpstreams. setoid_rewrite list_elem_of_fmap. split.
    + intros (u & (u0 & -> & Hu0) & Hm & <-).
      apply list_elem_of_lookup in Hu0 as [i Hi].
      destruct (Forall2_lookup_r _ _ _ _ _ Hconf Hi) as (n & _ & v & Hv & -> & _).
      exists n, v. done.
    + intros (n & v & Hv & -> & Hm).
      assert (n ∈ upstreamNames c) as Hn by (apply upstreamNames_spec; eauto).
      apply list_elem_of_lookup in Hn as [i Hi].
      destruct (Forall2_lookup_l _ _ _ _ _ Hconf Hi) as (u & Hu & v' & Hv' & -> & _).
      simplify_eq. eexists. split; [eexists; split; [reflexivity|eapply list_elem_of_lookup_2, Hu]|].
      done.
  - intros n v Hv. unfold getPerIPLimitForUpstream. rewrite Hups. unfold resolveUpstreams.
    assert (n ∈ upstreamNames c) as Hn by (apply upstreamNames_spec; eauto).
    clear -Hconf Hv Hn. induction Hconf as [|n' u ns us (v' & Hv' & -> & _) _ IH]; simpl.
    { elem_nil. }
    case_decide as Hdec; simpl in Hdec; [by simplify_eq|]. apply IH.
    apply elem_of_cons in Hn as [->|]; done.
Qed.

(** After a successful load a module is served by exactly the targets of the
    upstreams that list it (those discovery found, for an upstream that
    discovers), and every upstream has the per-address limit configured for it,
    or the proxy-wide one where it sets none. *)
Theorem loadConfig_routes c openLog s s' :
  wfServer s → load c openLog s = Done (Ret tt, s') →
  ∃ cert ups discovered,
    checkConfig loadX509KeyPair resolveTCPAddr s c = Ret (cert, ups) ∧
    discoveredBy openLog s ups discovered ∧
    (∀ m t, t ∈ default [] (getTargetsForModule s' m) ↔
       ∃ name v, cf_Upstreams c !! name = Some v ∧
         t = mkTarget name (u_Address v) (u_UseProxyProtocol v) ∧
         m ∈ (if u_DiscoverModules v then default [] (discovered !! name) else u_Modules v)) ∧
    (∀ name v, cf_Upstreams c !! name = Some v →
       getPerIPLimitForUpstream s' name =
         if u_PerIPMaxActiveConns v =? 0 then p_PerIPMaxActiveConns (cf_Proxy c)
         else u_PerIPMaxActiveConns v).
Proof. apply load_routes. Qed.

(** C16: A successful reload gives every upstream the limits it configures,
    without evicting anyone: an upstream that had a queue keeps that very queue,
    with the connections admitted before (in order) still admitted; a new one gets
    a queue of its own, empty; and the queues of upstreams that are gone are left
    alone, for the connections still in them. *)
Theorem loadConfig_keeps_queues c openLog s s' :
  wfServer s → load c openLog s = Done (Ret tt, s') →
  (∀ name v, cf_Upstreams c !! name = Some v →
     ∃ ref qu', getQueueForUpstream s' name = Some ref ∧ s_queues s' !! ref = Some qu' ∧
       limits qu' = (u_MaxActiveConns v, u_MaxQueuedConns v) ∧
       match getQueueForUpstream s name with
       | Some ref0 => ref = ref0 ∧
           ∃ qu more, s_queues s !! ref0 = Some qu ∧ admitted qu' = admitted qu ++ more
       | None => s_queues s !! ref = None ∧ admitted qu' = []
       end) ∧
  (∀ ref qu, s_queues s !! ref = Some qu →
     (∀ n, is_Some (cf_Upstreams c !! n) → getQueueForUpstream s n ≠ Some ref) →
     s_queues s' !! ref = Some qu).
Proof.
  intros Hwf Hrun. destruct (load_cases c openLog s) as (r & s1 & E & Hr); [apply Hwf|].
  rewrite E in Hrun. injection Hrun as -> ->.
  destruct Hr as (cert & ups & disc & Hc & Hd & Hwf' & Hups & _ & _ & _ & Hall & Hframe).
  pose proof (checkConfig_Ret _ _ _ _ Hc) as (_ & _ & _ & Hconf).
  split; [|done]. intros n v Hv.
  assert (n ∈ upstreamNames c) as Hn by (apply upstreamNames_spec; eauto).
  apply list_elem_of_lookup in Hn as [i Hi].
  destruct (Forall2_lookup_l _ _ _ _ _ Hconf Hi) as (u & Hu & v' & Hv' & -> & _). simplify_eq.
  rewrite Forall_forall in Hall.
  destruct (Hall _ (resolveUpstreams_elem _ _ disc (list_elem_of_lookup_2 _ _ _ Hu)))
    as (ref & qu' & H1 & H2 & H3 & H4).
  by exists ref, qu'.
Qed.

(** The targets of a served module and their queues. *)
Lemma served_queues s m ts :
  wfServer s → getTargetsForModule s m = Some ts →
  ts ≠ [] ∧ ∀ t, t ∈ ts →
    ∃ ref qu, getQueueForUpstream s (t_Upstream t) = Some ref ∧
      s_queues s !! ref = Some qu ∧ sound qu ∧
      ∀ n, getQueueForUpstream s n = Some ref → n = t_Upstream t.
Proof.
  intros [Hl Hn Ht Hm] Hts. unfold getTargetsForModule in Hts. split.
  - rewrite Hm, buildModuleTargets_lookup in Hts. intros ->.
    by destruct (concat _).
  - intros t Hin.
    assert (t ∈ default [] (buildModuleTargets (s_upstreams s) !! m)) as Hin'
      by by rewrite <- Hm, Hts.
    apply elem_of_buildModuleTargets in Hin' as (u & Hu & _ & <-).
    rewrite Forall_forall in Ht. rewrite (Ht u Hu).
    assert (uc_Name u ∈ dom (s_upstreamQueues s)) as Hdom.
    { rewrite Hn. apply elem_of_list_to_set, list_elem_of_fmap. by exists u. }
    apply elem_of_dom in Hdom as [ref Href].
    destruct (lq_sound _ _ _ Hl _ _ Href) as (qu & Hqu & Hs). exists ref, qu.
    split_and!; try done. intros n Href'. by apply (lq_inj _ _ _ Hl n (uc_Name u) ref).
Qed.

(** The branch of [relay] for an upstream without a queue is unreachable: a
    module that is served has at least one target, and the upstream of every one
    of its targets has a live queue, its own. *)
Theorem served_module_has_queue s m ts :
  wfServer s → getTargetsForModule s m = Some ts →
  ts ≠ [] ∧ ∀ t, t ∈ ts →
    ∃ ref qu, getQueueForUpstream s (t_Upstream t) = Some ref ∧
      s_queues s !! ref = Some qu ∧ sound qu ∧
      ∀ n, getQueueForUpstream s n = Some ref → n = t_Upstream t.
Proof. apply served_queues. Qed.
End load.

(** ** Instances *)

Section instances.
Import Queue.AdmissionQueue.

Definition demoProxy : ProxySettings :=
  mkProxySettings "0.0.0.0:873" "" "" "hello" "" "" "" "" 60 0 0 4 0 0 0 0.
Definition demoUp (addr : string) (modules : list string) (m : Z) : Upstream :=
  mkUpstream addr modules false false m 5 0.
Definition demoConfig : Config :=
  mkConfig demoProxy
    (list_to_map [("a", demoUp "10.0.0.1:873" ["debian"; "ubuntu"] 1);
                  ("b", demoUp "/run/b.sock" ["debian"] 2)]).

Definition noTLS (_ _ : string) : result string := Err "no such file".
Definition resolves (_ : string) : option error := None.
Definition noDial (_ : Dialer) (_ : string) : result Conn := Err "connection refused".
Definition noFiles (_ : string) : option error := Some "read-only file system".

Definition demoLoad (c : Config) (s : Server World) : outcome (result unit * Server World) :=
  loadConfig noTLS resolves noDial noFiles c false s.

(** The server after a load that succeeds. *)
Definition loaded (r : outcome (result unit * Server World)) : Server World :=
  match r with Done (_, s) => s | _ => ServerConfig.New end.
Definition demoServer : Server World := loaded (demoLoad demoConfig ServerConfig.New).

Lemma demoLoad_ok : demoLoad demoConfig ServerConfig.New = Done (Ret tt, demoServer).
Proof. by vm_compute. Qed.

Example demo_targets :
  getTargetsForModule demoServer "debian" =
    Some [mkTarget "a" "10.0.0.1:873" false; mkTarget "b" "/run/b.sock" false].
Proof. by vm_compute. Qed.

Lemma loadConfig_atomic_witness :
  ∃ r s', demoLoad demoConfig ServerConfig.New = Done (r, s') ∧ wfServer s'.
Proof.
  destruct (loadConfig_atomic noTLS resolves noDial noFiles demoConfig false ServerConfig.New New_wf)
    as (r & s' & H & Hwf & _).
  exists r, s'. exact (conj H Hwf).
Defined.

Lemma loadConfig_routes_witness :
  getPerIPLimitForUpstream demoServer "a" = 4.
Proof.
  destruct (loadConfig_routes noTLS resolves noDial noFiles demoConfig false ServerConfig.New
    demoServer New_wf demoLoad_ok) as (cert & ups & disc & _ & _ & _ & Hip).
  rewrite (Hip "a" (demoUp "10.0.0.1:873" ["debian"; "ubuntu"] 1)); reflexivity.
Defined.

Lemma loadConfig_keeps_queues_witness :
  ∃ ref qu', getQueueForUpstream demoServer "b" = Some ref ∧
    s_queues demoServer !! ref = Some qu' ∧ limits qu' = (2, 5).
Proof.
  destruct (loadConfig_keeps_queues noTLS resolves noDial noFiles demoConfig false
    ServerConfig.New demoServer New_wf demoLoad_ok) as [Hq _].
  destruct (Hq "b" (demoUp "/run/b.sock" ["debian"] 2)) as (ref & qu' & H1 & H2 & H3 & _);
    [reflexivity|].
  exists ref, qu'. exact (conj H1 (conj H2 H3)).
Defined.

Lemma demoServer_wf : wfServer demoServer.
Proof.
  destruct (load_cases noTLS resolves noDial noFiles demoConfig false ServerConfig.New)
    as (r & s' & E & Hr); [apply New_wf|].
  change (demoLoad demoConfig ServerConfig.New = Done (r, s')) in E.
  rewrite demoLoad_ok in E. injection E as <- <-.
  by destruct Hr as (? & ? & ? & _ & _ & ? & _).
Qed.

Lemma served_module_has_queue_witness :
  ∃ ref qu, getQueueForUpstream demoServer "b" = Some ref ∧
    s_queues demoServer !! ref = Some qu ∧ sound qu.
Proof.
  destruct (served_module_has_queue demoServer "debian"
    [mkTarget "a" "10.0.0.1:873" false; mkTarget "b" "/run/b.sock" false] demoServer_wf)
    as [_ Hq]; [by vm_compute|].
  destruct (Hq (mkTarget "b" "/run/b.sock" false)) as (ref & qu & H1 & H2 & H3 & _);
    [right; left|].
  exists ref, qu. exact (conj H1 (conj H2 H3)).
Defined.

(** A negative limit is accepted, and is given to the queue. *)
Example negative_max_accepted :
  let c := mkConfig demoProxy (list_to_map [("a", demoUp "10.0.0.1:873" ["debian"] (-1))]) in
  let s := loaded (demoLoad c ServerConfig.New) in
  demoLoad c ServerConfig.New = Done (Ret tt, s) ∧
  (limits <$> s_queues s !! 0%nat) = Some (-1, 5).
Proof. by vm_compute. Qed.

(** A reload refused for its idle timeout has replaced the message of the day. *)
Example refused_reload_changes_motd :
  let p := mkProxySettings "" "" "" "new" "" "" "" "" (-1) 0 0 0 0 0 0 0 in
  match demoLoad (mkConfig p ∅) demoServer with
  | Done (Err _, s') => s_Motd demoServer = "hello" ∧ s_Motd s' = "new"
  | _ => False
  end.
Proof. by vm_compute. Qed.
End instances.
