(* ===== verification/Translate.v ===== *)
(** * From API objects to the data-plane configuration:
      [internal/translate/translate.go] *)
From S2P Require Import Prelude GoStd Api Snapshot Claim Fixture Bind Net Upstreams Admission ServerConfig.
Open Scope Z_scope.

Record RouteBackend := mkRouteBackend { rbk_Name : string; rbk_Namespace : string; rbk_Port : Z }.

Record RouteInput := mkRouteInput {
  ri_Route : NamespacedName;
  ri_Modules : list string;
  ri_Backends : list RouteBackend;
  ri_Config : option GatewayConfigSpec }.

(** ** Names *)

Definition nameChar (c : ascii) : bool := isLower c || isDigit c || Ascii.eqb c "-".

(** Kubernetes names are ASCII, so a character of the Go string is a byte. *)
Definition sanitize (c : ascii) : ascii := if nameChar c then c else "-"%char.

Definition UpstreamName (route : NamespacedName) (index : Z) : string :=
  let raw := nn_Namespace route +:+ "-" +:+ nn_Name route +:+ "-" +:+ itoa index in
  let name := text (map sanitize (chars (toLower raw))) in
  if 63 <? len name then text (take 63 (chars name)) else name.

(** ** Settings *)

Definition DurationSecs (d : option string) : result Z :=
  match d with
  | None => Ret 0
  | Some s =>
      match parseDuration s with
      | Err e => Err ("invalid duration " +:+ quote s +:+ ": " +:+ e)
      | Ret dur => if dur <? 0 then Err ("duration must be non-negative, got " +:+ s)
                   else Ret (Z.quot dur second)
      end
  end.

Definition derefInt32 (p : option Z) : Z := default 0 p.

Definition zeroSettings : ProxySettings :=
  mkProxySettings "" "" "" "" "" "" "" "" 0 0 0 0 0 0 0 0.

Definition ProxySettingsOf (cfg : option GatewayConfigSpec) : result ProxySettings :=
  match cfg with
  | None => Ret zeroSettings
  | Some cfg =>
      _ ← Validate cfg;
      idle ← (DurationSecs (RelayIdleTimeout cfg) <?> "relayIdleTimeout")%go;
      maxDuration ← (DurationSecs (RelayMaxDuration cfg) <?> "relayMaxDuration")%go;
      keepAlive ← (DurationSecs (TCPKeepAlive cfg) <?> "tcpKeepAlive")%go;
      dialTimeout ← (DurationSecs (DialTimeout cfg) <?> "dialTimeout")%go;
      '(minBytes, window, grace) ←
        match ThroughputFloor cfg with
        | None => mret (0, 0, 0)
        | Some tf =>
            window ← (DurationSecs (tf_Window tf) <?> "throughputFloor.window")%go;
            grace ← (DurationSecs (tf_Grace tf) <?> "throughputFloor.grace")%go;
            mret (default 0 (tf_MinBytes tf), window, grace)
        end;
      let window := if (0 <? minBytes) && (window =? 0) then 60 else window in
      let grace := if (0 <? minBytes) && (grace =? 0) then window else grace in
      mret (mkProxySettings "" "" "" (default "" (Motd cfg)) "" "" "" ""
        idle maxDuration keepAlive (derefInt32 (PerIPMaxActiveConnections cfg)) dialTimeout
        minBytes window grace)
  end.

(** ** The table *)

Definition backendAddr (b : RouteBackend) : string :=
  rbk_Name b +:+ "." +:+ rbk_Namespace b +:+ ".svc:" +:+ itoa (rbk_Port b).

(** The upstream of one backend; [spec] is dereferenced. *)
Definition backendUpstream (spec : option GatewayConfigSpec) (modules : list string)
    (b : RouteBackend) : outcome Upstream :=
  match spec with
  | None => Panic "nil pointer dereference"
  | Some spec =>
      Done (mkUpstream (backendAddr b) modules false false
              (derefInt32 (MaxActiveConnections spec)) (derefInt32 (MaxQueuedConnections spec))
              (derefInt32 (PerIPMaxActiveConnections spec)))
  end.

(** The loop over the backends of a route, from index [i]. *)
Fixpoint addBackends (spec : option GatewayConfigSpec) (route : RouteInput) (i : Z)
    (bs : list RouteBackend) (ups : gmap string Upstream) : outcome (gmap string Upstream) :=
  match bs with
  | [] => Done ups
  | b :: rest =>
      u ← backendUpstream spec (ri_Modules route) b;
      addBackends spec route (i + 1) rest (<[UpstreamName (ri_Route route) i := u]> ups)
  end.

Definition routeSpec (primary : option GatewayConfigSpec) (route : RouteInput)
    : option GatewayConfigSpec :=
  match ri_Config route with Some spec => Some spec | None => primary end.

Fixpoint addRoutes (primary : option GatewayConfigSpec) (routes : list RouteInput)
    (ups : gmap string Upstream) : outcome (result (gmap string Upstream)) :=
  match routes with
  | [] => Done (Ret ups)
  | route :: rest =>
      let spec := routeSpec primary route in
      match match spec with Some sp => Validate sp | None => Ret tt end with
      | Err e => Done (Err ("route " +:+ nnString (ri_Route route) +:+ ": invalid GatewayConfig: "
                              +:+ e))
      | Ret _ =>
          ups' ← addBackends spec route 0 (ri_Backends route) ups;
          addRoutes primary rest ups'
      end
  end.

Definition BuildServerConfig (primary : option GatewayConfigSpec) (routes : list RouteInput)
    : outcome (result Config) :=
  match ProxySettingsOf primary with
  | Err e => Done (Err ("invalid GatewayConfig: " +:+ e))
  | Ret proxy =>
      r ← addRoutes primary routes ∅;
      match r with
      | Err e => mret (Err e)
      | Ret ups => mret (Ret (mkConfig proxy ups))
      end
  end.

(** ** Upstream names *)

Lemma sanitize_nameChar c : nameChar (sanitize c) = true.
Proof. unfold sanitize. by destruct (nameChar c) eqn:E. Qed.

(** An upstream name is at most 63 characters long and made of lower-case
    letters, digits and dashes only. *)
Theorem UpstreamName_shape route i :
  len (UpstreamName route i) ≤ 63 ∧
  Forall (fun c => nameChar c = true) (chars (UpstreamName route i)).
Proof.
  unfold UpstreamName. set (raw := chars (toLower _)). cbv zeta.
  assert (Forall (fun c => nameChar c = true) (map sanitize raw)) as Hall
    by (apply Forall_map, Forall_true; intros; apply sanitize_nameChar).
  destruct (Z.ltb_spec 63 (len (text (map sanitize raw)))); rewrite ?chars_text.
  - split; [|by apply Forall_take].
    unfold len. rewrite <- length_chars, chars_text, length_take. lia.
  - done.
Qed.

(** Different routes can be given the same upstream name. *)
Example UpstreamName_collision :
  UpstreamName (mkNN "a-b" "c") 0 = UpstreamName (mkNN "a" "b-c") 0 ∧
  UpstreamName (mkNN "a" (text (replicate 70 "x"%char))) 0
  = UpstreamName (mkNN "a" (text (replicate 70 "x"%char))) 1.
Proof. split; by vm_compute. Qed.

(** ** Settings *)

(** The whole seconds of a duration that parses, 0 when unset. *)
Definition secsOf (o : option string) : Z :=
  match o with
  | Some d => match parseDuration d with Ret n => Z.quot n second | Err _ => 0 end
  | None => 0
  end.

Lemma DurationSecs_good o :
  goodDuration o → DurationSecs o = Ret (secsOf o) ∧ 0 ≤ secsOf o ∧ secsOf o * second < 2 ^ 63.
Proof.
  destruct o as [d|]; simpl; [|done]. intros (n & Hn & Hpos). rewrite Hn.
  pose proof (parseDuration_range _ _ Hn) as Hr. unfold inInt64 in Hr.
  destruct (Z.ltb_spec n 0); [lia|]. split; [done|]. unfold second in *.
  rewrite Z.quot_div_nonneg by lia. pose proof (Z.div_pos n 1000000000).
  pose proof (Z.mul_div_le n 1000000000). lia.
Qed.

(** A number of seconds that fits is not changed by the conversion. *)
Lemma seconds_exact secs : 0 ≤ secs → secs * second < 2 ^ 63 → seconds secs = secs * second.
Proof. intros H1 H2. unfold seconds. apply int64_id. unfold inInt64, second in *. lia. Qed.

Lemma default_nonNegative o : nonNegative o → 0 ≤ default 0 o.
Proof. by destruct o. Qed.

Lemma requireNonNegative_ok name v : 0 ≤ v → requireNonNegative name v = Ret tt.
Proof. intros Hv. unfold requireNonNegative. by destruct (Z.ltb_spec v 0); [lia|]. Qed.

(** The settings of a valid spec. *)
Definition floorOf (spec : GatewayConfigSpec) : Z * Z * Z :=
  let minBytes := default 0 (f ← ThroughputFloor spec; tf_MinBytes f) in
  let w := secsOf (ThroughputFloorWindow spec) in
  let g := secsOf (ThroughputFloorGrace spec) in
  let window := if (0 <? minBytes) && (w =? 0) then 60 else w in
  (minBytes, window, if (0 <? minBytes) && (g =? 0) then window else g).

Lemma ProxySettingsOf_valid spec :
  validSpec spec →
  ProxySettingsOf (Some spec) =
    Ret (mkProxySettings "" "" "" (default "" (Motd spec)) "" "" "" ""
      (secsOf (RelayIdleTimeout spec)) (secsOf (RelayMaxDuration spec))
      (secsOf (TCPKeepAlive spec)) (default 0 (PerIPMaxActiveConnections spec))
      (secsOf (DialTimeout spec)) (floorOf spec).1.1 (floorOf spec).1.2 (floorOf spec).2).
Proof.
  intros Hv. pose proof Hv as [_ _ _ H1 H2 H3 H4 H5 H6 _]. unfold ProxySettingsOf.
  rewrite (proj2 (Validate_iff spec) Hv). cbn [mbind result_bind].
  rewrite (proj1 (DurationSecs_good _ H1)), (proj1 (DurationSecs_good _ H2)),
    (proj1 (DurationSecs_good _ H3)), (proj1 (DurationSecs_good _ H4)).
  unfold floorOf, ThroughputFloorWindow, ThroughputFloorGrace in *.
  destruct (ThroughputFloor spec) as [tf|]; [|done].
  change (goodDuration (tf_Window tf)) in H5. change (goodDuration (tf_Grace tf)) in H6.
  cbn [mbind result_bind wrapErr].
  rewrite (proj1 (DurationSecs_good _ H5)), (proj1 (DurationSecs_good _ H6)). done.
Qed.

Lemma floorOf_nonneg spec :
  validSpec spec → 0 ≤ (floorOf spec).1.1 ∧ 0 ≤ (floorOf spec).1.2 ∧ 0 ≤ (floorOf spec).2 ∧
  (0 < (floorOf spec).1.1 → 0 < (floorOf spec).1.2 ∧ 0 < (floorOf spec).2).
Proof.
  intros Hv. pose proof (default_nonNegative _ (vs_minBytes _ Hv)) as H0.
  destruct (DurationSecs_good _ (vs_window _ Hv)) as (_ & H1 & _).
  destruct (DurationSecs_good _ (vs_grace _ Hv)) as (_ & H2 & _).
  unfold floorOf. simpl. set (mb := default 0 _) in *.
  destruct (Z.ltb_spec 0 mb); simpl; [|lia].
  destruct (Z.eqb_spec (secsOf (ThroughputFloorWindow spec)) 0),
    (Z.eqb_spec (secsOf (ThroughputFloorGrace spec)) 0); lia.
Qed.

(** The settings pass the checks of the data plane and ask for no TLS listener. *)
Definition acceptable (p : ProxySettings) : Prop :=
  checkProxy p = Ret tt ∧ 0 ≤ p_RelayIdleTimeoutSecs p ∧ p_ListenTLS p = "".

Lemma settings_acceptable cfg p :
  match cfg with Some spec => validSpec spec | None => True end →
  ProxySettingsOf cfg = Ret p → acceptable p.
Proof.
  destruct cfg as [spec|]; [|by intros _ [= <-]]. intros Hv. rewrite (ProxySettingsOf_valid _ Hv).
  intros [= <-]. pose proof Hv as [P _ _ H1 H2 H3 H4 _ _ _]. apply default_nonNegative in P.
  apply DurationSecs_good in H1 as (_ & A1 & _), H2 as (_ & A2 & _), H3 as (_ & A3 & _), H4 as (_ & A4 & _).
  destruct (floorOf_nonneg _ Hv) as (F1 & F2 & F3 & F4). split; [|done].
  unfold checkProxy. cbn [p_RelayMaxDurationSecs p_TCPKeepAliveSecs p_PerIPMaxActiveConns
    p_DialTimeoutSecs p_MinThroughputBytes p_MinThroughputWindowSecs p_MinThroughputGraceSecs].
  by rewrite !requireNonNegative_ok.
Qed.

(** A valid GatewayConfig always translates: every duration becomes its whole
    seconds, a throughput floor never goes without a window and a grace period,
    and the result is one the data plane accepts and turns back into durations
    without overflow; an invalid GatewayConfig is refused. *)
Theorem ProxySettings_translates spec :
  (¬ validSpec spec → ∃ e, ProxySettingsOf (Some spec) = Err e) ∧
  (validSpec spec → ∃ p, ProxySettingsOf (Some spec) = Ret p ∧
     checkProxy p = Ret tt ∧
     timingsOf p = mkTimings
       (secsOf (RelayIdleTimeout spec) * second) (secsOf (RelayMaxDuration spec) * second)
       (secsOf (TCPKeepAlive spec) * second) (p_MinThroughputBytes p)
       (minWindow (timingsOf p)) (minGrace (timingsOf p)) ∧
     0 ≤ p_RelayIdleTimeoutSecs p ∧
     p_MinThroughputBytes p = default 0 (f ← ThroughputFloor spec; tf_MinBytes f) ∧
     (0 < p_MinThroughputBytes p →
        0 < p_MinThroughputWindowSecs p ∧ 0 < p_MinThroughputGraceSecs p)).
Proof.
  split.
  - intros Hn. unfold ProxySettingsOf. destruct (Validate spec) as [[]|e] eqn:E; [|by eexists].
    by apply Validate_iff in E.
  - intros Hv. destruct (ProxySettingsOf (Some spec)) as [p|e] eqn:Ep;
      [|by rewrite (ProxySettingsOf_valid _ Hv) in Ep].
    destruct (settings_acceptable (Some spec) p Hv Ep) as (Hck & Hid & _).
    rewrite (ProxySettingsOf_valid _ Hv) in Ep. injection Ep as <-. eexists. split; [done|].
    pose proof Hv as [_ _ _ H1 H2 H3 _ _ _ _].
    apply DurationSecs_good in H1 as (_ & A1 & B1), H2 as (_ & A2 & B2), H3 as (_ & A3 & B3).
    destruct (floorOf_nonneg _ Hv) as (_ & _ & _ & F4).
    split_and!; try done.
    + unfold timingsOf. cbn [p_RelayMaxDurationSecs p_TCPKeepAliveSecs p_RelayIdleTimeoutSecs
        p_MinThroughputBytes p_MinThroughputWindowSecs p_MinThroughputGraceSecs].
      by rewrite (seconds_exact (secsOf (RelayIdleTimeout spec))),
        (seconds_exact (secsOf (RelayMaxDuration spec))),
        (seconds_exact (secsOf (TCPKeepAlive spec))).
Qed.

(** ** The upstream table *)

Definition upstreamOf (spec : GatewayConfigSpec) (modules : list string) (b : RouteBackend)
    : Upstream :=
  mkUpstream (backendAddr b) modules false false
    (derefInt32 (MaxActiveConnections spec)) (derefInt32 (MaxQueuedConnections spec))
    (derefInt32 (PerIPMaxActiveConnections spec)).

(** What a route writes into the table, in order. *)
Definition routeEntries (primary : option GatewayConfigSpec) (route : RouteInput)
    : list (string * Upstream) :=
  match routeSpec primary route with
  | None => []
  | Some spec =>
      imap (fun i b => (UpstreamName (ri_Route route) (Z.of_nat i),
                        upstreamOf spec (ri_Modules route) b)) (ri_Backends route)
  end.

Definition tableEntries (primary : option GatewayConfigSpec) (routes : list RouteInput)
    : list (string * Upstream) :=
  concat (map (routeEntries primary) routes).

Definition insertAll (ups : gmap string Upstream) (entries : list (string * Upstream))
    : gmap string Upstream :=
  foldl (fun m p => <[p.1 := p.2]> m) ups entries.

Lemma addBackends_run spec route k bs ups :
  addBackends (Some spec) route (Z.of_nat k) bs ups =
    Done (insertAll ups (imap (fun i b => (UpstreamName (ri_Route route) (Z.of_nat (k + i)),
                                            upstreamOf spec (ri_Modules route) b)) bs)).
Proof.
  revert k ups. induction bs as [|b bs IH]; intros k ups; cbn [addBackends]; [done|].
  simpl. replace (Z.of_nat k + 1) with (Z.of_nat (S k)) by lia. rewrite IH. f_equal.
  unfold insertAll. simpl. rewrite Nat.add_0_r. f_equal. apply imap_ext.
  intros i x _. simpl. by rewrite Nat.add_succ_r.
Qed.

(** A route whose settings are known and valid. *)
Definition configuredRoute (primary : option GatewayConfigSpec) (route : RouteInput) : Prop :=
  ∃ spec, routeSpec primary route = Some spec ∧ validSpec spec.

Lemma addRoutes_run primary routes ups :
  Forall (configuredRoute primary) routes →
  addRoutes primary routes ups = Done (Ret (insertAll ups (tableEntries primary routes))).
Proof.
  intros H. revert ups. induction H as [|route routes (spec & Hs & Hv) _ IH]; intros ups;
    cbn [addRoutes]; [done|].
  rewrite Hs, (proj2 (Validate_iff spec) Hv).
  change 0 with (Z.of_nat 0). rewrite addBackends_run. cbn [mbind outcome_bind].
  rewrite IH. do 2 f_equal. unfold tableEntries. simpl. unfold insertAll.
  rewrite foldl_app. unfold routeEntries at 2. by rewrite Hs.
Qed.

Lemma insertAll_sound ups entries n u :
  insertAll ups entries !! n = Some u → (n, u) ∈ entries ∨ ups !! n = Some u.
Proof.
  unfold insertAll. induction entries as [|[n' u'] entries IH] using rev_ind; [by right|].
  rewrite foldl_app. simpl. rewrite elem_of_app, lookup_insert_Some, list_elem_of_singleton.
  intros [[-> ->]|[_ Hin]]; [by auto|]. destruct (IH Hin); auto.
Qed.

Lemma insertAll_complete ups entries n u :
  NoDup (map fst entries) → (n, u) ∈ entries → insertAll ups entries !! n = Some u.
Proof.
  unfold insertAll. induction entries as [|[n' u'] entries IH] using rev_ind.
  { intros _ H. elem_nil. }
  rewrite map_app, foldl_app, elem_of_app, list_elem_of_singleton. simpl.
  intros (Hnd & Hdisj & _)%NoDup_app Hin. rewrite lookup_insert_Some.
  destruct Hin as [Hin|[= -> ->]]; [right|by left]. split; [|by apply IH].
  intros <-. apply (Hdisj n'); [|by left]. apply list_elem_of_fmap. by exists (n', u).
Qed.

Lemma elem_of_tableEntries primary routes n u :
  (n, u) ∈ tableEntries primary routes ↔
  ∃ route spec i b, route ∈ routes ∧ routeSpec primary route = Some spec ∧
    ri_Backends route !! i = Some b ∧ n = UpstreamName (ri_Route route) (Z.of_nat i) ∧
    u = upstreamOf spec (ri_Modules route) b.
Proof.
  unfold tableEntries. rewrite list_elem_of_In, in_concat. split.
  - intros (l & Hl & Hin). apply in_map_iff in Hl as (route & <- & Hr).
    apply list_elem_of_In in Hin, Hr. unfold routeEntries in Hin.
    destruct (routeSpec primary route) as [spec|] eqn:E; [|elem_nil].
    apply elem_of_lookup_imap in Hin as (i & b & Heq & Hb). simplify_eq. by exists route, spec, i, b.
  - intros (route & spec & i & b & Hr & Hs & Hb & -> & ->).
    exists (routeEntries primary route). split; [by apply in_map, list_elem_of_In|].
    apply list_elem_of_In. unfold routeEntries. rewrite Hs. apply elem_of_lookup_imap.
    by exists i, b.
Qed.

(** With a valid primary GatewayConfig (and valid ones on the routes that have
    their own) the table is always built; whatever it holds is an upstream of some
    backend of some route, with its address, the modules of the route and the
    limits of its GatewayConfig; and as long as no two backends share an upstream
    name, none is missing. *)
Theorem BuildServerConfig_table primary spec routes :
  primary = Some spec → validSpec spec →
  (∀ route sp, route ∈ routes → ri_Config route = Some sp → validSpec sp) →
  ∃ c p, BuildServerConfig primary routes = Done (Ret c) ∧
    ProxySettingsOf primary = Ret p ∧ cf_Proxy c = p ∧
    (∀ n u, cf_Upstreams c !! n = Some u →
       ∃ route sp i b, route ∈ routes ∧ routeSpec primary route = Some sp ∧
         ri_Backends route !! i = Some b ∧ n = UpstreamName (ri_Route route) (Z.of_nat i) ∧
         u = upstreamOf sp (ri_Modules route) b) ∧
    (NoDup (map fst (tableEntries primary routes)) →
     ∀ route sp i b, route ∈ routes → routeSpec primary route = Some sp →
       ri_Backends route !! i = Some b →
       cf_Upstreams c !! UpstreamName (ri_Route route) (Z.of_nat i) =
         Some (upstreamOf sp (ri_Modules route) b)).
Proof.
  intros Hp Hv Hroutes.
  assert (Forall (configuredRoute primary) routes) as Hall.
  { apply Forall_forall. intros route Hr. unfold configuredRoute, routeSpec.
    destruct (ri_Config route) as [sp|] eqn:E; [exists sp; eauto|]. exists spec. auto. }
  subst primary. unfold BuildServerConfig. rewrite (ProxySettingsOf_valid _ Hv).
  rewrite addRoutes_run by done. cbn [mbind outcome_bind].
  eexists _, _. split_and!; [done|done|done|..].
  - intros n u Hu. cbn [cf_Upstreams] in Hu.
    apply insertAll_sound in Hu as [Hin|Hin]; [|by rewrite lookup_empty in Hin].
    by apply elem_of_tableEntries.
  - intros Hnd route sp i b H1 H2 H3. apply insertAll_complete; [done|].
    apply elem_of_tableEntries. by exists route, sp, i, b.
Qed.

Lemma fixtureConfig_valid : validSpec (cfg_Spec Fixture.config).
Proof. apply Validate_iff. by vm_compute. Qed.

Definition fixtureInput : RouteInput :=
  mkRouteInput Fixture.oldKey ["debian"] [mkRouteBackend "deb" "apps" 873] None.

Lemma BuildServerConfig_table_witness :
  ∃ c, BuildServerConfig (Some (cfg_Spec Fixture.config)) [fixtureInput] = Done (Ret c) ∧
    cf_Upstreams c !! "apps-debian-0" =
      Some (mkUpstream "deb.apps.svc:873" ["debian"] false false 10 20 4).
Proof.
  destruct (BuildServerConfig_table (Some (cfg_Spec Fixture.config)) (cfg_Spec Fixture.config)
    [fixtureInput]) as (c & p & Hrun & _ & _ & _ & Hall).
  - reflexivity.
  - exact fixtureConfig_valid.
  - intros route sp ->%list_elem_of_singleton. discriminate.
  - exists c. split; [exact Hrun|].
    apply (fun Hnd => Hall Hnd fixtureInput (cfg_Spec Fixture.config) O
             (mkRouteBackend "deb" "apps" 873)).
    + apply NoDup_singleton.
    + left.
    + reflexivity.
    + reflexivity.
Defined.

(** Without any GatewayConfig a backend is a nil dereference. *)
Example BuildServerConfig_nil_panics :
  BuildServerConfig None [fixtureInput] = Panic "nil pointer dereference".
Proof. by vm_compute. Qed.

(** Two routes whose upstream names collide: one of the backends is lost. *)
Example BuildServerConfig_collision :
  let input ns name host :=
    mkRouteInput (mkNN ns name) [name] [mkRouteBackend host ns 873]
      (Some (cfg_Spec Fixture.config)) in
  let addrs r := match r with
                 | Done (Ret c) => map (fun p => u_Address p.2) (map_to_list (cf_Upstreams c))
                 | _ => []
                 end in
  addrs (BuildServerConfig None [input "a-b" "c" "one"; input "a" "b-c" "two"])
    = ["two.a.svc:873"] ∧
  addrs (BuildServerConfig None [input "a" "b-c" "two"; input "a-b" "c" "one"])
    = ["one.a-b.svc:873"].
Proof. split; by vm_compute. Qed.
