(* ===== verification/Controller.v ===== *)
(** * The reconciler: [internal/controller/reconciler.go]

    One reconciliation reads the cluster, binds the routes, builds and applies
    the data-plane table and writes the statuses.  The API server is an oracle
    for the outcome of each call; the calls made are recorded in order.  A loop
    over a Go map takes an enumeration of the map as a list. *)
From S2P Require Import Prelude GoStd Api Snapshot Claim Fixture Bind Backends Conditions Status.
From S2P Require Import Net Upstreams Admission ServerConfig Translate.
Open Scope Z_scope.

(** ** The routing table *)

(** One iteration of the search for the primary GatewayConfig. *)
Definition primaryStep (claims : gmap string ClassClaim)
    (acc : option GatewayConfigSpec * NamespacedName) (p : NamespacedName * Gateway)
    : option GatewayConfigSpec * NamespacedName :=
  let '(primaryConfig, primaryGateway) := acc in
  let '(gwKey, gw) := p in
  match claims !! gw_GatewayClassName gw with
  | None => acc
  | Some claim =>
      if negb (cl_Claimed claim) || negb (cl_Accepted claim) then acc
      else if match primaryConfig with None => true | Some _ => false end
              || String.ltb (nnString gwKey) (nnString primaryGateway) then
        (cfg_Spec <$> cl_Config claim, gwKey)
      else acc
  end.

Definition primaryOf (claims : gmap string ClassClaim) (gwOrd : list (NamespacedName * Gateway))
    : option GatewayConfigSpec * NamespacedName :=
  foldl (primaryStep claims) (None, mkNN "" "") gwOrd.

Definition gatewayKeyLe (a b : NamespacedName) : Prop := String.le (nnString a) (nnString b).
#[export] Instance gatewayKeyLe_dec : RelDecision gatewayKeyLe.
Proof. intros a b. unfold gatewayKeyLe. apply _. Defined.

(** The deduplicated gateways a route is accepted at, sorted. *)
Definition boundGatewaysFor (perParent : list ParentResult) : list NamespacedName :=
  merge_sort gatewayKeyLe (acceptedAt ∅ perParent).

(** The configuration of the first bound gateway whose class has one. *)
Fixpoint routeConfig (snap : Snapshot) (claims : gmap string ClassClaim)
    (bound : list NamespacedName) : option GatewayConfigSpec :=
  match bound with
  | [] => None
  | gwKey :: rest =>
      match Gateways snap !! gwKey with
      | None => routeConfig snap claims rest
      | Some gw =>
          match claims !! gw_GatewayClassName gw with
          | Some claim =>
              match cl_Config claim with
              | Some c => Some (cfg_Spec c)
              | None => routeConfig snap claims rest
              end
          | None => routeConfig snap claims rest
          end
      end
  end.

Definition toRouteBackend (b : ResolvedBackend) : RouteBackend :=
  mkRouteBackend (nn_Name (rb_Service b)) (nn_Namespace (rb_Service b)) (rb_Port b).

(** The input for one route; [None] when it is bound nowhere. *)
Definition routeInput (snap : Snapshot) (claims : gmap string ClassClaim)
    (results : gmap NamespacedName (list ParentResult)) (p : NamespacedName * RsyncRoute)
    : option RouteInput :=
  let '(routeKey, route) := p in
  match boundGatewaysFor (default [] (results !! routeKey)) with
  | [] => None
  | bound =>
      Some (mkRouteInput routeKey (EffectiveModules route)
              (map toRouteBackend (ResolveBackends snap routeKey route).1)
              (routeConfig snap claims bound))
  end.

Definition buildInputs (snap : Snapshot) (claims : gmap string ClassClaim)
    (results : gmap NamespacedName (list ParentResult))
    (routeOrd : list (NamespacedName * RsyncRoute)) : list RouteInput :=
  omap (routeInput snap claims results) routeOrd.

Definition buildTable (snap : Snapshot) (claims : gmap string ClassClaim)
    (results : gmap NamespacedName (list ParentResult))
    (gwOrd : list (NamespacedName * Gateway)) (routeOrd : list (NamespacedName * RsyncRoute))
    : outcome (result Config) :=
  BuildServerConfig (primaryOf claims gwOrd).1 (buildInputs snap claims results routeOrd).

(** ** Calls to the API server *)

Inductive Effect :=
  | UpdateClass (name : string) (conds : list Condition)
  | UpdateGateway (key : NamespacedName) (st : GatewayStatus)
  | UpdateRoute (key : NamespacedName) (parents : list RouteParentStatus)
  | UpdateConfig (name : string) (conds : list Condition)
  | Event (key : NamespacedName) (reason msg : string).

(** Errors of the API server; [apierrors.IsNotFound] recognises the first. *)
Inductive APIError := NotFound (msg : error) | OtherError (msg : error).
Definition apiMessage (e : APIError) : error :=
  match e with NotFound m => m | OtherError m => m end.

(** What the writer of statuses threads through: the clock, the calls made, and
    the GatewayConfig objects, which several classes may share. *)
Record WState := mkWState {
  ws_clock : Clock;
  ws_log : list Effect;
  ws_configs : gmap string GatewayConfig }.

Definition Wr (A : Type) := WState → result A * WState.
#[export] Instance Wr_ret : MRet Wr := fun A x st => (Ret x, st).
#[export] Instance Wr_bind : MBind Wr := fun A B f m st =>
  match m st with
  | (Ret x, st') => f x st'
  | (Err e, st') => (Err e, st')
  end.

Definition wrErr {A} (e : error) : Wr A := fun st => (Err e, st).
Definition wrLog (e : Effect) : Wr unit := fun st =>
  (Ret tt, mkWState (ws_clock st) (ws_log st ++ [e]) (ws_configs st)).
Definition wrClock {A} (m : Clocked A) : Wr A := fun st =>
  let '(x, clk) := m (ws_clock st) in (Ret x, mkWState clk (ws_log st) (ws_configs st)).
Definition wrConfigs : Wr (gmap string GatewayConfig) := fun st => (Ret (ws_configs st), st).
Definition wrSetConfig (name : string) (c : GatewayConfig) : Wr unit := fun st =>
  (Ret tt, mkWState (ws_clock st) (ws_log st) (<[name := c]> (ws_configs st))).

Fixpoint wrEach {A} (f : A → Wr unit) (l : list A) : Wr unit :=
  match l with
  | [] => mret tt
  | x :: rest => _ ← f x; wrEach f rest
  end.

Section writer.
(** The outcome of a [Status().Update]. *)
Context (apiUpdate : Effect → option APIError).

Definition update (e : Effect) : Wr (option APIError) :=
  _ ← wrLog e; mret (apiUpdate e).

(** [return fmt.Errorf("update ... status: %w", err)] *)
Definition failWith (what : string) (err : option APIError) : Wr unit :=
  match err with
  | None => mret tt
  | Some e => wrErr ("update " +:+ what +:+ " status: " +:+ apiMessage e)
  end.

Definition writeClass (claims : gmap string ClassClaim) (p : string * GatewayClass) : Wr unit :=
  let '(name, gc) := p in
  match ClassCondition gc (default zeroClaim (claims !! name)) with
  | None => mret tt
  | Some cond =>
      stable ← wrClock (StableCondition (gc_StatusConditions gc) cond);
      if ConditionsEqual (gc_StatusConditions gc) [stable] then mret tt
      else
        err ← update (UpdateClass name (MergeConditions (gc_StatusConditions gc) [stable]));
        failWith ("GatewayClass " +:+ name) err
  end.

Definition writeGateway (claims : gmap string ClassClaim) (servedPorts : list Z)
    (p : NamespacedName * Gateway) : Wr unit :=
  let '(gwKey, gw) := p in
  match claims !! gw_GatewayClassName gw with
  | None => mret tt
  | Some claim =>
      if negb (cl_Claimed claim) || negb (cl_Accepted claim) then mret tt
      else
        desired ← wrClock (BuildGatewayStatus gw servedPorts);
        if ConditionsEqual (gw_StatusConditions gw) (gs_Conditions desired)
           && ListenerStatusesEqual (gw_StatusListeners gw) (gs_Listeners desired) then mret tt
        else
          err ← update (UpdateGateway gwKey desired);
          failWith ("Gateway " +:+ nnString gwKey) err
  end.

Definition routeAccepted (perParent : list ParentResult) : bool := existsb res_Accepted perParent.

(** The events for the refused parents, [i] counting the results; [recorder]
    says whether there is one. *)
Fixpoint emitRouteEvents (recorder : bool) (routeKey : NamespacedName)
    (previous : gmap nat Condition) (i : nat) (perParent : list ParentResult) : Wr unit :=
  if negb recorder then mret tt
  else
    match perParent with
    | [] => mret tt
    | res :: rest =>
        let emit :=
          if res_Accepted res then false
          else match previous !! i with
               | Some prev =>
                   negb (bool_decide (c_Status prev = ConditionFalse)
                         && bool_decide (c_Reason prev = res_Reason res)
                         && bool_decide (c_Message prev = res_Message res))
               | None => true
               end in
        _ ← (if emit then
               wrLog (Event routeKey (res_Reason res)
                 ("parent " +:+ quote (ParentRefString (res_ParentRef res)) +:+ ": "
                    +:+ res_Message res))
             else mret tt);
        emitRouteEvents recorder routeKey previous (S i) rest
    end.

Definition routeBackends (snap : Snapshot) (routeKey : NamespacedName) (route : RsyncRoute)
    (perParent : list ParentResult) : BackendStatus :=
  if routeAccepted perParent then (ResolveBackends snap routeKey route).2
  else mkBackendStatus true RouteReasonResolvedRefs "".

Definition writeRoute (recorder : bool) (snap : Snapshot)
    (results : gmap NamespacedName (list ParentResult)) (p : NamespacedName * RsyncRoute)
    : Wr unit :=
  let '(routeKey, route) := p in
  match results !! routeKey with
  | None => mret tt
  | Some perParent =>
      desired ← wrClock (BuildRouteStatus route perParent
                           (routeBackends snap routeKey route perParent));
      if ParentStatusesEqual (r_StatusParents route) desired then mret tt
      else
        let old := FindParentConditions (r_StatusParents route) perParent in
        err ← update (UpdateRoute routeKey desired);
        _ ← match err with
            | Some (NotFound _) => mret tt
            | _ => failWith ("RsyncRoute " +:+ nnString routeKey) err
            end;
        emitRouteEvents recorder routeKey old 0 perParent
  end.

Definition withConditions (c : GatewayConfig) (conds : list Condition) : GatewayConfig :=
  mkGatewayConfig (cfg_Meta c) (cfg_Spec c) conds.

Definition configCondition (applyErr : option error) (config : GatewayConfig) : Condition :=
  let gen := om_Generation (cfg_Meta config) in
  match applyErr with
  | Some e =>
      mkCond ConditionAccepted ConditionFalse GatewayReasonInvalid
        ("failed to apply data-plane configuration: " +:+ e) gen
  | None =>
      mkCond ConditionAccepted ConditionTrue GatewayReasonAccepted
        "configuration applied to the data plane" gen
  end.

Definition writeConfig (applyErr : option error) (claim : ClassClaim) : Wr unit :=
  if negb (cl_Claimed claim) then mret tt
  else
    match cl_Config claim with
    | None => mret tt
    | Some cc =>
        let name := om_Name (cfg_Meta cc) in
        configs ← wrConfigs;
        match configs !! name with
        | None => mret tt
        | Some config =>
            cond ← wrClock (StableCondition (cfg_StatusConditions config)
                              (configCondition applyErr config));
            if ConditionsEqual (cfg_StatusConditions config) [cond] then mret tt
            else
              let conds := MergeConditions (cfg_StatusConditions config) [cond] in
              _ ← wrSetConfig name (withConditions config conds);
              err ← update (UpdateConfig name conds);
              failWith ("GatewayConfig " +:+ name) err
        end
    end.

(** The orders in which the four loops range over their maps. *)
Record Orders := mkOrders {
  ord_classes : list (string * GatewayClass);
  ord_gateways : list (NamespacedName * Gateway);
  ord_routes : list (NamespacedName * RsyncRoute);
  ord_claims : list (string * ClassClaim) }.

Definition writeStatuses (bindAddrs : list string) (recorder : bool) (snap : Snapshot)
    (claims : gmap string ClassClaim) (results : gmap NamespacedName (list ParentResult))
    (applyErr : option error) (ord : Orders) : Wr unit :=
  let servedPorts := ServedPorts bindAddrs in
  _ ← wrEach (writeClass claims) (ord_classes ord);
  _ ← wrEach (writeGateway claims servedPorts) (ord_gateways ord);
  _ ← wrEach (writeRoute recorder snap results) (ord_routes ord);
  wrEach (writeConfig applyErr) (map snd (ord_claims ord)).
End writer.

(** ** Reconciling *)

(** What listing each kind returns. *)
Record Cluster := mkCluster {
  k_classes : result (list GatewayClass);
  k_configs : result (list GatewayConfig);
  k_gateways : result (list Gateway);
  k_routes : result (list RsyncRoute);
  k_services : result (list Service);
  k_grants : result (list ReferenceGrant) }.

Definition listKind {A} (type : string) (r : result (list A)) : result (list (option A)) :=
  match r with
  | Ret l => Ret (map Some l)
  | Err e => Err ("list " +:+ type +:+ ": " +:+ e)
  end.

Definition readSnapshot (k : Cluster) : result Snapshot :=
  classes ← listKind "*v1.GatewayClass" (k_classes k);
  configs ← listKind "*v1alpha1.GatewayConfig" (k_configs k);
  gateways ← listKind "*v1.Gateway" (k_gateways k);
  routes ← listKind "*v1alpha1.RsyncRoute" (k_routes k);
  services ← listKind "*v1.Service" (k_services k);
  grants ← listKind "*v1.ReferenceGrant" (k_grants k);
  mret (NewSnapshot classes configs gateways routes services grants).

Section reconcile.
Context (selectorMatches : LabelSelector → gmap string string → result bool).
Context (apiUpdate : Effect → option APIError).
(** The [Applier]: the error of applying a table, if any. *)
Context (apply : Config → option error).

(** The orders of all the loops of one reconciliation, which may depend on the
    maps they range over. *)
Record Ranging := mkRanging {
  rng_bind : Snapshot → list (NamespacedName * list NamespacedName);
  rng_gateways : Snapshot → list (NamespacedName * Gateway);
  rng_routes : Snapshot → list (NamespacedName * RsyncRoute);
  rng_status : Snapshot → Orders }.

(** The error [Reconcile] returns, the table it applied and the calls it made. *)
Record Reconciled := mkReconciled {
  rec_err : option error; rec_table : option Config; rec_log : list Effect }.

Definition errOf {A} (r : result A) : option error :=
  match r with Ret _ => None | Err e => Some e end.

Definition Reconcile (bindAddrs : list string) (recorder : bool) (rng : Ranging) (clk : Clock)
    (k : Cluster) : outcome Reconciled :=
  match readSnapshot k with
  | Err e => Done (mkReconciled (Some ("read cluster state: " +:+ e)) None [])
  | Ret snap =>
      let claims := ClaimClasses snap in
      let results := BindRoutesIn selectorMatches snap claims (rng_bind rng snap) in
      let write applyErr :=
        writeStatuses apiUpdate bindAddrs recorder snap claims results applyErr
          (rng_status rng snap) (mkWState clk [] (GatewayConfigs snap)) in
      r ← buildTable snap claims results (rng_gateways rng snap) (rng_routes rng snap);
      match r with
      | Err e =>
          let '(res, st) := write (Some e) in
          mret (mkReconciled (errOf res) None (ws_log st))
      | Ret table =>
          let applyErr := apply table in
          let '(res, st) := write applyErr in
          match applyErr with
          | Some e => mret (mkReconciled (Some e) (Some table) (ws_log st))
          | None => mret (mkReconciled (errOf res) (Some table) (ws_log st))
          end
      end
  end.
End reconcile.

(** ** The table is always built *)

Lemma elem_of_boundGatewaysFor g pp : g ∈ boundGatewaysFor pp ↔ boundTo g pp.
Proof. unfold boundGatewaysFor. by rewrite merge_sort_Permutation. Qed.

Section table.
Context (selectorMatches : LabelSelector → gmap string string → result bool).
Context (snap : Snapshot) (bindOrd : list (NamespacedName * list NamespacedName)).
Context (Hbind : rangeOrders selectorMatches snap (ClaimClasses snap) bindOrd).

Abbreviation claims := (ClaimClasses snap).
Abbreviation results := (BindRoutesIn selectorMatches snap claims bindOrd).

Lemma bound_managed g rk :
  g ∈ boundGatewaysFor (default [] (results !! rk)) →
  acceptedOn results g rk ∧
  ∃ route gw claim c, RsyncRoutes snap !! rk = Some route ∧ Gateways snap !! g = Some gw ∧
    claims !! gw_GatewayClassName gw = Some claim ∧ cl_Config claim = Some c ∧
    validSpec (cfg_Spec c).
Proof.
  rewrite elem_of_boundGatewaysFor. intros Hb.
  destruct (results !! rk) as [pp|] eqn:E; simpl in Hb; [|by apply not_elem_of_nil in Hb].
  assert (acceptedOn results g rk) as Ha by by exists pp. split; [done|].
  destruct (accepted_managed selectorMatches snap claims g rk)
    as (route & gw & claim & Hr & Hg & Hc & H1 & H2); [by eapply after_before|].
  destruct (claim_accepted_config _ _ _ Hc H2) as (_ & c & Hcfg & Hv).
  by exists route, gw, claim, c.
Qed.

Lemma routeConfig_valid rk :
  boundGatewaysFor (default [] (results !! rk)) ≠ [] →
  ∃ spec, routeConfig snap claims (boundGatewaysFor (default [] (results !! rk))) = Some spec ∧
    validSpec spec.
Proof.
  pose proof (fun g => bound_managed g rk) as Hall.
  destruct (boundGatewaysFor _) as [|g bound]; [done|]. intros _.
  destruct (Hall g) as (_ & route & gw & claim & c & _ & Hg & Hc & Hcfg & Hv); [by left|].
  exists (cfg_Spec c). simpl. by rewrite Hg, Hc, Hcfg.
Qed.

(** The inputs come from bound routes, with valid settings. *)
Lemma buildInputs_elem routeOrd ri :
  ri ∈ buildInputs snap claims results routeOrd →
  ∃ rk route spec g, (rk, route) ∈ routeOrd ∧ acceptedOn results g rk ∧
    ri = mkRouteInput rk (EffectiveModules route)
           (map toRouteBackend (ResolveBackends snap rk route).1) (Some spec) ∧ validSpec spec.
Proof.
  unfold buildInputs. rewrite list_elem_of_omap. intros ([rk route] & Hin & Hri).
  unfold routeInput in Hri. pose proof (routeConfig_valid rk) as Hcfg.
  pose proof (fun g => bound_managed g rk) as Hm.
  destruct (boundGatewaysFor _) as [|g bound]; [done|].
  destruct Hcfg as (spec & Hs & Hv); [done|]. rewrite Hs in Hri. simplify_eq.
  exists rk, route, spec, g. split_and!; try done. apply Hm. by left.
Qed.

Lemma primaryOf_valid gwOrd :
  match (primaryOf claims gwOrd).1 with Some spec => validSpec spec | None => True end.
Proof.
  unfold primaryOf.
  assert (match (@None GatewayConfigSpec, mkNN "" "").1 with
          | Some spec => validSpec spec | None => True end) as H0 by done.
  revert H0. generalize (@None GatewayConfigSpec, mkNN "" "").
  induction gwOrd as [|[k gw] gwOrd IH]; intros [pc pg] Hacc; simpl; [done|]. apply IH.
  destruct (claims !! gw_GatewayClassName gw) as [claim|] eqn:Ec; [|done].
  destruct (_ || _) eqn:E1; [done|]. destruct (_ || String.ltb _ _); [|done].
  destruct (cl_Config claim) as [c|] eqn:Ecfg; simpl; [|done].
  by eapply claim_config_valid.
Qed.

Lemma buildTable_run gwOrd routeOrd :
  ∃ p, ProxySettingsOf (primaryOf claims gwOrd).1 = Ret p ∧
  buildTable snap claims results gwOrd routeOrd =
    Done (Ret (mkConfig p (insertAll ∅ (tableEntries (primaryOf claims gwOrd).1
                                          (buildInputs snap claims results routeOrd))))).
Proof.
  unfold buildTable, BuildServerConfig. pose proof (primaryOf_valid gwOrd) as Hp.
  assert (∃ p, ProxySettingsOf (primaryOf claims gwOrd).1 = Ret p) as [p ->].
  { destruct (primaryOf claims gwOrd).1 as [spec|]; [|by eexists].
    rewrite (ProxySettingsOf_valid _ Hp). by eexists. }
  exists p. split; [done|]. rewrite addRoutes_run; [done|].
  apply Forall_forall. intros ri (rk & route & spec & g & _ & _ & -> & Hv)%buildInputs_elem.
  by exists spec.
Qed.

Lemma buildTable_sound gwOrd routeOrd :
  routeOrd ≡ₚ map_to_list (RsyncRoutes snap) →
  ∃ c, buildTable snap claims results gwOrd routeOrd = Done (Ret c) ∧
    ∀ n u, cf_Upstreams c !! n = Some u →
      ∃ g rk route ref b, acceptedOn results g rk ∧ RsyncRoutes snap !! rk = Some route ∧
        u_Modules u = EffectiveModules route ∧ u_DiscoverModules u = false ∧
        u_Address u = backendAddr (toRouteBackend b) ∧
        ref ∈ BackendRefs (r_Spec route) ∧ br_Weight ref ≠ Some 0 ∧
        refersToBackend snap rk ref b.
Proof.
  intros Hord. destruct (buildTable_run gwOrd routeOrd) as (p & _ & ->).
  eexists. split; [done|]. intros n u Hu. simpl in Hu.
  apply insertAll_sound in Hu as [Hin|Hin]; [|by rewrite lookup_empty in Hin].
  apply elem_of_tableEntries in Hin as (ri & spec & i & rb & Hri & Hs & Hb & -> & ->).
  apply buildInputs_elem in Hri as (rk & route & spec' & g & Hin & Ha & -> & _). simpl in *.
  apply list_elem_of_lookup_2, list_elem_of_fmap in Hb as (b & -> & Hb).
  apply usable_iff in Hb as (ref & Href & Hw & Hr).
  rewrite Hord, elem_of_map_to_list in Hin. by exists g, rk, route, ref, b.
Qed.

(** An accepted route with a configuration is among the inputs. *)
Lemma buildInputs_accepted routeOrd g rk route :
  acceptedOn results g rk → (rk, route) ∈ routeOrd →
  ∃ spec, validSpec spec ∧
    mkRouteInput rk (EffectiveModules route) (map toRouteBackend (ResolveBackends snap rk route).1)
      (Some spec) ∈ buildInputs snap claims results routeOrd.
Proof.
  intros (pp & E & Hb) Hin.
  assert (g ∈ boundGatewaysFor (default [] (results !! rk))) as Hg
    by (rewrite E; by apply elem_of_boundGatewaysFor).
  pose proof (routeConfig_valid rk) as Hcfg.
  destruct Hcfg as (spec & Hs & Hv); [intros Hn; rewrite Hn in Hg; elem_nil|].
  exists spec. split; [done|]. unfold buildInputs. apply list_elem_of_omap. exists (rk, route).
  split; [done|]. unfold routeInput. destruct (boundGatewaysFor _) as [|g' bound]; [elem_nil|].
  by rewrite Hs.
Qed.

(** No backend is missing from the table, if no two share an upstream name. *)
Lemma buildTable_complete gwOrd routeOrd c g rk route i b :
  routeOrd ≡ₚ map_to_list (RsyncRoutes snap) →
  buildTable snap claims results gwOrd routeOrd = Done (Ret c) →
  NoDup (map fst (tableEntries (primaryOf claims gwOrd).1 (buildInputs snap claims results routeOrd))) →
  acceptedOn results g rk → RsyncRoutes snap !! rk = Some route →
  (ResolveBackends snap rk route).1 !! i = Some b →
  ∃ u, cf_Upstreams c !! UpstreamName rk (Z.of_nat i) = Some u ∧
    u_Modules u = EffectiveModules route ∧ u_DiscoverModules u = false ∧
    u_Address u = backendAddr (toRouteBackend b).
Proof.
  intros Hord E Hnd Ha Hr Hb. destruct (buildTable_run gwOrd routeOrd) as (p & _ & E2).
  rewrite E in E2. injection E2 as ->. simpl.
  destruct (buildInputs_accepted routeOrd g rk route Ha) as (spec & _ & Hin).
  { by rewrite Hord, elem_of_map_to_list. }
  eexists. split.
  - apply insertAll_complete; [done|]. apply elem_of_tableEntries.
    eexists _, spec, i, (toRouteBackend b). split_and!; [exact Hin|done| |done|reflexivity].
    simpl. by rewrite list_lookup_fmap, Hb.
  - done.
Qed.

(** Building the data-plane table from the cluster never panics and never
    fails, and nothing is served that the API does not allow: every upstream of
    the table serves the modules of a route that is accepted on some Gateway, at
    the address of a Service that one of the route's backendRefs refers to, which
    exists, and which the route may refer to. *)
Theorem buildTable_serves_only_accepted gwOrd routeOrd :
  routeOrd ≡ₚ map_to_list (RsyncRoutes snap) →
  ∃ c, buildTable snap claims results gwOrd routeOrd = Done (Ret c) ∧
    ∀ n u, cf_Upstreams c !! n = Some u →
      ∃ g rk route ref b, acceptedOn results g rk ∧ RsyncRoutes snap !! rk = Some route ∧
        u_Modules u = EffectiveModules route ∧ u_DiscoverModules u = false ∧
        u_Address u = backendAddr (toRouteBackend b) ∧
        ref ∈ BackendRefs (r_Spec route) ∧ br_Weight ref ≠ Some 0 ∧
        refersToBackend snap rk ref b.
Proof. apply buildTable_sound. Qed.
End table.

Lemma buildTable_serves_only_accepted_witness :
  ∃ c, buildTable Fixture.snap (ClaimClasses Fixture.snap)
         (BindRoutesIn Fixture.noSelector Fixture.snap (ClaimClasses Fixture.snap) fixtureOrder)
         (map_to_list (Gateways Fixture.snap)) (map_to_list (RsyncRoutes Fixture.snap)) =
       Done (Ret c).
Proof.
  destruct (buildTable_serves_only_accepted Fixture.noSelector Fixture.snap fixtureOrder
    fixtureOrder_ok (map_to_list (Gateways Fixture.snap)) (map_to_list (RsyncRoutes Fixture.snap)))
    as (c & H & _); [reflexivity|].
  exists c. exact H.
Defined.
