(* ===== verification/Determinism.v ===== *)
(** * The table does not depend on the order of Go's maps

    [buildTable] ranges over the gateways of the snapshot for the primary configuration and
    over its routes for the upstreams, after [BindRoutes] has ranged over its own maps.
    The primary configuration is the one of the smallest managed Gateway; the table is one
    and the same for all orders, unless two backends share an upstream name. *)
From S2P Require Import Prelude GoStd Api Snapshot Claim Fixture Bind Backends Conditions Status.
From S2P Require Import Net Upstreams Admission ServerConfig Translate Controller.
Open Scope Z_scope.

(** ** The primary configuration *)

Section primary.
Context (snap : Snapshot).
Abbreviation claims := (ClaimClasses snap).

(** A Gateway of an accepted class, with the configuration of the class. *)
Definition managedBy (gw : Gateway) (spec : GatewayConfigSpec) : Prop :=
  ∃ claim c, claims !! gw_GatewayClassName gw = Some claim ∧ cl_Claimed claim = true ∧
    cl_Accepted claim = true ∧ cl_Config claim = Some c ∧ cfg_Spec c = spec.

Lemma managedBy_dec gw : (∃ spec, managedBy gw spec) ∨ ∀ acc k, primaryStep claims acc (k, gw) = acc.
Proof.
  unfold primaryStep. destruct (claims !! gw_GatewayClassName gw) as [claim|] eqn:E; [|right; by intros []].
  destruct (cl_Claimed claim) eqn:E1, (cl_Accepted claim) eqn:E2; try (right; by intros []).
  left. destruct (claim_accepted_config _ _ _ E E2) as (_ & c & Hc & _). by exists (cfg_Spec c), claim, c.
Qed.

Lemma primaryStep_managed gw spec k pc pg :
  managedBy gw spec →
  primaryStep claims (pc, pg) (k, gw) =
    match pc with
    | None => (Some spec, k)
    | Some _ => if String.ltb (nnString k) (nnString pg) then (Some spec, k) else (pc, pg)
    end.
Proof.
  intros (claim & c & E & H1 & H2 & Hc & <-). unfold primaryStep. rewrite E, H1, H2, Hc. by destruct pc.
Qed.

(** The smallest managed Gateway among those visited. *)
Definition smallest (l : list (NamespacedName * Gateway)) (k : NamespacedName) (gw : Gateway) : Prop :=
  (k, gw) ∈ l ∧ (∃ spec, managedBy gw spec) ∧
  ∀ k' gw' spec, (k', gw') ∈ l → managedBy gw' spec → String.le (nnString k) (nnString k').

(** What the search holds after the gateways [l]. *)
Definition primaryFor (l : list (NamespacedName * Gateway))
    (acc : option GatewayConfigSpec * NamespacedName) : Prop :=
  match acc.1 with
  | None => ∀ k gw spec, (k, gw) ∈ l → ¬ managedBy gw spec
  | Some spec => ∃ gw, smallest l acc.2 gw ∧ managedBy gw spec
  end.

Lemma ltb_false_le a b : String.ltb a b = false → String.le b a.
Proof. rewrite string_ltb_leb. unfold String.le. intros H%negb_false_iff. by rewrite H. Qed.

Lemma ltb_true_le a b : String.ltb a b = true → String.le a b.
Proof.
  rewrite string_ltb_leb. intros H%negb_true_iff.
  destruct (total String.le a b) as [|Hba]; [done|]. unfold String.le in Hba. by rewrite H in Hba.
Qed.

Lemma primaryFor_step l acc k gw :
  primaryFor l acc → primaryFor (l ++ [(k, gw)]) (primaryStep claims acc (k, gw)).
Proof.
  destruct acc as [pc pg]. intros Hacc.
  assert (∀ k' gw' spec', (k', gw') ∈ l ++ [(k, gw)] → managedBy gw' spec' →
    ((k', gw') ∈ l) ∨ k' = k ∧ managedBy gw spec') as Hin.
  { intros k' gw' spec' [?|H%list_elem_of_singleton]%elem_of_app Hm; [by left|]. simplify_eq. by right. }
  destruct (managedBy_dec gw) as [[spec Hm]|Hno].
  2:{ rewrite Hno. assert (∀ spec, ¬ managedBy gw spec) as Hnm.
      { intros spec Hs. pose proof (Hno (None, k) k) as E. by rewrite (primaryStep_managed _ _ _ _ _ Hs) in E. }
      unfold primaryFor, smallest in *. simpl in *. destruct pc as [spec|].
      - destruct Hacc as (gw0 & (Hk & Hs & Hle) & Hm). exists gw0. split; [|done].
        split; [by apply elem_of_app; left|]. split; [done|]. intros k' gw' spec' Hk' Hm'.
        destruct (Hin _ _ _ Hk' Hm') as [?|[_ Hbad]]; [eauto|by destruct (Hnm spec')].
      - intros k' gw' spec' Hk' Hm'. destruct (Hin _ _ _ Hk' Hm') as [?|[_ Hbad]]; [by eapply Hacc|].
        by destruct (Hnm spec'). }
  rewrite (primaryStep_managed _ _ _ _ _ Hm). unfold primaryFor, smallest in *. simpl in *.
  assert ((k, gw) ∈ l ++ [(k, gw)]) as Hlast by (apply elem_of_app; right; by left).
  destruct pc as [spec0|].
  - destruct Hacc as (gw0 & (Hk & Hs & Hle) & Hm0).
    destruct (String.ltb (nnString k) (nnString pg)) eqn:E; simpl.
    + apply ltb_true_le in E. exists gw. split; [|done]. split; [done|]. split; [eauto|].
      intros k' gw' spec' Hk' Hm'. destruct (Hin _ _ _ Hk' Hm') as [?|[-> _]]; [|done].
      etransitivity; eauto.
    + apply ltb_false_le in E. exists gw0. split; [|done]. split; [by apply elem_of_app; left|].
      split; [done|]. intros k' gw' spec' Hk' Hm'.
      destruct (Hin _ _ _ Hk' Hm') as [?|[-> _]]; [eauto|done].
  - exists gw. split; [|done]. split; [done|]. split; [eauto|]. intros k' gw' spec' Hk' Hm'.
    destruct (Hin _ _ _ Hk' Hm') as [?|[-> _]]; [by destruct (Hacc k' gw' spec')|done].
Qed.

Lemma primaryOf_smallest gwOrd : primaryFor gwOrd (primaryOf claims gwOrd).
Proof.
  unfold primaryOf. induction gwOrd as [|[k gw] gwOrd IH] using rev_ind.
  - intros k gw spec Hin. elem_nil.
  - rewrite foldl_app. simpl. by apply primaryFor_step.
Qed.

Lemma primaryFor_perm l l' acc : l ≡ₚ l' → primaryFor l acc → primaryFor l' acc.
Proof.
  intros Hp. unfold primaryFor, smallest. destruct acc.1; [|by intros H k gw spec; rewrite <- Hp; apply H].
  intros (gw & (Hk & Hs & Hle) & Hm). exists gw. rewrite <- Hp. split_and!; try done.
  intros k' gw' spec'. rewrite <- Hp. apply Hle.
Qed.

(** The configuration found is the same in every order. *)
Lemma primaryOf_order gwOrd gwOrd' :
  gwOrd ≡ₚ map_to_list (Gateways snap) → gwOrd' ≡ₚ map_to_list (Gateways snap) →
  (∀ k gw, Gateways snap !! k = Some gw → slashFree (nn_Namespace k)) →
  (primaryOf claims gwOrd).1 = (primaryOf claims gwOrd').1.
Proof.
  intros Hp Hp' Hs. pose proof (primaryFor_perm _ _ _ Hp (primaryOf_smallest gwOrd)) as H1.
  pose proof (primaryFor_perm _ _ _ Hp' (primaryOf_smallest gwOrd')) as H2.
  unfold primaryFor, smallest in *. destruct (primaryOf claims gwOrd) as [pc pg], (primaryOf claims gwOrd') as [pc' pg'].
  simpl in *.
  destruct pc as [spec|], pc' as [spec'|]; [|exfalso|exfalso|done].
  - destruct H1 as (gw & (Hk & _ & Hle) & Hm), H2 as (gw' & (Hk' & _ & Hle') & Hm').
    assert (pg = pg') as ->.
    { apply nnString_inj; [apply elem_of_map_to_list in Hk; eauto|apply elem_of_map_to_list in Hk'; eauto|].
      apply (anti_symm String.le); eauto. }
    apply elem_of_map_to_list in Hk, Hk'. simplify_eq.
    destruct Hm as (? & ? & ? & _ & _ & ? & <-), Hm' as (? & ? & ? & _ & _ & ? & <-). by simplify_eq.
  - destruct H1 as (gw & (Hk & _ & _) & Hm). by eapply H2.
  - destruct H2 as (gw & (Hk & _ & _) & Hm). by eapply H1.
Qed.
End primary.

(** ** The upstreams *)

(** Entries with distinct names may be inserted in any order. *)
Lemma insertAll_perm l l' :
  NoDup (map fst l) → l ≡ₚ l' → insertAll ∅ l = insertAll ∅ l'.
Proof.
  intros Hnd Hp. assert (NoDup (map fst l')) as Hnd' by by rewrite <- Hp.
  apply map_eq. intros n. destruct (insertAll ∅ l !! n) as [u|] eqn:E, (insertAll ∅ l' !! n) as [u'|] eqn:E'; try done.
  - apply insertAll_sound in E as [Hin|Hin]; [|done]. rewrite Hp in Hin.
    by rewrite (insertAll_complete _ _ _ _ Hnd' Hin) in E'.
  - apply insertAll_sound in E as [Hin|Hin]; [|done]. rewrite Hp in Hin.
    by rewrite (insertAll_complete _ _ _ _ Hnd' Hin) in E'.
  - apply insertAll_sound in E' as [Hin|Hin]; [|done]. rewrite <- Hp in Hin.
    by rewrite (insertAll_complete _ _ _ _ Hnd Hin) in E.
Qed.

Lemma tableEntries_perm primary routes routes' :
  routes ≡ₚ routes' → tableEntries primary routes ≡ₚ tableEntries primary routes'.
Proof.
  unfold tableEntries. induction 1 as [|r l l' _ IH|r1 r2 l|l1 l2 l3 _ IH1 _ IH2]; simpl.
  - done.
  - by rewrite IH.
  - by rewrite !app_assoc, (Permutation_app_comm (routeEntries primary r1)).
  - by rewrite IH1.
Qed.

Lemma buildInputs_perm snap claims results routeOrd routeOrd' :
  routeOrd ≡ₚ routeOrd' →
  buildInputs snap claims results routeOrd ≡ₚ buildInputs snap claims results routeOrd'.
Proof. intros Hp. unfold buildInputs. by rewrite Hp. Qed.

(** ** The table *)

Section table.
Context (selectorMatches : LabelSelector → gmap string string → result bool) (snap : Snapshot).

Abbreviation tableOf bindOrd gwOrd routeOrd :=
  (buildTable snap (ClaimClasses snap) (BindRoutesIn selectorMatches snap (ClaimClasses snap) bindOrd)
     gwOrd routeOrd).

(** One way a reconciliation may range over the maps of a snapshot. *)
Record ranges (bindOrd : list (NamespacedName * list NamespacedName))
    (gwOrd : list (NamespacedName * Gateway)) (routeOrd : list (NamespacedName * RsyncRoute)) : Prop := {
  rg_bind : rangeOrders selectorMatches snap (ClaimClasses snap) bindOrd;
  rg_gateways : gwOrd ≡ₚ map_to_list (Gateways snap);
  rg_routes : routeOrd ≡ₚ map_to_list (RsyncRoutes snap) }.

(** Namespaces have no slash, as Kubernetes requires. *)
Definition plainNamespaces : Prop :=
  (∀ k gw, Gateways snap !! k = Some gw → slashFree (nn_Namespace k)) ∧
  (∀ k r, RsyncRoutes snap !! k = Some r → slashFree (nn_Namespace k)).

(** C13: The routing table is a function of the cluster: in whatever orders Go ranges over
    results, gateways and routes, the table is the same, if no two backends share an
    upstream name, and its proxy-wide settings are those of the managed Gateway whose
    namespace/name is the smallest, or the defaults when there is none. *)
Theorem table_deterministic bindOrd gwOrd routeOrd bindOrd' gwOrd' routeOrd' :
  ranges bindOrd gwOrd routeOrd → ranges bindOrd' gwOrd' routeOrd' → plainNamespaces →
  NoDup (map fst (tableEntries (primaryOf (ClaimClasses snap) gwOrd).1
    (buildInputs snap (ClaimClasses snap)
       (BindRoutesIn selectorMatches snap (ClaimClasses snap) bindOrd) routeOrd))) →
  ∃ c, tableOf bindOrd gwOrd routeOrd = Done (Ret c) ∧ tableOf bindOrd' gwOrd' routeOrd' = Done (Ret c) ∧
    (ProxySettingsOf None = Ret (cf_Proxy c) ∧
       (∀ k gw spec, Gateways snap !! k = Some gw → ¬ managedBy snap gw spec) ∨
     ∃ k gw spec, Gateways snap !! k = Some gw ∧ managedBy snap gw spec ∧
       ProxySettingsOf (Some spec) = Ret (cf_Proxy c) ∧
       ∀ k' gw' spec', Gateways snap !! k' = Some gw' → managedBy snap gw' spec' →
         String.le (nnString k) (nnString k')).
Proof.
  intros [Hb Hg Hr] [Hb' Hg' Hr'] [Hsg Hsr] Hnd.
  destruct (buildTable_run selectorMatches snap bindOrd Hb gwOrd routeOrd) as (p & Hp & E).
  destruct (buildTable_run selectorMatches snap bindOrd' Hb' gwOrd' routeOrd') as (p' & Hp' & E').
  pose proof (primaryOf_order snap gwOrd gwOrd' Hg Hg' Hsg) as Hprim.
  rewrite E, E'. rewrite <- Hprim in *. rewrite Hp in Hp'. injection Hp' as <-.
  rewrite (order_irrelevant selectorMatches snap (ClaimClasses snap) bindOrd Hb Hsr) in *.
  rewrite (order_irrelevant selectorMatches snap (ClaimClasses snap) bindOrd' Hb' Hsr).
  eexists. split; [reflexivity|]. split.
  - do 3 f_equal. symmetry. apply insertAll_perm; [done|]. apply tableEntries_perm, buildInputs_perm.
    by rewrite Hr, Hr'.
  - pose proof (primaryFor_perm snap _ _ _ Hg (primaryOf_smallest snap gwOrd)) as Hs.
    unfold primaryFor in Hs. destruct (primaryOf (ClaimClasses snap) gwOrd) as [[spec|] pg]; simpl in *.
    + right. destruct Hs as (gw & (Hk & _ & Hle) & Hm). exists pg, gw, spec.
      setoid_rewrite elem_of_map_to_list in Hle. apply elem_of_map_to_list in Hk. done.
    + left. split; [done|]. intros k gw spec Hk. eapply Hs. by apply elem_of_map_to_list.
Qed.
End table.

(** ** Instances *)

Section instances.
Import Fixture.

Lemma fixture_plain : plainNamespaces snap.
Proof.
  assert (H1 : bool_decide (map_Forall (fun k _ => k = gwKey) (Gateways snap)) = true) by (vm_compute; reflexivity).
  assert (H2 : bool_decide (map_Forall (fun k _ => k = oldKey ∨ k = youngKey) (RsyncRoutes snap)) = true)
    by (vm_compute; reflexivity).
  apply bool_decide_eq_true_1 in H1, H2. split.
  - intros k gw Hk. rewrite (H1 _ _ Hk). apply (bool_decide_eq_false_1 (_ ∈ _)). vm_compute. reflexivity.
  - intros k r Hk. apply H2 in Hk as [->| ->]; apply (bool_decide_eq_false_1 (_ ∈ _)); vm_compute; reflexivity.
Qed.

Abbreviation gatewaysOf := (map_to_list (Gateways snap)).
Abbreviation routesOf := (map_to_list (RsyncRoutes snap)).
Abbreviation fixtureTable routeOrd :=
  (buildTable snap (ClaimClasses snap) (BindRoutesIn noSelector snap (ClaimClasses snap) fixtureOrder)
     gatewaysOf routeOrd).

(** The routes of the fixture in two orders. *)
Lemma table_deterministic_witness :
  ∃ c, fixtureTable routesOf = Done (Ret c) ∧ fixtureTable (rev routesOf) = Done (Ret c).
Proof.
  destruct (table_deterministic noSelector snap fixtureOrder gatewaysOf routesOf fixtureOrder gatewaysOf (rev routesOf))
    as (c & E & E' & _).
  - split; [exact fixtureOrder_ok|apply Permutation_refl|apply Permutation_refl].
  - split; [exact fixtureOrder_ok|apply Permutation_refl|apply Permutation_sym, Permutation_rev].
  - exact fixture_plain.
  - apply (bool_decide_eq_true_1 (NoDup _)). vm_compute. reflexivity.
  - exists c. exact (conj E E').
Defined.
End instances.
