(* ===== verification/Triggers.v ===== *)
(** * What makes the controller reconcile: [SetupWithManager] and [rebuildHandler]

    Every change the manager's cache sees of a watched kind enqueues the one rebuild request;
    a worker takes it, lists the kinds one after the other from the cache, which may change
    in between, and reconciles; on an error the request comes again later.  The work queue
    and the cache are controller-runtime's: the queue is a class with the behaviour its
    documentation promises, the cache a value that changes before its handlers are told. *)
From S2P Require Import Prelude GoStd Api Snapshot Claim Fixture Bind Backends Conditions Status.
From S2P Require Import Net Upstreams Admission ServerConfig Translate Controller.
Open Scope Z_scope.

(** ** Watches *)

Inductive ObjectKind := GatewayClassKind | GatewayKind | GatewayConfigKind | RsyncRouteKind | ServiceKind | GrantKind.

#[export] Instance Kind_eq_dec : EqDecision ObjectKind.
Proof. solve_decision. Defined.

(** [RebuildRequest] *)
Definition RebuildRequest : NamespacedName := mkNN "" "gateway-rebuild".

(** [rebuildHandler]: the requests an event of an object of this kind maps to. *)
Definition rebuildHandler (_ : ObjectKind) : list NamespacedName := [RebuildRequest].

(** The sources [SetupWithManager] registers, in order. *)
Definition watchedKinds : list ObjectKind :=
  [GatewayClassKind; GatewayKind; GatewayConfigKind; RsyncRouteKind; ServiceKind; GrantKind].

(** The kinds [readSnapshot] lists, in order. *)
Definition listedKinds : list ObjectKind :=
  [GatewayClassKind; GatewayConfigKind; GatewayKind; RsyncRouteKind; ServiceKind; GrantKind].

(** ** The work queue *)

(** What [workqueue.TypedInterface] documents: an item that was added is due; it is handed
    out to one worker at a time; an item added again while it is processed is due again. *)
Class Workqueue (W : Type) := {
  wqNew : W;
  wqAdd : NamespacedName → W → W;
  wqGet : W → option (NamespacedName * W);
  wqDone : NamespacedName → W → W;
  due : NamespacedName → W → bool;
  busy : W → list NamespacedName;

  wqNew_rest r : due r wqNew = false ∧ busy wqNew = [];
  wqAdd_due r r' w : due r' (wqAdd r w) = (bool_decide (r' = r) || due r' w);
  wqAdd_busy r w : busy (wqAdd r w) = busy w;
  wqGet_due r w w' : wqGet w = Some (r, w') → due r w = true ∧ ∀ r', due r' w' = (negb (bool_decide (r' = r)) && due r' w);
  wqGet_busy r w w' : wqGet w = Some (r, w') → (r ∉ busy w) ∧ busy w' = r :: busy w;
  wqGet_live r w : busy w = [] → due r w = true → is_Some (wqGet w);
  wqDone_due r r' w : due r' (wqDone r w) = due r' w;
  wqDone_busy r w : busy (wqDone r w) = filter (fun r' => r' ≠ r) (busy w) }.

(** ** The cache *)

Record Objects := mkObjects {
  o_classes : list GatewayClass; o_configs : list GatewayConfig; o_gateways : list Gateway;
  o_routes : list RsyncRoute; o_services : list Service; o_grants : list ReferenceGrant }.

Definition noObjects : Objects := mkObjects [] [] [] [] [] [].

(** The objects of one kind change. *)
Definition changeKind (k : ObjectKind) (from : Objects) (o : Objects) : Objects :=
  match k with
  | GatewayClassKind =>
      mkObjects (o_classes from) (o_configs o) (o_gateways o) (o_routes o) (o_services o) (o_grants o)
  | GatewayConfigKind =>
      mkObjects (o_classes o) (o_configs from) (o_gateways o) (o_routes o) (o_services o) (o_grants o)
  | GatewayKind =>
      mkObjects (o_classes o) (o_configs o) (o_gateways from) (o_routes o) (o_services o) (o_grants o)
  | RsyncRouteKind =>
      mkObjects (o_classes o) (o_configs o) (o_gateways o) (o_routes from) (o_services o) (o_grants o)
  | ServiceKind =>
      mkObjects (o_classes o) (o_configs o) (o_gateways o) (o_routes o) (o_services from) (o_grants o)
  | GrantKind =>
      mkObjects (o_classes o) (o_configs o) (o_gateways o) (o_routes o) (o_services o) (o_grants from)
  end.

(** The lists of a snapshot being read: nothing yet, and with one more kind listed. *)
Definition unread : Cluster := mkCluster (Err "") (Err "") (Err "") (Err "") (Err "") (Err "").

Definition listOne (k : ObjectKind) (err : option error) (o : Objects) (c : Cluster) : Cluster :=
  let got {A} (l : list A) : result (list A) := match err with Some e => Err e | None => Ret l end in
  match k with
  | GatewayClassKind =>
      mkCluster (got (o_classes o)) (k_configs c) (k_gateways c) (k_routes c) (k_services c) (k_grants c)
  | GatewayConfigKind =>
      mkCluster (k_classes c) (got (o_configs o)) (k_gateways c) (k_routes c) (k_services c) (k_grants c)
  | GatewayKind =>
      mkCluster (k_classes c) (k_configs c) (got (o_gateways o)) (k_routes c) (k_services c) (k_grants c)
  | RsyncRouteKind =>
      mkCluster (k_classes c) (k_configs c) (k_gateways c) (got (o_routes o)) (k_services c) (k_grants c)
  | ServiceKind =>
      mkCluster (k_classes c) (k_configs c) (k_gateways c) (k_routes c) (got (o_services o)) (k_grants c)
  | GrantKind =>
      mkCluster (k_classes c) (k_configs c) (k_gateways c) (k_routes c) (k_services c) (got (o_grants o))
  end.

Definition clusterOf (o : Objects) : Cluster :=
  mkCluster (Ret (o_classes o)) (Ret (o_configs o)) (Ret (o_gateways o)) (Ret (o_routes o))
    (Ret (o_services o)) (Ret (o_grants o)).

(** ** Writers of statuses that do not fail *)

Definition succeeds {A} (m : Wr A) : Prop := ∀ st, ∃ a st', m st = (Ret a, st').

Lemma succeeds_ret {A} (a : A) : succeeds (mret a).
Proof. intros st. by eexists _, _. Qed.
Lemma succeeds_bind {A B} (m : Wr A) (f : A → Wr B) : succeeds m → (∀ a, succeeds (f a)) → succeeds (m ≫= f).
Proof.
  intros Hm Hf st. destruct (Hm st) as (a & st1 & E). unfold mbind, Wr_bind. rewrite E. apply Hf.
Qed.
Lemma succeeds_log e : succeeds (wrLog e).
Proof. intros st. by eexists _, _. Qed.
Lemma succeeds_clock {A} (m : Clocked A) : succeeds (wrClock m).
Proof. intros st. unfold wrClock. destruct (m (ws_clock st)). by eexists _, _. Qed.
Lemma succeeds_configs : succeeds wrConfigs.
Proof. intros st. by eexists _, _. Qed.
Lemma succeeds_setConfig name c : succeeds (wrSetConfig name c).
Proof. intros st. by eexists _, _. Qed.
Lemma succeeds_each {A} (f : A → Wr unit) l : (∀ x, succeeds (f x)) → succeeds (wrEach f l).
Proof.
  intros Hf. induction l as [|x l IH]; simpl; [apply succeeds_ret|]. by apply succeeds_bind.
Qed.

Create HintDb writes.
#[export] Hint Resolve succeeds_ret succeeds_log succeeds_clock succeeds_configs succeeds_setConfig
  succeeds_each : writes.

Section accepting.
Context (apiUpdate : Effect → option APIError) (accepts : ∀ e, apiUpdate e = None).

Lemma succeeds_update {A} e (f : option APIError → Wr A) :
  succeeds (f None) → succeeds (update apiUpdate e ≫= f).
Proof.
  intros Hf st. unfold update, mbind, Wr_bind, wrLog, mret, Wr_ret. rewrite accepts. apply Hf.
Qed.

Ltac writes :=
  repeat first
    [ apply succeeds_update | apply succeeds_bind; [by auto with writes|intros] | case_match
    | progress simpl ]; auto with writes.

Lemma succeeds_events rec key previous i pp : succeeds (emitRouteEvents rec key previous i pp).
Proof.
  revert i. induction pp as [|res pp IH]; intros i; simpl; destruct rec; simpl; auto with writes.
  apply succeeds_bind; [|auto]. case_match; auto with writes.
Qed.

Lemma succeeds_class claims p : succeeds (writeClass apiUpdate claims p).
Proof. destruct p. unfold writeClass. writes. Qed.
Lemma succeeds_gateway claims ports p : succeeds (writeGateway apiUpdate claims ports p).
Proof. destruct p. unfold writeGateway. writes. Qed.
Lemma succeeds_route rec snap results p : succeeds (writeRoute apiUpdate rec snap results p).
Proof. destruct p. unfold writeRoute. writes. apply succeeds_events. Qed.
Lemma succeeds_config applyErr claim : succeeds (writeConfig apiUpdate applyErr claim).
Proof. unfold writeConfig. writes. Qed.

Lemma succeeds_statuses bindAddrs rec snap claims results applyErr ord :
  succeeds (writeStatuses apiUpdate bindAddrs rec snap claims results applyErr ord).
Proof.
  unfold writeStatuses.
  repeat (apply succeeds_bind; [|intros _]); apply succeeds_each; intros.
  - apply succeeds_class.
  - apply succeeds_gateway.
  - apply succeeds_route.
  - apply succeeds_config.
Qed.
End accepting.

(** ** The controller *)

Section controller.
Context {W : Type} `{Workqueue W}.
Context (selectorMatches : LabelSelector → gmap string string → result bool).
Context (bindAddrs : list string) (recorder : bool).

(** What one reconciliation finds outside. *)
Record Outside := mkOutside {
  v_update : Effect → option APIError; v_apply : Config → option error; v_rng : Ranging; v_clk : Clock }.

Definition reconcileWith (v : Outside) (k : Cluster) : outcome Reconciled :=
  Reconcile selectorMatches (v_update v) (v_apply v) bindAddrs recorder (v_rng v) (v_clk v) k.

(** The worker: waiting for a request, or with one, the kinds still to list and the lists so
    far. *)
Inductive Worker := Idle | Working (r : NamespacedName) (ks : list ObjectKind) (c : Cluster).

Record Ctl := mkCtl {
  cache : Objects;
  notices : list ObjectKind;                    (* events not yet handled *)
  queue : W;
  worker : Worker;
  delayed : bool;                         (* the request waits out its back-off *)
  last : option (Cluster * Reconciled) }. (* the last reconciliation without an error *)

Definition start : Ctl := mkCtl noObjects [] wqNew Idle false None.

Inductive Event :=
  | Change (k : ObjectKind) (from : Objects)
  | Handle
  | Take
  | ListNext (err : option error)
  | Finish (v : Outside)
  | Fire.

Definition step (e : Event) (c : Ctl) : option Ctl :=
  match e with
  | Change k from =>
      Some (mkCtl (changeKind k from (cache c))
              (notices c ++ (if decide (k ∈ watchedKinds) then [k] else []))
              (queue c) (worker c) (delayed c) (last c))
  | Handle =>
      match notices c with
      | [] => None
      | k :: rest =>
          Some (mkCtl (cache c) rest (foldl (fun w r => wqAdd r w) (queue c) (rebuildHandler k))
                  (worker c) (delayed c) (last c))
      end
  | Take =>
      match worker c, wqGet (queue c) with
      | Idle, Some (r, w) => Some (mkCtl (cache c) (notices c) w (Working r listedKinds unread) (delayed c) (last c))
      | _, _ => None
      end
  | ListNext err =>
      match worker c with
      | Working r (k :: ks) got =>
          Some (mkCtl (cache c) (notices c) (queue c)
                  (Working r (match err with Some _ => [] | None => ks end) (listOne k err (cache c) got))
                  (delayed c) (last c))
      | _ => None
      end
  | Finish v =>
      match worker c with
      | Working r [] got =>
          match reconcileWith v got with
          | Done rec =>
              Some (match rec_err rec with
                    | None => mkCtl (cache c) (notices c) (wqDone r (queue c)) Idle (delayed c) (Some (got, rec))
                    | Some _ => mkCtl (cache c) (notices c) (wqDone r (queue c)) Idle true (last c)
                    end)
          | _ => None
          end
      | _ => None
      end
  | Fire =>
      if delayed c
      then Some (mkCtl (cache c) (notices c) (wqAdd RebuildRequest (queue c)) (worker c) false (last c))
      else None
  end.

(** Orders that range over the maps of the snapshot. *)
Definition validRanging (v : Outside) : Prop :=
  ∀ snap, rangeOrders selectorMatches snap (ClaimClasses snap) (rng_bind (v_rng v) snap).

Inductive reachable : Ctl → Prop :=
  | reachable_start : reachable start
  | reachable_step e c c' :
      reachable c → (∀ v, e = Finish v → validRanging v) → step e c = Some c' → reachable c'.

(** Nothing is left to do. *)
Definition resting (c : Ctl) : Prop :=
  notices c = [] ∧ due RebuildRequest (queue c) = false ∧ worker c = Idle ∧ delayed c = false.

(** ** No change is lost *)

Lemma watched_all k : k ∈ watchedKinds.
Proof. apply (bool_decide_unpack _). by destruct k. Qed.

Lemma listed_all k : k ∈ listedKinds.
Proof. apply (bool_decide_unpack _). by destruct k. Qed.

(** A request is on its way. *)
Definition pending (c : Ctl) : Prop :=
  notices c ≠ [] ∨ due RebuildRequest (queue c) = true ∨ delayed c = true.

(** The list of kind [k] is the one of the cache. *)
Definition agrees (k : ObjectKind) (got : Cluster) (o : Objects) : Prop := listOne k None o got = got.

Lemma agrees_list k k' got o : k' = k ∨ agrees k' got o → agrees k' (listOne k None o got) o.
Proof.
  unfold agrees. intros [->|Ha]; [by destruct k, got|].
  destruct k, k', got; simpl in *; simplify_eq; done.
Qed.

Lemma agrees_other k k' got o o' : k' ≠ k → agrees k' got o' → agrees k' (listOne k None o got) o'.
Proof. unfold agrees. destruct k, k', got; simpl in *; intros; by simplify_eq. Qed.

Lemma agrees_all got o : (∀ k, agrees k got o) → got = clusterOf o.
Proof.
  intros Ha. pose proof (Ha GatewayClassKind) as H1. pose proof (Ha GatewayConfigKind) as H2.
  pose proof (Ha GatewayKind) as H3. pose proof (Ha RsyncRouteKind) as H4.
  pose proof (Ha ServiceKind) as H5. pose proof (Ha GrantKind) as H6.
  unfold agrees in *. destruct got, o; simpl in *. by simplify_eq.
Qed.

(** The lists read so far are those of the cache, or one could not be read. *)
Definition readSoFar (ks : list ObjectKind) (got : Cluster) (o : Objects) : Prop :=
  (ks = [] ∧ ∃ e, readSnapshot got = Err e) ∨ ∀ k, k ∉ ks → agrees k got o.

(** The lists read so far are lists, or one could not be read. *)
Definition gathered (ks : list ObjectKind) (got : Cluster) : Prop :=
  (ks = [] ∧ ∃ e, readSnapshot got = Err e) ∨ ∀ k, k ∉ ks → ∃ o, agrees k got o.

(** The outcome of the last reconciliation without an error is that of the cache. *)
Definition upToDate (c : Ctl) : Prop :=
  last c = None ∧ cache c = noObjects ∨ ∃ rec, last c = Some (clusterOf (cache c), rec).

Record Inv (c : Ctl) : Prop := {
  inv_due r : due r (queue c) = true → r = RebuildRequest;
  inv_busy : match worker c with
             | Idle => busy (queue c) = []
             | Working r ks got => r = RebuildRequest ∧ busy (queue c) = [r] ∧ gathered ks got
             end;
  inv_last k rec : last c = Some (k, rec) → rec_err rec = None ∧ ∃ v, validRanging v ∧ reconcileWith v k = Done rec;
  inv_main : pending c ∨ match worker c with
                         | Idle => upToDate c
                         | Working _ ks got => readSoFar ks got (cache c)
                         end }.

Lemma Inv_start : Inv start.
Proof.
  split; simpl.
  - intros r. by destruct (wqNew_rest r) as [-> _].
  - by destruct (wqNew_rest RebuildRequest) as [_ ->].
  - done.
  - right. by left.
Qed.

Lemma reconcile_unread v k e rec :
  readSnapshot k = Err e → reconcileWith v k = Done rec → rec_err rec ≠ None.
Proof. unfold reconcileWith, Reconcile. by intros -> [= <-]. Qed.

Lemma Inv_take c r w :
  Inv c → worker c = Idle → wqGet (queue c) = Some (r, w) →
  Inv (mkCtl (cache c) (notices c) w (Working r listedKinds unread) (delayed c) (last c)).
Proof.
  intros [Hd Hb Hl Hm] Ew Eg. rewrite Ew in Hb. destruct (wqGet_due _ _ _ Eg) as [Hdue Hdue'].
  destruct (wqGet_busy _ _ _ Eg) as [_ Hbusy]. split; simpl.
  - intros r'. rewrite Hdue'. intros [_ ?]%andb_true_iff. auto.
  - rewrite Hbusy, Hb. split_and!; auto. right. intros k Hk. destruct Hk. apply listed_all.
  - done.
  - right. right. intros k Hk. destruct Hk. apply listed_all.
Qed.

Lemma listOne_err k e o got : ∃ e', readSnapshot (listOne k (Some e) o got) = Err e'.
Proof.
  destruct got as [[] [] [] [] [] []], k; unfold readSnapshot; simpl; by eexists.
Qed.

Lemma Inv_list c r k ks got err :
  Inv c → worker c = Working r (k :: ks) got →
  Inv (mkCtl (cache c) (notices c) (queue c)
         (Working r (match err with Some _ => [] | None => ks end) (listOne k err (cache c) got))
         (delayed c) (last c)).
Proof.
  intros [Hd Hb Hl Hm] Ew. rewrite Ew in Hb, Hm. split; simpl; try done.
  { destruct Hb as (-> & Hb & Hg). split; [done|]. split; [done|]. destruct err as [e|].
    - left. split; [done|]. apply listOne_err.
    - destruct Hg as [[? _]|Hg]; [done|]. right. intros k' Hk'.
      destruct (decide (k' = k)) as [->|]; [exists (cache c); apply agrees_list; by left|].
      destruct (Hg k') as [o Ho]; [by rewrite not_elem_of_cons|]. exists o. by apply agrees_other. }
  destruct Hm as [Hp|[[? _]|Hr]]; [by left|done|right]. destruct err as [e|].
  - left. split; [done|]. apply listOne_err.
  - right. intros k' Hk'. apply agrees_list. destruct (decide (k' = k)); [by left|right].
    apply Hr. by rewrite not_elem_of_cons.
Qed.

Lemma Inv_finish v c r got rec :
  Inv c → validRanging v → worker c = Working r [] got → reconcileWith v got = Done rec →
  Inv (match rec_err rec with
       | None => mkCtl (cache c) (notices c) (wqDone r (queue c)) Idle (delayed c) (Some (got, rec))
       | Some _ => mkCtl (cache c) (notices c) (wqDone r (queue c)) Idle true (last c)
       end).
Proof.
  intros [Hd Hb Hl Hm] Hv Ew Er. rewrite Ew in Hb, Hm. destruct Hb as (-> & Hb & _).
  assert (∀ r', due r' (wqDone RebuildRequest (queue c)) = true → r' = RebuildRequest) as Hd'
    by (intros r'; rewrite wqDone_due; apply Hd).
  assert (busy (wqDone RebuildRequest (queue c)) = []) as Hb'.
  { rewrite wqDone_busy, Hb, filter_cons_False; [done|]. intros Hn. by apply Hn. }
  destruct (rec_err rec) eqn:Ee; split; simpl; try done.
  - left. by right; right.
  - intros k rec' [= <- <-]. split; [done|by exists v].
  - destruct Hm as [Hp|[(_ & e & He)|Hr]].
    + left. unfold pending in *. simpl. by rewrite wqDone_due.
    + by destruct (reconcile_unread v got e rec He Er).
    + right. right. simpl. exists rec. rewrite <- (agrees_all got (cache c)); [done|].
      intros k. apply Hr, not_elem_of_nil.
Qed.

Lemma ctlInv_step e c c' : Inv c → (∀ v, e = Finish v → validRanging v) → step e c = Some c' → Inv c'.
Proof.
  intros Hi Hv E. destruct e as [k from| | |err|v|]; simpl in E.
  - simplify_eq. destruct Hi as [Hd Hb Hl Hm]. split; simpl; try done.
    left. left. rewrite decide_True by apply watched_all. by destruct (notices c).
  - destruct (notices c) as [|k rest] eqn:En; simplify_eq. destruct Hi as [Hd Hb Hl Hm].
    split; simpl; try done.
    + intros r. rewrite wqAdd_due. intros [?%bool_decide_eq_true|?]%orb_true_iff; auto.
    + destruct (worker c); by rewrite wqAdd_busy.
    + left. right. left. simpl. rewrite wqAdd_due. by rewrite bool_decide_eq_true_2.
  - destruct (worker c) as [|r0 ks got] eqn:Ew, (wqGet (queue c)) as [[r w]|] eqn:Eg; simplify_eq. by apply Inv_take.
  - destruct (worker c) as [|r [|k ks] got] eqn:Ew; simplify_eq. by apply Inv_list.
  - destruct (worker c) as [|r [|k ks] got] eqn:Ew; try done.
    destruct (reconcileWith v got) as [rec| |] eqn:Er; simplify_eq. eapply Inv_finish; eauto.
  - destruct (delayed c); simplify_eq. destruct Hi as [Hd Hb Hl Hm]. split; simpl; try done.
    + intros r. rewrite wqAdd_due. intros [?%bool_decide_eq_true|?]%orb_true_iff; auto.
    + destruct (worker c); by rewrite wqAdd_busy.
    + left. right. left. simpl. rewrite wqAdd_due. by rewrite bool_decide_eq_true_2.
Qed.

Lemma ctlInv_reachable c : reachable c → Inv c.
Proof. induction 1; eauto using Inv_start, ctlInv_step. Qed.

Lemma rest_upToDate c : Inv c → resting c → upToDate c.
Proof.
  intros [_ _ _ Hm] (Hn & Hd & Hw & Hdl). rewrite Hw in Hm.
  destruct Hm as [[?|[?|?]]|?]; congruence || done.
Qed.

(** ** The controller comes to rest *)

Lemma reconcile_returns v k : validRanging v → ∃ rec, reconcileWith v k = Done rec.
Proof.
  intros Hv. unfold reconcileWith, Reconcile. destruct (readSnapshot k) as [snap|e]; [|by eexists].
  destruct (buildTable_run selectorMatches snap _ (Hv snap) (rng_gateways (v_rng v) snap) (rng_routes (v_rng v) snap))
    as (p & _ & ->).
  unfold mbind, outcome_bind. repeat case_match; by eexists.
Qed.

(** An API server and a data plane that accept everything. *)
Record friendly (v : Outside) : Prop := {
  fr_ranging : validRanging v;
  fr_update e : v_update v e = None;
  fr_apply t : v_apply v t = None }.

Lemma reconcile_succeeds v o rec :
  friendly v → reconcileWith v (clusterOf o) = Done rec → rec_err rec = None.
Proof.
  intros [Hv Hu Ha]. unfold reconcileWith, Reconcile. simpl.
  set (snap := NewSnapshot _ _ _ _ _ _).
  destruct (buildTable_run selectorMatches snap _ (Hv snap) (rng_gateways (v_rng v) snap) (rng_routes (v_rng v) snap))
    as (p & _ & ->).
  unfold mbind, outcome_bind. rewrite Ha.
  match goal with |- context [writeStatuses ?u ?b ?r ?s ?c ?res ?e ?o ?st] =>
    destruct (succeeds_statuses u Hu b r s c res e o st) as ([] & st' & ->) end.
  by intros [= <-].
Qed.

(** A complete reading is a cluster. *)
Lemma agreeing_cluster got : (∀ k, ∃ o, agrees k got o) → ∃ o, got = clusterOf o.
Proof.
  intros Ha.
  destruct (Ha GatewayClassKind) as [o1 H1], (Ha GatewayConfigKind) as [o2 H2], (Ha GatewayKind) as [o3 H3],
    (Ha RsyncRouteKind) as [o4 H4], (Ha ServiceKind) as [o5 H5], (Ha GrantKind) as [o6 H6].
  exists (mkObjects (o_classes o1) (o_configs o2) (o_gateways o3) (o_routes o4) (o_services o5) (o_grants o6)).
  unfold agrees in *. destruct got; simpl in *. by simplify_eq.
Qed.

Lemma gathered_cluster got : gathered [] got → (∃ e, readSnapshot got = Err e) ∨ ∃ o, got = clusterOf o.
Proof.
  intros [[_ ?]|Hg]; [by left|right]. apply agreeing_cluster. intros k. apply Hg, not_elem_of_nil.
Qed.

Lemma gathered_last k got o : gathered [k] got → ∃ o', listOne k None o got = clusterOf o'.
Proof.
  intros [[? _]|Hg]; [done|]. apply agreeing_cluster. intros k'.
  destruct (decide (k' = k)) as [->|]; [exists o; apply agrees_list; by left|].
  destruct (Hg k') as [o' Ho]; [by rewrite list_elem_of_singleton|]. exists o'. by apply agrees_other.
Qed.

(** Steps of the controller itself. *)
Definition ownEvents (v : Outside) : list Event := [Handle; Take; ListNext None; Finish v; Fire].

Fixpoint run (es : list Event) (c : Ctl) : option Ctl :=
  match es with
  | [] => Some c
  | e :: es => c' ← step e c; run es c'
  end.

Definition workLeft (w : Worker) : nat :=
  match w with
  | Idle => 0
  | Working _ [] got => match readSnapshot got with Err _ => 12 | Ret _ => 1 end
  | Working _ ks _ => 1 + length ks
  end.

Definition stepsLeft (c : Ctl) : nat :=
  10 * length (notices c) + (if delayed c then 10 else 0)
  + (if due RebuildRequest (queue c) then 9 else 0) + workLeft (worker c).

Lemma resting_dec c : resting c ∨ notices c ≠ [] ∨ delayed c = true ∨ worker c ≠ Idle ∨
  worker c = Idle ∧ due RebuildRequest (queue c) = true.
Proof.
  unfold resting. destruct (notices c), (delayed c), (worker c), (due RebuildRequest (queue c)); auto 10.
Qed.

Lemma take_left c r w :
  Inv c → worker c = Idle → wqGet (queue c) = Some (r, w) →
  (stepsLeft (mkCtl (cache c) (notices c) w (Working r listedKinds unread) (delayed c) (last c)) < stepsLeft c)%nat.
Proof.
  intros Hi Ew Eg. destruct (wqGet_due _ _ _ Eg) as [Hdue Hdue']. pose proof (inv_due _ Hi r Hdue) as ->.
  unfold stepsLeft. simpl. rewrite Ew, Hdue, Hdue'. rewrite bool_decide_eq_true_2 by done. simpl. lia.
Qed.

Lemma add_left r w : ((if due RebuildRequest (wqAdd r w) then 9 else 0) ≤ 9)%nat.
Proof. case_match; lia. Qed.

(** While there is something to do, the controller does something that brings it nearer to
    rest. *)
Lemma own_step v c :
  friendly v → Inv c → ¬ resting c →
  ∃ e c', e ∈ ownEvents v ∧ step e c = Some c' ∧ cache c' = cache c ∧ (stepsLeft c' < stepsLeft c)%nat.
Proof.
  intros Hv Hi Hr. destruct (resting_dec c) as [|[Hn|[Hd|[Hw|[Hw Hq]]]]]; [done|..].
  - exists Handle. simpl. unfold ownEvents. destruct (notices c) as [|k rest] eqn:En; [done|].
    eexists. split; [set_solver|]. split; [done|]. split; [done|]. unfold stepsLeft. simpl. rewrite En. simpl.
    pose proof (add_left RebuildRequest (queue c)). lia.
  - exists Fire. simpl. rewrite Hd. eexists. split; [set_solver|]. split; [done|]. split; [done|].
    unfold stepsLeft. simpl. rewrite Hd. pose proof (add_left RebuildRequest (queue c)). lia.
  - destruct (worker c) as [|r [|k ks] got] eqn:Ew; [done|..].
    + pose proof (inv_busy _ Hi) as Hb. rewrite Ew in Hb. destruct Hb as (_ & _ & Hg).
      destruct (reconcile_returns v got (fr_ranging _ Hv)) as [rec Er].
      exists (Finish v). simpl. rewrite Ew, Er. eexists. split; [set_solver|]. split; [done|].
      destruct (gathered_cluster got Hg) as [[e He]|[o ->]].
      * destruct (rec_err rec) eqn:Ee; [|by destruct (reconcile_unread v got e rec He Er)].
        split; [done|]. unfold stepsLeft. simpl. rewrite wqDone_due, Ew. simpl. rewrite He. destruct (delayed c); lia.
      * rewrite (reconcile_succeeds v o rec Hv Er). split; [done|].
        unfold stepsLeft. simpl. rewrite wqDone_due, Ew. simpl. lia.
    + exists (ListNext None). simpl. rewrite Ew. eexists. split; [set_solver|]. split; [done|]. split; [done|].
      unfold stepsLeft. simpl. rewrite Ew. destruct ks as [|k' ks]; [|simpl; lia].
      pose proof (inv_busy _ Hi) as Hb. rewrite Ew in Hb. destruct Hb as (_ & _ & Hg).
      destruct (gathered_last k got (cache c) Hg) as [o ->]. simpl. lia.
  - pose proof (inv_busy _ Hi) as Hb. rewrite Hw in Hb.
    destruct (wqGet_live _ _ Hb Hq) as [[r w] Eg]. exists Take. simpl. rewrite Hw, Eg. eexists.
    split; [set_solver|]. split; [done|]. split; [done|]. by apply take_left.
Qed.

Lemma resting_or_not c : resting c ∨ ¬ resting c.
Proof.
  unfold resting. destruct (notices c), (delayed c), (worker c), (due RebuildRequest (queue c)); auto; right; naive_solver.
Qed.

Lemma settles v c :
  friendly v → Inv c →
  ∃ es c', run es c = Some c' ∧ Forall (fun e => e ∈ ownEvents v) es ∧ (length es ≤ stepsLeft c)%nat ∧
    resting c' ∧ cache c' = cache c ∧ upToDate c'.
Proof.
  intros Hv. remember (stepsLeft c) as n eqn:Hn. revert c Hn. induction (lt_wf n) as [n _ IH]. intros c -> Hi.
  destruct (resting_or_not c) as [Hr|Hr].
  { exists [], c. pose proof (rest_upToDate c Hi Hr). split_and!; try done; simpl; lia. }
  destruct (own_step v c Hv Hi Hr) as (e & c1 & He & E & Hc & Hl).
  assert (Inv c1) as Hi1.
  { eapply ctlInv_step; [done| |done]. intros v' ->. unfold ownEvents in He.
    assert (v' = v) as -> by set_solver. apply Hv. }
  destruct (IH _ Hl c1 eq_refl Hi1) as (es & c' & Hrun & Hown & Hlen & Hrest & Hcache & Hup).
  exists (e :: es), c'. simpl. rewrite E. simpl. split_and!; try done; [by constructor|lia|congruence].
Qed.

Lemma reconciled_table v o rec :
  validRanging v → reconcileWith v (clusterOf o) = Done rec → rec_err rec = None →
  ∃ table, rec_table rec = Some table ∧ v_apply v table = None.
Proof.
  intros Hv. unfold reconcileWith, Reconcile. simpl. set (snap := NewSnapshot _ _ _ _ _ _).
  destruct (buildTable_run selectorMatches snap _ (Hv snap) (rng_gateways (v_rng v) snap) (rng_routes (v_rng v) snap))
    as (p & _ & ->).
  unfold mbind, outcome_bind. destruct (v_apply v _) eqn:Ea; case_match; intros [= <-]; [done|].
  simpl. intros _. eauto.
Qed.

(** C10: No change of the cluster is lost.  Whatever objects of whatever kind change, also
    while a reconciliation is listing them, and whichever calls fail: when the controller
    has nothing left to do, its last reconciliation without an error was of exactly the
    objects the cache holds, and the data plane accepted its table, unless there never was
    an object. *)
Theorem no_change_lost c :
  reachable c → resting c →
  (last c = None ∧ cache c = noObjects) ∨
  ∃ v rec table, last c = Some (clusterOf (cache c), rec) ∧ validRanging v ∧
    reconcileWith v (clusterOf (cache c)) = Done rec ∧ rec_err rec = None ∧
    rec_table rec = Some table ∧ v_apply v table = None.
Proof.
  intros Hc%ctlInv_reachable Hr. destruct (rest_upToDate c Hc Hr) as [?|[rec Hl]]; [by left|right].
  destruct (inv_last _ Hc _ _ Hl) as (He & v & Hv & Hrec).
  destruct (reconciled_table v _ rec Hv Hrec He) as (table & Ht & Ha). by exists v, rec, table.
Qed.

(** C23: The controller comes to rest.  From every state it can be in, when the API server
    and the data plane accept what they are given, steps of its own (handling events, taking
    the request, listing, reconciling, retrying) bring it to a state with nothing left to
    do, up to date with the cache. *)
Theorem controller_settles v c :
  reachable c → friendly v →
  ∃ es c', run es c = Some c' ∧ Forall (fun e => e ∈ ownEvents v) es ∧ (length es ≤ stepsLeft c)%nat ∧
    resting c' ∧ cache c' = cache c ∧ upToDate c'.
Proof. intros Hc%ctlInv_reachable Hv. by apply settles. Qed.
End controller.

(** ** Instances *)

(** A work queue: what is due and what is being processed. *)
Record Requests := mkRequests { dueOnes : list NamespacedName; busyOnes : list NamespacedName }.

#[export] Program Instance requestsQueue : Workqueue Requests := {
  wqNew := mkRequests [] [];
  wqAdd r w := mkRequests (if decide (r ∈ dueOnes w) then dueOnes w else dueOnes w ++ [r]) (busyOnes w);
  wqGet w := match filter (fun r => r ∉ busyOnes w) (dueOnes w) with
             | [] => None
             | r :: _ => Some (r, mkRequests (filter (fun r' => r' ≠ r) (dueOnes w)) (r :: busyOnes w))
             end;
  wqDone r w := mkRequests (dueOnes w) (filter (fun r' => r' ≠ r) (busyOnes w));
  due r w := bool_decide (r ∈ dueOnes w);
  busy := busyOnes }.
Next Obligation. intros r. split; [|done]. by apply bool_decide_eq_false, not_elem_of_nil. Qed.
Next Obligation.
  intros r r' w. simpl. apply Bool.eq_true_iff_eq.
  rewrite orb_true_iff, !bool_decide_eq_true. case_decide; [naive_solver|].
  rewrite elem_of_app, list_elem_of_singleton. naive_solver.
Qed.
Next Obligation. done. Qed.
Next Obligation.
  intros r w w'. simpl. destruct (filter _ (dueOnes w)) as [|r0 l] eqn:E; [done|]. intros [= <- <-].
  assert (r0 ∈ filter (fun r => r ∉ busyOnes w) (dueOnes w)) as Hin by (rewrite E; by left).
  apply list_elem_of_filter in Hin as [_ Hin]. split; [by apply bool_decide_eq_true|]. intros r'.
  apply Bool.eq_true_iff_eq. simpl. rewrite andb_true_iff, negb_true_iff, bool_decide_eq_false, !bool_decide_eq_true.
  by rewrite list_elem_of_filter.
Qed.
Next Obligation.
  intros r w w'. simpl. destruct (filter _ (dueOnes w)) as [|r0 l] eqn:E; [done|]. intros [= <- <-].
  assert (r0 ∈ filter (fun r => r ∉ busyOnes w) (dueOnes w)) as Hin by (rewrite E; by left).
  by apply list_elem_of_filter in Hin as [? _].
Qed.
Next Obligation.
  intros r w Hb Hd%bool_decide_eq_true. simpl in *.
  destruct (filter _ (dueOnes w)) as [|r0 l] eqn:E; [|done].
  assert (r ∈ filter (fun r => r ∉ busyOnes w) (dueOnes w)) as Hin
    by (apply list_elem_of_filter; rewrite Hb; split; [apply not_elem_of_nil|done]).
  rewrite E in Hin. elem_nil.
Qed.
Next Obligation. done. Qed.
Next Obligation. done. Qed.

Section instances.
Import Fixture.

Definition someOrders (snap : Snapshot) : Orders :=
  mkOrders (map_to_list (GatewayClasses snap)) (map_to_list (Gateways snap)) (map_to_list (RsyncRoutes snap))
    (map_to_list (ClaimClasses snap)).
Definition calmOutside : Outside :=
  mkOutside (fun _ => None) (fun _ => None)
    (mkRanging (fun snap => map_to_list (collectBound (map_to_list (bindAll noSelector snap (ClaimClasses snap)))))
       (fun snap => map_to_list (Gateways snap)) (fun snap => map_to_list (RsyncRoutes snap)) someOrders) [].

Lemma calmOutside_friendly : friendly noSelector calmOutside.
Proof. split; [|done|done]. intros snap. exists (map_to_list (bindAll noSelector snap (ClaimClasses snap))). done. Qed.

Abbreviation demoStep := (step (W := Requests) noSelector [":873"] true).
Abbreviation demoRun := (run (W := Requests) noSelector [":873"] true).

Lemma ctl_run_reachable es c c' :
  reachable noSelector [":873"] true c → Forall (fun e => ∀ v, e = Finish v → validRanging noSelector v) es →
  demoRun es c = Some c' → reachable noSelector [":873"] true c'.
Proof.
  intros Hc Hes. revert c Hc. induction Hes as [|e es He Hes IH]; intros c Hc; simpl.
  - by intros [= <-].
  - destruct (demoStep e c) as [c1|] eqn:E; simpl; [|done]. apply IH. by eapply reachable_step.
Qed.

(** A Service appears, and its twin while the first reconciliation has already listed the
    services. *)
Abbreviation services l := (mkObjects [] [] [] [] l []).
Abbreviation listing := (replicate 6 (ListNext None)).
Abbreviation firstChange :=
  ([Change ServiceKind (services [mkService "apps" "deb"]); Handle; Take] ++ listing ++
   [Change ServiceKind (services [mkService "apps" "deb"; mkService "apps" "ubu"])]).
Abbreviation bothChanges :=
  (firstChange ++ [Finish calmOutside; Handle; Take] ++ listing ++ [Finish calmOutside]).

Lemma changes_valid es : Forall (fun e => e = Finish calmOutside ∨ ∀ v, e ≠ Finish v) es →
  Forall (fun e => ∀ v, e = Finish v → validRanging noSelector v) es.
Proof.
  intros H. apply (Forall_impl _ _ _ H). intros e [->|He] v Hv; [injection Hv as <-; apply calmOutside_friendly|by destruct (He v)].
Qed.

Lemma firstChange_valid : Forall (fun e => e = Finish calmOutside ∨ ∀ v, e ≠ Finish v) firstChange.
Proof. repeat (apply Forall_cons_2; [by right|]). apply Forall_nil_2. Qed.

Lemma bothChanges_valid : Forall (fun e => e = Finish calmOutside ∨ ∀ v, e ≠ Finish v) bothChanges.
Proof.
  apply Forall_app_2; [exact firstChange_valid|].
  repeat (apply Forall_cons_2; [(by left) || by right|]). apply Forall_nil_2.
Qed.

Lemma no_change_lost_witness :
  ∃ c rec, demoRun bothChanges start = Some c ∧
    last c = Some (clusterOf (services [mkService "apps" "deb"; mkService "apps" "ubu"]), rec) ∧ rec_err rec = None.
Proof.
  destruct (demoRun bothChanges start) as [c|] eqn:E; [|vm_compute in E; discriminate E].
  assert (resting c ∧ cache c = services [mkService "apps" "deb"; mkService "apps" "ubu"]) as [Hr Hc]
    by (vm_compute in E; injection E as <-; repeat split).
  destruct (no_change_lost noSelector [":873"] true c) as [[_ Hn]|(v & rec & table & Hl & _ & _ & He & _)].
  - exact (ctl_run_reachable _ _ _ (reachable_start _ _ _) (changes_valid _ bothChanges_valid) E).
  - exact Hr.
  - rewrite Hc in Hn. discriminate Hn.
  - rewrite Hc in Hl. exists c, rec. exact (conj eq_refl (conj Hl He)).
Defined.

Lemma controller_settles_witness :
  ∃ c es c', demoRun firstChange start = Some c ∧ demoRun es c = Some c' ∧ resting c' ∧ upToDate c'.
Proof.
  destruct (demoRun firstChange start) as [c|] eqn:E; [|vm_compute in E; discriminate E].
  destruct (controller_settles noSelector [":873"] true calmOutside c) as (es & c' & Hr & _ & _ & Hrest & _ & Hup).
  - exact (ctl_run_reachable _ _ _ (reachable_start _ _ _) (changes_valid _ firstChange_valid) E).
  - exact calmOutside_friendly.
  - exists c, es, c'. exact (conj eq_refl (conj Hr (conj Hrest Hup))).
Defined.
End instances.
