(* ===== verification/Erasure.v ===== *)
(** * Decisions do not look at statuses

    The controller writes the statuses of objects it also reads.  Claims, bindings and
    resolved backends depend only on the other parts of a snapshot: two snapshots that
    agree once statuses are erased give the same decisions. *)
From S2P Require Import Prelude GoStd Api Snapshot Claim Fixture Bind Backends Conditions Status Controller.

(** ** Erasing statuses *)

Definition eraseClass (gc : GatewayClass) : GatewayClass :=
  mkGatewayClass (gc_Meta gc) (gc_ControllerName gc) (gc_ParametersRef gc) [].
Definition eraseConfig (c : GatewayConfig) : GatewayConfig := mkGatewayConfig (cfg_Meta c) (cfg_Spec c) [].
Definition eraseGateway (gw : Gateway) : Gateway :=
  mkGateway (gw_Meta gw) (gw_GatewayClassName gw) (gw_Listeners gw) [] [].
Definition eraseRoute (r : RsyncRoute) : RsyncRoute := mkRoute (r_Meta r) (r_Spec r) [].

Definition erase (snap : Snapshot) : Snapshot :=
  mkSnapshot (eraseClass <$> GatewayClasses snap) (eraseConfig <$> GatewayConfigs snap)
    (eraseGateway <$> Gateways snap) (eraseRoute <$> RsyncRoutes snap) (Services snap) (ReferenceGrants snap).

Definition eraseClaim (c : ClassClaim) : ClassClaim :=
  mkClaim (cl_Name c) (cl_Claimed c) (cl_Accepted c) (cl_Reason c) (cl_Message c)
    (eraseConfig <$> cl_Config c).

(** Snapshots that differ in statuses only. *)
Definition alike (a b : Snapshot) : Prop := erase a = erase b.

#[export] Instance alike_equiv : Equivalence alike.
Proof. unfold alike. split; repeat intro; congruence. Qed.

(** ** Sorting by equivalent relations *)

Section sort_ext.
Context {A : Type} (R R' : relation A) `{∀ x y, Decision (R x y), ∀ x y, Decision (R' x y)}.
Context (HR : ∀ x y, R x y ↔ R' x y).

Lemma list_merge_ext l1 l2 : list_merge R l1 l2 = list_merge R' l1 l2.
Proof using HR.
  revert l2. induction l1 as [|x l1 IH]; intros l2; [by rewrite !list_merge_nil_l|].
  induction l2 as [|y l2 IH2]; [done|]. rewrite !list_merge_cons, IH, IH2.
  by rewrite (decide_ext (R x y) (R' x y)).
Qed.

Lemma merge_list_to_stack_ext st l : merge_list_to_stack R st l = merge_list_to_stack R' st l.
Proof using HR.
  revert l. induction st as [|[l'|] st IH]; intros l; [done| |done]. simpl. by rewrite list_merge_ext, IH.
Qed.

Lemma merge_stack_ext st : merge_stack R st = merge_stack R' st.
Proof using HR. induction st as [|[l|] st IH]; simpl; [done| |done]. by rewrite IH, list_merge_ext. Qed.

Lemma merge_sort_ext l : merge_sort R l = merge_sort R' l.
Proof using HR.
  unfold merge_sort. generalize (@nil (option (list A))). induction l as [|x l IH]; intros st; simpl.
  - apply merge_stack_ext.
  - by rewrite merge_list_to_stack_ext, IH.
Qed.
End sort_ext.

(** ** Claims *)

Lemma claimClass_erase snap name gc :
  claimClass (erase snap) name (eraseClass gc) = eraseClaim (claimClass snap name gc).
Proof.
  unfold claimClass, resolveClassConfig. simpl.
  destruct (negb _); [done|]. destruct (gc_ParametersRef gc) as [ref|]; [|done].
  destruct (negb _); [done|]. destruct (match ref_Namespace ref with Some _ => _ | None => _ end); [done|].
  rewrite lookup_fmap. destruct (GatewayConfigs snap !! ref_Name ref) as [c|]; simpl; [|done].
  by destruct (Validate (cfg_Spec c)).
Qed.

Lemma ClaimClasses_erase snap : ClaimClasses (erase snap) = eraseClaim <$> ClaimClasses snap.
Proof.
  apply map_eq. intros n. rewrite lookup_fmap, !ClaimClasses_lookup. simpl. rewrite lookup_fmap.
  destruct (GatewayClasses snap !! n) as [gc|]; simpl; [|done]. by rewrite claimClass_erase.
Qed.

Lemma ClaimClasses_alike a b n :
  alike a b → eraseClaim <$> ClaimClasses a !! n = eraseClaim <$> ClaimClasses b !! n.
Proof. intros H. rewrite <- !lookup_fmap, <- !ClaimClasses_erase. by rewrite H. Qed.

(** ** Bindings *)

Section bindings.
Context (selectorMatches : LabelSelector → gmap string string → result bool).
Context (snap : Snapshot) (claims : gmap string ClassClaim).

Lemma firstAllowing_erase ns rk route rej ls :
  firstAllowing selectorMatches ns rk (eraseRoute route) rej ls = firstAllowing selectorMatches ns rk route rej ls.
Proof. revert rej. induction ls as [|l ls IH]; intros rej; simpl; [done|]. by rewrite IH. Qed.

Lemma bindParent_erase rk route p :
  bindParent selectorMatches (erase snap) (eraseClaim <$> claims) rk (eraseRoute route) p =
  bindParent selectorMatches snap claims rk route p.
Proof.
  unfold bindParent. destruct (negb _); [done|]. simpl. rewrite lookup_fmap.
  destruct (Gateways snap !! parentGateway rk p) as [gw|]; simpl; [|done]. rewrite lookup_fmap.
  assert (default zeroClaim (eraseClaim <$> claims !! gw_GatewayClassName gw) =
          eraseClaim (default zeroClaim (claims !! gw_GatewayClassName gw))) as ->
    by (by destruct (claims !! gw_GatewayClassName gw)).
  simpl. destruct (negb (cl_Claimed _)); [done|]. destruct (negb (cl_Accepted _)); [done|].
  change (rsyncListeners (eraseGateway gw)) with (rsyncListeners gw).
  case_decide; [done|]. by repeat (case_match; rewrite ?firstAllowing_erase in *; simplify_eq).
Qed.

Lemma bindAll_erase :
  bindAll selectorMatches (erase snap) (eraseClaim <$> claims) = bindAll selectorMatches snap claims.
Proof.
  apply map_eq. intros k. unfold bindAll. rewrite !map_lookup_imap. simpl. rewrite lookup_fmap.
  destruct (RsyncRoutes snap !! k) as [r|]; simpl; [|done]. f_equal. apply map_ext. intros p.
  apply bindParent_erase.
Qed.

Lemma creationTime_erase k : creationTime (erase snap) k = creationTime snap k.
Proof. unfold creationTime. simpl. rewrite lookup_fmap. by destruct (RsyncRoutes snap !! k). Qed.

Lemma routeModules_erase k : routeModules (erase snap) k = routeModules snap k.
Proof. unfold routeModules. simpl. rewrite lookup_fmap. by destruct (RsyncRoutes snap !! k). Qed.

Lemma sortRoutes_erase l : sortRoutes (erase snap) l = sortRoutes snap l.
Proof.
  apply merge_sort_ext. intros a b. unfold notYounger, routeBefore. by rewrite !creationTime_erase.
Qed.

Lemma conflictLoop_erase g ks owner results :
  conflictLoop (erase snap) g ks owner results = conflictLoop snap g ks owner results.
Proof.
  revert owner results. induction ks as [|k ks IH]; intros owner results; simpl; [done|].
  rewrite routeModules_erase. destruct (findOwner owner _) as [[w m]|]; apply IH.
Qed.

Lemma BindRoutesIn_erase ord :
  BindRoutesIn selectorMatches (erase snap) (eraseClaim <$> claims) ord =
  BindRoutesIn selectorMatches snap claims ord.
Proof.
  unfold BindRoutesIn, resolveModuleConflicts. rewrite bindAll_erase.
  generalize (bindAll selectorMatches snap claims). induction ord as [|[g ks] ord IH]; intros res; simpl; [done|].
  by rewrite sortRoutes_erase, conflictLoop_erase, IH.
Qed.

Lemma rangeOrders_erase ord :
  rangeOrders selectorMatches (erase snap) (eraseClaim <$> claims) ord ↔
  rangeOrders selectorMatches snap claims ord.
Proof. unfold rangeOrders. by rewrite bindAll_erase. Qed.
End bindings.

(** Snapshots that differ in statuses only are bound alike, whatever orders Go chooses. *)
Lemma BindRoutesIn_alike sel a b ord ord' :
  alike a b →
  rangeOrders sel a (ClaimClasses a) ord → rangeOrders sel b (ClaimClasses b) ord' →
  (∀ k r, RsyncRoutes a !! k = Some r → slashFree (nn_Namespace k)) →
  BindRoutesIn sel b (ClaimClasses b) ord' = BindRoutesIn sel a (ClaimClasses a) ord.
Proof.
  intros H Ha Hb Hs. rewrite <- (BindRoutesIn_erase sel b), <- ClaimClasses_erase, <- H, ClaimClasses_erase,
    BindRoutesIn_erase.
  rewrite <- rangeOrders_erase, <- ClaimClasses_erase, <- H, ClaimClasses_erase, rangeOrders_erase in Hb.
  by rewrite (order_irrelevant sel a (ClaimClasses a) ord'), (order_irrelevant sel a (ClaimClasses a) ord).
Qed.

(** ** Backends *)

Lemma ResolveBackends_alike a b k r r' :
  alike a b → eraseRoute r' = eraseRoute r → ResolveBackends b k r' = ResolveBackends a k r.
Proof.
  intros H Hr. unfold alike in H. apply (f_equal r_Spec) in Hr. simpl in Hr.
  change (ResolveBackends b k r') with (ResolveBackends (erase b) k r').
  change (ResolveBackends a k r) with (ResolveBackends (erase a) k r). rewrite <- H.
  unfold ResolveBackends. by rewrite Hr.
Qed.
