(* ===== verification/Convergence.v ===== *)
(** * Reconciling converges

    The status writes of one reconciliation are carried out by the API server
    ([applyEffect]); the next reconciliation sees their result.  With the same outcome of
    applying the table, it writes nothing: the controller does not trigger itself. *)
From S2P Require Import Prelude GoStd Api Snapshot Claim Fixture Bind Backends Conditions Status Controller Erasure.
Open Scope Z_scope.

(** ** The API server *)

Definition setClass (conds : list Condition) (gc : GatewayClass) : GatewayClass :=
  mkGatewayClass (gc_Meta gc) (gc_ControllerName gc) (gc_ParametersRef gc) conds.

(** A write to the status subresource changes the status and nothing else. *)
Definition applyEffect (snap : Snapshot) (e : Effect) : Snapshot :=
  match e with
  | UpdateClass name conds =>
      mkSnapshot (alter (setClass conds) name (GatewayClasses snap)) (GatewayConfigs snap)
        (Gateways snap) (RsyncRoutes snap) (Services snap) (ReferenceGrants snap)
  | UpdateGateway key st =>
      mkSnapshot (GatewayClasses snap) (GatewayConfigs snap)
        (alter (fun gw => withGatewayStatus gw st) key (Gateways snap)) (RsyncRoutes snap)
        (Services snap) (ReferenceGrants snap)
  | UpdateRoute key parents =>
      mkSnapshot (GatewayClasses snap) (GatewayConfigs snap) (Gateways snap)
        (alter (fun r => withParents r parents) key (RsyncRoutes snap)) (Services snap) (ReferenceGrants snap)
  | UpdateConfig name conds =>
      mkSnapshot (GatewayClasses snap) (alter (fun c => withConditions c conds) name (GatewayConfigs snap))
        (Gateways snap) (RsyncRoutes snap) (Services snap) (ReferenceGrants snap)
  | Event _ _ _ => snap
  end.
Definition applyEffects (snap : Snapshot) (es : list Effect) : Snapshot := foldl applyEffect snap es.

Lemma fmap_alter {K A B} `{Countable K} (g : A → B) (f : A → A) (m : gmap K A) k :
  (∀ x, g (f x) = g x) → g <$> alter f k m = g <$> m.
Proof.
  intros Hg. apply map_eq. intros j. rewrite !lookup_fmap. destruct (decide (k = j)) as [->|].
  - rewrite lookup_alter_eq. destruct (m !! j); simpl; [by rewrite Hg|done].
  - by rewrite lookup_alter_ne.
Qed.

Lemma applyEffect_alike snap e : alike (applyEffect snap e) snap.
Proof. unfold alike, erase. destruct e; simpl; [..|done]; f_equal; by apply fmap_alter. Qed.

Lemma applyEffects_alike snap es : alike (applyEffects snap es) snap.
Proof.
  unfold applyEffects. revert snap. induction es as [|e es IH]; intros snap; simpl; [done|].
  etrans; [apply IH|apply applyEffect_alike].
Qed.

(** ** Conditions up to their timestamps *)

Lemma stampedEquiv conds ds clk1 clk2 existing :
  (clockedMap (StableCondition existing) conds clk1).1 = ds →
  condsEquiv ds (clockedMap (StableCondition existing) conds clk2).1.
Proof. intros <-. eapply stamped_content; apply stamp_all. Qed.

Lemma findType_equiv t l k :
  condsEquiv l k → option_Forall2 sameContent (findType t l) (findType t k).
Proof.
  induction 1 as [|a b l k Hab _ IH]; simpl; [constructor|].
  rewrite (c_Type_proper _ _ Hab). case_decide; [by constructor|done].
Qed.

Lemma merge_equiv cur want want' :
  NoDup (map c_Type want) → condsEquiv want want' →
  condsEquiv (MergeConditions cur want) (MergeConditions cur want').
Proof.
  intros Hnd Hw.
  assert (map c_Type want' = map c_Type want) as Ht.
  { clear Hnd. induction Hw as [|a b l k Hab _ IH]; simpl; [done|]. by rewrite (c_Type_proper _ _ Hab), IH. }
  rewrite !MergeConditions_eq by (done || by rewrite Ht). apply Forall2_app.
  - apply Forall2_fmap, Forall_Forall2_diag, Forall_forall. intros c _. unfold replaceIn.
    by destruct (findType_equiv (c_Type c) want want' Hw).
  - clear Hnd Ht. induction Hw as [|a b l k Hab _ IH]; [constructor|]. rewrite !filter_cons.
    rewrite (c_Type_proper _ _ Hab). case_decide; [by constructor|done].
Qed.

Lemma sameContent_withTime c t u : sameContent (withTime c t) (withTime c u).
Proof. done. Qed.

(** At most one condition, of type [t]: the statuses of classes and configurations to
    which nobody else adds conditions. *)
Definition soleType (t : string) (conds : list Condition) : Prop :=
  match conds with [] => True | [c] => c_Type c = t | _ => False end.

Definition oneUpToDate (conds : list Condition) (cond : Condition) : Prop :=
  ∀ clk, ConditionsEqual conds [(StableCondition conds cond clk).1] = true.

Lemma oneUpToDate_iff conds cond clk :
  ConditionsEqual conds [(StableCondition conds cond clk).1] = true ↔ condsEquiv conds [cond].
Proof.
  rewrite ConditionsEqual_iff. destruct (StableCondition_content conds cond clk) as [t ->].
  unfold condsEquiv. split; (intros H; inversion H as [|c d l k Hcd Hk]; subst; inversion Hk; subst;
    constructor; [exact Hcd|constructor]).
Qed.

Lemma oneUpToDate_skip conds cond clk :
  ConditionsEqual conds [(StableCondition conds cond clk).1] = true → oneUpToDate conds cond.
Proof. intros H clk'. apply oneUpToDate_iff. by apply oneUpToDate_iff in H. Qed.

Lemma merge_replaces conds c : soleType (c_Type c) conds → MergeConditions conds [c] = [c].
Proof.
  intros Ho. destruct conds as [|d [|? ?]]; simpl in Ho; try done.
  unfold MergeConditions. simpl. rewrite decide_True by done. simpl. by rewrite bool_decide_true.
Qed.

Lemma oneUpToDate_write conds cond clk :
  soleType (c_Type cond) conds →
  let conds' := MergeConditions conds [(StableCondition conds cond clk).1] in
  oneUpToDate conds' cond ∧ soleType (c_Type cond) conds'.
Proof.
  intros Ho. destruct (StableCondition_content conds cond clk) as [t ->].
  rewrite merge_replaces by done. split; [|done].
  intros clk'. apply oneUpToDate_iff. by constructor; [|constructor].
Qed.

(** ** Gateways and routes that need no write *)

Definition gatewayUpToDate (ports : list Z) (gw : Gateway) : Prop :=
  ∀ clk, let desired := (BuildGatewayStatus gw ports clk).1 in
    ConditionsEqual (gw_StatusConditions gw) (gs_Conditions desired)
    && ListenerStatusesEqual (gw_StatusListeners gw) (gs_Listeners desired) = true.

Definition listenerEquiv (a b : ListenerStatus) : Prop :=
  lst_Name a = lst_Name b ∧ lst_AttachedRoutes a = lst_AttachedRoutes b ∧
  routeGroupKindsEqual (lst_SupportedKinds a) (lst_SupportedKinds b) = true ∧
  condsEquiv (lst_Conditions a) (lst_Conditions b).

Lemma ListenerStatusesEqual_iff a b : ListenerStatusesEqual a b = true ↔ Forall2 listenerEquiv a b.
Proof.
  unfold ListenerStatusesEqual. rewrite listEqual_Forall2.
  split; intros H; apply (Forall2_impl _ _ _ _ H); intros x y; unfold listenerEquiv;
    rewrite !andb_true_iff, bool_decide_eq_true, Z.eqb_eq, ConditionsEqual_iff; tauto.
Qed.

Lemma listEqual_trans {A} (eq : A → A → bool) l1 l2 l3 :
  (∀ a b c, eq a b = true → eq b c = true → eq a c = true) →
  listEqual eq l1 l2 = true → listEqual eq l2 l3 = true → listEqual eq l1 l3 = true.
Proof. rewrite !listEqual_Forall2. intros Ht H1 H2. by eapply (Forall2_trans _ _ _ _ _ _ Ht). Qed.

Lemma routeGroupKindsEqual_trans a b c :
  routeGroupKindsEqual a b = true → routeGroupKindsEqual b c = true → routeGroupKindsEqual a c = true.
Proof.
  apply listEqual_trans. intros x y z. rewrite !andb_true_iff, !bool_decide_eq_true.
  intros [-> ->] [-> ->]. done.
Qed.

#[export] Instance listenerEquiv_trans : Transitive listenerEquiv.
Proof.
  intros a b c (H1 & H2 & H3 & H4) (G1 & G2 & G3 & G4). split_and!; [congruence..| |by etrans].
  by eapply routeGroupKindsEqual_trans.
Qed.

Lemma routeGroupKindsEqual_refl l : routeGroupKindsEqual l l = true.
Proof. apply listEqual_refl. intros a. by rewrite !bool_decide_true. Qed.

#[export] Instance listenerEquiv_refl : Reflexive listenerEquiv.
Proof. intros a. split_and!; [done..|apply routeGroupKindsEqual_refl|done]. Qed.

(** The content of a desired status does not depend on the clock. *)
Lemma gatewayStatus_clock gw ports clk clk' :
  condsEquiv (gs_Conditions (BuildGatewayStatus gw ports clk).1)
    (gs_Conditions (BuildGatewayStatus gw ports clk').1) ∧
  Forall2 listenerEquiv (gs_Listeners (BuildGatewayStatus gw ports clk).1)
    (gs_Listeners (BuildGatewayStatus gw ports clk').1).
Proof.
  destruct (BuildGatewayStatus_eq gw ports clk) as (ours & conds & -> & H1 & H2).
  destruct (BuildGatewayStatus_eq gw ports clk') as (ours' & conds' & -> & H1' & H2'). simpl. split.
  - apply merge_equiv; [|by eapply stamped_content]. rewrite (stamped_types _ _ H2). apply twoTypes_NoDup.
  - apply Forall2_app; [by apply Forall_Forall2_diag, Forall_forall|].
    clear -H1 H1'. revert ours' H1'.
    induction H1 as [|l ls lrest rest (E1 & E2 & E3 & E4) _ IH]; intros ours' H1';
      inversion H1' as [|? ls' ? ? (F1 & F2 & F3 & F4)]; subst; constructor; [|by apply IH].
    split_and!; [congruence..| |by eapply stamped_content]. rewrite E2, F2. apply routeGroupKindsEqual_refl.
Qed.

Lemma gateway_skipped gw ports clk :
  (let desired := (BuildGatewayStatus gw ports clk).1 in
   ConditionsEqual (gw_StatusConditions gw) (gs_Conditions desired)
   && ListenerStatusesEqual (gw_StatusListeners gw) (gs_Listeners desired) = true) →
  gatewayUpToDate ports gw.
Proof.
  intros H clk'. simpl in *. rewrite andb_true_iff, ConditionsEqual_iff, ListenerStatusesEqual_iff in H |- *.
  destruct H as [H1 H2]. destruct (gatewayStatus_clock gw ports clk clk') as [G1 G2].
  split; by etrans.
Qed.

Lemma gateway_written gw ports clk :
  NoDup (map l_Name (gw_Listeners gw)) →
  gatewayUpToDate ports (withGatewayStatus gw (BuildGatewayStatus gw ports clk).1).
Proof.
  intros Hnd clk'. pose proof (gatewayStatus_again gw ports clk Hnd clk') as E. simpl in E.
  rewrite E. simpl. rewrite andb_true_iff, ConditionsEqual_iff, ListenerStatusesEqual_iff. split; [done|].
  by apply Forall_Forall2_diag, Forall_forall.
Qed.

Definition routeUpToDate (results : list ParentResult) (backends : BackendStatus) (r : RsyncRoute) : Prop :=
  ∀ clk, ParentStatusesEqual (r_StatusParents r) (BuildRouteStatus r results backends clk).1 = true.

Lemma ParentStatusesEqual_trans a b c :
  ParentStatusesEqual a b = true → ParentStatusesEqual b c = true → ParentStatusesEqual a c = true.
Proof.
  apply listEqual_trans. intros x y z. unfold parentRefsEqual.
  rewrite !andb_true_iff, !bool_decide_eq_true, !ConditionsEqual_iff.
  intros [[-> ->] H1] [[-> ->] H2]. split; [done|]. by etrans.
Qed.

Lemma routeStatus_clock r results backends clk clk' :
  ParentStatusesEqual (BuildRouteStatus r results backends clk).1 (BuildRouteStatus r results backends clk').1 = true.
Proof.
  destruct (BuildRouteStatus_eq r results backends clk) as (ours & -> & H).
  destruct (BuildRouteStatus_eq r results backends clk') as (ours' & -> & H'). apply listEqual_app.
  - apply listEqual_refl. intros p. unfold parentRefsEqual. by rewrite !bool_decide_true, ConditionsEqual_refl.
  - apply listEqual_Forall2. revert ours' H'.
    induction H as [|res p results ours (E1 & E2 & E3) _ IH]; intros ours' H';
      inversion H' as [|? p' ? ? (F1 & F2 & F3)]; subst; constructor; [|by apply IH].
    rewrite !andb_true_iff. unfold parentRefsEqual. rewrite E1, E2, F1, F2, !bool_decide_true by done.
    split; [done|]. apply ConditionsEqual_iff. by eapply stamped_content.
Qed.

Lemma route_skipped r results backends clk :
  ParentStatusesEqual (r_StatusParents r) (BuildRouteStatus r results backends clk).1 = true →
  routeUpToDate results backends r.
Proof. intros H clk'. eapply ParentStatusesEqual_trans; [exact H|apply routeStatus_clock]. Qed.

Lemma route_written r results backends clk :
  routeUpToDate results backends (withParents r (BuildRouteStatus r results backends clk).1).
Proof. intros clk'. apply routeStatus_again. Qed.

(** ** One round of writes *)

(** The maps of a snapshot whose objects are written one by one. *)
Record Lens (K A : Type) `{Countable K} := mkLens {
  lget : Snapshot → gmap K A;
  lput : gmap K A → Snapshot → Snapshot;
  lget_put m s : lget (lput m s) = m;
  lput_get s : lput (lget s) s = s;
  lput_put m m' s : lput m (lput m' s) = lput m s }.
Arguments lget {K A _ _}.
Arguments lput {K A _ _}.
Arguments lget_put {K A _ _}.
Arguments lput_get {K A _ _}.
Arguments lput_put {K A _ _}.

Definition putClasses (m : gmap string GatewayClass) (s : Snapshot) : Snapshot :=
  mkSnapshot m (GatewayConfigs s) (Gateways s) (RsyncRoutes s) (Services s) (ReferenceGrants s).
Definition putConfigs (m : gmap string GatewayConfig) (s : Snapshot) : Snapshot :=
  mkSnapshot (GatewayClasses s) m (Gateways s) (RsyncRoutes s) (Services s) (ReferenceGrants s).
Definition putGateways (m : gmap NamespacedName Gateway) (s : Snapshot) : Snapshot :=
  mkSnapshot (GatewayClasses s) (GatewayConfigs s) m (RsyncRoutes s) (Services s) (ReferenceGrants s).
Definition putRoutes (m : gmap NamespacedName RsyncRoute) (s : Snapshot) : Snapshot :=
  mkSnapshot (GatewayClasses s) (GatewayConfigs s) (Gateways s) m (Services s) (ReferenceGrants s).

Program Definition classes : Lens string GatewayClass := mkLens _ _ _ _ GatewayClasses putClasses _ _ _.
Solve All Obligations with by repeat intros [].
Program Definition gateways : Lens NamespacedName Gateway := mkLens _ _ _ _ Gateways putGateways _ _ _.
Solve All Obligations with by repeat intros [].
Program Definition routes : Lens NamespacedName RsyncRoute := mkLens _ _ _ _ RsyncRoutes putRoutes _ _ _.
Solve All Obligations with by repeat intros [].

Section round.
Context (snap : Snapshot).

(** What the API server has after the writes so far. *)
Definition cur (st : WState) : Snapshot := applyEffects snap (ws_log st).

(** One step of a loop: object [x] under [k] becomes [x'], nothing else changes. *)
Definition stepsTo {K A} `{Countable K} (L : Lens K A) (k : K) (x' : A) (st st' : WState) : Prop :=
  ws_configs st' = ws_configs st ∧ cur st' = lput L (<[k := x']> (lget L (cur st))) (cur st).

Lemma loop_steps {K A} `{Countable K} (L : Lens K A) (f : K * A → Wr unit) (Ok Good : K → A → Prop) l st :
  (∀ k x st, lget L (cur st) !! k = Some x → Ok k x →
     ∃ st' x', f (k, x) st = (Ret tt, st') ∧ stepsTo L k x' st st' ∧ Good k x') →
  NoDup (map fst l) → (∀ k x, (k, x) ∈ l → lget L (cur st) !! k = Some x ∧ Ok k x) →
  ∃ st' m, wrEach f l st = (Ret tt, st') ∧ ws_configs st' = ws_configs st ∧ cur st' = lput L m (cur st) ∧
    (∀ k x, (k, x) ∈ l → ∃ x', m !! k = Some x' ∧ Good k x') ∧
    (∀ k, k ∉ map fst l → m !! k = lget L (cur st) !! k).
Proof.
  intros Hf. revert st. induction l as [|[k x] l IH]; intros st Hnd Hl; simpl.
  { exists st, (lget L (cur st)). rewrite lput_get. split_and!; try done. intros k x Hin. elem_nil. }
  apply NoDup_cons in Hnd as [Hk Hnd]. destruct (Hl k x) as [Hx Hok]; [by left|].
  destruct (Hf k x st Hx Hok) as (st1 & x1 & E1 & [Hc1 Hs1] & Hg1).
  destruct (IH st1) as (st2 & m & E2 & Hc2 & Hs2 & Hg & Hn); [done|..].
  { intros k' x' Hin. destruct (Hl k' x') as [Hx' Hok']; [by right|]. split; [|done].
    rewrite Hs1, lget_put, lookup_insert_ne; [done|]. intros <-. apply Hk, list_elem_of_fmap.
    by exists (k, x'). }
  exists st2, m. split_and!.
  - unfold mbind, Wr_bind. by rewrite E1.
  - congruence.
  - by rewrite Hs2, Hs1, lput_put.
  - intros k' x' [[= -> ->]|Hin]%elem_of_cons; [|by eauto]. exists x1. split; [|done].
    rewrite Hn by done. by rewrite Hs1, lget_put, lookup_insert_eq.
  - intros k' Hk'. apply not_elem_of_cons in Hk' as [Hne Hk']. rewrite Hn by done.
    by rewrite Hs1, lget_put, lookup_insert_ne.
Qed.

(** A loop over a whole map. *)
Lemma loop_all {K A} `{Countable K} (L : Lens K A) (f : K * A → Wr unit) (Ok Good : K → A → Prop) l st :
  (∀ k x st, lget L (cur st) !! k = Some x → Ok k x →
     ∃ st' x', f (k, x) st = (Ret tt, st') ∧ stepsTo L k x' st st' ∧ Good k x') →
  l ≡ₚ map_to_list (lget L (cur st)) → (∀ k x, lget L (cur st) !! k = Some x → Ok k x) →
  ∃ st' m, wrEach f l st = (Ret tt, st') ∧ ws_configs st' = ws_configs st ∧ cur st' = lput L m (cur st) ∧
    (∀ k x, m !! k = Some x → Good k x).
Proof.
  intros Hf Hl Hok. destruct (loop_steps L f Ok Good l st Hf) as (st' & m & E & Hc & Hs & Hg & Hn).
  - rewrite (Permutation_map fst Hl). apply NoDup_fst_map_to_list.
  - intros k x Hin. rewrite Hl, elem_of_map_to_list in Hin. auto.
  - exists st', m. split_and!; try done. intros k x Hk.
    destruct (lget L (cur st) !! k) as [y|] eqn:Ey.
    + destruct (Hg k y) as (x' & Hx' & Hgood); [by rewrite Hl, elem_of_map_to_list|]. congruence.
    + rewrite Hn in Hk; [congruence|]. intros Hin. apply list_elem_of_fmap in Hin as ([k' y] & -> & Hin).
      rewrite Hl, elem_of_map_to_list in Hin. simpl in Ey. congruence.
Qed.
End round.

(** ** The writers, when the API server accepts every write *)

Definition accepts (_ : Effect) : option APIError := None.

Section writers.
Context (snap : Snapshot) (claims : gmap string ClassClaim).
Context (results : gmap NamespacedName (list ParentResult)) (ports : list Z) (recorder : bool).
Context (applyErr : option error).

(** Objects whose next check finds nothing to write. *)
Definition goodClass (n : string) (gc : GatewayClass) : Prop :=
  ∀ cond, ClassCondition gc (default zeroClaim (claims !! n)) = Some cond →
    oneUpToDate (gc_StatusConditions gc) cond.
Definition goodGateway (k : NamespacedName) (gw : Gateway) : Prop :=
  managed claims gw = true → gatewayUpToDate ports gw.
Definition goodRoute (k : NamespacedName) (r : RsyncRoute) : Prop :=
  ∀ pp, results !! k = Some pp → routeUpToDate pp (routeBackends snap k r pp) r.
Definition goodConfig (c : GatewayConfig) : Prop :=
  oneUpToDate (cfg_StatusConditions c) (configCondition applyErr c).

Lemma cur_log st clk l c : cur snap (mkWState clk (ws_log st ++ l) c) = applyEffects (cur snap st) l.
Proof. unfold cur, applyEffects. simpl. by rewrite foldl_app. Qed.

Lemma insert_self {K A} `{Countable K} (m : gmap K A) k x : m !! k = Some x → <[k := x]> m = m.
Proof. apply insert_id. Qed.

Lemma alter_Some {K A} `{Countable K} (f : A → A) (m : gmap K A) k x :
  m !! k = Some x → alter f k m = <[k := f x]> m.
Proof.
  intros Hx. apply map_eq. intros j. destruct (decide (k = j)) as [<-|].
  - by rewrite lookup_alter_eq, lookup_insert_eq, Hx.
  - by rewrite lookup_alter_ne, lookup_insert_ne.
Qed.

(** A step that writes nothing. *)
Lemma stepsTo_stay {K A} `{Countable K} (L : Lens K A) k x st clk :
  lget L (cur snap st) !! k = Some x →
  stepsTo snap L k x st (mkWState clk (ws_log st) (ws_configs st)).
Proof.
  intros Hx. split; [done|]. rewrite insert_self by done.
  change (cur snap (mkWState clk (ws_log st) (ws_configs st))) with (cur snap st). by rewrite lput_get.
Qed.

Lemma writeClass_steps n gc st :
  GatewayClasses (cur snap st) !! n = Some gc → soleType ConditionAccepted (gc_StatusConditions gc) →
  ∃ st' gc', writeClass accepts claims (n, gc) st = (Ret tt, st') ∧
    stepsTo snap classes n gc' st st' ∧ goodClass n gc'.
Proof.
  intros Hn Hs. unfold writeClass. destruct (ClassCondition gc _) as [cond|] eqn:Ec.
  2: { exists st, gc. destruct st. split_and!; [done|by apply (stepsTo_stay classes)|]. intros c' E. congruence. }
  assert (c_Type cond = ConditionAccepted) as Ht.
  { unfold ClassCondition in Ec. destruct (negb _); [done|]. by injection Ec as <-. }
  unfold mbind, Wr_bind, wrClock.
  destruct (StableCondition (gc_StatusConditions gc) cond (ws_clock st)) as [stable clk] eqn:Es.
  assert ((StableCondition (gc_StatusConditions gc) cond (ws_clock st)).1 = stable) as E1 by by rewrite Es.
  destruct (ConditionsEqual _ _) eqn:Eq; simpl.
  - exists (mkWState clk (ws_log st) (ws_configs st)), gc. split_and!; [done|by apply (stepsTo_stay classes)|].
    intros c' E. rewrite Ec in E. injection E as <-. eapply oneUpToDate_skip. by rewrite E1.
  - eexists _, (setClass (MergeConditions (gc_StatusConditions gc) [stable]) gc). split_and!; [done|split; [done|]|].
    + rewrite cur_log. simpl. unfold putClasses. by rewrite (alter_Some _ _ _ _ Hn).
    + intros c' E. change (ClassCondition gc (default zeroClaim (claims !! n)) = Some c') in E.
      assert (c' = cond) as -> by congruence. rewrite <- E1.
      apply oneUpToDate_write. by rewrite Ht.
Qed.

Lemma writeGateway_steps k gw st :
  Gateways (cur snap st) !! k = Some gw → NoDup (map l_Name (gw_Listeners gw)) →
  ∃ st' gw', writeGateway accepts claims ports (k, gw) st = (Ret tt, st') ∧
    stepsTo snap gateways k gw' st st' ∧ goodGateway k gw'.
Proof.
  intros Hk Hnd. unfold writeGateway, goodGateway, managed.
  destruct (claims !! gw_GatewayClassName gw) as [claim|] eqn:Ec.
  2: { exists st, gw. destruct st. split_and!; [done|by apply (stepsTo_stay gateways)|]. by rewrite Ec. }
  destruct (negb (cl_Claimed claim) || negb (cl_Accepted claim)) eqn:Em.
  { exists st, gw. destruct st. split_and!; [done|by apply (stepsTo_stay gateways)|]. rewrite Ec.
    intros [H1 H2]%andb_true_iff. by rewrite H1, H2 in Em. }
  unfold mbind, Wr_bind, wrClock.
  destruct (BuildGatewayStatus gw ports (ws_clock st)) as [desired clk] eqn:Es.
  assert ((BuildGatewayStatus gw ports (ws_clock st)).1 = desired) as E1 by by rewrite Es.
  destruct (ConditionsEqual _ _ && _) eqn:Eq; simpl.
  - exists (mkWState clk (ws_log st) (ws_configs st)), gw. split_and!; [done|by apply (stepsTo_stay gateways)|].
    intros _. apply (gateway_skipped gw ports (ws_clock st)). simpl. by rewrite E1.
  - eexists _, (withGatewayStatus gw desired). split_and!; [done|split; [done|]|].
    + rewrite cur_log. simpl. unfold putGateways. by rewrite (alter_Some _ _ _ _ Hk).
    + intros _. rewrite <- E1. by apply gateway_written.
Qed.

(** Events change nothing in the cluster. *)
Lemma emitRouteEvents_steps k old i pp st :
  ∃ st', emitRouteEvents recorder k old i pp st = (Ret tt, st') ∧
    ws_configs st' = ws_configs st ∧ cur snap st' = cur snap st.
Proof.
  revert i st. induction pp as [|res pp IH]; intros i st; simpl; destruct (negb recorder); try by exists st.
  unfold mbind, Wr_bind. destruct (if res_Accepted res then false else _).
  - simpl. destruct (IH (S i) (mkWState (ws_clock st) (ws_log st ++ [Event k (res_Reason res)
      ("parent " +:+ quote (ParentRefString (res_ParentRef res)) +:+ ": " +:+ res_Message res)]) (ws_configs st)))
      as (st' & E & Hc & Hs).
    exists st'. split; [exact E|]. split; [exact Hc|]. rewrite Hs, cur_log. done.
  - apply IH.
Qed.

Lemma writeRoute_steps k r st :
  RsyncRoutes (cur snap st) !! k = Some r →
  ∃ st' r', writeRoute accepts recorder snap results (k, r) st = (Ret tt, st') ∧
    stepsTo snap routes k r' st st' ∧ goodRoute k r'.
Proof.
  intros Hk. unfold writeRoute, goodRoute. destruct (results !! k) as [pp|] eqn:Ep.
  2: { exists st, r. destruct st. split_and!; [done|by apply (stepsTo_stay routes)|done]. }
  unfold mbind at 1, Wr_bind at 1, wrClock.
  destruct (BuildRouteStatus r pp (routeBackends snap k r pp) (ws_clock st)) as [desired clk] eqn:Es.
  assert ((BuildRouteStatus r pp (routeBackends snap k r pp) (ws_clock st)).1 = desired) as E1 by by rewrite Es.
  destruct (ParentStatusesEqual _ _) eqn:Eq.
  - exists (mkWState clk (ws_log st) (ws_configs st)), r. split_and!; [done|by apply (stepsTo_stay routes)|].
    intros pp' [= <-]. apply (route_skipped r pp _ (ws_clock st)). by rewrite E1.
  - set (st1 := mkWState clk (ws_log st ++ [UpdateRoute k desired]) (ws_configs st)).
    destruct (emitRouteEvents_steps k (FindParentConditions (r_StatusParents r) pp) 0 pp st1)
      as (st' & E & Hc & Hs).
    exists st', (withParents r desired). split_and!; [exact E|split; [exact Hc|]|].
    + rewrite Hs. unfold st1. rewrite cur_log. simpl. unfold putRoutes. by rewrite (alter_Some _ _ _ _ Hk).
    + intros pp' [= <-]. rewrite <- E1. apply route_written.
Qed.

(** The configurations: several claims may share one. *)
Definition configsInStep (st : WState) : Prop := GatewayConfigs (cur snap st) = ws_configs st.

Definition soleConfigs (st : WState) : Prop :=
  ∀ n c, ws_configs st !! n = Some c → soleType ConditionAccepted (cfg_StatusConditions c).

(** The configuration of a claim. *)
Definition configOf (claim : ClassClaim) : option string :=
  if cl_Claimed claim then (fun c => om_Name (cfg_Meta c)) <$> cl_Config claim else None.

Definition configGood (st : WState) (n : string) : Prop := ∀ c, ws_configs st !! n = Some c → goodConfig c.

Lemma configCondition_type c : c_Type (configCondition applyErr c) = ConditionAccepted.
Proof. unfold configCondition. by destruct applyErr. Qed.

Lemma configCondition_with c conds :
  configCondition applyErr (withConditions c conds) = configCondition applyErr c.
Proof. done. Qed.

Lemma writeConfig_steps claim st :
  configsInStep st → soleConfigs st →
  ∃ st', writeConfig accepts applyErr claim st = (Ret tt, st') ∧
    configsInStep st' ∧ soleConfigs st' ∧ cur snap st' = putConfigs (ws_configs st') (cur snap st) ∧
    (∀ n, configGood st n → configGood st' n) ∧ (∀ n, configOf claim = Some n → configGood st' n).
Proof.
  intros Hin Hsole. unfold writeConfig, configOf.
  assert (∀ clk, cur snap (mkWState clk (ws_log st) (ws_configs st)) =
                 putConfigs (ws_configs st) (cur snap st)) as Hstay.
  { intros clk. change (cur snap (mkWState clk (ws_log st) (ws_configs st))) with (cur snap st).
    rewrite <- Hin. by destruct (cur snap st). }
  destruct (cl_Claimed claim); simpl.
  2: { exists st. split_and!; try done. specialize (Hstay (ws_clock st)). by destruct st. }
  destruct (cl_Config claim) as [cc|]; simpl.
  2: { exists st. split_and!; try done. specialize (Hstay (ws_clock st)). by destruct st. }
  set (n := om_Name (cfg_Meta cc)). unfold mbind, Wr_bind, wrConfigs, wrClock. simpl.
  destruct (ws_configs st !! n) as [c|] eqn:En; simpl.
  2: { exists st. split_and!; try done. { specialize (Hstay (ws_clock st)). by destruct st. }
       intros n' [= <-] c Hc. congruence. }
  destruct (StableCondition (cfg_StatusConditions c) (configCondition applyErr c) (ws_clock st)) as [cond clk] eqn:Es.
  assert ((StableCondition (cfg_StatusConditions c) (configCondition applyErr c) (ws_clock st)).1 = cond) as E1
    by by rewrite Es.
  destruct (ConditionsEqual _ _) eqn:Eq; simpl.
  - eexists. split; [reflexivity|]. split_and!; try done. intros n' [= <-] c' Hc'.
    assert (c' = c) as -> by (simpl in Hc'; fold n in Hc'; congruence).
    apply (oneUpToDate_skip _ _ (ws_clock st)). by rewrite E1.
  - eexists. split; [reflexivity|].
    destruct (oneUpToDate_write (cfg_StatusConditions c) (configCondition applyErr c) (ws_clock st)) as [Hg Hs].
    { rewrite configCondition_type. by apply (Hsole n). }
    rewrite E1 in Hg, Hs. set (conds := MergeConditions (cfg_StatusConditions c) [cond]) in *.
    assert (cur snap (mkWState clk (ws_log st ++ [UpdateConfig n conds]) (<[n := withConditions c conds]> (ws_configs st)))
            = putConfigs (<[n := withConditions c conds]> (ws_configs st)) (cur snap st)) as Hcur.
    { rewrite cur_log. simpl. unfold putConfigs. rewrite Hin. by rewrite (alter_Some _ _ _ _ En). }
    split_and!.
    + unfold configsInStep. rewrite Hcur. done.
    + intros n' c'. simpl. rewrite lookup_insert_Some. intros [[<- <-]|[_ Hc']]; [|by apply (Hsole n')].
      by rewrite configCondition_type in Hs.
    + exact Hcur.
    + intros n' Hn' c'. simpl. rewrite lookup_insert_Some. intros [[<- <-]|[_ Hc']]; [done|by apply Hn'].
    + intros n' [= <-] c'. simpl. rewrite lookup_insert_eq. by intros [= <-].
Qed.

Lemma configs_loop cls st :
  configsInStep st → soleConfigs st →
  ∃ st', wrEach (writeConfig accepts applyErr) cls st = (Ret tt, st') ∧
    configsInStep st' ∧ soleConfigs st' ∧ cur snap st' = putConfigs (ws_configs st') (cur snap st) ∧
    (∀ n, configGood st n → configGood st' n) ∧
    (∀ claim n, claim ∈ cls → configOf claim = Some n → configGood st' n).
Proof.
  revert st. induction cls as [|claim cls IH]; intros st Hin Hsole; simpl.
  { exists st. split_and!; try done; [|intros ? ? H; elem_nil]. rewrite <- Hin. by destruct (cur snap st). }
  destruct (writeConfig_steps claim st Hin Hsole) as (st1 & E1 & Hin1 & Hs1 & Hc1 & Hp1 & Hg1).
  destruct (IH st1 Hin1 Hs1) as (st2 & E2 & Hin2 & Hs2 & Hc2 & Hp2 & Hg2).
  exists st2. split_and!; try done.
  - unfold mbind, Wr_bind. by rewrite E1.
  - rewrite Hc2, Hc1. done.
  - auto.
  - intros cl n [->|Hcl]%elem_of_cons Hn; [by apply Hp2, Hg1|by eapply Hg2].
Qed.

(** *** The next round is silent *)

Context (apiUpdate : Effect → option APIError).

Definition quiet (configs : gmap string GatewayConfig) (m : Wr unit) : Prop :=
  ∀ st, ws_configs st = configs → ∃ clk, m st = (Ret tt, mkWState clk (ws_log st) configs).

Lemma quiet_ret configs : quiet configs (mret tt).
Proof. intros [clk l c] <-. by exists clk. Qed.

Lemma quiet_each {A} configs (f : A → Wr unit) l : (∀ x, x ∈ l → quiet configs (f x)) → quiet configs (wrEach f l).
Proof.
  induction l as [|x l IH]; intros Hf; [apply quiet_ret|]. intros st Hst.
  destruct (Hf x (list_elem_of_here _ _) st Hst) as [clk E]. simpl. unfold mbind, Wr_bind. rewrite E.
  destruct (IH (fun y Hy => Hf y (list_elem_of_further _ _ _ Hy)) (mkWState clk (ws_log st) configs) eq_refl)
    as [clk' E']. by exists clk'.
Qed.

Lemma quiet_bind configs (m n : Wr unit) : quiet configs m → quiet configs n → quiet configs (m ≫= fun _ => n).
Proof.
  intros Hm Hn st Hst. destruct (Hm st Hst) as [clk E]. unfold mbind, Wr_bind. rewrite E.
  destruct (Hn (mkWState clk (ws_log st) configs) eq_refl) as [clk' E']. by exists clk'.
Qed.

Lemma writeClass_quiet configs n gc : goodClass n gc → quiet configs (writeClass apiUpdate claims (n, gc)).
Proof.
  intros Hg st <-. unfold writeClass. destruct (ClassCondition gc _) as [cond|] eqn:Ec.
  2: { destruct st as [clk l c]. by exists clk. }
  specialize (Hg cond Ec (ws_clock st)). unfold mbind, Wr_bind, wrClock.
  destruct (StableCondition (gc_StatusConditions gc) cond (ws_clock st)) as [stable clk]. simpl in Hg.
  rewrite Hg. by exists clk.
Qed.

Lemma writeGateway_quiet configs k gw : goodGateway k gw → quiet configs (writeGateway apiUpdate claims ports (k, gw)).
Proof.
  intros Hg st <-. unfold writeGateway. unfold goodGateway, managed in Hg.
  destruct (claims !! gw_GatewayClassName gw) as [claim|]; [|destruct st as [clk l c]; by exists clk].
  destruct (negb (cl_Claimed claim) || negb (cl_Accepted claim)) eqn:Em; [destruct st as [clk l c]; by exists clk|].
  apply orb_false_iff in Em as [H1%negb_false_iff H2%negb_false_iff].
  assert (Hu : gatewayUpToDate ports gw) by (apply Hg; by rewrite H1, H2).
  specialize (Hu (ws_clock st)). unfold mbind, Wr_bind, wrClock.
  destruct (BuildGatewayStatus gw ports (ws_clock st)) as [desired clk]. simpl in Hu. rewrite Hu. by exists clk.
Qed.

Lemma writeRoute_quiet configs k r : goodRoute k r → quiet configs (writeRoute apiUpdate recorder snap results (k, r)).
Proof.
  intros Hg st <-. unfold writeRoute. destruct (results !! k) as [pp|] eqn:Ep; [|destruct st as [clk l c]; by exists clk].
  specialize (Hg pp Ep (ws_clock st)). unfold mbind at 1, Wr_bind at 1, wrClock.
  destruct (BuildRouteStatus r pp (routeBackends snap k r pp) (ws_clock st)) as [desired clk]. simpl in Hg.
  rewrite Hg. by exists clk.
Qed.

Lemma writeConfig_quiet configs claim :
  (∀ n c, configOf claim = Some n → configs !! n = Some c → goodConfig c) →
  quiet configs (writeConfig apiUpdate applyErr claim).
Proof.
  intros Hg st <-. unfold writeConfig. unfold configOf in Hg.
  destruct (cl_Claimed claim); simpl; [|destruct st as [clk l c]; by exists clk].
  destruct (cl_Config claim) as [cc|]; simpl in *; [|destruct st as [clk l c]; by exists clk].
  unfold mbind, Wr_bind, wrConfigs, wrClock. simpl.
  destruct (ws_configs st !! om_Name (cfg_Meta cc)) as [c|] eqn:Ec; [|destruct st as [clk l k]; by exists clk].
  specialize (Hg _ c eq_refl Ec (ws_clock st)).
  destruct (StableCondition (cfg_StatusConditions c) (configCondition applyErr c) (ws_clock st)) as [cond clk].
  simpl in Hg. rewrite Hg. by exists clk.
Qed.
End writers.

(** ** Claims of snapshots that are alike *)

Section claims_alike.
Context (a b : Snapshot) (Hab : alike a b).

Lemma claims_alike n claim :
  ClaimClasses b !! n = Some claim →
  ∃ claim', ClaimClasses a !! n = Some claim' ∧ eraseClaim claim' = eraseClaim claim.
Proof using Hab.
  intros H. pose proof (ClaimClasses_alike a b n Hab) as E. rewrite H in E.
  destruct (ClaimClasses a !! n) as [claim'|]; [|done]. exists claim'. split; [done|].
  exact (inj Some _ _ E).
Qed.

Lemma claim_alike n :
  eraseClaim (default zeroClaim (ClaimClasses b !! n)) = eraseClaim (default zeroClaim (ClaimClasses a !! n)).
Proof using Hab.
  pose proof (f_equal (default (eraseClaim zeroClaim)) (ClaimClasses_alike a b n Hab)) as E.
  by destruct (ClaimClasses a !! n), (ClaimClasses b !! n).
Qed.

Lemma ClassCondition_erase gc claim : ClassCondition gc claim = ClassCondition gc (eraseClaim claim).
Proof. done. Qed.

Lemma goodClass_alike n gc : goodClass (ClaimClasses a) n gc → goodClass (ClaimClasses b) n gc.
Proof using Hab.
  intros Hg cond. rewrite ClassCondition_erase, claim_alike, <- ClassCondition_erase. apply Hg.
Qed.

Lemma managed_alike gw : managed (ClaimClasses b) gw = managed (ClaimClasses a) gw.
Proof using Hab.
  unfold managed. pose proof (ClaimClasses_alike a b (gw_GatewayClassName gw) Hab) as E.
  destruct (ClaimClasses a !! _) as [c|], (ClaimClasses b !! _) as [d|]; try done. simpl in E.
  injection E as E1 E2 E3 E4 E5. by rewrite E2, E3.
Qed.

Lemma configOf_alike c d : eraseClaim c = eraseClaim d → configOf c = configOf d.
Proof.
  intros E. unfold configOf. pose proof (f_equal cl_Claimed E) as E1. pose proof (f_equal cl_Config E) as E2.
  simpl in E1, E2. rewrite E1. destruct (cl_Claimed d); [|done].
  destruct (cl_Config c), (cl_Config d); simplify_eq/=; congruence.
Qed.

Lemma routeBackends_alike k r pp : routeBackends b k r pp = routeBackends a k r pp.
Proof using Hab. unfold routeBackends. by rewrite (ResolveBackends_alike a b k r r). Qed.
End claims_alike.

(** ** The theorem *)

(** The orders Go may choose in [writeStatuses]. *)
Record validOrders (snap : Snapshot) (claims : gmap string ClassClaim) (ord : Orders) : Prop := {
  vo_classes : ord_classes ord ≡ₚ map_to_list (GatewayClasses snap);
  vo_gateways : ord_gateways ord ≡ₚ map_to_list (Gateways snap);
  vo_routes : ord_routes ord ≡ₚ map_to_list (RsyncRoutes snap);
  vo_claims : ord_claims ord ≡ₚ map_to_list claims }.

(** What the API guarantees of objects (unique listener names, namespaces without a
    slash), and that nobody else writes conditions on classes and configurations. *)
Record tidy (snap : Snapshot) : Prop := {
  td_listeners k gw : Gateways snap !! k = Some gw → NoDup (map l_Name (gw_Listeners gw));
  td_classes n gc : GatewayClasses snap !! n = Some gc → soleType ConditionAccepted (gc_StatusConditions gc);
  td_configs n c : GatewayConfigs snap !! n = Some c → soleType ConditionAccepted (cfg_StatusConditions c);
  td_routes k r : RsyncRoutes snap !! k = Some r → slashFree (nn_Namespace k) }.

Section converge.
Context (sel : LabelSelector → gmap string string → result bool).
Context (snap : Snapshot) (bindOrd : list (NamespacedName * list NamespacedName)).
Context (bindAddrs : list string) (recorder : bool) (applyErr : option error).

Abbreviation claims := (ClaimClasses snap).
Abbreviation results := (BindRoutesIn sel snap claims bindOrd).
Abbreviation ports := (ServedPorts bindAddrs).

(** After one round everything is up to date. *)
Lemma round_good ord clk :
  tidy snap → validOrders snap claims ord →
  ∃ st, writeStatuses accepts bindAddrs recorder snap claims results applyErr ord
          (mkWState clk [] (GatewayConfigs snap)) = (Ret tt, st) ∧
    let snap' := applyEffects snap (ws_log st) in
    (∀ n gc, GatewayClasses snap' !! n = Some gc → goodClass claims n gc) ∧
    (∀ k gw, Gateways snap' !! k = Some gw → goodGateway claims ports k gw) ∧
    (∀ k r, RsyncRoutes snap' !! k = Some r → goodRoute snap results k r) ∧
    (∀ claim n c, claim ∈ map snd (ord_claims ord) → configOf claim = Some n →
       GatewayConfigs snap' !! n = Some c → goodConfig applyErr c).
Proof.
  intros Ht [Oc Og Or Ok]. set (st0 := mkWState clk [] (GatewayConfigs snap)).
  destruct (loop_all snap classes (writeClass accepts claims)
    (fun _ gc => soleType ConditionAccepted (gc_StatusConditions gc)) (goodClass claims) (ord_classes ord) st0)
    as (st1 & m1 & E1 & C1 & S1 & G1).
  { intros k x st. apply writeClass_steps. } { exact Oc. } { apply (td_classes _ Ht). }
  change (cur snap st0) with snap in S1. change (lput classes m1 snap) with (putClasses m1 snap) in S1.
  destruct (loop_all snap gateways (writeGateway accepts claims ports)
    (fun _ gw => NoDup (map l_Name (gw_Listeners gw))) (goodGateway claims ports) (ord_gateways ord) st1)
    as (st2 & m2 & E2 & C2 & S2 & G2).
  { intros k x st. apply writeGateway_steps. } { by rewrite S1. } { rewrite S1. apply (td_listeners _ Ht). }
  rewrite S1 in S2. change (lput gateways m2 (putClasses m1 snap)) with (putGateways m2 (putClasses m1 snap)) in S2.
  destruct (loop_all snap routes (writeRoute accepts recorder snap results) (fun _ _ => True)
    (goodRoute snap results) (ord_routes ord) st2) as (st3 & m3 & E3 & C3 & S3 & G3).
  { intros k x st Hx _. by apply writeRoute_steps. } { by rewrite S2. } { done. }
  rewrite S2 in S3.
  change (lput routes m3 (putGateways m2 (putClasses m1 snap))) with
    (putRoutes m3 (putGateways m2 (putClasses m1 snap))) in S3.
  assert (ws_configs st3 = GatewayConfigs snap) as Hc3 by (rewrite C3, C2, C1; done).
  destruct (configs_loop snap applyErr (map snd (ord_claims ord)) st3) as (st4 & E4 & I4 & _ & S4 & _ & G4).
  { unfold configsInStep. by rewrite S3, Hc3. } { intros n c. rewrite Hc3. apply (td_configs _ Ht). }
  exists st4. split.
  { unfold writeStatuses, mbind, Wr_bind. fold st0. by rewrite E1, E2, E3. }
  change (applyEffects snap (ws_log st4)) with (cur snap st4). rewrite S4, S3. split_and!; simpl; try done.
  intros claim n c Hin Hn Hc. by eapply (G4 claim n).
Qed.

(** C9: Reconciling converges.  When the API server accepts the writes of one round and
    applying the table ends the same way, the next round, which sees their result, decides
    the same and writes nothing, whatever order Go ranges over its maps in and whatever the
    clock says.  The cluster must be [tidy]: the listeners of a Gateway have different names,
    the namespaces of routes have no slash (Kubernetes sees to both), and the GatewayClasses
    and GatewayConfigs carry no condition of a type other than Accepted; with one they are
    written in every round ([foreign_condition_rewritten]). *)
Theorem reconcile_converges ord clk :
  tidy snap → rangeOrders sel snap claims bindOrd → validOrders snap claims ord →
  ∃ st, writeStatuses accepts bindAddrs recorder snap claims results applyErr ord
          (mkWState clk [] (GatewayConfigs snap)) = (Ret tt, st) ∧
    let snap' := applyEffects snap (ws_log st) in
    ∀ apiUpdate bindOrd' ord' clk',
      rangeOrders sel snap' (ClaimClasses snap') bindOrd' → validOrders snap' (ClaimClasses snap') ord' →
      ∃ clk'', writeStatuses apiUpdate bindAddrs recorder snap' (ClaimClasses snap')
                 (BindRoutesIn sel snap' (ClaimClasses snap') bindOrd') applyErr ord'
                 (mkWState clk' [] (GatewayConfigs snap'))
               = (Ret tt, mkWState clk'' [] (GatewayConfigs snap')).
Proof.
  intros Ht Hb Hord. destruct (round_good ord clk Ht Hord) as (st & E & Hg). exists st. split; [exact E|].
  cbv zeta in *. set (snap' := applyEffects snap (ws_log st)) in *. destruct Hg as (Gc & Gg & Gr & Gk).
  intros apiUpdate bindOrd' ord' clk' Hb' [Oc Og Or Ok].
  assert (alike snap snap') as Hal by (symmetry; apply applyEffects_alike).
  rewrite (BindRoutesIn_alike sel snap snap' bindOrd bindOrd' Hal Hb Hb' (td_routes _ Ht)).
  assert (quiet (GatewayConfigs snap') (writeStatuses apiUpdate bindAddrs recorder snap' (ClaimClasses snap')
    results applyErr ord')) as Hq; [|by apply (Hq (mkWState clk' [] (GatewayConfigs snap')))].
  unfold writeStatuses. repeat apply quiet_bind; apply quiet_each.
  - intros [n gc] Hin. rewrite Oc, elem_of_map_to_list in Hin.
    apply writeClass_quiet, (goodClass_alike snap snap' Hal). by apply Gc.
  - intros [k gw] Hin. rewrite Og, elem_of_map_to_list in Hin. apply writeGateway_quiet.
    unfold goodGateway. rewrite (managed_alike snap snap' Hal). by apply (Gg k).
  - intros [k r] Hin. rewrite Or, elem_of_map_to_list in Hin. apply writeRoute_quiet.
    intros pp Hpp. rewrite (routeBackends_alike snap snap' Hal). by apply (Gr k).
  - intros claim Hin. apply writeConfig_quiet. intros n c Hn Hc.
    apply list_elem_of_fmap in Hin as ([name claim2] & -> & Hin). rewrite Ok, elem_of_map_to_list in Hin.
    destruct (claims_alike snap snap' Hal name claim2 Hin) as (claim & Hcl & Ecl).
    apply (Gk claim n c); [|by rewrite (configOf_alike _ _ Ecl)|done].
    apply list_elem_of_fmap. exists (name, claim). split; [done|].
    by rewrite (vo_claims _ _ _ Hord), elem_of_map_to_list.
Qed.
End converge.

(** ** Instances *)

Section instances.
Definition mapOrders (snap : Snapshot) : Orders :=
  mkOrders (map_to_list (GatewayClasses snap)) (map_to_list (Gateways snap))
    (map_to_list (RsyncRoutes snap)) (map_to_list (ClaimClasses snap)).

Lemma mapOrders_valid snap : validOrders snap (ClaimClasses snap) (mapOrders snap).
Proof. done. Qed.

Lemma fixture_tidy : tidy Fixture.snap.
Proof.
  assert (H1 : bool_decide (map_Forall (fun _ gw => NoDup (map l_Name (gw_Listeners gw)))
    (Gateways Fixture.snap)) = true) by (vm_compute; reflexivity).
  assert (H2 : bool_decide (map_Forall (fun _ gc => length (gc_StatusConditions gc) = 0%nat)
    (GatewayClasses Fixture.snap)) = true) by (vm_compute; reflexivity).
  assert (H3 : bool_decide (map_Forall (fun _ c => length (cfg_StatusConditions c) = 0%nat)
    (GatewayConfigs Fixture.snap)) = true) by (vm_compute; reflexivity).
  assert (H4 : bool_decide (map_Forall (fun k _ => k = Fixture.oldKey ∨ k = Fixture.youngKey)
    (RsyncRoutes Fixture.snap)) = true) by (vm_compute; reflexivity).
  apply bool_decide_eq_true_1 in H1, H2, H3, H4. split.
  - exact H1.
  - intros n gc Hgc. apply H2, nil_length_inv in Hgc. by rewrite Hgc.
  - intros n c Hc. apply H3, nil_length_inv in Hc. by rewrite Hc.
  - intros k r Hk. apply H4 in Hk as [->| ->]; apply (bool_decide_eq_false_1 (_ ∈ _)); vm_compute; reflexivity.
Qed.

(** The round of the fixture and the round after it. *)
Definition firstRound (snap : Snapshot) : result unit * WState :=
  writeStatuses accepts [":873"] true snap (ClaimClasses snap) (BindRoutes Fixture.noSelector snap (ClaimClasses snap))
    None (mapOrders snap) (mkWState [7; 8; 9] [] (GatewayConfigs snap)).
Definition afterRound (snap : Snapshot) : Snapshot := applyEffects snap (ws_log (firstRound snap).2).

Example fixture_writes : length (ws_log (firstRound Fixture.snap).2) = 6%nat.
Proof. by vm_compute. Qed.

Lemma reconcile_converges_witness :
  ∃ st clk, writeStatuses accepts [":873"] true Fixture.snap (ClaimClasses Fixture.snap)
      (BindRoutes Fixture.noSelector Fixture.snap (ClaimClasses Fixture.snap)) None (mapOrders Fixture.snap)
      (mkWState [7; 8; 9] [] (GatewayConfigs Fixture.snap)) = (Ret tt, st) ∧
    firstRound (applyEffects Fixture.snap (ws_log st)) =
      (Ret tt, mkWState clk [] (GatewayConfigs (applyEffects Fixture.snap (ws_log st)))).
Proof.
  destruct (reconcile_converges Fixture.noSelector Fixture.snap
    (map_to_list (collectBound (map_to_list (bindAll Fixture.noSelector Fixture.snap (ClaimClasses Fixture.snap)))))
    [":873"] true None (mapOrders Fixture.snap) [7; 8; 9] fixture_tidy) as (st & E & Hq).
  - exists (map_to_list (bindAll Fixture.noSelector Fixture.snap (ClaimClasses Fixture.snap))). split; reflexivity.
  - apply mapOrders_valid.
  - destruct (Hq accepts (map_to_list (collectBound (map_to_list (bindAll Fixture.noSelector
      (applyEffects Fixture.snap (ws_log st)) (ClaimClasses (applyEffects Fixture.snap (ws_log st)))))))
      (mapOrders (applyEffects Fixture.snap (ws_log st))) [7; 8; 9]) as [clk E'].
    + exists (map_to_list (bindAll Fixture.noSelector (applyEffects Fixture.snap (ws_log st))
        (ClaimClasses (applyEffects Fixture.snap (ws_log st))))). split; reflexivity.
    + apply mapOrders_valid.
    + exists st, clk. exact (conj E E').
Defined.

(** A condition of another type on the class, and the controller writes the class in every
    round. *)
Definition foreignSnap : Snapshot :=
  putClasses {[ "rsync" := setClass [mkCondition "Audited" ConditionTrue 1 0 "ByHand" ""] Fixture.class ]} Fixture.snap.
Definition writtenClasses (r : result unit * WState) : list string :=
  omap (fun e => match e with UpdateClass n _ => Some n | _ => None end) (ws_log r.2).

Example foreign_condition_rewritten :
  writtenClasses (firstRound foreignSnap) = ["rsync"] ∧
  writtenClasses (firstRound (afterRound foreignSnap)) = ["rsync"] ∧
  writtenClasses (firstRound (afterRound Fixture.snap)) = [].
Proof. by vm_compute. Qed.
End instances.
