(* ===== verification/ParseIP.v ===== *)
(** * [net.ParseIP], as the target choice of [relay] uses it

    The address of a client is turned into text and parsed back before it is hashed.
    [ParseIP] follows [netip.ParseAddr]; the theorem of this file is that the detour
    through text is harmless for IPv4 clients. *)
From S2P Require Import Prelude GoStd Net Upstreams.
Open Scope Z_scope.

(** ** IPv4 *)

(** The loop of [parseIPv4Fields]: [fields] are the fields stored so far, [digits]
    the value of the current one, [None] before its first digit. *)
Fixpoint parseIPv4Fields (fields : list Z) (digits : option Z) (l : list ascii)
    : option (list Z) :=
  match l with
  | [] =>
      match digits with
      | Some v => if (length fields =? 3)%nat then Some (fields ++ [v]) else None
      | None => None
      end
  | c :: rest =>
      if isDigit c then
        match digits with
        | Some 0 => None                                  (* leading zero *)
        | _ =>
            let v := default 0 digits * 10 + (byte c - 48) in
            if 255 <? v then None else parseIPv4Fields fields (Some v) rest
        end
      else if decide (c = "."%char) then
        match digits with
        | None => None                                    (* .1.2.3, 1..2.3 *)
        | Some v =>
            if (length fields =? 3)%nat then None         (* 1.2.3.4.5 *)
            else parseIPv4Fields (fields ++ [v]) None rest
        end
      else None
  end.

(** ** IPv6 *)

Definition hexValue (c : ascii) : option Z :=
  if isDigit c then Some (byte c - 48)
  else if inRange 97 102 c then Some (byte c - 87)
  else if inRange 65 70 c then Some (byte c - 55)
  else None.

(** The hex digits at the start of [l]: how many, their value, what is left; [None]
    when there are more than four. *)
Fixpoint hexGroupAt (off : nat) (acc : Z) (l : list ascii) : option (nat * Z * list ascii) :=
  match l with
  | [] => Some (off, acc, [])
  | c :: rest =>
      match hexValue c with
      | None => Some (off, acc, l)
      | Some v => if (3 <? off)%nat then None else hexGroupAt (S off) (acc * 16 + v) rest
      end
  end.

(** The loop over the groups: [ip] the bytes stored so far, [ellipsis] where the
    two colons were.  Result: the bytes, the ellipsis and the rest of the text. *)
Fixpoint parseGroups (fuel : nat) (ip : list Z) (ellipsis : option nat) (l : list ascii)
    : option (list Z * option nat * list ascii) :=
  if (16 <=? length ip)%nat then Some (ip, ellipsis, l)
  else match fuel with
  | O => None
  | S fuel =>
      '(off, acc, rest) ← hexGroupAt 0 0 l;
      if (off =? 0)%nat then None
      else match rest with
      | "."%char :: _ =>
          if bool_decide (ellipsis = None) && negb (length ip =? 12)%nat then None
          else if (16 <? length ip + 4)%nat then None
          else v4 ← parseIPv4Fields [] None l; Some (ip ++ v4, ellipsis, [])
      | _ =>
          let ip := ip ++ [acc / 256; acc mod 256] in
          match rest with
          | [] => Some (ip, ellipsis, [])
          | c :: rest =>
              if negb (bool_decide (c = ":"%char)) then None
              else match rest with
              | [] => None
              | ":"%char :: rest =>
                  match ellipsis with
                  | Some _ => None
                  | None =>
                      match rest with
                      | [] => Some (ip, Some (length ip), [])
                      | _ => parseGroups fuel ip (Some (length ip)) rest
                      end
                  end
              | _ => parseGroups fuel ip ellipsis rest
              end
          end
      end
  end.

(** The zeros the two colons stand for. *)
Definition expandEllipsis (ip : list Z) (ellipsis : option nat) : option (list Z) :=
  if (length ip <? 16)%nat then
    match ellipsis with
    | None => None
    | Some e => Some (take e ip ++ replicate (16 - length ip) 0 ++ drop e ip)
    end
  else match ellipsis with None => Some ip | Some _ => None end.

(** Every turn of the loop stores two bytes. *)
Definition parseIPv6 (l : list ascii) : option (list Z) :=
  let '(ellipsis, l) :=
    match l with
    | ":"%char :: ":"%char :: rest => (Some O, rest)
    | _ => (None, l)
    end in
  match ellipsis, l with
  | Some _, [] => Some (replicate 16 0)
  | _, _ =>
      '(ip, ellipsis, rest) ← parseGroups 8 [] ellipsis l;
      match rest with [] => expandEllipsis ip ellipsis | _ => None end
  end.

(** [netip.ParseAddr] without zones, which [net.ParseIP] rejects: the first dot, colon
    or percent sign decides. *)
Fixpoint parseAddr (whole l : list ascii) : option (list Z) :=
  match l with
  | [] => None
  | c :: rest =>
      if decide (c = "."%char) then v4 ← parseIPv4Fields [] None whole; Some (v4InV6Prefix ++ v4)
      else if decide (c = ":"%char) then
        match indexByte "%"%char whole with Some _ => None | None => parseIPv6 whole end
      else if decide (c = "%"%char) then None
      else parseAddr whole rest
  end.

(** [net.ParseIP]; the empty list is nil. *)
Definition ParseIP (s : string) : IP := default [] (parseAddr (chars s) (chars s)).

Example parse_v4 : ParseIP "192.0.2.7" = v4InV6Prefix ++ [192; 0; 2; 7].
Proof. by vm_compute. Qed.
Example parse_v4_bad : ParseIP "192.0.02.7" = [] ∧ ParseIP "192.0.2" = [] ∧ ParseIP "1.2.3.256" = [].
Proof. by vm_compute. Qed.
Example parse_v6 :
  ParseIP "2001:db8::1:0:0:1" = [32; 1; 13; 184; 0; 0; 0; 0; 0; 1; 0; 0; 0; 0; 0; 1].
Proof. by vm_compute. Qed.
Example parse_v6_mapped : ParseIP "::ffff:10.0.0.1" = v4InV6Prefix ++ [10; 0; 0; 1].
Proof. by vm_compute. Qed.
Example parse_path : ParseIP "/run/rsyncd.sock" = [] ∧ ParseIP "@" = [] ∧ ParseIP "fe80::1%eth0" = [].
Proof. by vm_compute. Qed.
Example parse_v6_any : ParseIP "::" = replicate 16 0 ∧ ParseIP "1:2:3:4:5:6:7::8" = [].
Proof. by vm_compute. Qed.

(** ** The way through text *)

(** What digits do to the field being read. *)
Fixpoint feed (digits : option Z) (ds : list ascii) : option (option Z) :=
  match ds with
  | [] => Some digits
  | c :: ds =>
      if isDigit c then
        match digits with
        | Some 0 => None
        | _ =>
            let v := default 0 digits * 10 + (byte c - 48) in
            if 255 <? v then None else feed (Some v) ds
        end
      else None
  end.

Lemma feed_fields fields digits ds digits' rest :
  feed digits ds = Some digits' →
  parseIPv4Fields fields digits (ds ++ rest) = parseIPv4Fields fields digits' rest.
Proof.
  revert digits. induction ds as [|c ds IH]; intros digits; simpl; [by intros [= ->]|].
  destruct (isDigit c); [|done]. destruct digits as [[|p|p]|]; try done.
  all: destruct (255 <? _); [done|]; apply IH.
Qed.

Lemma feed_digits digits ds digits' : feed digits ds = Some digits' → Forall (fun c => isDigit c = true) ds.
Proof.
  revert digits. induction ds as [|c ds IH]; intros digits; simpl; [constructor|].
  destruct (isDigit c) eqn:E; [|done]. destruct digits as [[|p|p]|]; try done.
  all: destruct (255 <? _); [done|]; intros ?%IH; by constructor.
Qed.

(** The decimal text of an octet, octet by octet. *)
Lemma feed_itoa v : 0 ≤ v < 256 → feed None (chars (itoa v)) = Some (Some v).
Proof.
  intros Hv.
  assert (H : forallb (fun v => bool_decide (feed None (chars (itoa v)) = Some (Some v))) (seqZ 0 256) = true)
    by by vm_compute.
  rewrite forallb_forall in H. eapply bool_decide_eq_true_1, (H v), list_elem_of_In, elem_of_seqZ. lia.
Qed.

Lemma parseAddr_v4 whole ds rest :
  Forall (fun c => isDigit c = true) ds →
  parseAddr whole (ds ++ "."%char :: rest) =
    (v4 ← parseIPv4Fields [] None whole; Some (v4InV6Prefix ++ v4)).
Proof.
  induction 1 as [|c ds Hc _ IH]; [done|]. simpl.
  rewrite !decide_False by (intros ->; done). apply IH.
Qed.

Definition isOctet (v : Z) : Prop := 0 ≤ v < 256.

Lemma ParseIP_v4 a b c d :
  isOctet a → isOctet b → isOctet c → isOctet d →
  ParseIP (ipString [a; b; c; d]) = v4InV6Prefix ++ [a; b; c; d].
Proof.
  intros Ha Hb Hc Hd. unfold ParseIP.
  change (ipString [a; b; c; d]) with (join "." (map itoa [a; b; c; d])).
  assert (E : chars (join "." (map itoa [a; b; c; d])) =
    chars (itoa a) ++ "."%char :: chars (itoa b) ++ "."%char :: chars (itoa c) ++ "."%char :: chars (itoa d))
    by (cbn [map join]; by rewrite !chars_app).
  rewrite E, (parseAddr_v4 _ _ _ (feed_digits _ _ _ (feed_itoa a Ha))).
  rewrite (feed_fields _ _ _ _ _ (feed_itoa a Ha)). simpl.
  rewrite (feed_fields _ _ _ _ _ (feed_itoa b Hb)). simpl.
  rewrite (feed_fields _ _ _ _ _ (feed_itoa c Hc)). simpl.
  rewrite <- (app_nil_r (chars (itoa d))), (feed_fields _ _ _ _ _ (feed_itoa d Hd)). done.
Qed.

(** The detour of [relay] through the text of the address changes nothing for an
    IPv4 client: it is sent to the target its address hashes to, whether the listener
    reports the address in 4 bytes or mapped into IPv6. *)
Theorem choice_by_text ip port n :
  length ip = 4%nat → Forall isOctet ip →
  chooseTargetByClientIP (ParseIP (netAddrToString (TCPAddr ip port))) n = chooseTargetByClientIP ip n ∧
  chooseTargetByClientIP (ParseIP (netAddrToString (TCPAddr (v4InV6Prefix ++ ip) port))) n =
    chooseTargetByClientIP ip n.
Proof.
  intros Hl Hip. destruct ip as [|a [|b [|c [|d [|? ?]]]]]; try done.
  rewrite !Forall_cons in Hip. destruct Hip as (Ha & Hb & Hc & Hd & _).
  assert (E : ipString (v4InV6Prefix ++ [a; b; c; d]) = ipString [a; b; c; d]) by done.
  unfold netAddrToString. rewrite E, ParseIP_v4 by done.
  split; unfold chooseTargetByClientIP; by rewrite mapped_v4.
Qed.

Lemma choice_by_text_witness :
  chooseTargetByClientIP (ParseIP (netAddrToString (TCPAddr [192; 0; 2; 7] 40000))) 3 =
    chooseTargetByClientIP [192; 0; 2; 7] 3.
Proof.
  destruct (choice_by_text [192; 0; 2; 7] 40000 3) as [H _]; [reflexivity| |exact H].
  repeat (apply Forall_cons_2; [unfold isOctet; lia|]). apply Forall_nil_2.
Defined.
