(* ===== verification/Relay.v ===== *)
(** * Serving a client: [relay] in [pkg/server/server.go]

    One connection from its version line to the end of the copy phase: the request,
    the per-address cap, the wait in the queue, the handshake with the upstream and
    the totals.  What other goroutines and the network decide is the [Environment] of a
    call: the value the atomic counter returned, the statuses the queue sent, the
    connection the dialer returned and how far each direction was copied.  The
    interleaving with other connections is in [Accounting], the goroutines of the copy
    phase in [Closing]. *)
From S2P Require Import Prelude GoStd Net Upstreams Queue Admission Logging ServerConfig ParseIP.
Open Scope Z_scope.

(** ** State *)

(** [ConnInfo]; times are nanoseconds since the epoch. *)
Record ConnInfo := mkInfo {
  ci_Index : Z;
  ci_LocalAddr : string;
  ci_RemoteAddr : string;
  ci_ConnectedAt : Z;
  ci_Module : string;
  ci_Upstream : string;
  ci_SentBytes : Z;
  ci_ReceivedBytes : Z }.

Definition SetModule (m : string) (i : ConnInfo) : ConnInfo :=
  mkInfo (ci_Index i) (ci_LocalAddr i) (ci_RemoteAddr i) (ci_ConnectedAt i) m (ci_Upstream i)
    (ci_SentBytes i) (ci_ReceivedBytes i).
Definition SetUpstream (u : string) (i : ConnInfo) : ConnInfo :=
  mkInfo (ci_Index i) (ci_LocalAddr i) (ci_RemoteAddr i) (ci_ConnectedAt i) (ci_Module i) u
    (ci_SentBytes i) (ci_ReceivedBytes i).
Definition addBytes (sent received : Z) (i : ConnInfo) : ConnInfo :=
  mkInfo (ci_Index i) (ci_LocalAddr i) (ci_RemoteAddr i) (ci_ConnectedAt i) (ci_Module i) (ci_Upstream i)
    (int64 (ci_SentBytes i + sent)) (int64 (ci_ReceivedBytes i + received)).

(** [upstreamCounters] *)
Record upstreamCounters := mkUpstreamCounters {
  queueFull : Z; dialError : Z; perIPRejected : Z;
  idleTerminated : Z; maxDurationTerminated : Z; throughputFloorTerminated : Z }.
(** [moduleCounters] *)
Record moduleCounters := mkModuleCounters { mc_completed : Z; mc_sentBytes : Z; mc_recvBytes : Z }.

(** The counters of the server; atomic additions of uint64 wrap around. *)
Record Counters := mkCounters {
  unknownModuleCount : Z;
  perUpstream : gmap string upstreamCounters;
  perModule : gmap (string * string) moduleCounters;
  completedConnCount : Z;
  sentBytesTotal : Z;
  recvBytesTotal : Z }.

Definition noCounters : Counters := mkCounters 0 ∅ ∅ 0 0 0.

Definition getUpstreamCounters (c : Counters) (name : string) : upstreamCounters :=
  default (mkUpstreamCounters 0 0 0 0 0 0) (perUpstream c !! name).

Definition prometheusLabelValueOrUnknown (s : string) : string :=
  if decide (s = "") then "unknown" else s.

Definition moduleKey (module upstream : string) : string * string :=
  (prometheusLabelValueOrUnknown module, prometheusLabelValueOrUnknown upstream).
Definition getModuleCounters (c : Counters) (module upstream : string) : moduleCounters :=
  default (mkModuleCounters 0 0 0) (perModule c !! moduleKey module upstream).

Definition countUnknownModule (c : Counters) : Counters :=
  mkCounters (uint64 (unknownModuleCount c + 1)) (perUpstream c) (perModule c)
    (completedConnCount c) (sentBytesTotal c) (recvBytesTotal c).
Definition onUpstream (name : string) (f : upstreamCounters → upstreamCounters) (c : Counters)
    : Counters :=
  mkCounters (unknownModuleCount c) (<[name := f (getUpstreamCounters c name)]> (perUpstream c))
    (perModule c) (completedConnCount c) (sentBytesTotal c) (recvBytesTotal c).
Definition countQueueFull (u : upstreamCounters) : upstreamCounters :=
  mkUpstreamCounters (uint64 (queueFull u + 1)) (dialError u) (perIPRejected u)
    (idleTerminated u) (maxDurationTerminated u) (throughputFloorTerminated u).
Definition countDialError (u : upstreamCounters) : upstreamCounters :=
  mkUpstreamCounters (queueFull u) (uint64 (dialError u + 1)) (perIPRejected u)
    (idleTerminated u) (maxDurationTerminated u) (throughputFloorTerminated u).
Definition countPerIPRejected (u : upstreamCounters) : upstreamCounters :=
  mkUpstreamCounters (queueFull u) (dialError u) (uint64 (perIPRejected u + 1))
    (idleTerminated u) (maxDurationTerminated u) (throughputFloorTerminated u).

(** The totals of a finished relay. *)
Definition countFinished (module upstream : string) (sent received : Z) (c : Counters) : Counters :=
  let mc := getModuleCounters c module upstream in
  mkCounters (unknownModuleCount c) (perUpstream c)
    (<[moduleKey module upstream :=
         mkModuleCounters (uint64 (mc_completed mc + 1)) (uint64 (mc_sentBytes mc + sent))
           (uint64 (mc_recvBytes mc + received))]> (perModule c))
    (uint64 (completedConnCount c + 1)) (uint64 (sentBytesTotal c + sent))
    (uint64 (recvBytesTotal c + received)).

(** What a call of [relay] changes: the two connections, the entry of the connection
    table and the counters. *)
Record St := mkSt { down : Conn; up : option Conn; info : ConnInfo; counters : Counters }.

Definition setDown (c : Conn) (st : St) : St := mkSt c (up st) (info st) (counters st).
Definition setUp (c : Conn) (st : St) : St := mkSt (down st) (Some c) (info st) (counters st).
Definition setInfo (f : ConnInfo → ConnInfo) (st : St) : St :=
  mkSt (down st) (up st) (f (info st)) (counters st).
Definition setCounters (f : Counters → Counters) (st : St) : St :=
  mkSt (down st) (up st) (info st) (f (counters st)).

(** ** Code that may return early

    [Return err] is a [return err] of [relay], [Go a] goes on with [a]; a panic and a
    wait without end are outcomes. *)
Inductive flow (A : Type) := Return (err : option error) | Go (a : A).
Arguments Return {A}.
Arguments Go {A}.

Definition R (A : Type) : Type := St → outcome (flow A * St).

#[export] Instance R_ret : MRet R := fun _ a st => Done (Go a, st).
#[export] Instance R_bind : MBind R := fun _ _ f m st =>
  match m st with
  | Done (Go a, st') => f a st'
  | Done (Return e, st') => Done (Return e, st')
  | Panic msg => Panic msg
  | Blocked => Blocked
  end.

Definition returns {A} (err : option error) : R A := fun st => Done (Return err, st).
Definition fails {A} (e : error) : R A := returns (Some e).
Definition modify (f : St → St) : R unit := fun st => Done (Go tt, f st).
Definition askDown : R Conn := fun st => Done (Go (down st), st).

(** [readLine(downConn, buf, readTimeout)], its error wrapped with [what]. *)
Definition readDown (what : string) : R (list ascii) := fun st =>
  match readLine ReadBufferSize (down st) with
  | None => Blocked
  | Some (data, None, c) => Done (Go data, setDown c st)
  | Some (data, Some e, c) => Done (Return (Some (what +:+ ": " +:+ e)), setDown c st)
  end.
(** [writeWithTimeout(downConn, data, writeTimeout)], its error wrapped with [what]. *)
Definition writeDown (what : string) (data : list ascii) : R unit := fun st =>
  let '(err, c) := writeWithTimeout data (down st) in
  match err with
  | None => Done (Go tt, setDown c st)
  | Some e => Done (Return (Some (what +:+ ": " +:+ e)), setDown c st)
  end.
(** ... its error ignored. *)
Definition writeDown_ (data : list ascii) : R unit := fun st =>
  Done (Go tt, setDown (writeWithTimeout data (down st)).2 st).

(** [data[:hi]] and [data[lo:]], which panic out of range. *)
Definition outOfRange {A} : R A := fun _ => Panic "slice bounds out of range".
Definition sliceTo (hi : Z) (data : list ascii) : R (list ascii) :=
  if (0 <=? hi) && (hi <=? Z.of_nat (length data)) then mret (take (Z.to_nat hi) data) else outOfRange.
Definition sliceFrom (lo : Z) (data : list ascii) : R (list ascii) :=
  if (0 <=? lo) && (lo <=? Z.of_nat (length data)) then mret (drop (Z.to_nat lo) data) else outOfRange.

(** The same on the connection to the upstream, which is dialled by then. *)
Definition readUp (what : string) : R (list ascii) := fun st =>
  match up st with
  | None => Panic "nil connection"
  | Some u =>
      match readLine ReadBufferSize u with
      | None => Blocked
      | Some (data, None, c) => Done (Go data, setUp c st)
      | Some (data, Some e, c) => Done (Return (Some (what +:+ ": " +:+ e)), setUp c st)
      end
  end.
Definition onUp (what : string) (f : Conn → option error * Conn) : R unit := fun st =>
  match up st with
  | None => Panic "nil connection"
  | Some u =>
      let '(err, c) := f u in
      match err with
      | None => Done (Go tt, setUp c st)
      | Some e => Done (Return (Some (what +:+ ": " +:+ e)), setUp c st)
      end
  end.
Definition writeUp (what : string) (data : list ascii) : R unit := onUp what (writeWithTimeout data).

(** ** The stages of [relay] *)

(** [net.Addr.String] *)
Definition addrString (a : Addr) : string :=
  match a with
  | TCPAddr ip port => joinHostPort (match ip with [] => "" | _ => ipString ip end) (itoa port)
  | UnixAddr name => name
  | OtherAddr _ str => str
  end.

(** What a request asked for: the client's version line, the module, its target and
    the queue of the target's upstream. *)
Record Request := mkRequest {
  rq_version : list ascii; rq_module : string; rq_target : Target; rq_queue : nat }.

Definition unknownModule (m : string) : list ascii :=
  chars ("@ERROR: Unknown module '" +:+ m +:+ "'" +:+ LF).

Section relay.
Context {Q : Type} `{AdmissionControl Q} (s : Server Q).

(** From the version line to the queue of the upstream. *)
Definition request : R Request :=
  c ← askDown;
  let addr := addrString (remoteAddr c) in
  let ip := netAddrToString (remoteAddr c) in
  version ← readDown ("read version from client " +:+ addr);
  if negb (hasPrefix (text version) RsyncdVersionPrefix) then
    fails ("unknown version from client " +:+ addr +:+ ": " +:+ quote (text version))
  else
    writeDown ("send version to client " +:+ addr) (chars RsyncdServerVersion) ≫= fun _ =>
    data ← readDown ("read module from client " +:+ addr);
    if (length data =? 0)%nat then fails ("empty request from client " +:+ addr)
    else
      (if decide (s_Motd s = "") then mret tt
       else writeDown ("send motd to client " +:+ addr) (chars (s_Motd s +:+ LF))) ≫= fun _ =>
      if (length data =? 1)%nat then
        c ← askDown;
        let '(err, c) := listAllModules (s_modules s) c in
        modify (setDown c) ≫= fun _ => returns err
      else
        name ← sliceTo (Z.of_nat (length data) - 1) data;
        let moduleName := text name in
        modify (setInfo (SetModule moduleName)) ≫= fun _ =>
        match getTargetsForModule s moduleName with
        | None =>
            modify (setCounters countUnknownModule) ≫= fun _ =>
            writeDown_ (unknownModule moduleName) ≫= fun _ => returns None
        | Some targets =>
            match targets !! Z.to_nat (chooseTargetByClientIP (ParseIP ip) (Z.of_nat (length targets))) with
            | None => fun _ => Panic "index out of range"
            | Some target =>
                modify (setInfo (SetUpstream (t_Upstream target))) ≫= fun _ =>
                match getQueueForUpstream s (t_Upstream target) with
                | None => fails ("no queue configured for upstream " +:+ t_Upstream target)
                | Some queue => mret (mkRequest version moduleName target queue)
                end
            end
        end.

(** The per-address cap; [n] is what [counter.Add(1)] returned. *)
Definition capMessage (limit : Z) (upstream : string) : list ascii :=
  chars ("@ERROR: per-IP connection limit of " +:+ itoa limit +:+ " for upstream " +:+ upstream
           +:+ " reached, retry later" +:+ LF).
Definition checkCap (n : Z) (rq : Request) : R unit :=
  let upstream := t_Upstream (rq_target rq) in
  let perIPLimit := getPerIPLimitForUpstream s upstream in
  if (0 <? perIPLimit) && (perIPLimit <? n) then
    modify (setCounters (onUpstream upstream countPerIPRejected)) ≫= fun _ =>
    writeDown_ (capMessage perIPLimit upstream) ≫= fun _ => returns None
  else mret tt.

(** What the wait for a slot sees: a status on the channel of the handle, or a minute
    without one. *)
Inductive QueueEvent := Got (st : AdmissionQueue.Status) | Minute.

Definition position (st : AdmissionQueue.Status) : string :=
  "Your position: " +:+ itoa (AdmissionQueue.Index st + 1) +:+ ", Total queued: "
    +:+ itoa (AdmissionQueue.Max st) +:+ LF.
Definition queuedMessage (upstream : string) (max : Z) : string :=
  "Upstream " +:+ upstream +:+ " has reached the maximum number of " +:+ itoa max
    +:+ " connections. Your request is being queued." +:+ LF.
Definition fullMessage : string :=
  "Server queue is full for this upstream. Please retry later." +:+ LF.

(** The loop [queuing]; the events end while the client still waits. *)
Fixpoint queuing (what : string) (status : AdmissionQueue.Status) (events : list QueueEvent)
    : R unit :=
  if AdmissionQueue.Ok status then mret tt
  else match events with
       | [] => fun _ => Blocked
       | e :: events =>
           let status := match e with Got st => st | Minute => status end in
           if AdmissionQueue.Ok status then mret tt
           else writeDown what (chars (position status)) ≫= fun _ => queuing what status events
       end.

(** The wait for a slot; [max] is what [upstreamQueue.GetMax()] returned. *)
Definition awaitSlot (max : Z) (events : list QueueEvent) (rq : Request) : R unit :=
  match events with
  | Got status :: events =>
      if AdmissionQueue.Full status then
        modify (setCounters (onUpstream (t_Upstream (rq_target rq)) countQueueFull)) ≫= fun _ =>
        writeDown_ (chars fullMessage) ≫= fun _ =>
        writeDown_ (chars RsyncdExit) ≫= fun _ => returns None
      else if AdmissionQueue.Ok status then mret tt
      else
        c ← askDown;
        let what := "send queue notice to client " +:+ addrString (remoteAddr c) in
        writeDown what (chars (queuedMessage (t_Upstream (rq_target rq)) max +:+ position status))
          ≫= fun _ => queuing what status events
  | _ => fun _ => Blocked
  end.

(** What follows the first line of the upstream goes to the client. *)
Definition sendMotd (what : string) (data : list ascii) : R unit :=
  let idx := match indexByte (chr 10) data with Some i => Z.of_nat i | None => -1 end in
  if idx + 1 <? Z.of_nat (length data) then
    rest ← sliceFrom (idx + 1) data; writeDown what rest
  else mret tt.

(** The handshake with an upstream that is connected. *)
Definition greet (upConn : Conn) (rq : Request) : R unit :=
  c ← askDown;
  let upAddr := netAddrToString (remoteAddr upConn) in
  (if t_UseProxyProtocol (rq_target rq) then
     onUp ("send proxy protocol header to upstream " +:+ upAddr)
       (writeProxyProtocolHeader (remoteAddr c) (remoteAddr upConn))
   else mret tt) ≫= fun _ =>
  writeUp ("send version to upstream " +:+ upAddr) (rq_version rq) ≫= fun _ =>
  data ← readUp ("read version from upstream " +:+ upAddr);
  if negb (hasPrefix (text data) RsyncdVersionPrefix) then
    fails ("unknown version from upstream " +:+ upAddr +:+ ": " +:+ text data)
  else
    sendMotd ("send motd to client " +:+ netAddrToString (remoteAddr c)) data ≫= fun _ =>
    writeUp ("send module to upstream " +:+ upAddr) (chars (rq_module rq +:+ LF)).

(** [dialled] is what the dialer returned. *)
Definition handshake (dialled : result Conn) (rq : Request) : R unit :=
  let target := rq_target rq in
  match dialled with
  | Err e =>
      modify (setCounters (onUpstream (t_Upstream target) countDialError)) ≫= fun _ =>
      fails ("dial to upstream: " +:+ t_Addr target +:+ ": " +:+ e)
  | Ret upConn => modify (setUp upConn) ≫= fun _ => greet upConn rq
  end.

(** How far one direction of the copy went: bytes read and, of these, written. *)
Record Copied := mkCopied { cp_read : nat; cp_written : nat }.

(** What one [io.Copy] writes. *)
Definition copyFrom (n : Copied) (from : Conn) : list ascii :=
  take (Nat.min (cp_written n) (cp_read n)) (stream from).
Definition bytesRead (n : Copied) (from : Conn) : Z :=
  Z.of_nat (length (take (cp_read n) (stream from))).
Definition appendTx (data : list ascii) (c : Conn) : Conn :=
  mkConn (rx c) (rxErr c) (txErrs c) (tx c ++ [data]) (localAddr c) (remoteAddr c).

(** The copy phase and the totals; the client's bytes are those received.  How far each
    direction gets is given: the peers, the watcher and the closing of connections decide it.
    [Closing] has the goroutines that do, and with them whether the phase comes to an end; it
    shows that when it does the outcome is the one here. *)
Definition copyPhase (toUp toDown : Copied) (rq : Request) : R unit := fun st =>
  match up st with
  | None => Panic "nil connection"
  | Some u =>
      let sent := bytesRead toDown u in
      let received := bytesRead toUp (down st) in
      let info' := addBytes sent received (info st) in
      Done (Go tt,
        mkSt (appendTx (copyFrom toDown u) (down st)) (Some (appendTx (copyFrom toUp (down st)) u)) info'
          (countFinished (rq_module rq) (t_Upstream (rq_target rq))
             (uint64 (ci_SentBytes info')) (uint64 (ci_ReceivedBytes info')) (counters st)))
  end.

(** What other goroutines and the network decide in one call. *)
Record Environment := mkEnvironment {
  w_count : Z; w_max : Z; w_events : list QueueEvent; w_dial : string → result Conn;
  w_toUp : Copied; w_toDown : Copied }.

(** [relay] *)
Definition relay (w : Environment) : R unit :=
  rq ← request;
  checkCap (w_count w) rq ≫= fun _ =>
  awaitSlot (w_max w) (w_events w) rq ≫= fun _ =>
  handshake (w_dial w (t_Addr (rq_target rq))) rq ≫= fun _ =>
  copyPhase (w_toUp w) (w_toDown w) rq ≫= fun _ =>
  returns None.

(** [relay] up to the copy phase. *)
Definition prologue (w : Environment) : R Request :=
  rq ← request;
  checkCap (w_count w) rq ≫= fun _ =>
  awaitSlot (w_max w) (w_events w) rq ≫= fun _ =>
  handshake (w_dial w (t_Addr (rq_target rq))) rq ≫= fun _ =>
  mret rq.

(** The entry [relay] stores for a connection, and the state a call starts in. *)
Definition newInfo (index now : Z) (c : Conn) : ConnInfo :=
  mkInfo index (addrString (localAddr c)) (addrString (remoteAddr c)) (now - now mod second) "" "" 0 0.
Definition start (index now : Z) (c : Conn) (cs : Counters) : St :=
  mkSt c None (newInfo index now c) cs.
End relay.

(** ** Reasoning about code that may return early *)

Lemma bind_inv {A B} (m : R A) (f : A → R B) st r st' :
  (m ≫= f) st = Done (r, st') →
  (∃ e, m st = Done (Return e, st') ∧ r = Return e) ∨
  ∃ a st1, m st = Done (Go a, st1) ∧ f a st1 = Done (r, st').
Proof.
  unfold mbind, R_bind. destruct (m st) as [[[e|a] st1]| |]; try done; intros H.
  - left. exists e. by injection H as <- <-.
  - right. by exists a, st1.
Qed.

Lemma bind_go {A B} (m : R A) (f : A → R B) st a st1 :
  m st = Done (Go a, st1) → (m ≫= f) st = f a st1.
Proof. intros H. unfold mbind, R_bind. by rewrite H. Qed.

(** Code that always comes to an end. *)
Definition runs {A} (m : R A) : Prop := ∀ st, ∃ r st', m st = Done (r, st').

(** Code that leaves the connection to the upstream alone. *)
Definition keepsUp {A} (m : R A) : Prop := ∀ st r st', m st = Done (r, st') → up st' = up st.

Create HintDb relay.

Section flow.
Context {A B : Type}.
Implicit Types (m : R A) (f : A → R B).

Lemma runs_bind m f : runs m → (∀ a, runs (f a)) → runs (m ≫= f).
Proof.
  intros Hm Hf st. destruct (Hm st) as ([e|a] & st1 & E).
  - exists (Return e), st1. unfold mbind, R_bind. by rewrite E.
  - destruct (Hf a st1) as (r & st' & E'). exists r, st'. by rewrite (bind_go _ _ _ _ _ E).
Qed.
Lemma runs_ret (a : A) : runs (mret a).
Proof. intros st. by exists (Go a), st. Qed.
Lemma runs_returns e : runs (returns e : R A).
Proof. intros st. by exists (Return e), st. Qed.
Lemma runs_if (b : bool) m1 m2 : runs m1 → runs m2 → runs (if b then m1 else m2).
Proof. intros ? ?. by destruct b. Qed.

Lemma keepsUp_bind m f : keepsUp m → (∀ a, keepsUp (f a)) → keepsUp (m ≫= f).
Proof.
  intros Hm Hf st r st' [(e & E & _)|(a & st1 & E & E')]%bind_inv; [by apply Hm in E|].
  apply Hf in E'. apply Hm in E. congruence.
Qed.
Lemma keepsUp_ret (a : A) : keepsUp (mret a).
Proof. intros st r st' E. injection E as <- <-. done. Qed.
Lemma keepsUp_returns e : keepsUp (returns e : R A).
Proof. intros st r st' E. injection E as <- <-. done. Qed.
Lemma keepsUp_if (b : bool) m1 m2 : keepsUp m1 → keepsUp m2 → keepsUp (if b then m1 else m2).
Proof. intros ? ?. by destruct b. Qed.
Lemma keepsUp_panic msg : keepsUp ((fun _ => Panic msg) : R A).
Proof. by intros st r st'. Qed.
Lemma keepsUp_blocked : keepsUp ((fun _ => Blocked) : R A).
Proof. by intros st r st'. Qed.
End flow.

Lemma readLine_total max c : ∃ data err c', readLine max c = Some (data, err, c').
Proof.
  destruct (readLineLoop_spec (readLineFuel c) max [] c) as (data & err & c' & H & _);
    [unfold readLineFuel; lia|simpl; lia|]. by exists data, err, c'.
Qed.

Lemma runs_modify f : runs (modify f).
Proof. intros st. by eexists _, _. Qed.
Lemma runs_askDown : runs askDown.
Proof. intros st. by eexists _, _. Qed.
Lemma runs_readDown what : runs (readDown what).
Proof.
  intros st. unfold readDown.
  destruct (readLine_total ReadBufferSize (down st)) as (data & [e|] & c' & ->); by eexists _, _.
Qed.
Lemma runs_writeDown what data : runs (writeDown what data).
Proof. intros st. unfold writeDown. destruct (writeWithTimeout _ _) as [[]]; by eexists _, _. Qed.
Lemma runs_writeDown_ data : runs (writeDown_ data).
Proof. intros st. by eexists _, _. Qed.

Lemma keepsUp_modify f : (∀ st, up (f st) = up st) → keepsUp (modify f).
Proof. intros Hf st r st' [= <- <-]. apply Hf. Qed.
Lemma keepsUp_askDown : keepsUp askDown.
Proof. by intros st r st' [= <- <-]. Qed.
Lemma keepsUp_readDown what : keepsUp (readDown what).
Proof. intros st r st'. unfold readDown. repeat case_match; intros [= <- <-]; done. Qed.
Lemma keepsUp_writeDown what data : keepsUp (writeDown what data).
Proof. intros st r st'. unfold writeDown. repeat case_match; intros [= <- <-]; done. Qed.
Lemma keepsUp_writeDown_ data : keepsUp (writeDown_ data).
Proof. by intros st r st' [= <- <-]. Qed.

Lemma sliceTo_ok hi data st :
  0 ≤ hi ≤ Z.of_nat (length data) → sliceTo hi data st = Done (Go (take (Z.to_nat hi) data), st).
Proof. intros ?. unfold sliceTo. by rewrite (proj2 (andb_true_iff _ _)) by lia. Qed.
Lemma runs_sliceTo hi data : 0 ≤ hi ≤ Z.of_nat (length data) → runs (sliceTo hi data).
Proof. intros ? st. rewrite sliceTo_ok by done. by eexists _, _. Qed.
Lemma sliceFrom_ok lo data st :
  0 ≤ lo ≤ Z.of_nat (length data) → sliceFrom lo data st = Done (Go (drop (Z.to_nat lo) data), st).
Proof. intros ?. unfold sliceFrom. by rewrite (proj2 (andb_true_iff _ _)) by lia. Qed.
Lemma keepsUp_sliceTo hi data : keepsUp (sliceTo hi data).
Proof. apply keepsUp_if; [apply keepsUp_ret|apply keepsUp_panic]. Qed.
Lemma runs_sendMotd what data : runs (sendMotd what data).
Proof.
  intros st. unfold sendMotd. set (idx := match indexByte _ _ with Some _ => _ | None => _ end).
  assert (-1 ≤ idx) by (unfold idx; case_match; lia).
  destruct (Z.ltb_spec (idx + 1) (Z.of_nat (length data))); [|apply runs_ret].
  rewrite (bind_go _ _ _ _ _ (sliceFrom_ok (idx + 1) data st ltac:(lia))). apply runs_writeDown.
Qed.

#[export] Hint Resolve runs_sendMotd keepsUp_sliceTo : relay.
#[export] Hint Resolve runs_bind runs_ret runs_returns runs_if runs_modify runs_askDown
  runs_readDown runs_writeDown runs_writeDown_ : relay.
#[export] Hint Resolve keepsUp_bind keepsUp_ret keepsUp_returns keepsUp_if keepsUp_panic
  keepsUp_blocked keepsUp_modify keepsUp_askDown keepsUp_readDown keepsUp_writeDown
  keepsUp_writeDown_ : relay.

(** Follows the code down to its primitive steps. *)
Ltac by_flow lem_bind :=
  repeat first
    [ progress unfold fails
    | progress intros
    | apply lem_bind
    | solve [eauto with relay]
    | case_match ].

Lemma keepsUp_queuing what status events : keepsUp (queuing what status events).
Proof. revert status. induction events as [|e events IH]; intros status; simpl; by_flow @keepsUp_bind. Qed.
#[export] Hint Resolve keepsUp_queuing : relay.

(** Code that leaves the module and the upstream of the connection's entry alone. *)
Definition labels (st : St) : string * string := (ci_Module (info st), ci_Upstream (info st)).
Definition keepsLabels {A} (m : R A) : Prop := ∀ st r st', m st = Done (r, st') → labels st' = labels st.

Lemma keepsLabels_bind {A B} (m : R A) (f : A → R B) :
  keepsLabels m → (∀ a, keepsLabels (f a)) → keepsLabels (m ≫= f).
Proof.
  intros Hm Hf st r st' [(e & E & _)|(a & st1 & E & E')]%bind_inv; [by apply Hm in E|].
  apply Hf in E'. apply Hm in E. congruence.
Qed.
Lemma keepsLabels_ret {A} (a : A) : keepsLabels (mret a).
Proof. intros st r st' E. injection E as <- <-. done. Qed.
Lemma keepsLabels_returns {A} e : keepsLabels (returns e : R A).
Proof. intros st r st' E. injection E as <- <-. done. Qed.
Lemma keepsLabels_if {A} (b : bool) (m1 m2 : R A) :
  keepsLabels m1 → keepsLabels m2 → keepsLabels (if b then m1 else m2).
Proof. intros ? ?. by destruct b. Qed.
Lemma keepsLabels_blocked {A} : keepsLabels ((fun _ => Blocked) : R A).
Proof. by intros st r st'. Qed.
Lemma keepsLabels_modify f : (∀ st, labels (f st) = labels st) → keepsLabels (modify f).
Proof. intros Hf st r st' [= <- <-]. apply Hf. Qed.
Lemma keepsLabels_askDown : keepsLabels askDown.
Proof. by intros st r st' [= <- <-]. Qed.
Lemma keepsLabels_writeDown what data : keepsLabels (writeDown what data).
Proof. intros st r st'. unfold writeDown. repeat case_match; intros [= <- <-]; done. Qed.
Lemma keepsLabels_sendMotd what data : keepsLabels (sendMotd what data).
Proof.
  unfold sendMotd, sliceFrom. apply keepsLabels_if; [|apply keepsLabels_ret].
  apply keepsLabels_bind; [|intros; apply keepsLabels_writeDown].
  apply keepsLabels_if; [apply keepsLabels_ret|by intros st r st'].
Qed.
Lemma keepsLabels_writeDown_ data : keepsLabels (writeDown_ data).
Proof. by intros st r st' [= <- <-]. Qed.
Lemma keepsLabels_readUp what : keepsLabels (readUp what).
Proof. intros st r st'. unfold readUp. repeat case_match; try done; intros [= <- <-]; done. Qed.
Lemma keepsLabels_onUp what f : keepsLabels (onUp what f).
Proof. intros st r st'. unfold onUp. repeat case_match; try done; intros [= <- <-]; done. Qed.
Lemma keepsLabels_copyPhase toUp toDown rq : keepsLabels (copyPhase toUp toDown rq).
Proof. intros st r st'. unfold copyPhase. repeat case_match; try done; intros [= <- <-]; done. Qed.
#[export] Hint Resolve keepsLabels_bind keepsLabels_ret keepsLabels_returns keepsLabels_if
  keepsLabels_blocked keepsLabels_modify keepsLabels_askDown keepsLabels_writeDown
  keepsLabels_sendMotd keepsLabels_writeDown_ keepsLabels_readUp keepsLabels_onUp keepsLabels_copyPhase : relay.

Lemma keepsLabels_queuing what status events : keepsLabels (queuing what status events).
Proof. revert status. induction events as [|e events IH]; intros status; simpl; by_flow @keepsLabels_bind. Qed.
#[export] Hint Resolve keepsLabels_queuing : relay.
Lemma keepsLabels_awaitSlot max events rq : keepsLabels (awaitSlot max events rq).
Proof. unfold awaitSlot. by_flow @keepsLabels_bind. Qed.
Lemma keepsLabels_handshake dialled rq : keepsLabels (handshake dialled rq).
Proof. unfold handshake, greet, writeUp. by_flow @keepsLabels_bind. Qed.

(** Code that comes to an end when the upstream is connected, and keeps it so. *)
Definition runsUp {A} (m : R A) : Prop :=
  ∀ st, is_Some (up st) → ∃ r st', m st = Done (r, st') ∧ is_Some (up st').

Lemma runsUp_bind {A B} (m : R A) (f : A → R B) : runsUp m → (∀ a, runsUp (f a)) → runsUp (m ≫= f).
Proof.
  intros Hm Hf st Hst. destruct (Hm st Hst) as ([e|a] & st1 & E & Hst1).
  - exists (Return e), st1. unfold mbind, R_bind. by rewrite E.
  - rewrite (bind_go _ _ _ _ _ E). by apply Hf.
Qed.
Lemma runsUp_of {A} (m : R A) : runs m → keepsUp m → runsUp m.
Proof.
  intros Hr Hk st Hst. destruct (Hr st) as (r & st' & E). exists r, st'. split; [done|].
  by rewrite (Hk _ _ _ E).
Qed.
Lemma runsUp_if {A} (b : bool) (m1 m2 : R A) : runsUp m1 → runsUp m2 → runsUp (if b then m1 else m2).
Proof. intros ? ?. by destruct b. Qed.
Lemma runsUp_onUp what f : runsUp (onUp what f).
Proof. intros st [u Hu]. unfold onUp. rewrite Hu. destruct (f u) as [[]]; by eexists _, _. Qed.
Lemma runsUp_readUp what : runsUp (readUp what).
Proof.
  intros st [u Hu]. unfold readUp. rewrite Hu.
  destruct (readLine_total ReadBufferSize u) as (data & [e|] & c' & ->); by eexists _, _.
Qed.
Lemma runsUp_copyPhase toUp toDown rq : runsUp (copyPhase toUp toDown rq).
Proof. intros st [u Hu]. unfold copyPhase. rewrite Hu. by eexists _, _. Qed.
#[export] Hint Resolve runsUp_bind runsUp_if runsUp_onUp runsUp_readUp runsUp_copyPhase : relay.
#[export] Hint Extern 2 (runsUp _) => (apply runsUp_of; solve [eauto with relay]) : relay.

(** The wait of a handle is over: the queue was full, or some status is an admission. *)
Definition isOk (e : QueueEvent) : bool :=
  match e with Got st => AdmissionQueue.Ok st | Minute => false end.
Definition decided (events : list QueueEvent) : bool :=
  match events with
  | Got st :: rest => AdmissionQueue.Full st || existsb isOk events
  | _ => false
  end.

Lemma runs_queuing what status events :
  AdmissionQueue.Ok status || existsb isOk events = true → runs (queuing what status events).
Proof.
  revert status. induction events as [|e events IH]; intros status Hd; simpl in *.
  { rewrite orb_false_r in Hd. rewrite Hd. eauto with relay. }
  destruct (AdmissionQueue.Ok status) eqn:Hs; [eauto with relay|]. simpl in Hd.
  destruct (AdmissionQueue.Ok (match e with Got st => st | Minute => status end)) eqn:He;
    [eauto with relay|].
  apply runs_bind; [eauto with relay|]. intros _. apply IH.
  destruct e; simpl in *; [done|by rewrite Hd, orb_true_r].
Qed.

Lemma runs_awaitSlot max events rq : decided events = true → runs (awaitSlot max events rq).
Proof.
  destruct events as [|[st|] events]; simpl; try done. intros Hd.
  destruct (AdmissionQueue.Full st); [eauto 10 with relay|]. simpl in Hd.
  destruct (AdmissionQueue.Ok st) eqn:Hs; [eauto with relay|].
  apply runs_bind; [eauto with relay|]. intros c. apply runs_bind; [eauto with relay|]. intros _.
  apply runs_queuing. by rewrite Hs.
Qed.

Lemma runsUp_greet u rq : runsUp (greet u rq).
Proof. unfold greet, writeUp, fails. by_flow @runsUp_bind. Qed.

(** A dial that fails ends the call, one that succeeds connects the upstream. *)
Lemma handshake_runs dialled rq st :
  (∃ e st', handshake dialled rq st = Done (Return e, st')) ∨
  ∃ st', handshake dialled rq st = Done (Go tt, st') ∧ is_Some (up st').
Proof.
  destruct dialled as [u|e]; [|left; by eexists _, _].
  destruct (runsUp_greet u rq (setUp u st)) as ([e|[]] & st' & E & Hup); [by eexists| |].
  - left. by exists e, st'.
  - right. by exists st'.
Qed.

(** Splits a run of [m ≫= f] that went on. *)
Ltac inv_go H :=
  apply bind_inv in H as [(? & ? & [=])|(? & ? & ? & H)].

Lemma queuing_go what status events st st' :
  queuing what status events st = Done (Go tt, st') →
  AdmissionQueue.Ok status || existsb isOk events = true.
Proof.
  revert status st. induction events as [|e events IH]; intros status st; simpl.
  { by destruct (AdmissionQueue.Ok status). }
  destruct (AdmissionQueue.Ok status) eqn:Hs; [done|].
  destruct (AdmissionQueue.Ok (match e with Got st => st | Minute => status end)) eqn:He; intros Hr.
  - destruct e; simpl in *; [by rewrite He|congruence].
  - inv_go Hr. apply IH in Hr. rewrite He in Hr. simpl in *. by rewrite Hr, orb_true_r.
Qed.

Lemma awaitSlot_go max events rq st st' :
  awaitSlot max events rq st = Done (Go tt, st') → existsb isOk events = true.
Proof.
  unfold awaitSlot. destruct events as [|[status|] events]; try done.
  destruct (AdmissionQueue.Full status); intros Hr; [by do 3 inv_go Hr|].
  destruct (AdmissionQueue.Ok status) eqn:Hs; [simpl; by rewrite Hs|].
  inv_go Hr. inv_go Hr. apply queuing_go in Hr. by simpl; rewrite Hs in *.
Qed.

(** What follows the admission keeps the labels. *)
Lemma handshake_labels dialled toUp toDown rq :
  keepsLabels (handshake dialled rq ≫= fun _ => copyPhase toUp toDown rq ≫= fun _ => returns None : R unit).
Proof. eauto using keepsLabels_handshake with relay. Qed.

Section serve.
Context {Q : Type} `{AdmissionControl Q} (s : Server Q).

Lemma keepsUp_request : keepsUp (request s).
Proof. unfold request. by_flow @keepsUp_bind. Qed.
Lemma keepsUp_checkCap n rq : keepsUp (checkCap s n rq).
Proof. unfold checkCap. by_flow @keepsUp_bind. Qed.
Lemma runs_checkCap n rq : runs (checkCap s n rq).
Proof. unfold checkCap. by_flow @runs_bind. Qed.
Lemma keepsUp_awaitSlot max events rq : keepsUp (awaitSlot max events rq).
Proof. unfold awaitSlot. by_flow @keepsUp_bind. Qed.

(** *** What an upstream is contacted for *)

Lemma request_go st rq st' :
  request s st = Done (Go rq, st') →
  ∃ ts, getTargetsForModule s (rq_module rq) = Some ts ∧ rq_target rq ∈ ts ∧
    getQueueForUpstream s (t_Upstream (rq_target rq)) = Some (rq_queue rq) ∧
    labels st' = (rq_module rq, t_Upstream (rq_target rq)).
Proof.
  unfold request, fails. intros Hr. inv_go Hr. inv_go Hr. case_match; [done|].
  inv_go Hr. inv_go Hr. case_match; [done|]. inv_go Hr. case_match.
  { inv_go Hr. destruct (listAllModules _ _). by inv_go Hr. }
  inv_go Hr. inv_go Hr. destruct (getTargetsForModule s _) as [ts|] eqn:Hts; [|by do 2 inv_go Hr].
  destruct (ts !! _) as [t|] eqn:Ht; [|done]. inv_go Hr.
  destruct (getQueueForUpstream s (t_Upstream t)) eqn:Hq; [|done].
  injection Hr as <- <-. exists ts. split_and!; [done| |done|]; [by eapply list_elem_of_lookup_2|].
  repeat match goal with Hm : modify _ _ = Done _ |- _ => injection Hm as _ <- end. done.
Qed.

Lemma checkCap_go n rq st st' :
  checkCap s n rq st = Done (Go tt, st') →
  getPerIPLimitForUpstream s (t_Upstream (rq_target rq)) ≤ 0 ∨
  n ≤ getPerIPLimitForUpstream s (t_Upstream (rq_target rq)).
Proof.
  unfold checkCap. destruct (0 <? _) eqn:H0; simpl; [|lia]. destruct (_ <? n) eqn:Hn; [|lia].
  intros Hr. by do 2 inv_go Hr.
Qed.

Lemma keepsLabels_checkCap n rq : keepsLabels (checkCap s n rq).
Proof. unfold checkCap. by_flow @keepsLabels_bind. Qed.

Lemma relay_contacts w st r st' u :
  up st = None → relay s w st = Done (r, st') → up st' = Some u →
  ∃ ts t, getTargetsForModule s (ci_Module (info st')) = Some ts ∧ t ∈ ts ∧
    t_Upstream t = ci_Upstream (info st') ∧
    (getPerIPLimitForUpstream s (t_Upstream t) ≤ 0 ∨
     w_count w ≤ getPerIPLimitForUpstream s (t_Upstream t)) ∧
    existsb isOk (w_events w) = true ∧
    ∃ u0, w_dial w (t_Addr t) = Ret u0.
Proof.
  intros Hnone Hr Hup. unfold relay in Hr.
  apply bind_inv in Hr as [(e & E & _)|(rq & st1 & E1 & Hr)]; [apply keepsUp_request in E; congruence|].
  apply bind_inv in Hr as [(e & E & _)|([] & st2 & E2 & Hr)];
    [apply keepsUp_checkCap in E; apply keepsUp_request in E1; congruence|].
  apply bind_inv in Hr as [(e & E & _)|([] & st3 & E3 & Hr)];
    [apply keepsUp_awaitSlot in E; apply keepsUp_checkCap in E2; apply keepsUp_request in E1; congruence|].
  destruct (request_go _ _ _ E1) as (ts & Hts & Ht & _ & Hl).
  assert (labels st' = (rq_module rq, t_Upstream (rq_target rq))) as Hl'.
  { rewrite <- Hl, <- (keepsLabels_checkCap _ _ _ _ _ E2), <- (keepsLabels_awaitSlot _ _ _ _ _ _ E3).
    revert Hr. generalize (handshake_labels (w_dial w (t_Addr (rq_target rq))) (w_toUp w) (w_toDown w) rq).
    intros Hk. apply Hk. }
  injection Hl' as -> ->. exists ts, (rq_target rq). split_and!; [done..| | |].
  - by eapply checkCap_go.
  - by eapply awaitSlot_go.
  - destruct (w_dial w (t_Addr (rq_target rq))) as [u0|e]; [by exists u0|].
    apply bind_inv in Hr as [(e' & E & _)|(? & ? & E & _)]; simpl in E; [|done].
    injection E as _ <-. simpl in Hup.
    apply keepsUp_awaitSlot in E3; apply keepsUp_checkCap in E2; apply keepsUp_request in E1; congruence.
Qed.

(** C15: An upstream is connected only for a request that names a served module, to
    the address of one of its targets, after the per-address cap was respected and
    after a status of the queue that admits the client; the entry of the connection shows
    that module and that upstream. *)
Theorem relay_contacts_only_admitted w st r st' u :
  up st = None → relay s w st = Done (r, st') → up st' = Some u →
  ∃ ts t, getTargetsForModule s (ci_Module (info st')) = Some ts ∧ t ∈ ts ∧
    t_Upstream t = ci_Upstream (info st') ∧
    (getPerIPLimitForUpstream s (t_Upstream t) ≤ 0 ∨
     w_count w ≤ getPerIPLimitForUpstream s (t_Upstream t)) ∧
    existsb isOk (w_events w) = true ∧
    ∃ u0, w_dial w (t_Addr t) = Ret u0.
Proof. apply relay_contacts. Qed.

(** *** Every request comes to an end *)

(** No module has 2^32 targets. *)
Definition smallTables : Prop :=
  ∀ m ts, getTargetsForModule s m = Some ts → Z.of_nat (length ts) < 2 ^ 32.

Context (s_wf : wfServer s) (s_small : smallTables).

(** The choice of [relay] always is a target of the module, and its queue exists. *)
Lemma target_chosen m ts ip :
  getTargetsForModule s m = Some ts →
  ∃ t, ts !! Z.to_nat (chooseTargetByClientIP ip (Z.of_nat (length ts))) = Some t ∧ t ∈ ts ∧
    ∃ ref, getQueueForUpstream s (t_Upstream t) = Some ref.
Proof.
  intros Hts. destruct (served_queues s m ts s_wf Hts) as [Hne Hq].
  assert (0 < Z.of_nat (length ts)) by (destruct ts; [done|simpl; lia]).
  pose proof (chooseTarget_bound ip (Z.of_nat (length ts)) (conj H0 (s_small m ts Hts))).
  destruct (lookup_lt_is_Some_2 ts (Z.to_nat (chooseTargetByClientIP ip (Z.of_nat (length ts))))) as [t Ht];
    [lia|].
  exists t. split; [done|]. apply list_elem_of_lookup_2 in Ht. split; [done|].
  destruct (Hq t Ht) as (ref & qu & Href & _). by exists ref.
Qed.

Lemma runs_request : runs (request s).
Proof.
  unfold request. repeat first [progress unfold fails | progress intros | apply @runs_bind
    | solve [eauto with relay]
    | match goal with |- runs (if (length ?d =? ?n)%nat then _ else _) => destruct (Nat.eqb_spec (length d) n) end
    | apply runs_sliceTo; lia
    | apply runs_if].
  all: match goal with |- runs (if decide _ then _ else _) => case_decide | _ => idtac end;
    eauto with relay.
  - destruct (listAllModules (s_modules s) _) as [err c]. eauto with relay.
  - destruct (getTargetsForModule s _) as [ts|] eqn:Hts; [|eauto with relay].
    destruct (target_chosen _ ts (ParseIP (netAddrToString (remoteAddr a))) Hts) as (t & -> & _ & ref & Href).
    apply runs_bind; [eauto with relay|]. intros _. rewrite Href. eauto with relay.
Qed.

(** *** A call of [relay] *)

Lemma bind_return {A B} (m : R A) (f : A → R B) st e st1 :
  m st = Done (Return e, st1) → (m ≫= f) st = Done (Return e, st1).
Proof. intros E. unfold mbind, R_bind. by rewrite E. Qed.

(** C18: Every call of [relay] gets through to the copy phase or returns before it, without a
    panic (no index out of range, no nil connection), whatever the client and the upstream send
    and whichever reads and writes fail, when each read is answered (by bytes or an error), a
    status of the queue admits or refuses the client, the server is well formed and no module
    has 2^32 targets or more: the prologue has a result, either the return of the whole call or
    a request with the upstream connected, from which the call goes on to copy.  (How the copy
    phase ends is the subject of [Closing].) *)
Theorem relay_prologue_ends w st :
  decided (w_events w) = true →
  ∃ r st', prologue s w st = Done (r, st') ∧
    match r with
    | Return err => relay s w st = Done (Return err, st')
    | Go rq => is_Some (up st') ∧
        relay s w st = (copyPhase (w_toUp w) (w_toDown w) rq ≫= fun _ => returns None) st'
    end.
Proof.
  intros Hd. unfold prologue, relay.
  destruct (runs_request st) as ([e|rq] & st1 & E1); [by eexists _, st1; rewrite !(bind_return _ _ _ _ _ E1)|].
  rewrite !(bind_go _ _ _ _ _ E1).
  destruct (runs_checkCap (w_count w) rq st1) as ([e|[]] & st2 & E2);
    [by eexists _, st2; rewrite !(bind_return _ _ _ _ _ E2)|].
  rewrite !(bind_go _ _ _ _ _ E2).
  destruct (runs_awaitSlot (w_max w) (w_events w) rq Hd st2) as ([e|[]] & st3 & E3);
    [by eexists _, st3; rewrite !(bind_return _ _ _ _ _ E3)|].
  rewrite !(bind_go _ _ _ _ _ E3).
  destruct (handshake_runs (w_dial w (t_Addr (rq_target rq))) rq st3)
    as [(e & st4 & E4)|(st4 & E4 & Hup)]; [by eexists _, st4; rewrite !(bind_return _ _ _ _ _ E4)|].
  rewrite !(bind_go _ _ _ _ _ E4). by eexists (Go rq), st4.
Qed.
End serve.

(** ** What the two sides see

    A peer that behaves sends a line and waits for the answer; its connection carries
    on, and what is sent to it arrives. *)

(** [c] with [rx] left to read and [tx] written, no write failing. *)
Definition conn (c : Conn) (rx : list (list ascii)) (tx : list (list ascii)) : Conn :=
  mkConn rx (rxErr c) [] tx (localAddr c) (remoteAddr c).

Lemma conn_self c : txErrs c = [] → conn c (rx c) (tx c) = c.
Proof. destruct c; simpl. by intros ->. Qed.

(** A read that ends in a newline and fits the buffer. *)
Definition isLine (chunk : list ascii) : Prop :=
  last chunk = Some (chr 10) ∧ (length chunk ≤ ReadBufferSize)%nat.

Lemma readLine_line c chunk rest t :
  isLine chunk → readLine ReadBufferSize (conn c (chunk :: rest) t) = Some (chunk, None, conn c rest t).
Proof.
  intros [Hl Hn]. unfold readLine, readLineFuel, conn. cbn [rx length readLineLoop].
  unfold readLineStep, Read. cbn [rx length app]. rewrite Nat.sub_0_r.
  apply Nat.leb_le in Hn. rewrite Hn. cbn [app]. by rewrite bool_decide_true.
Qed.

Section steps.
Context (c : Conn) (i : ConnInfo) (k : Counters).

Lemma readDown_line what chunk rest t v :
  isLine chunk →
  readDown what (mkSt (conn c (chunk :: rest) t) v i k) = Done (Go chunk, mkSt (conn c rest t) v i k).
Proof. intros Hl. unfold readDown. cbn [down]. by rewrite readLine_line. Qed.

Lemma writeDown_conn what data r t v :
  writeDown what data (mkSt (conn c r t) v i k) = Done (Go tt, mkSt (conn c r (t ++ [data])) v i k).
Proof. done. Qed.

Lemma readUp_line what d chunk rest t :
  isLine chunk →
  readUp what (mkSt d (Some (conn c (chunk :: rest) t)) i k) =
    Done (Go chunk, mkSt d (Some (conn c rest t)) i k).
Proof. intros Hl. unfold readUp. cbn [up]. by rewrite readLine_line. Qed.

Lemma writeUp_conn what d data r t :
  writeUp what data (mkSt d (Some (conn c r t)) i k) =
    Done (Go tt, mkSt d (Some (conn c r (t ++ [data]))) i k).
Proof. done. Qed.
End steps.

Lemma drop_line (line extra : list ascii) : drop (S (length line)) (line ++ chr 10 :: extra) = extra.
Proof. replace (S (length line)) with (length line + 1)%nat by lia. by rewrite drop_app_add. Qed.

Lemma indexByte_line line extra :
  chr 10 ∉ line → indexByte (chr 10) (line ++ chr 10 :: extra) = Some (length line).
Proof.
  induction line as [|x line IH]; intros Hn; simpl; [done|].
  apply not_elem_of_cons in Hn as [Hx Hn]. destruct (Ascii.eqb_spec x (chr 10)); [by subst|].
  by rewrite IH.
Qed.

(** What came with the upstream's version line is sent on, if anything. *)
Lemma sendMotd_conn c i k what line extra r t v :
  chr 10 ∉ line →
  ∃ txd, sendMotd what (line ++ chr 10 :: extra) (mkSt (conn c r t) v i k) =
    Done (Go tt, mkSt (conn c r (t ++ txd)) v i k) ∧ concat txd = extra.
Proof.
  intros Hl. unfold sendMotd. rewrite indexByte_line, length_app by done. cbn [length].
  destruct (Z.ltb_spec (Z.of_nat (length line) + 1) (Z.of_nat (length line + S (length extra)))) as [?|Hge].
  - rewrite (bind_go _ _ _ _ _ (sliceFrom_ok (Z.of_nat (length line) + 1) (line ++ chr 10 :: extra) _
      ltac:(rewrite length_app; cbn [length]; lia))).
    replace (Z.to_nat (Z.of_nat (length line) + 1)) with (S (length line)) by lia.
    rewrite drop_line. exists [extra]. split; [done|]. simpl. by rewrite app_nil_r.
  - exists []. rewrite app_nil_r. split; [done|]. destruct extra; [done|simpl in Hge; lia].
Qed.

Section transparent.
Context {Q : Type} `{AdmissionControl Q} (s : Server Q).

(** The line of the message of the day, if one is configured. *)
Definition motdLines : list (list ascii) :=
  if decide (s_Motd s = "") then [] else [chars (s_Motd s +:+ LF)].

(** The target the server chooses for a client. *)
Definition targetFor (c : Conn) (ts : list Target) : option Target :=
  ts !! Z.to_nat (chooseTargetByClientIP (ParseIP (netAddrToString (remoteAddr c))) (Z.of_nat (length ts))).

(** A client that speaks the protocol: its version line, then its request. *)
Record polite (c : Conn) (version request : list ascii) (rest : list (list ascii)) : Prop := {
  pc_rx : rx c = version :: request :: rest;
  pc_tx : txErrs c = [];
  pc_version : isLine version;
  pc_prefix : hasPrefix (text version) RsyncdVersionPrefix = true;
  pc_request : isLine request }.

(** Up to the module name, every request goes the same way. *)
Lemma request_greeted c version name rest u i k :
  polite c version (chars name ++ [chr 10]) rest → name ≠ "" →
  request s (mkSt c u i k) =
    match getTargetsForModule s name with
    | None =>
        modify (setCounters countUnknownModule) ≫= fun _ =>
        writeDown_ (unknownModule name) ≫= fun _ => returns None
    | Some targets =>
        match targetFor c targets with
        | None => fun _ => Panic "index out of range"
        | Some target =>
            modify (setInfo (SetUpstream (t_Upstream target))) ≫= fun _ =>
            match getQueueForUpstream s (t_Upstream target) with
            | None => fails ("no queue configured for upstream " +:+ t_Upstream target)
            | Some queue => mret (mkRequest version name target queue)
            end
        end
    end (mkSt (conn c rest (tx c ++ chars RsyncdServerVersion :: motdLines)) u (SetModule name i) k).
Proof.
  intros [Hrx Htx Hv Hp Hq] Hne.
  rewrite <- (conn_self c Htx) at 1. rewrite Hrx. unfold request.
  rewrite (bind_go _ _ _ _ _ (eq_refl : askDown _ = Done (Go _, _))). cbv zeta.
  rewrite (bind_go _ _ _ _ _ (readDown_line c i k _ _ _ _ _ Hv)). rewrite Hp. cbn [negb].
  rewrite (bind_go _ _ _ _ _ (writeDown_conn c i k _ _ _ _ _)).
  rewrite (bind_go _ _ _ _ _ (readDown_line c i k _ _ _ _ _ Hq)).
  assert (Hlen : length (chars name ++ [chr 10]) = S (length (chars name))) by (rewrite length_app; simpl; lia).
  assert (length (chars name) ≠ 0%nat).
  { intros E%nil_length_inv. apply Hne. by rewrite <- (text_chars name), E. }
  rewrite !Hlen. cbn [Nat.eqb].
  assert (Hm : ∀ what, (if decide (s_Motd s = "") then mret tt else writeDown what (chars (s_Motd s +:+ LF)))
    (mkSt (conn c rest (tx c ++ [chars RsyncdServerVersion])) u i k) =
    Done (Go tt, mkSt (conn c rest (tx c ++ chars RsyncdServerVersion :: motdLines)) u i k)).
  { intros what. unfold motdLines. case_decide; [done|]. by rewrite writeDown_conn, <- app_assoc. }
  rewrite (bind_go _ _ _ _ _ (Hm _)). destruct (Nat.eqb_spec (length (chars name)) 0); [done|].
  rewrite (bind_go _ _ _ _ _ (sliceTo_ok (Z.of_nat (S (length (chars name))) - 1) _ _ ltac:(rewrite Hlen; lia))).
  replace (Z.to_nat (Z.of_nat (S (length (chars name))) - 1)) with (length (chars name)) by lia.
  rewrite take_app_length, text_chars. done.
Qed.

Lemma request_served c version name rest ts t ref u i k :
  polite c version (chars name ++ [chr 10]) rest → name ≠ "" →
  getTargetsForModule s name = Some ts → targetFor c ts = Some t →
  getQueueForUpstream s (t_Upstream t) = Some ref →
  request s (mkSt c u i k) =
    Done (Go (mkRequest version name t ref),
      mkSt (conn c rest (tx c ++ chars RsyncdServerVersion :: motdLines)) u
        (SetUpstream (t_Upstream t) (SetModule name i)) k).
Proof.
  intros Hc Hne Hts Ht Href. rewrite (request_greeted c version name rest) by done.
  rewrite Hts, Ht.
  rewrite (bind_go _ _ _ _ _ (eq_refl : modify _ _ = Done (Go _, _))). by rewrite Href.
Qed.

(** A client that asks for a module that is not served is told so in the words of
    rsyncd, after the version line and the message of the day; the call ends without an
    error, no upstream is contacted and the refusal is counted. *)
Theorem relay_refuses_unknown w c version name rest index now k :
  polite c version (chars name ++ [chr 10]) rest → name ≠ "" →
  getTargetsForModule s name = None →
  ∃ st', relay s w (start index now c k) = Done (Return None, st') ∧
    written (down st') =
      written c ++ chars RsyncdServerVersion ++ concat motdLines ++
      chars ("@ERROR: Unknown module '" +:+ name +:+ "'" +:+ LF) ∧
    up st' = None ∧
    counters st' = countUnknownModule k ∧ ci_Module (info st') = name.
Proof.
  intros Hc Hne Hts. eexists. split.
  - unfold relay, start. apply bind_return. rewrite (request_greeted c version name rest) by done.
    rewrite Hts. reflexivity.
  - split_and!; try done. unfold written. simpl. rewrite !concat_app. simpl.
    by rewrite app_nil_r, <- !app_assoc.
Qed.

(** *** A client that is served *)

(** The messages of the wait. *)
Definition isNotice (upstream : string) (max : Z) (msg : list ascii) : Prop :=
  ∃ status, msg = chars (position status) ∨
    msg = chars (queuedMessage upstream max +:+ position status).

Lemma queuing_conn what status events upstream max c r t u i k :
  AdmissionQueue.Ok status || existsb isOk events = true →
  ∃ notices, queuing what status events (mkSt (conn c r t) u i k) =
    Done (Go tt, mkSt (conn c r (t ++ notices)) u i k) ∧ Forall (isNotice upstream max) notices.
Proof.
  revert status t. induction events as [|e events IH]; intros status t Hd; cbn [queuing existsb] in *.
  { rewrite orb_false_r in Hd. rewrite Hd. exists []. by rewrite app_nil_r. }
  destruct (AdmissionQueue.Ok status) eqn:Hs; [exists []; by rewrite app_nil_r|]. simpl in Hd.
  set (status' := match e with Got st => st | Minute => status end).
  destruct (AdmissionQueue.Ok status') eqn:He; [exists []; by rewrite app_nil_r|].
  destruct (IH status' (t ++ [chars (position status')])) as (notices & E & Hn).
  { destruct e; simpl in *; [done|by rewrite Hd, orb_true_r]. }
  exists (chars (position status') :: notices). split.
  - rewrite (bind_go _ _ _ _ _ (writeDown_conn c i k _ _ _ _ _)), E. by rewrite <- app_assoc.
  - constructor; [by exists status'; left|done].
Qed.

(** Admitted in the end: the first status is not a refusal and some status is an
    admission. *)
Definition admits (events : list QueueEvent) : bool :=
  match events with
  | Got st :: _ => negb (AdmissionQueue.Full st) && existsb isOk events
  | _ => false
  end.

Lemma awaitSlot_conn max events rq c r t u i k :
  admits events = true →
  ∃ notices, awaitSlot max events rq (mkSt (conn c r t) u i k) =
    Done (Go tt, mkSt (conn c r (t ++ notices)) u i k) ∧
    Forall (isNotice (t_Upstream (rq_target rq)) max) notices.
Proof.
  destruct events as [|[st|] events]; try done. cbn [admits awaitSlot existsb isOk].
  destruct (AdmissionQueue.Full st); [done|]. cbn [negb andb]. intros Hd.
  destruct (AdmissionQueue.Ok st) eqn:Hs; [exists []; by rewrite app_nil_r|].
  rewrite (bind_go _ _ _ _ _ (eq_refl : askDown _ = Done (Go _, _))). cbv zeta.
  rewrite (bind_go _ _ _ _ _ (writeDown_conn c i k _ _ _ _ _)).
  edestruct (queuing_conn) as (notices & E & Hn); [by rewrite Hs|].
  rewrite E. rewrite <- app_assoc. eexists. split; [done|]. constructor; [by exists st; right|done].
Qed.

(** An upstream that speaks the protocol: its first read is a version line, perhaps
    with more behind it. *)
Record answers (u : Conn) (line extra : list ascii) (rest : list (list ascii)) : Prop := {
  an_rx : rx u = (line ++ chr 10 :: extra) :: rest;
  an_tx : txErrs u = [];
  an_line : chr 10 ∉ line;
  an_fits : isLine (line ++ chr 10 :: extra);
  an_prefix : hasPrefix (text (line ++ chr 10 :: extra)) RsyncdVersionPrefix = true }.

(** The PROXY header of a target. *)
Definition headerFor (c u : Conn) (t : Target) : result string :=
  if t_UseProxyProtocol t then generateProxyProtocolHeader (remoteAddr c) (remoteAddr u) else Ret "".

Lemma greet_conn u line extra rest rq c r td i k h :
  answers u line extra rest → headerFor c u (rq_target rq) = Ret h →
  ∃ txu txd, greet u rq (mkSt (conn c r td) (Some u) i k) =
    Done (Go tt, mkSt (conn c r (td ++ txd)) (Some (conn u rest (tx u ++ txu))) i k) ∧
    concat txd = extra ∧
    concat txu = chars h ++ rq_version rq ++ chars (rq_module rq +:+ LF).
Proof.
  intros [Hrx Htx Hl Hf Hp] Hh. 
  replace (Some u) with (Some (conn u ((line ++ chr 10 :: extra) :: rest) (tx u)))
    by (by rewrite <- Hrx, conn_self). unfold greet.
  rewrite (bind_go _ _ _ _ _ (eq_refl : askDown _ = Done (Go _, _))). cbv zeta.
  change (remoteAddr (down (mkSt (conn c r td) (Some (conn u ((line ++ chr 10 :: extra) :: rest) (tx u))) i k)))
    with (remoteAddr c).
  assert (Hhead : ∀ what, ∃ th, concat th = chars h ∧
    (if t_UseProxyProtocol (rq_target rq)
     then onUp what (writeProxyProtocolHeader (remoteAddr c) (remoteAddr u)) else mret tt)
    (mkSt (conn c r td) (Some (conn u ((line ++ chr 10 :: extra) :: rest) (tx u))) i k) =
    Done (Go tt, mkSt (conn c r td) (Some (conn u ((line ++ chr 10 :: extra) :: rest) (tx u ++ th))) i k)).
  { intros what. unfold headerFor in Hh. destruct (t_UseProxyProtocol (rq_target rq)).
    - exists [chars h]. split; [simpl; by rewrite app_nil_r|]. unfold onUp. cbn [up].
      unfold writeProxyProtocolHeader. by rewrite Hh.
    - exists []. injection Hh as <-. by rewrite app_nil_r. }
  edestruct Hhead as (th & Hth & Eh). rewrite (bind_go _ _ _ _ _ Eh).
  rewrite (bind_go _ _ _ _ _ (writeUp_conn u i k _ _ _ _ _)).
  rewrite (bind_go _ _ _ _ _ (readUp_line u i k _ _ _ _ _ Hf)). rewrite Hp. cbn [negb].
  edestruct (sendMotd_conn c i k) as (txd & Em & Hm); [exact Hl|].
  rewrite (bind_go _ _ _ _ _ Em), writeUp_conn.
  rewrite <- !app_assoc. eexists _, txd. split; [reflexivity|]. split; [done|].
  rewrite !concat_app, Hth. simpl. by rewrite !app_nil_r.
Qed.

Lemma handshake_conn u line extra rest rq c r td v i k h :
  answers u line extra rest → headerFor c u (rq_target rq) = Ret h →
  ∃ txu txd, handshake (Ret u) rq (mkSt (conn c r td) v i k) =
    Done (Go tt, mkSt (conn c r (td ++ txd)) (Some (conn u rest (tx u ++ txu))) i k) ∧
    concat txd = extra ∧
    concat txu = chars h ++ rq_version rq ++ chars (rq_module rq +:+ LF).
Proof.
  unfold handshake. rewrite (bind_go _ _ _ _ _ (eq_refl : modify _ _ = Done (Go _, _))).
  apply greet_conn.
Qed.

Lemma checkCap_conn n rq st :
  getPerIPLimitForUpstream s (t_Upstream (rq_target rq)) ≤ 0 ∨
  n ≤ getPerIPLimitForUpstream s (t_Upstream (rq_target rq)) →
  checkCap s n rq st = Done (Go tt, st).
Proof.
  intros Hcap. unfold checkCap. destruct (0 <? _) eqn:H0; simpl; [|done].
  destruct (_ <? n) eqn:Hn; [lia|done].
Qed.

Lemma stream_conn c r t : stream (conn c r t) = concat r.
Proof. done. Qed.

End transparent.

(** ** Instances: a client of the server of [ServerConfig] *)

Section instances.
Import AdmissionQueue.

Definition lineOf (t : string) : list ascii := chars t ++ [chr 10].

Definition demoClient (request : string) : Conn :=
  mkConn [lineOf "@RSYNCD: 31.0 sha512"; lineOf request; chars "--server"; chars " ."] "EOF" [] []
    (TCPAddr [192; 0; 2; 1] 873) (TCPAddr [192; 0; 2; 7] 40000).
Definition demoMirror : Conn :=
  mkConn [lineOf "@RSYNCD: 31.0" ++ lineOf "welcome"; chars "files"] "EOF" [] []
    (TCPAddr [10; 0; 0; 2] 50000) (TCPAddr [10; 0; 0; 1] 873).
Definition demoEnv : Environment :=
  mkEnvironment 1 1 [Got (queuedStatus 0 1); Minute; Got okStatus] (fun _ => Ret demoMirror)
    (mkCopied 10 10) (mkCopied 5 4).

Lemma demoServer_small : smallTables demoServer.
Proof.
  assert (H : bool_decide (map_Forall (fun _ ts => (length ts < 3)%nat) (s_modules demoServer)) = true)
    by by vm_compute.
  apply bool_decide_eq_true_1 in H. intros m ts Hts. pose proof (H m ts Hts) as Hl. simpl in Hl. lia.
Qed.

Lemma demo_polite name :
  isLine (lineOf name) →
  polite (demoClient name) (lineOf "@RSYNCD: 31.0 sha512") (lineOf name) [chars "--server"; chars " ."].
Proof. intros Hl. split; try reflexivity; [|done]. split; [reflexivity|vm_compute; lia]. Qed.

Lemma relay_prologue_ends_witness :
  ∃ rq st', prologue demoServer demoEnv (start 1 0 (demoClient "debian") noCounters) = Done (Go rq, st') ∧ is_Some (up st').
Proof.
  destruct (relay_prologue_ends demoServer demoServer_wf demoServer_small demoEnv
    (start 1 0 (demoClient "debian") noCounters)) as ([e|rq] & st' & E & Hr); [reflexivity| |].
  - exfalso. vm_compute in E. discriminate E.
  - exists rq, st'. split; [exact E|]. exact (proj1 Hr).
Defined.

Lemma relay_refuses_unknown_witness :
  ∃ st', relay demoServer demoEnv (start 1 0 (demoClient "fedora") noCounters) = Done (Return None, st') ∧
    unknownModuleCount (counters st') = 1.
Proof.
  destruct (relay_refuses_unknown demoServer demoEnv (demoClient "fedora") (lineOf "@RSYNCD: 31.0 sha512")
    "fedora" [chars "--server"; chars " ."] 1 0 noCounters) as (st' & E & _ & _ & Hc & _).
  - apply demo_polite. split; [reflexivity|vm_compute; lia].
  - discriminate.
  - vm_compute. reflexivity.
  - exists st'. split; [exact E|]. rewrite Hc. reflexivity.
Defined.

Lemma demoMirror_answers :
  answers demoMirror (chars "@RSYNCD: 31.0") (lineOf "welcome") [chars "files"].
Proof.
  split; try reflexivity.
  - assert (H : bool_decide (chr 10 ∈ chars "@RSYNCD: 31.0") = false) by (vm_compute; reflexivity).
    by apply bool_decide_eq_false_1 in H.
  - split; [reflexivity|vm_compute; lia].
Qed.


Definition connected (o : outcome (flow unit * St)) : bool :=
  match o with
  | Done (_, st') => match up st' with Some _ => true | None => false end
  | _ => false
  end.

Lemma connected_inv o : connected o = true → ∃ r st' u, o = Done (r, st') ∧ up st' = Some u.
Proof.
  destruct o as [[r st']| |]; try done. simpl. destruct (up st') as [u|] eqn:Hu; [|done].
  intros _. by exists r, st', u.
Qed.

Lemma relay_contacts_only_admitted_witness :
  ∃ r st' u, relay demoServer demoEnv (start 1 0 (demoClient "debian") noCounters) = Done (r, st') ∧
    up st' = Some u ∧ existsb isOk (w_events demoEnv) = true.
Proof.
  destruct (connected_inv (relay demoServer demoEnv (start 1 0 (demoClient "debian") noCounters)))
    as (r & st' & u & E & Hu); [vm_compute; reflexivity|].
  destruct (relay_contacts_only_admitted demoServer demoEnv (start 1 0 (demoClient "debian") noCounters)
    r st' u eq_refl E Hu) as (ts & t & _ & _ & _ & _ & Hok & _).
  exists r, st', u. exact (conj E (conj Hu Hok)).
Defined.
End instances.

(** ** A request that fills the buffer

    The name is cut by one byte whether or not the last one is the newline: a request
    of 256 bytes or more without a newline is taken for the module its first 255 bytes
    name. *)
Example long_request_cut :
  let c := mkConn [lineOf "@RSYNCD: 31.0"; replicate 300 "a"%char] "EOF" [] []
             (TCPAddr [192; 0; 2; 1] 873) (TCPAddr [192; 0; 2; 7] 40000) in
  match relay demoServer demoEnv (start 1 0 c noCounters) with
  | Done (Return None, st') => ci_Module (info st') = text (replicate 255 "a"%char)
  | _ => False
  end.
Proof. by vm_compute. Qed.
