(* ===== verification/Watcher.v ===== *)
(** * The watcher of a relay: [pkg/server/server.go], in [relay]

    While two connections are relayed a goroutine wakes up at regular intervals
    and closes both when the relay was idle too long, lasted too long or moved too
    few bytes.  A wake-up ([Tick]) is the time together with what the goroutine
    reads then: the time of the last activity and the bytes moved so far.  Times
    are nanoseconds. *)
From S2P Require Import Prelude GoStd Net Upstreams Admission ServerConfig.
Open Scope Z_scope.

(** ** The interval between wake-ups *)

Definition throughputEnabled (t : relayTimings) : bool := (0 <? minBytes t) && (0 <? minWindow t).

(** Whether the goroutine is started at all. *)
Definition watched (t : relayTimings) : bool :=
  (0 <? idle t) || (0 <? maxDuration t) || throughputEnabled t.

Definition bumpInterval (interval d : Z) : Z :=
  if d <=? 0 then interval
  else if (interval =? 0) || (d <? interval) then d
  else interval.

Definition wakeInterval (t : relayTimings) : Z :=
  let i := 0 in
  let i := if 0 <? idle t then bumpInterval i (Z.quot (idle t) 4) else i in
  let i := if 0 <? maxDuration t then bumpInterval i (Z.quot (maxDuration t) 4) else i in
  let i := if throughputEnabled t then bumpInterval i (Z.quot (minWindow t) 4) else i in
  if i <? second then second else i.

(** ** One wake-up *)

Record Tick := mkTick { now : Z; lastActivity : Z; curBytes : Z }.

(** The moving sample of the throughput check. *)
Record Sample := mkSample { lastSampleTime : Z; lastSampleBytes : Z }.

Inductive Reason := IdleTimedOut | MaxDurationExceeded | BelowThroughputFloor.

Definition onTick (t : relayTimings) (startedAt : Z) (s : Sample) (k : Tick) : Reason + Sample :=
  if (0 <? idle t) && (idle t <=? now k - lastActivity k) then inl IdleTimedOut
  else if (0 <? maxDuration t) && (maxDuration t <=? now k - startedAt) then inl MaxDurationExceeded
  else if throughputEnabled t && (minGrace t <=? now k - startedAt)
          && (minWindow t <=? now k - lastSampleTime s) then
    let delta := curBytes k - lastSampleBytes s in
    if delta <? minBytes t then inl BelowThroughputFloor
    else inr (mkSample (now k) (curBytes k))
  else inr s.

(** The wake-ups of a relay: the reason it was closed for, at which of them, or
    the sample after the last. *)
Fixpoint watch (t : relayTimings) (startedAt : Z) (s : Sample) (ticks : list Tick)
    : (Reason * Tick) + Sample :=
  match ticks with
  | [] => inr s
  | k :: rest =>
      match onTick t startedAt s k with
      | inl r => inl (r, k)
      | inr s' => watch t startedAt s' rest
      end
  end.

Definition watchRelay (t : relayTimings) (startedAt : Z) (ticks : list Tick)
    : (Reason * Tick) + Sample :=
  watch t startedAt (mkSample startedAt 0) ticks.

(** ** The interval *)

Lemma bumpInterval_spec i d :
  0 ≤ i → 0 ≤ bumpInterval i d ∧ (0 < d → 0 < bumpInterval i d ≤ d) ∧
  (0 < i → 0 < bumpInterval i d ≤ i).
Proof.
  intros Hi. unfold bumpInterval. destruct (Z.leb_spec d 0); [lia|].
  destruct (Z.eqb_spec i 0); simpl; [lia|]. destruct (Z.ltb_spec d i); lia.
Qed.

Lemma bumpAll_le ds i d :
  0 ≤ i → d = i ∨ d ∈ ds → 0 < d → 0 < foldl bumpInterval i ds ≤ d.
Proof.
  revert i d. induction ds as [|e ds IH]; intros i d Hi Hd Hpos; simpl.
  { destruct Hd as [->|Hd]; [lia|elem_nil]. }
  destruct (bumpInterval_spec i e Hi) as (H0 & He & Hi').
  assert (0 < bumpInterval i e → 0 < foldl bumpInterval (bumpInterval i e) ds ≤ bumpInterval i e)
    as Hcur by (intros; apply IH; auto).
  rewrite elem_of_cons in Hd. destruct Hd as [->|[->|Hd]]; [lia|lia|]. apply IH; auto.
Qed.

(** The quarters the interval is chosen from. *)
Definition quarters (t : relayTimings) : list Z :=
  (if 0 <? idle t then [Z.quot (idle t) 4] else []) ++
  (if 0 <? maxDuration t then [Z.quot (maxDuration t) 4] else []) ++
  (if throughputEnabled t then [Z.quot (minWindow t) 4] else []).

Lemma wakeInterval_quarters t :
  wakeInterval t = Z.max second (foldl bumpInterval 0 (quarters t)).
Proof.
  unfold wakeInterval, quarters. rewrite !foldl_app.
  assert (∀ i, (if i <? second then second else i) = Z.max second i) as <-
    by (intros i; destruct (Z.ltb_spec i second); lia).
  by destruct (0 <? idle t), (0 <? maxDuration t), (throughputEnabled t).
Qed.

(** The watcher wakes up at least a second apart, and otherwise at least four
    times within each of the timeouts that are enabled (of 4 nanoseconds or more). *)
Theorem wakeInterval_bounds t :
  second ≤ wakeInterval t ∧
  (∀ d, 4 ≤ d → d = idle t ∨ d = maxDuration t ∨ (d = minWindow t ∧ 0 < minBytes t) →
        wakeInterval t = second ∨ 4 * wakeInterval t ≤ d).
Proof.
  rewrite wakeInterval_quarters. split; [lia|]. intros d Hpos Hd.
  assert (Z.quot d 4 ∈ quarters t) as Hin.
  { unfold quarters, throughputEnabled. rewrite !elem_of_app.
    destruct Hd as [->|[->|[-> Hd]]].
    - destruct (Z.ltb_spec 0 (idle t)); [|lia]. auto with go.
    - destruct (Z.ltb_spec 0 (maxDuration t)); [|lia]. auto with go.
    - destruct (Z.ltb_spec 0 (minBytes t)); [|lia].
      destruct (Z.ltb_spec 0 (minWindow t)); [|lia]. simpl. auto with go. }
  pose proof (bumpAll_le (quarters t) 0 (Z.quot d 4) ltac:(lia) (or_intror Hin)) as Hle.
  rewrite Z.quot_div_nonneg in Hle by lia. pose proof (Z.mul_div_le d 4).
  assert (0 < d / 4) by (apply Z.div_str_pos; lia). lia.
Qed.

(** ** What the watcher closes, and what it leaves alone *)

(** A moment at which the bytes moved are known: the start or a wake-up. *)
Definition moment (startedAt : Z) (ticks : list Tick) (time bytes : Z) : Prop :=
  (time = startedAt ∧ bytes = 0) ∨ ∃ k, k ∈ ticks ∧ time = now k ∧ bytes = curBytes k.

(** Why a relay may be closed at wake-up [k], after the wake-ups [before]. *)
Definition justified (t : relayTimings) (startedAt : Z) (before : list Tick) (k : Tick)
    (r : Reason) : Prop :=
  match r with
  | IdleTimedOut => 0 < idle t ∧ idle t ≤ now k - lastActivity k
  | MaxDurationExceeded => 0 < maxDuration t ∧ maxDuration t ≤ now k - startedAt
  | BelowThroughputFloor =>
      0 < minBytes t ∧ 0 < minWindow t ∧ minGrace t ≤ now k - startedAt ∧
      ∃ time bytes, moment startedAt before time bytes ∧ minWindow t ≤ now k - time ∧
        curBytes k - bytes < minBytes t
  end.

Lemma throughputEnabled_iff t : throughputEnabled t = true ↔ 0 < minBytes t ∧ 0 < minWindow t.
Proof. unfold throughputEnabled. by rewrite andb_true_iff, !Z.ltb_lt. Qed.

Lemma onTick_justified t startedAt before s k r :
  moment startedAt before (lastSampleTime s) (lastSampleBytes s) →
  onTick t startedAt s k = inl r → justified t startedAt before k r.
Proof.
  intros Hs. unfold onTick.
  destruct (Z.ltb_spec 0 (idle t)); destruct (Z.leb_spec (idle t) (now k - lastActivity k)); simpl;
    try (intros [= <-]; by split).
  all: destruct (Z.ltb_spec 0 (maxDuration t));
    destruct (Z.leb_spec (maxDuration t) (now k - startedAt)); simpl; try (intros [= <-]; by split).
  all: destruct (throughputEnabled t) eqn:E; simpl; [|done];
    apply throughputEnabled_iff in E;
    destruct (Z.leb_spec (minGrace t) (now k - startedAt)); simpl; [|done];
    destruct (Z.leb_spec (minWindow t) (now k - lastSampleTime s)); simpl; [|done];
    destruct (Z.ltb_spec (curBytes k - lastSampleBytes s) (minBytes t)); [|done];
    intros [= <-]; simpl; naive_solver.
Qed.

Lemma onTick_moment t startedAt before s k s' :
  moment startedAt before (lastSampleTime s) (lastSampleBytes s) →
  onTick t startedAt s k = inr s' →
  moment startedAt (before ++ [k]) (lastSampleTime s') (lastSampleBytes s').
Proof.
  intros Hs. assert (moment startedAt (before ++ [k]) (lastSampleTime s) (lastSampleBytes s)) as Hs'.
  { destruct Hs as [?|(k' & ? & ?)]; [by left|right]. exists k'. rewrite elem_of_app. auto. }
  unfold onTick. repeat case_match; intros [= <-]; try done.
  right. exists k. rewrite elem_of_app. simpl. auto with go.
Qed.

Lemma watch_justified t startedAt before s ticks r k :
  moment startedAt before (lastSampleTime s) (lastSampleBytes s) →
  watch t startedAt s ticks = inl (r, k) →
  ∃ l1 l2, ticks = l1 ++ k :: l2 ∧ justified t startedAt (before ++ l1) k r.
Proof.
  revert before s. induction ticks as [|k' ticks IH]; intros before s Hs; simpl; [done|].
  destruct (onTick t startedAt s k') as [r'|s'] eqn:E.
  - intros [= -> ->]. exists [], ticks. split; [done|]. rewrite app_nil_r.
    by eapply onTick_justified.
  - intros Hw. apply (onTick_moment _ _ _ _ _ _ Hs) in E.
    destruct (IH _ _ E Hw) as (l1 & l2 & -> & Hj). exists (k' :: l1), l2.
    split; [done|]. by rewrite <- app_assoc in Hj.
Qed.

(** C37: A relay is only ever closed for cause: the reason the watcher gives holds at
    the wake-up at which it closes the relay. *)
Theorem watcher_sound t startedAt ticks r k :
  watchRelay t startedAt ticks = inl (r, k) →
  ∃ l1 l2, ticks = l1 ++ k :: l2 ∧ justified t startedAt l1 k r.
Proof. apply (watch_justified t startedAt []). by left. Qed.

(** The bounds a relay that is still open has kept at a wake-up. *)
Definition withinLimits (t : relayTimings) (startedAt : Z) (k : Tick) : Prop :=
  (0 < idle t → now k - lastActivity k < idle t) ∧
  (0 < maxDuration t → now k - startedAt < maxDuration t).

Lemma onTick_within t startedAt s k s' :
  onTick t startedAt s k = inr s' →
  withinLimits t startedAt k ∧
  (0 < minBytes t → 0 < minWindow t → minGrace t ≤ now k - startedAt →
   minWindow t ≤ now k - lastSampleTime s →
   minBytes t ≤ curBytes k - lastSampleBytes s ∧ s' = mkSample (now k) (curBytes k)).
Proof.
  unfold onTick, withinLimits.
  destruct (Z.ltb_spec 0 (idle t)); destruct (Z.leb_spec (idle t) (now k - lastActivity k)); simpl;
    try done.
  all: destruct (Z.ltb_spec 0 (maxDuration t));
    destruct (Z.leb_spec (maxDuration t) (now k - startedAt)); simpl; try done.
  all: intros E; split; [lia|]; intros G1 G2 G3 G4; revert E;
    rewrite (proj2 (throughputEnabled_iff t)) by done; simpl;
    destruct (Z.leb_spec (minGrace t) (now k - startedAt)); [|lia];
    destruct (Z.leb_spec (minWindow t) (now k - lastSampleTime s)); [|lia]; simpl;
    destruct (Z.ltb_spec (curBytes k - lastSampleBytes s) (minBytes t)); [done|];
    intros [= <-]; done.
Qed.

(** No limit is missed: a relay that is still open after a wake-up had neither
    been idle for the idle timeout nor lasted the maximal duration then, at any of
    its wake-ups; with wake-ups at most [wakeInterval] apart, it is closed at the
    latest that long after reaching a limit. *)
Theorem watcher_complete t startedAt ticks s :
  watchRelay t startedAt ticks = inr s → Forall (withinLimits t startedAt) ticks.
Proof.
  unfold watchRelay. generalize (mkSample startedAt 0). induction ticks as [|k ticks IH];
    intros s0; simpl; [by constructor|].
  destruct (onTick t startedAt s0 k) as [r|s1] eqn:E; [done|]. intros Hw.
  constructor; [by eapply onTick_within|]. by eapply IH.
Qed.

(** A client that moves enough is left alone: if at least [minBytes] are moved
    over every stretch of [minWindow] or more between two wake-ups (or the start),
    the relay is never closed for its throughput. *)
Theorem watcher_spares_fast_clients t startedAt ticks :
  (∀ l1 k l2 time bytes, ticks = l1 ++ k :: l2 → moment startedAt l1 time bytes →
     minWindow t ≤ now k - time → minBytes t ≤ curBytes k - bytes) →
  ∀ k, watchRelay t startedAt ticks ≠ inl (BelowThroughputFloor, k).
Proof.
  intros Hfast k Hw. apply (watch_justified t startedAt []) in Hw as (l1 & l2 & Heq & Hj); [|by left].
  destruct Hj as (_ & _ & _ & time & bytes & Hm & Hwin & Hlt).
  specialize (Hfast l1 k l2 time bytes Heq Hm Hwin). lia.
Qed.

(** ** Instances *)

Section instances.
Definition demoTimings : relayTimings :=
  mkTimings (60 * second) (3600 * second) 0 1000 (10 * second) (20 * second).

Definition demoTicks : list Tick :=
  [mkTick (5 * second) (4 * second) 500; mkTick (20 * second) (19 * second) 2000;
   mkTick (30 * second) (29 * second) 2100].

Lemma watcher_sound_witness :
  justified demoTimings 0 (take 2 demoTicks) (mkTick (30 * second) (29 * second) 2100)
    BelowThroughputFloor.
Proof.
  destruct (watcher_sound demoTimings 0 demoTicks BelowThroughputFloor
    (mkTick (30 * second) (29 * second) 2100)) as (l1 & l2 & Heq & Hj); [by vm_compute|].
  assert (l1 = take 2 demoTicks) as <-; [|exact Hj].
  destruct l1 as [|a [|b [|c [|d l1]]]]; injection Heq; intros; subst; try discriminate; done.
Defined.

Lemma watcher_complete_witness : Forall (withinLimits demoTimings 0) (take 2 demoTicks).
Proof.
  apply (watcher_complete demoTimings 0 (take 2 demoTicks)
    (mkSample (20 * second) 2000)). by vm_compute.
Defined.

Lemma watcher_spares_fast_clients_witness :
  ∀ k, watchRelay demoTimings 0 [mkTick (20 * second) (19 * second) 2000] ≠
    inl (BelowThroughputFloor, k).
Proof.
  apply (watcher_spares_fast_clients demoTimings 0 [mkTick (20 * second) (19 * second) 2000]).
  intros [|a l1] k l2 time bytes Heq Hm _; simplify_eq/=; [|by destruct l1].
  destruct Hm as [[-> ->]|(k & Hk & _)]; [simpl; lia|elem_nil].
Defined.
End instances.
