(* ===== verification/Closing.v ===== *)
(** * The copy phase and its end: the last part of [relay] in [pkg/server/server.go]

    Four goroutines share the two connections of a relay: one [io.Copy] per direction, the
    watcher, and the call of [relay] itself, which waits for either copy to end, closes
    what the other one depends on, waits for both and reads the totals.  A step ([Event])
    is one operation of one of them, so a run is an interleaving; what the peers do is
    which steps happen.  [Relay] takes how far each direction was copied as given; here it
    comes out of the run. *)
From S2P Require Import Prelude GoStd Net Upstreams Queue Admission ServerConfig Relay Watcher.
Open Scope Z_scope.

(** ** State *)

(** [ToUp] is [io.Copy(upConn, downReader)], which closes [sentClosed] when it ends;
    [ToDown] is [io.Copy(downConn, upReader)], which closes [receivedClosed]. *)
Inductive Direction := ToUp | ToDown.

#[export] Instance Direction_eq_dec : EqDecision Direction.
Proof. solve_decision. Defined.

Definition opposite (d : Direction) : Direction := match d with ToUp => ToDown | ToDown => ToUp end.

(** Where an [io.Copy] is: in [Read], in [Write] with these bytes, or returned. *)
Inductive Phase := Reading | Writing (p : list ascii) | Ended.

#[export] Instance Phase_eq_dec : EqDecision Phase.
Proof. solve_decision. Defined.

(** What a connection is: [*net.TCPConn], [*net.UnixConn] or [*tls.Conn]. *)
Inductive Kind := TCP | Unix | TLS.

Inductive Mode := Open | ReadShut | Shut.

#[export] Instance Mode_eq_dec : EqDecision Mode.
Proof. solve_decision. Defined.

Record Socket := mkSocket { kind : Kind; mode : Mode; lingerZero : bool }.

Definition openSocket (k : Kind) : Socket := mkSocket k Open false.

(** [conn.Close()]; a second one fails, which is ignored. *)
Definition Close (s : Socket) : Socket := mkSocket (kind s) Shut (lingerZero s).

(** [closeRead(conn, setLinger)]: a TLS connection has no [CloseRead]. *)
Definition closeRead (setLinger : bool) (s : Socket) : Socket :=
  let s :=
    if setLinger then
      match kind s with
      | TCP => mkSocket (kind s) (mode s) true
      | _ => s
      end
    else s in
  match kind s, mode s with
  | TLS, _ => s
  | _, Open => mkSocket (kind s) ReadShut (lingerZero s)
  | _, _ => s
  end.

(** The call of [relay]: at the [select], in the case for the direction that ended, before
    and after its [closeRead], at [<-sentClosed], at [<-receivedClosed], and past the totals. *)
Inductive MainAt := Selecting | Chose (d : Direction) | HalfClosed (d : Direction)
  | AwaitSent | AwaitReceived | Finished.

(** The watcher: not started, in its loop, between its two [Close] calls, returned. *)
Inductive WatcherAt := NotStarted | Watching (s : Sample) | ClosingDown | Returned.

Record Copies := mkCopies {
  toUp : Phase; toDown : Phase;
  downConn : Conn; upConn : Conn;
  downSocket : Socket; upSocket : Socket;
  SentBytes : Z; ReceivedBytes : Z;     (* of [info] *)
  activity : Z;                         (* *lastActivity *)
  mainAt : MainAt; watcherAt : WatcherAt;
  totals : Counters }.

Definition phase (d : Direction) (s : Copies) : Phase :=
  match d with ToUp => toUp s | ToDown => toDown s end.
Definition source (d : Direction) (s : Copies) : Conn :=
  match d with ToUp => downConn s | ToDown => upConn s end.
Definition sink (d : Direction) (s : Copies) : Conn :=
  match d with ToUp => upConn s | ToDown => downConn s end.
Definition sourceSocket (d : Direction) (s : Copies) : Socket :=
  match d with ToUp => downSocket s | ToDown => upSocket s end.
Definition sinkSocket (d : Direction) (s : Copies) : Socket :=
  match d with ToUp => upSocket s | ToDown => downSocket s end.
(** The counter of the direction's [countingReader]. *)
Definition counted (d : Direction) (s : Copies) : Z :=
  match d with ToUp => ReceivedBytes s | ToDown => SentBytes s end.

Definition setPhase (d : Direction) (p : Phase) (s : Copies) : Copies :=
  mkCopies (match d with ToUp => p | ToDown => toUp s end)
    (match d with ToUp => toDown s | ToDown => p end)
    (downConn s) (upConn s) (downSocket s) (upSocket s) (SentBytes s) (ReceivedBytes s)
    (activity s) (mainAt s) (watcherAt s) (totals s).
Definition onSource (d : Direction) (f : Conn → Conn) (s : Copies) : Copies :=
  mkCopies (toUp s) (toDown s)
    (match d with ToUp => f (downConn s) | ToDown => downConn s end)
    (match d with ToUp => upConn s | ToDown => f (upConn s) end)
    (downSocket s) (upSocket s) (SentBytes s) (ReceivedBytes s)
    (activity s) (mainAt s) (watcherAt s) (totals s).
Definition onSink (d : Direction) (f : Conn → Conn) (s : Copies) : Copies :=
  onSource (opposite d) f s.
Definition onDownSocket (f : Socket → Socket) (s : Copies) : Copies :=
  mkCopies (toUp s) (toDown s) (downConn s) (upConn s) (f (downSocket s)) (upSocket s)
    (SentBytes s) (ReceivedBytes s) (activity s) (mainAt s) (watcherAt s) (totals s).
Definition onUpSocket (f : Socket → Socket) (s : Copies) : Copies :=
  mkCopies (toUp s) (toDown s) (downConn s) (upConn s) (downSocket s) (f (upSocket s))
    (SentBytes s) (ReceivedBytes s) (activity s) (mainAt s) (watcherAt s) (totals s).
Definition setMain (m : MainAt) (s : Copies) : Copies :=
  mkCopies (toUp s) (toDown s) (downConn s) (upConn s) (downSocket s) (upSocket s)
    (SentBytes s) (ReceivedBytes s) (activity s) m (watcherAt s) (totals s).
Definition setWatcher (w : WatcherAt) (s : Copies) : Copies :=
  mkCopies (toUp s) (toDown s) (downConn s) (upConn s) (downSocket s) (upSocket s)
    (SentBytes s) (ReceivedBytes s) (activity s) (mainAt s) w (totals s).
Definition onTotals (f : Counters → Counters) (s : Copies) : Copies :=
  mkCopies (toUp s) (toDown s) (downConn s) (upConn s) (downSocket s) (upSocket s)
    (SentBytes s) (ReceivedBytes s) (activity s) (mainAt s) (watcherAt s) (f (totals s)).

(** ** Steps *)

Section relay.
Context (t : relayTimings) (startedAt : Z) (module upstream : string).

(** The bookkeeping of [countingReader.Read] for [n > 0] bytes. *)
Definition countRead (d : Direction) (n : nat) (now : Z) (s : Copies) : Copies :=
  mkCopies (toUp s) (toDown s) (downConn s) (upConn s) (downSocket s) (upSocket s)
    (match d with ToUp => SentBytes s | ToDown => int64 (SentBytes s + Z.of_nat n) end)
    (match d with ToUp => int64 (ReceivedBytes s + Z.of_nat n) | ToDown => ReceivedBytes s end)
    (if 0 <? idle t then now else activity s) (mainAt s) (watcherAt s) (totals s).

(** The buffer of [io.Copy]. *)
Definition copyBuffer : nat := Z.to_nat (32 * 1024).

(** A read of [io.Copy] that returns: data, nothing, or an error, the end of the stream
    included.  On a connection this process closed, or whose reading side it shut, it fails. *)
Definition copyRead (d : Direction) (now : Z) (s : Copies) : option Copies :=
  match phase d s with
  | Reading =>
      match mode (sourceSocket d s) with
      | Open =>
          match Read copyBuffer (source d s) with
          | ((_, Some _), _) => Some (setPhase d Ended s)
          | (([], None), c) => Some (onSource d (const c) s)
          | ((p, None), c) =>
              Some (setPhase d (Writing p) (countRead d (length p) now (onSource d (const c) s)))
          end
      | _ => Some (setPhase d Ended s)
      end
  | _ => None
  end.

(** A write of [io.Copy] that the peer takes in full: not on a closed connection. *)
Definition copyWrite (d : Direction) (s : Copies) : option Copies :=
  match phase d s, mode (sinkSocket d s) with
  | Writing _, Shut => None
  | Writing p, _ => Some (setPhase d Reading (onSink d (appendTx p) s))
  | _, _ => None
  end.

(** A write that fails after the peer took [k] bytes. *)
Definition copyWriteFails (d : Direction) (k : nat) (s : Copies) : option Copies :=
  match phase d s with
  | Writing p =>
      if (k <=? length p)%nat then Some (setPhase d Ended (onSink d (appendTx (take k p)) s)) else None
  | _ => None
  end.

(** The reason's counter. *)
Definition countTerminated (r : Reason) (u : upstreamCounters) : upstreamCounters :=
  match r with
  | IdleTimedOut =>
      mkUpstreamCounters (queueFull u) (dialError u) (perIPRejected u)
        (uint64 (idleTerminated u + 1)) (maxDurationTerminated u) (throughputFloorTerminated u)
  | MaxDurationExceeded =>
      mkUpstreamCounters (queueFull u) (dialError u) (perIPRejected u)
        (idleTerminated u) (uint64 (maxDurationTerminated u + 1)) (throughputFloorTerminated u)
  | BelowThroughputFloor =>
      mkUpstreamCounters (queueFull u) (dialError u) (perIPRejected u)
        (idleTerminated u) (maxDurationTerminated u) (uint64 (throughputFloorTerminated u + 1))
  end.

(** The watcher: [case now := <-ticker.C], up to [upConn.Close()] when it closes, *)
Definition watcherWakes (now : Z) (s : Copies) : option Copies :=
  match watcherAt s with
  | Watching smp =>
      match onTick t startedAt smp (mkTick now (activity s) (int64 (SentBytes s + ReceivedBytes s))) with
      | inl r =>
          Some (setWatcher ClosingDown (onUpSocket Close
                 (onTotals (onUpstream upstream (countTerminated r)) s)))
      | inr smp' => Some (setWatcher (Watching smp') s)
      end
  | _ => None
  end.

(** [downConn.Close(); return], *)
Definition watcherCloses (s : Copies) : option Copies :=
  match watcherAt s with
  | ClosingDown => Some (setWatcher Returned (onDownSocket Close s))
  | _ => None
  end.

(** and [case <-sentClosed: return] with [case <-receivedClosed: return]. *)
Definition watcherReturns (s : Copies) : option Copies :=
  match watcherAt s with
  | Watching _ =>
      if bool_decide (toUp s = Ended) || bool_decide (toDown s = Ended)
      then Some (setWatcher Returned s) else None
  | _ => None
  end.

(** The totals, read when both directions have ended. *)
Definition countTotals (s : Copies) : Copies :=
  onTotals (countFinished module upstream (uint64 (SentBytes s)) (uint64 (ReceivedBytes s))) s.

(** The next operation of the call of [relay]; [d] is the case its [select] takes. *)
Definition mainStep (d : Direction) (s : Copies) : option Copies :=
  match mainAt s with
  | Selecting => if decide (phase d s = Ended) then Some (setMain (Chose d) s) else None
  | Chose ToDown => Some (setMain (HalfClosed ToDown) (onUpSocket (closeRead true) s))
  | Chose ToUp => Some (setMain (HalfClosed ToUp) (onDownSocket (closeRead false) s))
  | HalfClosed ToDown => Some (setMain AwaitSent (onDownSocket Close s))
  | HalfClosed ToUp => Some (setMain AwaitSent (onUpSocket Close s))
  | AwaitSent => if decide (toUp s = Ended) then Some (setMain AwaitReceived s) else None
  | AwaitReceived =>
      if decide (toDown s = Ended) then Some (setMain Finished (countTotals s)) else None
  | Finished => None
  end.

Inductive Event :=
  | ReadFrom (d : Direction) (now : Z)
  | WriteAll (d : Direction)
  | WriteFails (d : Direction) (k : nat)
  | Wake (now : Z)
  | CloseDown
  | ReturnWatcher
  | Main (d : Direction).

(** One step; [None] when it cannot happen (yet). *)
Definition step (e : Event) (s : Copies) : option Copies :=
  match e with
  | ReadFrom d now => copyRead d now s
  | WriteAll d => copyWrite d s
  | WriteFails d k => copyWriteFails d k s
  | Wake now => watcherWakes now s
  | CloseDown => watcherCloses s
  | ReturnWatcher => watcherReturns s
  | Main d => mainStep d s
  end.

Fixpoint run (es : list Event) (s : Copies) : option Copies :=
  match es with
  | [] => Some s
  | e :: es => s' ← step e s; run es s'
  end.

(** The start of the copy phase, between connections of the given kinds. *)
Definition begin (kd ku : Kind) (down up : Conn) (i : ConnInfo) (k : Counters) : Copies :=
  mkCopies Reading Reading down up (openSocket kd) (openSocket ku)
    (ci_SentBytes i) (ci_ReceivedBytes i) startedAt Selecting
    (if watched t then Watching (mkSample startedAt 0) else NotStarted) k.
End relay.

(** ** Runs *)

Section runs.
Context (t : relayTimings) (startedAt : Z) (module upstream : string).
Local Abbreviation step := (step t startedAt module upstream).
Local Abbreviation run := (run t startedAt module upstream).

(** Case analysis on a step that happened. *)
Ltac step_cases H :=
  unfold Closing.step, copyRead, copyWrite, copyWriteFails, watcherWakes, watcherCloses, watcherReturns,
    mainStep in H; repeat case_match; simplify_eq.

Lemma run_app es1 es2 s : run (es1 ++ es2) s = run es1 s ≫= run es2.
Proof.
  revert s. induction es1 as [|e es1 IH]; intros s; simpl; [done|].
  destruct (step e s) as [s'|]; simpl; auto.
Qed.

(** A property kept by every step is kept by every run. *)
Lemma run_invariant (P : Copies → Prop) es s s' :
  (∀ e s s', P s → step e s = Some s' → P s') → P s → run es s = Some s' → P s'.
Proof.
  intros Hstep. revert s. induction es as [|e es IH]; simpl; intros s Hs.
  - by intros [= <-].
  - destruct (step e s) as [s1|] eqn:E; simpl; [|done]. eauto.
Qed.

(** *** One direction *)

(** What direction [d] has done since it started between [from] and [to]: [taken] was read
    and counted, [put] was written, and nothing is lost between them but by a write that
    failed. *)
Definition along (d : Direction) (from to : Conn) (n : Z) (s : Copies) : Prop :=
  ∃ taken put, stream from = taken ++ stream (source d s) ∧
    counted d s = int64 (n + Z.of_nat (length taken)) ∧
    written (sink d s) = written to ++ put ∧
    match phase d s with
    | Reading => taken = put
    | Writing p => taken = put ++ p ∧ p ≠ []
    | Ended => put `prefix_of` taken
    end.

Lemma along_same d from to n s s' :
  along d from to n s → stream (source d s') = stream (source d s) → counted d s' = counted d s →
  tx (sink d s') = tx (sink d s) → phase d s' = phase d s → along d from to n s'.
Proof. intros (taken & put & H) E1 E2 E3 E4. exists taken, put. unfold written. by rewrite E1, E2, E3, E4. Qed.

Lemma along_read d from to n now s s' :
  along d from to n s → copyRead t d now s = Some s' → along d from to n s'.
Proof.
  intros (taken & put & H1 & H2 & H3 & H4). unfold copyRead.
  destruct (phase d s) eqn:Ep; try done. subst put.
  assert (along d from to n (setPhase d Ended s)) as Hend.
  { exists taken, taken. destruct d; simpl in *; split_and!; (done || reflexivity). }
  destruct (mode _); try (intros [= <-]; done).
  destruct (Read copyBuffer (source d s)) as [[p o] c] eqn:Er.
  apply Read_spec in Er as (Es & _ & _ & Et & _).
  destruct p as [|a p], o; try (intros [= <-]; done).
  - intros [= <-]. apply (along_same _ _ _ _ s); [by exists taken, taken; rewrite Ep| |by destruct d..].
    destruct d; simpl in *; congruence.
  - set (p' := a :: p) in *. intros [= <-]. exists (taken ++ p'), taken.
    rewrite length_app, Nat2Z.inj_add, Z.add_assoc, <- int64_add, <- H2, <- app_assoc.
    rewrite H1, <- Es. destruct d; simpl; done.
Qed.

Lemma written_appendTx p c : written (appendTx p c) = written c ++ p.
Proof. unfold written, appendTx. simpl. by rewrite concat_app; simpl; rewrite app_nil_r. Qed.

Lemma along_write d from to n s s' :
  along d from to n s → copyWrite d s = Some s' → along d from to n s'.
Proof.
  intros (taken & put & H1 & H2 & H3 & H4). unfold copyWrite.
  destruct (phase d s) as [|p|] eqn:Ep; try done. destruct H4 as [-> Hp].
  intros E. assert (s' = setPhase d Reading (onSink d (appendTx p) s)) as -> by (destruct (mode _); congruence).
  exists (put ++ p), (put ++ p). destruct d; simpl in *; rewrite written_appendTx, H3, app_assoc; done.
Qed.

Lemma along_writeFails d from to n k s s' :
  along d from to n s → copyWriteFails d k s = Some s' → along d from to n s'.
Proof.
  intros (taken & put & H1 & H2 & H3 & H4). unfold copyWriteFails.
  destruct (phase d s) as [|p|] eqn:Ep; try done. destruct H4 as [-> Hp].
  destruct (Nat.leb_spec k (length p)); [|done]. intros [= <-]. exists (put ++ p), (put ++ take k p).
  assert (put ++ take k p `prefix_of` put ++ p) by apply prefix_app, prefix_take.
  destruct d; simpl in *; rewrite written_appendTx, H3, app_assoc; done.
Qed.

(** What the other direction, the watcher and the call itself do leaves it alone. *)
Lemma along_other d from to n e s s' :
  match e with ReadFrom d' _ | WriteAll d' | WriteFails d' _ => d' ≠ d | _ => True end →
  step e s = Some s' → along d from to n s → along d from to n s'.
Proof.
  intros Hd E Ha. destruct e as [d' now|d'|d' k|now| | |d']; simpl in E.
  - unfold copyRead in E. destruct (phase d' s) eqn:Ep; try done.
    destruct (mode (sourceSocket d' s)); simplify_eq; try (by apply (along_same _ _ _ _ s); destruct d, d').
    destruct (Read copyBuffer (source d' s)) as [[p o] c] eqn:Er. apply Read_spec in Er as (_ & _ & _ & Et & _).
    destruct o, p; simplify_eq; apply (along_same _ _ _ _ s); destruct d, d'; done.
  - unfold copyWrite in E. repeat case_match; simplify_eq; apply (along_same _ _ _ _ s); destruct d, d'; done.
  - unfold copyWriteFails in E. repeat case_match; simplify_eq; apply (along_same _ _ _ _ s); destruct d, d'; done.
  - unfold watcherWakes in E. repeat case_match; simplify_eq; apply (along_same _ _ _ _ s); destruct d; done.
  - unfold watcherCloses in E. repeat case_match; simplify_eq; apply (along_same _ _ _ _ s); destruct d; done.
  - unfold watcherReturns in E. repeat case_match; simplify_eq; apply (along_same _ _ _ _ s); destruct d; done.
  - unfold mainStep in E. repeat case_match; simplify_eq; apply (along_same _ _ _ _ s); destruct d; done.
Qed.

Lemma along_step d from to n e s s' :
  along d from to n s → step e s = Some s' → along d from to n s'.
Proof.
  intros Ha E.
  destruct e as [d' now|d'|d' k|now| | |d']; try (by eapply along_other; eauto; done);
    (destruct (decide (d' = d)) as [->|]; [|by eapply along_other; eauto; done]).
  - by eapply along_read.
  - by eapply along_write.
  - by eapply along_writeFails.
Qed.

(** *** The totals *)

(** The counters when the totals are left out: those at the start, and one more closed relay
    once the watcher has closed this one. *)
Definition terminated (k0 k : Counters) (w : WatcherAt) : Prop :=
  match w with
  | NotStarted | Watching _ => k = k0
  | _ => k = k0 ∨ ∃ r, k = onUpstream upstream (countTerminated r) k0
  end.

Definition tallied (k0 : Counters) (s : Copies) : Prop :=
  match mainAt s with
  | Finished => toUp s = Ended ∧ toDown s = Ended ∧
      ∃ k, terminated k0 k (watcherAt s) ∧
        totals s = countFinished module upstream (uint64 (SentBytes s)) (uint64 (ReceivedBytes s)) k
  | AwaitReceived => toUp s = Ended ∧ terminated k0 (totals s) (watcherAt s)
  | _ => terminated k0 (totals s) (watcherAt s)
  end.

Lemma terminated_returned k0 k w : terminated k0 k w → terminated k0 k Returned.
Proof. destruct w; simpl; auto. Qed.

Lemma onUpstream_countFinished f sent received k :
  onUpstream upstream f (countFinished module upstream sent received k) =
  countFinished module upstream sent received (onUpstream upstream f k).
Proof. done. Qed.

(** A goroutine that has returned takes no step. *)
Lemma copier_ended d e s :
  phase d s = Ended → match e with ReadFrom d' _ | WriteAll d' | WriteFails d' _ => d' = d | _ => False end →
  step e s = None.
Proof.
  intros Hp He. destruct e; try done; subst; simpl; unfold copyRead, copyWrite, copyWriteFails; by rewrite Hp.
Qed.

(** What a step of an [io.Copy] leaves alone. *)
Lemma copier_step d e s s' :
  match e with ReadFrom d' _ | WriteAll d' | WriteFails d' _ => d' = d | _ => False end →
  step e s = Some s' →
  phase d s ≠ Ended ∧ mainAt s' = mainAt s ∧ watcherAt s' = watcherAt s ∧ totals s' = totals s ∧
  downSocket s' = downSocket s ∧ upSocket s' = upSocket s ∧
  phase (opposite d) s' = phase (opposite d) s.
Proof.
  intros He E. split; [intros Hd; by rewrite (copier_ended d _ _ Hd) in E|].
  destruct e; try done; subst; simpl in E; unfold copyRead, copyWrite, copyWriteFails in E;
    repeat case_match; simplify_eq; by destruct d.
Qed.

Lemma tallied_step k0 e s s' : tallied k0 s → step e s = Some s' → tallied k0 s'.
Proof.
  intros Ht E. destruct e as [d now|d|d k|now| | |d].
  1-3: apply (copier_step d) in E as (Hd & Em & Ew & Et & _ & _ & Eo); [|done];
    unfold tallied in *; rewrite Em, Ew, Et; destruct (mainAt s); try done; destruct d; simpl in *; destruct_and?; try done; split_and!; congruence.
  - unfold step, watcherWakes in E. destruct (watcherAt s) as [|smp| |] eqn:Ew; try done.
    destruct (onTick _ _ _ _) as [r|smp']; simplify_eq; unfold tallied in *; simpl; rewrite Ew in Ht.
    + destruct (mainAt s); simpl in *; try (right; exists r; by rewrite Ht).
      * split; [naive_solver|]. right. exists r. destruct Ht as [_ ->]. done.
      * destruct Ht as (? & ? & k & -> & ->). split_and!; try done.
        exists (onUpstream upstream (countTerminated r) k0). split; [right; by exists r|].
        apply onUpstream_countFinished.
    + done.
  - unfold step, watcherCloses in E. destruct (watcherAt s) eqn:Ew; try done. simplify_eq.
    unfold tallied in *. simpl. by rewrite Ew in Ht.
  - unfold step, watcherReturns in E. destruct (watcherAt s) eqn:Ew; try done. case_match; simplify_eq.
    unfold tallied in *. simpl. rewrite Ew in Ht. destruct (mainAt s); naive_solver.
  - unfold step, mainStep in E. unfold tallied in *. destruct (mainAt s) as [|[]|[]| | |] eqn:Em;
      repeat case_match; simplify_eq; simpl; naive_solver.
Qed.

(** A finished run is one [copyPhase]: the same bytes written to both sides, the same
    bytes counted, the same totals. *)
Lemma copies_copyPhase kd ku st u rq es s :
  rq_module rq = module → t_Upstream (rq_target rq) = upstream → up st = Some u →
  inInt64 (ci_SentBytes (info st)) → inInt64 (ci_ReceivedBytes (info st)) →
  run es (begin t startedAt kd ku (down st) u (info st) (counters st)) = Some s →
  mainAt s = Finished →
  ∃ n m k st' u', terminated (counters st) k Returned ∧
    copyPhase n m rq (setCounters (const k) st) = Done (Go tt, st') ∧ up st' = Some u' ∧
    written (down st') = written (downConn s) ∧ written u' = written (upConn s) ∧
    ci_SentBytes (info st') = SentBytes s ∧ ci_ReceivedBytes (info st') = ReceivedBytes s ∧
    counters st' = totals s.
Proof.
  intros Hm Ht Hu Hs Hr Hrun Hf. set (s0 := begin _ _ _ _ _ _ _ _) in Hrun.
  assert (∀ d, along d (source d s0) (sink d s0) (counted d s0) s0) as H0.
  { intros d. exists [], []. rewrite Z.add_0_r, app_nil_r. destruct d; simpl; rewrite int64_id by done; done. }
  assert (∀ d, along d (source d s0) (sink d s0) (counted d s0) s) as Ha.
  { intros d. apply (run_invariant _ es s0); [apply along_step|apply H0|done]. }
  assert (tallied (counters st) s) as Htal.
  { apply (run_invariant _ es s0); [apply tallied_step|by unfold tallied; simpl; destruct (watched t)|done]. }
  unfold tallied in Htal. rewrite Hf in Htal. destruct Htal as (Eu & Ed & k & Hk & Etot).
  destruct (Ha ToUp) as (tu & pu & U1 & U2 & U3 & U4). destruct (Ha ToDown) as (td & pd & D1 & D2 & D3 & D4).
  simpl in *. rewrite Eu in U4. rewrite Ed in D4. destruct U4 as [ru ->], D4 as [rd ->].
  exists (mkCopied (length (pu ++ ru)) (length pu)), (mkCopied (length (pd ++ rd)) (length pd)), k.
  unfold copyPhase. rewrite Hm, Ht. simpl. rewrite Hu. eexists _, _.
  split; [by apply terminated_returned in Hk|]. split; [reflexivity|]. split; [reflexivity|].
  unfold copyFrom, bytesRead. cbn [down up info counters addBytes ci_SentBytes ci_ReceivedBytes cp_read cp_written].
  rewrite !written_appendTx, U1, D1, U3, D3, Etot, U2, D2.
  rewrite !take_app_length, !length_app, !Nat.min_l by lia. rewrite <- !app_assoc, !take_app_length. done.
Qed.

(** *** Progress and termination *)

Lemma mode_Close s : mode (Close s) = Shut.
Proof. done. Qed.

Lemma mode_closeRead b s : mode s = Shut → mode (closeRead b s) = Shut.
Proof. destruct s as [[] [] l], b; simpl; done. Qed.

(** What ended stays ended, and what was closed stays closed. *)
Lemma ended_step d e s s' : phase d s = Ended → step e s = Some s' → phase d s' = Ended.
Proof.
  intros Hp E. destruct e as [d' now|d'|d' k|now| | |d'].
  1-3: apply (copier_step d') in E as (Hd & _ & _ & _ & _ & _ & Eo); [|done]; destruct d, d'; simpl in *; congruence.
  all: step_cases E; by destruct d.
Qed.

Lemma shut_step d e s s' :
  mode (sinkSocket d s) = Shut → step e s = Some s' → mode (sinkSocket d s') = Shut.
Proof.
  intros Hp E. destruct e as [d' now|d'|d' k|now| | |d'].
  1-3: apply (copier_step d') in E as (_ & _ & _ & _ & Ed & Eu & _); [|done]; destruct d; simpl in *; congruence.
  all: step_cases E; destruct d; simpl; auto using mode_Close, mode_closeRead.
Qed.

(** What the call of [relay] has seen and done where it is. *)
Definition settled (s : Copies) : Prop :=
  match mainAt s with
  | Selecting => True
  | Chose d | HalfClosed d => phase d s = Ended
  | AwaitSent => ∃ d, phase d s = Ended ∧ mode (sinkSocket d s) = Shut
  | AwaitReceived => toUp s = Ended ∧ ∃ d, phase d s = Ended ∧ mode (sinkSocket d s) = Shut
  | Finished => toUp s = Ended ∧ toDown s = Ended
  end.

Lemma settled_step e s s' : settled s → step e s = Some s' → settled s'.
Proof.
  intros Hs E. pose proof (λ d, ended_step d e s s') as He. pose proof (λ d, shut_step d e s s') as Hsh.
  assert (mainAt s' = mainAt s ∨ ∃ d, e = Main d) as [Em|[d ->]].
  { destruct e as [d' now|d'|d' k|now| | |d']; [left..|eauto].
    1-3: by apply (copier_step d') in E as (_ & ? & _).
    all: by step_cases E. }
  - unfold settled in *. rewrite Em. pose proof (He ToUp) as Hu. pose proof (He ToDown) as Hd. simpl in Hu, Hd.
    destruct (mainAt s); naive_solver.
  - clear He Hsh. unfold settled in *. simpl in E. unfold mainStep in E.
    destruct (mainAt s) as [|[]|[]| | |] eqn:Em; try case_decide; simplify_eq; simpl; try done.
    + by exists ToUp.
    + by exists ToDown.
    + by destruct Hs.
Qed.

(** Steps that need neither a peer nor the clock. *)
Definition own (e : Event) (s : Copies) : bool :=
  match e with
  | ReadFrom d _ => negb (bool_decide (mode (sourceSocket d s) = Open))
  | WriteFails d _ => bool_decide (mode (sinkSocket d s) = Shut)
  | WriteAll _ | Wake _ => false
  | CloseDown | ReturnWatcher | Main _ => true
  end.

Definition isWake (e : Event) : bool := match e with Wake _ => true | _ => false end.

Definition canGoOn (s : Copies) : Prop := ∃ e, own e s = true ∧ is_Some (step e s).

(** The last direction is in a [Write] that only its peer can end. *)
Definition stalled (d : Direction) (s : Copies) : Prop :=
  phase (opposite d) s = Ended ∧ mode (sinkSocket d s) ≠ Shut ∧ ∃ p, phase d s = Writing p.

Lemma reads_fail d s : phase d s = Reading → mode (sourceSocket d s) ≠ Open → canGoOn s.
Proof.
  intros Hp Hm. exists (ReadFrom d 0). simpl. unfold copyRead. rewrite Hp, bool_decide_eq_false_2 by done.
  by destruct (mode _).
Qed.

Lemma writes_fail d p s : phase d s = Writing p → mode (sinkSocket d s) = Shut → canGoOn s.
Proof.
  intros Hp Hm. exists (WriteFails d 0). simpl. unfold copyWriteFails. by rewrite Hp, Hm.
Qed.

Lemma main_goes_on d s : is_Some (mainStep module upstream d s) → canGoOn s.
Proof. intros H. by exists (Main d). Qed.

(** A direction whose source is closed goes on, ended or is stuck in a write. *)
Lemma copier_goes_on d s :
  mode (sourceSocket d s) ≠ Open →
  canGoOn s ∨ phase d s = Ended ∨ (mode (sinkSocket d s) ≠ Shut ∧ ∃ p, phase d s = Writing p).
Proof.
  intros Hm. destruct (phase d s) as [|p|] eqn:Hp.
  - left. by eapply reads_fail.
  - destruct (decide (mode (sinkSocket d s) = Shut)) as [Hs|Hs].
    + left. by eapply writes_fail.
    + right. right. eauto.
  - auto.
Qed.

Lemma sink_source d s : sinkSocket d s = sourceSocket (opposite d) s.
Proof. by destruct d. Qed.

(** Once one direction has ended and its sink is closed, only a stuck write of the other
    keeps the call from going on. *)
Lemma awaiting_goes_on d s :
  phase d s = Ended → mode (sinkSocket d s) = Shut →
  mainAt s = AwaitSent ∨ mainAt s = AwaitReceived ∧ toUp s = Ended →
  canGoOn s ∨ stalled (opposite d) s.
Proof.
  intros Hp Hm Hat. destruct (copier_goes_on (opposite d) s) as [|[He|[Hw Hp']]];
    [rewrite <- sink_source, Hm; done|by left| |].
  - left. apply (main_goes_on ToUp). unfold mainStep.
    assert (toUp s = Ended ∧ toDown s = Ended) as [Eu Ed] by (by destruct d).
    rewrite Eu, Ed. by destruct Hat as [->|[-> _]].
  - right. split_and!; try done. by destruct d.
Qed.

Lemma ended_goes_on s :
  settled s → mainAt s ≠ Finished → (∃ d, phase d s = Ended) → canGoOn s ∨ ∃ d, stalled d s.
Proof.
  intros Hs Hf [d Hd]. unfold settled in Hs.
  destruct (mainAt s) as [|d'|d'| | |] eqn:Em; try done.
  - left. apply (main_goes_on d). unfold mainStep. rewrite Em. by destruct (decide _).
  - left. apply (main_goes_on d). unfold mainStep. rewrite Em. by destruct d'.
  - left. apply (main_goes_on d). unfold mainStep. rewrite Em. by destruct d'.
  - destruct Hs as (d1 & ? & ?). destruct (awaiting_goes_on d1 s); eauto.
  - destruct Hs as (? & d1 & ? & ?). destruct (awaiting_goes_on d1 s); eauto.
Qed.

Lemma shut_goes_on s :
  settled s → mainAt s ≠ Finished → (∀ d, mode (sinkSocket d s) = Shut) → canGoOn s.
Proof.
  intros Hs Hf Hall.
  assert (mode (sourceSocket ToUp s) ≠ Open) as Hu by (pose proof (Hall ToDown) as E; simpl in *; by rewrite E).
  destruct (copier_goes_on ToUp s Hu) as [|[He|[Hw _]]]; [done| |by rewrite Hall in Hw].
  destruct (ended_goes_on s Hs Hf) as [|[d (_ & Hd & _)]]; [by exists ToUp|done|]. by rewrite Hall in Hd.
Qed.

(** Steps left, at most. *)
Definition phaseLeft (p : Phase) : nat := match p with Writing _ => 2 | Reading => 1 | Ended => 0 end.
Definition mainLeft (m : MainAt) : nat :=
  match m with
  | Selecting => 5 | Chose _ => 4 | HalfClosed _ => 3 | AwaitSent => 2 | AwaitReceived => 1 | Finished => 0
  end.
Definition watcherLeft (w : WatcherAt) : nat :=
  match w with Watching _ => 2 | ClosingDown => 1 | _ => 0 end.
Definition stepsLeft (s : Copies) : nat :=
  phaseLeft (toUp s) + phaseLeft (toDown s) + mainLeft (mainAt s) + watcherLeft (watcherAt s).

(** No direction reads any more. *)
Definition cutOff (s : Copies) : Prop :=
  ∀ d, phase d s = Ended ∨ mode (sourceSocket d s) = Shut.

Lemma cutOff_step e s s' : cutOff s → step e s = Some s' → cutOff s'.
Proof.
  intros Hc E d. destruct (Hc d) as [Hd|Hd]; [left; by eapply ended_step|right].
  assert (sourceSocket d s = sinkSocket (opposite d) s) as E1 by (by destruct d).
  assert (sourceSocket d s' = sinkSocket (opposite d) s') as -> by (by destruct d).
  rewrite E1 in Hd. by eapply shut_step.
Qed.

Lemma step_left e s s' :
  cutOff s → step e s = Some s' → (stepsLeft s' + (if isWake e then 0 else 1) ≤ stepsLeft s)%nat.
Proof.
  intros Hc E. unfold stepsLeft. destruct e as [d now|d|d k|now| | |d]; simpl in E.
  - unfold copyRead in E. destruct (phase d s) eqn:Ep; try done.
    destruct (Hc d) as [|Hm]; [congruence|]. rewrite Hm in E. simplify_eq. destruct d; simpl in *; rewrite Ep; simpl; lia.
  - unfold copyWrite in E. destruct (phase d s) as [|p|] eqn:Ep; try done.
    destruct (mode _); simplify_eq; destruct d; simpl in *; rewrite Ep; simpl; lia.
  - unfold copyWriteFails in E. destruct (phase d s) as [|p|] eqn:Ep; try done.
    case_match; simplify_eq; destruct d; simpl in *; rewrite Ep; simpl; lia.
  - unfold watcherWakes in E. destruct (watcherAt s) eqn:Ew; try done. case_match; simplify_eq; simpl; lia.
  - unfold watcherCloses in E. destruct (watcherAt s) eqn:Ew; simplify_eq; simpl; lia.
  - unfold watcherReturns in E. destruct (watcherAt s) eqn:Ew; try done. case_match; simplify_eq; simpl; lia.
  - unfold mainStep in E. destruct (mainAt s) as [|[]|[]| | |] eqn:Em; try case_decide; simplify_eq; simpl; lia.
Qed.

Lemma run_left es s s' :
  cutOff s → run es s = Some s' → (stepsLeft s' + length (filter (λ e, isWake e = false) es) ≤ stepsLeft s)%nat.
Proof.
  revert s. induction es as [|e es IH]; simpl; intros s Hc.
  - intros [= <-]. simpl. lia.
  - destruct (step e s) as [s1|] eqn:E; simpl; [|done]. intros Hr.
    pose proof (step_left _ _ _ Hc E). specialize (IH s1 (cutOff_step _ _ _ Hc E) Hr).
    rewrite filter_cons. destruct (isWake e) eqn:Ei; case_decide; simpl; try done; lia.
Qed.

(** A run that needs neither a peer nor the clock. *)
Fixpoint alone (es : list Event) (s : Copies) : bool :=
  match es with
  | [] => true
  | e :: es => own e s && match step e s with Some s' => alone es s' | None => false end
  end.

Lemma shut_sinks_step e s s' :
  (∀ d, mode (sinkSocket d s) = Shut) → step e s = Some s' → ∀ d, mode (sinkSocket d s') = Shut.
Proof. intros Hs E d. by eapply shut_step. Qed.

Lemma shut_cutOff s : (∀ d, mode (sinkSocket d s) = Shut) → cutOff s.
Proof. intros Hs d. right. pose proof (Hs (opposite d)) as E. by destruct d. Qed.

Lemma own_not_wake e s : own e s = true → isWake e = false.
Proof. by destruct e. Qed.

Lemma shut_finishes s :
  settled s → (∀ d, mode (sinkSocket d s) = Shut) →
  ∃ es s', run es s = Some s' ∧ alone es s = true ∧ mainAt s' = Finished ∧ (length es ≤ stepsLeft s)%nat.
Proof.
  remember (stepsLeft s) as n eqn:Hn. revert s Hn. induction (lt_wf n) as [n _ IH]. intros s -> Hs Hall.
  assert (mainAt s = Finished ∨ mainAt s ≠ Finished) as [Hf|Hf] by (destruct (mainAt s); auto).
  { exists [], s. split_and!; simpl; try done. lia. }
  destruct (shut_goes_on s Hs Hf Hall) as (e & Ho & s1 & E).
  pose proof (step_left _ _ _ (shut_cutOff s Hall) E) as Hl. rewrite (own_not_wake e s Ho) in Hl.
  destruct (IH (stepsLeft s1) ltac:(lia) s1 eq_refl) as (es & s' & Hr & Ha & Hf' & Hle);
    [by eapply settled_step|by eapply shut_sinks_step|].
  exists (e :: es), s'. simpl. rewrite E, Ho. simpl. split_and!; try done. lia.
Qed.

Lemma settled_run es s s' : settled s → run es s = Some s' → settled s'.
Proof. intros Hs. by apply (run_invariant settled), Hs; apply settled_step. Qed.

Lemma shut_run es s s' :
  (∀ d, mode (sinkSocket d s) = Shut) → run es s = Some s' → ∀ d, mode (sinkSocket d s') = Shut.
Proof.
  intros Hs. apply (run_invariant (λ s, ∀ d, mode (sinkSocket d s) = Shut)); [|done].
  intros e s1 s2 H E. by apply (shut_sinks_step e s1).
Qed.

Lemma stepsLeft_bound s : (stepsLeft s ≤ 11)%nat.
Proof. unfold stepsLeft. destruct (toUp s), (toDown s), (mainAt s), (watcherAt s); simpl; lia. Qed.
End runs.

(** ** What the copy phase guarantees *)

(** C6: The goroutines of the copy phase refine its sequential description: however their
    steps interleave, when the call has finished, both peers were sent, and the connection's
    entry and the server's totals count, what one [copyPhase] of [Relay] gives for how far
    each direction went; the counters differ from it at most by the one relay the watcher
    counted as closed. *)
Theorem copies_refine_copyPhase t startedAt kd ku st u rq es s :
  up st = Some u → inInt64 (ci_SentBytes (info st)) → inInt64 (ci_ReceivedBytes (info st)) →
  run t startedAt (rq_module rq) (t_Upstream (rq_target rq)) es
    (begin t startedAt kd ku (down st) u (info st) (counters st)) = Some s →
  mainAt s = Finished →
  ∃ n m k st' u',
    (k = counters st ∨ ∃ r, k = onUpstream (t_Upstream (rq_target rq)) (countTerminated r) (counters st)) ∧
    copyPhase n m rq (setCounters (const k) st) = Done (Go tt, st') ∧ up st' = Some u' ∧
    written (down st') = written (downConn s) ∧ written u' = written (upConn s) ∧
    ci_SentBytes (info st') = SentBytes s ∧ ci_ReceivedBytes (info st') = ReceivedBytes s ∧
    counters st' = totals s.
Proof. intros. by eapply copies_copyPhase. Qed.

Section ends.
Context (t : relayTimings) (startedAt : Z) (module upstream : string).
Context (kd ku : Kind) (down up : Conn) (i : ConnInfo) (k : Counters).
Local Abbreviation run := (run t startedAt module upstream).
Local Abbreviation start := (begin t startedAt kd ku down up i k).

Lemma settled_start es s : run es start = Some s → settled s.
Proof. by apply settled_run. Qed.

(** C22: A relay winds down by itself.  Once a direction has ended, the gateway can take a
    step of its own until the call has finished, unless the other direction is in a write to
    a peer that does not take it; and once the call has closed the connection that direction
    reads from, at most six steps are left, wake-ups of the watcher aside. *)
Theorem relay_winds_down es s d :
  run es start = Some s → phase d s = Ended →
  (mainAt s = Finished ∨ canGoOn t startedAt module upstream s ∨ ∃ d', stalled d' s) ∧
  (∀ es' s', mainAt s = AwaitSent ∨ mainAt s = AwaitReceived ∨ mainAt s = Finished →
    run es' s = Some s' → (length (filter (λ e, isWake e = false) es') ≤ 6)%nat).
Proof.
  intros Hr Hd. pose proof (settled_start es s Hr) as Hs. split.
  - assert (mainAt s = Finished ∨ mainAt s ≠ Finished) as [Hf|Hf] by (destruct (mainAt s); auto); [auto|].
    right. by apply ended_goes_on; [..|exists d].
  - intros es' s' Hat Hr'.
    assert (cutOff s) as Hc.
    { unfold settled in Hs. assert ((∃ d, phase d s = Ended ∧ mode (sinkSocket d s) = Shut) ∨
        toUp s = Ended ∧ toDown s = Ended) as [(d1 & ? & Hm)|[? ?]]
        by (destruct Hat as [E|[E|E]]; rewrite E in Hs; naive_solver).
      - intros d2. destruct (decide (d2 = d1)) as [->|]; [by left|right]. rewrite <- Hm. by destruct d1, d2.
      - intros []; by left. }
    pose proof (run_left _ _ _ _ _ _ _ Hc Hr').
    assert (stepsLeft s ≤ 6)%nat; [|lia]. unfold stepsLeft.
    assert (phaseLeft (toUp s) + phaseLeft (toDown s) ≤ 2)%nat.
    { destruct d; simpl in Hd; rewrite Hd; destruct (toUp s), (toDown s); simpl; lia. }
    assert (mainLeft (mainAt s) ≤ 2)%nat by (destruct Hat as [-> | [-> | ->]]; simpl; lia).
    destruct (watcherAt s); simpl; lia.
Qed.

(** C11: A limit ends the relay, whatever the peers do.  When the watcher wakes up and finds
    a limit exceeded, both connections are closed at once; from then on every run is at most
    eleven steps long (wake-ups aside), and wherever it stands, the gateway reaches the end
    of the call by steps of its own. *)
Theorem limit_ends_relay es s smp now r :
  run es start = Some s → watcherAt s = Watching smp →
  onTick t startedAt smp (mkTick now (activity s) (int64 (SentBytes s + ReceivedBytes s))) = inl r →
  ∃ s1, run [Wake now; CloseDown] s = Some s1 ∧
    mode (downSocket s1) = Shut ∧ mode (upSocket s1) = Shut ∧
    ∀ es2 s2, run es2 s1 = Some s2 →
      (length (filter (λ e, isWake e = false) es2) ≤ 11)%nat ∧
      ∃ es3 s3, run es3 s2 = Some s3 ∧ alone t startedAt module upstream es3 s2 = true ∧
        mainAt s3 = Finished ∧ (length es3 ≤ 11)%nat.
Proof.
  intros Hr Hw Ht. pose proof (settled_start es s Hr) as Hs.
  assert (∃ s1, run [Wake now; CloseDown] s = Some s1 ∧ mode (downSocket s1) = Shut ∧
    mode (upSocket s1) = Shut) as (s1 & E & Hsd & Hsu).
  { simpl. unfold watcherWakes. rewrite Hw, Ht. simpl. by eexists. }
  pose proof (settled_run _ _ _ _ _ _ _ Hs E) as Hs1.
  exists s1. split_and!; try done. intros es2 s2 Hr2.
  assert (∀ d, mode (sinkSocket d s1) = Shut) as Hall by (by intros []).
  split.
  - pose proof (run_left _ _ _ _ _ _ _ (shut_cutOff _ Hall) Hr2). pose proof (stepsLeft_bound s1). lia.
  - destruct (shut_finishes t startedAt module upstream s2) as (es3 & s3 & ? & ? & ? & ?);
      [by eapply settled_run|by eapply shut_run|].
    exists es3, s3. pose proof (stepsLeft_bound s2). split_and!; try done. lia.
Qed.

Lemma Read_chunk n c chunk rest :
  (0 < n)%nat → rx c = chunk :: rest → chunk ≠ [] → ∃ a p c', Read n c = ((a :: p, None), c').
Proof.
  intros Hn E Hne. unfold Read. rewrite E. destruct chunk as [|a chunk]; [done|]. destruct n; [lia|].
  case_match; eauto.
Qed.

Lemma copyRead_data d now s a p c :
  phase d s = Reading → mode (sourceSocket d s) = Open → Read copyBuffer (source d s) = ((a :: p, None), c) →
  copyRead t d now s =
  Some (setPhase d (Writing (a :: p)) (countRead t d (length (a :: p)) now (onSource d (const c) s))).
Proof. intros Hp Hm Hr. unfold copyRead. by rewrite Hp, Hm, Hr. Qed.

Lemma copyRead_eof d now s :
  phase d s = Reading → mode (sourceSocket d s) = Open → rx (source d s) = [] →
  copyRead t d now s = Some (setPhase d Ended s).
Proof. intros Hp Hm Hr. unfold copyRead, Read. by rewrite Hp, Hm, Hr. Qed.

(** Both directions as good as over: one ended, the other in a write; the call waits for it. *)
Lemma only_the_peer s p :
  toUp s = Ended → toDown s = Writing p → mainAt s = AwaitReceived →
  watcherAt s = Returned ∨ watcherAt s = NotStarted →
  ∀ e s', step t startedAt module upstream e s = Some s' →
    e = WriteAll ToDown ∨ ∃ n, e = WriteFails ToDown n.
Proof.
  intros Hu Hd Hm Hw [d now|d|d n|now| | |d] s'; try destruct d; simpl;
    unfold copyRead, copyWrite, copyWriteFails, watcherWakes, watcherCloses, watcherReturns, mainStep;
    simpl; rewrite ?Hu, ?Hd, ?Hm; try done; eauto; by destruct Hw as [-> | ->].
Qed.

Lemma ended_run s p smp :
  toUp s = Ended → toDown s = Writing p → mainAt s = Selecting →
  watcherAt s = Watching smp ∨ watcherAt s = NotStarted →
  ∃ es s', run es s = Some s' ∧ toUp s' = Ended ∧ toDown s' = Writing p ∧ mainAt s' = AwaitReceived ∧
    (watcherAt s' = Returned ∨ watcherAt s' = NotStarted).
Proof.
  destruct s. simpl. intros -> -> -> [-> | ->].
  - exists (ReturnWatcher :: replicate 4 (Main ToUp)). eexists. split; [reflexivity|]. auto.
  - exists (replicate 4 (Main ToUp)). eexists. split; [reflexivity|]. auto.
Qed.

Lemma half_closed_run chunk rest :
  rx down = [] → rx up = chunk :: rest → chunk ≠ [] →
  ∃ es s p, run es start = Some s ∧ toUp s = Ended ∧ toDown s = Writing p ∧ mainAt s = AwaitReceived ∧
    (watcherAt s = Returned ∨ watcherAt s = NotStarted).
Proof.
  intros Hd Hu Hne.
  destruct (Read_chunk copyBuffer up chunk rest) as (a & p & c & Er); [by unfold copyBuffer; lia|done..|].
  set (s1 := setPhase ToDown (Writing (a :: p)) (countRead t ToDown (length (a :: p)) 0
               (onSource ToDown (const c) start))).
  assert (run [ReadFrom ToDown 0] start = Some s1) as E1.
  { cbn [run step]. by rewrite (copyRead_data ToDown _ _ a p c). }
  assert (run [ReadFrom ToUp 0] s1 = Some (setPhase ToUp Ended s1)) as E2.
  { cbn [run step]. by rewrite copyRead_eof. }
  assert (∃ es s, run es (setPhase ToUp Ended s1) = Some s ∧ toUp s = Ended ∧ toDown s = Writing (a :: p) ∧
    mainAt s = AwaitReceived ∧ (watcherAt s = Returned ∨ watcherAt s = NotStarted)) as (es & s & E3 & H).
  { apply (ended_run _ _ (mkSample startedAt 0)); try done. simpl. destruct (watched t); auto. }
  exists ([ReadFrom ToDown 0] ++ [ReadFrom ToUp 0] ++ es), s, (a :: p). split; [|done].
  rewrite run_app, E1. cbn [mbind option_bind]. rewrite run_app, E2. done.
Qed.

(** C38: The limits lapse when a direction ends.  Whatever limits are configured, a client
    that stops sending while it does not take the upstream's bytes leaves the call waiting
    for it, with the watcher gone: the only steps left are ends of the write to that
    client, so no limit ever closes the relay. *)
Theorem limits_lapse chunk rest :
  rx down = [] → rx up = chunk :: rest → chunk ≠ [] →
  ∃ es s, run es start = Some s ∧ mainAt s ≠ Finished ∧
    ∀ e s', step t startedAt module upstream e s = Some s' →
      e = WriteAll ToDown ∨ ∃ n, e = WriteFails ToDown n.
Proof.
  intros Hd Hu Hne. destruct (half_closed_run chunk rest Hd Hu Hne) as (es & s & p & Hr & Hu' & Hd' & Hm & Hw).
  exists es, s. split_and!; [done|by rewrite Hm|]. by eapply only_the_peer.
Qed.
End ends.

(** ** Instances *)

Section instances.
(** Limits of a minute without traffic and an hour in all. *)
Definition demoTimings : relayTimings := mkTimings (60 * second) (3600 * second) 0 0 0 0.
Definition demoRequest : Request :=
  mkRequest (lineOf "@RSYNCD: 31.0") "debian" (mkTarget "mirror" "10.0.0.1:873" false) 0.
(** A client that has sent its arguments and is still there, and one that has left. *)
Definition quietClient : Conn :=
  mkConn [chars "args"] "EOF" [] [] (TCPAddr [192; 0; 2; 1] 873) (TCPAddr [192; 0; 2; 7] 40000).
Definition goneClient : Conn :=
  mkConn [] "EOF" [] [] (TCPAddr [192; 0; 2; 1] 873) (TCPAddr [192; 0; 2; 7] 40000).
Definition busyUpstream : Conn :=
  mkConn [chars "files"; chars "more"] "EOF" [] [] (TCPAddr [10; 0; 0; 2] 50000) (TCPAddr [10; 0; 0; 1] 873).

Abbreviation demoInfo := (newInfo 1 0 quietClient).
Abbreviation demoRun := (run demoTimings 0 "debian" "mirror").
Abbreviation demoStart c := (begin demoTimings 0 TCP TCP c busyUpstream demoInfo noCounters).

(** A relay whose upstream ends first: its bytes are delivered and counted. *)
Abbreviation orderlyRun :=
  [ReadFrom ToUp 1; WriteAll ToUp; ReadFrom ToDown 2; Wake 15; WriteAll ToDown; ReadFrom ToDown 3;
   WriteAll ToDown; ReadFrom ToDown 4; Main ToDown; Main ToDown; Main ToDown; ReadFrom ToUp 5;
   ReturnWatcher; Main ToUp; Main ToUp].

Example orderly_totals :
  (s ← demoRun orderlyRun (demoStart quietClient);
   Some (mainAt s, SentBytes s, ReceivedBytes s, written (downConn s), completedConnCount (totals s))) =
  Some (Finished, 9, 4, chars "filesmore", 1).
Proof. vm_compute. reflexivity. Qed.

Abbreviation demoSt := (mkSt quietClient (Some busyUpstream) demoInfo noCounters).

Lemma copies_refine_copyPhase_witness :
  ∃ s n m k st' u', demoRun orderlyRun (demoStart quietClient) = Some s ∧ mainAt s = Finished ∧
    copyPhase n m demoRequest (setCounters (const k) demoSt) = Done (Go tt, st') ∧ up st' = Some u' ∧
    written u' = written (upConn s) ∧ counters st' = totals s.
Proof.
  destruct (demoRun orderlyRun (demoStart quietClient)) as [s|] eqn:E; [|vm_compute in E; discriminate E].
  assert (mainAt s = Finished) as Hf by (vm_compute in E; injection E as <-; reflexivity).
  destruct (copies_refine_copyPhase demoTimings 0 TCP TCP demoSt busyUpstream demoRequest orderlyRun s)
    as (n & m & k & st' & u' & _ & Hc & Hu & _ & Hw & _ & _ & Ht);
    [reflexivity|vm_compute; split; congruence|vm_compute; split; congruence|exact E|exact Hf|].
  exists s, n, m, k, st', u'. split_and!; assumption || reflexivity.
Defined.

Lemma relay_winds_down_witness :
  ∃ s, demoRun (take 11 orderlyRun) (demoStart quietClient) = Some s ∧ mainAt s = AwaitSent ∧
    (mainAt s = Finished ∨ canGoOn demoTimings 0 "debian" "mirror" s ∨ ∃ d', stalled d' s).
Proof.
  destruct (demoRun (take 11 orderlyRun) (demoStart quietClient)) as [s|] eqn:E;
    [|vm_compute in E; discriminate E].
  assert (mainAt s = AwaitSent ∧ phase ToDown s = Ended) as [Ha Hp]
    by (vm_compute in E; injection E as <-; split; reflexivity).
  exists s. split; [reflexivity|]. split; [exact Ha|].
  apply (relay_winds_down demoTimings 0 "debian" "mirror" TCP TCP quietClient busyUpstream demoInfo noCounters
    (take 11 orderlyRun) s ToDown E Hp).
Defined.

Lemma limit_ends_relay_witness :
  ∃ s s1 es3 s3, demoRun [ReadFrom ToDown 2] (demoStart quietClient) = Some s ∧
    demoRun [Wake (61 * second); CloseDown] s = Some s1 ∧ demoRun es3 s1 = Some s3 ∧ mainAt s3 = Finished.
Proof.
  destruct (demoRun [ReadFrom ToDown 2] (demoStart quietClient)) as [s|] eqn:E;
    [|vm_compute in E; discriminate E].
  assert (watcherAt s = Watching (mkSample 0 0) ∧
    onTick demoTimings 0 (mkSample 0 0) (mkTick (61 * second) (activity s) (int64 (SentBytes s + ReceivedBytes s)))
      = inl IdleTimedOut) as [Hw Ht] by (vm_compute in E; injection E as <-; split; reflexivity).
  destruct (limit_ends_relay demoTimings 0 "debian" "mirror" TCP TCP quietClient busyUpstream demoInfo noCounters
    _ s _ _ _ E Hw Ht) as (s1 & E1 & _ & _ & Hall).
  destruct (Hall [] s1 eq_refl) as (_ & es3 & s3 & E3 & _ & Hf & _).
  exists s, s1, es3, s3. split_and!; assumption || reflexivity.
Defined.

Lemma limits_lapse_witness :
  ∃ es s, demoRun es (demoStart goneClient) = Some s ∧ mainAt s ≠ Finished ∧
    ∀ e s', step demoTimings 0 "debian" "mirror" e s = Some s' →
      e = WriteAll ToDown ∨ ∃ n, e = WriteFails ToDown n.
Proof.
  apply (limits_lapse demoTimings 0 "debian" "mirror" TCP TCP goneClient busyUpstream demoInfo noCounters
    (chars "files") [chars "more"]); [reflexivity|reflexivity|discriminate].
Defined.
End instances.
