(* ===== verification/Accounting.v ===== *)
(** * The life of a connection: [handleConn] and [relay] in [pkg/server/server.go]

    Many connections run at once, each in its own goroutine; what they share are
    atomic counters, the table of connections and the admission queues.  A
    connection is its program point and the stack of its deferred calls; every
    access to shared state is a step of its own, and the steps of different
    connections interleave freely.  A return, an error or a panic (which
    [handleConn] recovers) at any point runs the deferred calls, last first. *)
From S2P Require Import Prelude GoStd.
Open Scope Z_scope.

(** [perIPCountKey] *)
Record perIPCountKey := mkKey { key_upstream : string; key_ip : string }.

#[export] Instance perIPCountKey_eq_dec : EqDecision perIPCountKey.
Proof. solve_decision. Defined.
#[export] Instance perIPCountKey_countable : Countable perIPCountKey.
Proof.
  apply (inj_countable' (fun k => (key_upstream k, key_ip k)) (fun p => mkKey p.1 p.2)).
  by intros [].
Defined.

(** The deferred calls that touch shared state. *)
Inductive Deferred :=
  | ActiveDec                          (* s.activeConnCount.Add(-1) *)
  | DeleteInfo                         (* s.connInfo.Delete(index) *)
  | CounterDec (k : perIPCountKey)     (* counter.Add(-1) *)
  | ReleaseHandle (k : perIPCountKey). (* handle.Release() *)

#[export] Instance Deferred_eq_dec : EqDecision Deferred.
Proof. solve_decision. Defined.

(** Program points between accesses to shared state; [k] is the upstream of the
    target that was chosen with the address of the client. *)
Inductive Point :=
  | Spawned                                         (* go s.handleConn(ctx, conn) *)
  | Arrived                                         (* in handleConn, counted as active *)
  | Accepted                                        (* in handleConn, counted as accepted *)
  | Requested                                       (* in relay, before the target is chosen *)
  | Targeted (k : perIPCountKey)                    (* before the per-address cap *)
  | Counted (k : perIPCountKey) (limit n : Z)       (* counter.Add(1) returned n *)
  | Over                                            (* n was over the cap *)
  | Refused                                         (* the client is told *)
  | Admissible (k : perIPCountKey)                  (* before Acquire *)
  | Queued (k : perIPCountKey)                      (* waiting for the status of the handle *)
  | Relaying (k : perIPCountKey)                    (* both directions are copied *)
  | Completed.                                      (* the totals were updated *)

Inductive Goroutine :=
  | Running (p : Point) (stack : list Deferred)
  | Unwinding (stack : list Deferred).

Definition stackOf (g : Goroutine) : list Deferred :=
  match g with Running _ st => st | Unwinding st => st end.

Record Shared := mkShared {
  activeConnCount : Z;
  acceptedConnCount : Z;
  completedConnCount : Z;
  connInfo : gset nat;
  perIPCounts : gmap perIPCountKey Z;
  perIPRejected : Z;
  handles : gmap nat perIPCountKey }.   (* connections that hold a handle of a queue *)

Record System := mkSystem { shared : Shared; conns : gmap nat Goroutine }.

Definition perIPCount (s : Shared) (k : perIPCountKey) : Z := default 0 (perIPCounts s !! k).

(** *** Shared accesses *)

Definition addActive (d : Z) (s : Shared) : Shared :=
  mkShared (activeConnCount s + d) (acceptedConnCount s) (completedConnCount s) (connInfo s)
    (perIPCounts s) (perIPRejected s) (handles s).
Definition countAccepted (s : Shared) : Shared :=
  mkShared (activeConnCount s) (acceptedConnCount s + 1) (completedConnCount s) (connInfo s)
    (perIPCounts s) (perIPRejected s) (handles s).
Definition countCompleted (s : Shared) : Shared :=
  mkShared (activeConnCount s) (acceptedConnCount s) (completedConnCount s + 1) (connInfo s)
    (perIPCounts s) (perIPRejected s) (handles s).
Definition setInfo (f : gset nat → gset nat) (s : Shared) : Shared :=
  mkShared (activeConnCount s) (acceptedConnCount s) (completedConnCount s) (f (connInfo s))
    (perIPCounts s) (perIPRejected s) (handles s).
Definition addPerIP (k : perIPCountKey) (d : Z) (s : Shared) : Shared :=
  mkShared (activeConnCount s) (acceptedConnCount s) (completedConnCount s) (connInfo s)
    (<[k := perIPCount s k + d]> (perIPCounts s)) (perIPRejected s) (handles s).
Definition countRejected (s : Shared) : Shared :=
  mkShared (activeConnCount s) (acceptedConnCount s) (completedConnCount s) (connInfo s)
    (perIPCounts s) (perIPRejected s + 1) (handles s).
Definition setHandles (f : gmap nat perIPCountKey → gmap nat perIPCountKey) (s : Shared)
    : Shared :=
  mkShared (activeConnCount s) (acceptedConnCount s) (completedConnCount s) (connInfo s)
    (perIPCounts s) (perIPRejected s) (f (handles s)).

(** What a deferred call of connection [c] does. *)
Definition runDeferred (c : nat) (d : Deferred) : Shared → Shared :=
  match d with
  | ActiveDec => addActive (-1)
  | DeleteInfo => setInfo (fun X => X ∖ {[c]})
  | CounterDec k => addPerIP k (-1)
  | ReleaseHandle _ => setHandles (delete c)
  end.

(** Between two accesses to the per-address counter nothing returns or panics. *)
Definition mayLeave (p : Point) : bool :=
  match p with Spawned | Arrived | Counted _ _ _ | Over => false | _ => true end.

(** ** Steps

    [allowed u limit]: a value [getPerIPLimitForUpstream u] may return; it changes
    with reloads. *)
Section steps.
Context (allowed : string → Z → Prop).

(** The steps of the goroutine of connection [c]. *)
Inductive gstep (c : nat) : Shared → Goroutine → Shared → Goroutine → Prop :=
  (* s.activeConnCount.Add(1); defer s.activeConnCount.Add(-1) *)
  | g_arrive s st :
      gstep c s (Running Spawned st) (addActive 1 s) (Running Arrived (ActiveDec :: st))
  (* s.acceptedConnCount.Add(1) *)
  | g_accept s st :
      gstep c s (Running Arrived st) (countAccepted s) (Running Accepted st)
  (* s.connInfo.Store(index, &info); defer s.connInfo.Delete(index) *)
  | g_enter s st :
      gstep c s (Running Accepted st)
        (setInfo (fun X => {[c]} ∪ X) s) (Running Requested (DeleteInfo :: st))
  (* the request names a module, its target is chosen, its queue is found *)
  | g_target s st k :
      gstep c s (Running Requested st) s (Running (Targeted k) st)
  (* perIPLimit > 0: n := counter.Add(1) *)
  | g_count s st k limit :
      allowed (key_upstream k) limit → 0 < limit →
      gstep c s (Running (Targeted k) st)
        (addPerIP k 1 s) (Running (Counted k limit (perIPCount s k + 1)) st)
  (* perIPLimit <= 0 *)
  | g_nocap s st k limit :
      allowed (key_upstream k) limit → limit ≤ 0 →
      gstep c s (Running (Targeted k) st) s (Running (Admissible k) st)
  (* n > perIPLimit: counter.Add(-1) *)
  | g_over s st k limit n :
      limit < n →
      gstep c s (Running (Counted k limit n) st) (addPerIP k (-1) s) (Running Over st)
  (* perIPRejected.Add(1) *)
  | g_reject s st :
      gstep c s (Running Over st) (countRejected s) (Running Refused st)
  (* defer counter.Add(-1) *)
  | g_under s st k limit n :
      n ≤ limit →
      gstep c s (Running (Counted k limit n) st) s
        (Running (Admissible k) (CounterDec k :: st))
  (* handle := upstreamQueue.Acquire(); defer handle.Release() *)
  | g_acquire s st k :
      gstep c s (Running (Admissible k) st)
        (setHandles (<[c := k]>) s) (Running (Queued k) (ReleaseHandle k :: st))
  (* the handle was told Ok, the upstream answered *)
  | g_relay s st k : gstep c s (Running (Queued k) st) s (Running (Relaying k) st)
  (* both directions are closed: the totals are updated *)
  | g_complete s st k :
      gstep c s (Running (Relaying k) st) (countCompleted s) (Running Completed st)
  (* a return, an error or a panic *)
  | g_leave s p st :
      mayLeave p = true → gstep c s (Running p st) s (Unwinding st)
  (* the last deferred call *)
  | g_defer s d st :
      gstep c s (Unwinding (d :: st)) (runDeferred c d s) (Unwinding st).

(** The steps of the system; [c] is fresh, as [connIndex.Add(1)] is while fewer than
    2^32 connections are open. *)
Inductive sstep : System → System → Prop :=
  (* runRsyncServer: go s.handleConn(ctx, conn) *)
  | s_spawn sys c :
      conns sys !! c = None →
      sstep sys (mkSystem (shared sys) (<[c := Running Spawned []]> (conns sys)))
  | s_conn sys c g s' g' :
      conns sys !! c = Some g → gstep c (shared sys) g s' g' →
      sstep sys (mkSystem s' (<[c := g']> (conns sys)))
  (* the goroutine ends *)
  | s_end sys c :
      conns sys !! c = Some (Unwinding []) →
      sstep sys (mkSystem (shared sys) (delete c (conns sys))).

Definition initial : System := mkSystem (mkShared 0 0 0 ∅ ∅ 0 ∅) ∅.

Inductive reachable : System → Prop :=
  | r_init : reachable initial
  | r_step sys sys' : reachable sys → sstep sys sys' → reachable sys'.
End steps.

(** ** Sums over the connections *)

Definition total (w : Goroutine → Z) (m : gmap nat Goroutine) : Z :=
  map_fold (fun _ g acc => w g + acc) 0 m.

Section total.
Context (w : Goroutine → Z).

Lemma total_empty : total w ∅ = 0.
Proof. apply map_fold_empty. Qed.

Lemma total_insert_fresh m c g : m !! c = None → total w (<[c := g]> m) = w g + total w m.
Proof. intros Hc. unfold total. rewrite map_fold_insert_L; [done| |done]. intros; lia. Qed.

Lemma total_delete m c g : m !! c = Some g → total w m = w g + total w (delete c m).
Proof. intros Hc. unfold total. rewrite (map_fold_delete_L _ _ c g m); [done| |done]. intros; lia. Qed.

Lemma total_insert m c g g' :
  m !! c = Some g → total w (<[c := g']> m) = total w m - w g + w g'.
Proof.
  intros Hc. rewrite <- insert_delete_eq.
  rewrite total_insert_fresh by apply lookup_delete_eq.
  rewrite (total_delete m c g) by done. lia.
Qed.

Lemma total_zero m : (∀ c g, m !! c = Some g → w g = 0) → total w m = 0.
Proof.
  induction m as [|c g m Hc IH] using map_ind; intros H; [apply total_empty|].
  rewrite total_insert_fresh by done. rewrite (H c g) by apply lookup_insert_eq.
  rewrite IH; [done|]. intros c' g' Hc'. apply (H c'). by apply lookup_insert_Some; right; split; [congruence|].
Qed.

Context (w_pos : ∀ g, 0 ≤ w g).

Lemma total_nonneg m : 0 ≤ total w m.
Proof.
  induction m as [|c g m Hc IH] using map_ind; [by rewrite total_empty|].
  rewrite total_insert_fresh by done. specialize (w_pos g). lia.
Qed.

Lemma total_ge m c g : m !! c = Some g → w g ≤ total w m.
Proof. intros Hc. rewrite (total_delete m c g) by done. pose proof (total_nonneg (delete c m)). lia. Qed.

(** A list of distinct connections, each of weight 1 at least, is not longer than the sum. *)
Lemma total_counts cs m :
  NoDup cs → (∀ c, c ∈ cs → ∃ g, m !! c = Some g ∧ 1 ≤ w g) →
  Z.of_nat (length cs) ≤ total w m.
Proof.
  revert m. induction cs as [|c cs IH]; intros m Hnd H; [apply total_nonneg|].
  apply NoDup_cons in Hnd as [Hni Hnd].
  destruct (H c (list_elem_of_here _ _)) as (g & Hg & Hw).
  rewrite (total_delete m c g) by done.
  assert (Z.of_nat (length cs) ≤ total w (delete c m)); [|simpl; lia].
  apply IH; [done|]. intros c' Hc'. destruct (H c' (list_elem_of_further _ _ _ Hc')) as (g' & Hg' & ?).
  exists g'. split; [|done]. rewrite lookup_delete_ne; [done|]. by intros ->.
Qed.
End total.

Lemma total_le w1 w2 m : (∀ g, w1 g ≤ w2 g) → total w1 m ≤ total w2 m.
Proof.
  intros H. induction m as [|c g m Hc IH] using map_ind; [by rewrite !total_empty|].
  rewrite !total_insert_fresh by done. specialize (H g). lia.
Qed.

(** ** Invariant *)

(** How often a deferred call is on a stack. *)
Definition occ (d : Deferred) (st : list Deferred) : Z :=
  Z.of_nat (length (filter (fun d' => d' = d) st)).

Lemma occ_cons d d' st : occ d (d' :: st) = (if decide (d' = d) then 1 else 0) + occ d st.
Proof. unfold occ. rewrite filter_cons. case_decide; simpl; lia. Qed.

Lemma occ_nonneg d st : 0 ≤ occ d st.
Proof. unfold occ. lia. Qed.

(** Connections of [k] that are counted: deferred decrement, or between the two accesses. *)
Definition countedWeight (k : perIPCountKey) (g : Goroutine) : Z :=
  occ (CounterDec k) (stackOf g) +
  match g with
  | Running (Counted k' _ _) _ => if decide (k' = k) then 1 else 0
  | _ => 0
  end.

(** Those of them that passed the cap. *)
Definition passedWeight (k : perIPCountKey) (g : Goroutine) : Z :=
  occ (CounterDec k) (stackOf g) +
  match g with
  | Running (Counted k' limit n) _ => if decide (k' = k ∧ n ≤ limit) then 1 else 0
  | _ => 0
  end.

Lemma passedWeight_nonneg k g : 0 ≤ passedWeight k g.
Proof.
  unfold passedWeight. pose proof (occ_nonneg (CounterDec k) (stackOf g)).
  destruct g as [[]|]; try lia. case_decide; lia.
Qed.

Lemma passedWeight_le k g : passedWeight k g ≤ countedWeight k g.
Proof.
  unfold passedWeight, countedWeight. destruct g as [[]|]; try lia. repeat case_decide; naive_solver lia.
Qed.

(** Connection [c] has deferred [d]. *)
Definition holds (m : gmap nat Goroutine) (c : nat) (d : Deferred) : Prop :=
  ∃ g, m !! c = Some g ∧ d ∈ stackOf g.

Lemma holds_lookup m c g d : m !! c = Some g → holds m c d ↔ d ∈ stackOf g.
Proof. intros Hc. unfold holds. rewrite Hc. naive_solver. Qed.

Lemma holds_absent m c d : m !! c = None → ¬ holds m c d.
Proof. intros Hc (g & Hg & _). congruence. Qed.

Lemma holds_insert m c g c' d :
  holds (<[c := g]> m) c' d ↔ if decide (c' = c) then d ∈ stackOf g else holds m c' d.
Proof.
  case_decide; subst; [by apply holds_lookup, lookup_insert_eq|].
  unfold holds. by rewrite lookup_insert_ne by done.
Qed.

Lemma holds_delete m c c' d : holds (delete c m) c' d ↔ c' ≠ c ∧ holds m c' d.
Proof.
  destruct (decide (c' = c)) as [->|].
  - split; [|naive_solver]. intros H. by destruct (holds_absent _ _ _ (lookup_delete_eq m c) H).
  - unfold holds. rewrite lookup_delete_ne by done. naive_solver.
Qed.

Section invariant.
Context (allowed : string → Z → Prop).

(** Whether connections of [k] may pass without being counted. *)
Definition uncapped (k : perIPCountKey) : Prop :=
  ∃ limit, allowed (key_upstream k) limit ∧ limit ≤ 0.

(** The deferred calls of a connection of [k] that passed the cap: counted or not. *)
Inductive capped (k : perIPCountKey) : list Deferred → Prop :=
  | capped_counted : capped k [CounterDec k; DeleteInfo; ActiveDec]
  | capped_uncounted : uncapped k → capped k [DeleteInfo; ActiveDec].

(** The stack at each program point. *)
Definition shape (g : Goroutine) : Prop :=
  match g with
  | Running Spawned st => st = []
  | Running (Arrived | Accepted) st => st = [ActiveDec]
  | Running (Requested | Targeted _ | Counted _ _ _ | Over | Refused) st =>
      st = [DeleteInfo; ActiveDec]
  | Running (Admissible k) st => capped k st
  | Running (Queued k | Relaying k) st => ∃ st', st = ReleaseHandle k :: st' ∧ capped k st'
  | Running Completed st => ∃ k st', st = ReleaseHandle k :: st' ∧ capped k st'
  | Unwinding st =>
      (∃ k st', st = ReleaseHandle k :: st' ∧ capped k st') ∨ (∃ k, capped k st) ∨
      st = [DeleteInfo; ActiveDec] ∨ st = [ActiveDec] ∨ st = []
  end.

Lemma gstep_shape c s g s' g' : gstep allowed c s g s' g' → shape g → shape g'.
Proof.
  unfold uncapped. destruct 1; simpl; intros Hs; subst; try done.
  - (* nocap *) constructor. by exists limit.
  - (* under *) constructor.
  - (* acquire *) by exists st.
  - (* complete *) destruct Hs as (st' & -> & ?). by exists k, st'.
  - (* leave *) destruct p; simplify_eq/=; naive_solver.
  - (* defer *) destruct Hs as [(k & st' & ? & ?)|[[k Hk]|[?|[?|?]]]]; simplify_eq.
    + right; left. by exists k.
    + inversion Hk; subst; naive_solver.
    + naive_solver.
    + naive_solver.
Qed.

(** What the shared state says is what the stacks say. *)
Record Inv (sys : System) : Prop := {
  inv_shape c g : conns sys !! c = Some g → shape g;
  inv_active : activeConnCount (shared sys) = total (fun g => occ ActiveDec (stackOf g)) (conns sys);
  inv_counts k : perIPCount (shared sys) k = total (countedWeight k) (conns sys);
  inv_info c : c ∈ connInfo (shared sys) ↔ holds (conns sys) c DeleteInfo;
  inv_handles c k : handles (shared sys) !! c = Some k ↔ holds (conns sys) c (ReleaseHandle k) }.

(** A step changes the counters by what it changes the stack. *)
Lemma gstep_active c s g s' g' :
  gstep allowed c s g s' g' →
  activeConnCount s' = activeConnCount s - occ ActiveDec (stackOf g) + occ ActiveDec (stackOf g').
Proof.
  destruct 1; simpl; rewrite ?occ_cons; try (rewrite ?decide_False by done; lia).
  - rewrite decide_True by done. lia.
  - destruct d; simpl; repeat case_decide; simplify_eq; lia.
Qed.

Lemma perIPCount_add k k' d s :
  perIPCount (addPerIP k d s) k' = perIPCount s k' + (if decide (k = k') then d else 0).
Proof.
  unfold perIPCount at 1; simpl. case_decide; subst.
  - by rewrite lookup_insert_eq.
  - rewrite lookup_insert_ne by done. unfold perIPCount. lia.
Qed.

Lemma gstep_counts k c s g s' g' :
  gstep allowed c s g s' g' →
  perIPCount s' k = perIPCount s k - countedWeight k g + countedWeight k g'.
Proof.
  unfold countedWeight.
  destruct 1 as [| | | | | | | | | | | |s p st Hp|s d st];
    try (simpl; rewrite ?perIPCount_add, ?occ_cons; repeat case_decide; simplify_eq;
         unfold perIPCount; simpl; lia).
  - destruct p; try done; simpl; unfold perIPCount; lia.
  - destruct d; simpl; rewrite ?perIPCount_add, ?occ_cons; repeat case_decide; simplify_eq;
      unfold perIPCount; simpl; lia.
Qed.

(** A deferred call is on a stack once at most. *)
Lemma shape_once d st : shape (Unwinding (d :: st)) → d ∉ st.
Proof.
  simpl. intros [(k & st' & ? & Hc)|[[k Hc]|[?|[?|?]]]]; try inversion Hc; simplify_eq; set_solver.
Qed.

Lemma capped_no_handle k k' st : capped k st → ReleaseHandle k' ∉ st.
Proof. destruct 1; set_solver. Qed.

Lemma shape_once_handle d st k :
  shape (Unwinding (d :: st)) → (∃ k', d = ReleaseHandle k') → ReleaseHandle k ∉ st.
Proof.
  simpl. intros [(k' & st' & ? & Hc)|[[k' Hc]|[?|[?|?]]]] [k0 ->]; simplify_eq.
  - by eapply capped_no_handle.
  - inversion Hc.
Qed.

(** The sets change at the connection that steps alone. *)
Lemma gstep_info c s g s' g' c' :
  gstep allowed c s g s' g' → shape g →
  (c ∈ connInfo s ↔ DeleteInfo ∈ stackOf g) →
  c' ∈ connInfo s' ↔ if decide (c' = c) then DeleteInfo ∈ stackOf g' else c' ∈ connInfo s.
Proof.
  intros Hstep Hsh Hc. destruct Hstep as [| | | | | | | | | | | | |s d st]; simpl in *;
    try (case_decide; subst; set_solver).
  pose proof (shape_once d st Hsh) as Hd. destruct d; simpl; case_decide; subst; set_solver.
Qed.

Lemma gstep_handles c s g s' g' c' k :
  gstep allowed c s g s' g' → shape g →
  (∀ k, handles s !! c = Some k ↔ ReleaseHandle k ∈ stackOf g) →
  handles s' !! c' = Some k ↔
    if decide (c' = c) then ReleaseHandle k ∈ stackOf g' else handles s !! c' = Some k.
Proof.
  intros Hstep Hsh Hc.
  destruct Hstep as [| | | | | | | | |s st k0| | | |s d st]; simpl in *;
    try (case_decide; subst; [rewrite Hc; set_solver|done]).
  - pose proof (capped_no_handle k0 k st Hsh). case_decide; subst.
    + rewrite lookup_insert_eq. set_solver.
    + by rewrite lookup_insert_ne by done.
  - pose proof (shape_once_handle d st k Hsh) as Hd. destruct d as [| | |k0]; simpl;
      try (case_decide; subst; [rewrite Hc; set_solver|done]).
    case_decide; subst.
    + rewrite lookup_delete_eq. split; [done|]. intros H. by destruct (Hd (ex_intro _ k0 eq_refl)).
    + by rewrite lookup_delete_ne by done.
Qed.

Lemma Inv_initial : Inv initial.
Proof.
  split; simpl; intros; rewrite ?total_empty; try done.
  - split; [set_solver|]. intros H. by destruct (holds_absent ∅ _ _ (lookup_empty _) H).
  - split; [done|]. intros H. by destruct (holds_absent ∅ _ _ (lookup_empty _) H).
Qed.

Lemma fresh m c c' d :
  m !! c = None → holds m c' d ↔ if decide (c' = c) then d ∈ [] else holds m c' d.
Proof.
  intros Hc. case_decide; [subst|done]. split; intros H; [|by apply not_elem_of_nil in H].
  by destruct (holds_absent _ _ _ Hc H).
Qed.

Lemma ended m c c' d :
  m !! c = Some (Unwinding []) → holds m c' d ↔ c' ≠ c ∧ holds m c' d.
Proof.
  intros Hc. split; [|naive_solver]. intros H. split; [|done]. intros ->.
  apply (holds_lookup _ _ _ _ Hc) in H. by apply not_elem_of_nil in H.
Qed.

(** A connection that enters or leaves the table with an empty stack changes nothing. *)
Lemma Inv_spawn sys c :
  conns sys !! c = None → Inv sys →
  Inv (mkSystem (shared sys) (<[c := Running Spawned []]> (conns sys))).
Proof.
  intros Hc [Hsh Ha Hk Hi Hh]. split; simpl.
  - intros c' g [[<- <-]|[? ?]]%lookup_insert_Some; [done|by apply (Hsh c')].
  - rewrite total_insert_fresh by done. rewrite Ha. done.
  - intros k. rewrite total_insert_fresh by done. by rewrite Hk.
  - intros c'. rewrite Hi, holds_insert. by apply fresh.
  - intros c' k. rewrite Hh, holds_insert. by apply fresh.
Qed.

Lemma Inv_end sys c :
  conns sys !! c = Some (Unwinding []) → Inv sys →
  Inv (mkSystem (shared sys) (delete c (conns sys))).
Proof.
  intros Hc [Hsh Ha Hk Hi Hh]. split; simpl.
  - intros c' g [? ?]%lookup_delete_Some. by apply (Hsh c').
  - rewrite Ha, (total_delete _ _ c (Unwinding [])) by done. done.
  - intros k. rewrite Hk, (total_delete _ _ c (Unwinding [])) by done. done.
  - intros c'. rewrite Hi, holds_delete. by eapply ended.
  - intros c' k. rewrite Hh, holds_delete. by eapply ended.
Qed.

Lemma Inv_conn sys c g s' g' :
  conns sys !! c = Some g → gstep allowed c (shared sys) g s' g' → Inv sys →
  Inv (mkSystem s' (<[c := g']> (conns sys))).
Proof.
  intros Hc Hstep [Hsh Ha Hk Hi Hh]. pose proof (Hsh c g Hc) as Hg. split; simpl.
  - intros c' g0 [[<- <-]|[? ?]]%lookup_insert_Some; [by eapply gstep_shape|by apply (Hsh c')].
  - rewrite (total_insert _ _ c g) by done. rewrite (gstep_active c _ g s' g') by done. lia.
  - intros k. rewrite (total_insert _ _ c g) by done. rewrite (gstep_counts k c _ g s' g') by done.
    by rewrite Hk.
  - intros c'. rewrite (gstep_info c _ g s' g') by (done || by rewrite Hi, holds_lookup).
    rewrite holds_insert. case_decide; [done|apply Hi].
  - intros c' k. rewrite (gstep_handles c (shared sys) g s' g'); [|done|done|intros; by rewrite Hh, holds_lookup].
    rewrite holds_insert. case_decide; [done|apply Hh].
Qed.

Lemma reachable_Inv sys : reachable allowed sys → Inv sys.
Proof.
  induction 1 as [|sys sys' _ IH Hstep]; [apply Inv_initial|].
  destruct Hstep; eauto using Inv_spawn, Inv_end, Inv_conn.
Qed.
End invariant.

(** A counted step and its cap: those that passed are never more than the cap. *)
Section cap.
Context (allowed : string → Z → Prop) (k : perIPCountKey) (L : Z).
Context (L_cap : ∀ limit, allowed (key_upstream k) limit → limit ≤ L) (L_pos : 0 ≤ L).

Lemma gstep_passed c s g s' g' :
  gstep allowed c s g s' g' →
  passedWeight k g' ≤ passedWeight k g ∨
  (passedWeight k g' = passedWeight k g + 1 ∧ perIPCount s k + 1 ≤ L).
Proof.
  unfold passedWeight.
  destruct 1 as [| | | |s st k' limit Hal| | | | | | | |s p st Hp|s d st];
    try (left; simpl; rewrite ?occ_cons; repeat case_decide; naive_solver lia).
  - simpl. case_decide as Hd; [|left; lia]. destruct Hd as [-> Hd]. right.
    split; [lia|]. specialize (L_cap limit Hal). lia.
  - left. destruct p; simpl; try case_decide; lia.
Qed.

Lemma reachable_passed sys : reachable allowed sys → total (passedWeight k) (conns sys) ≤ L.
Proof.
  induction 1 as [|sys sys' Hr IH Hstep]; [by rewrite total_empty|].
  pose proof (inv_counts _ _ (reachable_Inv _ _ Hr) k) as Hk.
  pose proof (total_le _ _ (conns sys) (passedWeight_le k)) as Hle.
  destruct Hstep as [sys c Hc|sys c g s' g' Hc Hg|sys c Hc]; simpl.
  - by rewrite total_insert_fresh by done.
  - rewrite (total_insert _ _ c g) by done.
    destruct (gstep_passed c (shared sys) g s' g' Hg) as [?|[? ?]]; lia.
  - by rewrite (total_delete _ _ c (Unwinding [])) in IH by done.
Qed.
End cap.

(** With a positive cap, a connection that holds a handle is counted. *)
Lemma shape_handle_counted allowed k g :
  ¬ uncapped allowed k → shape allowed g → ReleaseHandle k ∈ stackOf g → 1 ≤ passedWeight k g.
Proof.
  intros Hu Hsh Hin.
  assert (H : ∀ k' st, capped allowed k' st → ReleaseHandle k ∈ ReleaseHandle k' :: st →
            1 ≤ occ (CounterDec k) (ReleaseHandle k' :: st)).
  { intros k' st Hc Hk. apply elem_of_cons in Hk as [[= ->]|Hk].
    - destruct Hc; [|done]. rewrite occ_cons, occ_cons, decide_False, decide_True by done.
      pose proof (occ_nonneg (CounterDec k') [DeleteInfo; ActiveDec]). lia.
    - by destruct (capped_no_handle _ _ _ _ Hc Hk). }
  unfold passedWeight. destruct g as [p st|st]; simpl in *.
  - destruct p; simpl in *; subst; try (exfalso; set_solver);
      try (by destruct (capped_no_handle _ _ _ _ Hsh Hin)).
    3: destruct Hsh as [k' Hsh].
    all: destruct Hsh as (st' & -> & Hsh); specialize (H _ _ Hsh Hin); lia.
  - destruct Hsh as [(k' & st' & -> & Hc)|[[k' Hc]|Hst]].
    + specialize (H k' st' Hc Hin). lia.
    + by destruct (capped_no_handle _ _ _ _ Hc Hin).
    + exfalso. destruct Hst as [->|[->| ->]]; set_solver.
Qed.

(** C14: While the cap of an upstream stays positive and never above [L], whatever
    reloads do to it, one client address never holds more than [L] places with that
    upstream, active and queued together, however its connections interleave. *)
Theorem per_ip_cap_holds allowed k L sys cs :
  (∀ limit, allowed (key_upstream k) limit → 0 < limit ≤ L) →
  0 ≤ L →
  reachable allowed sys →
  NoDup cs → (∀ c, c ∈ cs → handles (shared sys) !! c = Some k) →
  Z.of_nat (length cs) ≤ L.
Proof.
  intros Hal HL Hr Hnd Hcs. pose proof (reachable_Inv _ _ Hr) as HI.
  etrans; [|apply (reachable_passed allowed k L); [naive_solver lia|done|done]].
  apply total_counts; [apply passedWeight_nonneg|done|].
  intros c Hc. apply Hcs in Hc. apply (inv_handles _ _ HI) in Hc as (g & Hg & Hin).
  exists g. split; [done|]. apply (shape_handle_counted allowed); [|by apply (inv_shape _ _ HI c)|done].
  intros (limit & ? & ?). naive_solver lia.
Qed.

(** ** Draining *)

(** [GetActiveConnectionCount] *)
Definition GetActiveConnectionCount (s : Shared) : Z := activeConnCount s.

(** What the [select] of one turn of [Drain] saw: the ticker, or the end of the context
    with the shared state at that moment. *)
Inductive DrainEvent := DrainTick | DrainDone (s : Shared).

(** The loop of [Drain]: each turn loads the counter and waits for an event; [None] while it
    runs. *)
Fixpoint drainLoop (turns : list (Shared * DrainEvent)) : option Z :=
  match turns with
  | [] => None
  | (s, e) :: turns =>
      if GetActiveConnectionCount s =? 0 then Some 0
      else match e with
           | DrainDone s' => Some (GetActiveConnectionCount s')
           | DrainTick => drainLoop turns
           end
  end.

(** [Drain]: the listeners are closed, then the loop runs.  [Close] is [Server.Close] on the
    listeners [k] there are ([Dataplane] has them). *)
Definition Drain {K} (Close : K → K) (k : K) (turns : list (Shared * DrainEvent)) : option Z * K :=
  (drainLoop turns, Close k).

(** The states the turns loaded. *)
Definition observed (turns : list (Shared * DrainEvent)) : list Shared :=
  turns ≫= fun '(s, e) => s :: match e with DrainDone s' => [s'] | DrainTick => [] end.

Lemma drainLoop_observed turns n :
  drainLoop turns = Some n → ∃ s, s ∈ observed turns ∧ activeConnCount s = n.
Proof.
  induction turns as [|[s e] turns IH]; [done|]. simpl. unfold GetActiveConnectionCount.
  case_match eqn:Hz.
  - intros [= <-]. exists s. split; [set_solver|lia].
  - destruct e as [|s']; [|intros [= <-]; exists s'; set_solver].
    intros (s' & ? & ?)%IH. exists s'. set_solver.
Qed.

Lemma shape_active allowed g :
  shape allowed g → occ ActiveDec (stackOf g) = 0 → g = Running Spawned [] ∨ g = Unwinding [].
Proof.
  assert (H : ∀ st, occ ActiveDec (st ++ [ActiveDec]) ≠ 0).
  { induction st as [|d st IH]; simpl; rewrite occ_cons; case_decide; try done;
      pose proof (occ_nonneg ActiveDec (st ++ [ActiveDec])); try lia. }
  assert (Hc : ∀ k st, capped allowed k st → occ ActiveDec st ≠ 0).
  { intros k st []; [apply (H [_; _])|apply (H [_])]. }
  assert (Hr : ∀ k k' st, capped allowed k st → occ ActiveDec (ReleaseHandle k' :: st) ≠ 0).
  { intros k k' st Hst. rewrite occ_cons, decide_False by done. by apply (Hc k) in Hst. }
  pose proof (H []) as H1; pose proof (H [DeleteInfo]) as H2; simpl in H1, H2.
  destruct g as [[]|]; simpl; naive_solver.
Qed.

Lemma drained_conns allowed sys c g :
  Inv allowed sys → activeConnCount (shared sys) = 0 → conns sys !! c = Some g →
  g = Running Spawned [] ∨ g = Unwinding [].
Proof.
  intros HI H0 Hc. apply (shape_active allowed); [by apply (inv_shape _ _ HI c)|].
  pose proof (total_ge (fun g => occ ActiveDec (stackOf g)) (fun g => occ_nonneg _ _) _ _ _ Hc) as Hge.
  simpl in Hge. rewrite <- (inv_active _ _ HI) in Hge.
  pose proof (occ_nonneg ActiveDec (stackOf g)). lia.
Qed.

Lemma drained_free allowed sys d c :
  Inv allowed sys → activeConnCount (shared sys) = 0 → ¬ holds (conns sys) c d.
Proof.
  intros HI H0 (g & Hg & Hin). destruct (drained_conns _ _ _ _ HI H0 Hg) as [-> | ->]; set_solver.
Qed.

Lemma active_nonneg allowed sys : Inv allowed sys → 0 ≤ activeConnCount (shared sys).
Proof. intros HI. rewrite (inv_active _ _ HI). apply total_nonneg. intros; apply occ_nonneg. Qed.

Lemma drained_shared allowed sys :
  Inv allowed sys → activeConnCount (shared sys) = 0 →
  handles (shared sys) = ∅ ∧ connInfo (shared sys) = ∅ ∧ ∀ k, perIPCount (shared sys) k = 0.
Proof.
  intros HI H0. repeat split.
  - apply map_empty. intros c. destruct (handles (shared sys) !! c) as [k|] eqn:Hc; [|done].
    apply (inv_handles _ _ HI) in Hc. by destruct (drained_free _ _ _ _ HI H0 Hc).
  - apply set_eq. intros c. split; [|set_solver]. intros Hc%(inv_info _ _ HI).
    by destruct (drained_free _ _ _ _ HI H0 Hc).
  - intros k. rewrite (inv_counts _ _ HI k). apply total_zero. intros c g Hg.
    by destruct (drained_conns _ _ _ _ HI H0 Hg) as [-> | ->].
Qed.

(** C27: When [Drain] returns 0, at one of the moments it looked every connection that
    was ever counted had given everything back: no handle of a queue is held, every
    per-address counter is 0 and the table of connections is empty. *)
Theorem Drain_zero_means_free {K} (Close : K → K) k allowed turns :
  (∀ s, s ∈ observed turns → ∃ m, reachable allowed (mkSystem s m)) →
  (Drain Close k turns).1 = Some 0 →
  ∃ s, s ∈ observed turns ∧
    handles s = ∅ ∧ connInfo s = ∅ ∧ (∀ k, perIPCount s k = 0).
Proof.
  intros Hobs (s & Hs & H0)%drainLoop_observed. exists s. split; [done|].
  destruct (Hobs s Hs) as [m Hr]. by apply (drained_shared allowed (mkSystem s m)); [apply reachable_Inv|].
Qed.

Lemma capped_info allowed k st : capped allowed k st → DeleteInfo ∈ st.
Proof. destruct 1; set_solver. Qed.

Lemma shape_handle_info allowed g k :
  shape allowed g → ReleaseHandle k ∈ stackOf g → DeleteInfo ∈ stackOf g.
Proof.
  assert (H : ∀ k' st, capped allowed k' st → DeleteInfo ∈ ReleaseHandle k' :: st).
  { intros k' st Hst. right. by eapply capped_info. }
  destruct g as [p st|st]; simpl; intros Hsh Hin.
  - destruct p; simpl in *; subst; try set_solver; naive_solver eauto using capped_info.
  - destruct Hsh as [(k' & st' & -> & Hc)|[[k' Hc]|[->|[->| ->]]]];
      [by apply H|by eapply capped_info|set_solver..].
Qed.

(** C21: The counter of active connections is exact and the per-address counters are
    never negative: at every reachable state the number loaded by [Drain], by the status
    page and by the metrics is the number of connections between their increment and
    their deferred decrement. *)
Theorem counters_exact allowed sys :
  reachable allowed sys →
  activeConnCount (shared sys) = total (fun g => occ ActiveDec (stackOf g)) (conns sys) ∧
  0 ≤ activeConnCount (shared sys) ∧
  (∀ k, 0 ≤ perIPCount (shared sys) k) ∧
  (∀ c k, handles (shared sys) !! c = Some k → c ∈ connInfo (shared sys)).
Proof.
  intros Hr. pose proof (reachable_Inv _ _ Hr) as HI. split; [apply (inv_active _ _ HI)|].
  split; [|split].
  - by apply (active_nonneg allowed).
  - intros k. rewrite (inv_counts _ _ HI k).
    etrans; [|apply total_le, passedWeight_le]. apply total_nonneg, passedWeight_nonneg.
  - intros c k (g & Hg & Hin)%(inv_handles _ _ HI). apply (inv_info _ _ HI).
    exists g. split; [done|]. by apply (shape_handle_info allowed g k (inv_shape _ _ HI c g Hg)).
Qed.

(** ** Runs

    A scheduler that executes the steps; a run it accepts is a run of the system. *)

Inductive Move :=
  | Forward                       (* the next statement *)
  | Choose (k : perIPCountKey)    (* the target *)
  | Cap (limit : Z)               (* getPerIPLimitForUpstream returned limit *)
  | Leave.

Definition gexec (allowed : string → Z → bool) (c : nat) (mv : Move) (s : Shared) (g : Goroutine)
    : option (Shared * Goroutine) :=
  match mv, g with
  | Forward, Running Spawned st => Some (addActive 1 s, Running Arrived (ActiveDec :: st))
  | Forward, Running Arrived st => Some (countAccepted s, Running Accepted st)
  | Forward, Running Accepted st =>
      Some (setInfo (fun X => {[c]} ∪ X) s, Running Requested (DeleteInfo :: st))
  | Choose k, Running Requested st => Some (s, Running (Targeted k) st)
  | Cap limit, Running (Targeted k) st =>
      if allowed (key_upstream k) limit then
        if 0 <? limit then Some (addPerIP k 1 s, Running (Counted k limit (perIPCount s k + 1)) st)
        else Some (s, Running (Admissible k) st)
      else None
  | Forward, Running (Counted k limit n) st =>
      if limit <? n then Some (addPerIP k (-1) s, Running Over st)
      else Some (s, Running (Admissible k) (CounterDec k :: st))
  | Forward, Running Over st => Some (countRejected s, Running Refused st)
  | Forward, Running (Admissible k) st =>
      Some (setHandles (<[c := k]>) s, Running (Queued k) (ReleaseHandle k :: st))
  | Forward, Running (Queued k) st => Some (s, Running (Relaying k) st)
  | Forward, Running (Relaying k) st => Some (countCompleted s, Running Completed st)
  | Leave, Running p st => if mayLeave p then Some (s, Unwinding st) else None
  | Forward, Unwinding (d :: st) => Some (runDeferred c d s, Unwinding st)
  | _, _ => None
  end.

Inductive Event := Spawn (c : nat) | Step (c : nat) (mv : Move) | End (c : nat).

Definition exec (allowed : string → Z → bool) (e : Event) (sys : System) : option System :=
  match e with
  | Spawn c =>
      match conns sys !! c with
      | None => Some (mkSystem (shared sys) (<[c := Running Spawned []]> (conns sys)))
      | Some _ => None
      end
  | Step c mv =>
      g ← conns sys !! c;
      '(s', g') ← gexec allowed c mv (shared sys) g;
      Some (mkSystem s' (<[c := g']> (conns sys)))
  | End c =>
      match conns sys !! c with
      | Some (Unwinding []) => Some (mkSystem (shared sys) (delete c (conns sys)))
      | _ => None
      end
  end.

Definition run (allowed : string → Z → bool) (es : list Event) : option System :=
  foldl (fun r e => r ≫= exec allowed e) (Some initial) es.

Lemma gexec_sound allowed c mv s g s' g' :
  gexec allowed c mv s g = Some (s', g') → gstep (fun u l => allowed u l = true) c s g s' g'.
Proof.
  destruct mv, g as [[] st|[|d st]]; simpl; intros H; repeat case_match; simplify_eq;
    first [by constructor | constructor; (done || lia)
          | eapply g_nocap; [done|lia] | idtac].
Qed.

Lemma run_reachable allowed es sys :
  run allowed es = Some sys → reachable (fun u l => allowed u l = true) sys.
Proof.
  revert sys. induction es as [|e es IH] using rev_ind; intros sys.
  - intros [= <-]. constructor.
  - unfold run. rewrite foldl_app. simpl. intros (sys0 & H0 & He)%bind_Some.
    eapply r_step; [apply IH, H0|]. destruct e as [c|c mv|c]; simpl in He.
    + case_match; simplify_eq. by constructor.
    + apply bind_Some in He as (g & Hg & He). apply bind_Some in He as ([s' g'] & Hx & [= <-]).
      eapply s_conn; [done|]. by apply gexec_sound in Hx.
    + repeat case_match; simplify_eq. by constructor.
Qed.

(** Two connections of one address under a cap of one: the first holds a handle, the
    second was counted over the cap. *)
Definition runKey : perIPCountKey := mkKey "u"%string "192.0.2.1"%string.
Definition capOne (u : string) (limit : Z) : bool := limit =? 1.
Definition capOneP (u : string) (limit : Z) : Prop := capOne u limit = true.

Definition runEvents : list Event :=
  [Spawn 1; Spawn 2; Step 1 Forward; Step 2 Forward; Step 1 Forward; Step 2 Forward;
   Step 1 Forward; Step 2 Forward; Step 1 (Choose runKey); Step 2 (Choose runKey);
   Step 1 (Cap 1); Step 2 (Cap 1); Step 1 Forward; Step 1 Forward].
Definition endEvents : list Event :=
  runEvents ++ [Step 2 Forward; Step 2 Forward; Step 2 Leave; Step 1 Leave;
    Step 1 Forward; Step 1 Forward; Step 1 Forward; Step 1 Forward; End 1;
    Step 2 Forward; Step 2 Forward].
Definition runSystem : System := default initial (run capOne runEvents).
Definition endSystem : System := default initial (run capOne endEvents).

Lemma runSystem_reachable : reachable capOneP runSystem.
Proof. apply run_reachable with runEvents. vm_compute. reflexivity. Defined.

Lemma endSystem_reachable : reachable capOneP endSystem.
Proof. apply run_reachable with endEvents. vm_compute. reflexivity. Defined.

Lemma per_ip_cap_holds_witness :
  handles (shared runSystem) !! 1%nat = Some runKey ∧ perIPCount (shared runSystem) runKey = 2 ∧
  Z.of_nat (length [1%nat]) ≤ 1.
Proof.
  split; [vm_compute; reflexivity|]. split; [vm_compute; reflexivity|].
  apply (per_ip_cap_holds capOneP runKey 1 runSystem).
  - unfold capOneP, capOne. intros limit H. lia.
  - lia.
  - exact runSystem_reachable.
  - apply NoDup_singleton.
  - intros c Hc. apply list_elem_of_singleton in Hc. rewrite Hc. vm_compute. reflexivity.
Defined.

Lemma counters_exact_witness :
  activeConnCount (shared runSystem) = 2 ∧ 0 ≤ perIPCount (shared runSystem) runKey.
Proof.
  split; [vm_compute; reflexivity|].
  exact (proj1 (proj2 (proj2 (counters_exact capOneP runSystem runSystem_reachable))) runKey).
Defined.

Definition drainTurns : list (Shared * DrainEvent) :=
  [(shared runSystem, DrainTick); (shared endSystem, DrainTick)].

Lemma observed_ticks s1 s2 s :
  s ∈ observed [(s1, DrainTick); (s2, DrainTick)] → s = s1 ∨ s = s2.
Proof. simpl. rewrite elem_of_cons, list_elem_of_singleton. done. Qed.

Lemma Drain_zero_means_free_witness :
  (Drain (fun k : bool => false) true drainTurns).1 = Some 0 ∧ ∃ s, s ∈ observed drainTurns ∧ handles s = ∅.
Proof.
  assert (H : (Drain (fun k : bool => false) true drainTurns).1 = Some 0) by (vm_compute; reflexivity).
  split; [exact H|].
  destruct (Drain_zero_means_free (fun k : bool => false) true capOneP drainTurns) as (s & Hs & Hh & _).
  - intros s Hs. destruct (observed_ticks _ _ _ Hs) as [Hs'|Hs']; rewrite Hs'.
    + exists (conns runSystem). exact runSystem_reachable.
    + exists (conns endSystem). exact endSystem_reachable.
  - exact H.
  - exact (ex_intro _ s (conj Hs Hh)).
Defined.

(** A connection that was accepted but whose goroutine has not run yet is not seen. *)
Example Drain_misses_spawned :
  ∃ sys, reachable capOneP sys ∧ conns sys !! 1%nat = Some (Running Spawned []) ∧
    drainLoop [(shared sys, DrainTick)] = Some 0.
Proof.
  exists (mkSystem (shared initial) (<[1%nat := Running Spawned []]> ∅)).
  split; [|done]. by apply run_reachable with [Spawn 1].
Qed.
