(* ===== verification/Buffers.v ===== *)
(** * The pool of read buffers: [bufPool] of [pkg/server/server.go]

    Every call of [relay] takes a buffer from a pool all calls share, reads the version line,
    the request and the upstream's first line into it, and gives it back when it returns; the
    buffer then still holds what the last connection read.  Here the buffers are arrays in a
    heap, the calls are goroutines whose steps interleave, and [relay] is cut at the points
    where it uses its buffer.  [Relay] treats the data of a connection as a value of its own;
    the theorems below say that this is right. *)
From S2P Require Import Prelude GoStd Net Upstreams.
Open Scope Z_scope.

(** ** [relay] and its buffer *)

Inductive LineOf := VersionLine | ModuleLine | UpstreamLine.

Inductive CallPoint :=
  | Spawned             (* before [bufPool.Get] *)
  | Reading (w : LineOf) (* in [readLine] *)
  | Filled (w : LineOf)  (* [readLine] has returned [lc_n] bytes, in the buffer *)
  | Waiting             (* per-address cap, queue, dialing *)
  | Copying
  | Returning           (* [bufPool.Put] is still deferred *)
  | Gone.

(** The variables of a call that have to do with the buffer. *)
Record Local := mkLocal {
  lc_at : CallPoint;
  lc_n : nat;
  lc_down : Conn;
  lc_up : option Conn;
  lc_version : list ascii;   (* [rsyncdClientVersion], a copy *)
  lc_module : list ascii }.  (* [moduleName], a copy *)

Definition setAt (p : CallPoint) (l : Local) : Local :=
  mkLocal p (lc_n l) (lc_down l) (lc_up l) (lc_version l) (lc_module l).
Definition setDownConn (c : Conn) (l : Local) : Local :=
  mkLocal (lc_at l) (lc_n l) c (lc_up l) (lc_version l) (lc_module l).
Definition setUpConn (c : Conn) (l : Local) : Local :=
  mkLocal (lc_at l) (lc_n l) (lc_down l) (Some c) (lc_version l) (lc_module l).
(** The next [readLine] starts at the beginning of the buffer. *)
Definition startReading (w : LineOf) (l : Local) : Local :=
  mkLocal (Reading w) 0 (lc_down l) (lc_up l) (lc_version l) (lc_module l).

(** The connection a line is read from. *)
Definition source (w : LineOf) (l : Local) : option Conn :=
  match w with UpstreamLine => lc_up l | _ => Some (lc_down l) end.
Definition setSource (w : LineOf) (c : Conn) (l : Local) : Local :=
  match w with UpstreamLine => setUpConn c l | _ => setDownConn c l end.

(** What [conn.Read(buf[n:])] does to the buffer. *)
Definition overwrite (n : nat) (data buf : list ascii) : list ascii :=
  take n buf ++ data ++ drop (n + length data) buf.

(** One turn of the loop of [readLine]. *)
Definition readTurn (w : LineOf) (buf : list ascii) (l : Local) : option (list ascii * Local) :=
  c ← source w l;
  let '((data, err), c) := Read (length buf - lc_n l) c in
  let buf := overwrite (lc_n l) data buf in
  let n := (lc_n l + length data)%nat in
  let l := mkLocal (lc_at l) n (lc_down l) (lc_up l) (lc_version l) (lc_module l) in
  let l := setSource w c l in
  Some (buf,
    if (0 <? n)%nat && bool_decide (buf !! (n - 1)%nat = Some (chr 10)) then setAt (Filled w) l
    else if (n =? length buf)%nat then setAt (Filled w) l
    else match err with Some _ => setAt Returning l | None => l end).

(** A write to the client or to the upstream, after which the call returns or goes on. *)
Definition thenWrite (data : list ascii) (next : Local → Local) (l : Local) : Local :=
  let '(err, c) := writeWithTimeout data (lc_down l) in
  match err with Some _ => setAt Returning (setDownConn c l) | None => next (setDownConn c l) end.
Definition thenWriteUp (data : list ascii) (next : Local → Local) (l : Local) : Local :=
  match lc_up l with
  | None => setAt Returning l
  | Some u =>
      let '(err, u) := writeWithTimeout data u in
      match err with Some _ => setAt Returning (setUpConn u l) | None => next (setUpConn u l) end
  end.

Section calls.
(** The message of the day and the listing, which do not come from a buffer. *)
Context (motd : string) (listing : list ascii).

(** The code after the three calls of [readLine], up to the next one. *)
Definition useVersion (buf : list ascii) (l : Local) : Local :=
  let version := take (lc_n l) buf in
  let l := mkLocal (lc_at l) (lc_n l) (lc_down l) (lc_up l) version (lc_module l) in
  if negb (hasPrefix (text version) RsyncdVersionPrefix) then setAt Returning l
  else thenWrite (chars RsyncdServerVersion) (startReading ModuleLine) l.

Definition useModule (buf : list ascii) (l : Local) : Local :=
  if (lc_n l =? 0)%nat then setAt Returning l
  else
    (if decide (motd = "") then id else thenWrite (chars (motd +:+ LF)))
      (fun l =>
         if (lc_n l =? 1)%nat then thenWrite listing (setAt Returning) l
         else mkLocal Waiting (lc_n l) (lc_down l) (lc_up l) (lc_version l) (take (lc_n l - 1) buf))
      l.

Definition useUpstream (buf : list ascii) (l : Local) : Local :=
  let data := take (lc_n l) buf in
  if negb (hasPrefix (text data) RsyncdVersionPrefix) then setAt Returning l
  else
    let idx := match indexByte (chr 10) data with Some i => S i | None => O end in
    let sendModule := thenWriteUp (lc_module l ++ [chr 10]) (setAt Copying) in
    if (idx <? lc_n l)%nat then thenWrite (drop idx data) sendModule l else sendModule l.

(** The next step of a call that has a buffer. *)
Definition code (buf : list ascii) (l : Local) : option (list ascii * Local) :=
  match lc_at l with
  | Reading w => readTurn w buf l
  | Filled VersionLine => Some (buf, useVersion buf l)
  | Filled ModuleLine => Some (buf, useModule buf l)
  | Filled UpstreamLine => Some (buf, useUpstream buf l)
  | _ => None
  end.

(** What happens to a call from outside: the queue and the dialer let it through, after some
    notices to the client and the PROXY header to the upstream, or it ends early; the copying
    ends. *)
Inductive Ev :=
  | Get (b : option nat) (* a buffer of the pool, or a new one *)
  | Run
  | Dialled (notices : list (list ascii)) (upConn : Conn)
  | Leave
  | PutBack.

Definition outside (e : Ev) (l : Local) : option Local :=
  match e, lc_at l with
  | Dialled notices upConn, Waiting =>
      let c := lc_down l in
      let c := mkConn (rx c) (rxErr c) (txErrs c) (tx c ++ notices) (localAddr c) (remoteAddr c) in
      Some (thenWriteUp (lc_version l) (startReading UpstreamLine) (setUpConn upConn (setDownConn c l)))
  | Leave, (Waiting | Copying) => Some (setAt Returning l)
  | _, _ => None
  end.

(** ** A call with a buffer of its own *)

Definition newBuffer : list ascii := replicate ReadBufferSize (chr 0).

Definition pstep (e : Ev) (p : option (list ascii) * Local) : option (option (list ascii) * Local) :=
  let '(b, l) := p in
  match e, b, lc_at l with
  | Get _, None, Spawned => Some (Some newBuffer, startReading VersionLine l)
  | Run, Some buf, _ => '(buf, l) ← code buf l; Some (Some buf, l)
  | PutBack, Some _, Returning => Some (None, setAt Gone l)
  | Dialled _ _, Some _, _ | Leave, Some _, _ => l ← outside e l; Some (b, l)
  | _, _, _ => None
  end.

Definition spawn (downConn : Conn) : Local := mkLocal Spawned 0 downConn None [] [].

Fixpoint prun (es : list Ev) (p : option (list ascii) * Local) : option (option (list ascii) * Local) :=
  match es with [] => Some p | e :: es => p ← pstep e p; prun es p end.

(** ** All calls, over the pool *)

Record Pooled := mkPooled {
  sy_heap : gmap nat (list ascii);
  sy_pool : list nat;
  sy_calls : gmap nat (option nat * Local) }.

Inductive SysEv :=
  | Accept (i : nat) (downConn : Conn)
  | Call (i : nat) (e : Ev)
  | Collect (b : nat). (* the runtime may drop buffers of the pool *)

Definition sysStart : Pooled := mkPooled ∅ [] ∅.

(** A pool without one buffer of it. *)
Fixpoint takeOut (b : nat) (pool : list nat) : option (list nat) :=
  match pool with
  | [] => None
  | b' :: pool => if decide (b' = b) then Some pool else cons b' <$> takeOut b pool
  end.

(** [bufPool.Get]: a buffer some call gave back, or a new one. *)
Definition poolGet (b : option nat) (s : Pooled) : option (nat * Pooled) :=
  match b with
  | Some b =>
      pool ← takeOut b (sy_pool s);
      Some (b, mkPooled (sy_heap s) pool (sy_calls s))
  | None =>
      let b := fresh (dom (sy_heap s)) in
      Some (b, mkPooled (<[b := newBuffer]> (sy_heap s)) (sy_pool s) (sy_calls s))
  end.

Definition setCall (i : nat) (h : option nat) (l : Local) (s : Pooled) : Pooled :=
  mkPooled (sy_heap s) (sy_pool s) (<[i := (h, l)]> (sy_calls s)).

Definition callStep (i : nat) (e : Ev) (s : Pooled) : option Pooled :=
  '(h, l) ← sy_calls s !! i;
  match e, h, lc_at l with
  | Get c, None, Spawned =>
      '(b, s) ← poolGet c s;
      Some (setCall i (Some b) (startReading VersionLine l) s)
  | Run, Some b, _ =>
      buf ← sy_heap s !! b;
      '(buf, l) ← code buf l;
      Some (setCall i (Some b) l (mkPooled (<[b := buf]> (sy_heap s)) (sy_pool s) (sy_calls s)))
  | PutBack, Some b, Returning =>
      Some (setCall i None (setAt Gone l) (mkPooled (sy_heap s) (b :: sy_pool s) (sy_calls s)))
  | Dialled _ _, Some b, _ | Leave, Some b, _ =>
      l ← outside e l;
      Some (setCall i (Some b) l s)
  | _, _, _ => None
  end.

Definition sysStep (e : SysEv) (s : Pooled) : option Pooled :=
  match e with
  | Accept i downConn =>
      match sy_calls s !! i with
      | Some _ => None
      | None => Some (setCall i None (spawn downConn) s)
      end
  | Call i e => callStep i e s
  | Collect b => pool ← takeOut b (sy_pool s); Some (mkPooled (sy_heap s) pool (sy_calls s))
  end.

Fixpoint sysRun (es : list SysEv) (s : Pooled) : option Pooled :=
  match es with [] => Some s | e :: es => s ← sysStep e s; sysRun es s end.

(** What happened to one call, and the connection it was started with. *)
Definition eventsOf (i : nat) (es : list SysEv) : list Ev :=
  omap (fun e => match e with Call j e => if decide (j = i) then Some e else None | _ => None end) es.
Definition acceptedAs (i : nat) (es : list SysEv) : option Conn :=
  head (omap (fun e => match e with Accept j c => if decide (j = i) then Some c else None | _ => None end) es).

Lemma takeOut_perm b pool pool' : takeOut b pool = Some pool' → pool ≡ₚ b :: pool'.
Proof.
  revert pool'. induction pool as [|x pool IH]; intros pool' Ht; [done|]. simpl in Ht. case_decide as Hx.
  - by injection Ht as ->; subst.
  - apply fmap_Some in Ht as (r & Hr & ->). rewrite (IH r Hr). apply Permutation_swap.
Qed.

(** ** The code does not look beyond what it read *)

(** Two buffers that agree on the first [n] bytes. *)
Record agree (n : nat) (b b' : list ascii) : Prop := {
  ag_len : length b = ReadBufferSize;
  ag_len' : length b' = ReadBufferSize;
  ag_n : (n ≤ ReadBufferSize)%nat;
  ag_read : take n b = take n b' }.

Lemma overwrite_length n data buf :
  (n + length data ≤ length buf)%nat → length (overwrite n data buf) = length buf.
Proof. intros Hn. unfold overwrite. rewrite !length_app, length_take, length_drop. lia. Qed.

Lemma overwrite_take n data buf :
  (n + length data ≤ length buf)%nat → take (n + length data) (overwrite n data buf) = take n buf ++ data.
Proof.
  intros Hn. unfold overwrite. rewrite app_assoc. apply take_app_length'.
  rewrite length_app, length_take. lia.
Qed.

Lemma lookup_take_eq {A} (b b' : list A) n i : take n b = take n b' → (i < n)%nat → b !! i = b' !! i.
Proof. intros E Hi. rewrite <- (lookup_take_lt b n i Hi), E. by apply lookup_take_lt. Qed.

Lemma readTurn_agree w b b' l :
  agree (lc_n l) b b' →
  match readTurn w b l, readTurn w b' l with
  | Some (c, k), Some (c', k') => k = k' ∧ agree (lc_n k) c c'
  | None, None => True
  | _, _ => False
  end.
Proof.
  intros [H1 H2 H3 H4]. unfold readTurn. destruct (source w l) as [c|]; simpl; [|done].
  rewrite H1, H2. destruct (Read _ c) as [[data err] c1] eqn:E.
  apply Read_spec in E as (_ & Hl & _). rewrite !overwrite_length by lia. rewrite H1, H2.
  assert (agree (lc_n l + length data) (overwrite (lc_n l) data b) (overwrite (lc_n l) data b')) as Ha.
  { split; rewrite ?overwrite_length by lia; try lia. rewrite !overwrite_take by lia. by rewrite H4. }
  assert (∀ i, (i < lc_n l + length data)%nat → overwrite (lc_n l) data b !! i = overwrite (lc_n l) data b' !! i) as Hi.
  { intros i. apply lookup_take_eq, Ha. }
  split.
  - destruct (Nat.ltb_spec 0 (lc_n l + length data)); [|done]. by rewrite Hi by lia.
  - destruct w; simpl; repeat case_match; simpl; done.
Qed.

Lemma agree_le m n b b' : (m ≤ n)%nat → agree n b b' → agree m b b'.
Proof.
  intros Hm [H1 H2 H3 H4]. split; [done|done|lia|].
  rewrite <- (Nat.min_l m n) by done. by rewrite <- !take_take, H4.
Qed.

(** What the code makes of the bytes it has read, and that it reads no others. *)
Lemma uses_agree b b' l :
  agree (lc_n l) b b' →
  useVersion b l = useVersion b' l ∧ useModule b l = useModule b' l ∧ useUpstream b l = useUpstream b' l.
Proof.
  intros Ha. unfold useVersion, useUpstream. rewrite (ag_read _ _ _ Ha). split_and!; [done| |done].
  assert (take (lc_n l - 1) b = take (lc_n l - 1) b') as Hm.
  { apply (agree_le (lc_n l - 1) (lc_n l)); [lia|done]. }
  unfold useModule, thenWrite. destruct (Nat.eqb_spec (lc_n l) 0); [done|]. case_decide; simpl; [by rewrite Hm|].
  destruct (writeWithTimeout _ _) as [[e|] c]; [done|]. simpl. by rewrite Hm.
Qed.

Lemma uses_n buf l :
  (lc_n (useVersion buf l) ≤ lc_n l)%nat ∧ (lc_n (useModule buf l) ≤ lc_n l)%nat ∧
  (lc_n (useUpstream buf l) ≤ lc_n l)%nat.
Proof.
  unfold useVersion, useModule, useUpstream, thenWrite, thenWriteUp.
  split_and!; repeat (case_match; simpl; try lia).
Qed.

Lemma code_agree b b' l :
  agree (lc_n l) b b' →
  match code b l, code b' l with
  | Some (c, k), Some (c', k') => k = k' ∧ agree (lc_n k) c c'
  | None, None => True
  | _, _ => False
  end.
Proof.
  intros Ha. destruct (uses_agree b b' l Ha) as (E1 & E2 & E3). destruct (uses_n b l) as (N1 & N2 & N3).
  unfold code. destruct (lc_at l) as [|w|[]| | | |]; try done; [by apply readTurn_agree|..];
    (split; [done|by apply (agree_le _ (lc_n l))]).
Qed.

Lemma outside_n e l k : outside e l = Some k → (lc_n k ≤ lc_n l)%nat.
Proof.
  unfold outside, thenWriteUp. destruct e; try done; destruct (lc_at l); try done; simpl;
    repeat (case_match; simpl); intros [= <-]; simpl; lia.
Qed.

(** ** The calls and their buffers *)

(** Who has which buffer: nobody shares one, and none that is in use is in the pool. *)
Record Inv (s : Pooled) : Prop := {
  inv_heap b buf : sy_heap s !! b = Some buf → length buf = ReadBufferSize;
  inv_pool : NoDup (sy_pool s);
  inv_pooled b : b ∈ sy_pool s → is_Some (sy_heap s !! b);
  inv_held i b l : sy_calls s !! i = Some (Some b, l) → is_Some (sy_heap s !! b) ∧ b ∉ sy_pool s;
  inv_alone i j b l k : sy_calls s !! i = Some (Some b, l) → sy_calls s !! j = Some (Some b, k) → i = j }.

(** A call, in the system and alone: the same variables, and the same bytes in the buffer as
    far as they were read. *)
Definition same (s : Pooled) (h : option nat) (p : option (list ascii)) (l : Local) : Prop :=
  match h, p with
  | None, None => True
  | Some b, Some buf' => ∃ buf, sy_heap s !! b = Some buf ∧ agree (lc_n l) buf buf'
  | _, _ => False
  end.

(** A step of call [i]. *)
Lemma Inv_update s i h l heap pool :
  Inv s →
  (∀ b buf, heap !! b = Some buf → length buf = ReadBufferSize) →
  (∀ b, is_Some (sy_heap s !! b) → is_Some (heap !! b)) →
  NoDup pool → (∀ b, b ∈ pool → is_Some (heap !! b)) →
  (∀ b, h = Some b → is_Some (heap !! b) ∧ b ∉ pool) →
  (∀ j b k, j ≠ i → sy_calls s !! j = Some (Some b, k) → (b ∉ pool) ∧ h ≠ Some b) →
  Inv (mkPooled heap pool (<[i := (h, l)]> (sy_calls s))).
Proof.
  intros HI Hlen Hgrow Hnd Hpool Hh Hothers. split; simpl; try done.
  - intros j b k Hj. destruct (decide (j = i)) as [->|Hne].
    + rewrite lookup_insert_eq in Hj. injection Hj as -> <-. by apply Hh.
    + rewrite lookup_insert_ne in Hj by done. split; [|by apply (Hothers j b k)].
      apply Hgrow. by apply (inv_held s HI j b k).
  - intros j j' b k k' Hj Hj'. rewrite lookup_insert in Hj, Hj'. repeat case_decide; simplify_eq; try done.
    + by destruct (Hothers j b k).
    + by destruct (Hothers j' b k').
    + by apply (inv_alone s HI j j' b k k').
Qed.

(** [bufPool.Get] hands out a buffer nobody else has. *)
Lemma poolGet_spec c s b s' :
  Inv s → poolGet c s = Some (b, s') →
  sy_calls s' = sy_calls s ∧ NoDup (sy_pool s') ∧ (b ∉ sy_pool s') ∧ (∀ b', b' ∈ sy_pool s' → b' ∈ sy_pool s) ∧
  (∃ buf, sy_heap s' !! b = Some buf) ∧
  (∀ b' buf, sy_heap s' !! b' = Some buf → length buf = ReadBufferSize) ∧
  (∀ b', b' ≠ b ∨ is_Some (sy_heap s !! b') → sy_heap s' !! b' = sy_heap s !! b') ∧
  (∀ j k, sy_calls s !! j ≠ Some (Some b, k)).
Proof.
  intros HI Hg. pose proof (inv_pool s HI) as Hp. destruct c as [c|]; simpl in Hg.
  - apply bind_Some in Hg as (pool & Ht%takeOut_perm & [= -> <-]). simpl. rewrite Ht in Hp.
    apply NoDup_cons in Hp as [Hb Hp]. assert (b ∈ sy_pool s) as Hin by (rewrite Ht; set_solver).
    split_and!; try done.
    + intros b' Hb'. rewrite Ht. set_solver.
    + by apply (inv_pooled s HI).
    + apply (inv_heap s HI).
    + intros j k Hj. by apply (inv_held s HI) in Hj as [_ ?].
  - injection Hg as <- <-. simpl. set (b := fresh (dom (sy_heap s))).
    assert (sy_heap s !! b = None) as Hb by (apply not_elem_of_dom, is_fresh).
    split_and!; try done.
    + intros Hin. apply (inv_pooled s HI) in Hin as [x Hx]. congruence.
    + eexists. apply lookup_insert_eq.
    + intros b' buf. destruct (decide (b' = b)) as [->|]; [rewrite lookup_insert_eq|rewrite lookup_insert_ne by done].
      * intros [= <-]. apply length_replicate.
      * apply (inv_heap s HI).
    + intros b' Hb'. apply lookup_insert_ne. intros <-. destruct Hb' as [?|[x Hx]]; [done|congruence].
    + intros j k Hj. apply (inv_held s HI) in Hj as [[x Hx] _]. congruence.
Qed.

(** ** Every step of the system is a step of one call alone *)

(** The calls of the system that a step of call [i] does not touch keep their buffers. *)
Definition frame (i : nat) (s s' : Pooled) : Prop :=
  ∀ j, j ≠ i → sy_calls s' !! j = sy_calls s !! j ∧
    ∀ b k, sy_calls s !! j = Some (Some b, k) → sy_heap s' !! b = sy_heap s !! b.

(** After a step of call [i] the system is as it should be, and so is the call, alone. *)
Definition stepped (i : nat) (e : Ev) (s s' : Pooled) (p : option (list ascii)) (l : Local) : Prop :=
  Inv s' ∧ frame i s s' ∧
  ∃ h' p' l', sy_calls s' !! i = Some (h', l') ∧ pstep e (p, l) = Some (p', l') ∧ same s' h' p' l'.

Lemma step_get i c s s' l :
  Inv s → sy_calls s !! i = Some (None, l) → lc_at l = Spawned → callStep i (Get c) s = Some s' →
  stepped i (Get c) s s' None l.
Proof.
  intros HI Hi Hat Hs. unfold callStep in Hs. rewrite Hi in Hs. simpl in Hs. rewrite Hat in Hs.
  apply bind_Some in Hs as ([b s1] & Hg & [= <-]).
  destruct (poolGet_spec c s b s1 HI Hg) as (Hc & Hnd & Hb & Hsub & [buf Hbuf] & Hlen & Hheap & Hnone).
  unfold setCall. rewrite Hc. split; [|split].
  - apply (Inv_update s); cbn [sy_heap sy_pool sy_calls]; try done.
    + intros b' Hb'. rewrite Hheap by tauto. done.
    + intros b' Hb'. destruct (decide (b' = b)) as [->|]; [done|].
      rewrite Hheap by tauto. apply (inv_pooled s HI). by apply Hsub.
    + intros ? [= <-]. eauto.
    + intros j b' k Hj Hcall. split; [|intros [= <-]; by apply (Hnone j k)].
      intros Hin. by apply (inv_held s HI j b' k) in Hcall as [_ Hp']; apply Hp', Hsub.
  - intros j Hj. simpl. rewrite lookup_insert_ne by done. split; [done|]. intros b' k Hcall.
    apply Hheap. right. by apply (inv_held s HI j b' k).
  - eexists (Some b), (Some newBuffer), _. simpl. rewrite lookup_insert_eq, Hat. split_and!; [done|done|].
    exists buf. split; [done|]. split; [by apply (Hlen b)|apply length_replicate|simpl; lia|done].
Qed.

Lemma step_run i s s' b l p :
  Inv s → sy_calls s !! i = Some (Some b, l) → same s (Some b) p l → callStep i Run s = Some s' →
  stepped i Run s s' p l.
Proof.
  intros HI Hi Hsame Hs. unfold callStep in Hs. rewrite Hi in Hs. simpl in Hs.
  destruct p as [buf'|]; [|done]. destruct Hsame as (buf & Hbuf & Hag). rewrite Hbuf in Hs. simpl in Hs.
  apply bind_Some in Hs as ([buf1 l1] & Hcode & [= <-]).
  pose proof (code_agree buf buf' l Hag) as Hc. rewrite Hcode in Hc.
  destruct (code buf' l) as [[buf1' l1']|] eqn:Hcode'; [|done]. destruct Hc as [<- Hag1].
  destruct (inv_held s HI i b l Hi) as [_ Hbp]. split; [|split].
  - apply (Inv_update s); cbn [sy_heap sy_pool sy_calls]; try done.
    + intros b' c. rewrite lookup_insert. case_decide; [intros [= <-]; apply Hag1|apply (inv_heap s HI)].
    + intros b' Hb'. rewrite lookup_insert. by case_decide.
    + apply (inv_pool s HI).
    + intros b' Hb'. rewrite lookup_insert. case_decide; [done|by apply (inv_pooled s HI)].
    + intros ? [= <-]. by rewrite lookup_insert_eq.
    + intros j b' k Hj Hcall. split; [by apply (inv_held s HI j b' k)|]. intros [= <-].
      by apply Hj, (inv_alone s HI j i b k l).
  - intros j Hj. simpl. rewrite lookup_insert_ne by done. split; [done|]. intros b' k Hcall.
    apply lookup_insert_ne. intros <-. by apply Hj, (inv_alone s HI j i b k l).
  - eexists (Some b), (Some buf1'), l1. simpl. rewrite lookup_insert_eq, Hcode'. split_and!; [done|done|].
    exists buf1. by rewrite lookup_insert_eq.
Qed.

Lemma step_outside i e s s' b l k p :
  (∃ n c, e = Dialled n c) ∨ e = Leave →
  Inv s → sy_calls s !! i = Some (Some b, l) → same s (Some b) p l → outside e l = Some k →
  s' = setCall i (Some b) k s → stepped i e s s' p l.
Proof.
  intros He HI Hi Hsame Hk ->. destruct p as [buf'|]; [|done]. destruct Hsame as (buf & Hbuf & Hag).
  destruct (inv_held s HI i b l Hi) as [Hb Hbp]. split; [|split].
  - apply (Inv_update s); cbn [sy_heap sy_pool sy_calls]; try done; try apply HI.
    + by intros ? [= <-].
    + intros j b' k' Hj Hcall. split; [by apply (inv_held s HI j b' k')|]. intros [= <-].
      by apply Hj, (inv_alone s HI j i b k' l).
  - intros j Hj. simpl. by rewrite lookup_insert_ne.
  - eexists (Some b), (Some buf'), k. simpl. rewrite lookup_insert_eq. split_and!; [done| |].
    + by destruct He as [(n & c & ->)| ->]; rewrite Hk.
    + exists buf. split; [done|]. by apply (agree_le _ (lc_n l)), Hag; apply (outside_n e).
Qed.

Lemma step_put i s s' b l p :
  Inv s → sy_calls s !! i = Some (Some b, l) → lc_at l = Returning → same s (Some b) p l →
  callStep i PutBack s = Some s' → stepped i PutBack s s' p l.
Proof.
  intros HI Hi Hat Hsame Hs. unfold callStep in Hs. rewrite Hi in Hs. simpl in Hs. rewrite Hat in Hs.
  injection Hs as <-. destruct p as [buf'|]; [|done]. destruct (inv_held s HI i b l Hi) as [Hb Hbp].
  split; [|split].
  - apply (Inv_update s); cbn [sy_heap sy_pool sy_calls]; try done; try apply HI.
    + apply NoDup_cons. split; [done|apply HI].
    + intros b' [-> |Hin]%elem_of_cons; [done|by apply (inv_pooled s HI)].
    + intros j b' k Hj Hcall. split; [|done]. intros [-> |Hin]%elem_of_cons.
      * by apply Hj, (inv_alone s HI j i b k l).
      * by apply (inv_held s HI j b' k).
  - intros j Hj. simpl. by rewrite lookup_insert_ne.
  - eexists None, None, _. simpl. rewrite lookup_insert_eq, Hat. done.
Qed.

Lemma callStep_alone i e s s' h l p :
  Inv s → sy_calls s !! i = Some (h, l) → same s h p l → callStep i e s = Some s' → stepped i e s s' p l.
Proof.
  intros HI Hi Hsame Hs. pose proof Hs as Hs0. unfold callStep in Hs. rewrite Hi in Hs. simpl in Hs.
  destruct e as [c| |n c| |], h as [b|]; try done.
  - destruct p; [done|]. destruct (lc_at l) eqn:Hat; try done. by apply step_get.
  - by apply (step_run i s s' b).
  - apply bind_Some in Hs as (k & Hk & [= <-]). by eapply step_outside; eauto.
  - apply bind_Some in Hs as (k & Hk & [= <-]). by eapply step_outside; eauto.
  - destruct (lc_at l) eqn:Hat; try done. by apply (step_put i s s' b).
Qed.

Lemma sysRun_snoc es e s : sysRun (es ++ [e]) s = sysRun es s ≫= sysStep e.
Proof.
  revert s. induction es as [|e' es IH]; intros s; simpl; [by destruct (sysStep e s)|].
  destruct (sysStep e' s); [apply IH|done].
Qed.

Lemma prun_snoc es e p : prun (es ++ [e]) p = prun es p ≫= pstep e.
Proof.
  revert p. induction es as [|e' es IH]; intros p; simpl; [by destruct (pstep e p)|].
  destruct (pstep e' p); [apply IH|done].
Qed.

(** After the events [es]: every call is what it would be alone. *)
Definition alone (es : list SysEv) (s : Pooled) : Prop :=
  ∀ i, match sy_calls s !! i with
       | None => acceptedAs i es = None ∧ eventsOf i es = []
       | Some (h, l) => ∃ c p, acceptedAs i es = Some c ∧
           prun (eventsOf i es) (None, spawn c) = Some (p, l) ∧ same s h p l
       end.

(** Another call keeps what it has. *)
Lemma alone_frame i j es e s s' :
  eventsOf j [e] = [] → acceptedAs j [e] = None → j ≠ i → frame i s s' →
  match sy_calls s !! j with
  | None => acceptedAs j es = None ∧ eventsOf j es = []
  | Some (h, l) => ∃ c p, acceptedAs j es = Some c ∧ prun (eventsOf j es) (None, spawn c) = Some (p, l) ∧ same s h p l
  end →
  match sy_calls s' !! j with
  | None => acceptedAs j (es ++ [e]) = None ∧ eventsOf j (es ++ [e]) = []
  | Some (h, l) => ∃ c p, acceptedAs j (es ++ [e]) = Some c ∧
      prun (eventsOf j (es ++ [e])) (None, spawn c) = Some (p, l) ∧ same s' h p l
  end.
Proof.
  intros He Ha Hj Hf Hold. unfold eventsOf, acceptedAs in *. rewrite !omap_app, He, app_nil_r.
  assert (omap (fun e => match e with Accept j' c => if decide (j' = j) then Some c else None | _ => None end) [e] = [])
    as ->. { destruct e; simpl in *; [|done|done]. by case_decide. }
  rewrite app_nil_r. destruct (Hf j Hj) as [-> Hheap].
  destruct (sy_calls s !! j) as [[[b|] l]|]; [|done|done]. destruct Hold as (c & p & Hc & Hp & Hs).
  exists c, p. split_and!; [done|done|]. simpl in *. destruct p; [|done]. by rewrite (Hheap b l).
Qed.

Lemma sysStep_alone es e s s' :
  Inv s → alone es s → sysStep e s = Some s' → Inv s' ∧ alone (es ++ [e]) s'.
Proof.
  intros HI Hal Hs. destruct e as [i c|i e|b]; simpl in Hs.
  - destruct (sy_calls s !! i) eqn:Hi; [done|]. injection Hs as <-. split.
    + apply (Inv_update s); try apply HI; try done. intros j b k _ Hcall. split; [by apply (inv_held s HI j b k)|done].
    + intros j. destruct (decide (j = i)) as [-> |Hj].
      * simpl. rewrite lookup_insert_eq. exists c, None. specialize (Hal i). rewrite Hi in Hal.
        destruct Hal as [Hn He]. unfold acceptedAs, eventsOf in *. rewrite !omap_app, He. simpl.
        rewrite decide_True by done. destruct (omap _ es); [done|by simpl in Hn].
      * apply (alone_frame i j es _ s); [done|by unfold acceptedAs; simpl; rewrite decide_False|done| |apply Hal].
        intros j' Hj'. simpl. by rewrite lookup_insert_ne.
  - destruct (sy_calls s !! i) as [[h l]|] eqn:Hi; [|by unfold callStep in Hs; rewrite Hi in Hs].
    pose proof (Hal i) as Hai. rewrite Hi in Hai. destruct Hai as (c & p & Hc & Hp & Hsame).
    destruct (callStep_alone i e s s' h l p HI Hi Hsame Hs) as (HI' & Hf & h' & p' & l' & Hi' & Hp' & Hsame').
    split; [done|]. intros j. destruct (decide (j = i)) as [-> |Hj].
    + rewrite Hi'. exists c, p'. unfold acceptedAs, eventsOf in *. rewrite !omap_app. simpl.
      rewrite decide_True by done. rewrite app_nil_r, prun_snoc, Hp. done.
    + apply (alone_frame i j es _ s); [by unfold eventsOf; simpl; rewrite decide_False|done|done|done|apply Hal].
  - apply bind_Some in Hs as (pool & Ht%takeOut_perm & [= <-]). pose proof (inv_pool s HI) as Hnd.
    rewrite Ht in Hnd. apply NoDup_cons in Hnd as [Hb Hnd]. split.
    + split; simpl; try apply HI; [done|..].
      * intros b' Hb'. apply (inv_pooled s HI). rewrite Ht. set_solver.
      * intros i b' l Hcall. apply (inv_held s HI) in Hcall as [? Hn]. split; [done|]. rewrite Ht in Hn. set_solver.
    + intros j. specialize (Hal j). simpl. unfold eventsOf, acceptedAs in *. rewrite !omap_app. simpl. by rewrite !app_nil_r.
Qed.

Lemma sysRun_alone es s : sysRun es sysStart = Some s → Inv s ∧ alone es s.
Proof.
  revert s. induction es as [|e es IH] using rev_ind; intros s Hs.
  - injection Hs as <-. split; [split; simpl; try done; [constructor|set_solver]|]. intros i. done.
  - rewrite sysRun_snoc in Hs. apply bind_Some in Hs as (s1 & H1 & Hs). destruct (IH s1 H1) as [HI Hal].
    by apply (sysStep_alone es e s1).
Qed.

(** ** A line in the buffer is a line of [readLine] *)

Lemma last_take (buf : list ascii) n :
  (0 < n)%nat → (n ≤ length buf)%nat → last (take n buf) = buf !! (n - 1)%nat.
Proof.
  intros Hn Hl. rewrite last_lookup, length_take, Nat.min_l by done.
  replace (Nat.pred n) with (n - 1)%nat by lia. by rewrite lookup_take_lt by lia.
Qed.

Lemma readTurn_step w buf l c :
  length buf = ReadBufferSize → (lc_n l ≤ ReadBufferSize)%nat → source w l = Some c →
  ∃ buf' l', readTurn w buf l = Some (buf', l') ∧ length buf' = ReadBufferSize ∧ (lc_n l' ≤ ReadBufferSize)%nat ∧
    match readLineStep ReadBufferSize (take (lc_n l) buf) c with
    | inl (data, err, c') => take (lc_n l') buf' = data ∧ source w l' = Some c' ∧
        lc_at l' = match err with None => Filled w | Some _ => Returning end
    | inr (got, c') => take (lc_n l') buf' = got ∧ source w l' = Some c' ∧ lc_at l' = lc_at l
    end.
Proof.
  intros Hlen Hn Hc. unfold readTurn, readLineStep. rewrite Hc. simpl.
  rewrite length_take, Hlen, Nat.min_l by lia. destruct (Read _ c) as [[data err] c1] eqn:E.
  apply Read_spec in E as (_ & Hl & _). set (n := (lc_n l + length data)%nat).
  assert (take n (overwrite (lc_n l) data buf) = take (lc_n l) buf ++ data) as Ht by (apply overwrite_take; lia).
  assert (length (overwrite (lc_n l) data buf) = ReadBufferSize) as Hlen' by (rewrite overwrite_length; lia).
  rewrite Hlen'. eexists _, _. split; [reflexivity|]. split; [done|].
  assert (length (take (lc_n l) buf ++ data) = n) as Hlt.
  { rewrite length_app, length_take. subst n. lia. }
  assert (bool_decide (last (take (lc_n l) buf ++ data) = Some (chr 10)) =
    ((0 <? n)%nat && bool_decide (overwrite (lc_n l) data buf !! (n - 1)%nat = Some (chr 10)))) as Hlast.
  { destruct (Nat.ltb_spec 0 n).
    - simpl. rewrite <- Ht, last_take by lia. done.
    - destruct (_ ++ data); [done|simpl in Hlt; lia]. }
  rewrite Hlast, Hlt. destruct w, (_ && _), (n =? ReadBufferSize)%nat, err; simpl;
    (split; [subst n; lia|split; [exact Ht|done]]).
Qed.

Lemma buffer_loop w fuel buf l c data err c' :
  length buf = ReadBufferSize → (lc_n l ≤ ReadBufferSize)%nat → lc_at l = Reading w → source w l = Some c →
  readLineLoop fuel ReadBufferSize (take (lc_n l) buf) c = Some (data, err, c') →
  ∃ k buf' l', prun (replicate k Run) (Some buf, l) = Some (Some buf', l') ∧ take (lc_n l') buf' = data ∧
    source w l' = Some c' ∧ lc_at l' = match err with None => Filled w | Some _ => Returning end.
Proof.
  revert buf l c. induction fuel as [|fuel IH]; intros buf l c Hlen Hn Hat Hc Hloop; [done|]. simpl in Hloop.
  destruct (readTurn_step w buf l c Hlen Hn Hc) as (buf1 & l1 & Et & Hlen1 & Hn1 & Hstep).
  destruct (readLineStep _ _ c) as [[[d e] c1]|[got c1]].
  - injection Hloop as -> -> ->. exists 1%nat, buf1, l1. simpl. unfold code. by rewrite Hat, Et.
  - destruct Hstep as (<- & Hc1 & Hat1). rewrite Hat in Hat1.
    destruct (IH buf1 l1 c1 Hlen1 Hn1 Hat1 Hc1 Hloop) as (k & buf' & l' & Hk & Hrest).
    exists (S k), buf', l'. simpl. unfold code. by rewrite Hat, Et.
Qed.

(** A call that starts reading a line ends up, by itself, with exactly what [readLine] of [Net]
    returns: the bytes in the buffer, the connection after them, and whether there was an error. *)
Theorem buffer_readLine w buf l c :
  length buf = ReadBufferSize → lc_at l = Reading w → lc_n l = 0%nat → source w l = Some c →
  ∃ data err c' k buf' l', readLine ReadBufferSize c = Some (data, err, c') ∧
    prun (replicate k Run) (Some buf, l) = Some (Some buf', l') ∧ take (lc_n l') buf' = data ∧
    source w l' = Some c' ∧ lc_at l' = match err with None => Filled w | Some _ => Returning end.
Proof.
  intros Hlen Hat Hn Hc. destruct (readLine_spec ReadBufferSize c) as (data & err & c' & Hr & _).
  exists data, err, c'. destruct (buffer_loop w (readLineFuel c) buf l c data err c') as (k & buf' & l' & H); try done.
  - rewrite Hn. lia.
  - by rewrite Hn.
  - by exists k, buf', l'.
Qed.

(** C17: Connections do not see each other's bytes through the pool.  However the calls of
    [relay] interleave, and whichever buffers the pool hands out or drops: every call is exactly
    in the state it would be in alone, with a new buffer of its own, after the same events.  The
    version and the module it has taken from the buffer, the bytes it has sent to the client and
    to the upstream, the place in the code, and the bytes of the buffer it may still look at are
    the same; and no other call has that buffer. *)
Theorem pool_isolates es s i h l :
  sysRun es sysStart = Some s → sy_calls s !! i = Some (h, l) →
  ∃ c p, acceptedAs i es = Some c ∧ prun (eventsOf i es) (None, spawn c) = Some (p, l) ∧
    match h, p with
    | None, None => True
    | Some b, Some own => ∃ buf, sy_heap s !! b = Some buf ∧ take (lc_n l) buf = take (lc_n l) own ∧
        (b ∉ sy_pool s) ∧ ∀ j k, sy_calls s !! j = Some (Some b, k) → j = i
    | _, _ => False
    end.
Proof.
  intros Hs Hi. destruct (sysRun_alone es s Hs) as [HI Hal]. specialize (Hal i). rewrite Hi in Hal.
  destruct Hal as (c & p & Hc & Hp & Hsame). exists c, p. split_and!; [done|done|].
  destruct h as [b|], p as [own|]; try done. destruct Hsame as (buf & Hbuf & Hag).
  exists buf. split_and!; [done|apply Hag|by apply (inv_held s HI i b l)|].
  intros j k Hj. by apply (inv_alone s HI j i b k l).
Qed.
End calls.

(** ** Two clients, one buffer *)

Definition clientConn (chunks : list string) : Conn :=
  mkConn (map chars chunks) "EOF" [] [] (TCPAddr [10; 0; 0; 1] 873) (TCPAddr [10; 0; 0; 2] 5000).

(** The first asks for a module and leaves; the second gets its buffer and asks for a shorter one,
    in two chunks. *)
Definition twoClients : list SysEv :=
  [Accept 1 (clientConn ["@RSYNCD: 31.0" +:+ LF; "a-very-secret-module" +:+ LF]);
   Accept 2 (clientConn ["@RSYNCD: 30.0" +:+ LF; "de"; "b" +:+ LF]);
   Call 1 (Get None); Call 1 Run; Call 1 Run; Call 1 Run; Call 1 Run; Call 1 Leave; Call 1 PutBack;
   Call 2 (Get (Some 0%nat)); Call 2 Run; Call 2 Run; Call 2 Run; Call 2 Run; Call 2 Run].

Lemma pool_isolates_witness :
  ∃ s l own, sysRun "" [] twoClients sysStart = Some s ∧ sy_calls s !! 2%nat = Some (Some 0%nat, l) ∧
    prun "" [] (eventsOf 2 twoClients) (None, spawn (clientConn ["@RSYNCD: 30.0" +:+ LF; "de"; "b" +:+ LF])) = Some (Some own, l) ∧
    lc_module l = chars "deb" ∧ sy_heap s !! 0%nat ≠ Some own.
Proof.
  destruct (sysRun "" [] twoClients sysStart) as [s|] eqn:Es; [|by vm_compute in Es].
  destruct (sy_calls s !! 2%nat) as [[h l]|] eqn:Ei.
  2:{ exfalso. revert Ei. vm_compute in Es. injection Es as <-. by vm_compute. }
  destruct (pool_isolates "" [] twoClients s 2 h l Es Ei) as (c & p & Hc & Hp & Hm).
  assert (c = clientConn ["@RSYNCD: 30.0" +:+ LF; "de"; "b" +:+ LF]) as -> by (vm_compute in Hc; by injection Hc).
  vm_compute in Es. injection Es as Es. vm_compute in Hp.
  destruct p as [own|]; [|done]. injection Hp as Ho Hl. exists s, l, own. subst s l own.
  vm_compute in Ei. injection Ei as <-. split_and!; [by vm_compute..|]. intros E. vm_compute in E. discriminate E.
Defined.
