(* ===== verification/Dataplane.v ===== *)
(** * The data plane of the gateway: [internal/dataplane] and the listeners of [pkg/server]

    One server per bind address, each with its own copy of the routing table.  The
    servers are updated one after the other and bound one after the other; the theorems
    are about what holds for all of them together.  Sockets are handles of a table of
    open listeners, so that what is closed on an error can be stated. *)
From S2P Require Import Prelude GoStd Net Upstreams Admission Logging ServerConfig Accounting.
Open Scope Z_scope.

(** ** Listeners *)

(** The open listeners with the addresses they are bound to. *)
Record Sockets := mkSockets { sk_open : gmap nat string; sk_next : nat }.

Definition openSocket (addr : string) (k : Sockets) : nat * Sockets :=
  (sk_next k, mkSockets (<[sk_next k := addr]> (sk_open k)) (S (sk_next k))).
Definition closeSocket (h : nat) (k : Sockets) : Sockets :=
  mkSockets (delete h (sk_open k)) (sk_next k).
Definition closeIf (h : option nat) (k : Sockets) : Sockets :=
  match h with Some h => closeSocket h k | None => k end.

(** A server with its listeners. *)
Record Bound (Q : Type) := mkInstance {
  i_srv : Server Q; i_tcp : option nat; i_tls : option nat; i_http : option nat }.
Arguments mkInstance {Q}.
Arguments i_srv {Q}.
Arguments i_tcp {Q}.
Arguments i_tls {Q}.
Arguments i_http {Q}.

Section dataplane.
Context {Q : Type} `{AdmissionControl Q}.

(** The network: [net.Listen] on an address, with the sockets that are open, gives the
    address bound; [os.Chmod] may fail.  ([os.Remove] makes room for the file of a Unix socket:
    what it does shows in what [net.Listen] answers.) *)
Context (bind : gmap nat string → string → result string) (chmod : string → option error).

(** [listenTCPOrUnix]: the listener is returned along with the error of [os.Chmod]. *)
Definition listenTCPOrUnix (addr : string) (k : Sockets) : (option nat * option error) * Sockets :=
  match bind (sk_open k) addr with
  | Err e => ((None, Some e), k)
  | Ret bound =>
      let '(h, k) := openSocket bound k in
      ((Some h, if isUnixPath addr then chmod addr else None), k)
  end.

(** [bindAddr]: here the listener is closed when [os.Chmod] fails. *)
Definition bindAddr (addr : string) (k : Sockets) : result nat * Sockets :=
  match bind (sk_open k) addr with
  | Err e => (Err e, k)
  | Ret bound =>
      let '(h, k) := openSocket bound k in
      match (if isUnixPath addr then chmod addr else None) with
      | Some e => (Err e, closeSocket h k)
      | None => (Ret h, k)
      end
  end.

(** [l.Addr().String()] *)
Definition addrOf (h : nat) (k : Sockets) : string := default "" (sk_open k !! h).

(** The three addresses and the three listeners of a server. *)
Definition withAddrs (listen listenTLS listenHTTP : string) (tcp tls http : bool) (s : Server Q)
    : Server Q :=
  mkServer listen listenTLS listenHTTP (s_timings s) (s_Motd s) (s_accessLog s) (s_errorLog s)
    (s_files s) (s_dialer s) (s_modules s) (s_upstreams s) (s_tlsCertificate s)
    (s_upstreamQueues s) (s_queues s) (s_nextQueue s) tcp tls http.

(** A server whose listeners are all nil. *)
Definition unbound (s : Server Q) : Bound Q := mkInstance s None None None.

(** The TLS listener of [Listen]: none without an address. *)
Definition listenTLS (addr : string) (k : Sockets) : (option nat * option error) * Sockets :=
  if decide (addr = "") then ((None, None), k) else listenTCPOrUnix addr k.

(** [Server.Listen] *)
Definition Listen (s : Server Q) (k : Sockets) : (result (Bound Q)) * Sockets :=
  let '((l1, err), k) := listenTCPOrUnix (s_ListenAddr s) k in
  match l1, err with
  | Some h1, None =>
      let '((lTLS, err), k) := listenTLS (s_TLSListenAddr s) k in
      match err with
      | Some e => (Err ("create tls listener: " +:+ e), closeSocket h1 k)
      | None =>
          let '((l2, err), k) := listenTCPOrUnix (s_HTTPListenAddr s) k in
          match l2, err with
          | Some h2, None =>
              (Ret (mkInstance
                 (withAddrs (addrOf h1 k) (match lTLS with Some h => addrOf h k | None => s_TLSListenAddr s end)
                    (addrOf h2 k) true (match lTLS with Some _ => true | None => false end) true s)
                 (Some h1) lTLS (Some h2)), k)
          | _, err => (Err ("create http listener: " +:+ default "" err), closeIf lTLS (closeSocket h1 k))
          end
      end
  | _, err => (Err ("create tcp listener: " +:+ default "" err), k)
  end.

(** [Server.Close] *)
Definition closeInstance (i : Bound Q) (k : Sockets) : Sockets :=
  closeIf (i_http i) (closeIf (i_tls i) (closeIf (i_tcp i) k)).

(** ** [Dataplane] *)

(** [Options]; the timeouts only reach the deadlines. *)
Record Options := mkOptions { o_BindAddrs : list string; o_AdminAddr : string }.

(** [emptyTableConfig] *)
Definition emptyProxy : ProxySettings :=
  mkProxySettings "" "" "" "" "" "" "" "" 0 0 0 0 0 0 0 0.
Definition emptyTableConfig : Config := mkConfig emptyProxy ∅.

(** [Dataplane.Close] *)
Definition Close (servers : list (Bound Q)) (k : Sockets) : Sockets :=
  foldl (fun k i => closeInstance i k) k servers.

(** The environment of a load, see [ServerConfig]; what the resolver answers may differ
    from one server to the next. *)
Context (loadX509KeyPair : string → string → result string).
Context (resolveTCPAddr : nat → string → option error).
Context (dial : Dialer → string → result Conn).
Context (openLogFile : string → option error).

Abbreviation applyConfig i := (ApplyConfig loadX509KeyPair (resolveTCPAddr i) dial openLogFile).

(** A further server: its socket, and a listener for the admin endpoint that is
    closed at once. *)
Definition bindFurther (addr : string) (s : Server Q) (k : Sockets) : (result (Bound Q)) * Sockets :=
  match bindAddr addr k with
  | (Err e, k) => (Err ("dataplane: listen on " +:+ addr +:+ ": " +:+ e), k)
  | (Ret h, k) =>
      match bind (sk_open k) "127.0.0.1:0" with
      | Err e => (Err ("dataplane: create dummy http listener: " +:+ e), closeSocket h k)
      | Ret bound =>
          let '(dummy, k) := openSocket bound k in
          let k := closeSocket dummy k in
          (Ret (mkInstance (withAddrs (addrOf h k) (s_TLSListenAddr s) (s_HTTPListenAddr s) true
                              (s_TLSListener s) true s) (Some h) None (Some dummy)), k)
      end
  end.

(** One turn of the loop of [New]. *)
Definition newServer (admin : string) (i : nat) (addr : string) (k : Sockets)
    : outcome (result (Bound Q) * Sockets) :=
  '(r, s) ← applyConfig i emptyTableConfig false ServerConfig.New;
  match r with
  | Err e => mret (Err ("dataplane: apply initial config: " +:+ e), k)
  | Ret _ =>
      mret (if (i =? 0)%nat then
              match Listen (withAddrs addr (s_TLSListenAddr s) admin (s_TCPListener s)
                              (s_TLSListener s) (s_HTTPListener s) s) k with
              | (Err e, k) => (Err ("dataplane: listen on " +:+ addr +:+ ": " +:+ e), k)
              | (Ret inst, k) => (Ret inst, k)
              end
            else bindFurther addr s k)
  end.

(** The loop: on an error every listener of the servers so far is closed. *)
Fixpoint newServers (admin : string) (i : nat) (addrs : list string) (servers : list (Bound Q))
    (k : Sockets) : outcome (result (list (Bound Q)) * Sockets) :=
  match addrs with
  | [] => Done (Ret servers, k)
  | addr :: rest =>
      '(r, k) ← newServer admin i addr k;
      match r with
      | Err e => Done (Err e, Close servers k)
      | Ret inst => newServers admin (S i) rest (servers ++ [inst]) k
      end
  end.

(** [New] *)
Definition New (opts : Options) (k : Sockets) : outcome (result (list (Bound Q)) * Sockets) :=
  if decide (o_BindAddrs opts = []) then
    Done (Err "dataplane: at least one bind address is required", k)
  else if decide (o_AdminAddr opts = "") then
    Done (Err "dataplane: admin address is required", k)
  else newServers (o_AdminAddr opts) 0 (o_BindAddrs opts) [] k.

(** [Apply]: one server after the other, until one fails. *)
Fixpoint applyAll (i : nat) (c : Config) (servers : list (Server Q))
    : outcome (result unit * list (Server Q)) :=
  match servers with
  | [] => Done (Ret tt, [])
  | srv :: rest =>
      '(r, srv') ← applyConfig i c false srv;
      match r with
      | Err e => Done (Err ("dataplane: apply config: " +:+ e), srv' :: rest)
      | Ret _ => '(r', rest') ← applyAll (S i) c rest; Done (r', srv' :: rest')
      end
  end.
Definition Apply (c : Config) (servers : list (Server Q)) : outcome (result unit * list (Server Q)) :=
  applyAll 0 c servers.

(** [Addrs], [AdminAddr] *)
Definition Addrs (servers : list (Server Q)) : list string := map s_ListenAddr servers.
Definition AdminAddr (servers : list (Server Q)) : string :=
  match servers with [] => "" | s :: _ => s_HTTPListenAddr s end.
End dataplane.

(** [Drain] of the data plane: the servers one after the other, each closing its listeners
    and taking the turns its own [Drain] takes; the maximum of what they return. *)
Fixpoint drainAll {Q} (remaining : Z) (servers : list (Bound Q * list (Shared * DrainEvent))) (k : Sockets)
    : option Z * Sockets :=
  match servers with
  | [] => (Some remaining, k)
  | (i, turns) :: rest =>
      match Accounting.Drain (closeInstance i) k turns with
      | (None, k) => (None, k)
      | (Some n, k) => drainAll (if remaining <? n then n else remaining) rest k
      end
  end.
Definition DrainDataplane {Q} (servers : list (Bound Q * list (Shared * DrainEvent))) (k : Sockets)
    : option Z * Sockets := drainAll 0 servers k.

(** ** What is open *)

Section sockets.
Context {Q : Type} `{AdmissionControl Q}.
Context (bind : gmap nat string → string → result string) (chmod : string → option error).
Context (k0 : Sockets).

(** Since [k0], exactly the listeners in [hs] may have been opened and not closed. *)
Record opened (hs : gset nat) (k : Sockets) : Prop := {
  op_next : (sk_next k0 ≤ sk_next k)%nat;
  op_old h : (h < sk_next k0)%nat → sk_open k !! h = sk_open k0 !! h;
  op_new h : (sk_next k0 ≤ h)%nat → is_Some (sk_open k !! h) → h ∈ hs;
  op_hs h : h ∈ hs → (sk_next k0 ≤ h < sk_next k)%nat }.

Lemma opened_open hs addr k h k' :
  opened hs k → openSocket addr k = (h, k') → opened ({[h]} ∪ hs) k'.
Proof.
  intros [Hn Ho Hw Hh] [= <- <-]. split; simpl.
  - lia.
  - intros h Hlt. rewrite lookup_insert_ne by lia. by apply Ho.
  - intros h Hge. rewrite lookup_insert. case_decide; [set_solver|]. intros ?. set_solver.
  - intros h [->%elem_of_singleton|?%Hh]%elem_of_union; lia.
Qed.

Lemma opened_close hs h k :
  opened ({[h]} ∪ hs) k → opened hs (closeSocket h k).
Proof.
  intros [Hn Ho Hw Hh]. split; simpl.
  - lia.
  - intros h' Hlt. rewrite lookup_delete_ne; [by apply Ho|]. specialize (Hh h). set_solver by lia.
  - intros h' Hge. rewrite lookup_delete. case_decide; [by intros []|]. intros ?%Hw; [set_solver|lia].
  - intros h' ?. apply Hh. set_solver.
Qed.

Lemma opened_closeIf hs (h : option nat) k :
  opened (match h with Some h => {[h]} | None => ∅ end ∪ hs) k → opened hs (closeIf h k).
Proof.
  destruct h; [apply opened_close|]. simpl. intros Hk. by rewrite union_empty_l_L in Hk.
Qed.

(** Handles are given out once. *)
Definition freshSockets : Prop := ∀ h, is_Some (sk_open k0 !! h) → (h < sk_next k0)%nat.

Lemma opened_none k : freshSockets → opened ∅ k → sk_open k = sk_open k0.
Proof.
  intros Hf [Hn Ho Hw Hh]. apply map_eq. intros h.
  destruct (decide (h < sk_next k0)%nat) as [Hlt|Hge]; [by apply Ho|].
  transitivity (@None string).
  - destruct (sk_open k !! h) eqn:E; [|done]. exfalso.
    assert (h ∈ (∅ : gset nat)); [|set_solver]. apply Hw; [lia|by rewrite E].
  - destruct (sk_open k0 !! h) eqn:E; [|done]. exfalso. apply Hge, Hf. by rewrite E.
Qed.

(** The listeners of a server, of all servers. *)
Definition optSet (h : option nat) : gset nat := match h with Some h => {[h]} | None => ∅ end.
Definition socketsOf (i : Bound Q) : gset nat := optSet (i_http i) ∪ (optSet (i_tls i) ∪ optSet (i_tcp i)).
Definition allSockets (servers : list (Bound Q)) : gset nat := ⋃ (map socketsOf servers).

Lemma opened_closeInstance hs i k : opened (socketsOf i ∪ hs) k → opened hs (closeInstance i k).
Proof.
  intros Hk. unfold closeInstance. apply opened_closeIf, opened_closeIf, opened_closeIf.
  replace (_ ∪ _) with (socketsOf i ∪ hs); [done|]. unfold socketsOf, optSet. set_solver.
Qed.

Lemma opened_Close servers k : opened (allSockets servers) k → opened ∅ (Close servers k).
Proof.
  unfold Close. revert k. induction servers as [|i servers IH]; intros k Hk; [done|].
  apply IH, opened_closeInstance, Hk.
Qed.

(** [os.Chmod] does not fail. *)
Context (chmod_ok : ∀ a, chmod a = None).

Lemma listenTCPOrUnix_opened hs addr k l err k' :
  opened hs k → listenTCPOrUnix bind chmod addr k = ((l, err), k') →
  opened (optSet l ∪ hs) k' ∧
  match l, err with Some _, None | None, Some _ => True | _, _ => False end.
Proof.
  intros Hk. unfold listenTCPOrUnix. destruct (bind _ addr) as [bound|e].
  - destruct (openSocket bound k) as [h k1] eqn:E. rewrite chmod_ok.
    intros [= <- <- <-]. split; [|by destruct (isUnixPath addr)]. by eapply opened_open.
  - intros [= <- <- <-]. split; [|done]. simpl. by rewrite union_empty_l_L.
Qed.

Lemma bindAddr_opened hs addr k r k' :
  opened hs k → bindAddr bind chmod addr k = (r, k') →
  opened (match r with Ret h => {[h]} ∪ hs | Err _ => hs end) k'.
Proof.
  intros Hk. unfold bindAddr. destruct (bind _ addr) as [bound|e]; [|by intros [= <- <-]].
  destruct (openSocket bound k) as [h k1] eqn:E. rewrite chmod_ok.
  destruct (isUnixPath addr); intros [= <- <-]; by eapply opened_open.
Qed.

Lemma listenTLS_opened hs addr k l err k' :
  opened hs k → listenTLS bind chmod addr k = ((l, err), k') →
  opened (optSet l ∪ hs) k' ∧ (err ≠ None → l = None).
Proof.
  intros Hk. unfold listenTLS. case_decide.
  - intros [= <- <- <-]. simpl. by rewrite union_empty_l_L.
  - intros E. destruct (listenTCPOrUnix_opened _ _ _ _ _ _ Hk E) as [? Hl]. split; [done|]. by destruct l, err.
Qed.

Lemma Listen_opened hs s k r k' :
  opened hs k → Listen (Q := Q) bind chmod s k = (r, k') →
  opened (match r with Ret i => socketsOf i ∪ hs | Err _ => hs end) k'.
Proof.
  intros Hk. unfold Listen.
  destruct (listenTCPOrUnix bind chmod (s_ListenAddr s) k) as [[l1 e1] k1] eqn:E1.
  destruct (listenTCPOrUnix_opened _ _ _ _ _ _ Hk E1) as [Hk1 Hl1].
  destruct l1 as [h1|], e1 as [e1|]; try done.
  2: { intros [= <- <-]. simpl in Hk1. by rewrite union_empty_l_L in Hk1. }
  destruct (listenTLS bind chmod (s_TLSListenAddr s) k1) as [[lt et] k2] eqn:E2.
  destruct (listenTLS_opened _ _ _ _ _ _ Hk1 E2) as [Hk2 Hlt].
  destruct et as [et|].
  { rewrite (Hlt ltac:(done)) in Hk2. simpl in Hk2. rewrite union_empty_l_L in Hk2.
    intros [= <- <-]. by apply opened_close. }
  destruct (listenTCPOrUnix bind chmod (s_HTTPListenAddr s) k2) as [[l2 e2] k3] eqn:E3.
  destruct (listenTCPOrUnix_opened _ _ _ _ _ _ Hk2 E3) as [Hk3 Hl2].
  destruct l2 as [h2|], e2 as [e2|]; try done.
  - intros [= <- <-]. replace (socketsOf _ ∪ hs) with (optSet (Some h2) ∪ (optSet lt ∪ (optSet (Some h1) ∪ hs)));
      [done|]. unfold socketsOf. simpl. set_solver.
  - intros [= <- <-]. simpl in Hk3. rewrite union_empty_l_L in Hk3.
    apply opened_closeIf, opened_close.
    replace (_ ∪ _) with (optSet lt ∪ ({[h1]} ∪ hs)); [done|]. unfold optSet. set_solver.
Qed.

Lemma bindFurther_opened hs addr s k r k' :
  opened hs k → bindFurther (Q := Q) bind chmod addr s k = (r, k') →
  match r with
  | Ret i => ∃ dummy, i_http i = Some dummy ∧ opened (optSet (i_tcp i) ∪ hs) k' ∧
      i_tls i = None ∧ (sk_next k0 ≤ dummy < sk_next k')%nat
  | Err _ => opened hs k'
  end.
Proof.
  intros Hk. unfold bindFurther. destruct (bindAddr bind chmod addr k) as [[h|e] k1] eqn:E1.
  2: { intros [= <- <-]. by apply (bindAddr_opened _ _ _ _ _ Hk E1). }
  pose proof (bindAddr_opened _ _ _ _ _ Hk E1) as Hk1. simpl in Hk1.
  destruct (bind _ "127.0.0.1:0") as [bound|e].
  - destruct (openSocket bound k1) as [dummy k2] eqn:E2. intros [= <- <-].
    pose proof (opened_open _ _ _ _ _ Hk1 E2) as Hk2. exists dummy. split; [done|].
    pose proof (op_hs _ _ Hk2 dummy) as Hd.
    split; [by apply opened_close|]. split; [done|]. simpl. set_solver.
  - intros [= <- <-]. by apply opened_close.
Qed.

Context (loadX509KeyPair : string → string → result string).
Context (resolveTCPAddr : nat → string → option error).
Context (dial : Dialer → string → result Conn).
Context (openLogFile : string → option error).

(** A server with the empty table refuses every module. *)
Definition emptyServer (s : Server Q) : Prop := wfServer s ∧ s_modules s = ∅ ∧ s_TLSListener s = false.

Lemma initial_load i :
  ∃ s, ApplyConfig loadX509KeyPair (resolveTCPAddr i) dial openLogFile emptyTableConfig false ServerConfig.New
         = Done (Ret tt, s) ∧
    emptyServer s ∧ s_TLSListenAddr s = "" .
Proof.
  destruct (load_cases loadX509KeyPair (resolveTCPAddr i) dial openLogFile emptyTableConfig false ServerConfig.New)
    as (r & s & E & Hr); [apply New_wf|].
  assert (E' : ∃ s0, loadConfig loadX509KeyPair (resolveTCPAddr i) dial openLogFile emptyTableConfig false
                 ServerConfig.New = Done (Ret tt, s0) ∧ s_modules s0 = ∅ ∧ s_TLSListener s0 = false ∧
                 s_TLSListenAddr s0 = "") by (by eexists).
  destruct E' as (s0 & E0 & Hm & Ht & Ha). unfold ApplyConfig. exists s0.
  rewrite E in E0. injection E0 as -> ->.
  destruct Hr as (? & ? & ? & _ & _ & Hwf & _). done.
Qed.

Lemma withAddrs_empty a b c t1 t2 t3 s :
  emptyServer s → t2 = false → emptyServer (withAddrs a b c t1 t2 t3 s).
Proof. intros (Hwf & Hm & _) ->. split; [|done]. by apply (sameTables_wf s). Qed.

Lemma opened_weaken hs h k :
  (sk_next k0 ≤ h < sk_next k)%nat → opened hs k → opened ({[h]} ∪ hs) k.
Proof. intros Hh [? ? ? ?]. split; try done; set_solver. Qed.

(** A server of [New]: it refuses every module, and its socket is bound to the address it
    reports. *)
Definition ready (k : Sockets) (i : Bound Q) : Prop :=
  emptyServer (i_srv i) ∧
  ∃ h, i_tcp i = Some h ∧ (h < sk_next k)%nat ∧ sk_open k !! h = Some (s_ListenAddr (i_srv i)).

Lemma listenTCPOrUnix_ok addr k :
  listenTCPOrUnix bind chmod addr k =
    match bind (sk_open k) addr with
    | Err e => ((None, Some e), k)
    | Ret b => let '(h, k) := openSocket b k in ((Some h, None), k)
    end.
Proof.
  unfold listenTCPOrUnix. destruct (bind _ addr); [|done]. rewrite chmod_ok. simpl.
  by destruct (isUnixPath addr).
Qed.

Lemma Listen_ready s k i k' :
  emptyServer s → s_TLSListenAddr s = "" → Listen bind chmod s k = (Ret i, k') → ready k' i.
Proof.
  intros Hs Htls. unfold Listen. rewrite Htls, listenTCPOrUnix_ok.
  destruct (bind _ (s_ListenAddr s)) as [b1|e1]; [|done]. simpl. rewrite listenTCPOrUnix_ok.
  destruct (bind _ (s_HTTPListenAddr s)) as [b2|e2]; [|done]. simpl.
  intros [= <- <-]. split; simpl; [by apply withAddrs_empty|]. exists (sk_next k). split; [done|].
  split; [lia|]. unfold addrOf. simpl.
  rewrite lookup_insert_ne, lookup_insert_eq by lia. done.
Qed.

Lemma bindFurther_ready addr s k i k' :
  emptyServer s → bindFurther bind chmod addr s k = (Ret i, k') → ready k' i.
Proof.
  intros Hs. unfold bindFurther, bindAddr. destruct (bind _ addr) as [b1|e1]; [|done]. simpl.
  rewrite chmod_ok.
  replace (if isUnixPath addr then None else None) with (@None string) by (by destruct (isUnixPath addr)).
  destruct (bind _ "127.0.0.1:0") as [b2|e2]; [|done].
  intros [= <- <-]. split; simpl; [apply withAddrs_empty; [done|apply Hs]|]. exists (sk_next k). split; [done|].
  split; [lia|]. unfold addrOf. simpl.
  rewrite lookup_delete_ne, lookup_insert_ne, lookup_insert_eq by lia. done.
Qed.

Lemma newServer_run admin i addr hs k :
  opened hs k →
  ∃ r k', newServer bind chmod loadX509KeyPair resolveTCPAddr dial openLogFile admin i addr k = Done (r, k') ∧
    match r with
    | Ret inst => opened (socketsOf inst ∪ hs) k' ∧ ready k' inst
    | Err _ => opened hs k'
    end.
Proof.
  intros Hk. unfold newServer. destruct (initial_load i) as (s & E & Hs & Htls).
  unfold mbind, outcome_bind. rewrite E. eexists _, _. split; [apply (f_equal Done), surjective_pairing|].
  destruct (i =? 0)%nat.
  - set (s1 := withAddrs _ _ _ _ _ _ s).
    assert (Hs1 : emptyServer s1) by (apply withAddrs_empty; [done|apply Hs]).
    destruct (Listen bind chmod s1 k) as [[inst|e] k1] eqn:EL; simpl.
    + split; [exact (Listen_opened _ _ _ _ _ Hk EL)|by apply Listen_ready in EL].
    + exact (Listen_opened _ _ _ _ _ Hk EL).
  - destruct (bindFurther bind chmod addr s k) as [[inst|e] k1] eqn:EL; simpl;
      pose proof (bindFurther_opened _ _ _ _ _ _ Hk EL) as Ho; simpl in Ho; [|done].
    destruct Ho as (dummy & Hd & Ho & Ht & Hr). split; [|by apply bindFurther_ready in EL].
    unfold socketsOf. rewrite Hd, Ht. simpl.
    replace (_ ∪ _) with ({[dummy]} ∪ (optSet (i_tcp inst) ∪ hs)) by set_solver.
    by apply opened_weaken.
Qed.
End sockets.

Section bound.
Context {Q : Type} `{AdmissionControl Q}.
Context (bind : gmap nat string → string → result string) (chmod : string → option error).
Context (chmod_ok : ∀ a, chmod a = None).
Context (loadX509KeyPair : string → string → result string).
Context (resolveTCPAddr : nat → string → option error).
Context (dial : Dialer → string → result Conn).
Context (openLogFile : string → option error).

Abbreviation newServers' := (newServers (Q := Q) bind chmod loadX509KeyPair resolveTCPAddr dial openLogFile).

Lemma opened_refl k : freshSockets k → opened k ∅ k.
Proof.
  intros Hf. split; [done|done| |set_solver]. intros h Hge Hs. apply Hf in Hs. lia.
Qed.

Lemma opened_fresh k0 hs k : freshSockets k0 → opened k0 hs k → freshSockets k.
Proof.
  intros Hf [Hn Ho Hw Hh] h Hs. destruct (decide (h < sk_next k0)%nat) as [|Hge]; [lia|].
  apply Hw, Hh in Hs; lia.
Qed.

(** A step that only opens and closes listeners of its own leaves the servers ready. *)
Lemma ready_frame hs k k' i : opened k hs k' → ready k i → ready (Q := Q) k' i.
Proof.
  intros Hk (He & h & Ht & Hlt & Ho). split; [done|]. exists h. split; [done|].
  pose proof (op_next _ _ _ Hk). split; [lia|]. by rewrite (op_old _ _ _ Hk).
Qed.

Lemma newServers_run k0 admin i addrs servers k :
  freshSockets k0 → opened k0 (allSockets servers) k → Forall (ready k) servers →
  ∃ r k', newServers' admin i addrs servers k = Done (r, k') ∧
    match r with
    | Ret servers' => length servers' = (length servers + length addrs)%nat ∧
        Forall (ready k') servers' ∧ opened k0 (allSockets servers') k'
    | Err _ => opened k0 ∅ k'
    end.
Proof.
  intros Hfresh. revert i servers k. induction addrs as [|addr addrs IH]; intros i servers k Hk Hr.
  { exists (Ret servers), k. split; [done|]. split_and!; [simpl; lia|done..]. }
  destruct (newServer_run bind chmod k0 chmod_ok loadX509KeyPair resolveTCPAddr dial openLogFile
              admin i addr _ k Hk) as (r & k1 & E & Hr1).
  destruct (newServer_run bind chmod k chmod_ok loadX509KeyPair resolveTCPAddr dial openLogFile
              admin i addr ∅ k (opened_refl k (opened_fresh _ _ _ Hfresh Hk))) as (r' & k1' & E' & Hf).
  rewrite E in E'. injection E' as <- <-.
  simpl. unfold mbind, outcome_bind. rewrite E. destruct r as [inst|e].
  - destruct Hr1 as [Ho Hrd]. destruct Hf as [Hf _].
    destruct (IH (S i) (servers ++ [inst]) k1) as (r & k' & -> & Hres).
    + unfold allSockets in *. rewrite map_app, union_list_app_L. simpl.
      rewrite union_empty_r_L, union_comm_L. done.
    + apply Forall_app. split; [|by constructor].
      eapply Forall_impl; [exact Hr|]. intros j. by apply ready_frame with (socketsOf inst ∪ ∅).
    + exists r, k'. split; [done|]. destruct r; [|done]. rewrite length_app in Hres. simpl in *.
      destruct Hres as (? & ? & ?). split_and!; [lia|done..].
  - eexists _, _. split; [reflexivity|]. by apply opened_Close.
Qed.

(** [New] opens the sockets of the servers it returns, or none. *)
Lemma New_opened opts k :
  freshSockets k →
  ∃ r k', New (Q := Q) bind chmod loadX509KeyPair resolveTCPAddr dial openLogFile opts k = Done (r, k') ∧
    match r with
    | Ret servers => length servers = length (o_BindAddrs opts) ∧ servers ≠ [] ∧ Forall (ready k') servers ∧
        opened k (allSockets servers) k'
    | Err _ => opened k ∅ k'
    end.
Proof.
  intros Hf. pose proof (opened_refl k Hf) as H0.
  unfold New. case_decide as Hne; [by eexists _, _|]. case_decide; [by eexists _, _|].
  destruct (newServers_run k (o_AdminAddr opts) 0 (o_BindAddrs opts) [] k)
    as (r & k' & -> & Hr); [done|done|constructor|].
  exists r, k'. split; [done|]. destruct r as [servers|e]; [|done].
  destruct Hr as (Hl & Hr & Ho). split_and!; try done. intros ->. by destruct (o_BindAddrs opts).
Qed.

(** Starting the data plane always comes to an end.  When it succeeds there is one server
    per bind address, whose socket is bound to the address it reports and which refuses
    every module; when it fails, exactly the listeners that were open before are open,
    provided [os.Chmod] on the sockets does not fail. *)
Theorem New_dataplane opts k :
  freshSockets k →
  ∃ r k', New (Q := Q) bind chmod loadX509KeyPair resolveTCPAddr dial openLogFile opts k = Done (r, k') ∧
    match r with
    | Ret servers => length servers = length (o_BindAddrs opts) ∧ servers ≠ [] ∧ Forall (ready k') servers
    | Err _ => sk_open k' = sk_open k
    end.
Proof.
  intros Hf. destruct (New_opened opts k Hf) as (r & k' & E & Hr). exists r, k'. split; [done|].
  destruct r as [servers|e]; [naive_solver|by apply opened_none].
Qed.
End bound.

(** ** One table for all servers *)

Section apply.
Context {Q : Type} `{AdmissionControl Q}.
Context (loadX509KeyPair : string → string → result string).
Context (resolveTCPAddr : nat → string → option error).
Context (dial : Dialer → string → result Conn).
Context (openLogFile : string → option error).

(** What the checks of a load see of a server. *)
Definition startedAs (s : Server Q) : bool * bool :=
  (s_TCPListener s || s_HTTPListener s || s_TLSListener s, s_TLSListener s).

Lemma checkConfig_startedAs resolve s s1 c :
  startedAs s = startedAs s1 →
  checkConfig loadX509KeyPair resolve s c = checkConfig loadX509KeyPair resolve s1 c.
Proof.
  intros [= H1 H2]. unfold checkConfig, checkTLS. by rewrite H1, H2.
Qed.

(** Without discovery and log files, the checks alone decide whether a load succeeds. *)
Definition accepted (c : Config) (r : result (option string * list upstreamConfig)) : bool :=
  match r with Ret _ => 0 <=? p_RelayIdleTimeoutSecs (cf_Proxy c) | Err _ => false end.

Lemma load_accepted i c s :
  wfServer s →
  ∃ r s', ApplyConfig loadX509KeyPair (resolveTCPAddr i) dial openLogFile c false s = Done (r, s') ∧
    wfServer s' ∧
    match r with
    | Ret _ => accepted c (checkConfig loadX509KeyPair (resolveTCPAddr i) s c) = true ∧
        ∃ cert ups, checkConfig loadX509KeyPair (resolveTCPAddr i) s c = Ret (cert, ups) ∧
          s_upstreams s' = resolveUpstreams ups ∅
    | Err _ => accepted c (checkConfig loadX509KeyPair (resolveTCPAddr i) s c) = false ∧ sameTables s s'
    end.
Proof.
  intros Hwf. unfold ApplyConfig.
  destruct (load_cases loadX509KeyPair (resolveTCPAddr i) dial openLogFile c false s)
    as (r & s' & E & Hr); [apply Hwf|].
  exists r, s'. split; [done|]. destruct r as [[]|e].
  - destruct Hr as (cert & ups & disc & Hc & -> & Hwf' & Hu & _ & _ & Hi & _). split; [done|].
    rewrite Hc. split; [simpl; lia|]. by exists cert, ups.
  - split; [by apply (sameTables_wf s)|]. split; [|done].
    destruct (checkConfig loadX509KeyPair (resolveTCPAddr i) s c) as [[cert ups]|e'] eqn:Hc; [|done].
    simpl. destruct (Z.leb_spec 0 (p_RelayIdleTimeoutSecs (cf_Proxy c))) as [Hi|]; [|done]. exfalso.
    unfold loadConfig in E. rewrite Hc in E. simpl in E.
    destruct (Z.ltb_spec (p_RelayIdleTimeoutSecs (cf_Proxy c)) 0); [lia|].
    unfold mbind, outcome_bind in E. by destruct (commit _ _ _ _).
Qed.

Abbreviation apply' := (applyAll loadX509KeyPair resolveTCPAddr dial openLogFile).

(** The checks of every server say the same. *)
Definition sameChecks (c : Config) (i : nat) (servers : list (Server Q))
    (r : result (option string * list upstreamConfig)) : Prop :=
  ∀ j s, servers !! j = Some s → checkConfig loadX509KeyPair (resolveTCPAddr (i + j)) s c = r.

Lemma sameChecks_tail c i s servers r : sameChecks c i (s :: servers) r → sameChecks c (S i) servers r.
Proof. intros Hc j s' Hs. rewrite Nat.add_succ_comm. by apply (Hc (S j)). Qed.

Lemma applyAll_accepted c i servers cert ups :
  Forall wfServer servers → sameChecks c i servers (Ret (cert, ups)) →
  0 ≤ p_RelayIdleTimeoutSecs (cf_Proxy c) →
  ∃ servers', apply' i c servers = Done (Ret tt, servers') ∧ length servers' = length servers ∧
    Forall (fun s' => wfServer s' ∧ s_upstreams s' = resolveUpstreams ups ∅) servers'.
Proof.
  intros Hwf. revert i. induction Hwf as [|s servers Hs _ IH]; intros i Hc Hi; simpl; [by exists []|].
  pose proof (Hc 0%nat s eq_refl) as Hc0. rewrite Nat.add_0_r in Hc0.
  destruct (load_accepted i c s Hs) as (r & s' & E & Hwf' & Hr).
  rewrite Hc0 in Hr. unfold mbind, outcome_bind. rewrite E.
  destruct r as [[]|e]; [|destruct Hr as [Hr _]; simpl in Hr; lia].
  destruct Hr as [_ (cert' & ups' & [= <- <-] & Hu)].
  destruct (IH (S i)) as (servers' & -> & Hl & Hall); [by eapply sameChecks_tail|done|].
  exists (s' :: servers'). split; [done|]. split; [simpl; lia|by constructor].
Qed.

Lemma Forall2_sameTables (servers : list (Server Q)) : Forall2 sameTables servers servers.
Proof. induction servers; constructor; [apply sameTables_refl|done]. Qed.

(** C20: An update of the routing table is all or nothing across the servers of the data plane.
    When the resolver answers the same throughout the update and the servers are bound
    alike, either every server ends up with one and the same table, or the update fails
    and none of the tables, queues, limits or timings changed.  It never blocks. *)
Theorem Apply_all_or_nothing c servers :
  Forall wfServer servers →
  (∀ s s1, s ∈ servers → s1 ∈ servers → startedAs s = startedAs s1) →
  (∀ i, resolveTCPAddr i = resolveTCPAddr 0) →
  ∃ r servers', Apply loadX509KeyPair resolveTCPAddr dial openLogFile c servers = Done (r, servers') ∧
    length servers' = length servers ∧ Forall wfServer servers' ∧
    match r with
    | Ret _ => ∀ s s1, s ∈ servers' → s1 ∈ servers' →
        s_modules s = s_modules s1 ∧ s_upstreams s = s_upstreams s1
    | Err _ => Forall2 sameTables servers servers'
    end.
Proof.
  intros Hwf Halike Hres. unfold Apply. destruct servers as [|s servers].
  { exists (Ret tt), []. split_and!; try done. intros s s1 Hs. elem_nil. }
  set (chk := checkConfig loadX509KeyPair (resolveTCPAddr 0) s c).
  assert (Hsame : sameChecks c 0 (s :: servers) chk).
  { intros j s1 Hs1. rewrite Hres. apply checkConfig_startedAs, Halike; [|by left].
    by eapply list_elem_of_lookup_2. }
  destruct (accepted c chk) eqn:Hacc.
  - destruct chk as [[cert ups]|e]; [|done]. simpl in Hacc.
    destruct (applyAll_accepted c 0 (s :: servers) cert ups Hwf Hsame) as (servers' & -> & Hl & Hall); [lia|].
    rewrite Forall_forall in Hall. exists (Ret tt), servers'. split_and!; try done.
    + apply Forall_forall. naive_solver.
    + intros s1 s2 H1 H2. destruct (Hall _ H1) as [W1 U1], (Hall _ H2) as [W2 U2].
      rewrite (wsv_modules _ W1), (wsv_modules _ W2), U1, U2. done.
  - apply Forall_cons in Hwf as [Hs Hwf].
    destruct (load_accepted 0 c s Hs) as (r & s' & E & Hwf' & Hr).
    fold chk in Hr. rewrite Hacc in Hr. destruct r as [[]|e]; [by destruct Hr|].
    eexists _, (s' :: servers). simpl. unfold mbind, outcome_bind. rewrite E. split; [reflexivity|].
    split; [done|]. split; [by constructor|]. constructor; [by destruct Hr|apply Forall2_sameTables].
Qed.
End apply.

(** ** Draining all servers *)

Lemma drainAll_spec {Q} remaining (servers : list (Bound Q * list (Shared * DrainEvent))) k n k' :
  drainAll remaining servers k = (Some n, k') →
  k' = Close (map fst servers) k ∧ remaining ≤ n ∧
  Forall (fun t => ∃ m, drainLoop t.2 = Some m ∧ m ≤ n) servers.
Proof.
  revert remaining k. induction servers as [|[i t] servers IH]; intros remaining k; simpl.
  { intros [= -> ->]. by split. }
  destruct (drainLoop t) as [m|] eqn:Hm; [|done]. intros (-> & Hle & Hall)%IH. split; [done|].
  destruct (Z.ltb_spec remaining m); (split; [lia|]; constructor; [exists m; split; [done|lia]|done]).
Qed.

(** When the data plane reports that nothing is left, all its listeners are closed, and each of
    its servers was seen without an active connection, and at that moment held no place in a
    queue and no count of an address (the counts being those of runs of [Accounting]). *)
Theorem DrainDataplane_zero {Q} allowed (servers : list (Bound Q * list (Shared * DrainEvent))) k k' :
  (∀ t, t ∈ servers → ∀ s, s ∈ observed t.2 → ∃ m, reachable allowed (mkSystem s m)) →
  DrainDataplane servers k = (Some 0, k') →
  k' = Close (map fst servers) k ∧
  ∀ t, t ∈ servers → ∃ s, s ∈ observed t.2 ∧ activeConnCount s = 0 ∧ handles s = ∅ ∧ connInfo s = ∅.
Proof.
  intros Hr (-> & _ & Hall)%drainAll_spec. split; [done|]. intros t Ht. rewrite Forall_forall in Hall.
  destruct (Hall t Ht) as (m & Hm & Hle). apply drainLoop_observed in Hm as (s & Hs & Ha).
  destruct (Hr t Ht s Hs) as [mp Hreach]. pose proof (reachable_Inv _ _ Hreach) as HI.
  pose proof (active_nonneg _ _ HI) as Hpos. simpl in Hpos.
  assert (H0 : activeConnCount s = 0) by lia. exists s. split; [done|]. split; [done|].
  destruct (drained_shared _ _ HI H0) as (? & ? & _). done.
Qed.

(** ** Instances *)

Section instances.
Abbreviation QueueWorld := Queue.AdmissionQueue.World.

(** An address can be bound once at a time. *)
Definition anyBind (used : gmap nat string) (addr : string) : result string :=
  if decide (map_Forall (fun _ a => a ≠ addr) used) then Ret addr else Err "address already in use".
Definition oneBind (_ : gmap nat string) (addr : string) : result string :=
  if decide (addr = ":874") then Err "address already in use" else Ret addr.
Definition noError (_ : string) : option error := None.
Definition noSockets : Sockets := mkSockets ∅ 0.

Lemma noSockets_fresh : freshSockets noSockets.
Proof. intros h [x Hx]. cbn [noSockets sk_open] in Hx. by rewrite lookup_empty in Hx. Qed.

(** The second address is taken: the sockets of the first server are closed again. *)
Lemma New_dataplane_witness :
  ∃ e k', New (Q := QueueWorld) oneBind noError noTLS (fun _ => resolves) noDial noFiles
            (mkOptions [":873"; ":874"] ":9080") noSockets = Done (Err e, k') ∧ sk_open k' = ∅.
Proof.
  destruct (New_dataplane (Q := QueueWorld) oneBind noError (fun _ => eq_refl) noTLS (fun _ => resolves) noDial noFiles
    (mkOptions [":873"; ":874"] ":9080") noSockets noSockets_fresh) as (r & k' & E & Hr).
  destruct r as [servers|e]; [discriminate E|]. exists e, k'. exact (conj E Hr).
Defined.

Example New_dataplane_ok :
  ∃ servers k', New (Q := QueueWorld) anyBind noError noTLS (fun _ => resolves) noDial noFiles
            (mkOptions [":873"; "/run/rsync.sock"] ":9080") noSockets = Done (Ret servers, k') ∧
    Addrs (map i_srv servers) = [":873"; "/run/rsync.sock"] ∧ AdminAddr (map i_srv servers) = ":9080".
Proof. by eexists _, _. Qed.

(** [os.Chmod] fails on the socket of the first server: the listener is not closed. *)
Example Listen_leaks :
  let r := New (Q := QueueWorld) anyBind (fun _ => Some "operation not permitted") noTLS (fun _ => resolves)
             noDial noFiles (mkOptions ["/run/rsync.sock"] ":9080") noSockets in
  ∃ e k', r = Done (Err e, k') ∧ sk_open k' = {[0%nat := "/run/rsync.sock"]}.
Proof. by eexists _, _. Qed.

Lemma Apply_all_or_nothing_witness :
  ∃ r servers', Apply noTLS (fun _ => resolves) noDial noFiles demoConfig [demoServer; demoServer]
      = Done (r, servers') ∧ length servers' = 2%nat.
Proof.
  destruct (Apply_all_or_nothing noTLS (fun _ => resolves) noDial noFiles demoConfig [demoServer; demoServer])
    as (r & servers' & E & Hl & _).
  - apply Forall_cons_2; [exact demoServer_wf|]. apply Forall_cons_2; [exact demoServer_wf|]. apply Forall_nil_2.
  - intros s s1 Hs Hs1. rewrite !elem_of_cons in Hs, Hs1.
    destruct Hs as [->|[->|Hs]]; [| |elem_nil]; (destruct Hs1 as [->|[->|Hs1]]; [| |elem_nil]); reflexivity.
  - intros i. reflexivity.
  - exists r, servers'. exact (conj E Hl).
Defined.

(** A name that no longer resolves when the second server is updated: the update fails
    and the two servers are left with different tables. *)
Definition resolvesOnce (i : nat) (_ : string) : option error :=
  if (i =? 0)%nat then None else Some "no such host".

Definition tables (r : outcome (result unit * list (Server QueueWorld))) : option (list (list string)) :=
  match r with
  | Done (Err _, servers) => Some (map (fun s => map fst (map_to_list (s_modules s))) servers)
  | _ => None
  end.

Example Apply_may_split :
  tables (Apply noTLS resolvesOnce noDial noFiles demoConfig [ServerConfig.New; ServerConfig.New]) =
    Some [["ubuntu"; "debian"]; []] ∨
  tables (Apply noTLS resolvesOnce noDial noFiles demoConfig [ServerConfig.New; ServerConfig.New]) =
    Some [["debian"; "ubuntu"]; []].
Proof. vm_compute. by (left + right). Qed.

(** Two servers with a listener each. *)
Definition drained : list (Bound QueueWorld * list (Shared * DrainEvent)) :=
  [(mkInstance ServerConfig.New (Some 0%nat) None None, drainTurns);
   (mkInstance ServerConfig.New (Some 1%nat) None None, drainTurns)].
Definition twoSockets : Sockets := mkSockets {[0%nat := ":873"; 1%nat := ":874"]} 2.

Lemma DrainDataplane_zero_witness :
  ∃ k', DrainDataplane drained twoSockets = (Some 0, k') ∧ sk_open k' = ∅ ∧
  ∃ s, s ∈ observed drainTurns ∧ activeConnCount s = 0 ∧ handles s = ∅.
Proof.
  destruct (DrainDataplane drained twoSockets) as [[n|] k'] eqn:E; [|vm_compute in E; discriminate].
  assert (n = 0) as -> by (vm_compute in E; congruence).
  exists k'. split; [reflexivity|].
  destruct (DrainDataplane_zero capOneP drained twoSockets k') as [Hk Hall].
  - intros t Ht s Hs.
    assert (t.2 = drainTurns) as Et
      by (unfold drained in Ht; rewrite !elem_of_cons in Ht; destruct Ht as [->|[->|Ht]]; [done|done|elem_nil]).
    rewrite Et in Hs. destruct (observed_ticks _ _ _ Hs) as [Hs'|Hs']; rewrite Hs'.
    + exists (conns runSystem). exact runSystem_reachable.
    + exists (conns endSystem). exact endSystem_reachable.
  - exact E.
  - split; [rewrite Hk; vm_compute; reflexivity|].
    destruct (Hall (mkInstance ServerConfig.New (Some 0%nat) None None, drainTurns)) as (s & Hs & Ha & Hh & _); [left|].
    exists s. exact (conj Hs (conj Ha Hh)).
Defined.
End instances.
