(* ===== verification/Lifecycle.v ===== *)
(** * From start-up to exit: [Server.Run], the data plane's goroutines and [cmd/rsync-gateway]

    The accept loops of every server report their errors to [Run], [Run] to the data plane,
    the data plane to a goroutine of the main program that cancels the manager.  The first
    part is [run] as a function of what the libraries it calls return, with the listeners
    it leaves open; the second is the goroutines as interleaved steps. *)
From S2P Require Import Prelude GoStd Net Upstreams Queue Admission Logging ServerConfig Accounting Dataplane.
Open Scope Z_scope.

(** ** [run] of the gateway *)

(** What the libraries return: scheme registration, the manager's construction, its checks,
    the registration of the controller, and [mgr.Start] at the end.  [ctrl.GetConfigOrDie],
    which ends the process when there is no cluster configuration, is taken to return. *)
Record Setup := mkSetup {
  addClientGo : option error; installGateway : option error; addV1alpha1 : option error;
  newManager : option error; addHealthz : option error; addReadyz : option error;
  setupController : option error; startErr : option error }.

(** [fmt.Errorf("...: %w", err)] when there is an error. *)
Definition wrapped (msg : string) (err : option error) : option error :=
  (fun e => msg +:+ ": " +:+ e) <$> err.

(** [if err := f(); err != nil { return err }], one after the other. *)
Fixpoint firstError (errs : list (option error)) : option error :=
  match errs with
  | [] => None
  | Some e :: _ => Some e
  | None :: rest => firstError rest
  end.

(** Between the data plane's start and the manager's. *)
Definition setupError (x : Setup) : option error :=
  firstError [addClientGo x; installGateway x; addV1alpha1 x;
    wrapped "create manager" (newManager x); wrapped "add healthz check" (addHealthz x);
    wrapped "add readyz check" (addReadyz x); wrapped "setup controller" (setupController x)].

Section run.
Context {Q : Type} `{AdmissionControl Q}.
Context (bind : gmap nat string → string → result string) (chmod : string → option error).
Context (loadX509KeyPair : string → string → result string).
Context (resolveTCPAddr : nat → string → option error).
Context (dial : Dialer → string → result Conn).
Context (openLogFile : string → option error).

Local Abbreviation newDataplane :=
  (Dataplane.New (Q := Q) bind chmod loadX509KeyPair resolveTCPAddr dial openLogFile).

(** [run]: the error it returns and the listeners it leaves; [Drain] closes them before it
    waits, and the deferred [dp.Close] closes them (again) on every way out.
    [ctrl.GetConfigOrDie] is taken to return (otherwise it ends the process), and the sockets
    are those of the data plane; what the controller manager listens on is its own. *)
Definition run (opts : Options) (x : Setup) (k : Sockets) : outcome (option error * Sockets) :=
  '(r, k) ← newDataplane opts k;
  match r with
  | Err e => Done (Some e, k)
  | Ret servers =>
      match setupError x with
      | Some e => Done (Some e, Dataplane.Close servers k)
      | None =>
          let k := Dataplane.Close servers k in
          Done (wrapped "manager exited" (startErr x), Dataplane.Close servers k)
      end
  end.
End run.

(** [main] *)
Definition exitStatus (err : option error) : Z := match err with Some _ => 1 | None => 0 end.

(** ** Accept loops *)

(** What [listener.Accept] returned; [closed] is [errors.Is(err, net.ErrClosed)]. *)
Inductive Accepted := Accepts (c : nat) | AcceptFails (closed : bool) (e : error).

(** [runRsyncServer]: the connections handed to [handleConn], and what the loop returned
    unless it is still in [Accept]. *)
Fixpoint runRsyncServer (acceptErr : string) (accepts : list Accepted)
    : list nat * option (option error) :=
  match accepts with
  | [] => ([], None)
  | Accepts c :: rest => let '(cs, r) := runRsyncServer acceptErr rest in (c :: cs, r)
  | AcceptFails closed e :: _ =>
      ([], Some (if closed then None else Some (acceptErr +:+ ": " +:+ e)))
  end.

(** ** Goroutines *)

Inductive Which := HTTPLoop | TCPLoop | TLSLoop.

(** A goroutine of [Run]: in its loop, at [errC <- err], returned (or never started). *)
Inductive Loop := Looping | Sending (e : error) | Gone.

(** [Run] and [runOne]: at [<-errC], at the [select] with the error, returned. *)
Inductive RunAt := Receiving | Offering (e : error) | Over.

Record Running := mkRunning {
  http : Loop; tcp : Loop; tls : Loop; errC : option error; runAt : RunAt }.

(** [Run] at its start; there may be no TLS listener. *)
Definition started (hasTLS : bool) : Running :=
  mkRunning Looping Looping (if hasTLS then Looping else Gone) None Receiving.

Definition loop (w : Which) (r : Running) : Loop :=
  match w with HTTPLoop => http r | TCPLoop => tcp r | TLSLoop => tls r end.
Definition setLoop (w : Which) (l : Loop) (r : Running) : Running :=
  mkRunning (match w with HTTPLoop => l | _ => http r end) (match w with TCPLoop => l | _ => tcp r end)
    (match w with TLSLoop => l | _ => tls r end) (errC r) (runAt r).
Definition setErrC (c : option error) (r : Running) : Running :=
  mkRunning (http r) (tcp r) (tls r) c (runAt r).
Definition setRunAt (a : RunAt) (r : Running) : Running :=
  mkRunning (http r) (tcp r) (tls r) (errC r) a.

(** Where a goroutine goes when its listener fails. *)
Definition loopEnds (w : Which) (closed : bool) (e : error) : Loop :=
  let fromRsync acceptErr :=
    match snd (runRsyncServer acceptErr [AcceptFails closed e]) with
    | Some (Some err) => Sending err
    | _ => Gone
    end in
  match w with
  | HTTPLoop => if closed then Gone else Sending ("start http server: " +:+ e)
  | TCPLoop => fromRsync "accept rsync connection"
  | TLSLoop => fromRsync "accept tls rsync connection"
  end.

(** The main program: in [mgr.Start], in [Drain], returned. *)
Inductive MainAt := Managing | Draining (r : option error) | Returned (r : option error).

Record Process := mkProcess {
  servers : list Running;
  dpErr : option error;     (* d.errC, of capacity one *)
  guardWaits : bool;        (* the goroutine that waits for dp.Err() or mgrCtx.Done() *)
  cancelled : bool;         (* mgrCtx *)
  mainAt : MainAt }.

Definition setServers (l : list Running) (p : Process) : Process :=
  mkProcess l (dpErr p) (guardWaits p) (cancelled p) (mainAt p).
Definition setDpErr (e : option error) (p : Process) : Process :=
  mkProcess (servers p) e (guardWaits p) (cancelled p) (mainAt p).
Definition setGuard (b : bool) (p : Process) : Process :=
  mkProcess (servers p) (dpErr p) b (cancelled p) (mainAt p).
Definition cancel (p : Process) : Process :=
  mkProcess (servers p) (dpErr p) (guardWaits p) true (mainAt p).
Definition setMain (m : MainAt) (p : Process) : Process :=
  mkProcess (servers p) (dpErr p) (guardWaits p) (cancelled p) m.
Definition onServer (i : nat) (f : Running → option Running) (p : Process) : option Process :=
  r ← servers p !! i; r' ← f r; Some (setServers (<[i := r']> (servers p)) p).

(** [Dataplane.Start] *)
Definition Start (hasTLS : list bool) : Process :=
  mkProcess (started <$> hasTLS) None true false Managing.

Inductive Event :=
  | LoopEnds (i : nat) (w : Which) (closed : bool) (e : error)
  | LoopSends (i : nat) (w : Which)          (* errC <- err *)
  | RunReceives (i : nat)                    (* err := <-errC; return err *)
  | RunOne (i : nat)                         (* select { case d.errC <- err: default: } *)
  | GuardReceives                            (* case err := <-dp.Err() *)
  | GuardLeaves                              (* case <-mgrCtx.Done() *)
  | Signal                                   (* the signal handler cancels the context *)
  | ManagerReturns (r : option error)        (* mgr.Start *)
  | DrainReturns.                            (* dp.Drain, and the rest of run *)

Definition loopSends (w : Which) (r : Running) : option Running :=
  match loop w r, errC r with
  | Sending e, None => Some (setErrC (Some e) (setLoop w Gone r))
  | _, _ => None
  end.
Definition runReceives (r : Running) : option Running :=
  match runAt r, errC r with
  | Receiving, Some e => Some (setRunAt (Offering e) (setErrC None r))
  | _, _ => None
  end.
Definition runOne (i : nat) (p : Process) : option Process :=
  r ← servers p !! i;
  match runAt r with
  | Offering e =>
      p' ← onServer i (fun r => Some (setRunAt Over r)) p;
      Some (match dpErr p with None => setDpErr (Some e) p' | Some _ => p' end)
  | _ => None
  end.

(** One step; [None] when it cannot happen (yet).  [mgr.Start] returns without an error only
    when its context was cancelled. *)
Definition step (e : Event) (p : Process) : option Process :=
  match e with
  | LoopEnds i w closed err =>
      onServer i (fun r => match loop w r with
                           | Looping => Some (setLoop w (loopEnds w closed err) r)
                           | _ => None
                           end) p
  | LoopSends i w => onServer i (loopSends w) p
  | RunReceives i => onServer i runReceives p
  | RunOne i => runOne i p
  | GuardReceives =>
      match guardWaits p, dpErr p with
      | true, Some _ => Some (setGuard false (cancel (setDpErr None p)))
      | _, _ => None
      end
  | GuardLeaves => if guardWaits p && cancelled p then Some (setGuard false p) else None
  | Signal => Some (cancel p)
  | ManagerReturns r =>
      match mainAt p, r with
      | Managing, None => if cancelled p then Some (setMain (Draining None) p) else None
      | Managing, Some _ => Some (setMain (Draining r) p)
      | _, _ => None
      end
  | DrainReturns =>
      match mainAt p with
      | Draining r => Some (cancel (setMain (Returned (wrapped "manager exited" r)) p))
      | _ => None
      end
  end.

Fixpoint steps (es : list Event) (p : Process) : option Process :=
  match es with
  | [] => Some p
  | e :: es => p' ← step e p; steps es p'
  end.

(** ** A failure of the data plane stops the gateway *)

(** An error on its way from a goroutine of the server to the data plane. *)
Definition failed (r : Running) : Prop :=
  (∃ w e, loop w r = Sending e) ∨ is_Some (errC r) ∨ ∃ e, runAt r = Offering e.

(** Steps of the gateway's own goroutines; listeners, signals and the manager take the others. *)
Definition ownStep (e : Event) : bool :=
  match e with
  | LoopSends _ _ | RunReceives _ | RunOne _ | GuardReceives => true
  | _ => false
  end.

Inductive reachable (hasTLS : list bool) : Process → Prop :=
  | reachable_start : reachable hasTLS (Start hasTLS)
  | reachable_step e p p' : reachable hasTLS p → step e p = Some p' → reachable hasTLS p'.

(** The guard goes only when the manager is cancelled, and a server that is done has left
    an error behind or found one. *)
Record Inv (p : Process) : Prop := {
  inv_guard : guardWaits p = false → cancelled p = true;
  inv_over i r : servers p !! i = Some r → runAt r = Over → is_Some (dpErr p) ∨ cancelled p = true }.

Lemma onServer_inv i f p p' :
  onServer i f p = Some p' →
  ∃ r r', servers p !! i = Some r ∧ f r = Some r' ∧ p' = setServers (<[i := r']> (servers p)) p.
Proof.
  unfold onServer. intros (r & Hr & (r' & Hf & [= <-])%bind_Some)%bind_Some. eauto 6.
Qed.

(** A server's own step leaves the rest alone and does not end its [runOne]. *)
Lemma Inv_onServer i f p p' :
  (∀ r r', f r = Some r' → runAt r' = Over → runAt r = Over) →
  onServer i f p = Some p' → Inv p → Inv p'.
Proof.
  intros Hf (r & r' & Hr & Hr' & ->)%onServer_inv [Hg Ho]. split; [done|]. simpl.
  intros j rj Hj Hover. destruct (decide (j = i)) as [->|].
  - rewrite list_lookup_insert_eq in Hj by eauto using lookup_lt_Some. simplify_eq. eauto.
  - rewrite list_lookup_insert_ne in Hj by done. eauto.
Qed.

Lemma Inv_step e p p' : step e p = Some p' → Inv p → Inv p'.
Proof.
  intros E Hi. destruct e as [i w closed err|i w|i|i| | | |r|]; simpl in E.
  - eapply Inv_onServer; [|done|done]. intros r r'. simpl. destruct (loop w r); try done. by intros [= <-].
  - eapply Inv_onServer; [|done|done]. intros r r'. unfold loopSends. repeat case_match; try done; by intros [= <-].
  - eapply Inv_onServer; [|done|done]. intros r r'. unfold runReceives. repeat case_match; try done; by intros [= <-].
  - unfold runOne in E. apply bind_Some in E as (r & Hr & E). case_match; try done.
    apply bind_Some in E as (p1 & (r1 & r2 & Hr1 & Hr2 & ->)%onServer_inv & [= <-]).
    destruct Hi as [Hg Ho]. destruct (dpErr p) eqn:Ed; (split; simpl; [done|]); intros; left; rewrite ?Ed; eauto.
  - destruct (guardWaits p), (dpErr p); simplify_eq. split; simpl; auto.
  - destruct Hi as [Hg Ho]. destruct (guardWaits p), (cancelled p) eqn:Ec; simplify_eq/=.
    split; simpl; rewrite ?Ec; auto.
  - simplify_eq. split; simpl; auto.
  - destruct Hi as [Hg Ho]. destruct (mainAt p), r; try done; repeat case_match; simplify_eq; split; simpl; eauto.
  - destruct (mainAt p); simplify_eq. split; simpl; auto.
Qed.

Lemma Inv_reachable hasTLS p : reachable hasTLS p → Inv p.
Proof.
  induction 1; [|eauto using Inv_step]. split; [done|]. simpl. intros i r Hr.
  rewrite list_lookup_fmap in Hr. destruct (hasTLS !! i); simplify_eq/=. done.
Qed.

(** *** The way of an error *)

(** [n] own steps suffice to cancel the manager. *)
Definition cancelsWithin (n : nat) (p : Process) : Prop :=
  ∃ es p', steps es p = Some p' ∧ forallb ownStep es = true ∧ (length es ≤ n)%nat ∧ cancelled p' = true.

Lemma cancels_step n e p p' :
  ownStep e = true → step e p = Some p' → cancelsWithin n p' → cancelsWithin (S n) p.
Proof.
  intros Ho E (es & p2 & Hs & Hf & Hl & Hc). exists (e :: es), p2. simpl. rewrite E, Ho. simpl.
  split_and!; try done. lia.
Qed.

Lemma guard_cancels p : guardWaits p = true → is_Some (dpErr p) → cancelsWithin 1 p.
Proof.
  intros Hg [e He]. eapply (cancels_step 0 GuardReceives); [done|simpl; by rewrite Hg, He|].
  exists []. eexists. split_and!; simpl; try done.
Qed.

Lemma offering_cancels i r e p :
  guardWaits p = true → servers p !! i = Some r → runAt r = Offering e → cancelsWithin 2 p.
Proof.
  intros Hg Hr He.
  assert (∃ p', step (RunOne i) p = Some p' ∧ guardWaits p' = true ∧ is_Some (dpErr p')) as (p' & E & ? & ?).
  { simpl. unfold runOne, onServer. rewrite Hr. simpl. rewrite He. destruct (dpErr p) eqn:Ed; eexists;
      (split; [reflexivity|]); simpl; rewrite ?Ed; eauto. }
  by apply (cancels_step 1 (RunOne i) p p'), guard_cancels.
Qed.

Lemma errC_cancels i r p :
  guardWaits p = true → servers p !! i = Some r → runAt r = Receiving → is_Some (errC r) → cancelsWithin 3 p.
Proof.
  intros Hg Hr Ha [e He].
  eapply (cancels_step 2 (RunReceives i)); [done| |].
  - simpl. unfold onServer. rewrite Hr. simpl. unfold runReceives. rewrite Ha, He. reflexivity.
  - apply (offering_cancels i (setRunAt (Offering e) (setErrC None r)) e); [done| |done]. simpl. rewrite list_lookup_insert_eq; [done|].
    eauto using lookup_lt_Some.
Qed.

Lemma sending_cancels i r w e p :
  guardWaits p = true → servers p !! i = Some r → runAt r = Receiving → errC r = None →
  loop w r = Sending e → cancelsWithin 4 p.
Proof.
  intros Hg Hr Ha Hc Hl.
  eapply (cancels_step 3 (LoopSends i w)); [done| |].
  - simpl. unfold onServer. rewrite Hr. simpl. unfold loopSends. rewrite Hl, Hc. reflexivity.
  - apply (errC_cancels i (setErrC (Some e) (setLoop w Gone r))); [done| |done|done]. simpl. rewrite list_lookup_insert_eq; [done|].
    eauto using lookup_lt_Some.
Qed.

Lemma cancelsWithin_le n m p : (n ≤ m)%nat → cancelsWithin n p → cancelsWithin m p.
Proof. intros Hnm (es & p' & ? & ? & ? & ?). exists es, p'. split_and!; try done. lia. Qed.

Lemma cancelled_cancels p : cancelled p = true → cancelsWithin 0 p.
Proof. intros Hc. by exists [], p. Qed.

Lemma failure_cancels hasTLS p i r :
  reachable hasTLS p → servers p !! i = Some r → failed r → cancelsWithin 4 p.
Proof.
  intros Hre Hr Hf. pose proof (Inv_reachable _ _ Hre) as [Hg Ho].
  destruct (guardWaits p) eqn:Eg.
  2:{ eapply cancelsWithin_le; [|apply cancelled_cancels; auto]. lia. }
  destruct (dpErr p) eqn:Ed.
  { eapply cancelsWithin_le; [|apply guard_cancels; [done|by rewrite Ed]]. lia. }
  destruct (runAt r) as [|e|] eqn:Ea.
  - destruct (errC r) as [e|] eqn:Ee.
    + eapply cancelsWithin_le; [|by eapply errC_cancels; [..|rewrite Ee]]. lia.
    + destruct Hf as [(w & e & Hw)|[[]|[e He]]]; [|congruence|congruence]. by eapply sending_cancels.
  - eapply cancelsWithin_le; [|by eapply offering_cancels]. lia.
  - destruct (Ho i r Hr Ea) as [[]|]; [congruence|].
    eapply cancelsWithin_le; [|by apply cancelled_cancels]. lia.
Qed.

(** *** Closed listeners are no failure *)

(** No listener failed (those that end were closed), no signal, and [run] has not returned. *)
Definition quiet (e : Event) : bool :=
  match e with
  | LoopEnds _ _ closed _ => closed
  | Signal | DrainReturns => false
  | _ => true
  end.

Definition calm (r : Running) : Prop :=
  (∀ w, loop w r = Looping ∨ loop w r = Gone) ∧ errC r = None ∧ runAt r = Receiving.

Lemma calm_closed w e r : calm r → calm (setLoop w (loopEnds w true e) r).
Proof.
  intros (Hl & Hc & Ha). split; [|done]. intros w'. specialize (Hl w').
  destruct w, w'; simpl in *; auto.
Qed.

Lemma quiet_step e p p' :
  quiet e = true → step e p = Some p' →
  Forall calm (servers p) ∧ dpErr p = None ∧ cancelled p = false →
  Forall calm (servers p') ∧ dpErr p' = None ∧ cancelled p' = false.
Proof.
  intros Hq E (Hs & Hd & Hc). pose proof (Forall_lookup_1 calm (servers p)) as Hlk.
  destruct e as [i w closed err|i w|i|i| | | |r|]; simpl in E, Hq; try done.
  - apply onServer_inv in E as (r & r' & Hr & Hf & ->). subst closed. split; [|done].
    apply Forall_insert; [done|]. destruct (loop w r); simplify_eq. apply calm_closed. eauto.
  - apply onServer_inv in E as (r & r' & Hr & Hf & ->). destruct (Hlk i r Hs Hr) as (Hl & _).
    unfold loopSends in Hf. by destruct (Hl w) as [E|E]; rewrite E in Hf.
  - apply onServer_inv in E as (r & r' & Hr & Hf & ->). destruct (Hlk i r Hs Hr) as (_ & He & Ha).
    unfold runReceives in Hf. by rewrite He, Ha in Hf.
  - unfold runOne in E. apply bind_Some in E as (r & Hr & E). destruct (Hlk i r Hs Hr) as (_ & _ & Ha).
    by rewrite Ha in E.
  - rewrite Hd in E. by destruct (guardWaits p).
  - rewrite Hc, andb_false_r in E. done.
  - rewrite Hc in E. destruct (mainAt p), r; simplify_eq. done.
Qed.

Lemma quiet_steps hasTLS es p :
  forallb quiet es = true → steps es (Start hasTLS) = Some p → cancelled p = false.
Proof.
  assert (Forall calm (servers (Start hasTLS)) ∧ dpErr (Start hasTLS) = None ∧ cancelled (Start hasTLS) = false)
    as H0.
  { split_and!; try done. simpl. apply Forall_fmap, Forall_true. intros b. split; [|done].
    intros []; simpl; auto. destruct b; auto. }
  revert H0. generalize (Start hasTLS). induction es as [|e es IH]; intros p0 H0; simpl.
  - intros _ [= <-]. apply H0.
  - intros [Hq Hqs]%andb_true_iff. destruct (step e p0) as [p1|] eqn:E; simpl; [|done].
    apply IH; [|done]. by eapply quiet_step.
Qed.

(** C31: A failure of the data plane stops the gateway, and nothing short of it does.
    Wherever the error of an accept loop or of the admin server is on its way, in whatever
    state the other servers are, at most four steps of the gateway's own goroutines cancel
    the manager; while listeners are only closed, as on draining, the manager is not
    cancelled unless a signal arrives or [run] returns. *)
Theorem failure_stops_gateway hasTLS :
  (∀ p i r, reachable hasTLS p → servers p !! i = Some r → failed r → cancelsWithin 4 p) ∧
  (∀ es p, forallb quiet es = true → steps es (Start hasTLS) = Some p → cancelled p = false).
Proof. split; [apply failure_cancels|apply quiet_steps]. Qed.

(** ** [run] gives its listeners back *)

Section listeners.
Context {Q : Type} `{AdmissionControl Q}.
Context (bind : gmap nat string → string → result string) (chmod : string → option error).
Context (chmod_ok : ∀ addr, chmod addr = None).
Context (loadX509KeyPair : string → string → result string).
Context (resolveTCPAddr : nat → string → option error).
Context (dial : Dialer → string → result Conn).
Context (openLogFile : string → option error).

Local Abbreviation gatewayRun := (run (Q := Q) bind chmod loadX509KeyPair resolveTCPAddr dial openLogFile).

Lemma closeInstance_next (i : Bound Q) k : sk_next (closeInstance i k) = sk_next k.
Proof. unfold closeInstance. by destruct (i_http i), (i_tls i), (i_tcp i). Qed.

Lemma Close_next (servers : list (Bound Q)) k : sk_next (Dataplane.Close servers k) = sk_next k.
Proof.
  unfold Dataplane.Close. revert k. induction servers as [|i servers IH]; intros k; simpl; [done|].
  by rewrite IH, closeInstance_next.
Qed.

(** A second [Close] finds nothing to close. *)
Lemma Close_twice k0 (servers : list (Bound Q)) k :
  opened k0 (allSockets servers) k → opened k0 ∅ (Dataplane.Close servers (Dataplane.Close servers k)).
Proof.
  intros Hk. apply opened_Close. pose proof (opened_Close k0 servers k Hk) as [H1 H2 H3 H4].
  split; [done|done| |].
  - intros h Hh Ho. pose proof (H3 h Hh Ho). set_solver.
  - intros h Hh. rewrite Close_next. by apply (op_hs _ _ _ Hk).
Qed.

(** C32: However the gateway's main function ends, by an error of start-up, of the manager or
    in order, it has ended with exactly the listeners open that were open before; it
    reports success exactly when the data plane could be started, nothing failed before
    the manager ran, and the manager ended without an error. *)
Theorem run_closes_listeners opts x k :
  freshSockets k →
  ∃ err k', gatewayRun opts x k = Done (err, k') ∧ sk_open k' = sk_open k ∧
    (exitStatus err = 0 ↔
      (∃ servers k1, Dataplane.New (Q := Q) bind chmod loadX509KeyPair resolveTCPAddr dial openLogFile opts k
                     = Done (Ret servers, k1)) ∧ setupError x = None ∧ startErr x = None).
Proof.
  intros Hf. unfold run, mbind, outcome_bind.
  destruct (New_opened bind chmod chmod_ok loadX509KeyPair resolveTCPAddr dial openLogFile opts k Hf)
    as (r & k1 & -> & Hr).
  destruct r as [servers|e].
  2:{ eexists _, _. split; [reflexivity|]. split; [by apply opened_none|]. simpl. naive_solver. }
  destruct Hr as (_ & _ & _ & Ho). destruct (setupError x) as [e|] eqn:Es.
  - eexists _, _. split; [reflexivity|]. split; [by apply opened_none, opened_Close|]. simpl. naive_solver.
  - eexists _, _. split; [reflexivity|]. split; [by apply opened_none, Close_twice|].
    destruct (startErr x) eqn:Est; simpl; naive_solver.
Qed.
End listeners.

(** ** Instances *)

(** Two servers, one with TLS; the listener of the second fails. *)
Abbreviation failing :=
  [LoopEnds 0 HTTPLoop true "closed"; LoopEnds 1 TCPLoop false "too many open files"].

(** The way of that error to the end of the process: it is logged, the manager is cancelled
    and ends in order, and the exit status is that of success. *)
Example failure_exits_zero :
  (p ← steps (failing ++ [LoopSends 1 TCPLoop; RunReceives 1; RunOne 1; GuardReceives; ManagerReturns None;
                          DrainReturns]) (Start [true; false]);
   Some (match mainAt p with Returned err => Some (exitStatus err) | _ => None end)) = Some (Some 0).
Proof. reflexivity. Qed.

Lemma failure_stops_gateway_witness :
  ∃ p r, steps failing (Start [true; false]) = Some p ∧ servers p !! 1%nat = Some r ∧ failed r ∧
    cancelsWithin 4 p ∧ cancelled p = false.
Proof.
  destruct (steps failing (Start [true; false])) as [p|] eqn:E; [|discriminate E].
  injection E as <-. eexists _, _. split; [reflexivity|]. split; [reflexivity|].
  assert (failed (setLoop TCPLoop (Sending "accept rsync connection: too many open files") (started false))) as Hf
    by (left; exists TCPLoop; eexists; reflexivity).
  split; [exact Hf|]. split; [|reflexivity].
  apply (proj1 (failure_stops_gateway [true; false]) _ 1%nat
    (setLoop TCPLoop (Sending "accept rsync connection: too many open files") (started false)));
    [|reflexivity|exact Hf].
  eapply (reachable_step _ (LoopEnds 1 TCPLoop false "too many open files"));
    [eapply (reachable_step _ (LoopEnds 0 HTTPLoop true "closed")); [apply reachable_start|reflexivity]
    |reflexivity].
Defined.

(** The manager cannot be created: the two listeners of the data plane are closed again. *)
Abbreviation noManager :=
  (mkSetup None None None (Some "no cluster") None None None None).

Lemma run_closes_listeners_witness :
  ∃ err k', run (Q := Queue.AdmissionQueue.World) anyBind noError noTLS (fun _ => resolves) noDial noFiles
      (mkOptions [":873"] ":9080") noManager noSockets = Done (err, k') ∧ sk_open k' = ∅ ∧ exitStatus err ≠ 0.
Proof.
  destruct (run_closes_listeners (Q := Queue.AdmissionQueue.World) anyBind noError (fun _ => eq_refl) noTLS (fun _ => resolves)
    noDial noFiles (mkOptions [":873"] ":9080") noManager noSockets noSockets_fresh) as (err & k' & E & Hk & Hs).
  exists err, k'. split; [exact E|]. split; [exact Hk|]. intros [_ [H0 _]]%Hs. discriminate H0.
Defined.
