(* ===== verification/Metrics.v ===== *)
(** * The metrics page: [pkg/server/metrics.go]

    The page is a list of families, each a name with its help text and type and samples;
    a sample is its labels, as they are written between the braces, and its value.
    [renderPage] is the text [writePrometheusMetrics] writes. *)
From Stdlib Require Import Floats.SpecFloat.
From S2P Require Import Prelude GoStd Upstreams Admission ServerConfig Relay.
Open Scope Z_scope.

(** ** Labels *)

(** [strings.ReplaceAll(s, c, r)] for a single character [c]. *)
Definition replaceChar (c : ascii) (r : list ascii) (l : list ascii) : list ascii :=
  concat (map (fun d => if decide (d = c) then r else [d]) l).

Definition backslash : ascii := chr 92.
Definition dquote : ascii := chr 34.
Definition lf : ascii := chr 10.

Definition prometheusEscapeLabelValue (s : string) : string :=
  let l := chars s in
  let l := replaceChar backslash [backslash; backslash] l in
  let l := replaceChar lf [backslash; "n"%char] l in
  let l := replaceChar dquote [backslash; dquote] l in
  text l.

(** [name="value"] *)
Definition label (name value : string) : string :=
  name +:+ "=" +:+ DQ +:+ prometheusEscapeLabelValue value +:+ DQ.

Definition upstreamLabel (u : string) : string := label "upstream" u.
Definition moduleLabels (module upstream : string) : string :=
  label "module" module +:+ "," +:+ label "upstream" upstream.
Definition prometheusLabels (index : Z) (module upstream : string) : string :=
  "index=" +:+ DQ +:+ itoa index +:+ DQ +:+ "," +:+
  moduleLabels (prometheusLabelValueOrUnknown module) (prometheusLabelValueOrUnknown upstream).

(** ** Numbers *)

(** [time.Duration.Seconds]: whole seconds and the fraction, added as floats. *)
Definition f64add := SFadd 53 1024.
Definition durationSeconds (d : Z) : spec_float :=
  f64add (f64OfZ (Z.quot d second)) (f64div (f64OfZ (Z.rem d second)) (f64OfZ 1000000000)).

(** [%.3f] of a float that is not negative: thousandths, half to even. *)
Definition thousandths (x : spec_float) : Z :=
  match x with
  | S754_finite false m e =>
      let n := Zpos m * 1000 in
      if 0 <=? e then n * 2 ^ e
      else
        let d := 2 ^ (- e) in
        let q := n / d in
        let r := n mod d in
        if (2 * r <? d) || ((2 * r =? d) && Z.even q) then q else q + 1
  | _ => 0
  end.
Definition pad3 (n : Z) : string := text [chr (48 + Z.to_nat (n / 100)); chr (48 + Z.to_nat (n / 10 mod 10)); chr (48 + Z.to_nat (n mod 10))].
Definition fixed3 (x : spec_float) : string :=
  let t := thousandths x in itoa (t / 1000) +:+ "." +:+ pad3 (t mod 1000).

Example fixed3_ex : fixed3 (durationSeconds 1500000000) = "1.500" ∧ fixed3 (durationSeconds 62000499999) = "62.000".
Proof. by vm_compute. Qed.

(** ** Families *)

Record Family := mkFamily {
  f_name : string; f_help : string; f_type : string; f_samples : list (option string * string) }.

Definition renderSample (name : string) (s : option string * string) : string :=
  name +:+ match s.1 with Some l => "{" +:+ l +:+ "}" | None => "" end +:+ " " +:+ s.2 +:+ LF.
Definition renderFamily (f : Family) : string :=
  "# HELP " +:+ f_name f +:+ " " +:+ f_help f +:+ LF +:+
  "# TYPE " +:+ f_name f +:+ " " +:+ f_type f +:+ LF +:+
  String.concat "" (map (renderSample (f_name f)) (f_samples f)).
Definition renderPage (fs : list Family) : string := String.concat "" (map renderFamily fs).

(** ** [ListConnectionInfo] *)

Definition indexLe (a b : ConnInfo) : Prop := ci_Index a ≤ ci_Index b.
#[export] Instance indexLe_dec a b : Decision (indexLe a b).
Proof. unfold indexLe. apply _. Defined.

Definition ListConnectionInfo (connInfo : gmap Z ConnInfo) : list ConnInfo :=
  merge_sort indexLe (map snd (map_to_list connInfo)).

(** By their indices, as numbers. *)
Lemma ListConnectionInfo_sorted connInfo : Sorted Z.le (map ci_Index (ListConnectionInfo connInfo)).
Proof.
  assert (Sorted indexLe (ListConnectionInfo connInfo)) as Hs.
  { apply Sorted_merge_sort. intros a b. unfold indexLe. lia. }
  induction Hs as [|c cs _ IH Hd]; simpl; constructor; [done|].
  destruct Hd as [|d cs' Hle]; simpl; by constructor.
Qed.

(** ** Groups of connections *)

(** Sorted by module, then by upstream. *)
Definition labelsLe (a b : string * string) : Prop :=
  if decide (a.1 = b.1) then String.le a.2 b.2 else String.le a.1 b.1.
#[export] Instance labelsLe_dec a b : Decision (labelsLe a b).
Proof. unfold labelsLe. case_decide; apply _. Defined.

Definition connectionGroup (c : ConnInfo) : string * string :=
  (prometheusLabelValueOrUnknown (ci_Module c), prometheusLabelValueOrUnknown (ci_Upstream c)).
Definition countGroup (counts : gmap (string * string) Z) (c : ConnInfo) : gmap (string * string) Z :=
  <[connectionGroup c := default 0 (counts !! connectionGroup c) + 1]> counts.
Definition connectionCounts (cs : list ConnInfo) : gmap (string * string) Z := foldl countGroup ∅ cs.

Definition sortedKeys {A} (m : gmap (string * string) A) : list (string * string) :=
  merge_sort labelsLe (map fst (map_to_list m)).

(** ** The page *)

(** Upstreams sorted by name. *)
Definition nameLe (a b : upstreamConfig) : Prop := String.le (uc_Name a) (uc_Name b).
#[export] Instance nameLe_dec a b : Decision (nameLe a b).
Proof. unfold nameLe. apply _. Defined.

Section page.
Context {Q : Type} `{AdmissionControl Q} (queuedLen : Q → Z).
Context (s : Server Q) (cs : Counters) (active accepted now : Z) (connInfo : gmap Z ConnInfo).

Definition connections : list ConnInfo := ListConnectionInfo connInfo.
Definition sortedUpstreams : list upstreamConfig := merge_sort nameLe (s_upstreams s).

Definition gauge (name help : string) (samples : list (option string * string)) : Family :=
  mkFamily name help "gauge" samples.
Definition counter (name help : string) (samples : list (option string * string)) : Family :=
  mkFamily name help "counter" samples.

(** A sample per upstream that has a queue. *)
Definition perQueue (f : Q → Z) : list (option string * string) :=
  omap (fun u =>
    ref ← s_upstreamQueues s !! uc_Name u;
    qu ← s_queues s !! ref;
    Some (Some (upstreamLabel (uc_Name u)), itoa (f qu))) sortedUpstreams.
(** A sample per upstream. *)
Definition perUpstreamSamples (f : upstreamCounters → Z) : list (option string * string) :=
  map (fun u => (Some (upstreamLabel (uc_Name u)), itoa (f (getUpstreamCounters cs (uc_Name u)))))
    sortedUpstreams.
(** A sample per connection. *)
Definition perConnection (f : ConnInfo → string) : list (option string * string) :=
  map (fun c => (Some (prometheusLabels (ci_Index c) (ci_Module c) (ci_Upstream c)), f c)) connections.
(** A sample per module and upstream that relays finished for. *)
Definition perModuleSamples (f : moduleCounters → Z) : list (option string * string) :=
  map (fun k => (Some (moduleLabels k.1 k.2),
                 itoa (f (default (mkModuleCounters 0 0 0) (perModule cs !! k)))))
    (sortedKeys (perModule cs)).
Definition groupSamples : list (option string * string) :=
  map (fun k => (Some (moduleLabels k.1 k.2), itoa (default 0 (connectionCounts connections !! k))))
    (sortedKeys (connectionCounts connections)).

Definition durationOf (c : ConnInfo) : Z := now - ci_ConnectedAt c.
Definition durationText (c : ConnInfo) : string :=
  if durationOf c <? 0 then fixed3 (durationSeconds 0) else fixed3 (durationSeconds (durationOf c)).

(** The families of the upstreams, of the connections, and the totals. *)
Definition upstreamFamilies : list Family :=
  [gauge "rsync_proxy_queued_connections" "Current queued rsync proxy connections per upstream."
     (perQueue queuedLen);
   gauge "rsync_proxy_queue_active_max" "Configured max active connections per upstream."
     (perQueue (fun qu => (limits qu).1));
   gauge "rsync_proxy_queue_queued_max" "Configured max queued connections per upstream."
     (perQueue (fun qu => (limits qu).2));
   counter "rsync_proxy_queue_full_rejected_total"
     "Total connections rejected due to queue full per upstream." (perUpstreamSamples queueFull);
   counter "rsync_proxy_upstream_dial_errors_total"
     "Total upstream dial failures per upstream." (perUpstreamSamples dialError);
   counter "rsync_proxy_per_ip_rejected_total"
     "Total connections rejected by the per-IP per-upstream concurrency cap."
     (perUpstreamSamples Relay.perIPRejected);
   counter "rsync_proxy_relay_idle_timeout_terminated_total"
     "Total relay connections terminated by the idle timeout watcher per upstream."
     (perUpstreamSamples idleTerminated);
   counter "rsync_proxy_relay_max_duration_terminated_total"
     "Total relay connections terminated for exceeding the max-duration cap per upstream."
     (perUpstreamSamples maxDurationTerminated);
   counter "rsync_proxy_throughput_floor_terminated_total"
     "Total relay connections terminated for falling below the configured throughput floor per upstream."
     (perUpstreamSamples throughputFloorTerminated);
   counter "rsync_proxy_unknown_module_requests_total" "Total requests for unknown modules."
     [(None, itoa (unknownModuleCount cs))]].

Definition connectionFamilies : list Family :=
  [gauge "rsync_proxy_active_connections" "Current active rsync proxy connections."
     [(None, itoa active)];
   gauge "rsync_proxy_active_connections_by_module"
     "Current active rsync proxy connections by module and upstream." groupSamples;
   gauge "rsync_proxy_connection_sent_bytes" "Bytes sent to clients for active connections."
     (perConnection (fun c => itoa (ci_SentBytes c)));
   gauge "rsync_proxy_connection_received_bytes" "Bytes received from clients for active connections."
     (perConnection (fun c => itoa (ci_ReceivedBytes c)));
   gauge "rsync_proxy_connection_connected_timestamp_seconds"
     "Unix timestamp when active connections were established."
     (perConnection (fun c => itoa (ci_ConnectedAt c / second)));
   gauge "rsync_proxy_connection_duration_seconds" "Current duration of active connections."
     (perConnection durationText)].

Definition totalFamilies : list Family :=
  [counter "rsync_proxy_accepted_connections_total" "Total accepted connections since start."
     [(None, itoa accepted)];
   counter "rsync_proxy_completed_connections_total" "Total completed connections since start."
     [(None, itoa (Relay.completedConnCount cs))];
   counter "rsync_proxy_sent_bytes_total" "Total bytes sent to clients since start."
     [(None, itoa (sentBytesTotal cs))];
   counter "rsync_proxy_received_bytes_total" "Total bytes received from clients since start."
     [(None, itoa (recvBytesTotal cs))];
   counter "rsync_proxy_module_completed_connections_total"
     "Total completed connections by module and upstream." (perModuleSamples mc_completed);
   counter "rsync_proxy_module_sent_bytes_total"
     "Total bytes sent to clients by module and upstream." (perModuleSamples mc_sentBytes);
   counter "rsync_proxy_module_received_bytes_total"
     "Total bytes received from clients by module and upstream." (perModuleSamples mc_recvBytes)].

Definition metrics : list Family := upstreamFamilies ++ connectionFamilies ++ totalFamilies.

Definition writePrometheusMetrics : string := renderPage metrics.
End page.

(** ** Reading labels back *)

Definition escChar (d : ascii) : list ascii :=
  if decide (d = backslash) then [backslash; backslash]
  else if decide (d = lf) then [backslash; "n"%char]
  else if decide (d = dquote) then [backslash; dquote]
  else [d].

Lemma replaceChar_app c r l k : replaceChar c r (l ++ k) = replaceChar c r l ++ replaceChar c r k.
Proof. unfold replaceChar. by rewrite map_app, concat_app. Qed.

(** The three passes act character by character. *)
Lemma escape_chars s : chars (prometheusEscapeLabelValue s) = concat (map escChar (chars s)).
Proof.
  unfold prometheusEscapeLabelValue. rewrite chars_text. induction (chars s) as [|d l IH]; [done|].
  change (d :: l) with ([d] ++ l). rewrite !replaceChar_app, IH, map_app, concat_app. f_equal.
  unfold replaceChar, escChar. simpl. rewrite !app_nil_r.
  destruct (decide (d = backslash)) as [->|]; [done|]. simpl. rewrite app_nil_r.
  destruct (decide (d = lf)) as [->|]; [done|]. simpl. by rewrite app_nil_r.
Qed.

(** A quoted value as the exposition format defines it: up to the first quote that is
    not escaped. *)
Fixpoint parseValue (l : list ascii) : option (list ascii * list ascii) :=
  match l with
  | [] => None
  | c :: r =>
      if decide (c = dquote) then Some ([], r)
      else if decide (c = backslash) then
        match r with
        | [] => None
        | d :: r' =>
            '(v, rest) ← parseValue r';
            Some ((if decide (d = "n"%char) then lf else d) :: v, rest)
        end
      else '(v, rest) ← parseValue r; Some (c :: v, rest)
  end.

Lemma parseValue_escape v rest :
  parseValue (concat (map escChar v) ++ dquote :: rest) = Some (v, rest).
Proof.
  induction v as [|d v IH]; [done|]. cbn [map concat]. rewrite <- app_assoc. unfold escChar at 1.
  destruct (decide (d = backslash)) as [->|Hb]; [simpl; by rewrite IH|].
  destruct (decide (d = lf)) as [->|Hl]; [simpl; by rewrite IH|].
  destruct (decide (d = dquote)) as [->|Hq]; [simpl; by rewrite IH|].
  simpl. rewrite !decide_False by done. by rewrite IH.
Qed.

Lemma escChar_no_lf d : lf ∉ escChar d.
Proof.
  unfold escChar. repeat case_decide; rewrite ?elem_of_cons, ?elem_of_nil; intros Hin;
    destruct_or?; try done; congruence.
Qed.

(** Label values survive the escaping: a value is read back from its quoted text, which
    holds no newline, so that a sample never spans lines whatever a client named the
    module it asked for. *)
Theorem label_value_roundtrip v rest :
  parseValue (chars (prometheusEscapeLabelValue v) ++ dquote :: rest) = Some (chars v, rest) ∧
  lf ∉ chars (prometheusEscapeLabelValue v).
Proof.
  rewrite escape_chars. split; [apply parseValue_escape|].
  intros Hin. apply list_elem_of_In, in_concat in Hin as (x & Hx & Hin).
  apply in_map_iff in Hx as (d & <- & _). apply list_elem_of_In in Hin. by apply escChar_no_lf in Hin.
Qed.

(** *** Distinct labels *)

Lemma chars_eq a b : a = b → chars a = chars b.
Proof. by intros ->. Qed.

Lemma label_inj name a b rest rest' :
  chars (label name a) ++ rest = chars (label name b) ++ rest' → a = b ∧ rest = rest'.
Proof.
  unfold label. rewrite !chars_app, <- !app_assoc. intros E.
  do 3 apply (inj (app _)) in E. rewrite !escape_chars in E.
  apply (f_equal parseValue) in E. simpl in E.
  rewrite !parseValue_escape in E. injection E as E1 ->. split; [|done]. by apply chars_inj.
Qed.

Lemma upstreamLabel_inj a b : upstreamLabel a = upstreamLabel b → a = b.
Proof.
  intros E%chars_eq. apply (f_equal (fun l => l ++ [])) in E. by apply label_inj in E as [-> _].
Qed.

Lemma moduleLabels_inj m u m' u' : moduleLabels m u = moduleLabels m' u' → m = m' ∧ u = u'.
Proof.
  unfold moduleLabels. intros E%chars_eq. rewrite !chars_app in E.
  apply label_inj in E as [-> E]. split; [done|]. apply (inj (app _)) in E.
  apply upstreamLabel_inj. by apply chars_inj.
Qed.

(** Numbers need no escaping. *)
Definition plainChar (c : ascii) : Prop := c ≠ dquote ∧ c ≠ backslash.

Lemma pretty_N_char_plain x : plainChar (pretty_N_char x).
Proof. unfold pretty_N_char. repeat case_match; done. Qed.

Lemma pretty_N_go_plain x t : Forall plainChar (chars t) → Forall plainChar (chars (pretty_N_go x t)).
Proof.
  revert t. induction (N.lt_wf_0 x) as [x _ IH]; intros t Ht.
  assert (x = 0 ∨ 0 < x)%N as [->|?] by lia; [by rewrite pretty_N_go_0|].
  rewrite pretty_N_go_step by done. apply IH; [by apply N.div_lt|].
  constructor; [apply pretty_N_char_plain|done].
Qed.

Lemma itoa_plain i : Forall plainChar (chars (itoa i)).
Proof.
  unfold itoa, pretty, pretty_Z. destruct i as [|p|p].
  - by repeat constructor.
  - unfold pretty, pretty_positive, pretty, pretty_N. case_decide; [done|]. by apply pretty_N_go_plain.
  - rewrite chars_app. apply Forall_app. split; [by repeat constructor|].
    unfold pretty, pretty_positive, pretty, pretty_N. case_decide; [done|]. by apply pretty_N_go_plain.
Qed.

Lemma parseValue_plain v rest : Forall plainChar v → parseValue (v ++ dquote :: rest) = Some (v, rest).
Proof.
  induction 1 as [|c v [Hq Hb] _ IH]; [done|]. simpl. rewrite !decide_False by done. by rewrite IH.
Qed.

Lemma prometheusLabels_inj i m u i' m' u' :
  prometheusLabels i m u = prometheusLabels i' m' u' → i = i'.
Proof.
  unfold prometheusLabels. intros E%chars_eq. rewrite !chars_app in E.
  do 2 apply (inj (app _)) in E. apply (f_equal parseValue) in E. simpl in E.
  rewrite !parseValue_plain in E by apply itoa_plain. injection E as E _.
  by apply chars_inj, (inj pretty) in E.
Qed.

(** ** No series twice *)

Section series.
Context {A B : Type}.

Lemma NoDup_map_inj (f : A → B) (l : list A) :
  (∀ x y, x ∈ l → y ∈ l → f x = f y → x = y) → NoDup l → NoDup (map f l).
Proof.
  intros Hinj. induction 1 as [|x l Hx Hl IH]; simpl; [constructor|]. constructor.
  - intros Hin. apply list_elem_of_fmap in Hin as (y & E & Hy).
    apply Hinj in E; [by subst|by left|by right].
  - apply IH. intros y z Hy Hz. apply Hinj; by right.
Qed.

Lemma omap_labels (f : A → option (option string * string)) (g : A → option string) l :
  (∀ x y, f x = Some y → y.1 = g x) → map fst (omap f l) `sublist_of` map g l.
Proof.
  intros Hf. induction l as [|x l IH]; simpl; [done|].
  destruct (f x) as [y|] eqn:E; simpl; [|by constructor]. rewrite (Hf _ _ E). by constructor.
Qed.
End series.

Lemma sortedKeys_NoDup {A} (m : gmap (string * string) A) : NoDup (sortedKeys m).
Proof.
  unfold sortedKeys. rewrite merge_sort_Permutation. apply NoDup_fst_map_to_list.
Qed.

Section page_series.
Context {Q : Type} `{AdmissionControl Q} (queuedLen : Q → Z).
Context (s : Server Q) (cs : Counters) (active accepted now : Z) (connInfo : gmap Z ConnInfo).

(** The upstreams have names of their own, and the table of connections files each entry
    under its index. *)
Context (names : NoDup (map uc_Name (s_upstreams s))).
Context (indexed : ∀ i c, connInfo !! i = Some c → ci_Index c = i).

Lemma upstream_labels : NoDup (map (fun u => Some (upstreamLabel (uc_Name u))) (sortedUpstreams s)).
Proof.
  rewrite <- (map_map uc_Name (fun n => Some (upstreamLabel n))).
  apply NoDup_map_inj; [intros x y _ _ E%(inj Some); by apply upstreamLabel_inj|].
  unfold sortedUpstreams. by rewrite merge_sort_Permutation.
Qed.

Lemma perQueue_NoDup f : NoDup (map fst (perQueue s f)).
Proof.
  eapply sublist_NoDup; [apply upstream_labels|]. apply omap_labels.
  intros u y (ref & _ & (qu & _ & [= <-])%bind_Some)%bind_Some. done.
Qed.

Lemma perUpstream_NoDup f : NoDup (map fst (perUpstreamSamples s cs f)).
Proof. unfold perUpstreamSamples. rewrite map_map. apply upstream_labels. Qed.

Lemma connections_NoDup : NoDup (map ci_Index (connections connInfo)).
Proof.
  unfold connections, ListConnectionInfo. rewrite merge_sort_Permutation.
  replace (map ci_Index (map snd (map_to_list connInfo))) with (map fst (map_to_list connInfo));
    [apply NoDup_fst_map_to_list|].
  rewrite map_map. apply map_ext_in. intros [i c] Hin. simpl. symmetry. apply indexed.
  by apply elem_of_map_to_list, list_elem_of_In.
Qed.

Lemma perConnection_NoDup f : NoDup (map fst (perConnection connInfo f)).
Proof.
  unfold perConnection. rewrite map_map. simpl.
  assert (Hi : ∀ l : list ConnInfo, NoDup (map ci_Index l) →
    NoDup (map (fun c => Some (prometheusLabels (ci_Index c) (ci_Module c) (ci_Upstream c))) l)).
  { induction l as [|c l IH]; simpl; [constructor|]. rewrite !NoDup_cons. intros [Hn Hl].
    split; [|by apply IH]. intros Hin. apply Hn.
    apply list_elem_of_fmap in Hin as (c' & E%(inj Some) & Hc'). apply prometheusLabels_inj in E.
    apply list_elem_of_fmap. by exists c'. }
  apply Hi, connections_NoDup.
Qed.

Lemma keyed_NoDup {A} (m : gmap (string * string) A) (f : string * string → string) :
  NoDup (map fst (map (fun k => (Some (moduleLabels k.1 k.2), f k)) (sortedKeys m))).
Proof.
  rewrite map_map. apply NoDup_map_inj; [|apply sortedKeys_NoDup].
  intros [x1 x2] [y1 y2] _ _ E%(inj Some). apply moduleLabels_inj in E as [E1 E2]. simpl in *.
  congruence.
Qed.

(** No series appears twice on the metrics page, which Prometheus would reject:
    the families have names of their own, and within a family no two samples have the
    same labels, whatever modules clients asked for. *)
Theorem metrics_no_duplicates :
  NoDup (map f_name (metrics queuedLen s cs active accepted now connInfo)) ∧
  Forall (fun f => NoDup (map fst (f_samples f))) (metrics queuedLen s cs active accepted now connInfo).
Proof.
  split; [apply (bool_decide_eq_true_1 (NoDup _)); by vm_compute|].
  unfold metrics, perModuleSamples, groupSamples.
  repeat apply Forall_cons_2; try apply Forall_nil_2; simpl;
    first [apply perQueue_NoDup | apply perUpstream_NoDup | apply perConnection_NoDup
          | apply keyed_NoDup | apply NoDup_singleton].
Qed.
End page_series.

(** ** Groups *)

Lemma connectionCounts_fold cs m k :
  default 0 (foldl countGroup m cs !! k) =
    default 0 (m !! k) + Z.of_nat (length (filter (fun c => connectionGroup c = k) cs)).
Proof.
  revert m. induction cs as [|c cs IH]; intros m; simpl; [lia|]. rewrite IH, filter_cons.
  unfold countGroup. rewrite lookup_insert. repeat case_decide; subst; simpl; try done; lia.
Qed.

(** The gauge of a module and upstream is the number of connections with these labels,
    an empty label and "unknown" counting as one; the connections are listed once each, by
    index. *)
Theorem metrics_groups_exact connInfo k :
  default 0 (connectionCounts (ListConnectionInfo connInfo) !! k) =
    Z.of_nat (length (filter (fun c => connectionGroup c = k) (map snd (map_to_list connInfo)))) ∧
  Sorted indexLe (ListConnectionInfo connInfo).
Proof.
  unfold connectionCounts, ListConnectionInfo. split.
  - rewrite connectionCounts_fold, lookup_empty. cbn [default]. rewrite Z.add_0_l.
    by rewrite (merge_sort_Permutation indexLe).
  - apply Sorted_merge_sort. intros a b. unfold indexLe. lia.
Qed.

(** ** Instances *)

Section instances.
Definition demoInfo (i : Z) (m : string) : ConnInfo :=
  mkInfo i "192.0.2.1:873" "192.0.2.7:40000" (100 * second) m "a" 5 10.
Definition demoConns : gmap Z ConnInfo :=
  list_to_map [(2, demoInfo 2 "debian"); (1, demoInfo 1 ""); (3, demoInfo 3 "debian")].

Definition demoQueued (w : Queue.AdmissionQueue.World) : Z :=
  Z.of_nat (length (Queue.AdmissionQueue.queued (Queue.AdmissionQueue.q w))).

Lemma demoConns_indexed i c : demoConns !! i = Some c → ci_Index c = i.
Proof.
  intros H.
  assert (Hall : bool_decide (map_Forall (fun i c => ci_Index c = i) demoConns) = true) by (vm_compute; reflexivity).
  exact (bool_decide_eq_true_1 _ Hall i c H).
Qed.

Lemma metrics_no_duplicates_witness :
  NoDup (map f_name (metrics demoQueued demoServer noCounters 3 7 (160 * second) demoConns)).
Proof.
  apply (metrics_no_duplicates demoQueued demoServer noCounters 3 7 (160 * second) demoConns).
  - apply (bool_decide_eq_true_1 (NoDup _)). vm_compute. reflexivity.
  - exact demoConns_indexed.
Defined.

(** The samples of one family, as text. *)
Example groups_text :
  String.concat "" (map (renderSample "n") (groupSamples demoConns)) =
    "n{module=" +:+ DQ +:+ "debian" +:+ DQ +:+ ",upstream=" +:+ DQ +:+ "a" +:+ DQ +:+ "} 2" +:+ LF +:+
    "n{module=" +:+ DQ +:+ "unknown" +:+ DQ +:+ ",upstream=" +:+ DQ +:+ "a" +:+ DQ +:+ "} 1" +:+ LF.
Proof. by vm_compute. Qed.
End instances.
