(* ===== verification/Http.v ===== *)
(** * The admin endpoints: [runHTTPServer] and [ReadConfigFromFile]

    A request is its method, path and query; a response its status code and a body,
    where JSON is kept as the data it encodes ([Pages] has the texts).  [serve] is the whole mux: what each
    endpoint answers and what it does to the server. *)
From S2P Require Import Prelude GoStd Net Upstreams Admission Logging ServerConfig Relay Metrics.
Open Scope Z_scope.

(** ** Requests and responses *)

Record Request := mkRequest {
  h_Method : string;
  h_Path : string;
  h_Query : list (string * string) }.   (* url.Values, in order *)

Inductive Body :=
  | NoBody
  | Message (message : string)                         (* {"message": ...} *)
  | Modules (modules : option (list string))           (* {"modules": [...]}, or null *)
  | StatusPage (count : Z) (connections : list ConnInfo)
  | Text (t : string).

Record Response := mkResponse { h_Code : Z; h_Body : Body }.

Definition StatusOK : Z := 200.
Definition StatusBadRequest : Z := 400.
Definition StatusNotFound : Z := 404.
Definition StatusMethodNotAllowed : Z := 405.
Definition StatusInternalServerError : Z := 500.

(** [r.URL.Query()\[name\]] *)
Definition queryValues (name : string) (r : Request) : list string :=
  map snd (filter (fun p => p.1 = name) (h_Query r)).
(** [r.URL.Query().Get(name)] *)
Definition queryGet (name : string) (r : Request) : string := default "" (head (queryValues name r)).

(** [strconv.ParseBool] *)
Definition parseBool (s : string) : option bool :=
  if bool_decide (s ∈ ["1"; "t"; "T"; "true"; "TRUE"; "True"]) then Some true
  else if bool_decide (s ∈ ["0"; "f"; "F"; "false"; "FALSE"; "False"]) then Some false
  else None.

(** [strings.Contains] *)
Fixpoint contains (s sub : string) : bool :=
  hasPrefix s sub || match s with EmptyString => false | String _ rest => contains rest sub end.

(** [append([]string(nil), l...)] is nil when there is nothing to append. *)
Definition appendNil (l : list string) : option (list string) := match l with [] => None | _ => Some l end.

(** ** Endpoints *)

Section http.
Context {Q : Type} `{AdmissionControl Q} (queuedLen : Q → Z).

(** The environment of a load, as in [ServerConfig]; what opening and decoding the
    configuration file gives; the page of the Prometheus library; the host name. *)
Context (loadX509KeyPair : string → string → result string).
Context (resolveTCPAddr : string → option error).
Context (dial : Dialer → string → result Conn).
Context (openLogFile : string → option error).
Context (configFile : result Config).
Context (promhttp : string) (hostname : string).

(** [ReadConfigFromFile], [ReadConfig] *)
Definition ReadConfigFromFile (openLog : bool) (s : Server Q) : outcome (result unit * Server Q) :=
  match configFile with
  | Err e => Done (Err e, s)
  | Ret c => loadConfig loadX509KeyPair resolveTCPAddr dial openLogFile c openLog s
  end.

(** What the handlers read besides the configuration: counters, time, connections. *)
Record Live := mkLive {
  l_counters : Counters; l_active : Z; l_accepted : Z; l_now : Z; l_conns : gmap Z ConnInfo }.

(** [force_discover]: its first value, if any. *)
Definition forceDiscover (r : Request) : option bool :=
  match queryValues "force_discover" r with [] => Some false | v :: _ => parseBool v end.

Definition upstreamModules (s : Server Q) (r : Request) : outcome Response :=
  if decide (h_Method r ≠ "GET") then Done (mkResponse StatusMethodNotAllowed NoBody)
  else
    let name := queryGet "name" r in
    if decide (name = "") then Done (mkResponse StatusBadRequest (Message "missing upstream name"))
    else match forceDiscover r with
         | None => Done (mkResponse StatusBadRequest (Message "invalid force_discover value"))
         | Some force =>
             match ListUpstreamModules (dial (s_dialer s)) (s_upstreams s) name force with
             | None => Blocked
             | Some (Err e) =>
                 Done (mkResponse (if contains e "unknown upstream" then StatusNotFound
                                   else StatusInternalServerError) (Message e))
             | Some (Ret modules) => 
                 Done (mkResponse StatusOK (Modules (if force then Some modules else appendNil modules)))
             end
         end.

Definition reload (s : Server Q) (r : Request) : outcome (Response * Server Q) :=
  if decide (h_Method r ≠ "POST") then Done (mkResponse StatusMethodNotAllowed NoBody, s)
  else
    '(res, s') ← ReadConfigFromFile true s;
    mret (match res with
          | Err _ => mkResponse StatusInternalServerError (Message "Failed to reload config")
          | Ret _ => mkResponse StatusOK (Message "Successfully reloaded")
          end, s').

(** Endpoints that only read answer to GET alone. *)
Definition onGet (r : Request) (b : Body) : Response :=
  if decide (h_Method r ≠ "GET") then mkResponse StatusMethodNotAllowed NoBody
  else mkResponse StatusOK b.

Definition status (l : Live) : Body :=
  let cs := ListConnectionInfo (l_conns l) in StatusPage (Z.of_nat (length cs)) cs.
Definition telegraf (l : Live) : Body :=
  Text ("rsync-proxy,host=" +:+ hostname +:+ " count=" +:+ itoa (l_active l) +:+ " "
          +:+ itoa (l_now l - l_now l mod second) +:+ LF).
Definition metricsPage (s : Server Q) (l : Live) : Body :=
  Text (promhttp +:+ writePrometheusMetrics queuedLen s (l_counters l) (l_active l) (l_accepted l)
          (l_now l) (l_conns l)).

(** The mux, for a path in canonical form (a path with empty, [.] or [..] elements the mux of
    [net/http] answers itself, with a redirect to its canonical form). *)
Definition serve (l : Live) (r : Request) (s : Server Q) : outcome (Response * Server Q) :=
  if decide (h_Path r = "/upstream-modules") then
    resp ← upstreamModules s r; mret (resp, s)
  else if decide (h_Path r = "/reload") then reload s r
  else if decide (h_Path r = "/status") then mret (onGet r (status l), s)
  else if decide (h_Path r = "/telegraf") then mret (onGet r (telegraf l), s)
  else if decide (h_Path r = "/metrics") then mret (onGet r (metricsPage s l), s)
  else mret (mkResponse StatusNotFound (Text ("404 page not found" +:+ LF)), s).
End http.

(** ** What requests can do *)

Section requests.
Context {Q : Type} `{AdmissionControl Q} (queuedLen : Q → Z).
Context (loadX509KeyPair : string → string → result string).
Context (resolveTCPAddr : string → option error).
Context (dial : Dialer → string → result Conn).
Context (openLogFile : string → option error).
Context (configFile : result Config) (promhttp hostname : string).

Abbreviation serve' :=
  (serve queuedLen loadX509KeyPair resolveTCPAddr dial openLogFile configFile promhttp hostname).

Lemma ListUpstreamModules_total d ups name force :
  is_Some (ListUpstreamModules d ups name force).
Proof.
  induction ups as [|u ups IH]; simpl; [done|]. case_decide; [done|]. destruct force; [|done].
  destruct (discoverModules_total d u) as [res ->]. simpl. by destruct res.
Qed.

Lemma upstreamModules_total (s : Server Q) r : ∃ resp, upstreamModules dial s r = Done resp.
Proof.
  unfold upstreamModules. case_decide; [by eexists|]. case_decide; [by eexists|].
  destruct (forceDiscover r) as [force|]; [|by eexists].
  destruct (ListUpstreamModules_total (dial (s_dialer s)) (s_upstreams s) (queryGet "name" r) force)
    as [[modules|e] ->]; by eexists.
Qed.

(** What a request did to the server: a reload that was answered with 200 loaded the file; one
    that was answered with 500 left everything as it was when there was no file to load, and
    what clients are served by in any case; every other request left everything. *)
Definition effect (r : Request) (resp : Response) (s s' : Server Q) : Prop :=
  if decide (h_Path r = "/reload" ∧ h_Method r = "POST") then
    match configFile with
    | Err _ => h_Code resp = StatusInternalServerError ∧ s' = s
    | Ret c =>
        h_Code resp = StatusOK ∧
          loadConfig loadX509KeyPair resolveTCPAddr dial openLogFile c true s = Done (Ret tt, s') ∨
        h_Code resp = StatusInternalServerError ∧ sameTables s s' ∧
          ∃ e, loadConfig loadX509KeyPair resolveTCPAddr dial openLogFile c true s = Done (Err e, s')
    end
  else s' = s.

Lemma reload_run s r :
  wfServer s → h_Path r = "/reload" →
  ∃ resp s', reload loadX509KeyPair resolveTCPAddr dial openLogFile configFile s r = Done (resp, s') ∧
    wfServer s' ∧ effect r resp s s'.
Proof.
  intros Hwf Hpath. unfold reload. case_decide as Hm.
  { eexists _, s. split; [done|]. split; [done|]. unfold effect. by rewrite decide_False by tauto. }
  assert (h_Path r = "/reload" ∧ h_Method r = "POST") as Hp by (split; [done|]; destruct (decide (h_Method r = "POST")); [done|by destruct Hm]).
  unfold ReadConfigFromFile, effect. destruct configFile as [c|e].
  2: { eexists _, s. split; [done|]. split; [done|]. by rewrite decide_True by done. }
  destruct (load_cases loadX509KeyPair resolveTCPAddr dial openLogFile c true s) as (res & s' & E & Hr);
    [apply Hwf|].
  unfold mbind, outcome_bind. rewrite E. eexists _, s'. split; [reflexivity|]. rewrite decide_True by done.
  destruct res as [[]|e]; simpl.
  - destruct Hr as (_ & _ & _ & _ & _ & Hwf' & _). auto.
  - split; [by apply (sameTables_wf s)|]. right. eauto.
Qed.

Lemma serve_run l r s :
  wfServer s → ∃ resp s', serve' l r s = Done (resp, s') ∧ wfServer s' ∧ effect r resp s s'.
Proof.
  intros Hwf. unfold serve.
  assert (∀ resp, h_Path r ≠ "/reload" → effect r resp s s) as Hsame.
  { intros resp Hp. unfold effect. by rewrite decide_False by tauto. }
  case_decide as H1.
  { destruct (upstreamModules_total s r) as [resp ->]. exists resp, s. split_and!; [done|done|].
    apply Hsame. by rewrite H1. }
  case_decide as H2; [by apply reload_run|].
  repeat case_decide; eexists _, s; (split; [reflexivity|]); auto.
Qed.

(** C30: Every request to the admin endpoints is answered, and only one kind of request
    changes the server in any way: a POST to /reload.  If that answers 200 the server is as
    loading the configuration file leaves it; otherwise it answers 500, and then nothing
    changed when the file could not be read, and when its content was refused what clients are
    served by did not (module table, upstreams, queues, certificate, timings, dialer). *)
Theorem admin_only_reload_changes l r s :
  wfServer s → ∃ resp s', serve' l r s = Done (resp, s') ∧ wfServer s' ∧ effect r resp s s'.
Proof. apply serve_run. Qed.

Lemma ListUpstreamModules_unknown d ups name force :
  name ∉ map uc_Name ups →
  ListUpstreamModules d ups name force = Some (Err ("unknown upstream: " +:+ name)).
Proof.
  induction ups as [|u ups IH]; simpl; [done|]. rewrite not_elem_of_cons. intros [Hn Hr].
  rewrite decide_True by congruence. by apply IH.
Qed.

Lemma ListUpstreamModules_known d ups u :
  NoDup (map uc_Name ups) → u ∈ ups →
  ListUpstreamModules d ups (uc_Name u) false = Some (Ret (sortStrings (uc_Modules u))).
Proof.
  induction ups as [|v ups IH]; simpl; [intros _ H'; elem_nil|]. rewrite NoDup_cons. intros [Hv Hnd] Hu.
  apply elem_of_cons in Hu as [->|Hu]; [by rewrite decide_False by auto|].
  rewrite decide_True; [by apply IH|]. intros E. apply Hv. rewrite E. apply list_elem_of_fmap. by exists u.
Qed.

Lemma contains_prefix s sub : contains (sub +:+ s) sub = true.
Proof.
  assert (hasPrefix (sub +:+ s) sub = true) as Hp.
  { unfold hasPrefix. induction sub as [|c sub IH]; [by destruct s|]. simpl.
    destruct (Ascii.ascii_dec c c); [done|congruence]. }
  unfold contains. destruct (sub +:+ s); by rewrite Hp.
Qed.

(** The modules page: for a configured upstream its modules, sorted and without asking the
    upstream; 404 for any other name; 400 without a name. *)
Theorem upstream_modules_answers (s : Server Q) r :
  h_Method r = "GET" → queryValues "force_discover" r = [] → NoDup (map uc_Name (s_upstreams s)) →
  (∀ u, u ∈ s_upstreams s → queryGet "name" r = uc_Name u → uc_Name u ≠ "" →
     upstreamModules dial s r = Done (mkResponse StatusOK (Modules (appendNil (sortStrings (uc_Modules u)))))) ∧
  (queryGet "name" r ≠ "" → queryGet "name" r ∉ map uc_Name (s_upstreams s) →
     ∃ msg, upstreamModules dial s r = Done (mkResponse StatusNotFound (Message msg))) ∧
  (queryGet "name" r = "" → ∃ msg, upstreamModules dial s r = Done (mkResponse StatusBadRequest (Message msg))).
Proof.
  intros Hm Hf Hnd. unfold upstreamModules, forceDiscover. rewrite Hm, Hf. rewrite decide_False by auto.
  split_and!.
  - intros u Hu -> Hne. rewrite decide_False by done. by rewrite ListUpstreamModules_known.
  - intros Hne Hn. rewrite decide_False by done. rewrite ListUpstreamModules_unknown by done.
    eexists.
    assert (contains ("unknown upstream: " +:+ queryGet "name" r) "unknown upstream" = true) as ->
      by exact (contains_prefix (": " +:+ queryGet "name" r) "unknown upstream").
    reflexivity.
  - intros ->. by eexists.
Qed.
End requests.

(** ** A variable two requests share

    The handler of /upstream-modules assigns the result of [strconv.ParseBool] to the
    variable [err] of [runHTTPServer], one variable for all requests, and then tests it.
    Each request assigns and tests; other requests may run in between. *)

Inductive RaceStep := Assign (value : string) | Test.

(** The tests of a sequence of steps on the shared variable: whether they pass. *)
Fixpoint raceRun (errSet : bool) (steps : list RaceStep) : list bool :=
  match steps with
  | [] => []
  | Assign v :: rest => raceRun (match parseBool v with None => true | Some _ => false end) rest
  | Test :: rest => negb errSet :: raceRun errSet rest
  end.

(** Undisturbed, a request with a valid value passes; with another one in between it is
    refused. *)
Example force_discover_race :
  raceRun false [Assign "true"; Test] = [true] ∧
  raceRun false [Assign "true"; Assign "maybe"; Test; Test] = [false; false].
Proof. done. Qed.

(** ** Instances *)

Section instances.
Definition demoLive : Live := mkLive noCounters 3 7 (160 * second) demoConns.
Definition get (path : string) (query : list (string * string)) : Request := mkRequest "GET" path query.

Lemma admin_only_reload_changes_witness :
  (∃ resp s', serve demoQueued noTLS resolves noDial noFiles (Ret demoConfig) "" "h" demoLive
      (mkRequest "POST" "/reload" []) demoServer = Done (resp, s') ∧ wfServer s') ∧
  (∃ resp, serve demoQueued noTLS resolves noDial noFiles (Ret demoConfig) "" "h" demoLive
      (get "/reload" []) demoServer = Done (resp, demoServer)).
Proof.
  split.
  - destruct (admin_only_reload_changes demoQueued noTLS resolves noDial noFiles (Ret demoConfig) "" "h"
      demoLive (mkRequest "POST" "/reload" []) demoServer demoServer_wf) as (resp & s' & E & Hwf & _).
    exists resp, s'. exact (conj E Hwf).
  - destruct (admin_only_reload_changes demoQueued noTLS resolves noDial noFiles (Ret demoConfig) "" "h"
      demoLive (get "/reload" []) demoServer demoServer_wf) as (resp & s' & E & _ & He).
    assert (s' = demoServer) as -> by exact He. exists resp. exact E.
Defined.

Lemma upstream_modules_answers_witness :
  ∃ msg, upstreamModules noDial demoServer (get "/upstream-modules" [("name", "c")]) =
    Done (mkResponse StatusNotFound (Message msg)).
Proof.
  destruct (upstream_modules_answers noDial demoServer (get "/upstream-modules" [("name", "c")]))
    as (_ & Hu & _).
  - reflexivity.
  - reflexivity.
  - apply (bool_decide_eq_true_1 (NoDup _)). vm_compute. reflexivity.
  - apply Hu; [discriminate|]. apply (bool_decide_eq_false_1 (_ ∈ _)). vm_compute. reflexivity.
Defined.
End instances.
