(* ===== verification/Pages.v ===== *)
(** * The texts of the admin pages, and what a client reads in them

    [Http] answers with data; here are the bytes [json.NewEncoder(w).Encode] makes of it
    ([connInfoSnapshot], the anonymous structs of [runHTTPServer]), and the structs the
    commands of [cmd/cmd.go] decode them into. *)
From S2P Require Import Prelude GoStd Numerals Runes GoTime Json Net Upstreams Admission Logging ServerConfig Relay.
From S2P Require Import Metrics Http.
Open Scope Z_scope.

Definition jint (n : Z) : Json := JNum (chars (itoa n)).
Definition jstring (s : string) : Json := JStr (chars s).
Definition jfield (name : string) (v : Json) : list ascii * Json := (chars name, v).

(** ** Writing *)

Section write.
(** The zone of the server: seconds east of UTC at a time. *)
Context (zone : Z → Z).

(** What is shown of a connection, read at one moment. *)
Record connInfoSnapshot := mkSnapshot {
  sn_Index : Z; sn_LocalAddr : string; sn_RemoteAddr : string; sn_ConnectedAt : Z;
  sn_Module : string; sn_Upstream : string; sn_SentBytes : Z; sn_ReceivedBytes : Z }.

Definition snapshot (c : ConnInfo) : connInfoSnapshot :=
  mkSnapshot (ci_Index c) (ci_LocalAddr c) (ci_RemoteAddr c) (ci_ConnectedAt c)
    (ci_Module c) (ci_Upstream c) (ci_SentBytes c) (ci_ReceivedBytes c).

(** [json.Marshal] of it, with the names of its tags. *)
Definition snapshotJson (c : connInfoSnapshot) : result Json :=
  connected ← marshalTime (sn_ConnectedAt c) (zone (sn_ConnectedAt c));
  mret (JObj [jfield "index" (jint (sn_Index c)); jfield "local" (jstring (sn_LocalAddr c));
              jfield "remote" (jstring (sn_RemoteAddr c)); jfield "connected" (jstring connected);
              jfield "module" (jstring (sn_Module c)); jfield "upstream" (jstring (sn_Upstream c));
              jfield "sentBytes" (jint (sn_SentBytes c)); jfield "receivedBytes" (jint (sn_ReceivedBytes c))]).
Definition MarshalJSON (c : ConnInfo) : result Json := snapshotJson (snapshot c).

Fixpoint mapResult {A B} (f : A → result B) (l : list A) : result (list B) :=
  match l with [] => Ret [] | x :: l => y ← f x; ys ← mapResult f l; mret (y :: ys) end.

Definition statusJson (count : Z) (cs : list ConnInfo) : result Json :=
  connections ← mapResult MarshalJSON cs;
  mret (JObj [jfield "count" (jint count); jfield "connections" (JArr connections)]).

Definition messageJson (m : string) : Json := JObj [jfield "message" (jstring m)].
Definition modulesJson (ms : option (list string)) : Json :=
  JObj [jfield "modules" (match ms with None => JNull | Some ms => JArr (map jstring ms) end)].

(** The body of a response; an error of [Encode] leaves it empty. *)
Definition bodyText (b : Body) : list ascii :=
  match b with
  | NoBody => []
  | Message m => encode compact (messageJson m)
  | Modules ms => encode compact (modulesJson ms)
  | StatusPage count cs => match statusJson count cs with Ret v => encode compact v | Err _ => [] end
  | Text t => chars t
  end.
End write.

(** ** Reading: [json.NewDecoder(r).Decode(&result)] *)

(** [strconv.ParseInt(s, 10, 64)] *)
Definition parseInt64 (l : list ascii) : option Z :=
  let '(neg, ds) := match l with
                    | c :: r => if Ascii.eqb c "-" then (true, r) else (false, l)
                    | [] => (false, []) end in
  match ds with
  | [] => None
  | _ => v ← parseDigits 0 ds;
         let n := if neg then - v else v in
         if (- 2 ^ 63 <=? n) && (n <? 2 ^ 63) then Some n else None
  end.

(** Keys are matched without regard to case; two runes fold to ASCII letters. *)
Definition foldRune (r : Rune) : list ascii :=
  match r with
  | Valid [c] => [if isLower c then ascii_of_N (N_of_ascii c - 32) else c]
  | Valid l => if bool_decide (l = [chr 226; chr 132; chr 170]) then ["K"%char]
               else if bool_decide (l = [chr 197; chr 191]) then ["S"%char] else l
  | Invalid b => [b]
  end.
Definition foldName (key : list ascii) : list ascii := concat (map foldRune (runes key)).

(** One field of a struct: every key that matches assigns, in order. *)
Definition fieldOf {T} (dec : T → Json → option T) (name : string) (zero : T) (fs : list (list ascii * Json)) : option T :=
  foldl (fun acc f => x ← acc; if decide (foldName f.1 = foldName (chars name)) then dec x f.2 else Some x) (Some zero) fs.

(** [null] leaves a value as it is; a value of another type is an error. *)
Definition decInt (x : Z) (v : Json) : option Z :=
  match v with JNull => Some x | JNum lit => parseInt64 lit | _ => None end.
Definition decString (x : string) (v : Json) : option string :=
  match v with JNull => Some x | JStr s => Some (text s) | _ => None end.
(** A time and the zone it is shown in; escapes in the text of a date are not told apart. *)
Definition decTime (x : Z * Z) (v : Json) : option (Z * Z) :=
  match v with JNull => Some x | JStr s => unmarshalTime s | _ => None end.
Definition decSlice {T} (dec : Json → option T) (_ : list T) (v : Json) : option (list T) :=
  match v with JNull => Some [] | JArr vs => mapM dec vs | _ => None end.

(** The zero [time.Time]: January 1, year 1, UTC. *)
Definition zeroTime : Z * Z := (- 62135596800 * second, 0).

(** An element of [result.Connections] of [SendConnectionsRequest]. *)
Record ConnEntry := mkEntry {
  e_Index : Z; e_RemoteAddr : string; e_Module : string; e_Upstream : string;
  e_ConnectedAt : Z * Z; e_ReceivedBytes : Z; e_SentBytes : Z }.
Definition zeroEntry : ConnEntry := mkEntry 0 "" "" "" zeroTime 0 0.

Definition decEntry (v : Json) : option ConnEntry :=
  match v with
  | JNull => Some zeroEntry
  | JObj fs =>
      index ← fieldOf decInt "index" 0 fs; remote ← fieldOf decString "remote" "" fs;
      module ← fieldOf decString "module" "" fs; upstream ← fieldOf decString "upstream" "" fs;
      connected ← fieldOf decTime "connected" zeroTime fs;
      received ← fieldOf decInt "receivedBytes" 0 fs; sent ← fieldOf decInt "sentBytes" 0 fs;
      Some (mkEntry index remote module upstream connected received sent)
  | _ => None
  end.

(** The page of /status: the connections and their number. *)
Definition decodeStatus (l : list ascii) : option (list ConnEntry * Z) :=
  v ← parse l;
  match v with
  | JNull => Some ([], 0)
  | JObj fs =>
      connections ← fieldOf (decSlice decEntry) "connections" [] fs;
      count ← fieldOf decInt "count" 0 fs;
      Some (connections, count)
  | _ => None
  end.

(** The local addresses on the page, which the commands do not read. *)
Definition localOf (v : Json) : option string :=
  match v with JObj fs => fieldOf decString "local" "" fs | _ => None end.
Definition decodeLocals (l : list ascii) : option (list string) :=
  v ← parse l;
  match v with JObj fs => fieldOf (decSlice localOf) "connections" [] fs | _ => None end.

(** The page of /upstream-modules. *)
Definition decodeModules (l : list ascii) : option (list string) :=
  v ← parse l;
  match v with
  | JNull => Some []
  | JObj fs => fieldOf (decSlice (decString "")) "modules" [] fs
  | _ => None
  end.

Example decode_folded : decodeModules (chars ("{" +:+ DQ +:+ "Modules" +:+ DQ +:+ ":[" +:+ DQ +:+ "a" +:+ DQ +:+ ", null]}")) =
  Some ["a"; ""].
Proof. reflexivity. Qed.
Example decode_wrong_type : decodeStatus (chars ("{" +:+ DQ +:+ "count" +:+ DQ +:+ ":1.5}")) = None.
Proof. reflexivity. Qed.

(** ** A page is read as it was written *)

(** A string with the bytes that are not UTF-8 replaced. *)
Definition shownString (s : string) : string := text (sanitizeUTF8 (chars s)).

Lemma parseInt64_itoa z : inInt64 z → parseInt64 (chars (itoa z)) = Some z.
Proof.
  intros Hz. unfold parseInt64.
  assert (∀ n, 0 ≤ n → parseDigits 0 (chars (itoa n)) = Some n) as Hd.
  { intros n Hn. rewrite parseDigits_value by (by apply itoa_digits). rewrite text_chars. f_equal. by apply itoa_value. }
  assert (∀ v, (if (- 2 ^ 63 <=? v) && (v <? 2 ^ 63) then Some v else None) = if decide (inInt64 v) then Some v else None) as Hr.
  { intros v. unfold inInt64. destruct (Z.leb_spec (- 2 ^ 63) v), (Z.ltb_spec v (2 ^ 63)); case_decide; simpl; try done; lia. }
  destruct (Z.lt_ge_cases z 0) as [Hneg|Hpos].
  - rewrite itoa_neg, chars_app by done. simpl. destruct (number_first (- z)) as (c & l & E & _). rewrite E, <- E, Hd by lia.
    cbn [mbind option_bind]. rewrite Hr, Z.opp_involutive. by rewrite decide_True.
  - destruct (number_first z) as (c & l & E & Hc). specialize (Hd z ltac:(lia)). rewrite E in *.
    assert (Ascii.eqb c "-" = false) as ->.
    { pose proof (itoa_digits z ltac:(lia)) as Hdig. rewrite E in Hdig. apply Forall_cons in Hdig as [Hdc _].
      apply Ascii.eqb_neq. by intros ->. }
    rewrite Hd. cbn [mbind option_bind]. rewrite Hr. by rewrite decide_True.
Qed.

Lemma fieldOf_none {T} (dec : T → Json → option T) name fs :
  foldl (fun acc f => x ← acc; if decide (foldName f.1 = foldName (chars name)) then dec x f.2 else Some x) None fs = None.
Proof. by induction fs. Qed.

Lemma fieldOf_cons {T} (dec : T → Json → option T) name zero f fs :
  fieldOf dec name zero (f :: fs) =
    if decide (foldName f.1 = foldName (chars name)) then x ← dec zero f.2; fieldOf dec name x fs
    else fieldOf dec name zero fs.
Proof.
  unfold fieldOf. simpl. case_decide; [|done]. destruct (dec zero f.2); [done|]. apply fieldOf_none.
Qed.

Lemma fieldOf_nil {T} (dec : T → Json → option T) name zero : fieldOf dec name zero [] = Some zero.
Proof. done. Qed.

(** Reads the fields of a struct whose keys are known; [found] decodes a value that was found. *)
Local Ltac read_fields found :=
  repeat first
    [ rewrite fieldOf_nil
    | rewrite fieldOf_cons; cbn [fst snd];
      first [ rewrite decide_False by (vm_compute; congruence)
            | rewrite decide_True by (vm_compute; reflexivity); cbn [decInt decString decTime decSlice]; found ] ];
  cbn [mbind option_bind].

(** What the entry of a connection says. *)
Definition shownConn (zone : Z → Z) (c : ConnInfo) : ConnEntry :=
  mkEntry (ci_Index c) (shownString (ci_RemoteAddr c)) (shownString (ci_Module c)) (shownString (ci_Upstream c))
    (ci_ConnectedAt c, zone (ci_ConnectedAt c)) (ci_ReceivedBytes c) (ci_SentBytes c).

(** A connection whose numbers fit and whose time can be written. *)
Record writable (zone : Z → Z) (c : ConnInfo) : Prop := {
  wr_index : inInt64 (ci_Index c);
  wr_sent : inInt64 (ci_SentBytes c);
  wr_received : inInt64 (ci_ReceivedBytes c);
  wr_second : ci_ConnectedAt c mod second = 0;
  wr_minute : zone (ci_ConnectedAt c) mod 60 = 0;
  wr_time : ∃ s, marshalTime (ci_ConnectedAt c) (zone (ci_ConnectedAt c)) = Ret s }.

Lemma connected_read t offset s :
  t mod second = 0 → offset mod 60 = 0 → marshalTime t offset = Ret s →
  unmarshalTime (sanitizeUTF8 (chars s)) = Some (t, offset).
Proof. intros Ht Ho Hs. rewrite sanitize_ascii by (by eapply marshalTime_ascii). by apply time_read_back. Qed.

Lemma entry_read zone c :
  writable zone c →
  ∃ v, MarshalJSON zone c = Ret v ∧ sane v ∧ decEntry (clean v) = Some (shownConn zone c) ∧
    localOf (clean v) = Some (shownString (ci_LocalAddr c)).
Proof.
  intros [H1 H2 H3 H4 H5 [s Hs]]. unfold MarshalJSON, snapshotJson, snapshot.
  cbn [sn_Index sn_LocalAddr sn_RemoteAddr sn_ConnectedAt sn_Module sn_Upstream sn_SentBytes sn_ReceivedBytes].
  rewrite Hs. eexists. split; [reflexivity|].
  split; [repeat split; by eexists|]. unfold jfield, jint, jstring. cbn [clean map fst snd decEntry localOf].
  split; [|by read_fields idtac].
  do 7 read_fields ltac:(rewrite ?parseInt64_itoa by done; rewrite ?(connected_read _ _ s H4 H5 Hs); cbn [mbind option_bind]).
  done.
Qed.

Lemma entries_read zone cs :
  Forall (writable zone) cs →
  ∃ vs, mapResult (MarshalJSON zone) cs = Ret vs ∧ Forall sane vs ∧
    mapM decEntry (map clean vs) = Some (map (shownConn zone) cs) ∧
    mapM localOf (map clean vs) = Some (map (fun c => shownString (ci_LocalAddr c)) cs).
Proof.
  induction 1 as [|c cs Hc _ IH]; [by exists []|].
  destruct (entry_read zone c Hc) as (v & E & Hv & Ev & El), IH as (vs & Es & Hvs & Evs & Els).
  exists (v :: vs). simpl. rewrite E. simpl. rewrite Es. simpl. rewrite Ev, El. simpl. rewrite Evs, Els. auto.
Qed.

(** What the page of /status parses to. *)
Lemma status_parse zone n cs :
  Forall (writable zone) cs →
  ∃ vs, parse (bodyText zone (StatusPage n cs)) =
      Some (JObj [(sanitizeUTF8 (chars "count"), jint n); (sanitizeUTF8 (chars "connections"), JArr (map clean vs))]) ∧
    mapM decEntry (map clean vs) = Some (map (shownConn zone) cs) ∧
    mapM localOf (map clean vs) = Some (map (fun c => shownString (ci_LocalAddr c)) cs).
Proof.
  intros Hcs. destruct (entries_read zone cs Hcs) as (vs & E & Hs & Ed & El). exists vs. split; [|done].
  cbn [bodyText]. unfold statusJson. rewrite E. cbn [mbind result_bind mret result_ret].
  by rewrite parse_encode by (apply blank_compact || (split; [by eexists|split; [by apply sane_arr|done]])).
Qed.

Lemma status_read zone n cs :
  inInt64 n → Forall (writable zone) cs →
  decodeStatus (bodyText zone (StatusPage n cs)) = Some (map (shownConn zone) cs, n).
Proof.
  intros Hn Hcs. destruct (status_parse zone n cs Hcs) as (vs & E & Ed & _).
  unfold decodeStatus. rewrite E. unfold jint. cbn [mbind option_bind].
  do 2 read_fields ltac:(rewrite ?parseInt64_itoa by done; rewrite ?Ed; cbn [mbind option_bind]). done.
Qed.

Lemma locals_read zone n cs :
  Forall (writable zone) cs →
  decodeLocals (bodyText zone (StatusPage n cs)) = Some (map (fun c => shownString (ci_LocalAddr c)) cs).
Proof.
  intros Hcs. destruct (status_parse zone n cs Hcs) as (vs & E & _ & El).
  unfold decodeLocals. rewrite E. cbn [mbind option_bind].
  by read_fields ltac:(rewrite ?El; cbn [mbind option_bind]).
Qed.

Lemma conns_writable zone m :
  map_Forall (fun _ => writable zone) m → Forall (writable zone) (ListConnectionInfo m).
Proof.
  intros Hm%map_Forall_to_list. unfold ListConnectionInfo. rewrite merge_sort_Permutation.
  apply Forall_map. eapply Forall_impl; [exact Hm|]. by intros [].
Qed.

Lemma modules_read zone ms :
  decodeModules (bodyText zone (Modules ms)) = Some (map shownString (default [] ms)).
Proof.
  unfold decodeModules. cbn [bodyText]. unfold modulesJson. rewrite parse_encode.
  - unfold jfield. destruct ms as [ms|]; cbn [mbind option_bind clean map fst snd default from_option].
    + rewrite map_map. cbn [clean jstring].
      assert (mapM (decString "") (map (fun x => JStr (sanitizeUTF8 (chars x))) ms) = Some (map shownString ms)) as E.
      { induction ms as [|m ms IH]; [done|]. simpl. by rewrite IH. }
      read_fields ltac:(rewrite ?E; cbn [mbind option_bind]). done.
    + by read_fields idtac.
  - apply blank_compact.
  - split; [|done]. destruct ms as [ms|]; [|done]. apply sane_arr, Forall_map, Forall_forall. done.
Qed.

(** C34: What a client of the admin endpoints reads is what the server wrote.  When the
    connections can be written ([writable]: the numbers fit in 64 bits, the time is in whole
    seconds in a year of four digits and the offset of its zone in whole minutes, below a day)
    the page of /status decodes to every connection, in order, with its index, remote address,
    module, upstream, time of connection, zone and byte counts, and to their number, and holds
    their local addresses too; the page of /upstream-modules decodes to the modules, a nil
    slice to none.  Strings of valid UTF-8 are kept byte for byte, other bytes replaced. *)
Theorem pages_read_back zone :
  (∀ n cs, inInt64 n → Forall (writable zone) cs →
     decodeStatus (bodyText zone (StatusPage n cs)) = Some (map (shownConn zone) cs, n) ∧
     decodeLocals (bodyText zone (StatusPage n cs)) = Some (map (fun c => shownString (ci_LocalAddr c)) cs)) ∧
  (∀ ms, decodeModules (bodyText zone (Modules ms)) = Some (map shownString (default [] ms))) ∧
  (∀ s, Forall validRune (runes (chars s)) → shownString s = s).
Proof.
  split_and!; [|apply modules_read|].
  - intros n cs Hn Hcs. split; [by apply status_read|by apply locals_read].
  - intros s Hs. unfold shownString. rewrite runes_concat by done. apply text_chars.
Qed.

(** ** Instances *)

Section instances.
Lemma demoInfo_writable i m : inInt64 i → writable (fun _ => 28800) (demoInfo i m).
Proof. intros Hi. split; [done|by vm_compute..|]. eexists. vm_compute. reflexivity. Qed.

Lemma demoConns_writable : map_Forall (fun _ => writable (fun _ => 28800)) demoConns.
Proof.
  unfold demoConns. cbn [list_to_map foldr curry uncurry fst snd].
  repeat apply map_Forall_insert_2; try (apply demoInfo_writable; by vm_compute). apply map_Forall_empty.
Qed.

Lemma pages_read_back_witness :
  decodeStatus (bodyText (fun _ => 28800) (StatusPage 3 (ListConnectionInfo demoConns))) =
    Some (map (shownConn (fun _ => 28800)) (ListConnectionInfo demoConns), 3) ∧
  decodeModules (bodyText (fun _ => 28800) (Modules (Some ["debian"; "a<b" +:+ DQ]))) = Some ["debian"; "a<b" +:+ DQ].
Proof.
  destruct (pages_read_back (fun _ => 28800)) as (Hs & Hm & _). split.
  - apply Hs; [vm_compute; split; congruence|].
    apply conns_writable, demoConns_writable.
  - exact (Hm (Some ["debian"; "a<b" +:+ DQ])).
Defined.
End instances.
