(* ===== verification/Proxy.v ===== *)
(** * The stand-alone programs: [rsync-proxy] ([cmd/cmd.go], [main.go]) and [contrib/rsync-403]

    The root command reads the configuration, binds the listeners and serves; without a
    Kubernetes cluster around it, it is the same server the gateway embeds.  [rsync-403]
    answers every client with a refusal in the protocol's own terms. *)
From S2P Require Import Prelude GoStd Runes Net Upstreams Queue Admission Logging ServerConfig Relay.
From S2P Require Import Accounting Dataplane Lifecycle Metrics Http.
Open Scope Z_scope.

(** ** The root command *)

Section proxy.
Context {Q : Type} `{AdmissionControl Q}.
Context (bind : gmap nat string → string → result string) (chmod : string → option error).
Context (loadX509KeyPair : string → string → result string).
Context (resolveTCPAddr : string → option error).
(** [dialer.DialContext] of a network and an address. *)
Context (dialContext : Dialer → string → string → result Conn).
Context (openLogFile : string → option error).
Context (configFile : result Config).

Local Abbreviation dial := (fun d => dialContextTCPOrUnix (dialContext d)).

(** How far the command got: it has returned, or it is in [s.Run()]. *)
Inductive Started := Exits (err : option error) | Runs (b : Bound Q) (r : Running).

(** [RunE] of the root command; [version] is its flag. *)
Definition rsyncProxy (version : bool) (k : Sockets) : outcome (Started * Sockets) :=
  if version then Done (Exits None, k)
  else
    '(r, s) ← ReadConfigFromFile loadX509KeyPair resolveTCPAddr dial openLogFile configFile true ServerConfig.New;
    match r with
    | Err e => Done (Exits (Some ("load config: " +:+ e)), k)
    | Ret _ =>
        match Dataplane.Listen bind chmod s k with
        | (Err e, k) => Done (Exits (Some ("server listen: " +:+ e)), k)
        | (Ret b, k) => Done (Runs b (started (s_TLSListener (i_srv b))), k)
        end
    end.

(** ** Where it listens *)

Local Abbreviation load := (loadConfig loadX509KeyPair resolveTCPAddr dial openLogFile).

(** A load takes the addresses that are not set yet from the configuration. *)
Lemma load_addrs c openLog (s s' : Server Q) :
  load c openLog s = Done (Ret tt, s') →
  s_ListenAddr s' = orElse (s_ListenAddr s) (p_Listen (cf_Proxy c)) ∧
  s_TLSListenAddr s' = orElse (s_TLSListenAddr s) (p_ListenTLS (cf_Proxy c)) ∧
  s_HTTPListenAddr s' = orElse (s_HTTPListenAddr s) (p_ListenHTTP (cf_Proxy c)).
Proof.
  unfold loadConfig. destruct (checkConfig _ _ _ _) as [[cert ups]|]; [|done].
  destruct (if openLog then _ else _) as [[disc|e]|]; [|done|done].
  assert (∀ s : Server Q, s_ListenAddr (switchLogs openLogFile openLog (cf_Proxy c) s).2 = s_ListenAddr s ∧
    s_TLSListenAddr (switchLogs openLogFile openLog (cf_Proxy c) s).2 = s_TLSListenAddr s ∧
    s_HTTPListenAddr (switchLogs openLogFile openLog (cf_Proxy c) s).2 = s_HTTPListenAddr s) as Hlogs.
  { intros s0. unfold switchLogs. destruct openLog; [|done]. simpl.
    destruct (SetFile _ _ _ _) as [[[e|] l] fs]; [done|]. simpl.
    by destruct (SetFile _ _ _ _) as [[e l'] fs']. }
  specialize (Hlogs (setAddrs (cf_Proxy c) s)).
  destruct (switchLogs _ _ _ _) as [[e|] s1]; [done|]. case_match; [done|].
  unfold commit. simpl in *. destruct (updateUpstreamQueuesLocked _ _) as [[[qs store] n]| |]; try done.
  unfold mret, outcome_ret. simpl. intros [= <-]. simpl. done.
Qed.

(** A socket bound for address [addr], which the server reports as [bound]. *)
Definition boundAt (k : Sockets) (addr : string) (h : option nat) (bound : string) : Prop :=
  ∃ h', h = Some h' ∧ (∃ used, bind used addr = Ret bound) ∧ sk_open k !! h' = Some bound.

(** A listener that was returned without an error. *)
Lemma listenTCPOrUnix_bound addr k h k' :
  listenTCPOrUnix bind chmod addr k = ((Some h, None), k') →
  ∃ b, bind (sk_open k) addr = Ret b ∧ h = sk_next k ∧ k' = mkSockets (<[h := b]> (sk_open k)) (S h).
Proof.
  unfold listenTCPOrUnix. destruct (bind (sk_open k) addr) as [b|] eqn:E; [|done]. simpl. intros [= <- _ <-]. by exists b.
Qed.

Lemma Listen_bound (s : Server Q) k b k' :
  Dataplane.Listen bind chmod s k = (Ret b, k') →
  boundAt k' (s_ListenAddr s) (i_tcp b) (s_ListenAddr (i_srv b)) ∧
  boundAt k' (s_HTTPListenAddr s) (i_http b) (s_HTTPListenAddr (i_srv b)) ∧
  (if decide (s_TLSListenAddr s = "") then i_tls b = None ∧ s_TLSListener (i_srv b) = false
   else boundAt k' (s_TLSListenAddr s) (i_tls b) (s_TLSListenAddr (i_srv b)) ∧
        s_TLSListener (i_srv b) = true).
Proof.
  unfold Dataplane.Listen, Dataplane.listenTLS.
  destruct (listenTCPOrUnix bind chmod (s_ListenAddr s) k) as [[[h1|] [e1|]] k1] eqn:E1; try done.
  apply listenTCPOrUnix_bound in E1 as (b1 & B1 & -> & ->).
  destruct (decide (s_TLSListenAddr s = "")) as [Ht|Ht].
  - destruct (listenTCPOrUnix bind chmod (s_HTTPListenAddr s) _) as [[[h2|] [e2|]] k2] eqn:E2; try done.
    apply listenTCPOrUnix_bound in E2 as (b2 & B2 & -> & ->). intros [= <- <-].
    unfold boundAt, addrOf. simpl. rewrite lookup_insert_ne, !lookup_insert_eq by lia. simpl.
    split_and!; try done; eexists; (split; [done|]); (split; [by eexists|]).
    + by rewrite lookup_insert_ne, lookup_insert_eq by lia.
    + by rewrite lookup_insert_eq.
  - destruct (listenTCPOrUnix bind chmod (s_TLSListenAddr s) _) as [[[h3|] [e3|]] k3] eqn:E3; try done.
    2: { destruct (listenTCPOrUnix bind chmod (s_HTTPListenAddr s) _) as [[[h2|] [e2|]] k2] eqn:E2; try done.
         unfold listenTCPOrUnix in E3. by destruct (bind _ (s_TLSListenAddr s)). }
    apply listenTCPOrUnix_bound in E3 as (b3 & B3 & -> & ->).
    destruct (listenTCPOrUnix bind chmod (s_HTTPListenAddr s) _) as [[[h2|] [e2|]] k2] eqn:E2; try done.
    apply listenTCPOrUnix_bound in E2 as (b2 & B2 & -> & ->). intros [= <- <-].
    unfold boundAt, addrOf. simpl.
    rewrite !lookup_insert_ne, !lookup_insert_eq by lia. simpl.
    rewrite ?lookup_insert_ne, ?lookup_insert_eq by lia. simpl.
    split_and!; try done; eexists; (split; [done|]); (split; [by eexists|]).
    + by rewrite !lookup_insert_ne, lookup_insert_eq by lia.
    + by rewrite lookup_insert_eq.
    + by rewrite lookup_insert_ne, lookup_insert_eq by lia.
Qed.

Lemma Listen_tables (s : Server Q) k b k' :
  Dataplane.Listen bind chmod s k = (Ret b, k') → sameTables s (i_srv b).
Proof.
  unfold Dataplane.Listen.
  destruct (listenTCPOrUnix _ _ _ _) as [[[h1|] [e1|]] k1]; try done.
  destruct (listenTLS _ _ _ _) as [[lt [et|]] k2]; try done.
  destruct (listenTCPOrUnix _ _ _ _) as [[[h2|] [e2|]] k3]; try done. by intros [= <- <-].
Qed.

(** C33: The stand-alone proxy either exits with status 1, and then no listener it opened is
    left (unless [os.Chmod] failed on a Unix socket), or it serves: at the addresses of its
    configuration, with TLS exactly when an address for it is configured, and exactly the
    modules the configuration lists or discovery found, at the configured upstreams. *)
Theorem proxy_starts k :
  freshSockets k →
  ∃ r k', rsyncProxy false k = Done (r, k') ∧
    match r with
    | Exits err => exitStatus err = 1 ∧ ((∀ a, chmod a = None) → sk_open k' = sk_open k)
    | Runs b run => run = started (s_TLSListener (i_srv b)) ∧ wfServer (i_srv b) ∧
        ∃ c cert ups (discovered : gmap string (list string)), configFile = Ret c ∧
          checkConfig loadX509KeyPair resolveTCPAddr (ServerConfig.New : Server Q) c = Ret (cert, ups) ∧
          discoverConfiguredModules (dial (s_dialer (ServerConfig.New : Server Q))) ups = Some (Ret discovered) ∧
          boundAt k' (p_Listen (cf_Proxy c)) (i_tcp b) (s_ListenAddr (i_srv b)) ∧
          boundAt k' (p_ListenHTTP (cf_Proxy c)) (i_http b) (s_HTTPListenAddr (i_srv b)) ∧
          s_TLSListener (i_srv b) = bool_decide (p_ListenTLS (cf_Proxy c) ≠ "") ∧
          ∀ m t, t ∈ default [] (getTargetsForModule (i_srv b) m) ↔
            ∃ name v, cf_Upstreams c !! name = Some v ∧
              t = mkTarget name (u_Address v) (u_UseProxyProtocol v) ∧
              m ∈ (if u_DiscoverModules v then default [] (discovered !! name) else u_Modules v)
    end.
Proof.
  intros Hf. unfold rsyncProxy, ReadConfigFromFile. destruct configFile as [c|e].
  2:{ eexists _, _. split; [reflexivity|]. done. }
  destruct (load_cases loadX509KeyPair resolveTCPAddr dial openLogFile c true ServerConfig.New)
    as (res & s & E & Hr); [apply New_wf|].
  unfold mbind, outcome_bind. rewrite E. destruct res as [[]|e].
  2:{ eexists _, _. split; [reflexivity|]. done. }
  destruct Hr as (_ & _ & _ & _ & _ & Hwf & _).
  destruct (load_addrs c true _ _ E) as (A1 & A2 & A3). simpl in A1, A2, A3.
  destruct (Dataplane.Listen bind chmod s k) as [[b|e] k'] eqn:El.
  2:{ eexists _, _. split; [reflexivity|]. split; [done|]. intros chmod_ok. apply (opened_none k k' Hf).
      by apply (Listen_opened bind chmod k chmod_ok ∅ s k) in El; [|by apply (opened_refl chmod)]. }
  eexists _, _. split; [reflexivity|]. split; [done|].
  pose proof (Listen_tables s k b k' El) as Hsame. split; [by apply (sameTables_wf s)|].
  destruct (load_routes loadX509KeyPair resolveTCPAddr dial openLogFile c true _ _ New_wf E)
    as (cert & ups & disc & Hcheck & Hdisc & Hroutes & _).
  destruct (Listen_bound s k b k' El) as (B1 & B2 & B3).
  exists c, cert, ups, disc. rewrite A1 in B1. rewrite A3 in B2. rewrite A2 in B3. split_and!; try done.
  - change (orElse "" (p_ListenTLS (cf_Proxy c))) with (p_ListenTLS (cf_Proxy c)) in B3.
    case_decide as Ht; [destruct B3 as [_ ->]; by rewrite bool_decide_eq_false_2 by tauto|].
    destruct B3 as [_ ->]. by rewrite bool_decide_eq_true_2.
  - unfold getTargetsForModule in *. destruct Hsame as (-> & _). apply Hroutes.
Qed.
End proxy.

(** The proxy of [demoConfig] with an address for the admin endpoints serves. *)
Definition proxyConfig : Config :=
  mkConfig (mkProxySettings ":873" "" ":9528" "hello" "" "" "" "" 60 0 0 4 0 0 0 0) (cf_Upstreams demoConfig).

Lemma proxy_starts_witness :
  ∃ b r k', rsyncProxy (Q := Queue.AdmissionQueue.World) anyBind noError noTLS resolves (fun d _ => noDial d) noFiles
      (Ret proxyConfig) false noSockets = Done (Runs b r, k') ∧
    mkTarget "a" "10.0.0.1:873" false ∈ default [] (getTargetsForModule (i_srv b) "ubuntu").
Proof.
  destruct (proxy_starts (Q := Queue.AdmissionQueue.World) anyBind noError noTLS resolves (fun d _ => noDial d) noFiles
    (Ret proxyConfig) noSockets noSockets_fresh) as ([err|b r] & k' & E & Hr).
  { exfalso. vm_compute in E. discriminate. }
  exists b, r, k'. split; [done|]. destruct Hr as (_ & _ & c & cert & ups & disc & [= <-] & _ & _ & _ & _ & _ & Hm).
  apply Hm. exists "a", (demoUp "10.0.0.1:873" ["debian"; "ubuntu"] 1). split_and!; try done.
  simpl. set_solver.
Defined.

(** ** [contrib/rsync-403] *)

Module Forbidden.
(** The greeting of the server, and [motdTemplate] for a client's address. *)
Definition deniedVersion : string := "@RSYNCD: 32.0 sha512 sha256 sha1 md5 md4" +:+ LF.
Definition motdTemplate (addr : string) : string :=
  "USTC Mirrors has denied your access due to inappropriate Rsync usage." +:+ LF +:+
  "See our help page for more information: <https://mirrors.ustc.edu.cn/help/rsync-guide.html>" +:+ LF +:+
  "@ERROR: Access denied for " +:+ addr +:+ LF.

(** [handle]: one write and the connection is closed; what the client sends is discarded. *)
Definition handle (c : Conn) : option error * Conn :=
  writeWithTimeout (chars (deniedVersion +:+ motdTemplate (addrString (remoteAddr c)))) c.

(** [main] after [net.Listen]: what every accepted connection got, until accepting fails, which
    panics with the error. *)
Fixpoint serveAll (accepts : list (result Conn)) : list (option error * Conn) * option error :=
  match accepts with
  | [] => ([], None)
  | Err e :: _ => ([], Some e)
  | Ret c :: rest => let '(done, failed) := serveAll rest in (handle c :: done, failed)
  end.
End Forbidden.

(** A listing that is cut off is an error, whatever was listed before. *)
Lemma discoverLoop_cut fuel e modules lines :
  Forall listLine lines → (length (unlines lines) < fuel)%nat →
  discoverLoop fuel e modules (unlines lines) = Some (Err ("read module list: " +:+ e)).
Proof.
  intros Hl. revert fuel modules. induction Hl as [|s lines [Hs Hsp] _ IH]; intros [|fuel] modules Hf; try lia;
    cbn [discoverLoop]; [done|].
  rewrite length_unlines_cons in Hf.
  assert (unlines (s :: lines) = chars s ++ chr 10 :: unlines lines) as ->.
  { unfold unlines. simpl. by rewrite <- app_assoc. }
  rewrite readString_line by done. cbv zeta beta iota. rewrite trimSuffixLF_line, Hsp.
  destruct (fields s); apply IH; lia.
Qed.

(** A literal without newlines. *)
Lemma lineFree_literal s : forallb (fun c => bool_decide (c ≠ chr 10)) (chars s) = true → lineFree s.
Proof.
  unfold lineFree. intros Hs Hin. rewrite forallb_forall in Hs. apply list_elem_of_In, Hs in Hin.
  by case_bool_decide.
Qed.

(** Discovery against such a server fails, and never takes the refusal for modules. *)
Theorem forbidden_discovers_nothing dial u conn c :
  dial (addDefaultTCPPort (t_Addr (uc_Target u)) defaultRsyncPortString) = Ret conn →
  presentable u conn → txErrs conn = [] →
  txErrs c = [] → tx c = [] → lineFree (addrString (remoteAddr c)) →
  stream conn = written (Forbidden.handle c).2 →
  discoverModulesFromUpstream dial u = Some (Err ("read module list: " +:+ rxErr conn)).
Proof.
  intros Hd Hp Htx Hcx Hct Hlf Hs.
  set (lines := ["USTC Mirrors has denied your access due to inappropriate Rsync usage.";
    "See our help page for more information: <https://mirrors.ustc.edu.cn/help/rsync-guide.html>";
    "@ERROR: Access denied for " +:+ addrString (remoteAddr c)]).
  rewrite (discover_speaks dial u conn "@RSYNCD: 32.0 sha512 sha256 sha1 md5 md4" (unlines lines)); try done.
  - apply discoverLoop_cut; [|unfold discoverFuel; lia]. subst lines.
    apply Forall_cons. split; [by split; [apply lineFree_literal|]|].
    apply Forall_cons. split; [by split; [apply lineFree_literal|]|].
    apply Forall_singleton. split; [|done]. unfold lineFree. rewrite chars_app.
    intros [Hin|Hin]%elem_of_app; [|done]. revert Hin. by apply lineFree_literal.
  - split_and!; [|by apply lineFree_literal|done|done].
    rewrite Hs. unfold Forbidden.handle, writeWithTimeout. rewrite Hcx, Hct. unfold written.
    cbn [snd tx app concat]. unfold Forbidden.deniedVersion, Forbidden.motdTemplate, unlines, lines.
    cbn [map concat]. rewrite !chars_app, <- !app_assoc, !app_nil_r. reflexivity.
Qed.
