(* ===== verification/Lifetime.v ===== *)
(** * The life of a server: configurations, admin requests and clients in any order

    A server is created once; then configurations are applied to it, admin requests reload
    it, and clients acquire handles of its queues, receive from them and release them, all
    interleaved.  A client keeps the queue it acquired from, which a reload may keep, change
    the limits of, or drop from the table with its upstream. *)
From S2P Require Import Prelude GoStd Net Upstreams Queue Admission Logging ServerConfig Relay Metrics Http.
Import AdmissionQueue.
Open Scope Z_scope.

(** ** Operations *)

(** What one operation finds outside: keys, resolver, network, log files, the configuration
    file and what the pages show. *)
Record Surroundings := mkSurroundings {
  x_keys : string → string → result string; x_resolve : string → option error;
  x_dial : Dialer → string → result Conn; x_open : string → option error;
  x_config : result Config; x_prom : string; x_host : string; x_live : Live }.

(** A server and the handles its clients hold, with the queue each is of. *)
Record Life := mkLife { srv : Server World; held : list (nat * nat) }.

Definition setQueue (ref : nat) (w : World) (s : Server World) : Server World :=
  mkServer (s_ListenAddr s) (s_TLSListenAddr s) (s_HTTPListenAddr s) (s_timings s) (s_Motd s)
    (s_accessLog s) (s_errorLog s) (s_files s) (s_dialer s) (s_modules s) (s_upstreams s)
    (s_tlsCertificate s) (s_upstreamQueues s) (<[ref := w]> (s_queues s)) (s_nextQueue s)
    (s_TCPListener s) (s_TLSListener s) (s_HTTPListener s).

Inductive Operation :=
  | Configure (x : Surroundings) (c : Config) (openLog : bool)   (* ApplyConfig *)
  | AdminRequest (x : Surroundings) (r : Request)                (* an admin endpoint *)
  | Enter (upstream : string)                                    (* upstreamQueue.Acquire() *)
  | Listen (i : nat)                                             (* <-handle.C *)
  | Exit (i : nat).                                              (* handle.Release() *)

(** An operation on the queue behind a reference, which must be there. *)
Definition onQueue {A} (ref : nat) (f : World → outcome (A * World)) (s : Server World)
    : outcome (A * Server World) :=
  match s_queues s !! ref with
  | None => Panic "nil queue"
  | Some w => '(a, w') ← f w; Done (a, setQueue ref w' s)
  end.

(** A receive that finds nothing yet waits, without an effect. *)
Definition tryListen (h : nat) (w : World) : outcome (option Status * World) :=
  match recv h w with
  | Done (s, w') => Done (Some s, w')
  | Blocked => Done (None, w)
  | Panic e => Panic e
  end.

Definition operate (o : Operation) (l : Life) : outcome Life :=
  match o with
  | Configure x c openLog =>
      '(_, s) ← ApplyConfig (x_keys x) (x_resolve x) (x_dial x) (x_open x) c openLog (srv l);
      Done (mkLife s (held l))
  | AdminRequest x r =>
      '(_, s) ← serve (fun w => Z.of_nat (length (queued (q w)))) (x_keys x) (x_resolve x) (x_dial x)
                  (x_open x) (x_config x) (x_prom x) (x_host x) (x_live x) r (srv l);
      Done (mkLife s (held l))
  | Enter upstream =>
      match getQueueForUpstream (srv l) upstream with
      | None => Done l
      | Some ref => '(h, s) ← onQueue ref Acquire (srv l); Done (mkLife s (held l ++ [(ref, h)]))
      end
  | Listen i =>
      match held l !! i with
      | None => Done l
      | Some (ref, h) => '(_, s) ← onQueue ref (tryListen h) (srv l); Done (mkLife s (held l))
      end
  | Exit i =>
      match held l !! i with
      | None => Done l
      | Some (ref, h) => '(_, s) ← onQueue ref (Release h) (srv l); Done (mkLife s (delete i (held l)))
      end
  end.

Fixpoint live (os : list Operation) (l : Life) : outcome Life :=
  match os with
  | [] => Done l
  | o :: os => l' ← operate o l; live os l'
  end.

(** ** What a load does to all queues, named or not *)

Section follows.
Context {Q : Type} `{AdmissionControl Q} (P : nat → Q → Prop) (n0 : nat).
Context (P_setMax : ∀ ref m mq qu qu', P ref qu → setMax m mq qu = Done qu' → P ref qu').
Context (P_new : ∀ ref m mq, (n0 ≤ ref)%nat → P ref (newQueue m mq)).

Definition kept (store store' : gmap nat Q) : Prop :=
  (∀ ref qu, store' !! ref = Some qu → P ref qu) ∧ dom store ⊆ dom store'.

Lemma updateQueues_kept old ups queues store next queues' store' next' :
  updateQueues old ups queues store next = Done (queues', store', next') → (n0 ≤ next)%nat →
  (∀ ref qu, store !! ref = Some qu → P ref qu) → kept store store'.
Proof.
  revert queues store next. induction ups as [|u ups IH]; simpl; intros queues store next.
  { intros [= <- <- <-] _ HP. split; [done|set_solver]. }
  destruct (old !! uc_Name u) as [ref|].
  - destruct (store !! ref) as [qu|] eqn:Es; [|done].
    destruct (setMax _ _ qu) as [qu'| |] eqn:Em; simpl; try done. intros E Hn HP.
    destruct (IH _ _ _ E Hn) as [H1 H2].
    { intros r x. rewrite lookup_insert. case_decide; [intros; simplify_eq|]; eauto. }
    split; [done|]. rewrite dom_insert in H2. set_solver.
  - intros E Hn HP. destruct (IH _ _ _ E) as [H1 H2]; [lia| |].
    { intros r x. rewrite lookup_insert. case_decide; [intros; simplify_eq|]; eauto. }
    split; [done|]. rewrite dom_insert in H2. set_solver.
Qed.

Lemma load_kept keys resolve dial open c openLog s r s' :
  loadConfig keys resolve dial open c openLog s = Done (r, s') → (n0 ≤ s_nextQueue s)%nat →
  (∀ ref qu, s_queues s !! ref = Some qu → P ref qu) → kept (s_queues s) (s_queues s').
Proof.
  unfold loadConfig. intros E Hn HP. assert (kept (s_queues s) (s_queues s)) as Hsame by (split; [done|set_solver]).
  destruct (checkConfig _ _ _ _) as [[cert ups]|]; [|by simplify_eq].
  destruct (if openLog then _ else _) as [[disc|e]|]; [|by simplify_eq|done].
  pose proof (switchLogs_tables open openLog (cf_Proxy c) (setAddrs (cf_Proxy c) s))
    as (_ & _ & _ & Eq & En & _).
  destruct (switchLogs _ _ _ _) as [[e|] s1]; simpl in Eq, En; [simplify_eq; by rewrite Eq|].
  case_match; [simplify_eq; simpl; by rewrite Eq|].
  unfold commit, updateUpstreamQueuesLocked in E. simpl in E.
  destruct (updateQueues _ _ _ _ _) as [[[queues' store'] next']| |] eqn:Eu; simpl in E; try done.
  unfold mret, outcome_ret in E. simplify_eq. simpl. rewrite Eq, En in Eu. eapply updateQueues_kept; [exact Eu|exact Hn|exact HP].
Qed.
End follows.

(** ** The invariant *)

(** A queue is well formed and knows the handles its clients hold. *)
Definition honours (hs : list (nat * nat)) (ref : nat) (w : World) : Prop :=
  wf w ∧ ∀ h, (ref, h) ∈ hs → is_Some (handles w !! h).

Record LInv (l : Life) : Prop := {
  li_wf : wfServer (srv l);
  li_queues ref w : s_queues (srv l) !! ref = Some w → honours (held l) ref w;
  li_held ref h : (ref, h) ∈ held l → is_Some (s_queues (srv l) !! ref) }.

Lemma wfServer_setQueue ref w w0 (s : Server World) :
  wfServer s → s_queues s !! ref = Some w0 → wf w → wfServer (setQueue ref w s).
Proof.
  intros [[L1 L2 L3] W2 W3 W4] Hw0 Hw. split; try done. split; simpl; [|done|].
  - intros name r Hr. rewrite lookup_insert. case_decide; [eauto|]. by apply (L1 name).
  - intros r x. rewrite lookup_insert. case_decide; [intros _; subst; by eapply L3|]. apply L3.
Qed.

(** An operation on one queue, with the handles held after it. *)
Lemma LInv_onQueue l hs ref w w' :
  LInv l → s_queues (srv l) !! ref = Some w → honours hs ref w' →
  (∀ r h, r ≠ ref → (r, h) ∈ hs → (r, h) ∈ held l) →
  LInv (mkLife (setQueue ref w' (srv l)) hs).
Proof.
  intros [Hwf Hq Hh] Hw Hw' Hsub. split; simpl.
  - eapply wfServer_setQueue; [done|done|apply Hw'].
  - intros r x. rewrite lookup_insert. case_decide as Hr; [intros; by simplify_eq|]. intros Hx.
    destruct (Hq r x Hx) as [? Hi]. split; [done|]. eauto.
  - intros r h Hin. rewrite lookup_insert. case_decide; eauto.
Qed.

Lemma LInv_kept l s :
  LInv l → wfServer s → kept (honours (held l)) (s_queues (srv l)) (s_queues s) →
  LInv (mkLife s (held l)).
Proof.
  intros [_ _ Hh] Hwf [HP Hdom]. split; simpl; [done|done|].
  intros ref h Hin. apply elem_of_dom, Hdom, elem_of_dom. eauto.
Qed.

(** Changing limits keeps handles; a new queue is one nobody holds a handle of. *)
Lemma honours_setMax hs ref m mq w w' :
  honours hs ref w → setMax m mq w = Done w' → honours hs ref w'.
Proof.
  intros [Hwf Hh]. simpl. destruct (SetMax_run m mq w Hwf) as (w1 & -> & Hw1 & _ & _ & E & _).
  intros [= <-]. split; [done|]. by rewrite E.
Qed.

Lemma honours_new l ref m mq :
  LInv l → (s_nextQueue (srv l) ≤ ref)%nat → honours (held l) ref (newQueue m mq).
Proof.
  intros [Hwf _ Hh] Hn. split; [apply wf_New|]. intros h Hin. exfalso.
  destruct (Hh ref h Hin) as [w Hw]. apply (lq_fresh _ _ _ (wsv_live _ Hwf)) in Hw. lia.
Qed.

Lemma load_honours l keys resolve dial open c openLog r s :
  LInv l → loadConfig keys resolve dial open c openLog (srv l) = Done (r, s) →
  kept (honours (held l)) (s_queues (srv l)) (s_queues s).
Proof.
  intros Hl E. eapply (load_kept (honours (held l)) (s_nextQueue (srv l)));
    [apply honours_setMax|intros; by apply honours_new|exact E|lia|apply Hl].
Qed.

Lemma sameTables_kept l s : LInv l → sameTables (srv l) s → kept (honours (held l)) (s_queues (srv l)) (s_queues s).
Proof. intros Hl (_ & _ & _ & E & _). rewrite E. split; [apply Hl|set_solver]. Qed.

(** ** Every operation returns *)

Lemma honours_fewer hs hs' ref w : honours hs ref w → (∀ h, (ref, h) ∈ hs' → (ref, h) ∈ hs) → honours hs' ref w.
Proof. intros [Hw Hh] Hsub. split; eauto. Qed.

Lemma enter_honours hs ref w :
  honours hs ref w → ∃ w', Acquire w = Done (next w, w') ∧ honours (hs ++ [(ref, next w)]) ref w'.
Proof.
  intros [Hw Hh]. exists (acquired w). split; [apply Acquire_eq|]. split; [by apply acquired_wf|].
  intros h [Hin|Hin]%elem_of_app; simpl; rewrite lookup_insert; case_decide; try done; [by eauto|].
  apply list_elem_of_singleton in Hin. by simplify_eq.
Qed.

Lemma listen_honours hs ref h w :
  honours hs ref w → ∃ o w', tryListen h w = Done (o, w') ∧ honours hs ref w'.
Proof.
  intros [Hw Hh]. unfold tryListen. destruct (recv h w) as [[s w']|e|] eqn:E.
  - destruct (recv_run h w s w' Hw E) as (Hw' & _ & _ & Eh). eexists _, _. split; [done|].
    split; [done|]. by rewrite Eh.
  - unfold recv in E. repeat case_match; discriminate E.
  - eexists _, _. split; [done|]. by split.
Qed.

Lemma exit_honours hs ref h w :
  honours hs ref w → (ref, h) ∈ hs → ∃ w', Release h w = Done (tt, w') ∧ honours hs ref w'.
Proof.
  intros [Hw Hh] Hin. destruct (Release_run h w Hw (Hh h Hin)) as (w' & E & Hw' & _ & _ & Eh & _).
  exists w'. split; [done|]. split; [done|]. intros h' Hin'. rewrite Eh, lookup_insert. case_decide; eauto.
Qed.

Lemma operate_run o l : LInv l → ∃ l', operate o l = Done l' ∧ LInv l'.
Proof.
  intros Hl. destruct o as [x c openLog|x r|upstream|i|i]; simpl.
  - destruct (load_cases (x_keys x) (x_resolve x) (x_dial x) (x_open x) c openLog (srv l)) as (r & s & E & Hr);
      [apply Hl|].
    unfold ApplyConfig. rewrite E. eexists. split; [reflexivity|].
    apply LInv_kept; [done| |by eapply load_honours].
    destruct r as [[]|e]; [by destruct Hr as (? & ? & ? & _ & _ & ? & _)|]. by eapply sameTables_wf, Hl.
  - edestruct (serve_run (fun w => Z.of_nat (length (queued (q w)))) (x_keys x) (x_resolve x) (x_dial x) (x_open x)
      (x_config x) (x_prom x) (x_host x) (x_live x) r (srv l)) as (resp & s & E & Hwf & Hs); [apply Hl|].
    rewrite E. eexists. split; [reflexivity|]. apply LInv_kept; [done|done|].
    unfold effect in Hs. case_decide; [|subst; by apply sameTables_kept, sameTables_refl].
    destruct (x_config x) as [c|e]; [|destruct Hs as [_ ->]; by apply sameTables_kept, sameTables_refl].
    destruct Hs as [[_ Hs]|(_ & Hs & _)]; [by eapply load_honours|by apply sameTables_kept].
  - destruct (getQueueForUpstream (srv l) upstream) as [ref|] eqn:Er; [|eauto].
    destruct (lq_sound _ _ _ (wsv_live _ (li_wf _ Hl)) _ _ Er) as (w & Hw & _).
    unfold onQueue. rewrite Hw. destruct (enter_honours _ _ _ (li_queues _ Hl _ _ Hw)) as (w' & E & Hh).
    rewrite E. eexists. split; [reflexivity|]. eapply LInv_onQueue; [done|done|done|].
    intros r h Hne [?|Hin]%elem_of_app; [done|]. apply list_elem_of_singleton in Hin. by simplify_eq.
  - destruct (held l !! i) as [[ref h]|] eqn:Ei; [|eauto].
    destruct (li_held _ Hl ref h) as [w Hw]; [by eapply list_elem_of_lookup_2|].
    unfold onQueue. rewrite Hw. destruct (listen_honours _ _ h _ (li_queues _ Hl _ _ Hw)) as (o & w' & E & Hh).
    rewrite E. eexists. split; [reflexivity|]. by eapply LInv_onQueue.
  - destruct (held l !! i) as [[ref h]|] eqn:Ei; [|eauto]. apply list_elem_of_lookup_2 in Ei.
    destruct (li_held _ Hl ref h Ei) as [w Hw].
    unfold onQueue. rewrite Hw. destruct (exit_honours _ _ h _ (li_queues _ Hl _ _ Hw) Ei) as (w' & E & Hh).
    rewrite E. eexists. split; [reflexivity|].
    pose proof (λ y, list_elem_of_delete_inv y i (held l)) as Hsub.
    eapply LInv_onQueue; [done|done|by eapply honours_fewer; eauto|eauto].
Qed.

Lemma live_run os l : LInv l → ∃ l', live os l = Done l' ∧ LInv l'.
Proof.
  revert l. induction os as [|o os IH]; intros l Hl; simpl; [eauto|].
  destruct (operate_run o l Hl) as (l1 & -> & H1). simpl. by apply IH.
Qed.

Definition born : Life := mkLife ServerConfig.New [].

Lemma LInv_born : LInv born.
Proof. split; simpl; [apply New_wf|done|intros ref h Hin; elem_nil]. Qed.

(** C24: The life of a server.  Whatever configurations are applied and admin requests made,
    and however clients of its upstreams come, wait and leave in between, every operation
    returns; in the end the server is well formed, every target of a module it serves has
    a queue, and every client can release the handle it holds in the queue it is of, also
    when a reload has dropped or replaced the upstream since. *)
Theorem server_lifetime os :
  ∃ l, live os born = Done l ∧ wfServer (srv l) ∧
    (∀ m ts, getTargetsForModule (srv l) m = Some ts → ts ≠ [] ∧ ∀ t, t ∈ ts →
       ∃ ref w, getQueueForUpstream (srv l) (t_Upstream t) = Some ref ∧ s_queues (srv l) !! ref = Some w ∧ wf w) ∧
    (∀ ref h, (ref, h) ∈ held l →
       ∃ w w', s_queues (srv l) !! ref = Some w ∧ Release h w = Done (tt, w') ∧ wf w').
Proof.
  destruct (live_run os born LInv_born) as (l & E & Hl). exists l. split; [done|].
  split; [apply Hl|]. split.
  - intros m ts Hts. destruct (served_queues (srv l) m ts (li_wf _ Hl) Hts) as [Hne Hall].
    split; [done|]. intros t Ht. destruct (Hall t Ht) as (ref & w & ? & ? & ? & _). eauto.
  - intros ref h Hin. destruct (li_held _ Hl ref h Hin) as [w Hw].
    destruct (exit_honours _ _ h _ (li_queues _ Hl _ _ Hw) Hin) as (w' & ? & ? & _). eauto.
Qed.

(** A client of an upstream that a reload removes: it leaves the queue it entered, while the
    upstream, configured again meanwhile, has a new queue. *)
Definition calmWeather : Surroundings :=
  mkSurroundings noTLS resolves noDial noFiles (Ret demoConfig) "" "h" demoLive.

Example removed_upstream :
  match live [Configure calmWeather demoConfig false; Enter "a";
              Configure calmWeather (mkConfig demoProxy ∅) false;
              AdminRequest calmWeather (mkRequest "POST" "/reload" []); Enter "a"; Exit 0] born with
  | Done l => Some (held l, (fun ref => (fun w => length (active (q w))) <$> s_queues (srv l) !! ref) <$> [0; 1; 2; 3]%nat)
  | _ => None
  end = Some ([(2, 0)], [Some 0; Some 0; Some 1; Some 0])%nat.
Proof. vm_compute. reflexivity. Qed.
