(* ===== verification/Cli.v ===== *)
(** * The command line: [cmd/cmd.go] and the flags of [cmd/rsync-gateway/main.go]

    The commands talk to the admin endpoints: each sends a request over a connection it dials
    and prints what it makes of the bytes that come back.  [Http] says what the endpoints
    answer and [Pages] in which bytes, so the commands are proved against the server itself.
    The table library and the colour library are parameters. *)
From S2P Require Import Prelude GoStd Numerals Runes GoTime Json Net Upstreams Admission Logging ServerConfig Relay.
From S2P Require Import Metrics Http Pages Query.
Open Scope Z_scope.

(** ** Requests *)

(** What a client has of a response: its status code and the bytes of its body. *)
Record Reply := mkReply { r_Code : Z; r_Text : list ascii }.

(** Whoever listens at an address: it is sent a method, a path and a query. *)
Definition Peer : Type := string → string → list ascii → result Reply.

(** What a command printed and the error it returned. *)
Record Outcome := mkOutcome { out_stdout : string; out_stderr : string; out_err : option error }.

(** [fmt.Fprintln] of each. *)
Definition printLines (l : list string) : string := String.concat "" (map (fun m => m +:+ LF) l).

(** A coloured piece of text. *)
Inductive Color := Plain | Muted | Large | Giga | Mega.

Definition formatSizeColored (size : Z) : list (Color * string) :=
  let MB := 1000000 in let GB := 1000 * MB in let TB := 1000 * GB in
  if size =? 0 then [(Muted, "0")]
  else
    let tb := Z.quot size TB in
    let gb := Z.rem (Z.quot size GB) 1000 in
    let mb := Z.rem (Z.quot size MB) 1000 in
    let remainder := Z.rem size MB in
    let padGB := 0 <? tb in
    let padMB := padGB || (0 <? gb) in
    let padRemainder := padMB || (0 <? mb) in
    (if 0 <? tb then [(Large, itoa tb)] else []) ++
    (if (0 <? gb) || padGB then [(Giga, if padGB then padded 3 gb else itoa gb)] else []) ++
    (if (0 <? mb) || padMB then [(Mega, if padMB then padded 3 mb else itoa mb)] else []) ++
    (if (0 <? remainder) || padRemainder then [(Plain, padded 6 remainder)] else []).

(** ** Commands *)

Section cli.
(** [dialer.DialContext] of a network and an address. *)
Context (dialContext : string → string → result Peer).
(** The colour library: how a piece of text is shown. *)
Context (paint : Color → string → string).
(** The table library: what [Render] of a table with that header and those rows writes, and its error. *)
Context (render : list string → list (list string) → string * option error).

(** [makeHttpClient]: the network an address is dialled in. *)
Definition addrFamily (addr : string) : string := if isUnixPath addr then "unix" else "tcp".

Definition httpGet (addr path : string) (query : list ascii) : result Reply :=
  peer ← dialContext (addrFamily addr) addr; peer "GET" path query.
Definition httpPost (addr path : string) : result Reply :=
  peer ← dialContext (addrFamily addr) addr; peer "POST" path [].

Definition SendReloadRequest (addr : string) : Outcome :=
  match httpPost addr "/reload" with
  | Err e => mkOutcome "" "" (Some e)
  | Ret resp =>
      if r_Code resp <? 300 then mkOutcome (text (r_Text resp)) "" None
      else mkOutcome "" (text (r_Text resp)) (Some "failed to reload")
  end.

Definition colored (pieces : list (Color * string)) : string :=
  String.concat "" (map (fun p => paint p.1 p.2) pieces).

(** A row of the table of connections. *)
Definition connectionRow (c : ConnEntry) : list string :=
  [itoa (e_Index c); e_RemoteAddr c; e_Module c; e_Upstream c;
   dateTime (e_ConnectedAt c).1 (e_ConnectedAt c).2;
   colored (formatSizeColored (e_ReceivedBytes c)); colored (formatSizeColored (e_SentBytes c))].
Definition connectionHeader : list string :=
  ["Index"; "Remote"; "Module"; "Upstream"; "Connected"; "Received"; "Sent"].

(** The text of a decoding error goes on with its cause. *)
Definition decodeError : error := "failed to decode response".

Definition SendConnectionsRequest (addr : string) : Outcome :=
  match httpGet addr "/status" [] with
  | Err e => mkOutcome "" "" (Some e)
  | Ret resp =>
      if decide (r_Code resp ≠ StatusOK) then
        mkOutcome "" (text (r_Text resp)) (Some "failed to get connections")
      else match decodeStatus (r_Text resp) with
           | None => mkOutcome "" "" (Some decodeError)
           | Some (conns, count) =>
               if count =? 0 then mkOutcome (printLines ["No active connections"]) "" None
               else let '(out, err) := render connectionHeader (map connectionRow conns) in mkOutcome out "" err
           end
  end.

(** The query of [SendUpstreamModulesRequest]; [Encode] sorts by key. *)
Definition modulesQuery (upstream : string) (force : bool) : list (string * string) :=
  (if force then [("force_discover", "true")] else []) ++ [("name", upstream)].

Definition SendUpstreamModulesRequest (addr upstream : string) (force : bool) : Outcome :=
  match httpGet addr "/upstream-modules" (encodeQuery (modulesQuery upstream force)) with
  | Err e => mkOutcome "" "" (Some e)
  | Ret resp =>
      if decide (r_Code resp ≠ StatusOK) then
        mkOutcome "" (text (r_Text resp)) (Some "failed to get upstream modules")
      else match decodeModules (r_Text resp) with
           | None => mkOutcome "" "" (Some decodeError)
           | Some modules => mkOutcome (printLines (sortStrings modules)) "" None
           end
  end.

(** What the build and the Go runtime say of the program. *)
Record Build := mkBuild {
  b_GitCommit : string; b_BuildDate : string; b_Version : string;
  b_GoVersion : string; b_Compiler : string; b_GOOS : string; b_GOARCH : string }.

Definition versionInfo (b : Build) : Json :=
  JObj [jfield "GitCommit" (jstring (b_GitCommit b)); jfield "BuildDate" (jstring (b_BuildDate b));
        jfield "Version" (jstring (b_Version b)); jfield "GoVersion" (jstring (b_GoVersion b));
        jfield "Compiler" (jstring (b_Compiler b));
        jfield "Platform" (jstring (b_GOOS b +:+ "/" +:+ b_GOARCH b))].
Definition printVersion (b : Build) (pretty : bool) : Outcome :=
  mkOutcome (text (encode (if pretty then indented else compact) (versionInfo b))) "" None.

(** [RunE] of [newUpstreamModulesCmd].  [urlParse] gives the host and the path of a URL;
    [dialTCP] is what the server dials upstreams with.  Discovery always ends
    ([discoverModules_total]), so the last case is not met. *)
Context (urlParse : string → result (string * string)) (dialTCP : string → result Conn).
Context (daemonSocket : string).

Definition upstreamModulesCmd (useProxyProtocol force : bool) (spec : string) : Outcome :=
  if decide (spec = "") then mkOutcome "" "" (Some "empty upstream spec")
  else if hasPrefix spec "rsync://" then
    match urlParse spec with
    | Err e => mkOutcome "" "" (Some ("parse rsync url: " +:+ e))
    | Ret (host, path) =>
        if bool_decide (host ≠ "") && bool_decide (path ≠ "") && bool_decide (path ≠ "/") then
          mkOutcome "" "" (Some "invalid rsync url: path is not allowed")
        else
          match DiscoverModulesWithProxyProtocol dialTCP (if decide (host = "") then path else host) useProxyProtocol with
          | Some (Err e) => mkOutcome "" "" (Some e)
          | Some (Ret modules) => mkOutcome (printLines modules) "" None
          | None => mkOutcome "" "" (Some "discovery does not end")
          end
    end
  else SendUpstreamModulesRequest daemonSocket spec force.

(** What the command line asks for; the root command without its flag is [Proxy.rsyncProxy]. *)
Inductive Invocation :=
  | Connections
  | Reload
  | UpstreamModules (useProxyProtocol forceDiscover : bool) (upstream : string)
  | Version (pretty : bool)
  | VersionFlag.

Definition execute (b : Build) (i : Invocation) : Outcome :=
  match i with
  | Connections => SendConnectionsRequest daemonSocket
  | Reload => SendReloadRequest daemonSocket
  | UpstreamModules useProxyProtocol force upstream => upstreamModulesCmd useProxyProtocol force upstream
  | Version pretty => printVersion b pretty
  | VersionFlag => printVersion b false
  end.
End cli.

(** [main] of the stand-alone program: an error is printed on standard output
    (the command library has reported it on standard error). *)
Definition finish (o : Outcome) : Outcome * Z :=
  match out_err o with
  | Some e => (mkOutcome (out_stdout o +:+ e +:+ LF) (out_stderr o) (out_err o), 1)
  | None => (o, 0)
  end.

(** ** [stringArray], the repeatable flag of the gateway *)

Record stringArray := mkStringArray { sa_vals : list string; sa_changed : bool }.

Definition saString (a : stringArray) : string := join "," (sa_vals a).
Definition saSet (v : string) (a : stringArray) : stringArray :=
  if negb (sa_changed a) then mkStringArray [v] true
  else mkStringArray (sa_vals a ++ [v]) (sa_changed a).

(** ** Sizes *)

Definition shownSize (size : Z) : string := String.concat "" (map snd (formatSizeColored size)).

Lemma concat_cons a l : String.concat "" (a :: l) = a +:+ String.concat "" l.
Proof. destruct l; [|done]. apply chars_inj. rewrite chars_app. simpl. by rewrite app_nil_r. Qed.

Lemma digitsFrom_concat v l : digitsFrom v (String.concat "" l) = foldl digitsFrom v l.
Proof.
  revert v. induction l as [|a l IH]; intros v; [done|]. by rewrite concat_cons, digitsFrom_app, IH.
Qed.

Lemma div_split x k : 0 < k → x / (k * 1000) * 1000 + (x / k) mod 1000 = x / k.
Proof. intros. rewrite <- Z.div_div by lia. rewrite Z.mul_comm. symmetry. apply Z.div_mod. lia. Qed.

(** One group of digits of a size. *)
Lemma group_from (pad : bool) w n v (k : Color) :
  (0 < w)%nat → 0 ≤ n < 10 ^ Z.of_nat w → 0 ≤ v → pad = (0 <? v) →
  foldl digitsFrom v (map snd (if (0 <? n) || pad then [(k, if pad then padded w n else itoa n)] else []))
    = v * 10 ^ Z.of_nat w + n.
Proof.
  intros Hw Hn Hv ->. destruct (Z.ltb_spec 0 v) as [Hp|Hp].
  - rewrite orb_true_r. simpl. by apply padded_from.
  - assert (v = 0) as -> by lia. rewrite orb_false_r. destruct (Z.ltb_spec 0 n); simpl; [|lia].
    by rewrite itoa_value by lia.
Qed.

Lemma shownSize_value size : 0 ≤ size → digitsValue (shownSize size) = size.
Proof.
  intros H0. unfold shownSize, digitsValue. rewrite digitsFrom_concat. unfold formatSizeColored.
  destruct (Z.eqb_spec size 0) as [->|Hs]; [done|].
  rewrite !Z.quot_div_nonneg, !Z.rem_mod_nonneg by (lia || apply Z.div_pos; lia). cbv zeta.
  change (1000 * (1000 * 1000000)) with 1000000000000. change (1000 * 1000000) with 1000000000.
  set (tb := size / 1000000000000). set (gb := size / 1000000000 mod 1000).
  set (mb := size / 1000000 mod 1000). set (rm := size mod 1000000).
  assert (0 ≤ tb) by (subst tb; apply Z.div_pos; lia).
  assert (0 ≤ gb < 1000) by (subst gb; apply Z.mod_pos_bound; lia).
  assert (0 ≤ mb < 1000) by (subst mb; apply Z.mod_pos_bound; lia).
  assert (0 ≤ rm < 1000000) by (subst rm; apply Z.mod_pos_bound; lia).
  assert (size = ((tb * 1000 + gb) * 1000 + mb) * 1000000 + rm) as E.
  { subst tb gb mb rm. change 1000000000000 with (1000000000 * 1000). rewrite div_split by lia.
    change 1000000000 with (1000000 * 1000). rewrite div_split by lia.
    rewrite (Z.mul_comm _ 1000000). apply Z.div_mod. lia. }
  rewrite !map_app, !foldl_app.
  assert (foldl digitsFrom 0 (map snd (if 0 <? tb then [(Large, itoa tb)] else [])) = tb) as ->.
  { destruct (Z.ltb_spec 0 tb); simpl; [by apply itoa_value|lia]. }
  rewrite (group_from (0 <? tb) 3 gb tb) by (change (10 ^ Z.of_nat 3) with 1000; done || lia).
  rewrite (group_from ((0 <? tb) || (0 <? gb)) 3 mb)
    by (change (10 ^ Z.of_nat 3) with 1000; try destruct (Z.ltb_spec 0 tb), (Z.ltb_spec 0 gb); simpl; lia).
  destruct (Z.ltb_spec 0 rm); simpl; rewrite ?padded_from by (done || lia); [lia|].
  destruct (_ || (0 <? mb)) eqn:Ep; simpl; rewrite ?padded_from by (done || lia); [lia|].
  rewrite !orb_false_iff in Ep. lia.
Qed.

Lemma shownSize_digits size : 0 ≤ size → digits (chars (shownSize size)).
Proof.
  intros H0. unfold shownSize. assert (Forall (fun p => digits (chars p.2)) (formatSizeColored size)) as Hd.
  { unfold formatSizeColored. case_match; [by repeat constructor|].
    assert (0 ≤ Z.quot size (1000 * (1000 * 1000000))) by (apply Z.quot_pos; lia).
    rewrite !Z.quot_div_nonneg, !Z.rem_mod_nonneg by (lia || apply Z.div_pos; lia).
    repeat (apply Forall_app; split); case_match; try constructor; try constructor; simpl;
      repeat case_match; (apply itoa_digits || apply padded_digits);
      first [apply Z.div_pos; lia | apply Z.mod_pos_bound; lia]. }
  induction Hd as [|p l Hp _ IH]; [constructor|]. cbn [map]. rewrite concat_cons, chars_app. by apply Forall_app.
Qed.

(** The pieces are digits, and read together they are the number. *)
Lemma shownSize_read size : 0 ≤ size → parseDigits 0 (chars (shownSize size)) = Some size.
Proof.
  intros H0. rewrite parseDigits_value by by apply shownSize_digits. rewrite text_chars. f_equal.
  by apply shownSize_value.
Qed.

(** A byte count is printed digit for digit: the coloured groups of the connection
    table, read together, are the number. *)
Theorem size_readable size : 0 ≤ size → digitsValue (shownSize size) = size.
Proof. apply shownSize_value. Qed.

(** A count below one million is printed with leading zeros, unlike the larger groups. *)
Example small_size_zeros : shownSize 5 = "000005" ∧ shownSize 5000000 = "5000000".
Proof. done. Qed.

(** ** Commands against the server *)

Section commands.
Context {Q : Type} `{AdmissionControl Q} (queuedLen : Q → Z).
Context (loadX509KeyPair : string → string → result string).
Context (resolveTCPAddr : string → option error).
Context (dial : Dialer → string → result Conn).
Context (openLogFile : string → option error) (configFile : result Config).
Context (promhttp hostname : string) (zone : Z → Z).

(** The admin server as its clients see it: requests are read, answered by the mux and the
    answers written. *)
Definition admin (l : Live) (s : Server Q) : Peer := fun method path query =>
  match serve queuedLen loadX509KeyPair resolveTCPAddr dial openLogFile configFile promhttp hostname l
          (mkRequest method path (parseQuery query)) s with
  | Done (resp, _) => Ret (mkReply (h_Code resp) (bodyText zone (h_Body resp)))
  | _ => Err "EOF"
  end.

(** A command that reaches a server at an address. *)
Context (dialContext : string → string → result Peer) (addr : string).
Context (paint : Color → string → string) (render : list string → list (list string) → string * option error).
Context (l : Live) (s : Server Q).
Context (reached : dialContext (addrFamily addr) addr = Ret (admin l s)).

Lemma get_reached path query : httpGet dialContext addr path query = admin l s "GET" path query.
Proof using reached. unfold httpGet. by rewrite reached. Qed.
Lemma post_reached path : httpPost dialContext addr path = admin l s "POST" path [].
Proof using reached. unfold httpPost. by rewrite reached. Qed.

(** The command for the modules of an upstream prints, one a line and sorted, exactly
    the modules the server has for the upstream of that name, whatever characters the
    name has: the query is escaped and read back, the answer written as JSON and decoded.
    For a name the server does not know it fails and prints nothing on standard output. *)
Theorem modules_command name :
  name ≠ "" → NoDup (map uc_Name (s_upstreams s)) →
  (∀ u, u ∈ s_upstreams s → uc_Name u = name →
     SendUpstreamModulesRequest dialContext addr name false =
       mkOutcome (printLines (sortStrings (map shownString (uc_Modules u)))) "" None) ∧
  (name ∉ map uc_Name (s_upstreams s) →
     out_stdout (SendUpstreamModulesRequest dialContext addr name false) = "" ∧
     out_err (SendUpstreamModulesRequest dialContext addr name false) = Some "failed to get upstream modules").
Proof using reached.
  intros Hne Hnd. unfold SendUpstreamModulesRequest. rewrite get_reached. unfold admin, serve, modulesQuery.
  rewrite parseQuery_encode. cbn [h_Path]. rewrite decide_True by done.
  unfold upstreamModules, queryGet, queryValues, forceDiscover, queryValues. simpl.
  rewrite decide_False by auto. split.
  - intros u Hu <-. rewrite ListUpstreamModules_known by done. cbn [mbind outcome_bind mret outcome_ret h_Code h_Body r_Code r_Text].
    rewrite decide_False by auto. rewrite modules_read. do 2 f_equal. 
    rewrite (sortStrings_order_irrelevant _ (map shownString (uc_Modules u))); [done|].
    apply Permutation_map. rewrite <- (sortStrings_perm (uc_Modules u)) at 2. by destruct (sortStrings (uc_Modules u)).
  - intros Hn. rewrite ListUpstreamModules_unknown by done.
    rewrite (contains_prefix (": " +:+ name) "unknown upstream" : contains ("unknown upstream: " +:+ name) "unknown upstream" = true).
    done.
Qed.

(** The reload command exits with status 0 exactly when the server loaded its
    configuration file. *)
Theorem reload_command urlParse dialTCP b :
  wfServer s →
  (finish (execute dialContext paint render urlParse dialTCP addr b Reload)).2 = 0 ↔
  ∃ s', ReadConfigFromFile loadX509KeyPair resolveTCPAddr dial openLogFile configFile true s = Done (Ret tt, s').
Proof using reached.
  intros Hwf. unfold execute, SendReloadRequest. rewrite post_reached. unfold admin, serve, reload. simpl.
  unfold ReadConfigFromFile. destruct configFile as [c|e]; simpl.
  2: { split; [done|]. by intros (? & ?). }
  destruct (load_cases loadX509KeyPair resolveTCPAddr dial openLogFile c true s) as (res & s' & E & _);
    [apply Hwf|].
  unfold mbind, outcome_bind. rewrite E. destruct res as [[]|e]; simpl.
  - split; [|done]. intros _. by exists s'.
  - split; [done|]. by intros (? & ?).
Qed.

(** What a row of the table says of a connection of the server: the byte counts are pieces of
    text, each painted, that are digits and read together are the number. *)
Definition shows (c : ConnInfo) (row : list string) : Prop :=
  ∃ received sent,
    row = [itoa (ci_Index c); shownString (ci_RemoteAddr c); shownString (ci_Module c); shownString (ci_Upstream c);
           dateTime (ci_ConnectedAt c) (zone (ci_ConnectedAt c)); colored paint received; colored paint sent] ∧
    parseDigits 0 (chars (String.concat "" (map snd received))) = Some (ci_ReceivedBytes c) ∧
    parseDigits 0 (chars (String.concat "" (map snd sent))) = Some (ci_SentBytes c).

Lemma row_shows c :
  0 ≤ ci_ReceivedBytes c → 0 ≤ ci_SentBytes c → shows c (connectionRow paint (shownConn zone c)).
Proof.
  intros Hr Hs. exists (formatSizeColored (ci_ReceivedBytes c)), (formatSizeColored (ci_SentBytes c)).
  split; [done|]. split; by apply shownSize_read.
Qed.

(** C35: The command for the connections shows the server's connections: the table it hands to
    the table library has one row for each connection of the server and no other, in the
    increasing order of their indices, and each row has the index, the address of the client,
    the module, the upstream, the time of connection in the server's zone, and the bytes
    received and sent, digit for digit, as the server counted them.  With no connection it says
    so and draws no table.  (The counts must not be negative and the connections be such that
    the page can be written.) *)
Theorem connections_command :
  map_Forall (fun _ c => writable zone c ∧ 0 ≤ ci_ReceivedBytes c ∧ 0 ≤ ci_SentBytes c) (l_conns l) →
  Z.of_nat (size (l_conns l)) < 2 ^ 63 →
  ∃ cs rows, cs ≡ₚ (map_to_list (l_conns l)).*2 ∧ Sorted Z.le (map ci_Index cs) ∧ Forall2 shows cs rows ∧
    SendConnectionsRequest dialContext paint render addr =
      match rows with
      | [] => mkOutcome ("No active connections" +:+ LF) "" None
      | _ => let '(out, err) := render ["Index"; "Remote"; "Module"; "Upstream"; "Connected"; "Received"; "Sent"] rows in
             mkOutcome out "" err
      end.
Proof using reached.
  intros Hw Hsz. set (cs := ListConnectionInfo (l_conns l)).
  exists cs, (map (fun c => connectionRow paint (shownConn zone c)) cs).
  assert (cs ≡ₚ (map_to_list (l_conns l)).*2) as Hperm by apply merge_sort_Permutation.
  split_and!; [done|apply ListConnectionInfo_sorted| |].
  - apply Forall2_fmap_r, Forall_Forall2_diag. rewrite Hperm. apply Forall_fmap.
    apply map_Forall_to_list in Hw. eapply Forall_impl; [exact Hw|].
    intros [i c] (_ & Hr & Hs). by apply row_shows.
  - unfold SendConnectionsRequest. rewrite get_reached. unfold admin, serve. cbn [h_Path].
    do 2 rewrite decide_False by done. rewrite decide_True by done.
    unfold onGet, status. cbn [h_Method mret outcome_ret]. rewrite decide_False by auto. cbn [h_Code h_Body r_Code r_Text].
    rewrite decide_False by auto. cbn [h_Body]. fold cs. rewrite status_read.
    + destruct cs as [|c l']; [done|]. by rewrite map_map.
    + unfold inInt64. rewrite Hperm, length_fmap, length_map_to_list. lia.
    + apply conns_writable. eapply map_Forall_impl; [exact Hw|]. by intros i c [? _].
Qed.
End commands.

(** The command for a URL of another gateway (whose message of the day, if any, ends in a blank
    line) prints the modules
    that gateway serves, sorted; a path in the URL is refused before anything is dialled. *)
Theorem discover_command dialContext urlParse dialTCP addr force spec host path conn version motd names junk :
  hasPrefix spec "rsync://" = true → urlParse spec = Ret (host, path) → host ≠ "" →
  (path ∉ [""; "/"] → out_err (upstreamModulesCmd dialContext urlParse dialTCP addr false force spec) =
     Some "invalid rsync url: path is not allowed") ∧
  (path ∈ [""; "/"] → dialTCP (addDefaultTCPPort host defaultRsyncPortString) = Ret conn →
   Forall listLine motd → motdOk motd →
   speaks conn version (unlines motd ++ moduleListing names ++ junk) → Forall plainName names →
   upstreamModulesCmd dialContext urlParse dialTCP addr false force spec =
     mkOutcome (printLines (sortStrings names)) "" None).
Proof.
  intros Hp Hu Hh. unfold upstreamModulesCmd. rewrite decide_False by by intros ->. rewrite Hp, Hu.
  rewrite bool_decide_true by done. rewrite decide_False by done. simpl. split.
  - intros Hn. rewrite !not_elem_of_cons in Hn. by rewrite !bool_decide_true by tauto.
  - intros Hin Hd Hml Hm Hs Hn. rewrite !elem_of_cons in Hin.
    assert (bool_decide (path ≠ "") && bool_decide (path ≠ "/") = false) as ->.
    { destruct Hin as [->|[->|Hin]]; [done|done|by apply elem_of_nil in Hin]. }
    unfold DiscoverModulesWithProxyProtocol. by erewrite listing_read by done.
Qed.

(** The version is printed as JSON that reads back, in both layouts, as what the build
    says of the program. *)
Theorem version_read b pretty :
  parse (chars (out_stdout (printVersion b pretty))) = Some (clean (versionInfo b)).
Proof.
  unfold printVersion. cbn [out_stdout]. rewrite chars_text.
  apply parse_encode; [|by repeat split]. destruct pretty; [apply blank_indented|apply blank_compact].
Qed.

(** ** Repeated flags *)

(** The value of a flag that was set to each of [vs] in turn. *)
Definition setAll (vs : list string) (a : stringArray) : stringArray := foldl (fun a v => saSet v a) a vs.

Lemma setAll_changed vs a : sa_changed a = true → setAll vs a = mkStringArray (sa_vals a ++ vs) true.
Proof.
  revert a. induction vs as [|v vs IH]; intros [vals ch] Hc; simpl in Hc; subst; [by rewrite app_nil_r|].
  change (setAll (v :: vs) (mkStringArray vals true)) with (setAll vs (mkStringArray (vals ++ [v]) true)).
  rewrite IH by done. simpl. by rewrite <- app_assoc.
Qed.

(** The repeatable flag keeps its default when it is not given, and otherwise holds
    exactly the values given, in order, without the default. *)
Theorem flag_values dflt vs :
  sa_vals (setAll vs (mkStringArray dflt false)) = match vs with [] => dflt | _ => vs end.
Proof.
  destruct vs as [|v vs]; [done|].
  change (setAll (v :: vs) (mkStringArray dflt false)) with (setAll vs (mkStringArray [v] true)).
  by rewrite setAll_changed.
Qed.

(** ** Instances *)

Section instances.
Definition demoAdmin : Peer :=
  admin demoQueued noTLS resolves noDial noFiles (Err "no such file") "" "h" (fun _ => 28800) demoLive demoServer.
Definition demoDial (network addr : string) : result Peer := if decide (network = "unix") then Ret demoAdmin else Err "refused".
Definition demoSocket : string := "/run/rsync-proxy/rsync-proxy.sock".
Definition plainText (_ : Color) (s : string) : string := s.
(** A table library that draws the rows with spaces between the columns. *)
Definition demoRender (header : list string) (rows : list (list string)) : string * option error :=
  (printLines (map (String.concat " ") (header :: rows)), None).

Lemma modules_command_witness :
  SendUpstreamModulesRequest demoDial demoSocket "a" false = mkOutcome (printLines ["debian"; "ubuntu"]) "" None.
Proof.
  destruct (modules_command demoQueued noTLS resolves noDial noFiles (Err "no such file") "" "h" (fun _ => 28800)
    demoDial demoSocket demoLive demoServer eq_refl "a") as [Hk _].
  - discriminate.
  - apply (bool_decide_eq_true_1 (NoDup _)). vm_compute. reflexivity.
  - destruct (s_upstreams demoServer) as [|u us] eqn:E; [vm_compute in E; discriminate|].
    rewrite (Hk u).
    + assert (map uc_Modules (s_upstreams demoServer) = [["debian"; "ubuntu"]; ["debian"]]) as Em
        by (vm_compute; reflexivity).
      rewrite E in Em. injection Em as -> _. vm_compute. reflexivity.
    + left.
    + assert (map uc_Name (s_upstreams demoServer) = ["a"; "b"]) as En by (vm_compute; reflexivity).
      rewrite E in En. injection En as -> _. reflexivity.
Defined.

Definition demoBuild : Build := mkBuild "abc" "1970-01-01T00:00:00Z" "0.0.0" "go1.26" "gc" "linux" "amd64".
Definition noURL (spec : string) : result (string * string) := Err "invalid URL".

Lemma reload_command_witness :
  (finish (execute demoDial plainText demoRender noURL (noDial (s_dialer demoServer)) demoSocket demoBuild Reload)).2 ≠ 0.
Proof.
  intros Hn. apply (reload_command demoQueued noTLS resolves noDial noFiles (Err "no such file") "" "h" (fun _ => 28800)
    demoDial demoSocket plainText demoRender demoLive demoServer eq_refl _ _ _ demoServer_wf) in Hn as (s' & E).
  discriminate E.
Defined.

Lemma connections_command_witness :
  ∃ cs rows, cs ≡ₚ (map_to_list demoConns).*2 ∧ Sorted Z.le (map ci_Index cs) ∧
    Forall2 (shows (fun _ => 28800) plainText) cs rows ∧
    SendConnectionsRequest demoDial plainText demoRender demoSocket =
      mkOutcome (printLines (map (String.concat " ") (connectionHeader :: rows))) "" None.
Proof.
  destruct (connections_command demoQueued noTLS resolves noDial noFiles (Err "no such file") "" "h" (fun _ => 28800)
    demoDial demoSocket plainText demoRender demoLive demoServer eq_refl) as (cs & rows & Hp & Hs & Hr & E).
  - intros i c Hc. split; [exact (demoConns_writable i c Hc)|].
    assert (map_Forall (fun _ c => 0 ≤ ci_ReceivedBytes c ∧ 0 ≤ ci_SentBytes c) demoConns) as Hb
      by (apply (bool_decide_unpack _); vm_compute; exact I).
    exact (Hb i c Hc).
  - vm_compute. reflexivity.
  - exists cs, rows. split; [exact Hp|]. split; [exact Hs|]. split; [exact Hr|].
    destruct rows as [|row rows]; [exfalso|exact E].
    apply Forall2_length in Hr. apply Permutation_length in Hp. rewrite Hr in Hp. vm_compute in Hp. discriminate Hp.
Defined.

Lemma size_readable_witness : digitsValue (shownSize 1002000003) = 1002000003.
Proof. apply (size_readable 1002000003). lia. Defined.
End instances.
