(* ===== verification/Serving.v ===== *)
(** * Clients of an upstream: [relay] between [Acquire] and [Release]

    The queue of an upstream together with the connections that hold a handle of it.
    [Queue] says what the operations do to lists and channels, [Relay] what one connection
    does with the statuses it is given; here many connections run against the one queue:
    each acquires a handle, receives from its channel until it is admitted or refused,
    relays, and releases on its way out, at any point, as the deferred call does. *)
From S2P Require Import Prelude Queue Admission Relay.
Import AdmissionQueue.
Open Scope Z_scope.

(** ** Connections and steps *)

(** Where a connection is, by the statuses it has received. *)
Inductive Place :=
  | First      (* at [status := <-handle.C] *)
  | InQueue    (* in the loop [queuing] *)
  | Relayed    (* past it: the upstream is dialled and bytes are copied *)
  | Refused.   (* the queue was full; the client is told and the call returns *)

#[export] Instance Place_eq_dec : EqDecision Place.
Proof. solve_decision. Defined.

(** What a status does to a connection that receives it. *)
Definition told (p : Place) (st : Status) : option Place :=
  match p with
  | First => Some (if Full st then Refused else if Ok st then Relayed else InQueue)
  | InQueue => Some (if Ok st then Relayed else InQueue)
  | Relayed | Refused => None
  end.

Record Site := mkSite { site : World; clients : gmap nat Place }.

Inductive Event :=
  | Arrive              (* upstreamQueue.Acquire() *)
  | Receive (h : nat)   (* <-handle.C *)
  | Leave (h : nat)     (* handle.Release(), deferred *)
  | Reload (m mq : Z).  (* SetMax, by a reload *)

(** One step; [None] when it cannot happen (yet). *)
Definition sexec (e : Event) (s : Site) : option Site :=
  match e with
  | Arrive =>
      match Acquire (site s) with
      | Done (h, w) => Some (mkSite w (<[h := First]> (clients s)))
      | _ => None
      end
  | Receive h =>
      p ← clients s !! h;
      match recv h (site s) with
      | Done (st, w) => p' ← told p st; Some (mkSite w (<[h := p']> (clients s)))
      | _ => None
      end
  | Leave h =>
      p ← clients s !! h;
      match Release h (site s) with
      | Done (_, w) => Some (mkSite w (delete h (clients s)))
      | _ => None
      end
  | Reload m mq =>
      match SetMax m mq (site s) with
      | Done (_, w) => Some (mkSite w (clients s))
      | _ => None
      end
  end.

(** States reachable when reloads set limits that satisfy [P]. *)
Inductive sreachable (P : Z → Prop) (m mq : Z) : Site → Prop :=
  | sr_init : P m → sreachable P m mq (mkSite (AdmissionQueue.New m mq) ∅)
  | sr_step e s s' :
      sreachable P m mq s → (∀ m' mq', e = Reload m' mq' → P m') → sexec e s = Some s' →
      sreachable P m mq s'.

(** ** An upstream through reloads

    [updateUpstreamQueuesLocked], for one upstream: while it stays in the configuration its
    queue gets the new limits; when it is dropped the queue leaves the table, but those who
    have it go on (and a call that looked it up before the reload may still acquire); when it
    comes back it gets a new queue. *)

Record UpstreamSites := mkUpstreamSites { sites : list Site; current : option nat }.

Inductive UpstreamEvent :=
  | At (i : nat) (e : Event)                (* something of the connections of a queue *)
  | Configure (limits : option (Z * Z)).    (* a reload, with the limits if it has the upstream *)

Definition noUpstream : UpstreamSites := mkUpstreamSites [] None.

Definition uexec (e : UpstreamEvent) (u : UpstreamSites) : option UpstreamSites :=
  match e with
  | At _ (Reload _ _) => None
  | At i e => s ← sites u !! i; s' ← sexec e s; Some (mkUpstreamSites (<[i := s']> (sites u)) (current u))
  | Configure None => Some (mkUpstreamSites (sites u) None)
  | Configure (Some (m, mq)) =>
      match current u with
      | Some i =>
          s ← sites u !! i; s' ← sexec (Reload m mq) s;
          Some (mkUpstreamSites (<[i := s']> (sites u)) (current u))
      | None =>
          Some (mkUpstreamSites (sites u ++ [mkSite (AdmissionQueue.New m mq) ∅]) (Some (length (sites u))))
      end
  end.

Fixpoint urun (es : list UpstreamEvent) (u : UpstreamSites) : option UpstreamSites :=
  match es with [] => Some u | e :: es => u' ← uexec e u; urun es u' end.

(** ** What an operation does to the connections it is not about *)

(** An active connection keeps its place and its channel; a waiting one stays, perhaps
    with a newer status, or is admitted with an [Ok] in its channel; one that is in
    neither list stays out. *)
Record treats (c : nat) (w w' : World) : Prop := {
  t_active : c ∈ active (q w) → c ∈ active (q w') ∧ chans w' !! c = chans w !! c;
  t_queued : c ∈ queued (q w) →
    c ∈ active (q w') ∧ chans w' !! c = Some (mkChan (Some okStatus) true) ∨
    c ∈ queued (q w') ∧
      (chans w' !! c = chans w !! c ∨ ∃ s, chans w' !! c = Some (mkChan (Some s) false));
  t_out : c ∉ active (q w) ++ queued (q w) →
    (c ∉ active (q w') ++ queued (q w')) ∧ chans w' !! c = chans w !! c }.

Lemma treats_trans c w1 w2 w3 : treats c w1 w2 → treats c w2 w3 → treats c w1 w3.
Proof.
  intros [A1 Q1 O1] [A2 Q2 O2]. split.
  - intros H. destruct (A1 H) as [H2 E2]. destruct (A2 H2) as [H3 E3]. split; congruence.
  - intros H. destruct (Q1 H) as [[H2 E2]|[H2 E2]].
    + left. destruct (A2 H2) as [H3 E3]. split; congruence.
    + destruct (Q2 H2) as [?|[H3 E3]]; [by left|]. right. split; [done|].
      destruct E3 as [->|?]; [done|by right].
  - intros H. destruct (O1 H) as [H2 E2]. destruct (O2 H2) as [H3 E3]. split; congruence.
Qed.

Lemma treats_same c w w' :
  active (q w') = active (q w) → queued (q w') = queued (q w) → chans w' !! c = chans w !! c →
  treats c w w'.
Proof. intros Ha Hq Hc. split; rewrite ?Ha, ?Hq; auto. Qed.

Lemma treats_announce c w : core w → treats c w (announceWorld w).
Proof.
  intros Hc. pose proof (core_nodup _ Hc) as (_ & Hdisj & Hnd)%NoDup_app.
  split; simpl.
  - intros Ha. rewrite announceChans_ne by (by apply Hdisj). done.
  - intros Hq. right. split; [done|]. right.
    apply list_elem_of_lookup in Hq as [j Hj]. eexists. by apply announceChans_eq.
  - rewrite not_elem_of_app. intros [Ha Hq]. by rewrite announceChans_ne.
Qed.

Lemma settle_listed x : active (settle x) ++ queued (settle x) = active x ++ queued x.
Proof. unfold settle. cbn [active queued]. by rewrite <- app_assoc, take_drop. Qed.

Lemma treats_settle c w : core w → treats c w (settleWorld w).
Proof.
  intros Hc. pose proof (core_nodup _ Hc) as (_ & Hdisj & Hnd)%NoDup_app.
  set (k := freeSlots (q w)).
  assert (c ∈ queued (q w) ↔ c ∈ take k (queued (q w)) ∨ c ∈ drop k (queued (q w))) as Hs.
  { rewrite <- elem_of_app, take_drop. done. }
  split.
  - intros Ha. split; [by apply elem_of_app; left|]. apply promoteChans_ne.
    intros Ht. apply (Hdisj c Ha), Hs. by left.
  - intros Hq. destruct (decide (c ∈ take k (queued (q w)))) as [Ht|Ht].
    + left. split; [by apply elem_of_app; right|]. by apply promoteChans_eq.
    + right. split; [by apply Hs in Hq as [?|?]|]. left. by apply promoteChans_ne.
  - intros Ho. change (q (settleWorld w)) with (settle (q w)). rewrite settle_listed. split; [done|].
    apply promoteChans_ne. intros Ht. apply Ho, elem_of_app. right. apply Hs. by left.
Qed.

Lemma treats_dropped c h w : c ≠ h → treats c w (dropped h w).
Proof.
  intros Hne. split; unfold dropped; cbn [q active queued set_active set_queued chans].
  - intros H. split; [by apply elem_of_without|done].
  - intros H. right. split; [by apply elem_of_without|by left].
  - rewrite !not_elem_of_app, !elem_of_without. tauto.
Qed.

Lemma treats_acquired c w : core w → c ≠ next w → treats c w (acquired w).
Proof.
  intros Hc Hne. unfold acquired, specAcquire.
  destruct (hasSlot (q w)); [|destruct (queueFull (q w))];
    split; cbn [q active queued set_active set_queued chans];
    rewrite lookup_insert_ne, ?elem_of_app, ?not_elem_of_app by done;
    rewrite ?list_elem_of_singleton; tauto.
Qed.

(** The runs of [Queue], in one piece. *)
Lemma SetMax_treats m mq w :
  wf w → ∃ w', SetMax m mq w = Done (tt, w') ∧ wf w' ∧ (∀ c, treats c w w') ∧
    q w' = specSetMax m mq (q w) ∧ handles w' = handles w.
Proof.
  intros Hwf. destruct (SetMax_run m mq w Hwf) as (w' & E & Hwf' & _ & Hq & Hh & _).
  exists w'. split_and!; try done. intros c.
  set (w1 := set_q (set_limits m mq) w).
  assert (core w1) as Hc1.
  { destruct Hwf as [Hc _ _]. unfold w1. destruct Hc; by split. }
  destruct (promoteAll_core _ Hc1) as [Hrun Hc2].
  destruct (broadcastStatus_wf (settleWorld w1) Hc2 (hasSlot_settle _)) as [Hb _].
  assert (SetMax m mq w = Done (tt, announceWorld (settleWorld w1))) as E2.
  { change (SetMax m mq w) with ((promoteAll;; broadcastStatus) w1).
    unfold mbind, M_bind. rewrite Hrun. done. }
  rewrite E in E2. injection E2 as ->.
  apply (treats_trans c w w1); [by apply treats_same|].
  eapply treats_trans; [by apply treats_settle|by apply treats_announce].
Qed.

Lemma Release_eq h w :
  wf w → handles w !! h = Some (mkHandle h false) →
  Release h w = Done (tt, announceWorld (if decide (h ∈ queued (q w)) then dropped h w
                                         else settleWorld (dropped h w))).
Proof.
  intros Hwf Hih. pose proof (wf_core _ Hwf) as Hc.
  pose proof (core_dropped h w Hc (mk_is_Some _ _ Hih)) as Hcd.
  destruct (proj1 (NoDup_app _ _) (core_nodup _ Hc)) as (_ & Hdisj & _).
  unfold Release. rewrite Hih; simpl. unfold releaseFromHandle, modify, get, mbind, M_bind; simpl.
  rewrite length_without. case_bool_decide as Hq; simpl.
  - rewrite decide_False by done. destruct (promoteAll_core _ Hcd) as [Hrun Hc2].
    destruct (broadcastStatus_wf (settleWorld (dropped h w)) Hc2 (hasSlot_settle _)) as [Hb _].
    unfold dropped in Hrun, Hb |- *. rewrite (without_notin h (queued (q w))) in * by done.
    unfold set_q, set_active, set_queued in *; simpl. destruct (q w); simpl in *. rewrite Hrun. exact Hb.
  - rewrite decide_True by done. destruct (broadcastStatus_wf (dropped h w) Hcd) as [Hb _].
    { simpl. unfold hasSlot; simpl. rewrite (without_notin h (active (q w))) by
        (intros Ha; by apply (Hdisj h)).
      destruct (wf_work _ Hwf) as [Hn|Hs]; [rewrite Hn in Hq; elem_nil|by right]. }
    unfold dropped in Hb |- *. rewrite (without_notin h (active (q w))) in * by
      (intros Ha; by apply (Hdisj h)).
    unfold set_q, set_active, set_queued in *; simpl. destruct (q w); simpl in *. exact Hb.
Qed.

Lemma Release_treats h w :
  wf w → handles w !! h = Some (mkHandle h false) →
  ∃ w', Release h w = Done (tt, w') ∧ wf w' ∧ (∀ c, c ≠ h → treats c w w') ∧
    q w' = specRelease h (q w) ∧ handles w' = <[h := mkHandle h true]> (handles w).
Proof.
  intros Hwf Hih. destruct (Release_run h w Hwf (mk_is_Some _ _ Hih)) as (w' & E & Hwf' & _ & Hq & Hh & _).
  rewrite decide_True in Hq by done. exists w'. split_and!; try done. intros c Hne.
  rewrite (Release_eq h w Hwf Hih) in E. injection E as <-.
  pose proof (core_dropped h w (wf_core _ Hwf) (mk_is_Some _ _ Hih)) as Hcd.
  apply (treats_trans c w (dropped h w)); [by apply treats_dropped|].
  case_decide; [by apply treats_announce|].
  eapply treats_trans; [by apply treats_settle|]. apply treats_announce. by apply promoteAll_core.
Qed.

(** ** The invariant *)

(** How a connection stands with the queue. *)
Definition standing (w : World) (c : nat) (p : Place) : Prop :=
  let admitted := c ∈ active (q w) ∧ chans w !! c = Some (mkChan (Some okStatus) true) in
  match p with
  | First => admitted
      ∨ (c ∈ queued (q w) ∧ ∃ s, chans w !! c = Some (mkChan (Some s) false))
      ∨ ((c ∉ active (q w) ++ queued (q w)) ∧ chans w !! c = Some (mkChan (Some fullStatus) true))
  | InQueue => admitted ∨ c ∈ queued (q w)
  | Relayed => c ∈ active (q w) ∧ chans w !! c = Some (mkChan None true)
  | Refused => c ∉ active (q w) ++ queued (q w)
  end.

Lemma standing_treats w w' c p : treats c w w' → standing w c p → standing w' c p.
Proof.
  intros [HA HQ HO]. unfold standing. destruct p.
  - intros [[Ha E]|[[Hq [s E]]|[Ho E]]].
    + left. destruct (HA Ha) as [? ->]. done.
    + destruct (HQ Hq) as [?|[Hq' [E'|?]]]; [by left|..]; right; left; [|by eauto].
      rewrite E'. eauto.
    + right. right. destruct (HO Ho) as [? ->]. done.
  - intros [[Ha E]|Hq].
    + left. destruct (HA Ha) as [? ->]. done.
    + destruct (HQ Hq) as [?|[Hq' _]]; [by left|by right].
  - intros [Ha E]. destruct (HA Ha) as [? ->]. done.
  - intros Ho. by destruct (HO Ho).
Qed.

Record SInv (s : Site) : Prop := {
  si_wf : wf (site s);
  si_clients c p : clients s !! c = Some p →
    standing (site s) c p ∧ handles (site s) !! c = Some (mkHandle c false);
  si_listed c : c ∈ active (q (site s)) ++ queued (q (site s)) → is_Some (clients s !! c) }.

Lemma SInv_init m mq : SInv (mkSite (AdmissionQueue.New m mq) ∅).
Proof.
  split; simpl; [apply wf_New|..].
  - intros c p. by rewrite lookup_empty.
  - intros c Hc. elem_nil.
Qed.

Lemma standing_acquired w : core w → standing (acquired w) (next w) First.
Proof.
  intros Hc. destruct (core_fresh _ Hc) as [_ Hn]. unfold standing, acquired, specAcquire, firstChan, firstStatus.
  cbn [q chans]. rewrite lookup_insert_eq.
  destruct (hasSlot (q w)); [|destruct (queueFull (q w))]; simpl.
  - left. split; [|done]. apply elem_of_app. right. by apply list_elem_of_singleton.
  - right. right. done.
  - right. left. split; [|by eauto]. apply elem_of_app. right. by apply list_elem_of_singleton.
Qed.

Lemma acquired_listed w c :
  c ∈ active (q (acquired w)) ++ queued (q (acquired w)) → c = next w ∨ c ∈ active (q w) ++ queued (q w).
Proof.
  unfold acquired, specAcquire. cbn [q].
  destruct (hasSlot (q w)); [|destruct (queueFull (q w))]; cbn [active queued set_active set_queued];
    rewrite ?elem_of_app, ?list_elem_of_singleton; tauto.
Qed.

Lemma si_below s c p : SInv s → clients s !! c = Some p → (c < next (site s))%nat.
Proof.
  intros HI Hc. apply (si_clients _ HI) in Hc as [_ Hh]. pose proof (wf_core _ (si_wf _ HI)) as Hk.
  apply (core_handles _ Hk) in Hh as [_ Hs]. by apply (core_next _ Hk).
Qed.

Lemma SInv_arrive s s' : SInv s → sexec Arrive s = Some s' → SInv s'.
Proof.
  intros HI. simpl. rewrite Acquire_eq. intros [= <-]. pose proof (si_wf _ HI) as Hwf.
  split; cbn [site clients].
  - by apply acquired_wf.
  - intros c p. rewrite lookup_insert_Some. intros [[<- <-]|[Hne Hp]].
    + split; [apply standing_acquired; by destruct Hwf|]. simpl. by rewrite lookup_insert_eq.
    + destruct (si_clients _ HI c p Hp) as [Hs Hh]. split.
      * eapply standing_treats; [|done]. apply treats_acquired; [by destruct Hwf|done].
      * simpl. by rewrite lookup_insert_ne.
  - intros c [->|Hc]%acquired_listed; [by rewrite lookup_insert_eq|].
    apply lookup_insert_is_Some. destruct (decide (next (site s) = c)); [by left|right].
    split; [done|]. by apply (si_listed _ HI).
Qed.

(** A status that is received, by how the connection stood. *)
Lemma recv_standing w h p st w' :
  wf w → standing w h p → recv h w = Done (st, w') →
  match p with
  | First | InQueue =>
      (st = okStatus ∧ h ∈ active (q w) ∧ chans w' !! h = Some (mkChan None true)) ∨
      (∃ i, queued (q w) !! i = Some h ∧ pendingAt (q w) i st) ∨
      (p = First ∧ st = fullStatus ∧ h ∉ active (q w) ++ queued (q w))
  | _ => True
  end.
Proof.
  intros Hwf Hs Hr. unfold recv in Hr.
  assert (∀ b, chans w !! h = Some (mkChan b false) → h ∈ queued (q w) →
    ∃ i, queued (q w) !! i = Some h ∧ pendingAt (q w) i st) as Hq.
  { intros b E Hin. rewrite E in Hr. destruct b as [s|]; simplify_eq/=.
    apply list_elem_of_lookup in Hin as [i Hi]. exists i. split; [done|].
    by eapply (wf_pending _ Hwf). }
  destruct p; try done; unfold standing in Hs.
  - destruct Hs as [[Ha E]|[[Hin [s E]]|[Ho E]]].
    + left. rewrite E in Hr. simplify_eq/=. by rewrite lookup_insert_eq.
    + right. left. by eapply Hq.
    + right. right. rewrite E in Hr. by simplify_eq/=.
  - destruct Hs as [[Ha E]|Hin].
    + left. rewrite E in Hr. simplify_eq/=. by rewrite lookup_insert_eq.
    + right. left. pose proof (core_open _ (wf_core _ Hwf)) as Hop. rewrite Forall_forall in Hop.
      destruct (Hop h Hin) as [b E]. by eapply Hq.
Qed.

Lemma recv_chans h w st w' c : recv h w = Done (st, w') → c ≠ h → chans w' !! c = chans w !! c.
Proof.
  intros Hr Hne. unfold recv in Hr. repeat case_match; simplify_eq; [|done]. simpl.
  by rewrite lookup_insert_ne.
Qed.

Lemma SInv_receive h s s' : SInv s → sexec (Receive h) s = Some s' → SInv s'.
Proof.
  intros HI. simpl. destruct (clients s !! h) as [p|] eqn:Hp; simpl; [|done].
  destruct (recv h (site s)) as [[st w]| |] eqn:Hr; try done.
  destruct (told p st) as [p'|] eqn:Ht; simpl; [|done]. intros [= <-].
  pose proof (si_wf _ HI) as Hwf. destruct (si_clients _ HI h p Hp) as [Hs Hh].
  destruct (recv_run _ _ _ _ Hwf Hr) as (Hwf' & Hq & Hn & Hhs).
  split; cbn [site clients]; [done|..].
  - intros c p2. rewrite Hhs, lookup_insert_Some. intros [[<- <-]|[Hne Hc]].
    + split; [|done]. pose proof (recv_standing _ _ _ _ _ Hwf Hs Hr) as Hst.
      destruct p; try done; simpl in Ht; injection Ht as <-;
        destruct Hst as [(-> & Ha & E)|[(i & Hi & Hpd)|(Hf & -> & Ho)]]; try done; simpl;
        rewrite ?Hq; try done;
        destruct Hpd as (_ & _ & -> & Hfl); rewrite ?Hfl; right; rewrite Hq; by eapply list_elem_of_lookup_2.
    + destruct (si_clients _ HI c p2 Hc) as [Hs2 Hh2]. split; [|done].
      eapply standing_treats; [|done]. apply treats_same; [by rewrite Hq..|].
      by eapply recv_chans.
  - intros c. rewrite Hq. intros Hc%(si_listed _ HI). apply lookup_insert_is_Some.
    destruct (decide (h = c)); auto.
Qed.

Lemma listed_specRelease h x c :
  c ∈ active (specRelease h x) ++ queued (specRelease h x) →
  NoDup (active x ++ queued x) → c ≠ h ∧ c ∈ active x ++ queued x.
Proof.
  intros Hc (_ & Hd & _)%NoDup_app. unfold specRelease in Hc. case_decide as Hq; [|rewrite settle_listed in Hc];
    cbn [active queued set_active set_queued] in Hc; rewrite elem_of_app, elem_of_without in Hc;
    rewrite elem_of_app.
  - destruct Hc as [Hc|Hc]; [|tauto]. split; [|by left]. intros ->. by apply (Hd h).
  - destruct Hc as [Hc|Hc]; [tauto|]. split; [|by right]. by intros ->.
Qed.

Lemma SInv_leave h s s' : SInv s → sexec (Leave h) s = Some s' → SInv s'.
Proof.
  intros HI. simpl. destruct (clients s !! h) as [p|] eqn:Hp; simpl; [|done].
  pose proof (si_wf _ HI) as Hwf. destruct (si_clients _ HI h p Hp) as [Hs Hh].
  destruct (Release_treats h (site s) Hwf Hh) as (w & -> & Hwf' & Ht & Hq & Hhs).
  intros [= <-]. split; cbn [site clients]; [done|..].
  - intros c p2 [Hne Hc]%lookup_delete_Some. destruct (si_clients _ HI c p2 Hc) as [Hs2 Hh2]. split.
    + eapply standing_treats; [|done]. by apply Ht.
    + rewrite Hhs. by rewrite lookup_insert_ne.
  - intros c. rewrite Hq. intros Hc. apply listed_specRelease in Hc as [Hne Hc%(si_listed _ HI)].
    + by rewrite lookup_delete_ne.
    + apply (core_nodup _ (wf_core _ Hwf)).
Qed.

Lemma SInv_reload m mq s s' : SInv s → sexec (Reload m mq) s = Some s' → SInv s'.
Proof.
  intros HI. simpl. pose proof (si_wf _ HI) as Hwf.
  destruct (SetMax_treats m mq (site s) Hwf) as (w & -> & Hwf' & Ht & Hq & Hhs).
  intros [= <-]. split; cbn [site clients]; [done|..].
  - intros c p Hc. destruct (si_clients _ HI c p Hc) as [Hs Hh]. split.
    + eapply standing_treats; [|done]. by apply Ht.
    + by rewrite Hhs.
  - intros c. rewrite Hq. unfold specSetMax. rewrite settle_listed. apply (si_listed _ HI).
Qed.

Lemma sreachable_inv P m mq s : sreachable P m mq s → SInv s.
Proof.
  induction 1 as [|[|h|h|m' mq'] s s' _ IH _ E]; [apply SInv_init|..];
    eauto using SInv_arrive, SInv_receive, SInv_leave, SInv_reload.
Qed.

(** ** How many are relayed *)

Definition relayed (s : Site) : nat := size (filter (fun hp => hp.2 = Relayed) (clients s)).

Lemma length_active_settle x :
  0 < max x → Z.of_nat (length (active (settle x))) ≤ Z.max (max x) (Z.of_nat (length (active x))).
Proof.
  intros H0. unfold settle, freeSlots; simpl. rewrite length_app, length_take.
  destruct (Z.eqb_spec (max x) 0); lia.
Qed.

(** At most [L] connections are active while every limit is in [1..L]. *)
Definition activeBound (L : Z) (x : Queue) : Prop := 0 < max x ≤ L ∧ Z.of_nat (length (active x)) ≤ L.

Lemma activeBound_settle L x : activeBound L x → activeBound L (settle x).
Proof. intros [Hm Ha]. pose proof (length_active_settle x). split; simpl in *; [done|]. lia. Qed.

(** The queue follows its reference behaviour. *)
Lemma sexec_queue e s s' :
  SInv s → sexec e s = Some s' →
  q (site s') = match e with
                | Arrive => specAcquire (next (site s)) (q (site s))
                | Receive _ => q (site s)
                | Leave h => specRelease h (q (site s))
                | Reload m mq => specSetMax m mq (q (site s))
                end.
Proof.
  intros HI. pose proof (si_wf _ HI) as Hwf. destruct e as [|h|h|m mq]; simpl.
  - rewrite Acquire_eq. by intros [= <-].
  - destruct (clients s !! h) as [p|]; simpl; [|done].
    destruct (recv h (site s)) as [[st w]| |] eqn:Hr; try done.
    destruct (told p st); simpl; [|done]. intros [= <-].
    by destruct (recv_run _ _ _ _ Hwf Hr) as (_ & Hq & _).
  - destruct (clients s !! h) as [p|] eqn:Hp; simpl; [|done].
    destruct (si_clients _ HI h p Hp) as [_ Hh].
    destruct (Release_treats h (site s) Hwf Hh) as (w & -> & _ & _ & Hq & _). by intros [= <-].
  - destruct (SetMax_treats m mq (site s) Hwf) as (w & -> & _ & _ & Hq & _). by intros [= <-].
Qed.

Lemma sexec_bound L e s s' :
  SInv s → activeBound L (q (site s)) → (∀ m mq, e = Reload m mq → 0 < m ≤ L) →
  sexec e s = Some s' → activeBound L (q (site s')).
Proof.
  intros HI Hb He ->%(sexec_queue _ _ _ HI). destruct Hb as [Hm Ha]. destruct e as [|h|h|m mq].
  - unfold specAcquire, hasSlot. destruct (_ || _) eqn:E; [|by destruct (queueFull _)].
    split; simpl; [done|]. rewrite length_app. simpl. lia.
  - done.
  - unfold specRelease. case_decide; [done|]. apply activeBound_settle.
    pose proof (length_without_le h (active (q (site s)))). split; simpl; lia.
  - apply activeBound_settle. split; [|done]. simpl. by eapply He.
Qed.

Lemma sreachable_bound L m mq s :
  sreachable (fun m => 0 < m ≤ L) m mq s → activeBound L (q (site s)).
Proof.
  induction 1 as [Hm|e s s' Hr IH He E]; [split; simpl; lia|].
  eapply sexec_bound; [by eapply sreachable_inv|done|done|done].
Qed.

Lemma relayed_active s : SInv s → (relayed s ≤ length (active (q (site s))))%nat.
Proof.
  intros HI. unfold relayed. set (rs := filter _ (clients s)).
  rewrite <- (length_map_to_list rs), <- (length_fmap fst). apply submseteq_length, NoDup_submseteq.
  - apply NoDup_fst_map_to_list.
  - intros h Hh. apply list_elem_of_fmap in Hh as ([h' p] & -> & Hp).
    apply elem_of_map_to_list, map_lookup_filter_Some in Hp as [Hc Hr]. simpl in Hr. subst p.
    by apply (si_clients _ HI) in Hc as [[Ha _] _].
Qed.

(** ** Who waits, and for whom *)

Definition waiting (p : Place) : bool := match p with First | InQueue => true | _ => false end.
(** A place where the wait is over. *)
Definition over (p : Place) : bool := negb (waiting p).

(** The wait of [c] can end now. *)
Definition ready (s : Site) (c : nat) : Prop :=
  ∃ s' p', sexec (Receive c) s = Some s' ∧ clients s' !! c = Some p' ∧ over p' = true.

Lemma receive_ready s c p st b cl :
  clients s !! c = Some p → waiting p = true → chans (site s) !! c = Some (mkChan (Some st) cl) →
  (∃ p', told p st = Some p' ∧ over p' = b) → b = true → ready s c.
Proof.
  intros Hc Hw E (p' & Ht & Ho) ->. unfold ready. simpl. rewrite Hc. simpl. unfold recv. rewrite E. simpl.
  rewrite Ht. simpl. eexists _, p'. split; [reflexivity|]. simpl. by rewrite lookup_insert_eq.
Qed.

Lemma admitted_ready s c p :
  clients s !! c = Some p → waiting p = true →
  chans (site s) !! c = Some (mkChan (Some okStatus) true) → ready s c.
Proof.
  intros Hc Hw E. eapply receive_ready; [done|done|done| |reflexivity].
  destruct p; try done; by eexists.
Qed.

Lemma active_moves s c :
  SInv s → c ∈ active (q (site s)) → clients s !! c = Some Relayed ∨ ready s c.
Proof.
  intros HI Ha. destruct (si_listed _ HI c) as [p Hp]; [by apply elem_of_app; left|].
  destruct (si_clients _ HI c p Hp) as [Hs _]. pose proof (wf_core _ (si_wf _ HI)) as Hk.
  pose proof (core_nodup _ Hk) as (_ & Hd & _)%NoDup_app.
  destruct p; simpl in Hs; [right..|by left|].
  - eapply admitted_ready; [done|done|]. destruct Hs as [[_ E]|[[Hq _]|[Ho _]]]; [done|..].
    + by destruct (Hd c).
    + exfalso. apply Ho. apply elem_of_app. by left.
  - eapply admitted_ready; [done|done|]. destruct Hs as [[_ E]|Hq]; [done|]. by destruct (Hd c).
  - exfalso. apply Hs. apply elem_of_app. by left.
Qed.

Lemma blocked_by_active x : 0 ≤ max x → hasSlot x = false → ∃ c, c ∈ active x.
Proof.
  intros H0 Hs. unfold hasSlot in Hs. apply orb_false_iff in Hs as [H1 H2].
  apply Z.ltb_ge in H1. apply Z.eqb_neq in H2.
  destruct (active x) as [|c l]; [simpl in H1; lia|]. exists c. by left.
Qed.

Lemma sreachable_max P m mq s : sreachable P m mq s → P (max (q (site s))).
Proof.
  induction 1 as [Hm|e s s' Hr IH He E]; [done|]. apply sreachable_inv in Hr as HI.
  rewrite (sexec_queue _ _ _ HI E). destruct e as [|h|h|m' mq'].
  - unfold specAcquire. destruct (hasSlot _); [done|]. by destruct (queueFull _).
  - done.
  - unfold specRelease. by case_decide.
  - by eapply He.
Qed.

(** ** Properties *)

(** The limits a reload sets are in [1..L]. *)
Definition limitsIn (L : Z) (e : UpstreamEvent) : Prop :=
  match e with Configure (Some (m, _)) => 0 < m ≤ L | _ => True end.

(** How often the upstream was dropped from the configuration. *)
Fixpoint drops (es : list UpstreamEvent) : nat :=
  match es with [] => 0 | Configure None :: es => S (drops es) | _ :: es => drops es end.

(** All clients of the upstream that are being relayed, whichever queue admitted them. *)
Definition relayedAll (u : UpstreamSites) : nat := sum_list_with relayed (sites u).

Lemma site_bounded L m mq s :
  sreachable (fun m => 0 < m ≤ L) m mq s → Z.of_nat (relayed s) ≤ L.
Proof.
  intros Hr. pose proof (relayed_active s (sreachable_inv _ _ _ _ Hr)).
  apply sreachable_bound in Hr as [_ Ha]. lia.
Qed.

(** Every queue is as in [sreachable], and there are at most as many as times the upstream
    was added. *)
Definition grown (L : Z) (k : nat) (u : UpstreamSites) : Prop :=
  Forall (fun s => ∃ m mq, sreachable (fun m => 0 < m ≤ L) m mq s) (sites u) ∧
  (length (sites u) ≤ k + match current u with Some _ => 1 | None => 0 end)%nat.

Lemma grown_at L k u i e s s' c :
  grown L k u → sites u !! i = Some s → sexec e s = Some s' → (∀ m mq, e = Reload m mq → 0 < m ≤ L) →
  current u = c → grown L k (mkUpstreamSites (<[i := s']> (sites u)) c).
Proof.
  intros [Hall Hlen] Hi Hs He <-. split; simpl; [|by rewrite length_insert].
  rewrite Forall_lookup in Hall. destruct (Hall i s Hi) as (m & mq & Hr).
  apply Forall_lookup. intros j x. rewrite list_lookup_insert_Some.
  intros [(-> & -> & _)|[_ Hj]]; [|by eapply Hall]. exists m, mq. by eapply sr_step.
Qed.

Lemma grown_run L es k u u' :
  Forall (limitsIn L) es → grown L k u → urun es u = Some u' → grown L (k + drops es) u'.
Proof.
  revert k u. induction es as [|e es IH]; intros k u Hes Hg Hrun; simpl in Hrun.
  { injection Hrun as <-. by rewrite Nat.add_0_r. }
  apply Forall_cons in Hes as [He Hes]. apply bind_Some in Hrun as (u1 & E & Hrun).
  destruct e as [i e|[[m mq]|]]; simpl in E, He |- *.
  - eapply IH; [done| |done]. destruct e; try done;
      apply bind_Some in E as (s & Hi & (s' & Hs & [= <-])%bind_Some); by eapply grown_at.
  - eapply IH; [done| |done]. destruct (current u) as [i|] eqn:Ec.
    + apply bind_Some in E as (s & Hi & (s' & Hs & [= <-])%bind_Some). eapply (grown_at L k u i (Reload m mq)); [done..| |done].
      by intros ? ? [= <- <-].
    + injection E as <-. destruct Hg as [Hall Hlen]. rewrite Ec in Hlen. split; simpl.
      * apply Forall_app. split; [done|]. apply Forall_singleton. exists m, mq. by constructor.
      * rewrite length_app. simpl. lia.
  - rewrite Nat.add_succ_r, <- Nat.add_succ_l. eapply IH; [done| |done]. injection E as <-.
    destruct Hg as [Hall Hlen]. split; [done|]. simpl. destruct (current u); lia.
Qed.

(** C7: While every limit set by a reload is positive and at most [L], each queue an
    upstream has or had has at most [L] of its clients relayed at a time, in every interleaving
    of arrivals, deliveries, departures and reloads.  An upstream that stays in the
    configuration has one queue, so that [L] bounds all its clients; each time it was dropped
    and came back it may have [L] more, those its earlier queues admitted. *)
Theorem serving_bounded L es u :
  0 ≤ L → Forall (limitsIn L) es → urun es noUpstream = Some u →
  (∀ i s, sites u !! i = Some s → Z.of_nat (relayed s) ≤ L) ∧
  Z.of_nat (relayedAll u) ≤ L * (1 + Z.of_nat (drops es)).
Proof.
  intros HL Hes Hrun.
  assert (grown L 0 noUpstream) as H0 by (split; simpl; [done|lia]).
  destruct (grown_run L es 0 _ _ Hes H0 Hrun) as [Hall Hlen]. simpl in Hlen.
  assert (Forall (fun s => Z.of_nat (relayed s) ≤ L) (sites u)) as Hb.
  { eapply Forall_impl; [exact Hall|]. intros s (m & mq & Hr). by eapply site_bounded. }
  split; [by rewrite Forall_lookup in Hb|].
  assert (Z.of_nat (relayedAll u) ≤ L * Z.of_nat (length (sites u))) as Hsum.
  { unfold relayedAll. clear -Hb. induction Hb as [|s l Hs _ IH]; simpl; lia. }
  destruct (current u); nia.
Qed.

(** Clients hold the slots and nobody else does: each client that is relayed has a slot
    of its own, every slot and every place in the waiting list belongs to a client that
    has not left, and once all clients have left the queue is empty. *)
Theorem serving_no_lost_slots P m mq s :
  sreachable P m mq s →
  (∀ h, clients s !! h = Some Relayed → h ∈ active (q (site s))) ∧
  NoDup (active (q (site s)) ++ queued (q (site s))) ∧
  (∀ h, h ∈ active (q (site s)) ++ queued (q (site s)) → is_Some (clients s !! h)) ∧
  (clients s = ∅ → active (q (site s)) = [] ∧ queued (q (site s)) = []).
Proof.
  intros HI%sreachable_inv. split_and!.
  - intros h Hh. by apply (si_clients _ HI) in Hh as [[Ha _] _].
  - apply (core_nodup _ (wf_core _ (si_wf _ HI))).
  - apply (si_listed _ HI).
  - intros E. apply app_eq_nil. apply elem_of_nil_inv. intros h Hh.
    apply (si_listed _ HI) in Hh as [p Hp]. by rewrite E, lookup_empty in Hp.
Qed.

(** What a waiting client is told is true: an admission is given to a client that has a
    slot, a position is its place in the waiting list, and a refusal comes only first and to
    a client that was not put in the list. *)
Theorem serving_told_true P m mq s h p st w :
  sreachable P m mq s → clients s !! h = Some p → waiting p = true →
  recv h (site s) = Done (st, w) →
  (st = okStatus ∧ h ∈ active (q (site s))) ∨
  (∃ i, queued (q (site s)) !! i = Some h ∧ pendingAt (q (site s)) i st) ∨
  (p = First ∧ st = fullStatus ∧ h ∉ active (q (site s)) ++ queued (q (site s))).
Proof.
  intros HI%sreachable_inv Hp Hw Hr. destruct (si_clients _ HI h p Hp) as [Hs _].
  pose proof (recv_standing _ _ _ _ _ (si_wf _ HI) Hs Hr) as Hst.
  destruct p; try done; destruct Hst as [(? & ? & ?)|Hst]; by auto.
Qed.

(** C25: No client waits for nothing: when limits are not negative and some client waits,
    then some client is being relayed, or some client can receive a status that ends its
    wait now.  Clients can always arrive and leave. *)
Theorem serving_progress P m mq s :
  (∀ m, P m → 0 ≤ m) → sreachable P m mq s →
  (∀ h p, clients s !! h = Some p → waiting p = true →
     ∃ c, clients s !! c = Some Relayed ∨ ready s c) ∧
  is_Some (sexec Arrive s) ∧
  (∀ h, is_Some (clients s !! h) → is_Some (sexec (Leave h) s)).
Proof.
  intros HP Hr. pose proof (sreachable_inv _ _ _ _ Hr) as HI. pose proof (si_wf _ HI) as Hwf. split_and!.
  - intros h p Hp Hw. destruct (si_clients _ HI h p Hp) as [Hs _].
    assert (h ∈ queued (q (site s)) → ∃ c, clients s !! c = Some Relayed ∨ ready s c) as Hq.
    { intros Hin. destruct (wf_work _ Hwf) as [Hn|Hn]; [rewrite Hn in Hin; elem_nil|].
      apply blocked_by_active in Hn as [c Hc]; [|by apply HP, (sreachable_max P m mq)].
      exists c. by apply active_moves. }
    destruct p; try done.
    + destruct Hs as [[Ha _]|[[Hin _]|[_ E]]]; [|by apply Hq|].
      * exists h. by apply active_moves.
      * exists h. right. eapply receive_ready; [done|done|done| |reflexivity]. by eexists.
    + destruct Hs as [[Ha _]|Hin]; [|by apply Hq]. exists h. by apply active_moves.
  - simpl. rewrite Acquire_eq. by eexists.
  - intros h [p Hp]. destruct (si_clients _ HI h p Hp) as [_ Hh]. simpl. rewrite Hp. simpl.
    destruct (Release_treats h (site s) Hwf Hh) as (w & -> & _). by eexists.
Qed.

(** ** The wait in [relay] *)

Definition statuses (events : list QueueEvent) : list Status :=
  omap (fun e => match e with Got st => Some st | Minute => None end) events.
Fixpoint walk (p : Place) (sts : list Status) : option Place :=
  match sts with [] => Some p | st :: sts => told p st ≫= fun p' => walk p' sts end.

Lemma queuing_walk what status events st st' :
  queuing what status events st = Done (Go tt, st') → Ok status = false →
  ∃ k, walk InQueue (statuses (take k events)) = Some Relayed.
Proof.
  revert status st. induction events as [|e events IH]; intros status st Hr Hs; simpl in Hr; rewrite Hs in Hr;
    [done|].
  destruct (Ok (match e with Got st => st | Minute => status end)) eqn:He.
  - exists 1%nat. destruct e as [st1|]; [|congruence]. simpl. by rewrite He.
  - inv_go Hr. apply IH in Hr as [k Hk]; [|done]. exists (S k). destruct e as [st1|]; [|done].
    change (statuses (take (S k) (Got st1 :: events))) with (st1 :: statuses (take k events)).
    simpl. by rewrite He.
Qed.

(** [relay] goes on to its upstream only after statuses that take a connection of this
    model to the place of the relayed ones. *)
Theorem await_as_modelled max events rq st st' :
  awaitSlot max events rq st = Done (Go tt, st') →
  ∃ k, walk First (statuses (take k events)) = Some Relayed.
Proof.
  unfold awaitSlot. destruct events as [|[status|] events]; try done.
  destruct (Full status) eqn:Hf; intros Hr; [by do 3 inv_go Hr|].
  destruct (Ok status) eqn:Hs; [exists 1%nat; simpl; by rewrite Hf, Hs|].
  inv_go Hr. inv_go Hr. apply queuing_walk in Hr as [k Hk]; [|done]. exists (S k).
  change (statuses (take (S k) (Got status :: events))) with (status :: statuses (take k events)).
  simpl. by rewrite Hf, Hs.
Qed.

(** ** Instances *)

Section instances.
Fixpoint srun (es : list Event) (s : Site) : option Site :=
  match es with [] => Some s | e :: es => s' ← sexec e s; srun es s' end.

Definition reloadOk (P : Z → Prop) (e : Event) : Prop := ∀ m mq, e = Reload m mq → P m.

Lemma srun_reachable P m mq es s s' :
  sreachable P m mq s → Forall (reloadOk P) es → srun es s = Some s' → sreachable P m mq s'.
Proof.
  revert s. induction es as [|e es IH]; intros s Hr Hes E; simpl in E; [congruence|].
  apply Forall_cons in Hes as [He Hes]. destruct (sexec e s) as [s1|] eqn:E1; simpl in E; [|done].
  eapply IH; [|done|done]. by eapply sr_step.
Qed.

(** One slot and two waiting places: three clients, the first is relayed, the second
    waits, a reload opens a second slot, and the first leaves. *)
Definition demoEvents : list Event :=
  [Arrive; Arrive; Receive 0; Receive 1; Arrive; Reload 2 2; Receive 1; Leave 0].
Definition demoSite : Site :=
  default (mkSite (AdmissionQueue.New 1 2) ∅) (srun demoEvents (mkSite (AdmissionQueue.New 1 2) ∅)).

Lemma demoSite_reachable (P : Z → Prop) : P 1 → P 2 → sreachable P 1 2 demoSite.
Proof.
  intros H1 H2. apply (srun_reachable P 1 2 demoEvents (mkSite (AdmissionQueue.New 1 2) ∅)).
  - by constructor.
  - unfold demoEvents. repeat constructor; intros m mq [=]; by subst.
  - vm_compute. reflexivity.
Qed.

(** One slot: a client is relayed, the upstream is dropped and comes back, and another client
    is relayed by its new queue. *)
Definition readded : list UpstreamEvent :=
  [Configure (Some (1, 2)); At 0 Arrive; At 0 (Receive 0); Configure None; Configure (Some (1, 2));
   At 1 Arrive; At 1 (Receive 0)].

Lemma serving_bounded_witness :
  ∃ u, urun readded noUpstream = Some u ∧ Z.of_nat (relayedAll u) ≤ 1 * (1 + Z.of_nat (drops readded)).
Proof.
  destruct (urun readded noUpstream) as [u|] eqn:E; [|vm_compute in E; discriminate].
  exists u. split; [reflexivity|]. apply (serving_bounded 1 readded u); [lia| |exact E].
  repeat constructor; simpl; lia.
Defined.

(** A limit of one does not hold over that reload: two clients are relayed at once. *)
Example readded_exceeds_limit :
  relayedAll <$> urun readded noUpstream = Some 2%nat ∧ Forall (limitsIn 1) readded.
Proof. split; [by vm_compute|]. repeat constructor; simpl; lia. Qed.

Lemma serving_no_lost_slots_witness : 1%nat ∈ active (q (site demoSite)).
Proof.
  apply (serving_no_lost_slots (fun _ => True) 1 2 demoSite); [by apply demoSite_reachable|].
  vm_compute. reflexivity.
Defined.

Lemma serving_told_true_witness :
  ∃ st w, recv 2 (site demoSite) = Done (st, w) ∧ st = okStatus.
Proof.
  destruct (recv 2 (site demoSite)) as [[st w]| |] eqn:E; [|vm_compute in E; discriminate..].
  exists st, w. split; [reflexivity|].
  destruct (serving_told_true (fun _ => True) 1 2 demoSite 2 First st w) as [[H _]|[(i & Hi & _)|(_ & H & _)]].
  - by apply demoSite_reachable.
  - vm_compute. reflexivity.
  - reflexivity.
  - exact E.
  - exact H.
  - assert (queued (q (site demoSite)) = []) as En by (vm_compute; reflexivity). rewrite En in Hi. discriminate Hi.
  - assert (match recv 2 (site demoSite) with Done (s, _) => s | _ => zeroStatus end = okStatus) as Eo
      by (vm_compute; reflexivity).
    rewrite E in Eo. exact Eo.
Defined.

Lemma serving_progress_witness :
  ∃ c, clients demoSite !! c = Some Relayed ∨ ready demoSite c.
Proof.
  destruct (serving_progress (fun m => 0 <= m) 1 2 demoSite) as [Hw _].
  - intros m Hm. exact Hm.
  - apply demoSite_reachable; lia.
  - apply (Hw 2%nat First); vm_compute; reflexivity.
Defined.
End instances.
