(* ===== verification/EndToEnd.v ===== *)
(** * From the cluster to a client: controller, data plane and relay together

    The table [Controller] builds from a snapshot is loaded by the servers of the data
    plane ([ServerConfig], [Dataplane]), and [Relay] serves clients by it.  The theorems
    here follow a backend reference of a route all the way to a connection. *)
From S2P Require Import Prelude GoStd Api Snapshot Claim Bind Backends Fixture Net Upstreams Admission Logging ServerConfig Translate Controller Relay Dataplane.
Open Scope Z_scope.

Section composed.
(** The cluster, and the orders in which Go ranges over its maps. *)
Context (selectorMatches : LabelSelector → gmap string string → result bool).
Context (snap : Snapshot) (bindOrd : list (NamespacedName * list NamespacedName)).
Context (Hbind : rangeOrders selectorMatches snap (ClaimClasses snap) bindOrd).
Context (gwOrd : list (NamespacedName * Gateway)) (routeOrd : list (NamespacedName * RsyncRoute)).
Context (Hroutes : routeOrd ≡ₚ map_to_list (RsyncRoutes snap)).

(** The data plane. *)
Context {Q : Type} `{AdmissionControl Q}.
Context (loadX509KeyPair : string → string → result string).
Context (resolveTCPAddr : string → option error).
Context (dial : Dialer → string → result Conn).
Context (openLogFile : string → option error).

Abbreviation claims := (ClaimClasses snap).
Abbreviation results := (BindRoutesIn selectorMatches snap claims bindOrd).
Abbreviation table := (buildTable snap claims results gwOrd routeOrd).
Abbreviation load := (loadConfig loadX509KeyPair resolveTCPAddr dial openLogFile).

(** A backend that the cluster lets serve [m]. *)
Definition servedBy (m : string) (b : ResolvedBackend) : Prop :=
  ∃ g rk route, acceptedOn results g rk ∧ RsyncRoutes snap !! rk = Some route ∧
    m ∈ EffectiveModules route ∧ b ∈ (ResolveBackends snap rk route).1.

Lemma table_target c s s' m t :
  table = Done (Ret c) → wfServer s → load c false s = Done (Ret tt, s') →
  t ∈ default [] (getTargetsForModule s' m) →
  ∃ b, servedBy m b ∧ t_Addr t = backendAddr (toRouteBackend b).
Proof.
  intros Et Hwf El Ht.
  destruct (load_routes loadX509KeyPair resolveTCPAddr dial openLogFile c false s s' Hwf El)
    as (cert & ups & disc & _ & _ & Hrt & _).
  apply Hrt in Ht as (n & v & Hv & -> & Hm).
  destruct (buildTable_sound selectorMatches snap bindOrd Hbind gwOrd routeOrd Hroutes) as (c' & E' & Hs).
  rewrite Et in E'. injection E' as <-.
  destruct (Hs n v Hv) as (g & rk & route & ref & b & Ha & Hr & Hmod & Hd & Haddr & Href & Hw & Hb).
  rewrite Hd, Hmod in Hm. exists b. split; [|done]. exists g, rk, route. split_and!; try done.
  apply usable_iff. by exists ref.
Qed.

(** A target of every served backend, if upstream names do not clash. *)
Lemma table_target_complete c s s' m b :
  table = Done (Ret c) → wfServer s → load c false s = Done (Ret tt, s') →
  NoDup (map fst (tableEntries (primaryOf claims gwOrd).1 (buildInputs snap claims results routeOrd))) →
  servedBy m b →
  ∃ t, t ∈ default [] (getTargetsForModule s' m) ∧ t_Addr t = backendAddr (toRouteBackend b).
Proof.
  intros Et Hwf El Hnd (g & rk & route & Ha & Hr & Hm & Hb).
  destruct (load_routes loadX509KeyPair resolveTCPAddr dial openLogFile c false s s' Hwf El)
    as (cert & ups & disc & _ & _ & Hrt & _).
  apply list_elem_of_lookup in Hb as [i Hi].
  destruct (buildTable_complete selectorMatches snap bindOrd Hbind gwOrd routeOrd c g rk route i b
    Hroutes Et Hnd Ha Hr Hi) as (u & Hu & Hmod & Hd & Haddr).
  exists (mkTarget (UpstreamName rk (Z.of_nat i)) (u_Address u) (u_UseProxyProtocol u)). split; [|done].
  apply Hrt. exists (UpstreamName rk (Z.of_nat i)), u. split_and!; try done. by rewrite Hd, Hmod.
Qed.

(** C5: A client is connected only to a backend the cluster lets serve its module: when
    [relay], run by a server that loaded the table of a snapshot, connects to an upstream,
    the module of the connection is one of a route that is accepted on a Gateway, and the
    address dialled is that of a Service one of the route's backendRefs refers to, which
    exists and which the route may refer to. *)
Theorem gateway_serves_only_accepted c s s' w st r st' u :
  table = Done (Ret c) → wfServer s → load c false s = Done (Ret tt, s') →
  up st = None → relay s' w st = Done (r, st') → up st' = Some u →
  ∃ g rk route ref b, acceptedOn results g rk ∧ RsyncRoutes snap !! rk = Some route ∧
    ci_Module (info st') ∈ EffectiveModules route ∧
    ref ∈ BackendRefs (r_Spec route) ∧ br_Weight ref ≠ Some 0 ∧ refersToBackend snap rk ref b ∧
    ∃ u0, w_dial w (backendAddr (toRouteBackend b)) = Ret u0.
Proof.
  intros Et Hwf El Hn Hr Hu.
  destruct (relay_contacts s' w st r st' u Hn Hr Hu) as (ts & t & Hts & Ht & _ & _ & _ & u0 & Hd).
  destruct (table_target c s s' (ci_Module (info st')) t Et Hwf El) as (b & Hb & Haddr).
  { by rewrite Hts. }
  destruct Hb as (g & rk & route & Ha & Hrt & Hm & Hb). apply usable_iff in Hb as (ref & Href & Hw & Hb).
  exists g, rk, route, ref, b. split_and!; try done. exists u0. by rewrite <- Haddr.
Qed.

(** C28: The modules a loaded server serves, and the addresses it serves them at, are
    exactly those of the accepted routes and their usable backends, provided no two
    backends get the same upstream name. *)
Theorem gateway_targets_exact c s s' m addr :
  table = Done (Ret c) → wfServer s → load c false s = Done (Ret tt, s') →
  NoDup (map fst (tableEntries (primaryOf claims gwOrd).1 (buildInputs snap claims results routeOrd))) →
  (∃ t, t ∈ default [] (getTargetsForModule s' m) ∧ t_Addr t = addr) ↔
  ∃ b, servedBy m b ∧ addr = backendAddr (toRouteBackend b).
Proof.
  intros Et Hwf El Hnd. split.
  - intros (t & Ht & <-). by eapply table_target.
  - intros (b & Hb & ->). by eapply table_target_complete.
Qed.


(** *** The data plane accepts every table the controller builds *)

Lemma buildUpstreams_ok c names :
  (∀ n u, cf_Upstreams c !! n = Some u → ∃ x, buildUpstream resolveTCPAddr (cf_Proxy c) n u = Ret x) →
  ∃ ups, buildUpstreams resolveTCPAddr c names = Ret ups.
Proof.
  intros Hu. induction names as [|n names [ups E]]; simpl; [by eexists|].
  destruct (cf_Upstreams c !! n) as [u|] eqn:En; [|by eexists]. destruct (Hu n u En) as [x Ex].
  rewrite Ex, E. by eexists.
Qed.

Lemma EffectiveModules_nonempty route : EffectiveModules route ≠ [].
Proof. unfold EffectiveModules. by destruct (ModuleNames (r_Spec route)). Qed.

(** Servers of the data plane have no TLS listener. *)
Definition embedded (s : Server Q) : Prop := wfServer s ∧ s_TLSListener s = false.

Lemma table_checked c (s : Server Q) :
  table = Done (Ret c) → s_TLSListener s = false →
  (∀ n u, cf_Upstreams c !! n = Some u → resolveTCPAddr (u_Address u) = None) →
  (∃ cert ups, checkConfig loadX509KeyPair resolveTCPAddr s c = Ret (cert, ups)) ∧
  0 ≤ p_RelayIdleTimeoutSecs (cf_Proxy c).
Proof.
  intros Et Htls Hres. destruct (buildTable_run selectorMatches snap bindOrd Hbind gwOrd routeOrd) as (p & Hp & E).
  rewrite Et in E. injection E as ->. cbn [cf_Proxy cf_Upstreams] in *.
  destruct (settings_acceptable _ _ (primaryOf_valid snap gwOrd) Hp) as (Hck & Hid & Hl).
  split; [|done]. unfold checkConfig, checkTLS. cbn [cf_Proxy]. rewrite Htls, Hl, Hck, andb_false_r. simpl.
  rewrite andb_false_r. simpl.
  destruct (buildUpstreams_ok (mkConfig p (insertAll ∅ (tableEntries (primaryOf claims gwOrd).1
    (buildInputs snap claims results routeOrd)))) (upstreamNames (mkConfig p (insertAll ∅
    (tableEntries (primaryOf claims gwOrd).1 (buildInputs snap claims results routeOrd)))))) as [ups ->].
  - intros n u Hu. pose proof (Hres n u Hu) as Hr. cbn [cf_Upstreams] in Hu.
    apply insertAll_sound in Hu as [Hin|Hin]; [|by rewrite lookup_empty in Hin].
    apply elem_of_tableEntries in Hin as (ri & spec & i & b & Hri & Hs & Hb & -> & ->).
    apply (buildInputs_elem selectorMatches snap bindOrd Hbind) in Hri as (rk & route & spec' & g & _ & _ & -> & Hv).
    simpl in Hs. injection Hs as <-. unfold buildUpstream, validateTCPOrUnixAddr.
    cbn [upstreamOf u_Modules u_DiscoverModules u_PerIPMaxActiveConns u_Address ri_Modules] in *.
    rewrite bool_decide_false by apply EffectiveModules_nonempty. simpl.
    pose proof (default_nonNegative _ (vs_perIP _ Hv)) as Hn. unfold derefInt32.
    destruct (Z.ltb_spec (default 0 (PerIPMaxActiveConnections spec')) 0); [lia|].
    rewrite Hr. destruct (isUnixPath _); by eexists.
  - by eexists _, _.
Qed.

Lemma load_listener c (s : Server Q) r s' : load c false s = Done (r, s') → s_TLSListener s' = s_TLSListener s.
Proof.
  unfold loadConfig. destruct (checkConfig _ _ _ _) as [[cert ups]|e]; [|by intros [= _ <-]].
  simpl. destruct (_ <? 0); [by intros [= _ <-]|]. unfold commit, mbind, outcome_bind.
  destruct (updateUpstreamQueuesLocked _ _) as [[[queues store] nx]| |]; try done. by intros [= _ <-].
Qed.

Lemma table_loads c (s : Server Q) :
  table = Done (Ret c) → embedded s →
  (∀ n u, cf_Upstreams c !! n = Some u → resolveTCPAddr (u_Address u) = None) →
  ∃ s', load c false s = Done (Ret tt, s') ∧ embedded s'.
Proof.
  intros Et [Hwf Htls] Hres. destruct (table_checked c s Et Htls Hres) as [(cert & ups & Hc) Hi].
  destruct (load_accepted loadX509KeyPair (fun _ => resolveTCPAddr) dial openLogFile 0 c s Hwf)
    as (r & s' & E & Hwf' & Hr).
  rewrite Hc in Hr. destruct r as [[]|e].
  - exists s'. split; [done|]. split; [done|]. by rewrite (load_listener _ _ _ _ E).
  - destruct Hr as [Hr _]. simpl in Hr. lia.
Qed.
End composed.

Section applied.
Context (selectorMatches : LabelSelector → gmap string string → result bool).
Context (snap : Snapshot) (bindOrd : list (NamespacedName * list NamespacedName)).
Context (Hbind : rangeOrders selectorMatches snap (ClaimClasses snap) bindOrd).
Context (gwOrd : list (NamespacedName * Gateway)) (routeOrd : list (NamespacedName * RsyncRoute)).
Context (Hroutes : routeOrd ≡ₚ map_to_list (RsyncRoutes snap)).
Context {Q : Type} `{AdmissionControl Q}.
Context (loadX509KeyPair : string → string → result string).
Context (resolveTCPAddr : nat → string → option error).
Context (dial : Dialer → string → result Conn).
Context (openLogFile : string → option error).

Abbreviation results := (BindRoutesIn selectorMatches snap (ClaimClasses snap) bindOrd).
Abbreviation table := (buildTable snap (ClaimClasses snap) results gwOrd routeOrd).

(** A server that serves only what the cluster allows. *)
Definition obeys (s : Server Q) : Prop :=
  ∀ m t, t ∈ default [] (getTargetsForModule s m) →
    ∃ b, servedBy selectorMatches snap bindOrd m b ∧ t_Addr t = backendAddr (toRouteBackend b).

Lemma applyAll_table c i servers :
  table = Done (Ret c) → Forall embedded servers →
  (∀ i n u, cf_Upstreams c !! n = Some u → resolveTCPAddr i (u_Address u) = None) →
  ∃ servers', applyAll loadX509KeyPair resolveTCPAddr dial openLogFile i c servers =
    Done (Ret tt, servers') ∧ length servers' = length servers ∧
    Forall (fun s' => embedded s' ∧ obeys s') servers'.
Proof.
  intros Et Hs Hres. revert i. induction Hs as [|s servers Hs _ IH]; intros i; [by exists []|].
  destruct (table_loads selectorMatches snap bindOrd Hbind gwOrd routeOrd loadX509KeyPair (resolveTCPAddr i)
    dial openLogFile c s Et Hs (Hres i)) as (s' & E & Hs').
  destruct (IH (S i)) as (servers' & E' & Hl & Hall). exists (s' :: servers').
  split; [|split; [simpl; lia|constructor; [|done]]].
  - cbn [applyAll]. unfold ApplyConfig, mbind, outcome_bind. rewrite E, E'. done.
  - split; [done|]. intros m t Ht.
    eapply (table_target selectorMatches snap bindOrd Hbind gwOrd routeOrd Hroutes loadX509KeyPair
      (resolveTCPAddr i) dial openLogFile c s s'); [done|apply Hs|done|done].
Qed.

(** C26: Every table the controller builds is accepted by the data plane: for any cluster
    the table exists, and if the addresses of its backends resolve, applying it to the
    servers of the data plane succeeds on each of them, after which they serve only
    what the cluster allows and are ready for the next update. *)
Theorem gateway_table_applied (servers : list (Server Q)) :
  Forall embedded servers →
  ∃ c, table = Done (Ret c) ∧
    ((∀ i n u, cf_Upstreams c !! n = Some u → resolveTCPAddr i (u_Address u) = None) →
     ∃ servers', Apply loadX509KeyPair resolveTCPAddr dial openLogFile c servers = Done (Ret tt, servers') ∧
       length servers' = length servers ∧ Forall (fun s' => embedded s' ∧ obeys s') servers').
Proof.
  intros Hs. destruct (buildTable_sound selectorMatches snap bindOrd Hbind gwOrd routeOrd Hroutes) as (c & Et & _).
  exists c. split; [done|]. intros Hres. by apply applyAll_table.
Qed.
End applied.

(** ** Instances: a client of the fixture asks for a module of its older route *)

Section instances.
Import Queue.AdmissionQueue.

Abbreviation fixtureTable :=
  (buildTable Fixture.snap (ClaimClasses Fixture.snap)
    (BindRoutesIn Fixture.noSelector Fixture.snap (ClaimClasses Fixture.snap) fixtureOrder)
    (map_to_list (Gateways Fixture.snap)) (map_to_list (RsyncRoutes Fixture.snap))).
Definition fixtureConfig : Config := match fixtureTable with Done (Ret c) => c | _ => emptyTableConfig end.
Abbreviation fixtureLoad := (loadConfig noTLS resolves noDial noFiles fixtureConfig false ServerConfig.New).
Definition fixtureServer : Server World := loaded fixtureLoad.

Lemma fixtureTable_ok : fixtureTable = Done (Ret fixtureConfig).
Proof.
  assert (is_ok : match fixtureTable with Done (Ret _) => true | _ => false end = true) by (vm_compute; reflexivity).
  unfold fixtureConfig. revert is_ok. generalize fixtureTable. by intros [[c|e]| |].
Qed.

Lemma fixtureServer_ok : fixtureLoad = Done (Ret tt, fixtureServer).
Proof.
  assert (is_ok : match fixtureLoad with Done (Ret _, _) => true | _ => false end = true)
    by (vm_compute; reflexivity).
  unfold fixtureServer. revert is_ok. generalize fixtureLoad. by intros [[[[]|e] s]| |].
Qed.

Example fixture_serves :
  map t_Addr (default [] (getTargetsForModule fixtureServer "debian")) =
    ["deb.apps.svc:873"; "deb.shared.svc:873"] ∧
  getTargetsForModule fixtureServer "ubuntu" = None.
Proof. by vm_compute. Qed.

Abbreviation fixtureCall := (relay fixtureServer demoEnv (start 1 0 (demoClient "debian") noCounters)).

Lemma gateway_serves_only_accepted_witness :
  ∃ r st' u rk route, fixtureCall = Done (r, st') ∧ up st' = Some u ∧
    RsyncRoutes Fixture.snap !! rk = Some route ∧ ci_Module (info st') ∈ EffectiveModules route.
Proof.
  destruct (connected_inv fixtureCall) as (r & st' & u & E & Hu); [vm_compute; reflexivity|].
  destruct (gateway_serves_only_accepted Fixture.noSelector Fixture.snap fixtureOrder fixtureOrder_ok
    (map_to_list (Gateways Fixture.snap)) (map_to_list (RsyncRoutes Fixture.snap)) (Permutation_refl _)
    noTLS resolves noDial noFiles fixtureConfig ServerConfig.New fixtureServer demoEnv
    (start 1 0 (demoClient "debian") noCounters) r st' u fixtureTable_ok New_wf fixtureServer_ok eq_refl E Hu)
    as (g & rk & route & ref & b & _ & Hr & Hm & _).
  exists r, st', u, rk, route. exact (conj E (conj Hu (conj Hr Hm))).
Defined.

Lemma gateway_targets_exact_witness :
  ∃ b, servedBy Fixture.noSelector Fixture.snap fixtureOrder "debian" b ∧
    "deb.apps.svc:873" = backendAddr (toRouteBackend b).
Proof.
  apply (gateway_targets_exact Fixture.noSelector Fixture.snap fixtureOrder fixtureOrder_ok
    (map_to_list (Gateways Fixture.snap)) (map_to_list (RsyncRoutes Fixture.snap)) (Permutation_refl _)
    noTLS resolves noDial noFiles fixtureConfig ServerConfig.New fixtureServer "debian" "deb.apps.svc:873"
    fixtureTable_ok New_wf fixtureServer_ok).
  - apply (bool_decide_eq_true_1 (NoDup _)). vm_compute. reflexivity.
  - destruct (default [] (getTargetsForModule fixtureServer "debian")) as [|t ts] eqn:E.
    + destruct fixture_serves as [Hf _]. rewrite E in Hf. discriminate Hf.
    + exists t. destruct fixture_serves as [Hf _]. rewrite E in Hf. injection Hf as Ha _.
      split; [left|exact Ha].
Defined.

Lemma gateway_table_applied_witness :
  ∃ c servers', fixtureTable = Done (Ret c) ∧
    Apply noTLS (fun _ => resolves) noDial noFiles c [ServerConfig.New (Q := World); ServerConfig.New] =
      Done (Ret tt, servers').
Proof.
  destruct (gateway_table_applied Fixture.noSelector Fixture.snap fixtureOrder fixtureOrder_ok
    (map_to_list (Gateways Fixture.snap)) (map_to_list (RsyncRoutes Fixture.snap)) (Permutation_refl _)
    noTLS (fun _ => resolves) noDial noFiles [ServerConfig.New (Q := World); ServerConfig.New])
    as (c & Et & Ha).
  - repeat apply Forall_cons_2; [exact (conj New_wf eq_refl)..|apply Forall_nil_2].
  - destruct Ha as (servers' & E & _); [reflexivity|]. exists c, servers'. exact (conj Et E).
Defined.
End instances.
