(* ===== verification/Memory.v ===== *)
(** * Memory: pointers, slices and copies

    Most of the program works on values nobody else can change, and the models of it use
    plain records.  Deep copies are about the opposite: what is shared.  Here a Go pointer is
    a location, a slice is a window on an array in the heap, and a heap cell holds a struct, a
    scalar or an array.  [read] says what a value in memory means, and through which cells. *)
From S2P Require Import Prelude.

Section memory.
Context {Cell : Type}.

Local Abbreviation Heap := (gmap nat Cell).
Definition M (A : Type) : Type := Heap → outcome (A * Heap).

#[export] Instance M_ret : MRet M := fun _ a H => Done (a, H).
#[export] Instance M_bind : MBind M := fun _ _ f m H =>
  match m H with Done (a, H) => f a H | Panic s => Panic s | Blocked => Blocked end.

(** A type whose values a cell can hold. *)
Class Stored (T : Type) := {
  put : T → Cell;
  get : Cell → option T;
  get_put x : get (put x) = Some x }.

(** A pointer that is not nil, and the header of a slice that is not nil. *)
Record Ref (T : Type) := mkRef { loc : nat }.
Record Header (T : Type) := mkHeader { array : nat; off : nat; len : nat }.
Arguments mkRef {T} loc.
Arguments loc {T} _.
Arguments mkHeader {T} array off len.
Arguments array {T} _.
Arguments off {T} _.
Arguments len {T} _.

Definition nilDereference : string := "invalid memory address or nil pointer dereference".

Definition alloc {T} `{!Stored T} (x : T) : M (Ref T) := fun H =>
  let l := fresh (dom H) in Done (mkRef l, <[l := put x]> H).

Definition load {T} `{!Stored T} (r : Ref T) : M T := fun H =>
  match H !! loc r ≫= get with
  | Some x => Done (x, H)
  | None => Panic nilDereference
  end.

Definition store {T} `{!Stored T} (r : Ref T) (x : T) : M unit := fun H =>
  match H !! loc r with
  | Some _ => Done (tt, <[loc r := put x]> H)
  | None => Panic nilDereference
  end.

(** [make([]T, n)], with the zero value of [T]. *)
Definition make {T} `{!Stored (list T)} (zero : T) (n : nat) : M (Header T) :=
  a ← alloc (replicate n zero); mret (mkHeader (loc a) 0 n).

Definition outOfRange {A} : M A := fun _ => Panic "index out of range".

(** [s[i]] and [s[i] = y]. *)
Definition index {T} `{!Stored (list T)} (s : Header T) (i : nat) : M T :=
  xs ← load (T := list T) (mkRef (array s));
  if (i <? len s)%nat then match xs !! (off s + i)%nat with Some x => mret x | None => outOfRange end
  else outOfRange.

Definition setIndex {T} `{!Stored (list T)} (s : Header T) (i : nat) (y : T) : M unit :=
  xs ← load (T := list T) (mkRef (array s));
  if (i <? len s)%nat then store (mkRef (array s)) (<[(off s + i)%nat := y]> xs)
  else outOfRange.

(** ** The patterns of the generated copies *)

(** [if in.F != nil { *out = new(T); copy *in to *out }] *)
Definition copyPtr {T} `{!Stored T} (zero : T) (copy : T → M T) (p : option (Ref T)) : M (option (Ref T)) :=
  match p with
  | None => mret None
  | Some r =>
      out ← alloc zero;
      x ← load r;
      y ← copy x;
      _ ← store out y;
      mret (Some out)
  end.

(** [for i := range *in], which copies element [i] of the one slice to element [i] of the other, from index [i], [n] times. *)
Fixpoint copyElems {T} `{!Stored (list T)} (copy : T → M T) (src out : Header T) (i n : nat) : M unit :=
  match n with
  | O => mret tt
  | S n =>
      x ← index src i;
      y ← copy x;
      _ ← setIndex out i y;
      copyElems copy src out (S i) n
  end.

(** [if in.F != nil { *out = make([]T, n); for ... }] *)
Definition copySlice {T} `{!Stored (list T)} (zero : T) (copy : T → M T) (s : option (Header T))
    : M (option (Header T)) :=
  match s with
  | None => mret None
  | Some src =>
      out ← make zero (len src);
      _ ← copyElems copy src out 0 (len src);
      mret (Some out)
  end.

Definition copyPair {A B} (ca : A → M A) (cb : B → M B) (p : A * B) : M (A * B) :=
  a ← ca p.1; b ← cb p.2; mret (a, b).

(** ** Meaning *)

(** What a value in memory stands for, and the cells that say so. *)
Class Readable (T V : Type) := {
  read : Heap → T → option (V * gset nat);
  read_local H K x v F :
    read H x = Some (v, F) → (∀ l, l ∈ F → K !! l = H !! l) → read K x = Some (v, F);
  read_dom H x v F : read H x = Some (v, F) → F ⊆ dom H }.

Definition readPtr {T V} `{!Stored T, !Readable T V} (H : Heap) (p : option (Ref T))
    : option (option V * gset nat) :=
  match p with
  | None => Some (None, ∅)
  | Some r =>
      x ← (H !! loc r ≫= get);
      '(v, F) ← read H x;
      Some (Some v, {[loc r]} ∪ F)
  end.

Fixpoint readAll {T V} `{!Readable T V} (H : Heap) (xs : list T) : option (list V * gset nat) :=
  match xs with
  | [] => Some ([], ∅)
  | x :: xs =>
      '(v, F) ← read H x;
      '(vs, G) ← readAll H xs;
      Some (v :: vs, F ∪ G)
  end.

(** The window of a header on an array. *)
Definition window {T} (s : Header T) (xs : list T) : list T := take (len s) (drop (off s) xs).

Definition readSlice {T V} `{!Stored (list T), !Readable T V} (H : Heap) (s : option (Header T))
    : option (option (list V) * gset nat) :=
  match s with
  | None => Some (None, ∅)
  | Some s =>
      xs ← (H !! array s ≫= get);
      if (off s + len s <=? length xs)%nat then
        '(vs, F) ← readAll H (window s xs);
        Some (Some vs, {[array s]} ∪ F)
      else None
  end.

(** *** The laws of [read] for pointers, slices, pairs and records *)

Lemma readAll_local {T V} `{!Readable T V} H K (xs : list T) vs F :
  readAll H xs = Some (vs, F) → (∀ l, l ∈ F → K !! l = H !! l) → readAll K xs = Some (vs, F).
Proof.
  revert vs F. induction xs as [|x xs IH]; intros vs F Hr Hl; [done|]. simpl in *.
  apply bind_Some in Hr as ([v Fv] & Hv & Hr). apply bind_Some in Hr as ([ws G] & Hws & [= <- <-]).
  rewrite (read_local H K x v Fv Hv); [|set_solver]. simpl. rewrite (IH ws G Hws); [done|set_solver].
Qed.

Lemma readAll_dom {T V} `{!Readable T V} H (xs : list T) vs F :
  readAll H xs = Some (vs, F) → F ⊆ dom H.
Proof.
  revert vs F. induction xs as [|x xs IH]; intros vs F Hr; simpl in *; [by injection Hr as <- <-|].
  apply bind_Some in Hr as ([v Fv] & Hv & Hr). apply bind_Some in Hr as ([ws G] & Hws & [= <- <-]).
  apply read_dom in Hv. apply IH in Hws. set_solver.
Qed.

Lemma cell_dom {T} `{!Stored T} (H : Heap) l (x : T) : H !! l ≫= get = Some x → l ∈ dom H.
Proof. intros (c & Hc & _)%bind_Some. by apply elem_of_dom_2 in Hc. Qed.

#[export] Program Instance Readable_ptr {T V} `{!Stored T, !Readable T V} : Readable (option (Ref T)) (option V) :=
  {| read := readPtr |}.
Next Obligation.
  intros T V ?? H K [r|] v F Hr Hl; [|done]. simpl in *.
  apply bind_Some in Hr as (x & Hx & Hr). apply bind_Some in Hr as ([w G] & Hw & [= <- <-]).
  rewrite Hl by set_solver. rewrite Hx. simpl. by rewrite (read_local H K x w G Hw) by set_solver.
Qed.
Next Obligation.
  intros T V ?? H [r|] v F Hr; simpl in *; [|by injection Hr as <- <-].
  apply bind_Some in Hr as (x & Hx & Hr). apply bind_Some in Hr as ([w G] & Hw & [= <- <-]).
  apply cell_dom in Hx. apply read_dom in Hw. set_solver.
Qed.

#[export] Program Instance Readable_slice {T V} `{!Stored (list T), !Readable T V}
  : Readable (option (Header T)) (option (list V)) := {| read := readSlice |}.
Next Obligation.
  intros T V ?? H K [s|] v F Hr Hl; [|done]. simpl in *.
  apply bind_Some in Hr as (xs & Hx & Hr). case_match eqn:El; [|done].
  apply bind_Some in Hr as ([ws G] & Hw & [= <- <-]).
  rewrite Hl by set_solver. rewrite Hx. simpl. rewrite El.
  by rewrite (readAll_local H K _ ws G Hw) by set_solver.
Qed.
Next Obligation.
  intros T V ?? H [s|] v F Hr; simpl in *; [|by injection Hr as <- <-].
  apply bind_Some in Hr as (xs & Hx & Hr). case_match; [|done].
  apply bind_Some in Hr as ([ws G] & Hw & [= <- <-]).
  apply cell_dom in Hx. apply readAll_dom in Hw. set_solver.
Qed.

#[export] Program Instance Readable_pair {A B V W} `{!Readable A V, !Readable B W} : Readable (A * B) (V * W) :=
  {| read H p := '(v, F) ← read H p.1; '(w, G) ← read H p.2; Some ((v, w), F ∪ G) |}.
Next Obligation.
  intros A B V W ?? H K [a b] v F Hr Hl. simpl in *.
  apply bind_Some in Hr as ([v1 F1] & H1 & Hr). apply bind_Some in Hr as ([v2 F2] & H2 & [= <- <-]).
  rewrite (read_local H K a v1 F1 H1) by set_solver. simpl. by rewrite (read_local H K b v2 F2 H2) by set_solver.
Qed.
Next Obligation.
  intros A B V W ?? H [a b] v F Hr. simpl in *.
  apply bind_Some in Hr as ([v1 F1] & H1 & Hr). apply bind_Some in Hr as ([v2 F2] & H2 & [= <- <-]).
  apply read_dom in H1, H2. set_solver.
Qed.

(** A value without pointers stands for itself. *)
Program Definition Readable_scalar {T} : Readable T T := {| read _ x := Some (x, ∅) |}.
Next Obligation. done. Qed.
Next Obligation. intros T H x v F [= <- <-]. set_solver. Qed.

(** A struct is read field by field: as the tuple of its fields. *)
Program Definition Readable_via {T T' V V'} `{!Readable T' V'} (to : T → T') (g : V' → V) : Readable T V :=
  {| read H x := '(v, F) ← read H (to x); Some (g v, F) |}.
Next Obligation.
  intros T T' V V' ? to g H K x v F Hr Hl. simpl in *.
  apply bind_Some in Hr as ([w G] & Hw & [= <- <-]). by rewrite (read_local H K _ w G Hw) by set_solver.
Qed.
Next Obligation.
  intros T T' V V' ? to g H x v F Hr. simpl in *.
  apply bind_Some in Hr as ([w G] & Hw & [= <- <-]). by apply read_dom in Hw.
Qed.

(** ** Copies *)

(** A copy means the same, in cells that are all new, and leaves every cell there was alone. *)
Definition copies {T V} `{!Readable T V} (copy : T → M T) : Prop :=
  ∀ H x v F, read H x = Some (v, F) →
    ∃ y K G, copy x H = Done (y, K) ∧ H ⊆ K ∧ read K y = Some (v, G) ∧ G ## dom H.

(** What a package promises about one of its types: a zero value and a copy. *)
Class Copyable (T V : Type) := {
  copyable_read :: Readable T V;
  zeroValue : T;
  DeepCopyInto : T → M T;
  DeepCopyInto_ok : copies DeepCopyInto }.

Lemma read_grows {T V} `{!Readable T V} H K (x : T) v F :
  H ⊆ K → read H x = Some (v, F) → read K x = Some (v, F).
Proof.
  intros Hs Hr. apply (read_local H K x v F Hr). intros l Hl.
  apply (read_dom H x v F Hr), elem_of_dom in Hl as [c Hc]. rewrite Hc. by apply (lookup_weaken H).
Qed.

Lemma insert_grows (H K : Heap) l c : H ⊆ K → l ∉ dom H → H ⊆ <[l := c]> K.
Proof.
  intros Hs Hl. apply map_subseteq_spec. intros l' c' Hc.
  rewrite lookup_insert_ne; [by apply (lookup_weaken H)|]. intros ->. by apply elem_of_dom_2 in Hc.
Qed.

Lemma read_insert {T V} `{!Readable T V} H (x : T) v F l c :
  read H x = Some (v, F) → l ∉ F → read (<[l := c]> H) x = Some (v, F).
Proof.
  intros Hr Hl. apply (read_local H _ x v F Hr). intros l' Hl'. apply lookup_insert_ne. by intros ->.
Qed.

Lemma load_grows {T} `{!Stored T} (H K : Heap) l (x : T) :
  H ⊆ K → H !! l ≫= get = Some x → K !! l ≫= get = Some x.
Proof. intros Hs (c & Hc & Hx)%bind_Some. by rewrite (lookup_weaken H K l c Hc Hs). Qed.

Lemma copies_scalar {T} : copies (Readable0 := @Readable_scalar T) mret.
Proof. intros H x v F [= <- <-]. exists x, H, ∅. set_solver. Qed.

Lemma copies_pair {A B V W} `{!Readable A V, !Readable B W} (ca : A → M A) (cb : B → M B) :
  copies (V := V) ca → copies (V := W) cb → copies (V := V * W) (copyPair ca cb).
Proof.
  intros Ha Hb H [a b] v F Hr. simpl in Hr.
  apply bind_Some in Hr as ([v1 F1] & H1 & Hr). apply bind_Some in Hr as ([v2 F2] & H2 & [= <- <-]).
  destruct (Ha H a v1 F1 H1) as (a' & K1 & G1 & Ea & Hs1 & Hr1 & Hd1).
  destruct (Hb K1 b v2 F2 (read_grows _ _ _ _ _ Hs1 H2)) as (b' & K2 & G2 & Eb & Hs2 & Hr2 & Hd2).
  exists (a', b'), K2, (G1 ∪ G2). unfold copyPair, mbind, M_bind. simpl. rewrite Ea, Eb. split_and!.
  - done.
  - by transitivity K1.
  - by rewrite (read_grows _ _ _ _ _ Hs2 Hr1), Hr2.
  - apply subseteq_dom in Hs1. set_solver.
Qed.

(** A struct is copied the way the tuple of its fields is. *)
Lemma copies_via {T T' V V'} `{!Readable T' V'} (to : T → T') (from : T' → T) (g : V' → V)
    (copy : T → M T) (copy' : T' → M T') :
  (∀ x, to (from x) = x) → copies (V := V') copy' →
  (∀ x H, copy x H = match copy' (to x) H with
                     | Done (y, K) => Done (from y, K) | Panic s => Panic s | Blocked => Blocked end) →
  copies (Readable0 := Readable_via to g) copy.
Proof.
  intros Hto Hc He H x v F Hr. apply bind_Some in Hr as ([w G] & Hw & [= <- <-]).
  destruct (Hc H (to x) w G Hw) as (y & K & G' & Ey & Hs & Hr & Hd).
  exists (from y), K, G'. rewrite He, Ey. split_and!; try done. simpl. by rewrite Hto, Hr.
Qed.

Lemma copies_ptr {T V} `{!Stored T, !Readable T V} zero (copy : T → M T) :
  copies (V := V) copy → copies (V := option V) (copyPtr zero copy).
Proof.
  intros Hc H [r|] v F Hr; [|exists None, H, ∅; injection Hr as <- <-; split_and!; [done..|set_solver]].
  simpl in Hr. apply bind_Some in Hr as (x & Hx & Hr). apply bind_Some in Hr as ([w G] & Hw & [= <- <-]).
  unfold copyPtr, mbind, M_bind, alloc, load, store. simpl. set (l := fresh (dom H)).
  assert (l ∉ dom H) as Hl by apply is_fresh.
  assert (H ⊆ <[l := put zero]> H) as Hs by (by apply insert_grows).
  rewrite (load_grows H _ (loc r) x Hs Hx).
  destruct (Hc _ x w G (read_grows _ _ _ _ _ Hs Hw)) as (y & K & G' & -> & HsK & Hr & Hd).
  assert (is_Some (K !! l)) as [c ->].
  { exists (put zero). eapply (lookup_weaken _ K); [|exact HsK]. apply lookup_insert_eq. }
  exists (Some (mkRef l)), (<[l := put y]> K), ({[l]} ∪ G'). split_and!.
  - done.
  - apply insert_grows; [by transitivity (<[l := put zero]> H)|done].
  - simpl. rewrite lookup_insert_eq. simpl. rewrite get_put. simpl.
    by rewrite (read_insert K y w G') by (done || set_solver).
  - set_solver.
Qed.

(** *** Slices *)

Lemma readAll_lookup {T V} `{!Readable T V} H (xs : list T) vs F i x :
  readAll H xs = Some (vs, F) → xs !! i = Some x →
  ∃ v G, vs !! i = Some v ∧ read H x = Some (v, G).
Proof.
  revert vs F i. induction xs as [|z xs IH]; intros vs F i Hr Hx; [done|]. simpl in Hr.
  apply bind_Some in Hr as ([v Fv] & Hv & Hr). apply bind_Some in Hr as ([ws G] & Hws & [= <- <-]).
  destruct i as [|i]; simpl in *; [injection Hx as ->; by eauto|by apply (IH ws G)].
Qed.

Lemma readAll_length {T V} `{!Readable T V} H (xs : list T) vs F :
  readAll H xs = Some (vs, F) → length vs = length xs.
Proof.
  revert vs F. induction xs as [|x xs IH]; intros vs F Hr; simpl in *; [by injection Hr as <- <-|].
  apply bind_Some in Hr as ([v Fv] & Hv & Hr). apply bind_Some in Hr as ([ws G] & Hws & [= <- <-]).
  simpl. f_equal. by eapply IH.
Qed.

Lemma readAll_snoc {T V} `{!Readable T V} H (xs : list T) vs F y v G :
  readAll H xs = Some (vs, F) → read H y = Some (v, G) → readAll H (xs ++ [y]) = Some (vs ++ [v], F ∪ G).
Proof.
  revert vs F. induction xs as [|x xs IH]; intros vs F Hr Hy; simpl in *.
  { injection Hr as <- <-. rewrite Hy. simpl. do 2 f_equal. set_solver. }
  apply bind_Some in Hr as ([w Fw] & Hw & Hr). apply bind_Some in Hr as ([ws G'] & Hws & [= <- <-]).
  rewrite Hw. simpl. rewrite (IH ws G' Hws Hy). simpl. do 2 f_equal. set_solver.
Qed.

Section slice.
Context {T V : Type} `{!Stored (list T), !Readable T V} (copy : T → M T).
Context (copy_ok : copies (V := V) copy).
Context (H0 : Heap) (src : Header T) (xs : list T) (vs : list V) (F : gset nat) (l : nat).
Context (src_cell : H0 !! array src ≫= get = Some xs) (src_len : (off src + len src ≤ length xs)%nat).
Context (src_read : readAll H0 (window src xs) = Some (vs, F)) (l_new : l ∉ dom H0).

(** The first [i] elements of the new array are copied. *)
Definition copiedTo (i : nat) (H : Heap) : Prop :=
  H0 ⊆ H ∧ ∃ ys G, H !! l ≫= get = Some ys ∧ length ys = len src ∧
    readAll H (take i ys) = Some (take i vs, G) ∧ (l ∉ G) ∧ G ## dom H0.

Local Abbreviation out := (mkHeader (T := T) l 0 (len src)).

Lemma copyElems_step i H :
  (i < len src)%nat → copiedTo i H →
  ∃ K, (x ← index src i; y ← copy x; setIndex out i y) H = Done (tt, K) ∧ copiedTo (S i) K.
Proof.
  intros Hi (Hs & ys & G & Hys & Hlen & Hr & HlG & HG).
  destruct (lookup_lt_is_Some_2 xs (off src + i)) as [x Hx]; [lia|].
  assert (window src xs !! i = Some x) as Hw.
  { unfold window. by rewrite lookup_take_lt, lookup_drop by lia. }
  destruct (readAll_lookup _ _ _ _ _ _ src_read Hw) as (v & Gx & Hv & Hrx).
  destruct (copy_ok H x v Gx (read_grows _ _ _ _ _ Hs Hrx)) as (y & K & Gy & Ey & HsK & Hry & Hdy).
  unfold index, setIndex, mbind, M_bind, load, store, mret, M_ret. simpl.
  rewrite (load_grows H0 H _ xs Hs src_cell). destruct (Nat.ltb_spec i (len src)); [|lia].
  rewrite Hx, Ey. pose proof (load_grows H K l ys HsK Hys) as HysK. rewrite HysK.
  destruct (K !! l) as [c|] eqn:Ec; [|done].
  eexists. split; [done|]. split; [apply insert_grows; [by transitivity H|done]|].
  exists (<[i := y]> ys), (G ∪ Gy). apply cell_dom in Hys. apply subseteq_dom in Hs.
  rewrite lookup_insert_eq. simpl. rewrite get_put, length_insert. split_and!; [done|done| |set_solver|set_solver].
  rewrite (take_S_r _ _ y), take_insert_ge by (try lia; apply list_lookup_insert_eq; lia).
  rewrite (take_S_r _ _ v Hv). apply readAll_snoc.
  - apply (readAll_local K); [|intros l' Hl'; apply lookup_insert_ne; set_solver].
    apply (readAll_local H); [done|]. intros l' Hl'.
    apply (readAll_dom H _ _ _ Hr), elem_of_dom in Hl' as [c' Hc']. by rewrite Hc', (lookup_weaken H K l' c').
  - apply read_insert; [done|set_solver].
Qed.

Lemma copyElems_run n i H :
  (i + n = len src)%nat → copiedTo i H →
  ∃ K, copyElems copy src out i n H = Done (tt, K) ∧ copiedTo (len src) K.
Proof.
  revert i H. induction n as [|n IH]; intros i H Hn Hc.
  { exists H. split; [done|]. by replace (len src) with i by lia. }
  destruct (copyElems_step i H) as (K & EK & HK); [lia|done|].
  destruct (IH (S i) K) as (K' & E' & HK'); [lia|done|]. exists K'. split; [|done].
  revert EK. cbn [copyElems]. unfold mbind, M_bind.
  destruct (index src i H) as [[x H1]| |]; [|done|done]. destruct (copy x H1) as [[y H2]| |]; [|done|done].
  by intros ->.
Qed.
End slice.

Lemma copies_slice {T V} `{!Stored (list T), !Readable T V} zero (copy : T → M T) :
  copies (V := V) copy → copies (V := option (list V)) (copySlice zero copy).
Proof.
  intros Hc H [s|] v F Hr; [|exists None, H, ∅; injection Hr as <- <-; split_and!; [done..|set_solver]].
  simpl in Hr. apply bind_Some in Hr as (xs & Hx & Hr). case_match eqn:El; [|done].
  apply Nat.leb_le in El. apply bind_Some in Hr as ([vs G] & Hvs & [= <- <-]).
  set (l := fresh (dom H)). assert (l ∉ dom H) as Hl by apply is_fresh.
  destruct (copyElems_run copy Hc H s xs vs G l Hx El Hvs Hl (len s) 0 (<[l := put (replicate (len s) zero)]> H))
    as (K & EK & HsK & ys & G' & Hys & Hlen & Hr & HlG & HG); [lia| |].
  { split; [by apply insert_grows|]. exists (replicate (len s) zero), ∅.
    rewrite lookup_insert_eq. simpl. rewrite get_put, length_replicate. split_and!; try done; set_solver. }
  exists (Some (mkHeader l 0 (len s))), K, ({[l]} ∪ G').
  unfold copySlice, make, alloc, mbind, M_bind, mret, M_ret. fold l. simpl. rewrite EK. split_and!; [done|done| |set_solver].
  rewrite Hys. simpl. rewrite Hlen, Nat.leb_refl. unfold window. simpl.
  apply readAll_length in Hvs. unfold window in Hvs. rewrite length_take, length_drop in Hvs.
  rewrite drop_0, Hr. simpl. by rewrite take_ge by lia.
Qed.

(** *** Isolation *)

(** [L] is [K] after writes to the cells [G] and to cells that [K] does not have. *)
Definition writtenOn (G : gset nat) (K L : Heap) : Prop :=
  ∀ l, l ∈ dom K → l ∉ G → L !! l = K !! l.

Lemma read_isolated {T V} `{!Readable T V} H K L (x : T) v F G :
  read H x = Some (v, F) → H ⊆ K → G ## dom H → writtenOn G K L → read L x = Some (v, F).
Proof.
  intros Hr Hs Hd Hw. pose proof (read_grows H K x v F Hs Hr) as HrK.
  apply (read_local K L x v F HrK). intros l Hl. apply Hw.
  - by apply (read_dom K x v F HrK).
  - apply (read_dom H x v F Hr) in Hl. set_solver.
Qed.
End memory.

Arguments mkRef {T} loc.
Arguments loc {T} _.
Arguments mkHeader {T} array off len.
Arguments array {T} _.
Arguments off {T} _.
Arguments len {T} _.
