(* ===== verification/DeepCopy.v ===== *)
(** * Deep copies of the API objects: [api/v1alpha1/zz_generated.deepcopy.go]

    Objects come out of a cache that every reader shares, and are copied before anybody may
    write to them.  The representations below are the structs of [gatewayconfig_types.go] and
    [rsyncroute_types.go] with their pointers and slices; the copies are the methods of the
    generated file.  Structs of Kubernetes and of the Gateway API are foreign: their
    representation and their own [DeepCopyInto] are parameters, with what the generated code
    relies on. *)
From S2P Require Import Prelude Api Memory.
Open Scope Z_scope.

(** ** Representations *)

(** The structs whose fields belong to other packages, and what their cells hold. *)
Record Foreign := mkForeign {
  MetaRep : Type;             (* [metav1.ObjectMeta] *)
  ListMetaRep : Type;         (* [metav1.ListMeta] *)
  ConditionRep : Type;        (* [metav1.Condition] *)
  ParentReferenceRep : Type;  (* [v1.ParentReference] *)
  BackendRefRep : Type;       (* [v1.BackendRef] *)
  ParentStatusRep : Type;     (* [v1.RouteParentStatus] *)
  ForeignCell : Type }.

(** [metav1.TypeMeta]: the kind and the API version. *)
Abbreviation TypeMeta := (string * string)%type.

Record ThroughputFloorSpecRep := mkFloorRep {
  fr_MinBytes : option (Ref Z);
  fr_Window : option (Ref string);
  fr_Grace : option (Ref string) }.

Record GatewayConfigSpecRep := mkSpecRep {
  sr_Motd : option (Ref string);
  sr_RelayIdleTimeout : option (Ref string);
  sr_RelayMaxDuration : option (Ref string);
  sr_TCPKeepAlive : option (Ref string);
  sr_DialTimeout : option (Ref string);
  sr_PerIPMaxActiveConnections : option (Ref Z);
  sr_MaxActiveConnections : option (Ref Z);
  sr_MaxQueuedConnections : option (Ref Z);
  sr_ThroughputFloor : option (Ref ThroughputFloorSpecRep) }.

Section representations.
Context (E : Foreign).

Record GatewayConfigStatusRep := mkConfigStatusRep { csr_Conditions : option (Header (ConditionRep E)) }.

Record GatewayConfigRep := mkConfigRep {
  cr_TypeMeta : TypeMeta;
  cr_ObjectMeta : MetaRep E;
  cr_Spec : GatewayConfigSpecRep;
  cr_Status : GatewayConfigStatusRep }.

Record GatewayConfigListRep := mkConfigListRep {
  clr_TypeMeta : TypeMeta;
  clr_ListMeta : ListMetaRep E;
  clr_Items : option (Header GatewayConfigRep) }.

Record RsyncRouteSpecRep := mkRouteSpecRep {
  rsr_ParentRefs : option (Header (ParentReferenceRep E));
  rsr_ModuleNames : option (Header string);
  rsr_BackendRefs : option (Header (BackendRefRep E)) }.

Record RsyncRouteStatusRep := mkRouteStatusRep { rtr_Parents : option (Header (ParentStatusRep E)) }.

Record RsyncRouteRep := mkRouteRep {
  rr_TypeMeta : TypeMeta;
  rr_ObjectMeta : MetaRep E;
  rr_Spec : RsyncRouteSpecRep;
  rr_Status : RsyncRouteStatusRep }.

Record RsyncRouteListRep := mkRouteListRep {
  rlr_TypeMeta : TypeMeta;
  rlr_ListMeta : ListMetaRep E;
  rlr_Items : option (Header RsyncRouteRep) }.

(** What [new] and [make] of these packages allocate. *)
Inductive Cell :=
  | StringCell (s : string)
  | IntCell (n : Z)
  | FloorCell (x : ThroughputFloorSpecRep)
  | SpecCell (x : GatewayConfigSpecRep)
  | ConfigStatusCell (x : GatewayConfigStatusRep)
  | ConfigCell (x : GatewayConfigRep)
  | ConfigListCell (x : GatewayConfigListRep)
  | RouteSpecCell (x : RsyncRouteSpecRep)
  | RouteStatusCell (x : RsyncRouteStatusRep)
  | RouteCell (x : RsyncRouteRep)
  | RouteListCell (x : RsyncRouteListRep)
  | ConditionsCell (l : list (ConditionRep E))
  | StringsCell (l : list string)
  | ParentRefsCell (l : list (ParentReferenceRep E))
  | BackendRefsCell (l : list (BackendRefRep E))
  | ParentsCell (l : list (ParentStatusRep E))
  | ConfigsCell (l : list GatewayConfigRep)
  | RoutesCell (l : list RsyncRouteRep)
  | OtherCell (x : ForeignCell E).

End representations.

Section stored.
Context {E : Foreign}.

#[export] Instance Stored_String : Stored (Cell := Cell E) string :=
  {| put := StringCell E; get c := match c with StringCell _ x => Some x | _ => None end; get_put _ := eq_refl |}.
#[export] Instance Stored_Int : Stored (Cell := Cell E) Z :=
  {| put := IntCell E; get c := match c with IntCell _ x => Some x | _ => None end; get_put _ := eq_refl |}.
#[export] Instance Stored_Floor : Stored (Cell := Cell E) ThroughputFloorSpecRep :=
  {| put := FloorCell E; get c := match c with FloorCell _ x => Some x | _ => None end; get_put _ := eq_refl |}.
#[export] Instance Stored_Spec : Stored (Cell := Cell E) GatewayConfigSpecRep :=
  {| put := SpecCell E; get c := match c with SpecCell _ x => Some x | _ => None end; get_put _ := eq_refl |}.
#[export] Instance Stored_ConfigStatus : Stored (Cell := Cell E) (GatewayConfigStatusRep E) :=
  {| put := ConfigStatusCell E; get c := match c with ConfigStatusCell _ x => Some x | _ => None end; get_put _ := eq_refl |}.
#[export] Instance Stored_Config : Stored (Cell := Cell E) (GatewayConfigRep E) :=
  {| put := ConfigCell E; get c := match c with ConfigCell _ x => Some x | _ => None end; get_put _ := eq_refl |}.
#[export] Instance Stored_ConfigList : Stored (Cell := Cell E) (GatewayConfigListRep E) :=
  {| put := ConfigListCell E; get c := match c with ConfigListCell _ x => Some x | _ => None end; get_put _ := eq_refl |}.
#[export] Instance Stored_RouteSpec : Stored (Cell := Cell E) (RsyncRouteSpecRep E) :=
  {| put := RouteSpecCell E; get c := match c with RouteSpecCell _ x => Some x | _ => None end; get_put _ := eq_refl |}.
#[export] Instance Stored_RouteStatus : Stored (Cell := Cell E) (RsyncRouteStatusRep E) :=
  {| put := RouteStatusCell E; get c := match c with RouteStatusCell _ x => Some x | _ => None end; get_put _ := eq_refl |}.
#[export] Instance Stored_Route : Stored (Cell := Cell E) (RsyncRouteRep E) :=
  {| put := RouteCell E; get c := match c with RouteCell _ x => Some x | _ => None end; get_put _ := eq_refl |}.
#[export] Instance Stored_RouteList : Stored (Cell := Cell E) (RsyncRouteListRep E) :=
  {| put := RouteListCell E; get c := match c with RouteListCell _ x => Some x | _ => None end; get_put _ := eq_refl |}.
#[export] Instance Stored_Conditions : Stored (Cell := Cell E) (list (ConditionRep E)) :=
  {| put := ConditionsCell E; get c := match c with ConditionsCell _ x => Some x | _ => None end; get_put _ := eq_refl |}.
#[export] Instance Stored_Strings : Stored (Cell := Cell E) (list string) :=
  {| put := StringsCell E; get c := match c with StringsCell _ x => Some x | _ => None end; get_put _ := eq_refl |}.
#[export] Instance Stored_ParentRefs : Stored (Cell := Cell E) (list (ParentReferenceRep E)) :=
  {| put := ParentRefsCell E; get c := match c with ParentRefsCell _ x => Some x | _ => None end; get_put _ := eq_refl |}.
#[export] Instance Stored_BackendRefs : Stored (Cell := Cell E) (list (BackendRefRep E)) :=
  {| put := BackendRefsCell E; get c := match c with BackendRefsCell _ x => Some x | _ => None end; get_put _ := eq_refl |}.
#[export] Instance Stored_Parents : Stored (Cell := Cell E) (list (ParentStatusRep E)) :=
  {| put := ParentsCell E; get c := match c with ParentsCell _ x => Some x | _ => None end; get_put _ := eq_refl |}.
#[export] Instance Stored_Configs : Stored (Cell := Cell E) (list (GatewayConfigRep E)) :=
  {| put := ConfigsCell E; get c := match c with ConfigsCell _ x => Some x | _ => None end; get_put _ := eq_refl |}.
#[export] Instance Stored_Routes : Stored (Cell := Cell E) (list (RsyncRouteRep E)) :=
  {| put := RoutesCell E; get c := match c with RoutesCell _ x => Some x | _ => None end; get_put _ := eq_refl |}.
#[export] Instance Stored_Other : Stored (Cell := Cell E) (ForeignCell E) :=
  {| put := OtherCell E; get c := match c with OtherCell _ x => Some x | _ => None end; get_put _ := eq_refl |}.
End stored.

(** ** The copies *)

Section copies.
Context {E : Foreign} {ListMeta : Type}.
Context `{!Copyable (Cell := Cell E) (MetaRep E) ObjectMeta, !Copyable (Cell := Cell E) (ListMetaRep E) ListMeta}.
Context `{!Copyable (Cell := Cell E) (ConditionRep E) Condition}.
Context `{!Copyable (Cell := Cell E) (ParentReferenceRep E) ParentReference}.
Context `{!Copyable (Cell := Cell E) (BackendRefRep E) BackendRef}.
Context `{!Copyable (Cell := Cell E) (ParentStatusRep E) RouteParentStatus}.

Local Abbreviation M := (Memory.M (Cell := Cell E)).

Definition zeroFloor : ThroughputFloorSpecRep := mkFloorRep None None None.
Definition zeroSpec : GatewayConfigSpecRep := mkSpecRep None None None None None None None None None.
Definition zeroConfigStatus : GatewayConfigStatusRep E := mkConfigStatusRep E None.
Definition zeroConfig : GatewayConfigRep E := mkConfigRep E ("", "") zeroValue zeroSpec zeroConfigStatus.
Definition zeroConfigList : GatewayConfigListRep E := mkConfigListRep E ("", "") zeroValue None.
Definition zeroRouteSpec : RsyncRouteSpecRep E := mkRouteSpecRep E None None None.
Definition zeroRouteStatus : RsyncRouteStatusRep E := mkRouteStatusRep E None.
Definition zeroRoute : RsyncRouteRep E := mkRouteRep E ("", "") zeroValue zeroRouteSpec zeroRouteStatus.
Definition zeroRouteList : RsyncRouteListRep E := mkRouteListRep E ("", "") zeroValue None.

(** The methods copy the struct first ([*out = *in]) and then give every pointer and slice that
    is not nil its own copy; here a copy of the struct is built from those.  Scalars behind a
    pointer are copied by assignment, which is [mret]. *)
Definition ThroughputFloorSpec_DeepCopyInto (x : ThroughputFloorSpecRep) : M ThroughputFloorSpecRep :=
  minBytes ← copyPtr 0 mret (fr_MinBytes x);
  window ← copyPtr "" mret (fr_Window x);
  grace ← copyPtr "" mret (fr_Grace x);
  mret (mkFloorRep minBytes window grace).

Definition GatewayConfigSpec_DeepCopyInto (x : GatewayConfigSpecRep) : M GatewayConfigSpecRep :=
  motd ← copyPtr "" mret (sr_Motd x);
  relayIdleTimeout ← copyPtr "" mret (sr_RelayIdleTimeout x);
  relayMaxDuration ← copyPtr "" mret (sr_RelayMaxDuration x);
  tcpKeepAlive ← copyPtr "" mret (sr_TCPKeepAlive x);
  dialTimeout ← copyPtr "" mret (sr_DialTimeout x);
  perIPMax ← copyPtr 0 mret (sr_PerIPMaxActiveConnections x);
  maxActive ← copyPtr 0 mret (sr_MaxActiveConnections x);
  maxQueued ← copyPtr 0 mret (sr_MaxQueuedConnections x);
  floor ← copyPtr zeroFloor ThroughputFloorSpec_DeepCopyInto (sr_ThroughputFloor x);
  mret (mkSpecRep motd relayIdleTimeout relayMaxDuration tcpKeepAlive dialTimeout perIPMax maxActive maxQueued floor).

Definition GatewayConfigStatus_DeepCopyInto (x : GatewayConfigStatusRep E) : M (GatewayConfigStatusRep E) :=
  conditions ← copySlice zeroValue DeepCopyInto (csr_Conditions E x);
  mret (mkConfigStatusRep E conditions).

Definition GatewayConfig_DeepCopyInto (x : GatewayConfigRep E) : M (GatewayConfigRep E) :=
  meta ← DeepCopyInto (cr_ObjectMeta E x);
  spec ← GatewayConfigSpec_DeepCopyInto (cr_Spec E x);
  status ← GatewayConfigStatus_DeepCopyInto (cr_Status E x);
  mret (mkConfigRep E (cr_TypeMeta E x) meta spec status).

Definition GatewayConfigList_DeepCopyInto (x : GatewayConfigListRep E) : M (GatewayConfigListRep E) :=
  meta ← DeepCopyInto (clr_ListMeta E x);
  items ← copySlice zeroConfig GatewayConfig_DeepCopyInto (clr_Items E x);
  mret (mkConfigListRep E (clr_TypeMeta E x) meta items).

Definition RsyncRouteSpec_DeepCopyInto (x : RsyncRouteSpecRep E) : M (RsyncRouteSpecRep E) :=
  parentRefs ← copySlice zeroValue DeepCopyInto (rsr_ParentRefs E x);
  moduleNames ← copySlice "" mret (rsr_ModuleNames E x);
  backendRefs ← copySlice zeroValue DeepCopyInto (rsr_BackendRefs E x);
  mret (mkRouteSpecRep E parentRefs moduleNames backendRefs).

Definition RsyncRouteStatus_DeepCopyInto (x : RsyncRouteStatusRep E) : M (RsyncRouteStatusRep E) :=
  parents ← copySlice zeroValue DeepCopyInto (rtr_Parents E x);
  mret (mkRouteStatusRep E parents).

Definition RsyncRoute_DeepCopyInto (x : RsyncRouteRep E) : M (RsyncRouteRep E) :=
  meta ← DeepCopyInto (rr_ObjectMeta E x);
  spec ← RsyncRouteSpec_DeepCopyInto (rr_Spec E x);
  status ← RsyncRouteStatus_DeepCopyInto (rr_Status E x);
  mret (mkRouteRep E (rr_TypeMeta E x) meta spec status).

Definition RsyncRouteList_DeepCopyInto (x : RsyncRouteListRep E) : M (RsyncRouteListRep E) :=
  meta ← DeepCopyInto (rlr_ListMeta E x);
  items ← copySlice zeroRoute RsyncRoute_DeepCopyInto (rlr_Items E x);
  mret (mkRouteListRep E (rlr_TypeMeta E x) meta items).

(** [DeepCopy] of each type: nil for nil, and otherwise a new struct that is copied into. *)
Definition ThroughputFloorSpec_DeepCopy := copyPtr zeroFloor ThroughputFloorSpec_DeepCopyInto.
Definition GatewayConfigSpec_DeepCopy := copyPtr zeroSpec GatewayConfigSpec_DeepCopyInto.
Definition GatewayConfigStatus_DeepCopy := copyPtr zeroConfigStatus GatewayConfigStatus_DeepCopyInto.
Definition GatewayConfig_DeepCopy := copyPtr zeroConfig GatewayConfig_DeepCopyInto.
Definition GatewayConfigList_DeepCopy := copyPtr zeroConfigList GatewayConfigList_DeepCopyInto.
Definition RsyncRouteSpec_DeepCopy := copyPtr zeroRouteSpec RsyncRouteSpec_DeepCopyInto.
Definition RsyncRouteStatus_DeepCopy := copyPtr zeroRouteStatus RsyncRouteStatus_DeepCopyInto.
Definition RsyncRoute_DeepCopy := copyPtr zeroRoute RsyncRoute_DeepCopyInto.
Definition RsyncRouteList_DeepCopy := copyPtr zeroRouteList RsyncRouteList_DeepCopyInto.

(** [runtime.Object] holding one of these types; the interface itself may be nil too. *)
Inductive Object :=
  | ConfigObject (p : option (Ref (GatewayConfigRep E)))
  | ConfigListObject (p : option (Ref (GatewayConfigListRep E)))
  | RouteObject (p : option (Ref (RsyncRouteRep E)))
  | RouteListObject (p : option (Ref (RsyncRouteListRep E))).

(** [if c := in.DeepCopy(); c != nil { return c }; return nil] *)
Definition objectOf {T} (wrap : option (Ref T) → Object) (deepCopy : option (Ref T) → M (option (Ref T)))
    (p : option (Ref T)) : M (option Object) :=
  c ← deepCopy p;
  mret (match c with Some r => Some (wrap (Some r)) | None => None end).

Definition GatewayConfig_DeepCopyObject := objectOf ConfigObject GatewayConfig_DeepCopy.
Definition GatewayConfigList_DeepCopyObject := objectOf ConfigListObject GatewayConfigList_DeepCopy.
Definition RsyncRoute_DeepCopyObject := objectOf RouteObject RsyncRoute_DeepCopy.
Definition RsyncRouteList_DeepCopyObject := objectOf RouteListObject RsyncRouteList_DeepCopy.

(** The method of the dynamic type. *)
Definition DeepCopyObject (o : Object) : M (option Object) :=
  match o with
  | ConfigObject p => GatewayConfig_DeepCopyObject p
  | ConfigListObject p => GatewayConfigList_DeepCopyObject p
  | RouteObject p => RsyncRoute_DeepCopyObject p
  | RouteListObject p => RsyncRouteList_DeepCopyObject p
  end.

(** ** What the objects mean *)

(** A slice of the API may be nil, which is not the empty slice. *)
Abbreviation ConfigValue := (TypeMeta * (ObjectMeta * (GatewayConfigSpec * option (list Condition))))%type.
Abbreviation RouteSpecValue := (option (list ParentReference) * (option (list string) * option (list BackendRef)))%type.
Abbreviation RouteValue := (TypeMeta * (ObjectMeta * (RouteSpecValue * option (list RouteParentStatus))))%type.

#[local] Instance string_read : Readable (Cell := Cell E) string string := Readable_scalar.
#[local] Instance int_read : Readable (Cell := Cell E) Z Z := Readable_scalar.
#[local] Instance typeMeta_read : Readable (Cell := Cell E) TypeMeta TypeMeta | 0 := Readable_scalar.

Definition floorFields (x : ThroughputFloorSpecRep) := (fr_MinBytes x, (fr_Window x, fr_Grace x)).
#[export] Instance floor_read : Readable (Cell := Cell E) ThroughputFloorSpecRep ThroughputFloorSpec :=
  Readable_via floorFields (fun '(a, (b, c)) => mkThroughputFloor a b c).

Definition specFields (x : GatewayConfigSpecRep) :=
  (sr_Motd x, (sr_RelayIdleTimeout x, (sr_RelayMaxDuration x, (sr_TCPKeepAlive x, (sr_DialTimeout x,
   (sr_PerIPMaxActiveConnections x, (sr_MaxActiveConnections x, (sr_MaxQueuedConnections x,
    sr_ThroughputFloor x)))))))).
#[export] Instance spec_read : Readable (Cell := Cell E) GatewayConfigSpecRep GatewayConfigSpec :=
  Readable_via specFields
    (fun '(a, (b, (c, (d, (e, (f, (g, (h, i)))))))) => mkGatewayConfigSpec a b c d e f g h i).

#[export] Instance configStatus_read
  : Readable (Cell := Cell E) (GatewayConfigStatusRep E) (option (list Condition)) :=
  Readable_via (csr_Conditions E) id.

Definition configFields (x : GatewayConfigRep E) :=
  (cr_TypeMeta E x, (cr_ObjectMeta E x, (cr_Spec E x, cr_Status E x))).
#[export] Instance config_read : Readable (Cell := Cell E) (GatewayConfigRep E) ConfigValue :=
  Readable_via configFields id.

Definition configListFields (x : GatewayConfigListRep E) :=
  (clr_TypeMeta E x, (clr_ListMeta E x, clr_Items E x)).
#[export] Instance configList_read
  : Readable (Cell := Cell E) (GatewayConfigListRep E) (TypeMeta * (ListMeta * option (list ConfigValue))) :=
  Readable_via configListFields id.

Definition routeSpecFields (x : RsyncRouteSpecRep E) :=
  (rsr_ParentRefs E x, (rsr_ModuleNames E x, rsr_BackendRefs E x)).
#[export] Instance routeSpec_read : Readable (Cell := Cell E) (RsyncRouteSpecRep E) RouteSpecValue :=
  Readable_via routeSpecFields id.

#[export] Instance routeStatus_read
  : Readable (Cell := Cell E) (RsyncRouteStatusRep E) (option (list RouteParentStatus)) :=
  Readable_via (rtr_Parents E) id.

Definition routeFields (x : RsyncRouteRep E) :=
  (rr_TypeMeta E x, (rr_ObjectMeta E x, (rr_Spec E x, rr_Status E x))).
#[export] Instance route_read : Readable (Cell := Cell E) (RsyncRouteRep E) RouteValue :=
  Readable_via routeFields id.

Definition routeListFields (x : RsyncRouteListRep E) :=
  (rlr_TypeMeta E x, (rlr_ListMeta E x, rlr_Items E x)).
#[export] Instance routeList_read
  : Readable (Cell := Cell E) (RsyncRouteListRep E) (TypeMeta * (ListMeta * option (list RouteValue))) :=
  Readable_via routeListFields id.

(** ** Every method copies *)

(** A struct is copied field by field: [fields] copies the tuple of them, each by its own lemma,
    and the method does to the struct what that does to the tuple. *)
Create HintDb copies.

Local Ltac copy_struct method from fields :=
  apply (copies_via _ from _ _ fields);
    [ intros; repeat match goal with p : (_ * _)%type |- _ => destruct p end; done
    | repeat first [apply copies_pair | apply copies_ptr | apply copies_slice | apply copies_scalar
                   | apply DeepCopyInto_ok | solve [auto with copies]]
    | intros x K; destruct x; unfold method, copyPair, mbind, M_bind; simpl;
      repeat (case_match; simplify_eq/=; try done) ].

Local Abbreviation copyInt := (copyPtr (Cell := Cell E) (T := Z) 0 mret).
Local Abbreviation copyString := (copyPtr (Cell := Cell E) (T := string) "" mret).
Local Abbreviation copyFloor := (copyPtr (Cell := Cell E) zeroFloor ThroughputFloorSpec_DeepCopyInto).

Local Abbreviation copyForeign T := (copySlice (Cell := Cell E) (T := T) zeroValue DeepCopyInto).

Lemma floor_copies : copies (V := ThroughputFloorSpec) ThroughputFloorSpec_DeepCopyInto.
Proof.
  copy_struct ThroughputFloorSpec_DeepCopyInto (fun '(a, (b, c)) => mkFloorRep a b c)
    (copyPair copyInt (copyPair copyString copyString)).
Qed.
#[local] Hint Resolve floor_copies : copies.

Lemma spec_copies : copies (V := GatewayConfigSpec) GatewayConfigSpec_DeepCopyInto.
Proof.
  copy_struct GatewayConfigSpec_DeepCopyInto
    (fun '(a, (b, (c, (d, (e, (f, (g, (h, i)))))))) => mkSpecRep a b c d e f g h i)
    (copyPair copyString (copyPair copyString (copyPair copyString
      (copyPair copyString (copyPair copyString (copyPair copyInt
        (copyPair copyInt (copyPair copyInt
          copyFloor)))))))).
Qed.
#[local] Hint Resolve spec_copies : copies.

Lemma configStatus_copies : copies (V := option (list Condition)) GatewayConfigStatus_DeepCopyInto.
Proof. copy_struct GatewayConfigStatus_DeepCopyInto (mkConfigStatusRep E) (copyForeign (ConditionRep E)). Qed.
#[local] Hint Resolve configStatus_copies : copies.

Lemma config_copies : copies (V := ConfigValue) GatewayConfig_DeepCopyInto.
Proof.
  copy_struct GatewayConfig_DeepCopyInto (fun '(a, (b, (c, d))) => mkConfigRep E a b c d)
    (copyPair (A := TypeMeta) mret (copyPair (DeepCopyInto (Cell := Cell E) (T := MetaRep E)) (copyPair GatewayConfigSpec_DeepCopyInto GatewayConfigStatus_DeepCopyInto))).
Qed.
#[local] Hint Resolve config_copies : copies.

Lemma configList_copies :
  copies (V := TypeMeta * (ListMeta * option (list ConfigValue))) GatewayConfigList_DeepCopyInto.
Proof.
  copy_struct GatewayConfigList_DeepCopyInto (fun '(a, (b, c)) => mkConfigListRep E a b c)
    (copyPair (A := TypeMeta) mret (copyPair (DeepCopyInto (Cell := Cell E) (T := ListMetaRep E)) (copySlice zeroConfig GatewayConfig_DeepCopyInto))).
Qed.

Lemma routeSpec_copies : copies (V := RouteSpecValue) RsyncRouteSpec_DeepCopyInto.
Proof.
  copy_struct RsyncRouteSpec_DeepCopyInto (fun '(a, (b, c)) => mkRouteSpecRep E a b c)
    (copyPair (copyForeign (ParentReferenceRep E)) (copyPair (copySlice (Cell := Cell E) "" mret)
      (copyForeign (BackendRefRep E)))).
Qed.
#[local] Hint Resolve routeSpec_copies : copies.

Lemma routeStatus_copies : copies (V := option (list RouteParentStatus)) RsyncRouteStatus_DeepCopyInto.
Proof. copy_struct RsyncRouteStatus_DeepCopyInto (mkRouteStatusRep E) (copyForeign (ParentStatusRep E)). Qed.
#[local] Hint Resolve routeStatus_copies : copies.

Lemma route_copies : copies (V := RouteValue) RsyncRoute_DeepCopyInto.
Proof.
  copy_struct RsyncRoute_DeepCopyInto (fun '(a, (b, (c, d))) => mkRouteRep E a b c d)
    (copyPair (A := TypeMeta) mret (copyPair (DeepCopyInto (Cell := Cell E) (T := MetaRep E)) (copyPair RsyncRouteSpec_DeepCopyInto RsyncRouteStatus_DeepCopyInto))).
Qed.
#[local] Hint Resolve route_copies : copies.

Lemma routeList_copies :
  copies (V := TypeMeta * (ListMeta * option (list RouteValue))) RsyncRouteList_DeepCopyInto.
Proof.
  copy_struct RsyncRouteList_DeepCopyInto (fun '(a, (b, c)) => mkRouteListRep E a b c)
    (copyPair (A := TypeMeta) mret (copyPair (DeepCopyInto (Cell := Cell E) (T := ListMetaRep E)) (copySlice zeroRoute RsyncRoute_DeepCopyInto))).
Qed.
Local Abbreviation Heap := (gmap nat (Cell E)).

(** *** Objects *)

Inductive Value :=
  | ConfigValueOf (v : option ConfigValue)
  | ConfigListValueOf (v : option (TypeMeta * (ListMeta * option (list ConfigValue))))
  | RouteValueOf (v : option RouteValue)
  | RouteListValueOf (v : option (TypeMeta * (ListMeta * option (list RouteValue)))).

Definition readObject (H : Heap) (o : Object) : option (Value * gset nat) :=
  match o with
  | ConfigObject p => '(v, F) ← read H p; Some (ConfigValueOf v, F)
  | ConfigListObject p => '(v, F) ← read H p; Some (ConfigListValueOf v, F)
  | RouteObject p => '(v, F) ← read H p; Some (RouteValueOf v, F)
  | RouteListObject p => '(v, F) ← read H p; Some (RouteListValueOf v, F)
  end.

#[export] Program Instance Readable_object : Readable (Cell := Cell E) Object Value := {| read := readObject |}.
Next Obligation.
  intros H K [p|p|p|p] v F Hr Hl; cbn [readObject] in *; apply bind_Some in Hr as ([w G] & Hw & [= <- <-]);
    by rewrite (read_local H K p w G Hw).
Qed.
Next Obligation.
  intros H [p|p|p|p] v F Hr; cbn [readObject] in *; apply bind_Some in Hr as ([w G] & Hw & [= <- <-]); by apply read_dom in Hw.
Qed.

Definition isNil (o : Object) : bool :=
  match o with
  | ConfigObject None | ConfigListObject None | RouteObject None | RouteListObject None => true
  | _ => false
  end.

(** A copy of an object, as [DeepCopyObject] returns it. *)
Definition copyOf (H : Heap) (o : Object) (v : Value) (res : outcome (option Object * Heap)) : Prop :=
  ∃ o' K, res = Done (o', K) ∧ H ⊆ K ∧
    match o' with
    | None => isNil o = true
    | Some o' => isNil o = false ∧ isNil o' = false ∧ ∃ G, read K o' = Some (v, G) ∧ G ## dom H
    end.

Lemma objectOf_copies {T V} `{!Stored (Cell := Cell E) T, !Readable (Cell := Cell E) T V} zero (copy : T → M T)
    (wrap : option (Ref T) → Object) (wrapV : option V → Value) p v (F : gset nat) H :
  copies (V := V) copy → isNil (wrap None) = true → (∀ r, isNil (wrap (Some r)) = false) →
  (∀ K q, readObject K (wrap q) = '(w, G) ← read K q; Some (wrapV w, G)) →
  read H p = Some (v, F) → copyOf H (wrap p) (wrapV v) (objectOf wrap (copyPtr zero copy) p H).
Proof.
  intros Hc Hn Hs Hread Hr.
  destruct (copies_ptr zero copy Hc H p v F Hr) as (q & K & G & E1 & HsK & HrK & Hd).
  unfold objectOf, mbind, M_bind. rewrite E1. eexists _, K. split; [done|]. split; [done|].
  assert (q = None ↔ p = None) as Hpq.
  { destruct p as [r|], q as [r'|]; simpl in Hr, HrK; try done; split; try done.
    injection HrK as <- <-. apply bind_Some in Hr as (x & _ & Hr). by apply bind_Some in Hr as ([] & _ & [=]). }
  destruct q as [r|].
  - destruct p as [r0|]; [|by destruct Hpq as [_ ?]; naive_solver]. split; [done|]. split; [done|].
    exists G. split; [|done]. simpl. by rewrite Hread, HrK.
  - destruct Hpq as [-> _]; done.
Qed.

Lemma DeepCopyObject_copies H o v F : read H o = Some (v, F) → copyOf H o v (DeepCopyObject o H).
Proof.
  destruct o as [p|p|p|p]; cbn [read Readable_object readObject DeepCopyObject]; intros ([w G] & Hw & [= <- <-])%bind_Some.
  - by apply (objectOf_copies zeroConfig GatewayConfig_DeepCopyInto ConfigObject ConfigValueOf p w G H config_copies).
  - by apply (objectOf_copies zeroConfigList GatewayConfigList_DeepCopyInto ConfigListObject ConfigListValueOf p w G H
      configList_copies).
  - by apply (objectOf_copies zeroRoute RsyncRoute_DeepCopyInto RouteObject RouteValueOf p w G H route_copies).
  - by apply (objectOf_copies zeroRouteList RsyncRouteList_DeepCopyInto RouteListObject RouteListValueOf p w G H
      routeList_copies).
Qed.

(** C29: Copying any API object returns (no nil pointer is followed and no index is out of range):
    nil exactly for nil, and otherwise a pointer to an object of the same type that stands for the same value, nil and
    empty slices told apart.  Copying changes no cell there was; afterwards, whatever is written
    to the cells of the copy leaves the original as it was, and whatever is written to the cells
    of the original leaves the copy as it was. *)
Theorem deepcopy_isolates H o v F :
  read H o = Some (v, F) →
  ∃ o' K, DeepCopyObject o H = Done (o', K) ∧ H ⊆ K ∧
    match o' with
    | None => isNil o = true
    | Some o' => isNil o = false ∧ isNil o' = false ∧ ∃ G, read K o' = Some (v, G) ∧
        (∀ L, writtenOn G K L → read L o = Some (v, F)) ∧
        (∀ L, writtenOn F K L → read L o' = Some (v, G))
    end.
Proof.
  intros Hr. destruct (DeepCopyObject_copies H o v F Hr) as (o' & K & E1 & Hs & Ho).
  exists o', K. split; [done|]. split; [done|]. destruct o' as [o'|]; [|done].
  destruct Ho as (Hn & Hn' & G & HrK & Hd). split; [done|]. split; [done|]. exists G. split; [done|]. split.
  - intros L HL. by apply (read_isolated H K L o v F G).
  - intros L HL. apply (read_local K L o' v G HrK). intros l Hl. apply HL; [by apply (read_dom K o' v G)|].
    intros HF. apply (read_dom H o v F Hr) in HF. set_solver.
Qed.
End copies.

(** ** An instance *)

(** Foreign structs without pointers, but for the labels of an object. *)
Definition demoForeign : Foreign :=
  mkForeign ((string * (string * (Z * Z))) * option (Ref (gmap string string))) unit Condition ParentReference
    BackendRef RouteParentStatus (gmap string string).

#[local] Instance labels_stored : Stored (Cell := Cell demoForeign) (gmap string string) := Stored_Other.

Definition Copyable_scalar {T} (zero : T) : Copyable (Cell := Cell demoForeign) T T :=
  {| zeroValue := zero; DeepCopyInto_ok := copies_scalar |}.

#[local] Instance labels_copyable : Copyable (Cell := Cell demoForeign) (gmap string string) (gmap string string) :=
  Copyable_scalar ∅.
#[local] Instance listMeta_copyable : Copyable (Cell := Cell demoForeign) unit unit := Copyable_scalar tt.
#[local] Instance condition_copyable : Copyable (Cell := Cell demoForeign) Condition Condition :=
  Copyable_scalar (mkCondition "" "" 0 0 "" "").
#[local] Instance parentRef_copyable : Copyable (Cell := Cell demoForeign) ParentReference ParentReference :=
  Copyable_scalar (mkParentRef None None None "" None None).
#[local] Instance backendRef_copyable : Copyable (Cell := Cell demoForeign) BackendRef BackendRef :=
  Copyable_scalar (mkBackendRef None None "" None None None).
#[local] Instance parentStatus_copyable : Copyable (Cell := Cell demoForeign) RouteParentStatus RouteParentStatus :=
  Copyable_scalar (mkParentStatus (mkParentRef None None None "" None None) "" []).

Definition metaValue (x : (string * (string * (Z * Z))) * option (gmap string string)) : ObjectMeta :=
  let '((ns, (name, (gen, created))), labels) := x in mkMeta ns name gen created (default ∅ labels).

#[local] Program Instance meta_copyable : Copyable (Cell := Cell demoForeign) (MetaRep demoForeign) ObjectMeta :=
  {| copyable_read := Readable_via (Readable0 := Readable_pair (Readable0 := Readable_scalar)) id metaValue;
     zeroValue := (("", ("", (0, 0))), None);
     DeepCopyInto := copyPair mret (copyPtr ∅ DeepCopyInto) |}.
Next Obligation.
  apply (copies_via (Readable0 := Readable_pair (Readable0 := Readable_scalar)) id id metaValue _
    (copyPair mret (copyPtr ∅ DeepCopyInto))).
  - done.
  - apply copies_pair; [apply copies_scalar|apply copies_ptr, DeepCopyInto_ok].
  - intros x H. by destruct (copyPair _ _ _ _) as [[]| |].
Qed.

(** A [GatewayConfig] whose two timeouts share a cell, and whose conditions are the tail of an array. *)
Definition demoCond (type : string) : Condition := mkCondition type "True" 1 0 "" "".
Definition demoSpecRep : GatewayConfigSpecRep :=
  mkSpecRep (Some (mkRef 1%nat)) (Some (mkRef 4%nat)) None None (Some (mkRef 4%nat)) None None None (Some (mkRef 2%nat)).
Definition demoConfigRep : GatewayConfigRep demoForeign :=
  mkConfigRep demoForeign ("GatewayConfig", "v1alpha1") (("ns", ("name", (1, 0))), Some (mkRef 6%nat)) demoSpecRep
    (mkConfigStatusRep demoForeign (Some (mkHeader 5%nat 1%nat 1%nat))).
Definition demoHeap : gmap nat (Cell demoForeign) :=
  list_to_map [(0%nat, ConfigCell demoForeign demoConfigRep); (1%nat, StringCell demoForeign "hello");
    (2%nat, FloorCell demoForeign (mkFloorRep (Some (mkRef 3%nat)) None None)); (3%nat, IntCell demoForeign 4096);
    (4%nat, StringCell demoForeign "60s"); (5%nat, ConditionsCell demoForeign [demoCond "Old"; demoCond "Accepted"]);
    (6%nat, OtherCell demoForeign {[ "app" := "mirror" ]})].
Definition demoValue : Value (ListMeta := unit) :=
  ConfigValueOf (Some (("GatewayConfig", "v1alpha1"), (mkMeta "ns" "name" 1 0 {[ "app" := "mirror" ]},
    (mkGatewayConfigSpec (Some "hello") (Some "60s") None None (Some "60s") None None None
       (Some (mkThroughputFloor (Some 4096) None None)), Some [demoCond "Accepted"])))).

Lemma deepcopy_isolates_witness :
  ∃ o' K G, DeepCopyObject (ConfigObject (E := demoForeign) (Some (mkRef 0%nat))) demoHeap = Done (Some o', K) ∧
    read K o' = Some (demoValue, G) ∧
    ∀ L, writtenOn G K L → ∃ F, read L (ConfigObject (E := demoForeign) (Some (mkRef 0%nat))) = Some (demoValue, F).
Proof.
  destruct (read demoHeap (ConfigObject (E := demoForeign) (Some (mkRef 0%nat)))) as [[v F]|] eqn:E;
    [|by vm_compute in E].
  assert (v = demoValue) as -> by (vm_compute in E; by injection E).
  destruct (deepcopy_isolates demoHeap _ _ F E) as ([o'|] & K & E1 & _ & Ho); [|done].
  destruct Ho as (_ & _ & G & HrK & HL & _). exists o', K, G. split_and!; [done|done|]. intros L HwL. exists F. by apply HL.
Defined.
